(* ===== verification/_CoqProject ===== *)
-Q . S2P
Prelude.v
GoLib.v
Resp.v
MemDB.v
Locking.v
CmdExecutor.v
Utf8.v
Json.v
Fsm.v
RespServer.v
Membership.v
Config.v
CommandLine.v
Identity.v
Startup.v
Cluster.v
Consistency.v
Join.v
Client.v
Float64.v
FloatText.v
JsonCodec.v
Rfc3339.v
Workload.v
Harness.v
Process.v
Replies.v
Recovery.v
Routes.v
Goroutines.v
Announce.v
Measure.v
Results.v
Host.v
Compare.v
Run.v
Report.v
Command.v
