(* ===== verification/Prelude.v ===== *)
(** * SkiffDB verification library

    SkiffDB (Go, under src/) is a key-value store that speaks the Redis
    protocol and replicates its writes with the Raft library of HashiCorp.
    This library models its server program and proves it correct; where
    the code does something else than it means to, a theorem says what.

    ** The program and its parts

    A connection ([handleConnection], src/server/resp_server.go) parses a
    request ([ParseRESPCommand], src/resp/parser.go), turns it into a command
    ([BuildCmd], src/core/cmd_executor.go) and runs it: at once on the
    database ([ExecuteLocally]) if it is a read or Raft is not in use, else
    through the replicated log ([ApplyCmdViaRaft], src/core/raft.go).  The Raft
    library calls the state machine ([fsm.Apply], [Snapshot], [Restore],
    src/core/raft.go) for the committed entries, which are JSON texts of
    commands; the state machine executes them on the in-memory database
    (src/core/memdb.go).  A node starts by resolving its identity
    (src/core/raft_identity.go), opening its stores (src/core/raft_storage.go),
    and creating or joining a cluster ([StartRaft]); joining goes through the
    admin service of the leader (src/server/raft_server.go), which registers the
    node without a vote and promotes it once it has caught up
    ([JoinClusterWithProgress]).  [main] (main.go) starts the admin server
    ([InitRaft]) and the database server ([InitRESPTCPServer]) and waits for both
    to end after a signal.

    ** The files

    - [Prelude]: Go strings, the outcomes of a Go call (value, error, panic) and
      the state monad [GM] over them, 64-bit integers, tactics, hints.
    - [GoLib]: the parts of packages strings, strconv and unicode/utf8 in use.
    - [Resp]: [Build] is src/resp/util.go, [Parser] is src/resp/parser.go.  The
      [ParserContext] is the monad's state, the reader the list of bytes that
      the connection still delivers.
    - [MemDB]: src/core/memdb.go over a heap of maps shared by reference.
      [KVOps]/[KVLaws] are the interface to the executor.
    - [Locking]: the read-write mutex of the database and the critical sections
      under it as programs of single map accesses, run by any number of
      goroutines ([lstep]).
    - [CmdExecutor]: src/core/cmd_executor.go, written and verified against
      [KVLaws]; [denote] is the abstract specification of the commands on
      key spaces.
    - [Utf8], [Json]: the repair of invalid UTF-8 and package encoding/json,
      with the proof that reading inverts writing ([parse_print]).
    - [Fsm]: the state machine; [CmdCodec] and [SnapCodec] are the JSON forms of
      its entries and snapshots.
    - [RespServer]: the connection loop, the routing of commands, and the Raft
      command path ([ApplyCmdViaRaft], [SaveSnapshot]).
    - [Membership]: [JoinClusterWithProgress] and its helpers; [Admin] is the
      call [JoinCluster] of the admin service.  [Local] is a small instance of
      the Raft library for the witnesses.
    - [Config]: src/core/config.go, path/filepath ([Path]) and
      [raftNodeDataDir].
    - [CommandLine]: the flags of the server and package flag.
    - [Identity]: src/core/raft_identity.go on a file system ([Disk]) in which
      contents and names reach the disk only by syncing; [Logic] has the rules
      by which its operations keep a crash invariant.
    - [Startup]: [StartRaft], [ShutdownRaft], the stores, joining a cluster.
    - [Cluster]: the announcement of the leader, and the replicas of a cluster
      as a transition system whose steps are the operations of the files above.
    - [Consistency]: the cluster of [Cluster] with its clients ([Service], [sstep]):
      calls that are invoked, proposed, answered or lost, and the trace of what the
      clients saw.
    - [Join]: [joinCluster] of a starting node against the admin service of the
      leader, with lost answers and other requests in between.
    - [Client]: the RESP client of the benchmark harness
      (benchmarks/harness/client.go).
    - [Harness]: the clusters of the harness (benchmarks/harness/cluster.go): the
      nodes, the processes started for them with their arguments, and what
      [startCluster], [stopNode], [restartNode] and [stopAll] do to them; what
      sampling leaves of a process ([peakRSS], [readDiskCounters]).
    - [Process]: main.go, [InitRaft] and [InitRESPTCPServer]: the state [Proc] of
      the process (where each goroutine stands, the wait group, the context, the
      open connections, the Raft node, the database) and its steps [pstep], each
      labelled with who takes it.  [executeRESPCmd] is split at its locks.
    - [Replies]: the sizes the parser admits, and the replies of the server as
      the client reads them.
    - [Recovery]: the constants of snapshots and log truncation together.
    - [Routes]: the two ways a command can take, compared.
    - [Goroutines]: every function that takes a lock, as the sequence of its lock
      operations, its accesses to shared variables and its calls to the Raft
      library ([executeRESPCmd_code], [JoinClusterWithProgress_code], ...), run
      by any number of goroutines beside the library's own ([gstep]).
    - [Announce]: the two goroutines and channels of
      [observeClusterLeaderChange] ([pipe_step]).
    - [Float64]: the type [float64] over the Standard Library's [SpecFloat], with
      the rounding of products and quotients of integers; [FloatText]: floats as
      decimal text (the shortest that reads back, and a fixed number of places).
    - [JsonCodec]: encoding/json on typed values (structs with tags, slices,
      pointers, maps, [any]), indented output; [Rfc3339]: the calendar and the text
      of [time.Time].
    - [Workload]: the summaries of measurements (the second half of
      benchmarks/harness/workload.go).
    - [Measure]: profiles and options (profile.go), the workers of a phase and
      the result of a workload (the first half of workload.go).
    - [Results]: benchmarks/harness/types.go, the records and their codecs.
    - [Host]: the metadata of a run and the name of its directory (run.go).
    - [Compare]: benchmarks/harness/compare.go.
    - [Run]: [Run] and [runScenarios] of benchmarks/harness/run.go over the
      clusters of [Harness]; the state [RunState] is the bundle, all clusters
      of the run and the files written.
    - [Report]: runs and comparisons together.
    - [Command]: benchmarks/cmd/skiffdb-bench/main.go, its flags and exit status.

    ** What the theorems show

    - The data path.  Parsing inverts the builders ([parse_BuildArray]) and
      always ends ([parse_progress]), and a connection runs for no more rounds
      than it has bytes ([connection_terminates]).  The executor refines
      the specification ([executeOnDB_refines]); from this follow
      [reads_do_not_write], [get_last_set] and [incr_counts].  Pipelined requests
      are answered one by one in order ([pipelined_requests]), every reply is one
      complete response whatever the client sends ([replies_framed]), and a
      client reads back exactly the replies of the specification
      ([client_session]).
    - Concurrency.  Interleaved calls of the database behave as if they ran one
      after the other ([linearizable]); increments are not lost
      ([no_lost_increment]).  The goroutines of a node never block each other for
      ever ([calls_return]), and all shared variables but the leader's address
      are accessed under their locks ([guarded_variables]).  The goroutines that
      announce the leader compute the function [observe] of what they are told
      ([pipeline_refines_observe]).
    - Replication.  Applying an entry executes its command ([apply_executes]), a
      snapshot is isolated from later writes and restores exactly
      ([snapshot_isolated], [snapshot_roundtrip]), a refused restore changes
      nothing.  In every reachable state of the cluster a replica holds what the
      specification assigns to its prefix of the log ([replicas_agree]) and can
      go on ([apply_progress]).  The leader's answer to a write is that of the
      specification at the place of the write in the log
      ([acknowledged_write]).  Seen by all clients together the writes that nodes with
      Raft answer are linearizable in the order of the log ([writes_linearizable]);
      their reads are served from prefixes of the log, with the session guarantees that
      this leaves ([session_guarantees]); answers without the log come only from nodes on
      which Raft was shut down; a write that is still open can be answered
      ([write_completes]).  A client cannot tell an undisturbed leader from
      a server without Raft ([leader_equals_standalone]); no client changes a
      follower ([follower_read_only]).  The log that is kept behind the newest
      snapshot is long enough for it and for every older one that at most two
      thresholds of entries followed ([retained_snapshot_recovers]).
    - Membership.  A vote is given only to members that have caught up with a
      frozen target ([voter_only_after_catchup], [target_frozen]), IDs and
      addresses stay unique ([members_stay_unique]), conflicting requests are
      refused, a member that has caught up is promoted.  From the side of the
      joining node: when [joinCluster] succeeds the node has earned its vote that
      way ([join_earns_vote]), and it succeeds if the node catches up in time
      ([join_succeeds]).
    - A node's life.  Writing the identity is atomic under faults and crashes,
      and lasting if its directory was on disk before
      ([identity_crash_safe]), and it is read back exactly ([identity_roundtrip]); starting opens and closes
      in balance on every path ([start_releases]),
      bootstraps only a fresh node, and publishes only a member; the stores are
      private and synced ([storage_opened_safely]); node directories stay inside
      the Raft directory ([node_dir_confined]).
    - The process.  [main] returns only after a complete shutdown
      ([exit_after_shutdown]), and after the signal nothing can block it
      ([shutdown_progress]); until Raft is shut down every accepted write goes
      through the log ([writes_replicated]).
    - The harness and the server together.  Every setting of the flags can be
      written on the command line ([parse_command_line]); the server accepts every
      start the harness makes, restarts included ([launches_accepted]); a cluster
      starts completely or leaves nothing behind ([start_cleans_up]), and so
      does a whole run ([run_cleans_up]).
    - The measurements.  A worker records what it sent and what came back
      ([worker_measures]), without errors on a server of this repository
      ([worker_on_server]).  Percentiles are exact sample quantiles
      ([percentile_rank]), the intervals cover the time measured
      ([intervals_account]) and the tallies of a result agree
      ([workload_accounts]), although all of them are computed in floating
      point.  A completed bundle has everything the profile asks for
      ([run_completed]), and runs are comparable exactly under the stated
      conditions ([comparison_sound]).
    - The results.  Decoding the JSON of a record inverts encoding it, up to what
      JSON forgets (the class [CodecLaws], [document_roundtrip]), floats and times
      included ([parse_format], [parse_time_text]); so a comparison reads what a
      run wrote ([result_reloads]), and two runs of one experiment are found
      comparable with each measurement of the one beside the same of the other
      ([runs_comparable]).  All options can be given on the command line
      ([command_options]), and the exit status tells success from failure
      ([bench_exit]).
    - Deviations, each with a concrete input: an empty last argument leaves its
      line end in the stream ([parse_empty_last_arg]); a length below -2 makes
      the parser panic ([bulk_header_panics_iff]); bytes that are not UTF-8 do
      not survive the log ([binary_value_replaced]); the address of the leader
      is never recorded ([redirect_leads_nowhere]) and a leader announces itself
      at most once ([announced_at_most_once]); two odd node IDs are accepted
      ([accepted_collisions]); the leader's address is read and written without
      synchronisation ([leader_address_race]) and the goroutine that forwards
      observations can be left behind when the context ends
      ([forwarder_stuck]); writes that arrive after the shutdown of Raft are
      acknowledged without replication ([unreplicated_write]); a database address
      in use ends the process with the Raft stores open ([listener_failures]); an
      identity in a directory that was just created can be lost in a crash
      ([new_directory_lost]); the log tail is too short for the oldest of three snapshots
      once the log goes on ([oldest_out_of_reach]).

    ** Bounds and fuel

    Recursion that is not structural has a fuel argument, and running out of it
    is an outcome of its own that the termination theorems exclude.
    [ParseRESPCommand] calls itself to depth 4 at most (command start, array, length
    and body of a bulk string); the loop of an array and that of a
    connection have one round per byte and one more, since a round that does not
    end them consumes a byte; the JSON reader has two units per byte and two
    more.  [wait_rounds] (1502) is the 30 seconds of
    [waitForLocalRaftConfiguration] in steps of 20 milliseconds: the ticker and
    the timer of the code are the oracle [wait_event], and the theorems about
    starting assume that the timer fires in time.  [join_attempts] is the
    number of attempts [retry.Do] is asked for (151).  The harness polls every 25
    milliseconds, so 600 rounds are its 15 seconds; finding free ports needs one
    round per port when the system does not give out a port twice, which
    [listeners_distinct] assumes.  A worker's loop has one round per check of its
    context, which [worker_measures] lets end after any number of them.  The
    percentiles are exact for up to 2^40 values and the intervals for up to
    2^53 nanoseconds (104 days), where every integer involved is a float.
    [existingPath] climbs at most one directory per byte of the path
    ([existingPath_total]); [ParseDuration] reads at least one byte per part.
    Integers of type [int] wrap at
    64 bits; allocations panic above 2^48 bytes.

    ** What is assumed of code outside the repository

    The Raft library is the classes [RaftLib] and [MembershipLib] with the laws
    [RaftLaws] and [MembershipLaws]; the retry library is [RetryLib] with
    [RetryLaws], and [RetryContinues] for [join_succeeds]; the Unicode case tables are [UnicodeTables], without a law.
    That the Raft library keeps the configured number of entries behind a snapshot
    is [CompactionLaws]; a cluster that keeps its leader and commits everything is
    [Undisturbed], which only [leader_equals_standalone] assumes.
    The calls of start-up to the operating system, the stores, the network and
    the Raft library are the fields of [Env], which fix how each call turns out
    and are arbitrary.  In [Goroutines] a call of the Raft library returns by
    itself or when the state machine goroutine has done its job, and the log has
    the entries that this program proposes.  Clocks, random draws and the
    implementation-defined conversions of floats out of range ([FloatToInt]) are
    arbitrary.  Package sync's mutex and wait group and the context of
    the signal are modelled by the states they keep.  Disk operations fail as an
    arbitrary function from the number of the operation says.  In [Consistency] a
    running node installs only snapshots that are not older than its state, and the
    goroutines of a Raft instance have ended when its shutdown returns; in
    [join_succeeds] the context of the retry library is not cancelled, and a
    conversation in [Join] is with one admin server.  Which texts [time.Time]
    accepts beyond RFC 3339 is [TimeParse], without a law.  The outputs of git, df, ps
    and vm_stat and the contents of /proc are arbitrary.  That the committed log is one sequence is the
    shape of the state of [Cluster].  Every law has an instance among the
    witnesses.

    ** What is not modelled

    Sockets are streams of bytes and gRPC is the call it carries; that
    [GracefulStop] ends [Serve] and that closing a listener ends [Accept] are the
    guards of the steps of [Process], where a connection reads whole commands:
    how bytes become commands is the matter of [RespServer].  Logging has no
    effect on the state, except whether a write error is worth a line
    ([logs_write]).  The texts of most errors are not kept apart from their
    constructors.  Commented-out code of config.go is not translated.  Of the
    benchmark harness (benchmarks/harness), dialling and closing the sockets of a
    client is not modelled, and the build of the server and the process that runs it
    enter by how they turn out.  What the commands print to the terminal is not
    modelled. *)

From stdpp Require Export base option list gmap fin_maps strings numbers sorting.
From Stdlib Require Export Ascii ZArith Lia.

(** ** Strings and bytes

    A Go [string] (and a [[]byte]) is a sequence of bytes; a byte is an
    [ascii].  [§"OK"] is the Go literal ["OK"]. *)
Abbreviation gostring := (list ascii).

Declare Scope go_scope.
Delimit Scope go_scope with go.
Open Scope go_scope.

Notation "§ s" := (String.list_ascii_of_string s%string)
  (at level 8, s at level 0, format "§ s") : go_scope.

(** The value of a byte. *)
Abbreviation byte := N_of_ascii.

(** "\r\n" *)
Definition CRLF : gostring := ["013"%char; "010"%char].

(** ** Outcomes

    A Go call returns a value, returns an error value, or panics.  A model
    with a fuel argument also reports when the fuel was too small; the
    termination theorems show where that never happens. *)
Inductive outcome (E A : Type) : Type :=
| Ok (a : A)
| Err (e : E)
| Panic
| OutOfFuel.
Arguments Ok {_ _} _.
Arguments Err {_ _} _.
Arguments Panic {_ _}.
Arguments OutOfFuel {_ _}.

(** The state-and-outcome monad: the state survives an error, as a Go
    receiver's fields do. *)
Definition GM (S E A : Type) : Type := S → outcome E A * S.

#[export] Instance GM_ret {S E} : MRet (GM S E) := λ _ a s, (Ok a, s).
#[export] Instance GM_bind {S E} : MBind (GM S E) := λ _ _ f m s,
  match m s with
  | (Ok a, s') => f a s'
  | (Err e, s') => (Err e, s')
  | (Panic, s') => (Panic, s')
  | (OutOfFuel, s') => (OutOfFuel, s')
  end.

Definition throw {S E A} (e : E) : GM S E A := λ s, (Err e, s).
Definition gopanic {S E A} : GM S E A := λ s, (Panic, s).
Definition nofuel {S E A} : GM S E A := λ s, (OutOfFuel, s).
Definition getS {S E} : GM S E S := λ s, (Ok s, s).
Definition modifyS {S E} (f : S → S) : GM S E unit := λ s, (Ok tt, f s).

(** [err := f()]: the error of a call as a value. *)
Definition catch {S E A} (m : GM S E A) : GM S E (E + A) := λ s,
  match m s with
  | (Ok a, s') => (Ok (inr a), s')
  | (Err e, s') => (Ok (inl e), s')
  | (Panic, s') => (Panic, s')
  | (OutOfFuel, s') => (OutOfFuel, s')
  end.

Section GM_lemmas.
Context {S E A B : Type}.
Implicit Types (m : GM S E A) (f : A → GM S E B) (s : S).

Lemma gm_bind_ok m f s a s' : m s = (Ok a, s') → (m ≫= f) s = f a s'.
Proof. unfold mbind, GM_bind. by intros ->. Qed.

Lemma gm_bind_err m f s e s' : m s = (Err e, s') → (m ≫= f) s = (Err e, s').
Proof. unfold mbind, GM_bind. by intros ->. Qed.

Lemma gm_bind_panic m f s s' : m s = (Panic, s') → (m ≫= f) s = (Panic, s').
Proof. unfold mbind, GM_bind. by intros ->. Qed.

Lemma gm_bind_inv m f s b s' : (m ≫= f) s = (Ok b, s') →
  ∃ a s1, m s = (Ok a, s1) ∧ f a s1 = (Ok b, s').
Proof. unfold mbind, GM_bind. destruct (m s) as [[] ?]; try done. eauto. Qed.

(** A bound computation ends in its second part, or where its first part does. *)
Lemma gm_bind_split m f s o s' : (m ≫= f) s = (o, s') →
  (∃ a s1, m s = (Ok a, s1) ∧ f a s1 = (o, s')) ∨ (∃ r, m s = (r, s')).
Proof.
  unfold mbind, GM_bind. destruct (m s) as [[a|e| |] s1]; intros HE; [left; by exists a, s1|right..];
    injection HE as <- <-; by eexists.
Qed.

Lemma gm_bind_ret (a : A) f s : (mret a ≫= f) s = f a s.
Proof. done. Qed.

Lemma gm_bind_getS (k : S → GM S E B) s : (getS ≫= k) s = k s s.
Proof. done. Qed.

Lemma gm_bind_modifyS g (k : unit → GM S E B) s : (modifyS g ≫= k) s = k tt (g s).
Proof. done. Qed.
End GM_lemmas.

(** [total m]: [m] returns, with a value or an error, from every state. *)
Definition total {S E A} (m : GM S E A) : Prop :=
  ∀ s, match fst (m s) with Ok _ | Err _ => True | Panic | OutOfFuel => False end.

Section totality.
Context {S E A B : Type}.
Implicit Types (m : GM S E A) (f : A → GM S E B).

Lemma total_ret (a : A) : total (mret a : GM S E A).
Proof. done. Qed.
Lemma total_throw (e : E) : total (throw e : GM S E A).
Proof. done. Qed.
Lemma total_getS : total (getS : GM S E S).
Proof. done. Qed.
Lemma total_modifyS g : total (modifyS g : GM S E unit).
Proof. done. Qed.
Lemma total_bind m f : total m → (∀ a, total (f a)) → total (m ≫= f).
Proof.
  intros Hm Hf s. specialize (Hm s). unfold mbind, GM_bind.
  destruct (m s) as [[a| | |] s']; [apply Hf|done..].
Qed.
Lemma total_catch m : total m → total (catch m).
Proof. intros Hm s. specialize (Hm s). unfold catch. by destruct (m s) as [[] ?]. Qed.
End totality.

(** Step through the bound computations of a goal whose outcome is known. *)
Tactic Notation "gm_step" uconstr(H) := first [ rewrite (gm_bind_ok _ _ _ _ _ H)
                        | rewrite (gm_bind_err _ _ _ _ _ H)
                        | rewrite (gm_bind_panic _ _ _ _ H) ].

(** Run a computation to its branches. *)
Ltac gm_crush :=
  unfold mbind, GM_bind, mret, GM_ret, throw, catch, modifyS, gopanic, nofuel, getS in *;
  repeat (case_match; simplify_eq/=).

(** ** Machine integers

    [int] is 64 bits wide on the supported platforms; arithmetic wraps. *)
Definition wrap64 (z : Z) : Z := ((z + 2^63) mod 2^64 - 2^63)%Z.
Definition in_int64 (z : Z) : Prop := (- 2^63 ≤ z < 2^63)%Z.
#[export] Instance in_int64_dec z : Decision (in_int64 z).
Proof. unfold in_int64. apply _. Defined.

Lemma wrap64_range z : in_int64 (wrap64 z).
Proof.
  unfold in_int64, wrap64.
  pose proof (Z.mod_pos_bound (z + 2^63) (2^64) eq_refl). lia.
Qed.

Lemma wrap64_id z : in_int64 z → wrap64 z = z.
Proof. unfold in_int64, wrap64. intros ?. rewrite Z.mod_small; lia. Qed.

Lemma wrap64_cong z : ∃ q, (wrap64 z = z + q * 2^64)%Z.
Proof.
  unfold wrap64. exists (- ((z + 2^63) / 2^64))%Z.
  pose proof (Z.div_mod (z + 2^63) (2^64) ltac:(lia)). lia.
Qed.

Lemma wrap64_shift z q : (wrap64 (z + q * 2^64) = wrap64 z)%Z.
Proof.
  unfold wrap64. replace (z + q * 2^64 + 2^63)%Z with (z + 2^63 + q * 2^64)%Z by lia.
  by rewrite Z.mod_add by lia.
Qed.

Lemma wrap64_add_l a b : wrap64 (wrap64 a + b) = wrap64 (a + b).
Proof.
  destruct (wrap64_cong a) as [q ->].
  replace (a + q * 2^64 + b)%Z with ((a + b) + q * 2^64)%Z by lia.
  apply wrap64_shift.
Qed.

(** ** Automation *)
Create HintDb skiff discriminated.
#[export] Hint Resolve wrap64_range total_ret total_throw total_getS total_modifyS total_catch : skiff.

(** A computation built from total ones is total. *)
Ltac solve_total :=
  repeat first [ apply total_bind; [|intros ?] | case_match | by auto with skiff ].

(** Evaluate a closed boolean or list computation. *)
Ltac vm_refl := vm_compute; reflexivity.

(** Case analysis on the scrutinee of a [match] or [if] of the goal, keeping
    its equation. *)
Ltac split_match :=
  match goal with
  | |- context [match ?x with _ => _ end] =>
      lazymatch x with
      | context [match _ with _ => _ end] => fail
      | _ => let E := fresh "E" in destruct x eqn:E
      end
  end.

(** The same for a hypothesis. *)
Ltac split_match_in H :=
  match type of H with
  | context [match ?x with _ => _ end] =>
      lazymatch x with
      | context [match _ with _ => _ end] => fail
      | _ => let E := fresh "E" in destruct x eqn:E
      end
  end.

(** Invert the equations between outcomes, pairs and options. *)
Ltac inv_ok := repeat (simplify_eq/=; try split_match; try done).

(** ** Generic lemmas *)
Section lists.
Context {A : Type}.
Implicit Types l : list A.

Lemma take_app_exact l1 l2 : take (length l1) (l1 ++ l2) = l1.
Proof. apply take_app_length. Qed.

Lemma drop_app_exact l1 l2 : drop (length l1) (l1 ++ l2) = l2.
Proof. apply drop_app_length. Qed.

Lemma insert_app_middle l1 l2 (x y : A) i :
  i = length l1 → <[i := y]> (l1 ++ x :: l2) = l1 ++ y :: l2.
Proof.
  intros ->. rewrite insert_app_r_alt by lia.
  by rewrite Nat.sub_diag.
Qed.
End lists.
