(* ===== verification/GoLib.v ===== *)
(** * The Go standard library, as far as SkiffDB uses it

    [strings] (prefixes, suffixes, [ToUpper], [TrimSpace]), [strconv]
    ([Itoa], [Atoi], [ParseUint]) and [unicode/utf8].  The functions are
    executable and work on the bytes of the string.  The case tables of
    package [unicode] are the one parameter: [strings.ToUpper] consults them
    only for a string with a byte outside ASCII. *)

From S2P Require Import Prelude.

(** ** Package strings *)
Definition HasPrefix (s pre : gostring) : bool := bool_decide (pre `prefix_of` s).
Definition HasSuffix (s suf : gostring) : bool := bool_decide (suf `suffix_of` s).
Definition TrimSuffix (s suf : gostring) : gostring :=
  if HasSuffix s suf then take (length s - length suf) s else s.

Fixpoint Contains (s sub : gostring) : bool :=
  HasPrefix s sub || match s with [] => false | _ :: s' => Contains s' sub end.

Lemma Contains_middle (a sub b : gostring) : Contains (a ++ sub ++ b) sub = true.
Proof.
  induction a as [|c a IH]; simpl.
  - destruct (sub ++ b) eqn:E; simpl; unfold HasPrefix; rewrite bool_decide_true; try done; exists b; congruence.
  - rewrite IH. apply orb_true_r.
Qed.

(** [a <= b] on strings compares the bytes. *)
Fixpoint bytes_leb (a b : gostring) : bool :=
  match a, b with
  | [], _ => true
  | _ :: _, [] => false
  | x :: a', y :: b' =>
      if (byte x <? byte y)%N then true
      else if (byte y <? byte x)%N then false else bytes_leb a' b'
  end.

Lemma HasSuffix_app s suf : HasSuffix (s ++ suf) suf = true.
Proof. apply bool_decide_eq_true. by exists s. Qed.

Lemma TrimSuffix_app s suf : TrimSuffix (s ++ suf) suf = s.
Proof.
  unfold TrimSuffix. rewrite HasSuffix_app, length_app.
  replace (length s + length suf - length suf) with (length s) by lia.
  apply take_app_exact.
Qed.

Lemma HasSuffix_split s suf :
  HasSuffix s suf = true → s = TrimSuffix s suf ++ suf.
Proof.
  intros Hs. pose proof Hs as [k ->]%bool_decide_eq_true.
  by rewrite TrimSuffix_app.
Qed.

Definition is_ascii_byte (c : ascii) : bool := (byte c <? 128)%N.
Definition is_ascii (s : gostring) : bool := forallb is_ascii_byte s.
Definition is_lower (c : ascii) : bool := (97 <=? byte c)%N && (byte c <=? 122)%N.
Definition upper_byte (c : ascii) : ascii :=
  if is_lower c then ascii_of_N (byte c - 32) else c.

(** The part of [strings.ToUpper] that maps the runes of a non-ASCII string
    through the Unicode case tables. *)
Class UnicodeTables := { map_unicode_ToUpper : gostring → gostring }.

Definition ToUpper `{UnicodeTables} (s : gostring) : gostring :=
  if is_ascii s then map upper_byte s else map_unicode_ToUpper s.

Lemma upper_byte_idem c : upper_byte (upper_byte c) = upper_byte c.
Proof. by destruct c as [[] [] [] [] [] [] [] []]. Qed.

Lemma upper_byte_ascii c : is_ascii_byte c = true → is_ascii_byte (upper_byte c) = true.
Proof. by destruct c as [[] [] [] [] [] [] [] []]. Qed.

(** White space, as the UTF-8 encodings of the runes [unicode.IsSpace]
    accepts. *)
Definition space_encodings : list gostring :=
  map (map ascii_of_N)
  ([[9]; [10]; [11]; [12]; [13]; [32]; [194; 133]; [194; 160]; [225; 154; 128]]
   ++ map (λ b, [226; 128; b]) [128; 129; 130; 131; 132; 133; 134; 135; 136; 137; 138; 168; 169; 175]
   ++ [[226; 129; 159]; [227; 128; 128]])%N.

Definition strip_one (encs : list gostring) (s : gostring) : option gostring :=
  match list_find (λ e, e `prefix_of` s) encs with
  | Some (_, e) => Some (drop (length e) s)
  | None => None
  end.

Fixpoint strip_all (fuel : nat) (encs : list gostring) (s : gostring) : gostring :=
  match fuel with
  | O => s
  | S fuel => match strip_one encs s with
              | Some s' => strip_all fuel encs s'
              | None => s
              end
  end.

Definition TrimLeftSpace (s : gostring) : gostring :=
  strip_all (length s) space_encodings s.
Definition TrimRightSpace (s : gostring) : gostring :=
  reverse (strip_all (length s) (map reverse space_encodings) (reverse s)).
Definition TrimSpace (s : gostring) : gostring := TrimRightSpace (TrimLeftSpace s).

Example TrimSpace_ascii : TrimSpace §"  node-1 " = §"node-1".
Proof. vm_refl. Qed.

(** Every white-space encoding is nonempty, so the fuel [length s] is enough:
    nothing can be stripped from the result. *)
Lemma strip_one_shorter encs s s' :
  Forall (λ e, e ≠ []) encs → strip_one encs s = Some s' → length s' < length s.
Proof.
  unfold strip_one. intros Hne Hs.
  destruct (list_find _ encs) as [[i e]|] eqn:Hf; simplify_eq.
  apply list_find_Some in Hf as (Hi & [k ->] & _).
  rewrite Forall_lookup in Hne. specialize (Hne _ _ Hi).
  rewrite drop_app_exact, length_app. destruct e; simpl; [done | lia].
Qed.

Lemma strip_all_done encs fuel s :
  Forall (λ e, e ≠ []) encs → length s ≤ fuel → strip_one encs (strip_all fuel encs s) = None.
Proof.
  intros Hne. revert s. induction fuel as [|fuel IH]; intros s Hlen; simpl.
  - destruct s; [|simpl in Hlen; lia].
    destruct (strip_one encs []) eqn:E; [|done].
    apply strip_one_shorter in E; [simpl in E; lia | done].
  - destruct (strip_one encs s) eqn:E; [|done].
    apply IH. apply strip_one_shorter in E; [lia | done].
Qed.

Lemma strip_all_None encs fuel s : strip_one encs s = None → strip_all fuel encs s = s.
Proof. destruct fuel; simpl; [done|]. by intros ->. Qed.

Lemma strip_all_suffix encs fuel s : strip_all fuel encs s `suffix_of` s.
Proof.
  revert s. induction fuel as [|fuel IH]; intros s; simpl; [done|].
  unfold strip_one. destruct (list_find _ encs) as [[i e]|]; [|done].
  etrans; [apply IH|]. apply suffix_drop.
Qed.

Lemma strip_one_prefix encs s p : p `prefix_of` s →
  strip_one encs s = None → strip_one encs p = None.
Proof.
  unfold strip_one. intros Hp. destruct (list_find _ encs) as [[i e]|] eqn:E; [done|].
  intros _. destruct (list_find (λ e, e `prefix_of` p) encs) as [[i e]|] eqn:E'; [|done].
  apply list_find_Some in E' as (Hi & He & _). exfalso.
  eapply list_find_None, Forall_lookup in E; [|exact Hi].
  apply E. by etrans.
Qed.

Lemma space_encodings_nonempty : Forall (λ e, e ≠ []) space_encodings.
Proof. repeat constructor; done. Qed.

Lemma rev_space_encodings_nonempty :
  Forall (λ e, e ≠ []) (map reverse space_encodings).
Proof. repeat constructor; done. Qed.

(** Trimming is idempotent: the accessors of [Config] may trim again. *)
Lemma TrimSpace_idem s : TrimSpace (TrimSpace s) = TrimSpace s.
Proof.
  assert (Hl : strip_one space_encodings (TrimSpace s) = None).
  { apply strip_one_prefix with (TrimLeftSpace s).
    - unfold TrimSpace, TrimRightSpace. apply prefix_suffix_reverse.
      rewrite reverse_involutive. apply strip_all_suffix.
    - apply strip_all_done; [apply space_encodings_nonempty | done]. }
  unfold TrimSpace at 1. unfold TrimLeftSpace.
  rewrite (strip_all_None _ _ _ Hl).
  unfold TrimRightSpace. rewrite strip_all_None; [apply reverse_involutive|].
  unfold TrimSpace, TrimRightSpace. rewrite reverse_involutive.
  apply strip_all_done; [apply rev_space_encodings_nonempty|].
  by rewrite length_reverse.
Qed.

(** Trimming leaves a string alone whose first and last byte neither begins nor
    ends the encoding of a space. *)
Definition no_head (encs : list gostring) (c : ascii) : bool :=
  forallb (λ e, match e with x :: _ => negb (bool_decide (x = c)) | [] => false end) encs.

Lemma strip_one_head encs c s : no_head encs c = true → strip_one encs (c :: s) = None.
Proof.
  intros H. unfold strip_one. assert (list_find (λ e, e `prefix_of` c :: s) encs = None) as ->; [|done].
  apply list_find_None. apply Is_true_eq_left, forallb_True in H. eapply Forall_impl; [exact H|].
  intros [|x e]; [done|]. simpl. case_bool_decide as Hx; [done|]. intros _ [k E]. apply Hx. by injection E.
Qed.

Lemma TrimSpace_fixed t c s s' d : t = c :: s → t = s' ++ [d] →
  no_head space_encodings c = true → no_head (map reverse space_encodings) d = true → TrimSpace t = t.
Proof.
  intros Hc Hd H1 H2. unfold TrimSpace, TrimLeftSpace, TrimRightSpace.
  rewrite (strip_all_None space_encodings) by (rewrite Hc; by apply strip_one_head).
  rewrite strip_all_None; [apply reverse_involutive|]. rewrite Hd, reverse_snoc. by apply strip_one_head.
Qed.

(** ** Package strconv *)
Definition is_digit (c : ascii) : bool := (48 <=? byte c)%N && (byte c <=? 57)%N.
Definition digit_val (c : ascii) : Z := (Z.of_N (byte c) - 48)%Z.
Definition digit_char (d : Z) : ascii := ascii_of_N (Z.to_N (d + 48)).

(** Decimal digits of a non-negative number; the fuel is its binary length. *)
Fixpoint dec_digits (fuel : nat) (n : Z) : gostring :=
  match fuel with
  | O => []
  | S fuel => if (n <? 10)%Z then [digit_char n]
              else dec_digits fuel (n / 10)%Z ++ [digit_char (n mod 10)%Z]
  end.
Definition udec (n : Z) : gostring := dec_digits (S (Z.to_nat (Z.log2 n))) n.

Definition Itoa (z : Z) : gostring :=
  if (z <? 0)%Z then "-"%char :: udec (- z) else udec z.

Definition digits_val (s : gostring) : Z :=
  fold_left (λ acc c, acc * 10 + digit_val c)%Z s 0%Z.

(** An unsigned decimal numeral: at least one digit, nothing else. *)
Definition parse_udec (s : gostring) : option Z :=
  if bool_decide (s ≠ []) && forallb is_digit s then Some (digits_val s) else None.

(** [strconv.Atoi]: an optional sign and a numeral in the range of [int]. *)
Definition Atoi (s : gostring) : option Z :=
  let check z := if decide (in_int64 z) then Some z else None in
  match s with
  | "-"%char :: s' => n ← parse_udec s'; check (- n)%Z
  | "+"%char :: s' => n ← parse_udec s'; check n
  | _ => n ← parse_udec s; check n
  end.

(** [strconv.ParseUint(s, 10, 64)] *)
Definition ParseUint (s : gostring) : option N :=
  n ← parse_udec s; if (n <? 2^64)%Z then Some (Z.to_N n) else None.

Lemma digit_char_spec d : (0 ≤ d < 10)%Z →
  is_digit (digit_char d) = true ∧ digit_val (digit_char d) = d.
Proof.
  intros Hd. assert (Hin : d ∈ [0;1;2;3;4;5;6;7;8;9]%Z).
  { repeat (destruct (decide (d = 0)) as [->|]; [set_solver|]). set_unfold. lia. }
  set_unfold. intuition subst; done.
Qed.

Lemma digits_val_snoc s c : digits_val (s ++ [c]) = (digits_val s * 10 + digit_val c)%Z.
Proof. unfold digits_val. by rewrite fold_left_app. Qed.

Lemma dec_digits_spec fuel n : (0 ≤ n < 2 ^ Z.of_nat fuel)%Z → fuel ≠ 0 →
  dec_digits fuel n ≠ [] ∧ forallb is_digit (dec_digits fuel n) = true ∧
  digits_val (dec_digits fuel n) = n.
Proof.
  revert n. induction fuel as [|fuel IH]; intros n Hn Hf; [done|]. simpl.
  destruct (Z.ltb_spec n 10) as [Hlt|Hge].
  - destruct (digit_char_spec n) as [Hd Hv]; [lia|]. simpl. rewrite Hd.
    unfold digits_val. simpl. rewrite Hv. auto with lia.
  - rewrite Nat2Z.inj_succ, Z.pow_succ_r in Hn by lia.
    pose proof (Z.div_mod n 10 ltac:(lia)). pose proof (Z.mod_pos_bound n 10 ltac:(lia)).
    destruct (digit_char_spec (n mod 10)) as [Hd Hv]; [done|].
    destruct (IH (n / 10)%Z) as (Hne & Hall & Hval).
    + split; [apply Z.div_pos; lia|]. apply Z.div_lt_upper_bound; lia.
    + intros ->. simpl in Hn. lia.
    + split_and!.
      * by destruct (dec_digits fuel (n / 10)).
      * rewrite forallb_app, Hall. simpl. by rewrite Hd.
      * rewrite digits_val_snoc, Hval, Hv. lia.
Qed.

Lemma udec_spec n : (0 ≤ n)%Z →
  udec n ≠ [] ∧ forallb is_digit (udec n) = true ∧ digits_val (udec n) = n.
Proof.
  intros Hn. apply dec_digits_spec; [|done]. split; [done|].
  destruct (decide (n = 0)%Z) as [->|]; [done|].
  pose proof (Z.log2_spec n ltac:(lia)). pose proof (Z.log2_nonneg n).
  rewrite Nat2Z.inj_succ, Z2Nat.id by lia. lia.
Qed.

Lemma parse_udec_udec n : (0 ≤ n)%Z → parse_udec (udec n) = Some n.
Proof.
  intros Hn. destruct (udec_spec n Hn) as (Hne & Hall & Hv).
  unfold parse_udec. by rewrite bool_decide_true, Hall, Hv.
Qed.

Lemma udec_inj n k : (0 ≤ n)%Z → (0 ≤ k)%Z → udec n = udec k → n = k.
Proof. intros Hn Hk E. pose proof (parse_udec_udec n Hn) as H. rewrite E, parse_udec_udec in H by done. by injection H. Qed.

Lemma digit_not_sign c : is_digit c = true → c ≠ "-"%char ∧ c ≠ "+"%char.
Proof. intros H. split; intros ->; done. Qed.

Lemma Atoi_digit c s : is_digit c = true →
  Atoi (c :: s) = (n ← parse_udec (c :: s); if decide (in_int64 n) then Some n else None).
Proof. intros H. by destruct c as [[] [] [] [] [] [] [] []]. Qed.

(** Printing and reading back an [int] is the identity. *)
Lemma Atoi_Itoa z : in_int64 z → Atoi (Itoa z) = Some z.
Proof.
  intros Hz. unfold Itoa. destruct (Z.ltb_spec z 0) as [Hneg|Hpos].
  - unfold Atoi. rewrite parse_udec_udec by lia. simpl.
    rewrite Z.opp_involutive. by rewrite decide_True.
  - destruct (udec_spec z Hpos) as (Hne & Hall & _).
    pose proof (parse_udec_udec z Hpos) as Hp.
    destruct (udec z) as [|c s]; [done|]. simpl in Hall.
    apply andb_true_iff in Hall as [Hc _].
    rewrite Atoi_digit, Hp by done. simpl. by rewrite decide_True.
Qed.

Lemma ParseUint_udec n : (n < 2^64)%N → ParseUint (udec (Z.of_N n)) = Some n.
Proof.
  intros Hn. unfold ParseUint. rewrite parse_udec_udec by lia. simpl.
  destruct (Z.ltb_spec (Z.of_N n) (2^64)); [by rewrite N2Z.id | lia].
Qed.

Lemma forallb_is_digit_nosep s c :
  forallb is_digit s = true → is_digit c = false → c ∉ s.
Proof.
  intros Hall Hc Hin. apply list_elem_of_In in Hin.
  rewrite forallb_forall in Hall. specialize (Hall _ Hin). congruence.
Qed.

Lemma Atoi_in_int64 s z : Atoi s = Some z → in_int64 z.
Proof.
  unfold Atoi. intros H.
  repeat (case_match || case_decide || simplify_option_eq); done.
Qed.

(** ** Lines and fields *)

(** [strings.Split(s, "\n")] *)
Fixpoint split_lines (s : gostring) : list gostring :=
  match s with
  | [] => [[]]
  | c :: s' =>
      if bool_decide (c = "010"%char) then [] :: split_lines s'
      else match split_lines s' with
           | x :: xs => (c :: x) :: xs
           | [] => [[c]]
           end
  end.

(** [strings.Fields]: [field] is the field being read. *)
Fixpoint fields_from (fuel : nat) (field s : gostring) : list gostring :=
  let done_field := if bool_decide (field = []) then [] else [field] in
  match fuel with
  | 0 => done_field
  | S fuel =>
      match strip_one space_encodings s with
      | Some s' => done_field ++ fields_from fuel [] s'
      | None => match s with
                | [] => done_field
                | c :: s' => fields_from fuel (field ++ [c]) s'
                end
      end
  end.
Definition Fields (s : gostring) : list gostring := fields_from (S (length s)) [] s.
