(* ===== verification/Resp.v ===== *)
(** * The RESP wire format (src/resp/util.go and src/resp/parser.go)

    [Module Build] has the reply builders; [Module Parser] the request
    parser, a state machine over a [ParserContext] and a buffered reader.
    The reader is the list of bytes the connection still delivers before it
    is closed; reading past them gives [io.EOF]. *)

From S2P Require Import Prelude GoLib.

(** ** Reply builders (util.go) *)
Module Build.

Definition ErrGeneric : gostring := §"ERROR".
Definition ErrWrongType : gostring := §"WRONGTYPE".
Definition ErrNoAuth : gostring := §"NOAUTH".
Definition ErrReadOnly : gostring := §"READONLY".
Definition ErrBusy : gostring := §"BUSY".
Definition ErrNoScript : gostring := §"NOSCRIPT".
Definition ErrOOM : gostring := §"OOM".
Definition ErrExecAbort : gostring := §"EXECABORT".
Definition ErrLoading : gostring := §"LOADING".
Definition ErrClusterDown : gostring := §"CLUSTERDOWN".

Definition BuildSimpleString (value : gostring) : gostring := §"+" ++ value ++ CRLF.

Definition BuildErrorMsg (code msg : gostring) : gostring :=
  §"-" ++ code ++ §" " ++ msg ++ CRLF.

Definition BuildBulkString (value : option gostring) : gostring :=
  match value with
  | None => §"$-1" ++ CRLF
  | Some ret => §"$" ++ Itoa (Z.of_nat (length ret)) ++ CRLF ++ ret ++ CRLF
  end.

Definition BuildInteger (value : Z) : gostring := §":" ++ Itoa value ++ CRLF.

Definition BuildArray (value : option (list gostring)) : gostring :=
  match value with
  | None => §"*-1" ++ CRLF
  | Some ret =>
      §"*" ++ Itoa (Z.of_nat (length ret)) ++ CRLF
           ++ concat (map (λ val, BuildBulkString (Some val)) ret)
  end.

Definition RespOk : gostring := BuildSimpleString §"OK".
Definition Pong : gostring := BuildSimpleString §"PONG".
Definition ErrNoCommandSpecified : gostring := BuildErrorMsg ErrGeneric §"No command specified".
Definition ErrCommandFormatError : gostring := BuildErrorMsg ErrGeneric §"Command format error".
Definition ErrWrongDataType : gostring := BuildErrorMsg ErrWrongType §"Wrong data type".
Definition ErrCommandUnsupported : gostring := BuildErrorMsg ErrGeneric §"Command Unsupported".
Definition ErrInternal : gostring := BuildErrorMsg ErrGeneric §"System error. Please try again.".
Definition ErrInvalidCommand : gostring := BuildErrorMsg ErrGeneric §"Invalid command".
Definition ErrWriteNotAllowed : gostring := BuildErrorMsg ErrReadOnly §"writes allowed only on leader".

End Build.

(** ** Request parser (parser.go) *)
Module Parser.

Definition Separator : gostring := CRLF.

Inductive PState := CommandStart | BulkStringLen | BulkStringBody | Array.
#[global] Instance PState_eq_dec : EqDecision PState.
Proof. solve_decision. Defined.

Record ParserContext := mkCtx {
  CmdArgs : option (list gostring);   (** [None] is the nil slice *)
  index : Z;
  bulkStrLen : Z;
  state : PState;
}.

(** The errors of the parser, one constructor per [return] of an error. *)
Inductive ParseError :=
| EOF
| ErrUnexpectedEOF
| CommandTooShort (n : nat)
| ExpectingSeparator
| InvalidArrayLength (n : Z)
| ExpectingArray (arg : gostring) (at_ : Z)
| ArrayTooShort (arg : gostring) (at_ : Z)
| BadLength (cmd : gostring)
| UnknownPrefix (c : ascii).
#[global] Instance ParseError_eq_dec : EqDecision ParseError.
Proof. solve_decision. Defined.

(** What a parse works on: the context and the bytes still to be read. *)
Record PStore := mkP { ctx : ParserContext; reader : gostring }.
Abbreviation PM := (GM PStore ParseError).

Definition set_ctx (c : ParserContext) (s : PStore) : PStore := mkP c (reader s).
Definition set_reader (r : gostring) (s : PStore) : PStore := mkP (ctx s) r.
Definition set_state (st : PState) (s : PStore) : PStore :=
  set_ctx (mkCtx (CmdArgs (ctx s)) (index (ctx s)) (bulkStrLen (ctx s)) st) s.

Definition Reset (c : ParserContext) : ParserContext := mkCtx None (-1) (-1) CommandStart.

Definition InitParserContext : ParserContext := mkCtx None 0 0 CommandStart.

(** The runtime refuses ([panic: makeslice]) an allocation of more than
    [maxAlloc] bytes, 2^48 on the 64-bit platforms, or of a negative length. *)
Definition maxAlloc : Z := 2^48.
Definition makeslice_ok (elem_size len : Z) : bool :=
  (0 <=? len)%Z && (elem_size * len <=? maxAlloc)%Z.

Definition initCmdArgs (length : Z) : PM unit :=
  if (length <? 0)%Z then throw (InvalidArrayLength length)
  else if makeslice_ok 16 length then
    modifyS (λ s, set_ctx (mkCtx (Some (replicate (Z.to_nat length) [])) 0
                                 (bulkStrLen (ctx s)) (state (ctx s))) s)
  else gopanic.

Definition setArg (arg : gostring) : PM unit :=
  s ← getS;
  let c := ctx s in
  match CmdArgs c with
  | None => throw (ExpectingArray arg (index c))
  | Some args =>
      if (Z.of_nat (length args) <=? index c)%Z then throw (ArrayTooShort arg (index c))
      else if (index c <? 0)%Z then gopanic
      else modifyS (set_ctx (mkCtx (Some (<[Z.to_nat (index c) := arg]> args))
                                   (index c + 1) (bulkStrLen c) (state c)))
  end.

(** [bufio.Reader.ReadBytes('\n')]: the line up to and with the delimiter, and
    the rest; [None] when the stream ends first. *)
Fixpoint split_line (s : gostring) : option (gostring * gostring) :=
  match s with
  | [] => None
  | c :: s' => if bool_decide (c = "010"%char) then Some ([c], s')
               else '(l, r) ← split_line s'; Some (c :: l, r)
  end.

Definition readBytes : PM gostring :=
  s ← getS;
  match split_line (reader s) with
  | Some (l, r) => modifyS (set_reader r);; mret l
  | None => modifyS (set_reader []);; throw EOF
  end.

(** [io.ReadFull] into a buffer of [n] bytes. *)
Definition readFull (n : nat) : PM gostring :=
  s ← getS;
  let r := reader s in
  if bool_decide (n ≤ length r) then modifyS (set_reader (drop n r));; mret (take n r)
  else modifyS (set_reader []);;
       throw (if bool_decide (r = []) then EOF else ErrUnexpectedEOF).

Definition readNextCmd : PM gostring :=
  cmd ← readBytes;
  if bool_decide (length cmd < 4) then throw (CommandTooShort (length cmd))
  else if negb (HasSuffix cmd Separator) then throw ExpectingSeparator
  else mret (TrimSuffix cmd Separator).

Definition readNextCmdFixedLength (len : Z) : PM gostring :=
  if makeslice_ok 1 (wrap64 (len + 2)) then
    cmd ← readFull (Z.to_nat (wrap64 (len + 2)));
    if bool_decide (length cmd < 2) then throw (CommandTooShort (length cmd))
    else if negb (HasSuffix cmd Separator) then throw ExpectingSeparator
    else mret (TrimSuffix cmd Separator)
  else gopanic.

Definition getLengthInHeader (cmd : gostring) : PM Z :=
  match Atoi (tail cmd) with
  | Some n => mret n
  | None => throw (BadLength cmd)
  end.

Definition readCommandStart (cmd : gostring) : PM unit :=
  match cmd with
  | [] => gopanic
  | cmdType :: _ =>
      if bool_decide (cmdType = "$"%char) then
        length ← getLengthInHeader cmd;
        modifyS (λ s, set_ctx (mkCtx (CmdArgs (ctx s)) (index (ctx s)) length BulkStringBody) s)
      else if bool_decide (cmdType = "*"%char) then
        length ← getLengthInHeader cmd;
        initCmdArgs length;;
        modifyS (set_state Array)
      else throw (UnknownPrefix cmdType)
  end.

(** The loop of the [Array] state.  [len(ctx.CmdArgs)] is read again before
    every round, because a nested header replaces the slice. *)
Definition cmdArgs_len (s : PStore) : nat :=
  match CmdArgs (ctx s) with Some l => length l | None => 0 end.

Fixpoint arrayLoop (body : PM unit) (fuel i : nat) : PM unit :=
  match fuel with
  | O => nofuel
  | S fuel =>
      s ← getS;
      if bool_decide (i < cmdArgs_len s) then
        modifyS (set_state BulkStringLen);;
        body;;
        arrayLoop body fuel (S i)
      else mret tt
  end.

Fixpoint ParseRESPCommand_at (depth : nat) : PM unit :=
  match depth with
  | O => nofuel
  | S depth =>
      s ← getS;
      match state (ctx s) with
      | CommandStart =>
          cmd ← readNextCmd;
          readCommandStart cmd;;
          ParseRESPCommand_at depth
      | BulkStringLen =>
          cmd ← readNextCmd;
          readCommandStart cmd;;
          s' ← getS;
          if (bulkStrLen (ctx s') <=? 0)%Z || negb (bool_decide (state (ctx s') = BulkStringBody))
          then mret tt
          else ParseRESPCommand_at depth
      | BulkStringBody =>
          cmd ← readNextCmdFixedLength (bulkStrLen (ctx s));
          setArg cmd
      | Array => arrayLoop (ParseRESPCommand_at depth) (S (length (reader s))) 0
      end
  end.

(** The recursion is at most four calls deep: a command start, the array, one
    header, its body. *)
Definition ParseRESPCommand : PM unit := ParseRESPCommand_at 4.

(** *** Reading lines and headers *)
Section reading.
Implicit Types (c : ParserContext) (r : gostring).

Lemma makeslice_ok_true e len : (0 ≤ len)%Z → (e * len ≤ maxAlloc)%Z → makeslice_ok e len = true.
Proof. intros. unfold makeslice_ok. apply andb_true_iff. by rewrite !Z.leb_le. Qed.

Lemma not_LF_app (l k : gostring) : "010"%char ∉ l → "010"%char ∉ k → "010"%char ∉ l ++ k.
Proof. rewrite elem_of_app. tauto. Qed.

Lemma split_line_app l r :
  "010"%char ∉ l → split_line (l ++ "010"%char :: r) = Some (l ++ ["010"%char], r).
Proof.
  induction l as [|x l IH]; intros Hnin; [done|]. simpl.
  rewrite bool_decide_false by set_solver. rewrite IH by set_solver. done.
Qed.

Lemma split_line_Some s l r : split_line s = Some (l, r) → s = l ++ r ∧ l ≠ [].
Proof.
  revert l. induction s as [|c s IH]; intros l H; [done|]. simpl in H.
  case_bool_decide; simplify_eq; [done|].
  destruct (split_line s) as [[l' r']|] eqn:E; simplify_eq/=.
  destruct (IH _ eq_refl) as [-> _]. done.
Qed.

(** A header line without a line feed of its own is read as it is. *)
Lemma readNextCmd_line c h r :
  "010"%char ∉ h → 2 ≤ length h →
  readNextCmd (mkP c (h ++ CRLF ++ r)) = (Ok h, mkP c r).
Proof.
  intros Hnin Hlen. unfold readNextCmd.
  assert (Hrb : readBytes (mkP c (h ++ CRLF ++ r)) = (Ok (h ++ CRLF), mkP c r)).
  { unfold readBytes. rewrite gm_bind_getS. cbn [reader].
    replace (h ++ CRLF ++ r) with ((h ++ ["013"%char]) ++ "010"%char :: r)
      by (by rewrite <- app_assoc).
    rewrite split_line_app by (apply not_LF_app; [done|by inversion 1 as [|? ? ? Hc]; subst; inversion Hc]).
    by rewrite <- app_assoc. }
  gm_step Hrb. rewrite bool_decide_false by (rewrite length_app; simpl; lia).
  unfold Separator. rewrite HasSuffix_app, TrimSuffix_app. done.
Qed.

Lemma Itoa_line z : Itoa z ≠ [] ∧ "010"%char ∉ Itoa z.
Proof.
  unfold Itoa. destruct (Z.ltb_spec z 0).
  - destruct (udec_spec (- z)) as (Hne & Hall & _); [lia|]. split; [done|].
    rewrite elem_of_cons. intros [?|Hin]; [done|].
    by apply (forallb_is_digit_nosep _ "010"%char) in Hall.
  - destruct (udec_spec z) as (Hne & Hall & _); [lia|].
    split; [done|]. by apply forallb_is_digit_nosep.
Qed.

(** Reading the header of a bulk string or of an array. *)
Lemma readNextCmd_header c (t : ascii) z r :
  t ≠ "010"%char →
  readNextCmd (mkP c (t :: Itoa z ++ CRLF ++ r)) = (Ok (t :: Itoa z), mkP c r).
Proof.
  intros Ht. destruct (Itoa_line z) as [Hne Hnin].
  apply (readNextCmd_line c (t :: Itoa z) r).
  - rewrite elem_of_cons. intuition congruence.
  - destruct (Itoa z); [done|]. simpl. lia.
Qed.

Lemma getLength_header t z (s : PStore) : in_int64 z →
  getLengthInHeader (t :: Itoa z) s = (Ok z, s).
Proof. intros H. unfold getLengthInHeader. simpl. by rewrite Atoi_Itoa. Qed.

Lemma readBody c (arg : gostring) r :
  (Z.of_nat (length arg) + 2 ≤ maxAlloc)%Z →
  readNextCmdFixedLength (Z.of_nat (length arg)) (mkP c (arg ++ CRLF ++ r)) =
    (Ok arg, mkP c r).
Proof.
  intros Hmax. unfold readNextCmdFixedLength.
  rewrite wrap64_id by (unfold in_int64, maxAlloc in *; lia).
  rewrite makeslice_ok_true by lia.
  assert (Hrf : readFull (Z.to_nat (Z.of_nat (length arg) + 2)) (mkP c (arg ++ CRLF ++ r))
                = (Ok (arg ++ CRLF), mkP c r)).
  { replace (Z.to_nat (Z.of_nat (length arg) + 2)) with (length (arg ++ CRLF))
      by (rewrite length_app; simpl; lia).
    unfold readFull. rewrite gm_bind_getS. cbn [reader]. rewrite app_assoc.
    rewrite bool_decide_true by (rewrite !length_app; lia).
    by rewrite take_app_exact, drop_app_exact. }
  gm_step Hrf. rewrite bool_decide_false by (rewrite length_app; simpl; lia).
  unfold Separator. by rewrite HasSuffix_app, TrimSuffix_app.
Qed.
End reading.

(** *** Parsing what the builders print *)
Section roundtrip.
Implicit Types (args todo ok : list gostring) (r : gostring).

(** The arguments the runtime can allocate a buffer for. *)
Definition arg_fits (arg : gostring) : Prop := (Z.of_nat (length arg) + 2 ≤ maxAlloc)%Z.
Definition args_fit args : Prop :=
  (16 * Z.of_nat (length args) ≤ maxAlloc)%Z ∧ Forall arg_fits args.

Definition encode_args args : gostring :=
  concat (map (λ val, Build.BuildBulkString (Some val)) args).

Lemma bulk_eq arg r : Build.BuildBulkString (Some arg) ++ r =
  "$"%char :: Itoa (Z.of_nat (length arg)) ++ CRLF ++ (arg ++ CRLF ++ r).
Proof. unfold Build.BuildBulkString. rewrite <- !app_assoc. done. Qed.

Lemma fits_int64 arg : arg_fits arg → in_int64 (Z.of_nat (length arg)).
Proof. unfold arg_fits, maxAlloc, in_int64. lia. Qed.

(** A bulk-string header moves the context to [BulkStringBody]. *)
Lemma readCommandStart_bulk c z r : in_int64 z →
  readCommandStart ("$"%char :: Itoa z) (mkP c r) =
    (Ok tt, mkP (mkCtx (CmdArgs c) (index c) z BulkStringBody) r).
Proof.
  intros Hn. unfold readCommandStart. rewrite bool_decide_true by done.
  by gm_step (getLength_header "$"%char z (mkP c r) Hn).
Qed.

(** An array header allocates the slots and moves to [Array]. *)
Lemma readCommandStart_array c (n : nat) r : (16 * Z.of_nat n ≤ maxAlloc)%Z →
  readCommandStart ("*"%char :: Itoa (Z.of_nat n)) (mkP c r) =
    (Ok tt, mkP (mkCtx (Some (replicate n [])) 0 (bulkStrLen c) Array) r).
Proof.
  intros Hn. unfold readCommandStart.
  rewrite bool_decide_false, bool_decide_true by done.
  assert (Hi : in_int64 (Z.of_nat n)) by (unfold in_int64, maxAlloc in *; lia).
  gm_step (getLength_header "*"%char _ (mkP c r) Hi). unfold initCmdArgs.
  destruct (Z.ltb_spec (Z.of_nat n) 0); [lia|].
  rewrite makeslice_ok_true by lia. rewrite Nat2Z.id. done.
Qed.

(** One round of the array loop on a non-empty bulk string: its bytes are
    consumed and stored in the next slot. *)
Lemma parse_bulk_arg d ok (x : gostring) slots blen (i : Z) arg r :
  arg ≠ [] → arg_fits arg → i = Z.of_nat (length ok) →
  ParseRESPCommand_at (S (S d))
    (mkP (mkCtx (Some (ok ++ x :: slots)) i blen BulkStringLen)
         (Build.BuildBulkString (Some arg) ++ r)) =
  (Ok tt, mkP (mkCtx (Some (ok ++ arg :: slots)) (i + 1)
                     (Z.of_nat (length arg)) BulkStringBody) r).
Proof.
  intros Hne Hfit ->. rewrite bulk_eq. cbn [ParseRESPCommand_at].
  rewrite gm_bind_getS. cbn [state ctx].
  gm_step (readNextCmd_header _ "$"%char _ _ ltac:(done)).
  gm_step (readCommandStart_bulk _ _ _ (fits_int64 _ Hfit)).
  rewrite gm_bind_getS. cbn [state ctx bulkStrLen CmdArgs index].
  destruct (Z.leb_spec (Z.of_nat (length arg)) 0) as [Hle|_].
  { destruct arg; [done|]. simpl in Hle. lia. }
  rewrite bool_decide_true by done. cbn [orb negb].
  rewrite gm_bind_getS. cbn [state ctx bulkStrLen CmdArgs index].
  gm_step (readBody _ arg r Hfit).
  unfold setArg. rewrite gm_bind_getS. cbn [state ctx bulkStrLen CmdArgs index reader].
  rewrite length_app. cbn [length].
  destruct (Z.leb_spec (Z.of_nat (length ok + S (length slots))) (Z.of_nat (length ok))); [lia|].
  destruct (Z.ltb_spec (Z.of_nat (length ok)) 0); [lia|].
  rewrite Nat2Z.id, insert_app_middle by done. done.
Qed.

(** The loop stores a whole prefix of non-empty arguments. *)
Lemma arrayLoop_args d todo fuel ok (slots : nat) blen st r :
  Forall (λ a, a ≠ []) todo → Forall arg_fits todo →
  ∃ blen' st',
  arrayLoop (ParseRESPCommand_at (S (S d))) (length todo + fuel) (length ok)
    (mkP (mkCtx (Some (ok ++ replicate (length todo + slots) [])) (Z.of_nat (length ok)) blen st)
         (encode_args todo ++ r)) =
  arrayLoop (ParseRESPCommand_at (S (S d))) fuel (length (ok ++ todo))
    (mkP (mkCtx (Some ((ok ++ todo) ++ replicate slots [])) (Z.of_nat (length (ok ++ todo))) blen' st') r).
Proof.
  revert ok blen st. induction todo as [|arg todo IH]; intros ok blen st Hne Hfit.
  { exists blen, st. by rewrite app_nil_r. }
  apply Forall_cons in Hne as [Hne1 Hne]. apply Forall_cons in Hfit as [Hf1 Hfit].
  destruct (IH (ok ++ [arg]) (Z.of_nat (length arg)) BulkStringBody Hne Hfit)
    as (blen' & st' & IH').
  exists blen', st'. rewrite <- !(app_assoc ok [arg]) in IH'. cbn [app] in IH'.
  rewrite <- IH'. cbn [length Nat.add arrayLoop].
  rewrite gm_bind_getS. unfold cmdArgs_len. cbn [ctx CmdArgs].
  rewrite bool_decide_true by (rewrite length_app; simpl; lia).
  rewrite gm_bind_modifyS. unfold set_state, set_ctx. cbn [ctx CmdArgs index bulkStrLen reader].
  unfold encode_args. cbn [map concat]. rewrite <- app_assoc. cbn [replicate Nat.add].
  gm_step (parse_bulk_arg d ok [] _ _ _ arg _ Hne1 Hf1 eq_refl).
  rewrite length_app. cbn [length].
  replace (Z.of_nat (length ok) + 1)%Z with (Z.of_nat (length ok + 1)) by lia.
  replace (S (length ok)) with (length ok + 1) by lia. done.
Qed.

(** One round of the loop on an empty bulk string: only its header is read. *)
Lemma parse_empty_arg d (slots : option (list gostring)) i blen r :
  ParseRESPCommand_at (S (S d))
    (mkP (mkCtx slots i blen BulkStringLen) (Build.BuildBulkString (Some []) ++ r)) =
  (Ok tt, mkP (mkCtx slots i 0 BulkStringBody) (CRLF ++ r)).
Proof.
  rewrite bulk_eq. cbn [ParseRESPCommand_at]. rewrite gm_bind_getS. cbn [state ctx].
  gm_step (readNextCmd_header _ "$"%char _ _ ltac:(done)).
  assert (H0 : in_int64 (Z.of_nat (length ([] : gostring)))) by (unfold in_int64; simpl; lia).
  gm_step (readCommandStart_bulk _ _ _ H0). done.
Qed.

Lemma encode_args_length args : length args ≤ length (encode_args args).
Proof.
  induction args as [|a args IH]; [done|].
  assert (1 ≤ length (Build.BuildBulkString (Some a))) by (simpl; lia).
  unfold encode_args in *. cbn [map concat length]. rewrite length_app. lia.
Qed.

(** Up to the loop: the array header allocates the slots. *)
Lemma parse_array_header c (n : nat) r :
  state c = CommandStart → (16 * Z.of_nat n ≤ maxAlloc)%Z →
  ParseRESPCommand (mkP c ("*"%char :: Itoa (Z.of_nat n) ++ CRLF ++ r)) =
  arrayLoop (ParseRESPCommand_at 2) (S (length r)) 0
    (mkP (mkCtx (Some (replicate n [])) 0 (bulkStrLen c) Array) r).
Proof.
  intros Hst Hn. unfold ParseRESPCommand. cbn [ParseRESPCommand_at].
  rewrite gm_bind_getS. cbn [ctx]. rewrite Hst.
  gm_step (readNextCmd_header c "*"%char _ r ltac:(done)).
  gm_step (readCommandStart_array c n r Hn). done.
Qed.

Lemma parse_encoded c args r :
  state c = CommandStart → args_fit args → Forall (λ a, a ≠ []) args →
  ∃ c', ParseRESPCommand (mkP c (Build.BuildArray (Some args) ++ r)) = (Ok tt, mkP c' r)
        ∧ CmdArgs c' = Some args ∧ index c' = Z.of_nat (length args).
Proof.
  intros Hst [Hlen Hfit] Hne. unfold Build.BuildArray. rewrite <- !app_assoc.
  change (§"*" ++ ?x) with ("*"%char :: x). fold (encode_args args).
  rewrite parse_array_header by done.
  destruct (arrayLoop_args 0 args (S (length (encode_args args ++ r) - length args)) [] 0
              (bulkStrLen c) Array r Hne Hfit) as (blen & st & E).
  rewrite app_nil_l, Nat.add_0_r, app_nil_l, app_nil_r in E. cbn [length] in E.
  change (Z.of_nat 0) with 0%Z in E.
  pose proof (encode_args_length args).
  replace (length args + S (length (encode_args args ++ r) - length args))
    with (S (length (encode_args args ++ r))) in E by (rewrite length_app; lia).
  rewrite E. cbn [arrayLoop]. rewrite gm_bind_getS. unfold cmdArgs_len. cbn [ctx CmdArgs].
  rewrite bool_decide_false by lia. by eexists.
Qed.

(** C6.  Parsing what a client encodes.  From a context at the start of a
    command, parsing the RESP array of a list of non-empty arguments succeeds,
    stores exactly these arguments and leaves exactly the bytes that follow. *)
Theorem parse_BuildArray c args r :
  state c = CommandStart → args_fit args → Forall (λ a, a ≠ []) args →
  ∃ c', ParseRESPCommand (mkP c (Build.BuildArray (Some args) ++ r)) = (Ok tt, mkP c' r)
        ∧ CmdArgs c' = Some args ∧ index c' = Z.of_nat (length args).
Proof. apply parse_encoded. Qed.

(** An empty last argument desynchronises the connection.  When the last
    argument is empty the parse still succeeds, with the right arguments, but
    the "\r\n" that ends the empty bulk string stays in the stream, in front
    of the next command. *)
Lemma parse_empty_last_arg c args r :
  state c = CommandStart → args_fit (args ++ [[]]) → Forall (λ a, a ≠ []) args →
  ∃ c', ParseRESPCommand (mkP c (Build.BuildArray (Some (args ++ [[]])) ++ r)) =
          (Ok tt, mkP c' (CRLF ++ r))
        ∧ CmdArgs c' = Some (args ++ [[]]).
Proof.
  intros Hst [Hlen Hfit] Hne. apply Forall_app in Hfit as [Hfit _].
  unfold Build.BuildArray. rewrite <- !app_assoc.
  change (§"*" ++ ?x) with ("*"%char :: x). rewrite map_app, concat_app, <- app_assoc.
  fold (encode_args args). rewrite parse_array_header by done.
  cbn [map concat]. rewrite app_nil_r.
  set (r' := Build.BuildBulkString (Some []) ++ r).
  destruct (arrayLoop_args 0 args (S (length (encode_args args ++ r') - length args)) [] 1
              (bulkStrLen c) Array r' Hne Hfit) as (blen & st & E).
  rewrite app_nil_l in E. cbn [length app] in E. change (Z.of_nat 0) with 0%Z in E.
  replace (length (args ++ [[]])) with (length args + 1) by (rewrite length_app; simpl; lia).
  pose proof (encode_args_length args).
  replace (length args + S (length (encode_args args ++ r') - length args))
    with (S (length (encode_args args ++ r'))) in E by (rewrite length_app; lia).
  rewrite E. remember (length (encode_args args ++ r') - length args) as fuel eqn:Hf.
  assert (Hfuel : fuel ≠ 0) by (rewrite length_app in Hf; subst r'; simpl in Hf; lia).
  destruct fuel as [|fuel]; [done|]. cbn [arrayLoop]. rewrite gm_bind_getS.
  unfold cmdArgs_len. cbn [ctx CmdArgs replicate].
  rewrite bool_decide_true by (rewrite length_app; simpl; lia).
  rewrite gm_bind_modifyS. unfold set_state, set_ctx. cbn [ctx CmdArgs index bulkStrLen reader].
  unfold r'. gm_step (parse_empty_arg _ _ _ _ _).
  cbn [arrayLoop]. rewrite gm_bind_getS. unfold cmdArgs_len. cbn [ctx CmdArgs].
  rewrite bool_decide_false by (rewrite length_app; simpl; lia). by eexists.
Qed.

(** C40.  Which bulk header brings the server down.  A bulk string sent where a
    command should start makes the parser allocate its announced length plus
    two; exactly for the lengths of at most -3 and of more than 2^48 - 2 (the
    sum wraps around for the largest ones) the allocation panics, and nothing
    recovers the connection's goroutine. *)
Theorem bulk_header_panics_iff c z r :
  state c = CommandStart → CmdArgs c = None → in_int64 z →
  fst (ParseRESPCommand (mkP c (§"$" ++ Itoa z ++ CRLF ++ r))) = Panic
  ↔ (z ≤ -3 ∨ maxAlloc - 2 < z)%Z.
Proof.
  intros Hst Hargs Hz. change (§"$" ++ ?x) with ("$"%char :: x).
  unfold ParseRESPCommand. cbn [ParseRESPCommand_at]. rewrite gm_bind_getS. cbn [ctx].
  rewrite Hst. gm_step (readNextCmd_header c "$"%char _ _ ltac:(done)).
  gm_step (readCommandStart_bulk _ _ _ Hz). rewrite gm_bind_getS.
  cbn [ctx state bulkStrLen]. rewrite Hargs. unfold readNextCmdFixedLength.
  destruct (makeslice_ok 1 (wrap64 (z + 2))) eqn:Hm.
  - split.
    + unfold readFull, setArg. gm_crush; by intros ?.
    + intros Hz'. apply andb_true_iff in Hm. rewrite !Z.leb_le in Hm.
      destruct (wrap64_cong (z + 2)) as [q Hq]. unfold maxAlloc, in_int64 in *. lia.
  - split; [|done]. intros _. apply andb_false_iff in Hm. rewrite !Z.leb_gt in Hm.
    destruct (decide (in_int64 (z + 2))) as [Hi|Hi].
    + rewrite wrap64_id in Hm by done. lia.
    + unfold in_int64, maxAlloc in *. lia.
Qed.

End roundtrip.

(** *** Termination and progress

    [shrinks n m s]: started in [s], [m] does not run out of fuel, never
    gives bytes back to the reader, consumes at least [n] of them when it
    succeeds and, for [n] positive, at least one when it fails with an error
    other than [EOF]. *)
Section progress.
Abbreviation left_over s := (length (reader s)).

Definition shrinks {A} (n : nat) (m : PM A) (s : PStore) : Prop :=
  match m s with
  | (Ok _, s') => n + left_over s' ≤ left_over s
  | (Err e, s') => left_over s' ≤ left_over s ∧ (n ≠ 0 → e ≠ EOF → left_over s' < left_over s)
  | (Panic, _) => True
  | (OutOfFuel, _) => False
  end.

Lemma shrinks_get {A} n (k : PStore → PM A) s : shrinks n (k s) s → shrinks n (getS ≫= k) s.
Proof. done. Qed.
Lemma shrinks_modify {A} n g (k : unit → PM A) s : reader (g s) = reader s →
  shrinks n (k tt) (g s) → shrinks n (modifyS g ≫= k) s.
Proof. unfold shrinks. rewrite gm_bind_modifyS. by intros ->. Qed.
Lemma shrinks_throw {A} e s : shrinks 0 (throw e : PM A) s.
Proof. split; [simpl; lia | done]. Qed.
Lemma shrinks_ret {A} (a : A) s : shrinks 0 (mret a : PM A) s.
Proof. unfold shrinks. simpl. lia. Qed.
Lemma shrinks_panic {A} n s : shrinks n (gopanic : PM A) s.
Proof. done. Qed.
Lemma shrinks_set_ctx c s : shrinks 0 (modifyS (set_ctx c)) s.
Proof. unfold shrinks. simpl. lia. Qed.
#[local] Hint Resolve shrinks_throw shrinks_ret shrinks_panic shrinks_set_ctx : skiff.

Ltac shrink_cases := repeat case_match; auto with skiff.

Lemma shrinks_le {A} n k (m : PM A) s : shrinks n m s → k ≤ n → shrinks k m s.
Proof.
  unfold shrinks. destruct (m s) as [[a|e| |] s']; try done; [lia|].
  intros [? H] ?. split; [done|]. intros. apply H; [lia|done].
Qed.

Lemma shrinks_bind {A B} (m : PM A) (f : A → PM B) n k s :
  shrinks n m s → n ≠ 0 ∨ k = 0 →
  (∀ a s', m s = (Ok a, s') → shrinks k (f a) s') →
  shrinks (n + k) (m ≫= f) s.
Proof.
  unfold shrinks, mbind, GM_bind. intros Hm Hnk Hf.
  destruct (m s) as [[a|e| |] s'] eqn:E; [|destruct Hm; split; [done|]; intros; auto with lia|done|done].
  specialize (Hf a s' eq_refl). destruct (f a s') as [[b|e| |] s'']; [lia| |done|done].
  destruct Hf as [? Hf]. split; [lia|]. intros. destruct Hnk as [? | ->]; lia.
Qed.

Lemma readBytes_shrinks s : shrinks 1 readBytes s.
Proof.
  unfold shrinks, readBytes. rewrite gm_bind_getS.
  destruct (split_line (reader s)) as [[l r]|] eqn:E; simpl.
  - apply split_line_Some in E as [-> Hl]. rewrite length_app.
    destruct l; [done|]. simpl. lia.
  - split; [lia|done].
Qed.

Lemma readNextCmd_shrinks s : shrinks 1 readNextCmd s.
Proof.
  apply (shrinks_bind _ _ 1 0); [apply readBytes_shrinks | by left |].
  intros cmd s' _. shrink_cases.
Qed.

Lemma readFull_shrinks n s : shrinks 0 (readFull n) s.
Proof.
  unfold shrinks, readFull. rewrite gm_bind_getS.
  case_bool_decide; simpl; [rewrite length_drop; lia | split; [lia|done]].
Qed.

Lemma readNextCmdFixedLength_shrinks len s : shrinks 0 (readNextCmdFixedLength len) s.
Proof.
  unfold readNextCmdFixedLength. case_match; [|done].
  apply (shrinks_bind _ _ 0 0); [apply readFull_shrinks | by right |].
  intros cmd s' _. shrink_cases.
Qed.

Lemma setArg_shrinks arg s : shrinks 0 (setArg arg) s.
Proof.
  unfold setArg. apply shrinks_get. shrink_cases.
Qed.

(** A header keeps the reader and leads to a body or an array. *)
Lemma readCommandStart_spec cmd s :
  match readCommandStart cmd s with
  | (Ok _, s') => reader s' = reader s ∧
      (state (ctx s') = BulkStringBody ∨ state (ctx s') = Array)
  | (Err e, s') => reader s' = reader s ∧ e ≠ EOF
  | (Panic, _) => True
  | (OutOfFuel, _) => False
  end.
Proof.
  unfold readCommandStart, getLengthInHeader, initCmdArgs.
  destruct cmd as [|x cmd]; [done|]. cbn [tail]. gm_crush; eauto.
Qed.

Lemma readCommandStart_shrinks cmd s : shrinks 0 (readCommandStart cmd) s.
Proof.
  unfold shrinks. pose proof (readCommandStart_spec cmd s) as H.
  destruct (readCommandStart cmd s) as [[[]|e| |] s']; try done.
  - destruct H as [-> _]. lia.
  - destruct H as [-> _]. split; [lia|done].
Qed.

Lemma arrayLoop_shrinks body fuel i s :
  (∀ s', state (ctx s') = BulkStringLen → shrinks 1 body s') →
  left_over s < fuel → shrinks 0 (arrayLoop body fuel i) s.
Proof.
  intros Hbody. revert i s. induction fuel as [|fuel IH]; intros i s Hfuel; [lia|].
  cbn [arrayLoop]. apply shrinks_get. case_bool_decide; [|auto with skiff].
  apply shrinks_modify; [done|].
  assert (Hb : shrinks 1 body (set_state BulkStringLen s)) by by apply Hbody.
  apply (shrinks_le (1 + 0)); [|lia].
  apply (shrinks_bind _ _ 1 0 _ Hb); [by left|].
  intros [] s' E. unfold shrinks in Hb. rewrite E in Hb. simpl in Hb.
  apply IH. lia.
Qed.

Lemma parse_body_shrinks d s :
  state (ctx s) = BulkStringBody → shrinks 0 (ParseRESPCommand_at (S d)) s.
Proof.
  intros Hst. cbn [ParseRESPCommand_at]. apply shrinks_get. rewrite Hst.
  apply (shrinks_bind _ _ 0 0); [apply readNextCmdFixedLength_shrinks | by right |].
  intros. apply setArg_shrinks.
Qed.

Lemma parse_len_shrinks d s :
  state (ctx s) = BulkStringLen → shrinks 1 (ParseRESPCommand_at (S (S d))) s.
Proof.
  intros Hst. remember (S d) as d1 eqn:Hd. cbn [ParseRESPCommand_at].
  apply shrinks_get. rewrite Hst. subst d1.
  apply (shrinks_bind _ _ 1 0); [apply readNextCmd_shrinks | by left |]. intros cmd s1 _.
  apply (shrinks_bind _ _ 0 0); [apply readCommandStart_shrinks | by right |]. intros [] s2 _.
  apply shrinks_get. destruct (_ || _) eqn:Hc; [auto with skiff|]. apply orb_false_iff in Hc as [_ Hc].
  apply parse_body_shrinks. by apply negb_false_iff, bool_decide_eq_true in Hc.
Qed.

Lemma parse_array_shrinks d s :
  state (ctx s) = Array → shrinks 0 (ParseRESPCommand_at (S (S (S d)))) s.
Proof.
  intros Hst. remember (S (S d)) as d1 eqn:Hd. cbn [ParseRESPCommand_at].
  apply shrinks_get. rewrite Hst. subst d1.
  apply arrayLoop_shrinks; [|lia]. intros. by apply parse_len_shrinks.
Qed.

Lemma parse_start_shrinks d s :
  state (ctx s) = CommandStart → shrinks 1 (ParseRESPCommand_at (S (S (S (S d))))) s.
Proof.
  intros Hst. remember (S (S (S d))) as d1 eqn:Hd. cbn [ParseRESPCommand_at].
  apply shrinks_get. rewrite Hst. subst d1.
  apply (shrinks_bind _ _ 1 0); [apply readNextCmd_shrinks | by left |]. intros cmd s1 _.
  apply (shrinks_bind _ _ 0 0); [apply readCommandStart_shrinks | by right |]. intros [] s2 E.
  pose proof (readCommandStart_spec cmd s1) as H. rewrite E in H. destruct H as [_ [Hb|Ha]].
  - by apply parse_body_shrinks.
  - by apply parse_array_shrinks.
Qed.

(** On every input and in every context the bounds on recursion and on loop
    rounds are never reached, and a parse that starts at a command start and does
    not end in [EOF] or a panic consumes at least one byte. *)
Lemma parse_progress s :
  fst (ParseRESPCommand s) ≠ OutOfFuel ∧
  (state (ctx s) = CommandStart →
   fst (ParseRESPCommand s) ≠ Panic → fst (ParseRESPCommand s) ≠ Err EOF →
   left_over (snd (ParseRESPCommand s)) < left_over s).
Proof.
  assert (Hany : shrinks 0 ParseRESPCommand s).
  { unfold ParseRESPCommand. destruct (state (ctx s)) eqn:Hst.
    - eapply shrinks_le; [by apply parse_start_shrinks | lia].
    - eapply shrinks_le; [by apply parse_len_shrinks | lia].
    - by apply parse_body_shrinks.
    - by apply parse_array_shrinks. }
  split.
  - unfold shrinks in Hany. by destruct (ParseRESPCommand s) as [[]].
  - intros Hst. pose proof (parse_start_shrinks 0 s Hst) as Hs.
    unfold ParseRESPCommand, shrinks in *.
    destruct (ParseRESPCommand_at 4 s) as [[a|e| |] s']; cbn in *; intros; try done.
    apply Hs; congruence.
Qed.
End progress.

(** *** Witnesses *)
Lemma parse_BuildArray_witness :
  ∃ c', ParseRESPCommand (mkP InitParserContext (Build.BuildArray (Some [§"GET"; §"k"]) ++ §"rest")) =
          (Ok tt, mkP c' §"rest")
        ∧ CmdArgs c' = Some [§"GET"; §"k"] ∧ index c' = 2%Z.
Proof.
  apply (parse_BuildArray InitParserContext [§"GET"; §"k"] §"rest").
  - reflexivity.
  - split; [vm_compute; discriminate | repeat constructor; vm_compute; discriminate].
  - repeat constructor; discriminate.
Defined.

Lemma bulk_header_panics_witness :
  fst (ParseRESPCommand (mkP InitParserContext (§"$" ++ Itoa (-3) ++ CRLF ++ []))) = Panic.
Proof.
  apply (bulk_header_panics_iff InitParserContext (-3) []).
  - reflexivity.
  - reflexivity.
  - vm_compute. split; [discriminate | reflexivity].
  - left. vm_compute. discriminate.
Defined.

End Parser.
