(* ===== verification/MemDB.v ===== *)
(** * The in-memory database (src/core/memdb.go)

    [MemDB] holds a reference to a Go map.  Maps are heap objects shared by
    reference, so the model has a heap of maps: a write through the database
    is seen by every holder of the same reference, and [nil] is a reference to
    no map (reading it finds nothing, writing to it panics).  Every method
    holds the mutex from its first to its last statement, so a method is one
    step of the model.

    [KVOps] and [KVLaws] are the interface the command executor and the state
    machine are written and verified against; [Mem] implements it. *)

From S2P Require Import Prelude GoLib.

Abbreviation Keyspace := (gmap gostring gostring).

(** The error of [Incr]: the stored value is not a number. *)
Inductive IncrError := IncrExpectsNumber (val : gostring).

(** ** Reference functions on key spaces *)
Definition count_present (keys : list gostring) (ks : Keyspace) : Z :=
  Z.of_nat (length (filter (λ k, is_Some (ks !! k)) keys)).

(** What [Incr] stores for the value found under the key. *)
Definition incr_value (old : option gostring) (delta : Z) : IncrError + gostring :=
  match old with
  | None => inr (Itoa delta)
  | Some v => match Atoi v with
              | None => inl (IncrExpectsNumber v)
              | Some i => inr (Itoa (wrap64 (i + delta)))
              end
  end.

(** ** The interface *)
Class KVOps (M : Type) := {
  CountKeys : list gostring → GM M IncrError Z;
  Get : gostring → GM M IncrError (option gostring);
  Set_ : gostring → gostring → GM M IncrError unit;
  Delete : gostring → GM M IncrError unit;
  Incr : gostring → Z → GM M IncrError unit;
}.

(** What an implementation promises: on a well-formed store each operation
    returns what the key space it stands for says, updates that key space, and
    keeps the store well formed. *)
Class KVLaws (M : Type) `{KVOps M} := {
  view : M → Keyspace;
  kv_wf : M → Prop;
  CountKeys_law m keys : kv_wf m → in_int64 (Z.of_nat (length keys)) →
    CountKeys keys m = (Ok (count_present keys (view m)), m);
  Get_law m k : kv_wf m → Get k m = (Ok (view m !! k), m);
  Set_law m k v : kv_wf m → ∃ m',
    Set_ k v m = (Ok tt, m') ∧ kv_wf m' ∧ view m' = <[k := v]> (view m);
  Delete_law m k : kv_wf m → ∃ m',
    Delete k m = (Ok tt, m') ∧ kv_wf m' ∧ view m' = delete k (view m);
  Incr_law m k delta : kv_wf m →
    match incr_value (view m !! k) delta with
    | inl e => Incr k delta m = (Err e, m)
    | inr v => ∃ m', Incr k delta m = (Ok tt, m') ∧ kv_wf m' ∧ view m' = <[k := v]> (view m)
    end;
}.

(** ** The implementation *)
Module MemDB.

Record Mem := mkMem {
  heap : gmap positive Keyspace;      (** the maps of the process *)
  keyspace : option positive;         (** field [keyspace] of [MemDB] *)
}.
Abbreviation DM := (GM Mem IncrError).

(** Reading through a map reference: a nil map is empty. *)
Definition deref (m : Mem) : Keyspace :=
  match keyspace m with
  | Some l => default ∅ (heap m !! l)
  | None => ∅
  end.

(** [db.keyspace[key] = value] and [delete(db.keyspace, key)] *)
Definition map_store (f : Keyspace → Keyspace) : DM unit :=
  m ← getS;
  match keyspace m with
  | Some l => modifyS (λ _, mkMem (<[l := f (default ∅ (heap m !! l))]> (heap m)) (Some l))
  | None => gopanic
  end.

(** [make(map[string]string)] *)
Definition make_map (ks : Keyspace) : DM positive :=
  m ← getS;
  let l := fresh (dom (heap m)) in
  modifyS (λ _, mkMem (<[l := ks]> (heap m)) (keyspace m));;
  mret l.

Definition Init : DM unit :=
  l ← make_map ∅;
  modifyS (λ m, mkMem (heap m) (Some l)).

Fixpoint count_loop (ks : Keyspace) (keys : list gostring) (cnt : Z) : Z :=
  match keys with
  | [] => cnt
  | key :: keys =>
      match ks !! key with
      | Some _ => count_loop ks keys (wrap64 (cnt + 1))
      | None => count_loop ks keys cnt
      end
  end.

Definition mem_CountKeys (keys : list gostring) : DM Z :=
  m ← getS; mret (count_loop (deref m) keys 0).

Definition mem_Get (key : gostring) : DM (option gostring) :=
  m ← getS; mret (deref m !! key).

Definition mem_Set (key value : gostring) : DM unit :=
  map_store (insert key value).

Definition mem_Delete (key : gostring) : DM unit :=
  m ← getS;
  match deref m !! key with
  | None => mret tt
  | Some _ => map_store (delete key)
  end.

Definition mem_Incr (key : gostring) (delta : Z) : DM unit :=
  m ← getS;
  match deref m !! key with
  | None => map_store (insert key (Itoa delta))
  | Some val =>
      match Atoi val with
      | None => throw (IncrExpectsNumber val)
      | Some i => map_store (insert key (Itoa (wrap64 (i + delta))))
      end
  end.

#[global] Instance MemDB_ops : KVOps Mem := {|
  CountKeys := mem_CountKeys; Get := mem_Get; Set_ := mem_Set;
  Delete := mem_Delete; Incr := mem_Incr |}.

(** The state of the package after its [init] function. *)
Definition initial : Mem := snd (Init (mkMem ∅ None)).

(** A store is well formed when the database refers to an allocated map. *)
Definition mem_wf (m : Mem) : Prop :=
  ∃ l, keyspace m = Some l ∧ is_Some (heap m !! l).

(** *** The implementation keeps its promises *)
Lemma deref_mk h l : deref (mkMem h (Some l)) = default ∅ (h !! l).
Proof. done. Qed.

Lemma map_store_wf f m : mem_wf m →
  ∃ m', map_store f m = (Ok tt, m') ∧ mem_wf m' ∧ deref m' = f (deref m) ∧
        keyspace m' = keyspace m ∧ (∀ l, keyspace m ≠ Some l → heap m' !! l = heap m !! l).
Proof.
  intros (l & Hl & [ks Hks]). unfold map_store. rewrite gm_bind_getS, Hl.
  eexists. split; [done|]. split; [|split; [|split; [done|]]].
  - exists l. split; [done|]. simpl. rewrite lookup_insert_eq. by eexists.
  - unfold deref. rewrite Hl. simpl. by rewrite lookup_insert_eq.
  - intros l' Hl'. simpl. apply lookup_insert_ne. congruence.
Qed.

Lemma count_loop_spec ks keys cnt :
  (0 ≤ cnt)%Z → in_int64 (cnt + Z.of_nat (length keys)) →
  count_loop ks keys cnt = (cnt + count_present keys ks)%Z.
Proof.
  unfold count_present. revert cnt.
  induction keys as [|k keys IH]; intros cnt Hcnt Hb; simpl in *; [lia|].
  rewrite filter_cons. destruct (ks !! k) eqn:E; simpl.
  - rewrite wrap64_id by (unfold in_int64 in *; lia).
    rewrite IH; [lia|lia|]. unfold in_int64 in *; lia.
  - apply IH; [done|]. unfold in_int64 in *; lia.
Qed.

#[global] Instance MemDB_laws : KVLaws Mem.
Proof.
  refine {| view := deref; kv_wf := mem_wf |}.
  - intros m keys Hwf Hlen. unfold CountKeys, MemDB_ops, mem_CountKeys.
    rewrite gm_bind_getS, count_loop_spec by done. done.
  - done.
  - intros m k v Hwf. destruct (map_store_wf (insert k v) m Hwf) as (m' & ? & ? & ? & _). eauto.
  - intros m k Hwf. unfold Delete, MemDB_ops, mem_Delete. rewrite gm_bind_getS.
    destruct (deref m !! k) eqn:E.
    + destruct (map_store_wf (delete k) m Hwf) as (m' & ? & ? & ? & _). eauto.
    + exists m. split; [done|]. split; [done|]. by rewrite delete_id.
  - intros m k delta Hwf. unfold Incr, MemDB_ops, mem_Incr, incr_value. rewrite gm_bind_getS.
    destruct (deref m !! k) as [val|] eqn:E; [destruct (Atoi val) as [i|] eqn:Ei|].
    + destruct (map_store_wf (insert k (Itoa (wrap64 (i + delta)))) m Hwf)
        as (m' & ? & ? & ? & _). eauto.
    + done.
    + destruct (map_store_wf (insert k (Itoa delta)) m Hwf) as (m' & ? & ? & ? & _). eauto.
Defined.

(** A fresh map changes no reference that was already held. *)
Lemma make_map_spec ks m l m' : make_map ks m = (Ok l, m') →
  heap m !! l = None ∧ heap m' = <[l := ks]> (heap m) ∧ keyspace m' = keyspace m.
Proof.
  unfold make_map. rewrite gm_bind_getS, gm_bind_modifyS. intros [= <- <-].
  split; [|done]. apply not_elem_of_dom, is_fresh.
Qed.

Lemma initial_wf : mem_wf initial.
Proof. vm_compute. eexists. split; [done|]. by eexists. Qed.

(** The methods write to the database's own map only: every other map of the
    heap, whoever holds it, stays as it is. *)
Definition frame (m m' : Mem) : Prop :=
  keyspace m' = keyspace m ∧ ∀ l, keyspace m ≠ Some l → heap m' !! l = heap m !! l.

#[global] Instance frame_preorder : PreOrder frame.
Proof.
  split; [done|]. intros m1 m2 m3 [Hk1 Hh1] [Hk2 Hh2]. split; [congruence|].
  intros l Hl. rewrite Hh2 by congruence. by apply Hh1.
Qed.

Lemma map_store_frame f m : frame m (snd (map_store f m)).
Proof.
  unfold map_store. rewrite gm_bind_getS. destruct (keyspace m) as [l|] eqn:E; [|done].
  split; [done|]. intros l' Hl'. simpl. apply lookup_insert_ne. congruence.
Qed.

Lemma ops_frame m :
  (∀ keys, frame m (snd (CountKeys keys m))) ∧ (∀ k, frame m (snd (Get k m))) ∧
  (∀ k v, frame m (snd (Set_ k v m))) ∧ (∀ k, frame m (snd (Delete k m))) ∧
  (∀ k d, frame m (snd (Incr k d m))).
Proof.
  split_and!; intros; [done|done|apply map_store_frame| |].
  - unfold Delete, MemDB_ops, mem_Delete. rewrite gm_bind_getS.
    case_match; [apply map_store_frame|done].
  - unfold Incr, MemDB_ops, mem_Incr. rewrite gm_bind_getS.
    repeat case_match; first [done | apply map_store_frame].
Qed.

End MemDB.
