(* ===== verification/Locking.v ===== *)
(** * The mutex of the database (src/core/memdb.go)

    The other files treat a method of [MemDB] as one step, because each holds
    the mutex from its first statement to its last.  Here this is proved.  The
    methods are programs of single map accesses, any number of goroutines run
    them interleaved, and only the lock orders them; [linearizable] shows that
    every such run is a sequential run of the atomic methods. *)

From S2P Require Import Prelude GoLib MemDB.
Import MemDB.

(** ** Methods as programs *)
Inductive Result :=
| RUnit
| RCount (n : Z)
| RValue (v : option gostring)
| RError (e : IncrError)
| RMap (ks : Keyspace).

(** What a method does between locking and unlocking: one constructor per
    access to the shared map.  [BKeys] starts a [range] over it, [BReplace]
    assigns the field [keyspace]. *)
Inductive body :=
| BDone (r : Result)
| BLookup (key : gostring) (k : option gostring → body)
| BKeys (k : list gostring → body)
| BStore (key value : gostring) (k : body)
| BDelete (key : gostring) (k : body)
| BReplace (ks : Keyspace) (k : body).

Fixpoint count_code (keys : list gostring) (cnt : Z) : body :=
  match keys with
  | [] => BDone (RCount cnt)
  | key :: keys =>
      BLookup key (λ v, count_code keys (match v with Some _ => wrap64 (cnt + 1) | None => cnt end))
  end.

Definition get_code (key : gostring) : body := BLookup key (λ v, BDone (RValue v)).

Definition set_code (key value : gostring) : body := BStore key value (BDone RUnit).

Definition delete_code (key : gostring) : body :=
  BLookup key (λ v, match v with
                    | None => BDone RUnit
                    | Some _ => BDelete key (BDone RUnit)
                    end).

Definition incr_code (key : gostring) (delta : Z) : body :=
  BLookup key (λ v, match v with
                    | None => BStore key (Itoa delta) (BDone RUnit)
                    | Some val =>
                        match Atoi val with
                        | None => BDone (RError (IncrExpectsNumber val))
                        | Some i => BStore key (Itoa (wrap64 (i + delta))) (BDone RUnit)
                        end
                    end).

(** The copy that [fsm.Snapshot] makes. *)
Fixpoint copy_code (keys : list gostring) (cp : Keyspace) : body :=
  match keys with
  | [] => BDone (RMap cp)
  | key :: keys =>
      BLookup key (λ v, copy_code keys (match v with Some v => <[key := v]> cp | None => cp end))
  end.
Definition snapshot_code : body := BKeys (λ keys, copy_code keys ∅).

(** The assignment at the end of [fsm.Restore]. *)
Definition restore_code (ks : Keyspace) : body := BReplace ks (BDone RUnit).

Inductive op :=
| OCountKeys (keys : list gostring)
| OGet (key : gostring)
| OSet (key value : gostring)
| ODelete (key : gostring)
| OIncr (key : gostring) (delta : Z)
| OSnapshot
| ORestore (ks : Keyspace).

Definition code (o : op) : body :=
  match o with
  | OCountKeys keys => count_code keys 0
  | OGet key => get_code key
  | OSet key value => set_code key value
  | ODelete key => delete_code key
  | OIncr key delta => incr_code key delta
  | OSnapshot => snapshot_code
  | ORestore ks => restore_code ks
  end.

(** [RLock] or [Lock] *)
Definition shared (o : op) : bool :=
  match o with OCountKeys _ | OGet _ | OSnapshot => true | _ => false end.

(** One access. *)
Definition access (b : body) (ks : Keyspace) : option (body * Keyspace) :=
  match b with
  | BDone _ => None
  | BLookup key k => Some (k (ks !! key), ks)
  | BKeys k => Some (k (elements (dom ks)), ks)
  | BStore key value k => Some (k, <[key := value]> ks)
  | BDelete key k => Some (k, delete key ks)
  | BReplace ks' k => Some (k, ks')
  end.

(** ** Goroutines and the lock

    [sync.RWMutex] admits any number of readers or one writer.  (It also lets a
    waiting writer go before later readers; the runs of the model include those
    runs.)  [returned] lists the calls that have returned, in order. *)
Record Shared := mkShared {
  map : Keyspace;
  readers : nat;
  writer : bool;
  inside : gmap nat (op * body);      (** the goroutines that hold the lock *)
  returned : list (op * Result);
}.

Inductive lstep : Shared → Shared → Prop :=
| l_RLock s t o :
    shared o = true → writer s = false → inside s !! t = None →
    lstep s (mkShared (map s) (S (readers s)) false (<[t := (o, code o)]> (inside s)) (returned s))
| l_Lock s t o :
    shared o = false → writer s = false → readers s = 0 → inside s !! t = None →
    lstep s (mkShared (map s) 0 true (<[t := (o, code o)]> (inside s)) (returned s))
| l_access s t o b b' ks' :
    inside s !! t = Some (o, b) → access b (map s) = Some (b', ks') →
    lstep s (mkShared ks' (readers s) (writer s) (<[t := (o, b')]> (inside s)) (returned s))
| l_RUnlock s t o r :
    shared o = true → inside s !! t = Some (o, BDone r) →
    lstep s (mkShared (map s) (readers s - 1) (writer s) (delete t (inside s)) (returned s ++ [(o, r)]))
| l_Unlock s t o r :
    shared o = false → inside s !! t = Some (o, BDone r) →
    lstep s (mkShared (map s) (readers s) false (delete t (inside s)) (returned s ++ [(o, r)])).

Definition unlocked (ks : Keyspace) : Shared := mkShared ks 0 false ∅ [].

(** ** The atomic methods *)
Definition atomic (o : op) : DM Result :=
  match o with
  | OCountKeys keys => n ← mem_CountKeys keys; mret (RCount n)
  | OGet key => v ← mem_Get key; mret (RValue v)
  | OSet key value => mem_Set key value;; mret RUnit
  | ODelete key => mem_Delete key;; mret RUnit
  | OIncr key delta =>
      err ← catch (mem_Incr key delta);
      mret (match err with inl e => RError e | inr _ => RUnit end)
  | OSnapshot => m ← getS; mret (RMap (deref m))
  | ORestore ks =>
      l ← make_map ks;
      modifyS (λ m, mkMem (heap m) (Some l));;
      mret RUnit
  end.

(** A sequence of calls, one after the other. *)
Fixpoint sequential (ops : list op) : DM (list Result) :=
  match ops with
  | [] => mret []
  | o :: ops => r ← atomic o; rs ← sequential ops; mret (r :: rs)
  end.

(** ** A method run alone *)
Fixpoint brun (b : body) (ks : Keyspace) : Result * Keyspace :=
  match b with
  | BDone r => (r, ks)
  | BLookup key k => brun (k (ks !! key)) ks
  | BKeys k => brun (k (elements (dom ks))) ks
  | BStore key value k => brun k (<[key := value]> ks)
  | BDelete key k => brun k (delete key ks)
  | BReplace ks' k => brun k ks'
  end.

Lemma access_brun b ks b' ks' : access b ks = Some (b', ks') → brun b' ks' = brun b ks.
Proof. destruct b; simpl; intros [=]; by subst. Qed.

(** A program that does not write. *)
Inductive readonly : body → Prop :=
| ro_done r : readonly (BDone r)
| ro_lookup key k : (∀ v, readonly (k v)) → readonly (BLookup key k)
| ro_keys k : (∀ l, readonly (k l)) → readonly (BKeys k).

Lemma access_readonly b ks b' ks' : readonly b → access b ks = Some (b', ks') → readonly b' ∧ ks' = ks.
Proof. intros Hb. destruct Hb; simpl; intros [=]; by subst. Qed.

Lemma count_readonly keys cnt : readonly (count_code keys cnt).
Proof. revert cnt. induction keys; intros cnt; constructor; auto. Qed.

Lemma copy_readonly keys cp : readonly (copy_code keys cp).
Proof. revert cp. induction keys; intros cp; constructor; auto. Qed.

Lemma shared_readonly o : shared o = true → readonly (code o).
Proof.
  destruct o; try done; intros _; [apply count_readonly|..]; repeat constructor. intros l. apply copy_readonly.
Qed.

Lemma readonly_brun b ks : readonly b → snd (brun b ks) = ks.
Proof. induction 1; simpl; auto. Qed.

Lemma count_brun ks keys cnt : brun (count_code keys cnt) ks = (RCount (count_loop ks keys cnt), ks).
Proof. revert cnt. induction keys as [|k keys IH]; intros cnt; simpl; [done|]. rewrite IH. by case_match. Qed.

Lemma copy_brun ks keys cp : ∃ cp', brun (copy_code keys cp) ks = (RMap cp', ks) ∧
  ∀ i, cp' !! i = if decide (i ∈ keys) then (ks !! i) ∪ (cp !! i) else cp !! i.
Proof.
  revert cp. induction keys as [|k keys IH]; intros cp; simpl; [by exists cp|].
  edestruct IH as (cp' & -> & Hcp). exists cp'. split; [done|]. intros i. rewrite Hcp. clear IH Hcp.
  assert (Hk : match ks !! k with Some v => <[k := v]> cp | None => cp end !! i =
               if decide (i = k) then (ks !! i) ∪ (cp !! i) else cp !! i).
  { destruct (decide (i = k)) as [->|Hne].
    - destruct (ks !! k); [by rewrite lookup_insert_eq, union_Some_l|by rewrite (left_id None (∪))].
    - case_match; by rewrite ?lookup_insert_ne. }
  rewrite Hk. destruct (decide (i = k)) as [->|Hne].
  - rewrite (decide_True (P := k ∈ k :: keys)) by apply elem_of_cons, or_introl, eq_refl.
    case_decide; [|done]. by destruct (ks !! k), (cp !! k).
  - rewrite (decide_ext (i ∈ keys) (i ∈ k :: keys)); [done|]. rewrite elem_of_cons. tauto.
Qed.

Lemma snapshot_brun ks : brun snapshot_code ks = (RMap ks, ks).
Proof.
  unfold snapshot_code. simpl. destruct (copy_brun ks (elements (dom ks)) ∅) as (cp & -> & Hcp).
  do 2 f_equal. apply map_eq. intros i. rewrite Hcp, lookup_empty. case_decide as Hi.
  - by destruct (ks !! i).
  - rewrite elem_of_elements, not_elem_of_dom in Hi. by rewrite Hi.
Qed.

(** A method run alone is the atomic method. *)
Lemma code_atomic o m : mem_wf m → ∃ m', atomic o m = (Ok (fst (brun (code o) (deref m))), m') ∧
  mem_wf m' ∧ deref m' = snd (brun (code o) (deref m)).
Proof.
  intros Hwf. destruct o as [keys|k|k v|k|k d| |ks]; cbn [atomic code].
  - exists m. by rewrite count_brun.
  - by exists m.
  - destruct (@Set_law _ _ MemDB_laws m k v Hwf) as (m' & E & Hm & Hv). exists m'. by gm_step E.
  - destruct (@Delete_law _ _ MemDB_laws m k Hwf) as (m' & E & Hm & Hv). exists m'. gm_step E. simpl. simpl in Hv.
    destruct (deref m !! k) eqn:Ek; simpl; [done|]. by rewrite delete_id in Hv.
  - pose proof (@Incr_law _ _ MemDB_laws m k d Hwf) as HI. unfold mbind, GM_bind, catch.
    change (mem_Incr k d m) with (Incr k d m). unfold incr_code, incr_value in *. simpl in HI |- *.
    destruct (deref m !! k) as [v|]; [destruct (Atoi v)|]; simpl.
    + destruct HI as (m' & -> & ? & ?). by exists m'.
    + rewrite HI. by exists m.
    + destruct HI as (m' & -> & ? & ?). by exists m'.
  - exists m. by rewrite snapshot_brun.
  - unfold mbind at 1, GM_bind at 1. destruct (make_map ks m) as [[l|e| |] m1] eqn:E;
      [|by unfold make_map in E; rewrite gm_bind_getS in E..].
    apply make_map_spec in E as (_ & Hh & _). eexists. split; [done|].
    split; [exists l; split; [done|]|unfold deref]; simpl; rewrite Hh, lookup_insert_eq; [by eexists|done].
Qed.

(** ** The invariant *)

(** What the returned calls leave when they are run one after the other. *)
Definition after (calls : list (op * Result)) (ks : Keyspace) : Keyspace :=
  foldl (λ ks c, snd (brun (code (fst c)) ks)) ks calls.

(** Every returned call returned what it returns after the calls before it. *)
Fixpoint replies_ok (calls : list (op * Result)) (ks : Keyspace) : Prop :=
  match calls with
  | [] => True
  | (o, r) :: calls => r = fst (brun (code o) ks) ∧ replies_ok calls (snd (brun (code o) ks))
  end.

Lemma replies_ok_snoc calls o r ks : replies_ok calls ks → r = fst (brun (code o) (after calls ks)) →
  replies_ok (calls ++ [(o, r)]) ks.
Proof.
  revert ks. induction calls as [|[o' r'] calls IH]; intros ks; simpl; [done|].
  intros [Hr Hc] Hlast. split; [done|]. by apply IH.
Qed.

Lemma after_snoc calls o r ks : after (calls ++ [(o, r)]) ks = snd (brun (code o) (after calls ks)).
Proof. unfold after. by rewrite foldl_app. Qed.

(** A goroutine inside will return what it returns when it runs alone. *)
Definition on_course (ks0 : Keyspace) (s : Shared) (ob : op * body) : Prop :=
  brun (snd ob) (map s) = brun (code (fst ob)) ks0.

Record lock_inv (ks : Keyspace) (s : Shared) : Prop := {
  li_replies : replies_ok (returned s) ks;
  li_writer : writer s = true → readers s = 0 ∧
    ∃ t o b, inside s = {[ t := (o, b) ]} ∧ shared o = false ∧ on_course (after (returned s) ks) s (o, b);
  li_readers : writer s = false → map s = after (returned s) ks ∧ readers s = size (inside s) ∧
    ∀ t o b, inside s !! t = Some (o, b) →
      shared o = true ∧ readonly b ∧ on_course (after (returned s) ks) s (o, b);
}.

Lemma lock_inv_start ks : lock_inv ks (unlocked ks).
Proof. split; [done|done|]. intros _. split_and!; [done|done|]. intros t o b Hb. simpl in Hb. by rewrite lookup_empty in Hb. Qed.

Lemma inv_RLock ks s t o : shared o = true → writer s = false → inside s !! t = None → lock_inv ks s →
  lock_inv ks (mkShared (map s) (S (readers s)) false (<[t := (o, code o)]> (inside s)) (returned s)).
Proof.
  intros Ho Hw Ht [Hr _ Hn]. destruct (Hn Hw) as (Hm & Hs & Hb). split; simpl; [done|done|]. intros _.
  split_and!; [done|by rewrite map_size_insert_None, Hs|].
  intros t' o' b' [[<- [= <- <-]]|[_ Ht']]%lookup_insert_Some; [|by apply Hb in Ht'].
  split_and!; [done|by apply shared_readonly|]. unfold on_course. simpl. by rewrite Hm.
Qed.

Lemma inv_Lock ks s t o : shared o = false → writer s = false → readers s = 0 → lock_inv ks s →
  lock_inv ks (mkShared (map s) 0 true (<[t := (o, code o)]> (inside s)) (returned s)).
Proof.
  intros Ho Hw H0 [Hr _ Hn]. destruct (Hn Hw) as (Hm & Hs & _). split; simpl; [done| |done]. intros _.
  split; [done|]. rewrite H0 in Hs. symmetry in Hs. apply map_size_empty_inv in Hs. rewrite Hs.
  exists t, o, (code o). split_and!; [by rewrite insert_empty|done|]. unfold on_course. simpl. by rewrite Hm.
Qed.

Lemma inv_access ks s t o b b' ks' : inside s !! t = Some (o, b) → access b (map s) = Some (b', ks') →
  lock_inv ks s → lock_inv ks (mkShared ks' (readers s) (writer s) (<[t := (o, b')]> (inside s)) (returned s)).
Proof.
  intros Ht Ha [Hr Hx Hn]. split; simpl; [done| |]; intros Hw.
  - destruct (Hx Hw) as (H0 & t1 & o1 & b1 & Hi & Ho & Hc). split; [done|].
    rewrite Hi in Ht. apply lookup_singleton_Some in Ht as [-> [= -> ->]].
    exists t, o, b'. rewrite Hi, insert_singleton_eq. split_and!; [done|done|].
    unfold on_course in *. simpl in *. by rewrite (access_brun _ _ _ _ Ha).
  - destruct (Hn Hw) as (Hm & Hs & Hb). destruct (Hb t o b Ht) as (Ho & Hro & Hc).
    destruct (access_readonly _ _ _ _ Hro Ha) as [Hro' ->].
    split_and!; [done|by rewrite map_size_insert_Some by eauto|].
    intros t' o' bb [[<- [= <- <-]]|[_ Ht']]%lookup_insert_Some; [|by apply Hb in Ht'].
    split_and!; [done|done|]. unfold on_course in *. simpl in *. by rewrite (access_brun _ _ _ _ Ha).
Qed.

Lemma inv_RUnlock ks s t o r : shared o = true → inside s !! t = Some (o, BDone r) → lock_inv ks s →
  lock_inv ks (mkShared (map s) (readers s - 1) (writer s) (delete t (inside s)) (returned s ++ [(o, r)])).
Proof.
  intros Ho Ht [Hr Hx Hn]. destruct (writer s) eqn:Hw.
  { destruct (Hx eq_refl) as (_ & t1 & o1 & b1 & Hi & Ho1 & _). rewrite Hi in Ht.
    apply lookup_singleton_Some in Ht as [-> [= -> ->]]. congruence. }
  destruct (Hn eq_refl) as (Hm & Hs & Hb). destruct (Hb t o _ Ht) as (_ & _ & Hc).
  unfold on_course in Hc. simpl in Hc.
  assert (Hsame : after (returned s ++ [(o, r)]) ks = after (returned s) ks).
  { rewrite after_snoc. by apply readonly_brun, shared_readonly. }
  split; simpl; [|done|].
  - apply replies_ok_snoc; [done|]. by rewrite <- Hc.
  - intros _. rewrite Hsame. split_and!; [done|by rewrite map_size_delete_Some, Hs by eauto; lia|].
    intros t' o' b' [_ Ht']%lookup_delete_Some. by apply Hb in Ht'.
Qed.

Lemma inv_Unlock ks s t o r : shared o = false → inside s !! t = Some (o, BDone r) → lock_inv ks s →
  lock_inv ks (mkShared (map s) (readers s) false (delete t (inside s)) (returned s ++ [(o, r)])).
Proof.
  intros Ho Ht [Hr Hx Hn]. destruct (writer s) eqn:Hw.
  2:{ destruct (Hn eq_refl) as (_ & _ & Hb). destruct (Hb t o _ Ht). congruence. }
  destruct (Hx eq_refl) as (H0 & t1 & o1 & b1 & Hi & _ & Hc). rewrite Hi in Ht.
  apply lookup_singleton_Some in Ht as [-> [= -> ->]]. unfold on_course in Hc. simpl in Hc.
  split; simpl; [|done|].
  - apply replies_ok_snoc; [done|]. by rewrite <- Hc.
  - intros _. rewrite Hi, delete_singleton_eq, after_snoc, <- Hc. split_and!; [done|by rewrite H0|].
    intros t' o' b' Ht'. by rewrite lookup_empty in Ht'.
Qed.

Lemma inv_run ks s : rtc lstep (unlocked ks) s → lock_inv ks s.
Proof.
  assert (Hi : ∀ s1 s2, rtc lstep s1 s2 → lock_inv ks s1 → lock_inv ks s2).
  { induction 1 as [|s1 s2 s3 Hs _ IH]; [done|]. intros H1. apply IH. destruct Hs.
    - by apply inv_RLock.
    - by apply inv_Lock.
    - by eapply inv_access.
    - by eapply inv_RUnlock.
    - by eapply inv_Unlock. }
  intros Hr. by eapply Hi, lock_inv_start.
Qed.

Lemma sequential_run calls m : mem_wf m → replies_ok calls (deref m) →
  ∃ m', sequential (fst <$> calls) m = (Ok (snd <$> calls), m') ∧ mem_wf m' ∧ deref m' = after calls (deref m).
Proof.
  revert m. induction calls as [|[o r] calls IH]; intros m Hwf Hr; [by exists m|]. simpl in Hr.
  destruct Hr as [-> Hr]. destruct (code_atomic o m Hwf) as (m1 & E1 & Hwf1 & Hd1). rewrite <- Hd1 in Hr.
  destruct (IH m1 Hwf1 Hr) as (m2 & E2 & Hwf2 & Hd2). exists m2. cbn [fmap list_fmap sequential fst snd].
  gm_step E1. gm_step E2. split_and!; [done|done|]. rewrite Hd2, Hd1. done.
Qed.

(** Increments of one key, in any number. *)
Lemma after_incr calls ks k i : Forall (λ c, fst c = OIncr k 1) calls → ks !! k = Some (Itoa i) → in_int64 i →
  after calls ks !! k = Some (Itoa (wrap64 (i + Z.of_nat (length calls)))).
Proof.
  intros Hc. revert ks i. induction Hc as [|[o r] calls Ho _ IH]; intros ks i Hk Hi; simpl.
  { by rewrite Z.add_0_r, wrap64_id. }
  simpl in Ho. subst o. unfold after in *. simpl. rewrite Hk, Atoi_Itoa by done. simpl.
  rewrite (IH _ (wrap64 (i + 1))); [|apply lookup_insert_eq|apply wrap64_range].
  rewrite wrap64_add_l. do 3 f_equal. lia.
Qed.

(** ** Theorems *)
Section theorems.
Implicit Types s : Shared.

(** C8.  The mutex makes the methods atomic.  However the goroutines that use the
    database are interleaved, at the grain of single map accesses, the calls that
    have returned have returned what they return when they are run one after the
    other, in the order in which they released the lock; and while no writer is
    inside, the map is the one that sequential run leaves. *)
Theorem linearizable m s : mem_wf m → rtc lstep (unlocked (deref m)) s →
  ∃ m', sequential (fst <$> returned s) m = (Ok (snd <$> returned s), m') ∧ mem_wf m' ∧
        (writer s = false → map s = deref m').
Proof.
  intros Hwf Hr. apply inv_run in Hr as [Hrep _ Hn].
  destruct (sequential_run _ m Hwf Hrep) as (m' & E & Hm & Hd). exists m'. split_and!; [done|done|].
  intros Hw. rewrite Hd. by apply Hn.
Qed.

(** No increment is lost.  Goroutines that increment one key concurrently
    leave, once all have returned, the initial number plus the number of calls,
    wrapped around at 64 bits. *)
Lemma no_lost_increment ks s k i : rtc lstep (unlocked ks) s →
  ks !! k = Some (Itoa i) → in_int64 i → inside s = ∅ →
  Forall (λ c, fst c = OIncr k 1) (returned s) →
  map s !! k = Some (Itoa (wrap64 (i + Z.of_nat (length (returned s))))).
Proof.
  intros Hr Hk Hi He Hc. apply inv_run in Hr as [_ Hx Hn]. destruct (writer s) eqn:Hw.
  - destruct (Hx eq_refl) as (_ & t & o & b & Ht & _). rewrite He in Ht.
    by apply symmetry, map_non_empty_singleton in Ht.
  - destruct (Hn eq_refl) as (-> & _ & _). by apply after_incr.
Qed.
End theorems.

(** ** Witnesses

    Two goroutines increment a counter, after two others read it at once. *)
Definition counter : Keyspace := {[ §"n" := §"41" ]}.
Definition incr_n : op := OIncr §"n" 1.

Ltac lock_step tac := eapply rtc_l; [tac; try reflexivity; vm_compute; reflexivity|].

Definition both : Shared :=
  mkShared {[ §"n" := §"43" ]} 0 false ∅ [(incr_n, RUnit); (incr_n, RUnit)].

Lemma both_run : rtc lstep (unlocked counter) both.
Proof.
  do 2 (lock_step ltac:(eapply (l_Lock _ 7 incr_n)); lock_step ltac:(eapply (l_access _ 7 incr_n));
        lock_step ltac:(eapply (l_access _ 7 incr_n)); lock_step ltac:(eapply (l_Unlock _ 7 incr_n))).
  apply reflexive_eq. vm_compute. reflexivity.
Qed.

Definition reading : Mem := mkMem {[ 1%positive := counter ]} (Some 1%positive).
Definition two_readers : Shared :=
  mkShared counter 1 false {[ 8 := (OGet §"n", BDone (RValue (Some §"41"))) ]} [(OGet §"n", RValue (Some §"41"))].

Lemma two_readers_run : rtc lstep (unlocked (deref reading)) two_readers.
Proof.
  lock_step ltac:(eapply (l_RLock _ 7 (OGet §"n"))). lock_step ltac:(eapply (l_RLock _ 8 (OGet §"n"))).
  lock_step ltac:(eapply (l_access _ 8 (OGet §"n"))). lock_step ltac:(eapply (l_access _ 7 (OGet §"n"))).
  lock_step ltac:(eapply (l_RUnlock _ 7 (OGet §"n"))).
  apply reflexive_eq. vm_compute. reflexivity.
Qed.

Lemma linearizable_witness :
  ∃ m', sequential [OGet §"n"] reading = (Ok [RValue (Some §"41")], m') ∧ mem_wf m' ∧
        (writer two_readers = false → map two_readers = deref m').
Proof.
  apply (linearizable reading two_readers); [|exact two_readers_run].
  exists 1%positive. split; [reflexivity|]. eexists. vm_compute. reflexivity.
Defined.

