(* ===== verification/CmdExecutor.v ===== *)
(** * The command executor (src/core/cmd_executor.go)

    Commands, their classification into reads and writes, and their execution
    on a database.  The executor is written against [KVOps]; its theorems use
    [KVLaws] only, so they hold of [MemDB] and of every other lawful store. *)

From S2P Require Import Prelude GoLib Resp MemDB.
Import Build.

(** A command of the Raft log. *)
Record Cmd := mkCmd { Op : gostring; Args : list gostring }.
#[export] Instance Cmd_eq_dec : EqDecision Cmd.
Proof. solve_decision. Defined.

(** [fmt]'s "%v" of a string slice. *)
Fixpoint join (sep : gostring) (ss : list gostring) : gostring :=
  match ss with
  | [] => []
  | [s] => s
  | s :: ss' => s ++ sep ++ join sep ss'
  end.

Definition ToString (cmd : Cmd) : gostring :=
  §"RESP Command: Op=" ++ Op cmd ++ §", Args=[" ++ join §" " (Args cmd) ++ §"]".

Definition write_ops : list gostring := [§"SET"; §"DEL"; §"INCR"; §"DECR"; §"INCRBY"].

Definition IsWriteOp (cmd : Cmd) : bool := bool_decide (Op cmd ∈ write_ops).

(** The error of [BuildCmd] carries the rejected arguments, an empty list. *)
Definition BuildCmd `{UnicodeTables} (args : list gostring) : option Cmd :=
  match args with
  | [] => None
  | [op] => Some (mkCmd (ToUpper op) [])
  | op :: rest => Some (mkCmd (ToUpper op) rest)
  end.

Section executor.
Context {M : Type} `{KVOps M}.

(** [save] is what the call [SaveSnapshot()] returns: the text of its error,
    if any. *)
Definition executeOnDB (save : option gostring) (cmd : Cmd) : GM M IncrError gostring :=
  let incr key delta :=
    err ← catch (Incr key delta);
    mret (match err with inl _ => ErrWrongDataType | inr _ => RespOk end) in
  if decide (Op cmd = §"PING") then
    match Args cmd with
    | [] => mret Pong
    | arg :: _ => mret (BuildBulkString (Some arg))
    end
  else if decide (Op cmd = §"SET") then
    match Args cmd with
    | [key; value] => Set_ key value;; mret RespOk
    | _ => mret ErrCommandFormatError
    end
  else if decide (Op cmd = §"GET") then
    match Args cmd with
    | [key] => v ← Get key; mret (BuildBulkString v)
    | _ => mret ErrCommandFormatError
    end
  else if decide (Op cmd = §"DEL") then
    match Args cmd with
    | [key] => Delete key;; mret RespOk
    | _ => mret ErrCommandFormatError
    end
  else if decide (Op cmd = §"INCR") then
    match Args cmd with
    | [key] => incr key 1%Z
    | _ => mret ErrCommandFormatError
    end
  else if decide (Op cmd = §"DECR") then
    match Args cmd with
    | [key] => incr key (-1)%Z
    | _ => mret ErrCommandFormatError
    end
  else if decide (Op cmd = §"INCRBY") then
    match Args cmd with
    | [key; d] =>
        match Atoi d with
        | None => mret ErrCommandFormatError
        | Some delta => incr key delta
        end
    | _ => mret ErrCommandFormatError
    end
  else if decide (Op cmd = §"EXISTS") then
    match Args cmd with
    | [] => mret ErrCommandFormatError
    | keys => cnt ← CountKeys keys; mret (BuildInteger cnt)
    end
  else if decide (Op cmd = §"SAVE") then
    match Args cmd with
    | [] =>
        match save with
        | Some err => mret (BuildErrorMsg ErrGeneric (§"Snapshot failed: " ++ err))
        | None => mret RespOk
        end
    | _ => mret ErrCommandFormatError
    end
  else mret ErrCommandUnsupported.
End executor.

(** [ExecuteLocally] runs a command on the package's database. *)
Definition ExecuteLocally (save : option gostring) (cmd : Cmd) : GM MemDB.Mem IncrError gostring :=
  executeOnDB save cmd.

(** [ResetMemDB] *)
Definition ResetMemDB : GM MemDB.Mem IncrError unit := MemDB.Init.

(** ** Specification

    A command denotes an abstract request, and a request denotes a function on
    key spaces.  This is the contract a client relies on. *)
Inductive Request :=
| RPing (echo : option gostring)
| RSet (key value : gostring)
| RGet (key : gostring)
| RDel (key : gostring)
| RIncr (key : gostring) (delta : Z)
| RExists (keys : list gostring)
| RSave
| RFormatError
| RUnsupported.

Definition request_table : list (gostring * (list gostring → Request)) :=
  [ (§"PING", λ args, match args with [] => RPing None | a :: _ => RPing (Some a) end);
    (§"SET", λ args, match args with [k; v] => RSet k v | _ => RFormatError end);
    (§"GET", λ args, match args with [k] => RGet k | _ => RFormatError end);
    (§"DEL", λ args, match args with [k] => RDel k | _ => RFormatError end);
    (§"INCR", λ args, match args with [k] => RIncr k 1 | _ => RFormatError end);
    (§"DECR", λ args, match args with [k] => RIncr k (-1) | _ => RFormatError end);
    (§"INCRBY", λ args, match args with
       | [k; d] => match Atoi d with Some n => RIncr k n | None => RFormatError end
       | _ => RFormatError end);
    (§"EXISTS", λ args, match args with [] => RFormatError | _ => RExists args end);
    (§"SAVE", λ args, match args with [] => RSave | _ => RFormatError end) ].

Definition request_of (cmd : Cmd) : Request :=
  match list_find (λ e, fst e = Op cmd) request_table with
  | Some (_, (_, mk)) => mk (Args cmd)
  | None => RUnsupported
  end.

Definition denote (save : option gostring) (r : Request) (ks : Keyspace) : gostring * Keyspace :=
  match r with
  | RPing None => (Pong, ks)
  | RPing (Some a) => (BuildBulkString (Some a), ks)
  | RSet k v => (RespOk, <[k := v]> ks)
  | RGet k => (BuildBulkString (ks !! k), ks)
  | RDel k => (RespOk, delete k ks)
  | RIncr k d => match incr_value (ks !! k) d with
                 | inl _ => (ErrWrongDataType, ks)
                 | inr v => (RespOk, <[k := v]> ks)
                 end
  | RExists keys => (BuildInteger (count_present keys ks), ks)
  | RSave => (from_option (λ e, BuildErrorMsg ErrGeneric (§"Snapshot failed: " ++ e)) RespOk save, ks)
  | RFormatError => (ErrCommandFormatError, ks)
  | RUnsupported => (ErrCommandUnsupported, ks)
  end.

(** Arguments a Go slice can hold. *)
Definition cmd_fits (cmd : Cmd) : Prop := in_int64 (Z.of_nat (length (Args cmd))).

(** ** Refinement *)
Section refinement.
Context {M : Type} `{KVLaws M}.
Implicit Types (m : M) (cmd : Cmd) (save : option gostring).

(** [runs m c reply ks]: [c] replies [reply] and ends in a well-formed store
    that stands for [ks]. *)
Definition runs m (c : GM M IncrError gostring) (out : gostring * Keyspace) : Prop :=
  ∃ m', c m = (Ok (fst out), m') ∧ kv_wf m' ∧ view m' = snd out.

Lemma runs_ret m reply : kv_wf m → runs m (mret reply) (reply, view m).
Proof. intros. by exists m. Qed.

Lemma runs_set m k v : kv_wf m →
  runs m (Set_ k v;; mret RespOk) (RespOk, <[k := v]> (view m)).
Proof.
  intros Hwf. destruct (Set_law m k v Hwf) as (m' & E & ? & ?). exists m'. by gm_step E.
Qed.

Lemma runs_get m k : kv_wf m →
  runs m (v ← Get k; mret (BuildBulkString v)) (BuildBulkString (view m !! k), view m).
Proof. intros Hwf. exists m. by gm_step (Get_law m k Hwf). Qed.

Lemma runs_del m k : kv_wf m →
  runs m (Delete k;; mret RespOk) (RespOk, delete k (view m)).
Proof.
  intros Hwf. destruct (Delete_law m k Hwf) as (m' & E & ? & ?). exists m'. by gm_step E.
Qed.

Lemma runs_incr m k d : kv_wf m →
  runs m (err ← catch (Incr k d);
          mret (match err with inl _ => ErrWrongDataType | inr _ => RespOk end))
       (denote None (RIncr k d) (view m)).
Proof.
  intros Hwf. pose proof (Incr_law m k d Hwf) as HI.
  unfold runs, denote, mbind, GM_bind, catch.
  destruct (incr_value (view m !! k) d) as [e|v].
  - rewrite HI. by exists m.
  - destruct HI as (m' & -> & ? & ?). by exists m'.
Qed.

Lemma runs_exists m keys : kv_wf m → in_int64 (Z.of_nat (length keys)) →
  runs m (cnt ← CountKeys keys; mret (BuildInteger cnt))
       (BuildInteger (count_present keys (view m)), view m).
Proof. intros Hwf Hk. exists m. by gm_step (CountKeys_law m keys Hwf Hk). Qed.

#[local] Hint Resolve runs_ret runs_set runs_get runs_del runs_incr runs_exists : skiff.

Lemma execute_runs save cmd m : kv_wf m → cmd_fits cmd →
  runs m (executeOnDB save cmd) (denote save (request_of cmd) (view m)).
Proof.
  intros Hwf Hfit. destruct cmd as [op args]. unfold cmd_fits in Hfit. simpl in Hfit.
  unfold executeOnDB, request_of, request_table. cbn [Op Args fst].
  repeat (case_decide; [subst op; simpl; repeat case_match; subst; simpl; auto with skiff|]).
  rewrite (proj2 (list_find_None _ _)); [by apply runs_ret|].
  repeat (apply Forall_cons_2; [by apply not_eq_sym|]). by apply Forall_nil_2.
Qed.
End refinement.

(** The same for the database of the package. *)
Lemma mem_execute save cmd (m : MemDB.Mem) : MemDB.mem_wf m → cmd_fits cmd →
  ∃ m', executeOnDB save cmd m = (Ok (fst (denote save (request_of cmd) (MemDB.deref m))), m') ∧
        MemDB.mem_wf m' ∧ MemDB.deref m' = snd (denote save (request_of cmd) (MemDB.deref m)).
Proof. exact (execute_runs save cmd m). Qed.

(** What [SaveSnapshot] returns matters to [SAVE] only. *)
Lemma denote_write_save save save' cmd ks : IsWriteOp cmd = true →
  denote save (request_of cmd) ks = denote save' (request_of cmd) ks.
Proof.
  destruct cmd as [op args]. intros Hw%bool_decide_eq_true. unfold write_ops in Hw. simpl in Hw.
  rewrite !elem_of_cons, elem_of_nil in Hw.
  destruct_or!; subst op; try done; unfold request_of; simpl; by repeat case_match.
Qed.

(** Whatever relation all the operations of a store respect, the executor
    respects. *)
Section preorder.
Context {M : Type} `{KVOps M} (R : M → M → Prop) `{!PreOrder R}.
Context (R_count : ∀ m keys, R m (snd (CountKeys keys m)))
        (R_get : ∀ m k, R m (snd (Get k m)))
        (R_set : ∀ m k v, R m (snd (Set_ k v m)))
        (R_delete : ∀ m k, R m (snd (Delete k m)))
        (R_incr : ∀ m k d, R m (snd (Incr k d m))).

Lemma bind_ret_snd {A B} (c : GM M IncrError A) (f : A → B) m :
  snd ((a ← c; mret (f a)) m) = snd (c m).
Proof. unfold mbind, GM_bind. by destruct (c m) as [[] ?]. Qed.

Lemma catch_snd {A} (c : GM M IncrError A) m : snd (catch c m) = snd (c m).
Proof. unfold catch. by destruct (c m) as [[] ?]. Qed.

Lemma execute_preorder save cmd m : R m (snd (executeOnDB save cmd m)).
Proof.
  destruct cmd as [op args]. unfold executeOnDB. cbn [Op Args].
  repeat case_match; try done; rewrite bind_ret_snd, ?catch_snd; auto.
Qed.
End preorder.

(** ** Sequences of commands *)
Section sequences.
Context {M : Type} `{KVLaws M}.
Implicit Types (m : M) (cmd : Cmd) (cmds : list Cmd) (save : option gostring) (ks : Keyspace).

Fixpoint execute_all save cmds : GM M IncrError (list gostring) :=
  match cmds with
  | [] => mret []
  | cmd :: cmds => r ← executeOnDB save cmd; rs ← execute_all save cmds; mret (r :: rs)
  end.

Fixpoint denote_all save cmds ks : list gostring * Keyspace :=
  match cmds with
  | [] => ([], ks)
  | cmd :: cmds =>
      let '(r, ks1) := denote save (request_of cmd) ks in
      let '(rs, ks2) := denote_all save cmds ks1 in
      (r :: rs, ks2)
  end.

Lemma execute_all_app save cmds1 cmds2 m :
  execute_all save (cmds1 ++ cmds2) m =
  (rs1 ← execute_all save cmds1; rs2 ← execute_all save cmds2; mret (rs1 ++ rs2)) m.
Proof.
  revert m. induction cmds1 as [|c cmds1 IH]; intros m; simpl.
  - unfold mbind, GM_bind, mret, GM_ret. by destruct (execute_all save cmds2 m) as [[]].
  - unfold mbind, GM_bind, mret, GM_ret in *.
    destruct (executeOnDB save c m) as [[r| | |] m1]; try done.
    rewrite IH. destruct (execute_all save cmds1 m1) as [[rs| | |] m2]; try done.
    by destruct (execute_all save cmds2 m2) as [[]].
Qed.

Lemma execute_all_runs save cmds m : kv_wf m → Forall cmd_fits cmds →
  ∃ m', execute_all save cmds m = (Ok (fst (denote_all save cmds (view m))), m') ∧
        kv_wf m' ∧ view m' = snd (denote_all save cmds (view m)).
Proof.
  revert m. induction cmds as [|cmd cmds IH]; intros m Hwf Hfit; [by exists m|].
  apply Forall_cons in Hfit as [Hc Hfit].
  destruct (execute_runs save cmd m Hwf Hc) as (m1 & E1 & Hwf1 & Hv1).
  destruct (IH m1 Hwf1 Hfit) as (m2 & E2 & Hwf2 & Hv2).
  cbn [execute_all denote_all]. gm_step E1. gm_step E2. rewrite Hv1 in *.
  destruct (denote save (request_of cmd) (view m)) as [r ks1]. simpl in *.
  destruct (denote_all save cmds ks1) as [rs ks2]. by exists m2.
Qed.

(** The key a write command writes to. *)
Definition written_key cmd : option gostring :=
  match request_of cmd with
  | RSet k _ | RDel k | RIncr k _ => Some k
  | _ => None
  end.

Lemma denote_other save cmd ks k : written_key cmd ≠ Some k →
  snd (denote save (request_of cmd) ks) !! k = ks !! k.
Proof.
  unfold written_key. destruct (request_of cmd) as [[]| | | | | | | |]; simpl; try done; intros Hk.
  - apply lookup_insert_ne. congruence.
  - apply lookup_delete_ne. congruence.
  - case_match; simpl; [done|]. apply lookup_insert_ne. congruence.
Qed.

Lemma denote_all_other save cmds ks k : Forall (λ cmd, written_key cmd ≠ Some k) cmds →
  snd (denote_all save cmds ks) !! k = ks !! k.
Proof.
  intros Hall. revert ks. induction Hall as [|cmd cmds Hc Hall IH]; intros ks; [done|].
  simpl. pose proof (denote_other save cmd ks k Hc).
  destruct (denote save (request_of cmd) ks) as [r ks1]. specialize (IH ks1).
  destruct (denote_all save cmds ks1). simpl in *. congruence.
Qed.

Lemma denote_incr_all save (n : nat) k i ks : in_int64 i → ks !! k = Some (Itoa i) →
  denote_all save (replicate n (mkCmd §"INCR" [k])) ks =
    (replicate n RespOk, <[k := Itoa (wrap64 (i + Z.of_nat n))]> ks).
Proof.
  revert i ks. induction n as [|n IH]; intros i ks Hi Hk.
  { simpl. rewrite Z.add_0_r, wrap64_id by done. by rewrite insert_id. }
  cbn [replicate denote_all]. change (request_of _) with (RIncr k 1).
  unfold denote. rewrite Hk. unfold incr_value. rewrite Atoi_Itoa by done.
  rewrite (IH (wrap64 (i + 1))); [|apply wrap64_range|apply lookup_insert_eq].
  rewrite insert_insert_eq, wrap64_add_l. do 4 f_equal. lia.
Qed.
End sequences.

(** ** Theorems *)
Section theorems.
Context {M : Type} `{KVLaws M}.
Implicit Types (m : M) (cmd : Cmd) (save : option gostring).

(** C7.  The executor implements the command specification: on every
    well-formed store and for every command, it returns normally, its reply and
    the key space it leaves are those the specification assigns to the command,
    and the store stays well formed. *)
Theorem executeOnDB_refines save cmd m : kv_wf m → cmd_fits cmd →
  ∃ m', executeOnDB save cmd m = (Ok (fst (denote save (request_of cmd) (view m))), m') ∧
        kv_wf m' ∧ view m' = snd (denote save (request_of cmd) (view m)).
Proof. apply execute_runs. Qed.

(** No write bypasses replication.  A command that [IsWriteOp] does not
    classify as a write leaves the whole store as it is, whatever its
    arguments: the server may execute it locally. *)
Lemma reads_do_not_write save cmd m : kv_wf m → cmd_fits cmd →
  IsWriteOp cmd = false → snd (executeOnDB save cmd m) = m.
Proof.
  intros Hwf Hfit Hr. destruct cmd as [op args]. unfold executeOnDB, cmd_fits in *.
  cbn [Op Args] in *. repeat (case_decide; [subst op; try done|]); try done.
  - by case_match.
  - repeat case_match; try done. by gm_step (Get_law m _ Hwf).
  - destruct args as [|k args]; [done|]. by gm_step (CountKeys_law m _ Hwf Hfit).
  - by repeat case_match.
Qed.

(** Counting.  [n] increments of a key that holds the number [i] all
    succeed and leave [i + n], wrapped around at 64 bits, under that key, and
    every other key as it was. *)
Lemma incr_counts save (n : nat) k i m : kv_wf m → in_int64 i →
  view m !! k = Some (Itoa i) →
  ∃ m', execute_all save (replicate n (mkCmd §"INCR" [k])) m = (Ok (replicate n RespOk), m') ∧
        view m' = <[k := Itoa (wrap64 (i + Z.of_nat n))]> (view m).
Proof.
  intros Hwf Hi Hk.
  destruct (execute_all_runs save (replicate n (mkCmd §"INCR" [k])) m Hwf) as (m' & E & _ & Hv).
  { apply Forall_replicate. unfold cmd_fits, in_int64. simpl. lia. }
  rewrite denote_incr_all with (i := i) in E, Hv by done. eauto.
Qed.

(** A stored value is read back.  After [SET k v], however many commands
    follow that do not write to [k], [GET k] replies with [v]. *)
Lemma get_last_set save k v cmds m : kv_wf m → Forall cmd_fits cmds →
  Forall (λ cmd, written_key cmd ≠ Some k) cmds →
  ∃ replies m', execute_all save (mkCmd §"SET" [k; v] :: cmds ++ [mkCmd §"GET" [k]]) m =
    (Ok (RespOk :: replies ++ [BuildBulkString (Some v)]), m').
Proof.
  intros Hwf Hfit Hk.
  destruct (execute_all_runs save (mkCmd §"SET" [k; v] :: cmds) m Hwf) as (m1 & E1 & Hwf1 & Hv1).
  { apply Forall_cons. split; [unfold cmd_fits, in_int64; simpl; lia|done]. }
  assert (Hkv : view m1 !! k = Some v).
  { rewrite Hv1. simpl. change (request_of _) with (RSet k v).
    pose proof (denote_all_other save cmds (<[k := v]> (view m)) k Hk) as Ho. simpl.
    destruct (denote_all save cmds _). simpl in *. rewrite Ho. apply lookup_insert_eq. }
  destruct (execute_runs save (mkCmd §"GET" [k]) m1 Hwf1) as (m2 & E2 & _).
  { unfold cmd_fits, in_int64. simpl. lia. }
  exists (fst (denote_all save cmds (<[k := v]> (view m)))), m2.
  rewrite app_comm_cons, execute_all_app. gm_step E1. cbn [execute_all].
  change (request_of (mkCmd §"GET" [k])) with (RGet k) in E2. unfold denote in E2.
  rewrite Hkv in E2. unfold mbind at 1, GM_bind. gm_step E2.
  simpl. change (request_of (mkCmd §"SET" [k; v])) with (RSet k v). simpl.
  by destruct (denote_all save cmds (<[k := v]> (view m))).
Qed.
End theorems.

(** ** Witnesses *)
Lemma executeOnDB_refines_witness :
  ∃ m', executeOnDB None (mkCmd §"INCR" [§"n"]) MemDB.initial =
          (Ok (fst (denote None (request_of (mkCmd §"INCR" [§"n"])) (view MemDB.initial))), m') ∧
        kv_wf m' ∧ view m' = snd (denote None (request_of (mkCmd §"INCR" [§"n"])) (view MemDB.initial)).
Proof.
  apply (executeOnDB_refines (M := MemDB.Mem)); [exact MemDB.initial_wf|].
  vm_compute. split; [discriminate | reflexivity].
Defined.
