(* ===== verification/Utf8.v ===== *)
(** * UTF-8 (package unicode/utf8)

    Decoding of the first rune of a string, encoding of a rune, and the
    segmentation of a string into valid encodings and stray bytes that
    [encoding/json] works with.  [to_valid] is the string with every stray byte
    replaced by U+FFFD: what a Go program gets back when it writes the string as
    JSON and reads it again. *)

From S2P Require Import Prelude GoLib.

#[local] Open Scope N_scope.

Definition RuneError : N := 0xFFFD.

Definition in_range (lo hi : N) (c : ascii) : bool := (lo <=? byte c) && (byte c <=? hi).
Definition is_cont : ascii → bool := in_range 0x80 0xBF.

(** [utf8.DecodeRune]: the first rune and its width; a string that does not
    start with a valid encoding gives [RuneError] and width 1. *)
Definition DecodeRune (s : gostring) : N * nat :=
  let bad := (RuneError, 1%nat) in
  match s with
  | [] => (RuneError, 0%nat)
  | c0 :: s1 =>
      let b0 := byte c0 in
      if b0 <? 0x80 then (b0, 1%nat)
      else if b0 <? 0xC2 then bad
      else if b0 <? 0xE0 then
        match s1 with
        | c1 :: _ => if is_cont c1 then ((b0 - 0xC0) * 64 + (byte c1 - 0x80), 2%nat) else bad
        | _ => bad
        end
      else if b0 <? 0xF0 then
        match s1 with
        | c1 :: c2 :: _ =>
            let lo := if b0 =? 0xE0 then 0xA0 else 0x80 in
            let hi := if b0 =? 0xED then 0x9F else 0xBF in
            if in_range lo hi c1 && is_cont c2
            then ((b0 - 0xE0) * 4096 + (byte c1 - 0x80) * 64 + (byte c2 - 0x80), 3%nat) else bad
        | _ => bad
        end
      else if b0 <? 0xF5 then
        match s1 with
        | c1 :: c2 :: c3 :: _ =>
            let lo := if b0 =? 0xF0 then 0x90 else 0x80 in
            let hi := if b0 =? 0xF4 then 0x8F else 0xBF in
            if in_range lo hi c1 && is_cont c2 && is_cont c3
            then ((b0 - 0xF0) * 262144 + (byte c1 - 0x80) * 4096 + (byte c2 - 0x80) * 64
                  + (byte c3 - 0x80), 4%nat) else bad
        | _ => bad
        end
      else bad
  end.

(** [utf8.AppendRune]; an invalid rune is written as U+FFFD. *)
Definition enc3 (r : N) : gostring :=
  [ascii_of_N (0xE0 + r / 4096); ascii_of_N (0x80 + r / 64 mod 64); ascii_of_N (0x80 + r mod 64)].
Definition EncodeRune (r : N) : gostring :=
  if r <? 0x80 then [ascii_of_N r]
  else if r <? 0x800 then [ascii_of_N (0xC0 + r / 64); ascii_of_N (0x80 + r mod 64)]
  else if (0x10FFFF <? r) || ((0xD800 <=? r) && (r <=? 0xDFFF)) then enc3 RuneError
  else if r <? 0x10000 then enc3 r
  else [ascii_of_N (0xF0 + r / 262144); ascii_of_N (0x80 + r / 4096 mod 64);
        ascii_of_N (0x80 + r / 64 mod 64); ascii_of_N (0x80 + r mod 64)].

(** A piece of a string: a valid encoding with its rune, or a stray byte. *)
Inductive Seg := Valid (r : N) (bs : gostring) | Stray (c : ascii).

Definition first_seg (s : gostring) : option (Seg * gostring) :=
  match s with
  | [] => None
  | c :: s' =>
      let '(r, size) := DecodeRune s in
      if (r =? RuneError) && Nat.eqb size 1 then Some (Stray c, s')
      else Some (Valid r (take size s), drop size s)
  end.

Fixpoint segs_at (fuel : nat) (s : gostring) : list Seg :=
  match fuel with
  | O => []
  | S fuel => match first_seg s with
              | Some (g, s') => g :: segs_at fuel s'
              | None => []
              end
  end.
Definition segs (s : gostring) : list Seg := segs_at (length s) s.

Definition seg_bytes (g : Seg) : gostring :=
  match g with Valid _ bs => bs | Stray c => [c] end.
Definition seg_valid (g : Seg) : gostring :=
  match g with Valid _ bs => bs | Stray _ => EncodeRune RuneError end.

Definition to_valid (s : gostring) : gostring := concat (map seg_valid (segs s)).
Definition valid_utf8 (s : gostring) : Prop := to_valid s = s.
#[export] Instance valid_utf8_dec s : Decision (valid_utf8 s).
Proof. unfold valid_utf8. apply _. Defined.

Example to_valid_stray : to_valid (ascii_of_N 0xFF :: §"a") = EncodeRune RuneError ++ §"a".
Proof. vm_refl. Qed.

(** ** Facts *)
Lemma byte_bound c : byte c < 256.
Proof. apply N_ascii_bounded. Qed.

Lemma ascii_of_byte_eq c n : n = byte c → ascii_of_N n = c.
Proof. intros ->. apply ascii_N_embedding. Qed.

Lemma in_range_spec lo hi c : in_range lo hi c = true ↔ lo ≤ byte c ≤ hi.
Proof. unfold in_range. rewrite andb_true_iff, !N.leb_le. done. Qed.

(** A good segment: its bytes are what [EncodeRune] writes for its rune, and
    they are recognised in front of anything. *)
Definition seg_ok (g : Seg) : Prop :=
  match g with
  | Valid r bs => EncodeRune r = bs ∧ (∀ t, DecodeRune (bs ++ t) = (r, length bs)) ∧ bs ≠ []
                  ∧ ¬ (r = RuneError ∧ length bs = 1%nat)
  | Stray c => 0x80 ≤ byte c
  end.

Ltac ltb_cases :=
  repeat match goal with
  | |- context [?a <? ?b] => destruct (N.ltb_spec a b); try lia
  | |- context [?a <=? ?b] => destruct (N.leb_spec a b); try lia
  end.

Lemma enc_1 c : byte c < 0x80 → EncodeRune (byte c) = [c].
Proof. intros H. unfold EncodeRune. ltb_cases. by rewrite ascii_N_embedding. Qed.

Lemma div_mod_64 a b : b < 64 → (a * 64 + b) / 64 = a ∧ (a * 64 + b) mod 64 = b.
Proof.
  intros H. split.
  - rewrite N.div_add_l, N.div_small by lia. lia.
  - rewrite (N.add_comm (a * 64) b), N.Div0.mod_add, N.mod_small by lia. lia.
Qed.

Lemma enc_2 c0 c1 : 0xC2 ≤ byte c0 < 0xE0 → 0x80 ≤ byte c1 ≤ 0xBF →
  EncodeRune ((byte c0 - 0xC0) * 64 + (byte c1 - 0x80)) = [c0; c1].
Proof.
  intros H0 H1.
  destruct (div_mod_64 (byte c0 - 0xC0) (byte c1 - 0x80)) as [Hd Hm]; [lia|].
  unfold EncodeRune. ltb_cases. rewrite Hd, Hm.
  f_equal; [|f_equal]; apply ascii_of_byte_eq; lia.
Qed.

Lemma enc_3 c0 c1 c2 :
  0xE0 ≤ byte c0 < 0xF0 → 0x80 ≤ byte c1 ≤ 0xBF → 0x80 ≤ byte c2 ≤ 0xBF →
  (byte c0 = 0xE0 → 0xA0 ≤ byte c1) → (byte c0 = 0xED → byte c1 ≤ 0x9F) →
  EncodeRune ((byte c0 - 0xE0) * 4096 + (byte c1 - 0x80) * 64 + (byte c2 - 0x80)) = [c0; c1; c2].
Proof.
  intros H0 H1 H2 Hlo Hhi.
  replace ((byte c0 - 0xE0) * 4096 + (byte c1 - 0x80) * 64 + (byte c2 - 0x80))
    with (((byte c0 - 0xE0) * 64 + (byte c1 - 0x80)) * 64 + (byte c2 - 0x80)) by lia.
  set (hi := (byte c0 - 0xE0) * 64 + (byte c1 - 0x80)).
  destruct (div_mod_64 hi (byte c2 - 0x80)) as [Hd Hm]; [lia|].
  destruct (div_mod_64 (byte c0 - 0xE0) (byte c1 - 0x80)) as [Hd' Hm']; [lia|].
  assert (Hhi' : hi < 1024 ∧ 32 ≤ hi ∧ ¬ (864 ≤ hi ≤ 895)) by (unfold hi; lia).
  unfold EncodeRune. ltb_cases; cbn [andb orb]; try lia.
  all: unfold enc3; replace 4096 with (64 * 64) by lia;
    rewrite <- N.Div0.div_div, Hd, Hm; fold hi in Hd', Hm'; rewrite Hd', Hm';
    f_equal; [|f_equal; [|f_equal]]; apply ascii_of_byte_eq; lia.
Qed.

Lemma enc_4 c0 c1 c2 c3 :
  0xF0 ≤ byte c0 < 0xF5 → 0x80 ≤ byte c1 ≤ 0xBF → 0x80 ≤ byte c2 ≤ 0xBF → 0x80 ≤ byte c3 ≤ 0xBF →
  (byte c0 = 0xF0 → 0x90 ≤ byte c1) → (byte c0 = 0xF4 → byte c1 ≤ 0x8F) →
  EncodeRune ((byte c0 - 0xF0) * 262144 + (byte c1 - 0x80) * 4096 + (byte c2 - 0x80) * 64
              + (byte c3 - 0x80)) = [c0; c1; c2; c3].
Proof.
  intros H0 H1 H2 H3 Hlo Hhi.
  replace ((byte c0 - 0xF0) * 262144 + (byte c1 - 0x80) * 4096 + (byte c2 - 0x80) * 64 + (byte c3 - 0x80))
    with ((((byte c0 - 0xF0) * 64 + (byte c1 - 0x80)) * 64 + (byte c2 - 0x80)) * 64 + (byte c3 - 0x80)) by lia.
  set (hi := (byte c0 - 0xF0) * 64 + (byte c1 - 0x80)).
  destruct (div_mod_64 (hi * 64 + (byte c2 - 0x80)) (byte c3 - 0x80)) as [Hd Hm]; [lia|].
  destruct (div_mod_64 hi (byte c2 - 0x80)) as [Hd' Hm']; [lia|].
  destruct (div_mod_64 (byte c0 - 0xF0) (byte c1 - 0x80)) as [Hd'' Hm'']; [lia|]. fold hi in Hd'', Hm''.
  assert (Hhi' : 16 ≤ hi < 272) by (unfold hi; lia).
  unfold EncodeRune. ltb_cases; cbn [andb orb]; try lia.
  all: replace 262144 with (64 * 64 * 64) by lia; replace 4096 with (64 * 64) by lia;
    rewrite <- !N.Div0.div_div, Hd, Hm, Hd', Hm', Hd'', Hm'';
    f_equal; [|f_equal; [|f_equal; [|f_equal]]]; apply ascii_of_byte_eq; lia.
Qed.

(** The segments [DecodeRune] recognises, by width. *)
Lemma seg_ok_1 c0 : byte c0 < 0x80 → seg_ok (Valid (byte c0) [c0]).
Proof.
  intros H0. split_and!; [by apply enc_1| |done|].
  - intros t. simpl. by rewrite (proj2 (N.ltb_lt _ _)) by done.
  - unfold RuneError. intros [? _]. lia.
Qed.

Lemma seg_ok_2 c0 c1 : 0xC2 ≤ byte c0 < 0xE0 → is_cont c1 = true →
  seg_ok (Valid ((byte c0 - 0xC0) * 64 + (byte c1 - 0x80)) [c0; c1]).
Proof.
  intros H0 Hc. pose proof Hc as Hr%in_range_spec. split_and!; [by apply enc_2| |done|by intros [_ ?]].
  intros t. unfold DecodeRune. simpl. ltb_cases. by rewrite Hc.
Qed.

Lemma seg_ok_3 c0 c1 c2 : 0xE0 ≤ byte c0 < 0xF0 →
  in_range (if byte c0 =? 0xE0 then 0xA0 else 0x80) (if byte c0 =? 0xED then 0x9F else 0xBF) c1
    && is_cont c2 = true →
  seg_ok (Valid ((byte c0 - 0xE0) * 4096 + (byte c1 - 0x80) * 64 + (byte c2 - 0x80)) [c0; c1; c2]).
Proof.
  intros H0 Hc. pose proof Hc as [Hr1 Hr2]%andb_true_iff. apply in_range_spec in Hr1, Hr2.
  split_and!; [| |done|by intros [_ ?]].
  - apply enc_3; try done.
    + split; repeat case_match; lia.
    + intros E. rewrite E in Hr1. simpl in Hr1. lia.
    + intros E. rewrite E in Hr1. simpl in Hr1. lia.
  - intros t. unfold DecodeRune. simpl app. cbv beta iota zeta. ltb_cases. by rewrite Hc.
Qed.

Lemma seg_ok_4 c0 c1 c2 c3 : 0xF0 ≤ byte c0 < 0xF5 →
  in_range (if byte c0 =? 0xF0 then 0x90 else 0x80) (if byte c0 =? 0xF4 then 0x8F else 0xBF) c1
    && is_cont c2 && is_cont c3 = true →
  seg_ok (Valid ((byte c0 - 0xF0) * 262144 + (byte c1 - 0x80) * 4096 + (byte c2 - 0x80) * 64
                 + (byte c3 - 0x80)) [c0; c1; c2; c3]).
Proof.
  intros H0 Hc. pose proof Hc as [[Hr1 Hr2]%andb_true_iff Hr3]%andb_true_iff.
  apply in_range_spec in Hr1, Hr2, Hr3. split_and!; [| |done|by intros [_ ?]].
  - apply enc_4; try done.
    + split; repeat case_match; lia.
    + intros E. rewrite E in Hr1. simpl in Hr1. lia.
    + intros E. rewrite E in Hr1. simpl in Hr1. lia.
  - intros t. unfold DecodeRune. simpl app. cbv beta iota zeta. ltb_cases. by rewrite Hc.
Qed.

(** The first piece of a non-empty string is good, and the string is its bytes
    followed by the rest. *)
Lemma first_seg_spec s g s' : first_seg s = Some (g, s') →
  seg_ok g ∧ s = seg_bytes g ++ s' ∧ seg_bytes g ≠ [].
Proof.
  unfold first_seg. destruct s as [|c0 s1]; [done|].
  assert (Hstray : 0x80 ≤ byte c0 → Some (Stray c0, s1) = Some (g, s') →
    seg_ok g ∧ c0 :: s1 = seg_bytes g ++ s' ∧ seg_bytes g ≠ []) by (by intros ? [= <- <-]).
  unfold DecodeRune.
  destruct (N.ltb_spec (byte c0) 0x80).
  { rewrite (proj2 (N.eqb_neq _ _)) by (unfold RuneError; lia). simpl. intros [= <- <-].
    split_and!; [by apply seg_ok_1|done|done]. }
  destruct (N.ltb_spec (byte c0) 0xC2); [by apply Hstray|].
  destruct (N.ltb_spec (byte c0) 0xE0).
  { destruct s1 as [|c1 s2]; [by apply Hstray|].
    destruct (is_cont c1) eqn:Hc1; [|by apply Hstray].
    rewrite andb_false_r. simpl. intros [= <- <-]. split_and!; [by apply seg_ok_2|done|done]. }
  destruct (N.ltb_spec (byte c0) 0xF0).
  { destruct s1 as [|c1 [|c2 s3]]; [by apply Hstray|by apply Hstray|].
    cbv zeta. destruct (_ && is_cont c2) eqn:Hc; [|by apply Hstray].
    rewrite andb_false_r. simpl. intros [= <- <-]. split_and!; [by apply seg_ok_3|done|done]. }
  destruct (N.ltb_spec (byte c0) 0xF5); [|by apply Hstray].
  destruct s1 as [|c1 [|c2 [|c3 s4]]]; [by apply Hstray|by apply Hstray|by apply Hstray|].
  cbv zeta. destruct (_ && is_cont c3) eqn:Hc; [|by apply Hstray].
  rewrite andb_false_r. simpl. intros [= <- <-]. split_and!; [by apply seg_ok_4|done|done].
Qed.

Lemma first_seg_None s : first_seg s = None → s = [].
Proof. destruct s; [done|]. unfold first_seg. destruct (DecodeRune _). by case_match. Qed.

(** A good valid segment is found again in front of any string. *)
Lemma first_seg_valid r bs t : seg_ok (Valid r bs) → first_seg (bs ++ t) = Some (Valid r bs, t).
Proof.
  intros (_ & Hdec & Hne & Hnot). unfold first_seg. destruct (bs ++ t) eqn:E.
  { by destruct bs. }
  rewrite <- E. rewrite Hdec, take_app_exact, drop_app_exact.
  destruct (N.eqb_spec r RuneError); [|done].
  destruct (Nat.eqb_spec (length bs) 1); [|done]. by destruct Hnot.
Qed.

Lemma segs_at_enough fuel s : (length s ≤ fuel)%nat → segs_at fuel s = segs s.
Proof.
  unfold segs. revert fuel. induction s as [s IH] using (induction_ltof1 _ (@length ascii)).
  unfold ltof in IH. intros fuel Hf. destruct s as [|c s0]; [by destruct fuel|].
  destruct fuel as [|fuel]; [simpl in Hf; lia|]. cbn [length segs_at].
  destruct (first_seg (c :: s0)) as [[g s']|] eqn:E; [|done].
  apply first_seg_spec in E as (_ & Hs & Hne).
  assert ((length s' < length (c :: s0))%nat).
  { rewrite Hs, length_app. destruct (seg_bytes g); [done|]. simpl. lia. }
  simpl in *. f_equal. rewrite IH by lia. symmetry. apply IH; lia.
Qed.

Lemma segs_cons s g s' : first_seg s = Some (g, s') → segs s = g :: segs s'.
Proof.
  intros E. pose proof E as (_ & Hs & Hne)%first_seg_spec.
  assert (Hl : (length s' < length s)%nat).
  { rewrite Hs, length_app. destruct (seg_bytes g); [done|]. simpl. lia. }
  unfold segs at 1. destruct (length s) as [|n]; [lia|]. cbn [segs_at]. rewrite E.
  f_equal. apply segs_at_enough. lia.
Qed.

(** Induction over the pieces of a string. *)
Lemma segs_ind (P : gostring → Prop) :
  P [] →
  (∀ g s', seg_ok g → segs (seg_bytes g ++ s') = g :: segs s' → P s' → P (seg_bytes g ++ s')) →
  ∀ s, P s.
Proof.
  intros Hnil Hcons s. induction s as [s IH] using (induction_ltof1 _ (@length ascii)).
  unfold ltof in IH. destruct (first_seg s) as [[g s']|] eqn:E; [|by apply first_seg_None in E as ->].
  pose proof E as (Hg & Hs & Hne)%first_seg_spec. rewrite Hs. apply Hcons; [done| |].
  - rewrite <- Hs. by apply segs_cons.
  - apply IH. rewrite Hs, length_app. destruct (seg_bytes g); [done|]. simpl. lia.
Qed.

Lemma segs_valid_app r bs t : seg_ok (Valid r bs) → segs (bs ++ t) = Valid r bs :: segs t.
Proof. intros H. by apply segs_cons, first_seg_valid. Qed.

Lemma RuneError_ok : seg_ok (Valid RuneError (EncodeRune RuneError)).
Proof. split_and!; [done|done|done|]. by intros [_ ?]. Qed.

(** Repairing a string twice changes nothing more. *)
Lemma to_valid_idem s : to_valid (to_valid s) = to_valid s.
Proof.
  induction s as [|g s' Hg Hseg IH] using segs_ind; [done|].
  unfold to_valid at 2 3. rewrite Hseg. cbn [map concat]. fold (to_valid s').
  assert (∃ r, seg_ok (Valid r (seg_valid g))) as [r Hr].
  { destruct g as [r bs|c]; [by exists r|]. exists RuneError. apply RuneError_ok. }
  unfold to_valid at 1. rewrite segs_valid_app with (r := r) by done. cbn [map concat seg_valid].
  fold (to_valid (to_valid s')). by rewrite IH.
Qed.

Lemma valid_to_valid s : valid_utf8 (to_valid s).
Proof. apply to_valid_idem. Qed.

(** An ASCII string is valid. *)
Lemma valid_ascii s : is_ascii s = true → valid_utf8 s.
Proof.
  unfold valid_utf8. induction s as [|c s IH]; [done|]. simpl.
  intros [Hc Hs]%andb_true_iff. apply N.ltb_lt in Hc.
  unfold to_valid. change (c :: s) with ([c] ++ s).
  rewrite segs_valid_app with (r := byte c) by by apply seg_ok_1.
  cbn [map concat seg_valid]. fold (to_valid s). by rewrite IH.
Qed.

Lemma valid_utf8_nil : valid_utf8 [].
Proof. done. Qed.

Lemma digits_ascii s : forallb is_digit s = true → is_ascii s = true.
Proof.
  unfold is_ascii. rewrite !forallb_forall. intros H c Hc. specialize (H c Hc).
  unfold is_digit, is_ascii_byte in *. rewrite andb_true_iff, !N.leb_le in H. apply N.ltb_lt. lia.
Qed.

Lemma valid_Itoa z : valid_utf8 (Itoa z).
Proof.
  apply valid_ascii. unfold Itoa. destruct (Z.ltb_spec z 0) as [Hz|Hz].
  - destruct (udec_spec (- z)) as (_ & H & _); [lia|]. by apply digits_ascii in H.
  - destruct (udec_spec z Hz) as (_ & H & _). by apply digits_ascii.
Qed.

#[export] Hint Resolve valid_to_valid valid_ascii valid_utf8_nil valid_Itoa : skiff.
