(* ===== verification/Json.v ===== *)
(** * JSON (package encoding/json)

    The writer ([Marshal], [Encoder.Encode], [MarshalIndent]) and the reader
    ([Unmarshal], [Decoder.Decode]) on the values SkiffDB stores: replicated
    commands, snapshots and the node identity.  Text is bytes; [json] is the
    tree between text and Go values.  The writer repairs strings that are not
    valid UTF-8, so reading back what was written gives the repaired value
    ([parse_print]). *)

From S2P Require Import Prelude GoLib Utf8.

#[local] Set Warnings "-register-all".

Definition quote : ascii := "034"%char.
Definition backslash : ascii := "092"%char.

Inductive json :=
| JNull
| JBool (b : bool)
| JNum (lit : gostring)
| JStr (s : gostring)
| JArr (l : list json)
| JObj (l : list (gostring * json)).

(** ** Writing *)
Definition hex_digit (n : N) : ascii :=
  ascii_of_N (if (n <? 10)%N then 48 + n else 87 + n)%N.

(** [appendString] with HTML escaping, one rune at a time. *)
Definition html_safe (c : ascii) : bool :=
  (32 <=? byte c)%N && negb (bool_decide (c ∈ [quote; backslash; "<"; ">"; "&"]%char)).

Definition escape_ascii (c : ascii) : gostring :=
  if html_safe c then [c]
  else if bool_decide (c = backslash) || bool_decide (c = quote) then [backslash; c]
  else if bool_decide (c = "008"%char) then backslash :: §"b"
  else if bool_decide (c = "012"%char) then backslash :: §"f"
  else if bool_decide (c = "010"%char) then backslash :: §"n"
  else if bool_decide (c = "013"%char) then backslash :: §"r"
  else if bool_decide (c = "009"%char) then backslash :: §"t"
  else backslash :: §"u00" ++ [hex_digit (byte c / 16); hex_digit (byte c mod 16)].

Definition escape_seg (g : Seg) : gostring :=
  match g with
  | Stray _ => backslash :: §"ufffd"
  | Valid r bs =>
      match bs with
      | [c] => escape_ascii c
      | _ => if (r =? 0x2028)%N then backslash :: §"u2028"
             else if (r =? 0x2029)%N then backslash :: §"u2029"
             else bs
      end
  end.

Definition escape (s : gostring) : gostring := concat (map escape_seg (segs s)).
Definition enc_str (s : gostring) : gostring := quote :: escape s ++ [quote].

(** The white space [MarshalIndent] adds; the compact form has none. *)
Record style := mkStyle { newline : nat → gostring; colon_space : gostring }.
Definition compact : style := mkStyle (λ _, []) [].
Definition indented : style :=
  mkStyle (λ d, "010"%char :: concat (replicate d §"  ")) §" ".

Fixpoint sep_concat (sep : gostring) (l : list gostring) : gostring :=
  match l with
  | [] => []
  | [x] => x
  | x :: l' => x ++ sep ++ sep_concat sep l'
  end.

Fixpoint print (st : style) (d : nat) (j : json) : gostring :=
  match j with
  | JNull => §"null"
  | JBool true => §"true"
  | JBool false => §"false"
  | JNum lit => lit
  | JStr s => enc_str s
  | JArr [] => §"[]"
  | JArr l =>
      §"[" ++ newline st (S d)
      ++ sep_concat (§"," ++ newline st (S d)) (map (print st (S d)) l)
      ++ newline st d ++ §"]"
  | JObj [] => §"{}"
  | JObj l =>
      §"{" ++ newline st (S d)
      ++ sep_concat (§"," ++ newline st (S d))
           (map (λ kv, enc_str (fst kv) ++ §":" ++ colon_space st ++ print st (S d) (snd kv)) l)
      ++ newline st d ++ §"}"
  end.

(** ** Reading *)
(** The string after a given first byte. *)
Definition after (c : ascii) (s : gostring) : option gostring :=
  match s with
  | x :: r => if bool_decide (x = c) then Some r else None
  | [] => None
  end.

Definition is_ws (c : ascii) : bool :=
  bool_decide (c ∈ [" "; "009"; "010"; "013"]%char).
Fixpoint skip_ws (s : gostring) : gostring :=
  match s with
  | c :: s' => if is_ws c then skip_ws s' else s
  | [] => []
  end.

Definition hex_val (c : ascii) : option N :=
  let b := byte c in
  if (48 <=? b)%N && (b <=? 57)%N then Some (b - 48)%N
  else if (97 <=? b)%N && (b <=? 102)%N then Some (b - 87)%N
  else if (65 <=? b)%N && (b <=? 70)%N then Some (b - 55)%N
  else None.

(** [getu4], after the "\u". *)
Definition hex4 (s : gostring) : option (N * gostring) :=
  match s with
  | a :: b :: c :: d :: s' =>
      a ← hex_val a; b ← hex_val b; c ← hex_val c; d ← hex_val d;
      Some (((a * 16 + b) * 16 + c) * 16 + d, s')%N
  | _ => None
  end.

Definition is_surrogate (r : N) : bool := (0xD800 <=? r)%N && (r <? 0xE000)%N.

(** A [\u] escape, with the second half of a surrogate pair if there is one. *)
Definition unescape_u (s : gostring) : option (N * gostring) :=
  '(r, s1) ← hex4 s;
  if is_surrogate r then
    match s1 with
    | c :: "u"%char :: s2 =>
        if bool_decide (c = backslash) then
          match hex4 s2 with
          | Some (r1, s3) =>
              if (r <? 0xDC00)%N && (0xDC00 <=? r1)%N && (r1 <? 0xE000)%N
              then Some ((r - 0xD800) * 1024 + (r1 - 0xDC00) + 0x10000, s3)%N
              else Some (RuneError, s1)
          | None => Some (RuneError, s1)
          end
        else Some (RuneError, s1)
    | _ => Some (RuneError, s1)
    end
  else Some (r, s1).

(** Syntax errors are [Err tt]. *)
Definition JR (A : Type) : Type := outcome unit (A * gostring).

Definition simple_escape (c : ascii) : option ascii :=
  if bool_decide (c ∈ [quote; backslash; "/"%char]) then Some c
  else if bool_decide (c = "b"%char) then Some "008"%char
  else if bool_decide (c = "f"%char) then Some "012"%char
  else if bool_decide (c = "n"%char) then Some "010"%char
  else if bool_decide (c = "r"%char) then Some "013"%char
  else if bool_decide (c = "t"%char) then Some "009"%char
  else None.

(** Put decoded bytes in front of the rest of the string. *)
Definition emit (out : gostring) (r : JR gostring) : JR gostring :=
  match r with Ok (t, rest) => Ok (out ++ t, rest) | e => e end.

(** The body of a string literal and its closing quote. *)
Fixpoint parse_str (fuel : nat) (s : gostring) : JR gostring :=
  match fuel with
  | O => OutOfFuel
  | S fuel =>
      match s with
      | [] => Err tt
      | c :: s' =>
          if bool_decide (c = quote) then Ok ([], s')
          else if bool_decide (c = backslash) then
            match s' with
            | [] => Err tt
            | e :: s2 =>
                if bool_decide (e = "u"%char) then
                  match unescape_u s2 with
                  | Some (r, s3) => emit (EncodeRune r) (parse_str fuel s3)
                  | None => Err tt
                  end
                else match simple_escape e with
                     | Some x => emit [x] (parse_str fuel s2)
                     | None => Err tt
                     end
            end
          else if (byte c <? 32)%N then Err tt
          else if (byte c <? 128)%N then emit [c] (parse_str fuel s')
          else let '(r, size) := DecodeRune s in emit (EncodeRune r) (parse_str fuel (drop size s))
      end
  end.

Fixpoint take_digits (s : gostring) : gostring * gostring :=
  match s with
  | c :: s' => if is_digit c then let '(d, r) := take_digits s' in (c :: d, r) else ([], s)
  | [] => ([], [])
  end.

(** The number grammar. *)
Definition parse_int (s : gostring) : option (gostring * gostring) :=
  match s with
  | c :: s' =>
      if bool_decide (c = "0"%char) then Some ([c], s')
      else match take_digits s with ([], _) => None | (d, r) => Some (d, r) end
  | [] => None
  end.
Definition parse_frac (s : gostring) : option (gostring * gostring) :=
  match after "." s with
  | Some s' => match take_digits s' with ([], _) => None | (d, r) => Some ("."%char :: d, r) end
  | None => Some ([], s)
  end.
Definition parse_exp (s : gostring) : option (gostring * gostring) :=
  match s with
  | c :: s' =>
      if bool_decide (c ∈ ["e"; "E"]%char) then
        let '(sign, s2) := match s' with
          | x :: s2 => if bool_decide (x ∈ ["+"; "-"]%char) then ([x], s2) else ([], s')
          | [] => ([], s') end in
        match take_digits s2 with ([], _) => None | (d, r) => Some (c :: sign ++ d, r) end
      else Some ([], s)
  | [] => Some ([], s)
  end.
Definition parse_num (s : gostring) : option (gostring * gostring) :=
  let '(sign, s1) := match after "-" s with Some s1 => (["-"%char], s1) | None => ([], s) end in
  '(i, s2) ← parse_int s1; '(f, s3) ← parse_frac s2; '(e, s4) ← parse_exp s3;
  Some (sign ++ i ++ f ++ e, s4).

Definition parse_lit (lit : gostring) (j : json) (s : gostring) : JR json :=
  if HasPrefix s lit then Ok (j, drop (length lit) s) else Err tt.

Definition maxNestingDepth : N := 10000.

(** A value, the elements of an array after its "[" and the members of an
    object after its "{".  [depth] is the number of open containers. *)
Fixpoint parse_value (fuel depth : nat) (s : gostring) : JR json :=
  match fuel with
  | O => OutOfFuel
  | S fuel =>
      match skip_ws s with
      | [] => Err tt
      | c :: s' =>
          if bool_decide (c = quote) then
            match parse_str (S (length s')) s' with
            | Ok (t, r) => Ok (JStr t, r) | Err e => Err e | Panic => Panic | OutOfFuel => OutOfFuel
            end
          else if bool_decide (c = "["%char) then
            if (maxNestingDepth <=? N.of_nat depth)%N then Err tt
            else match after "]" (skip_ws s') with
                 | Some r => Ok (JArr [], r)
                 | None => match parse_elems fuel (S depth) s' with
                        | Ok (l, r) => Ok (JArr l, r) | Err e => Err e
                        | Panic => Panic | OutOfFuel => OutOfFuel
                        end
                 end
          else if bool_decide (c = "{"%char) then
            if (maxNestingDepth <=? N.of_nat depth)%N then Err tt
            else match after "}" (skip_ws s') with
                 | Some r => Ok (JObj [], r)
                 | None => match parse_members fuel (S depth) s' with
                        | Ok (l, r) => Ok (JObj l, r) | Err e => Err e
                        | Panic => Panic | OutOfFuel => OutOfFuel
                        end
                 end
          else if bool_decide (c = "n"%char) then parse_lit §"null" JNull (c :: s')
          else if bool_decide (c = "t"%char) then parse_lit §"true" (JBool true) (c :: s')
          else if bool_decide (c = "f"%char) then parse_lit §"false" (JBool false) (c :: s')
          else match parse_num (c :: s') with
               | Some (lit, r) => Ok (JNum lit, r)
               | None => Err tt
               end
      end
  end
with parse_elems (fuel depth : nat) (s : gostring) : JR (list json) :=
  match fuel with
  | O => OutOfFuel
  | S fuel =>
      match parse_value fuel depth s with
      | Ok (j, r) =>
          match after "," (skip_ws r), after "]" (skip_ws r) with
          | Some r', _ =>
              match parse_elems fuel depth r' with
              | Ok (l, r'') => Ok (j :: l, r'') | e => e
              end
          | None, Some r' => Ok ([j], r')
          | None, None => Err tt
          end
      | Err e => Err e | Panic => Panic | OutOfFuel => OutOfFuel
      end
  end
with parse_members (fuel depth : nat) (s : gostring) : JR (list (gostring * json)) :=
  match fuel with
  | O => OutOfFuel
  | S fuel =>
      match skip_ws s with
      | [] => Err tt
      | q :: s1 =>
          if bool_decide (q = quote) then
            match parse_str (S (length s1)) s1 with
            | Ok (k, s2) =>
                match after ":" (skip_ws s2) with
                | Some s3 =>
                    match parse_value fuel depth s3 with
                    | Ok (j, r) =>
                        match after "," (skip_ws r), after "}" (skip_ws r) with
                        | Some r', _ =>
                            match parse_members fuel depth r' with
                            | Ok (l, r'') => Ok ((k, j) :: l, r'') | e => e
                            end
                        | None, Some r' => Ok ([(k, j)], r')
                        | None, None => Err tt
                        end
                    | Err e => Err e | Panic => Panic | OutOfFuel => OutOfFuel
                    end
                | None => Err tt
                end
            | Err e => Err e | Panic => Panic | OutOfFuel => OutOfFuel
            end
          else Err tt
      end
  end.

(** Each level of the recursion consumes a byte or goes from a list to its
    first item, so twice the length is enough. *)
Definition parse_json (s : gostring) : JR json := parse_value (2 * length s + 2) 0 s.

(** A document: one value, then white space only. *)
Definition parse_document (s : gostring) : option json :=
  match parse_json s with
  | Ok (j, r) => match skip_ws r with [] => Some j | _ => None end
  | _ => None
  end.

(** ** Reading back what was written

    Every piece of a string is read back as its repaired bytes. *)


Lemma parse_str_ascii fuel c t : (byte c < 128)%N →
  parse_str (S fuel) (escape_ascii c ++ t) = emit [c] (parse_str fuel t).
Proof. intros Hc. destruct c as [[] [] [] [] [] [] [] []]; try done; vm_compute in Hc; done. Qed.

Lemma valid_long_head r c0 c1 bs : seg_ok (Valid r (c0 :: c1 :: bs)) → (128 ≤ byte c0)%N.
Proof.
  intros (_ & Hd & _ & _). specialize (Hd []). unfold DecodeRune in Hd. simpl in Hd.
  destruct (N.ltb_spec (byte c0) 128); [|done]. congruence.
Qed.

Lemma parse_str_raw fuel r c0 bs t : seg_ok (Valid r (c0 :: bs)) → (128 ≤ byte c0)%N →
  parse_str (S fuel) ((c0 :: bs) ++ t) = emit (c0 :: bs) (parse_str fuel t).
Proof.
  intros (He & Hd & _ & _) Hb. cbn [parse_str app].
  assert (Hq : ∀ x, (byte x < 128)%N → c0 ≠ x) by (intros x Hx ->; lia).
  rewrite (bool_decide_false (c0 = quote)) by (by apply Hq).
  rewrite (bool_decide_false (c0 = backslash)) by (by apply Hq).
  destruct (N.ltb_spec (byte c0) 32); [lia|]. destruct (N.ltb_spec (byte c0) 128); [lia|].
  change (c0 :: bs ++ t) with ((c0 :: bs) ++ t). rewrite Hd, He, drop_app_exact. done.
Qed.

Lemma parse_str_seg fuel g t : seg_ok g →
  parse_str (S fuel) (escape_seg g ++ t) = emit (seg_valid g) (parse_str fuel t).
Proof.
  intros Hg. destruct g as [r [|c0 [|c1 bs]]|c]; cbn [escape_seg seg_valid].
  - by destruct Hg as (_ & _ & ? & _).
  - apply parse_str_ascii. destruct Hg as (_ & Hd & _ & Hnot). specialize (Hd []).
    unfold DecodeRune in Hd. simpl in Hd. destruct (N.ltb_spec (byte c0) 128); [done|].
    exfalso. repeat case_match; simplify_eq; by apply Hnot.
  - destruct (N.eqb_spec r 0x2028) as [->|_]; [by destruct Hg as (<- & _)|].
    destruct (N.eqb_spec r 0x2029) as [->|_]; [by destruct Hg as (<- & _)|].
    apply parse_str_raw with (r := r); [done|]. by apply valid_long_head in Hg.
  - done.
Qed.

Lemma escape_seg_nonempty g : seg_ok g → escape_seg g ≠ [].
Proof.
  destruct g as [r [|c0 [|c1 bs]]|c]; cbn [escape_seg]; [|intros _|intros _|done].
  - by intros (_ & _ & ? & _).
  - unfold escape_ascii. by repeat case_match.
  - by repeat case_match.
Qed.

Lemma parse_str_escape s rest fuel : length (escape s) < fuel →
  parse_str fuel (escape s ++ quote :: rest) = Ok (to_valid s, rest).
Proof.
  revert fuel. induction s as [|g s' Hg Hseg IH] using segs_ind; intros fuel Hf.
  { destruct fuel; [simpl in Hf; lia|done]. }
  unfold escape, to_valid in *. rewrite Hseg in *. cbn [map concat] in *.
  pose proof (escape_seg_nonempty g Hg). rewrite length_app in Hf.
  destruct fuel as [|fuel]; [lia|]. rewrite <- app_assoc, parse_str_seg by done.
  rewrite IH; [done|]. destruct (escape_seg g); [done|]. simpl in Hf. lia.
Qed.

Lemma parse_enc_str s rest :
  parse_str (S (length (escape s ++ quote :: rest))) (escape s ++ quote :: rest)
  = Ok (to_valid s, rest).
Proof. apply parse_str_escape. rewrite length_app. lia. Qed.

(** *** Trees *)
Section json_induction.
Variable P : json → Prop.
Hypothesis HNull : P JNull.
Hypothesis HBool : ∀ b, P (JBool b).
Hypothesis HNum : ∀ lit, P (JNum lit).
Hypothesis HStr : ∀ s, P (JStr s).
Hypothesis HArr : ∀ l, Forall P l → P (JArr l).
Hypothesis HObj : ∀ l, Forall (λ kv, P (snd kv)) l → P (JObj l).

Fixpoint json_nested_ind (j : json) : P j :=
  match j with
  | JNull => HNull
  | JBool b => HBool b
  | JNum lit => HNum lit
  | JStr s => HStr s
  | JArr l => HArr l
      ((fix go (l : list json) : Forall P l :=
          match l with [] => Forall_nil_2 _ | x :: l' => Forall_cons_2 _ _ _ (json_nested_ind x) (go l') end) l)
  | JObj l => HObj l
      ((fix go (l : list (gostring * json)) : Forall (λ kv, P (snd kv)) l :=
          match l with [] => Forall_nil_2 _
          | x :: l' => Forall_cons_2 _ _ _ (json_nested_ind (snd x)) (go l') end) l)
  end.
End json_induction.

(** The tree with every string repaired. *)
Fixpoint repair (j : json) : json :=
  match j with
  | JStr s => JStr (to_valid s)
  | JArr l => JArr (map repair l)
  | JObj l => JObj (map (λ kv, (to_valid (fst kv), repair (snd kv))) l)
  | _ => j
  end.

(** Number of nested containers. *)
Fixpoint nesting (j : json) : nat :=
  match j with
  | JArr l => S (max_list (map nesting l))
  | JObj l => S (max_list (map (λ kv, nesting (snd kv)) l))
  | _ => 0
  end.

(** What may follow a number. *)
Definition delim_char (c : ascii) : bool :=
  negb (is_digit c || bool_decide (c ∈ ["."; "e"; "E"]%char)).
Definition delim (s : gostring) : bool :=
  match s with [] => true | c :: _ => delim_char c end.

Definition num_head (c : ascii) : bool := is_digit c || bool_decide (c = "-"%char).
Definition num_ok (lit : gostring) : Prop :=
  (∃ c l, lit = c :: l ∧ num_head c = true) ∧
  ∀ rest, delim rest = true → parse_num (lit ++ rest) = Some (lit, rest).

Fixpoint nums_ok (j : json) : Prop :=
  match j with
  | JNum lit => num_ok lit
  | JArr l => foldr (λ x, and (nums_ok x)) True l
  | JObj l => foldr (λ kv, and (nums_ok (snd kv))) True l
  | _ => True
  end.

Definition all_ws (s : gostring) : Prop := forallb is_ws s = true.
Class WsStyle (st : style) : Prop := {
  ws_newline d : all_ws (newline st d);
  ws_colon : all_ws (colon_space st);
}.

#[export] Instance compact_ws : WsStyle compact.
Proof. done. Qed.

#[export] Instance indented_ws : WsStyle indented.
Proof.
  split; [|done]. intros d. unfold all_ws. simpl.
  induction d as [|d IH]; [done|]. simpl in *. done.
Qed.

Lemma skip_ws_app w s : all_ws w → skip_ws (w ++ s) = skip_ws s.
Proof.
  unfold all_ws. induction w as [|c w IH]; [done|]. simpl.
  intros [-> ?]%andb_true_iff. auto.
Qed.

Lemma after_eq c s : after c (c :: s) = Some s.
Proof. unfold after. by rewrite bool_decide_true. Qed.

Lemma delim_ws_app w c s : all_ws w → delim_char c = true → delim (w ++ c :: s) = true.
Proof.
  intros Hw Hc. destruct w as [|x w]; [done|]. apply andb_true_iff in Hw as [Hx _].
  apply bool_decide_eq_true in Hx. simpl.
  repeat (apply elem_of_cons in Hx as [->|Hx]; [done|]). by apply not_elem_of_nil in Hx.
Qed.

Lemma is_ws_num c : num_head c = true → is_ws c = false.
Proof. by destruct c as [[] [] [] [] [] [] [] []]. Qed.

(** [reads st d depth j]: the printed form of [j], after white space and before
    a delimiter, is read as the repaired [j] and consumed exactly. *)
Definition reads (st : style) (d depth : nat) (j : json) : Prop :=
  ∀ fuel w rest, all_ws w → delim rest = true → 2 * length (print st d j) ≤ fuel →
  parse_value fuel depth (w ++ print st d j ++ rest) = Ok (repair j, rest).

Lemma reads_num st d depth lit : num_ok lit → reads st d depth (JNum lit).
Proof.
  intros [(c & l & Hl & Hc) Hp] fuel w rest Hw Hd Hf. cbn [print repair] in *.
  specialize (Hp rest Hd). subst lit.
  destruct fuel as [|fuel]; [simpl in Hf; lia|]. cbn [parse_value].
  rewrite skip_ws_app by done. cbn [app skip_ws]. rewrite is_ws_num by done.
  assert (Hne : ∀ x, num_head x = false → c ≠ x) by congruence.
  rewrite !bool_decide_false by (by apply Hne). cbn [app] in Hp. by rewrite Hp.
Qed.

Lemma parse_value_str fuel depth w s rest : all_ws w →
  parse_value (S fuel) depth (w ++ enc_str s ++ rest) = Ok (JStr (to_valid s), rest).
Proof.
  intros Hw. cbn [parse_value]. rewrite skip_ws_app by done.
  unfold enc_str. cbn [app]. rewrite <- app_assoc. cbn [app skip_ws].
  change (is_ws quote) with false. cbv iota. rewrite (bool_decide_true (quote = quote)) by done.
  by rewrite parse_enc_str.
Qed.

Lemma reads_lit st d depth j : j ∈ [JNull; JBool true; JBool false] → reads st d depth j.
Proof.
  rewrite !elem_of_cons, elem_of_nil. intros Hj fuel w rest Hw Hd Hf.
  destruct fuel as [|fuel].
  { exfalso. destruct Hj as [-> | [-> | [-> | []]]]; simpl in Hf; lia. }
  cbn [parse_value]. rewrite skip_ws_app by done.
  destruct Hj as [-> | [-> | [-> | []]]]; simpl;
    unfold parse_lit, HasPrefix; rewrite bool_decide_true by (by exists rest); done.
Qed.

Lemma print_nonempty st d j : nums_ok j → print st d j ≠ [].
Proof.
  destruct j as [|[]|lit|s|[]|[]]; try done. intros [(c & l & -> & _) _]. done.
Qed.

Section containers.
Context (st : style) `{!WsStyle st} (d depth : nat).
Abbreviation sep := (§"," ++ newline st d).

Lemma skip_ws_sep s : skip_ws (sep ++ s) = ","%char :: newline st d ++ s.
Proof. done. Qed.

Lemma parse_elems_print l : l ≠ [] → Forall (reads st d depth) l → Forall nums_ok l →
  ∀ fuel w w' rest, all_ws w → all_ws w' →
  2 * length (sep_concat sep (map (print st d) l)) + 1 ≤ fuel →
  parse_elems fuel depth (w ++ sep_concat sep (map (print st d) l) ++ w' ++ "]"%char :: rest)
  = Ok (map repair l, rest).
Proof.
  induction l as [|x l IH]; intros Hne Hr Hn fuel w w' rest Hw Hw' Hf; [done|].
  apply Forall_cons in Hr as [Hx Hr], Hn as [Hnx Hn].
  destruct fuel as [|fuel]; [lia|]. cbn [parse_elems].
  destruct l as [|y l].
  - cbn [map sep_concat] in *. rewrite Hx; [|done|by apply delim_ws_app|lia].
    by rewrite skip_ws_app.
  - pose proof (print_nonempty st d x Hnx) as Hpx.
    change (map (print st d) (x :: y :: l)) with (print st d x :: map (print st d) (y :: l)) in *.
    remember (map (print st d) (y :: l)) as ss eqn:Hss.
    assert (Hsc : sep_concat sep (print st d x :: ss) = print st d x ++ sep ++ sep_concat sep ss)
      by (by rewrite Hss).
    rewrite Hsc in *. rewrite !length_app in Hf.
    rewrite <- (app_assoc (print st d x)), <- (app_assoc sep).
    rewrite Hx; [|done|done|lia]. rewrite skip_ws_sep, after_eq.
    rewrite IH; [done|done|done|done|apply ws_newline|done|].
    destruct (print st d x); [done|]. cbn [length] in Hf. lia.
Qed.

Abbreviation member kv := (enc_str (fst kv) ++ §":" ++ colon_space st ++ print st d (snd kv)).

(** One member: its key, the colon and its value. *)
Lemma parse_member_print kv fuel w rest : reads st d depth (snd kv) →
  all_ws w → delim rest = true → 2 * length (print st d (snd kv)) ≤ fuel →
  ∃ s1 s2 s3, skip_ws (w ++ member kv ++ rest) = quote :: s1 ∧
    parse_str (S (length s1)) s1 = Ok (to_valid (fst kv), s2) ∧
    skip_ws s2 = ":"%char :: s3 ∧
    parse_value fuel depth s3 = Ok (repair (snd kv), rest).
Proof.
  intros Hv Hw Hd Hf. rewrite skip_ws_app by done. unfold enc_str.
  rewrite <- !app_assoc. cbn [app skip_ws]. change (is_ws quote) with false. cbv iota.
  do 3 eexists. split; [done|]. rewrite <- app_assoc. cbn [app].
  split; [apply parse_enc_str|]. split; [done|]. apply Hv; [apply ws_colon|done|done].
Qed.

Lemma parse_members_print l : l ≠ [] → Forall (λ kv, reads st d depth (snd kv)) l →
  ∀ fuel w w' rest, all_ws w → all_ws w' →
  2 * length (sep_concat sep (map (λ kv, member kv) l)) + 1 ≤ fuel →
  parse_members fuel depth
    (w ++ sep_concat sep (map (λ kv, member kv) l) ++ w' ++ "}"%char :: rest)
  = Ok (map (λ kv, (to_valid (fst kv), repair (snd kv))) l, rest).
Proof.
  induction l as [|x l IH]; intros Hne Hr fuel w w' rest Hw Hw' Hf; [done|].
  apply Forall_cons in Hr as [Hx Hr].
  destruct fuel as [|fuel]; [lia|]. cbn [parse_members].
  destruct l as [|y l].
  - cbn [map sep_concat] in *. rewrite !length_app in Hf.
    destruct (parse_member_print x fuel w (w' ++ "}"%char :: rest) Hx Hw)
      as (s1 & s2 & s3 & -> & E1 & E2 & E3); [by apply delim_ws_app|lia|].
    rewrite bool_decide_true, E1, E2, after_eq by done. rewrite E3. by rewrite skip_ws_app.
  - change (map (λ kv, member kv) (x :: y :: l)) with (member x :: map (λ kv, member kv) (y :: l)) in *.
    remember (map (λ kv, member kv) (y :: l)) as ss eqn:Hss.
    assert (Hsc : sep_concat sep (member x :: ss) = member x ++ sep ++ sep_concat sep ss)
      by (by rewrite Hss).
    rewrite Hsc in *. rewrite !length_app in Hf. rewrite <- (app_assoc (member x)), <- (app_assoc sep).
    destruct (parse_member_print x fuel w (sep ++ sep_concat sep ss ++ w' ++ "}"%char :: rest) Hx Hw)
      as (s1 & s2 & s3 & -> & E1 & E2 & E3); [done|lia|].
    rewrite bool_decide_true, E1, E2, after_eq by done. rewrite E3, skip_ws_sep, after_eq.
    rewrite IH; [done|done|done|apply ws_newline|done|].
    change (length §",") with 1 in Hf. lia.
Qed.
End containers.

Lemma print_head st d j : nums_ok j →
  ∃ c s, print st d j = c :: s ∧ is_ws c = false ∧ c ≠ "]"%char.
Proof.
  destruct j as [|[]|lit|s|[]|[]]; try (intros _; by do 2 eexists).
  intros [(c & l & -> & Hc) _]. exists c, l. split_and!; [done|by apply is_ws_num|].
  intros ->. done.
Qed.

Lemma nums_ok_Forall l : foldr (λ x, and (nums_ok x)) True l ↔ Forall nums_ok l.
Proof. induction l; simpl; [done|]. rewrite Forall_cons. tauto. Qed.
Lemma nums_ok_Forall_obj (l : list (gostring * json)) :
  foldr (λ kv, and (nums_ok (snd kv))) True l ↔ Forall (λ kv, nums_ok (snd kv)) l.
Proof. induction l; simpl; [done|]. rewrite Forall_cons. tauto. Qed.

Lemma nesting_Forall l n : max_list (map nesting l) ≤ n ↔ Forall (λ j, nesting j ≤ n) l.
Proof. induction l; simpl; [split; [done|lia]|]. rewrite Forall_cons, <- IHl. lia. Qed.
Lemma nesting_Forall_obj (l : list (gostring * json)) n :
  max_list (map (λ kv, nesting (snd kv)) l) ≤ n ↔ Forall (λ kv, nesting (snd kv) ≤ n) l.
Proof. induction l; simpl; [split; [done|lia]|]. rewrite Forall_cons, <- IHl. lia. Qed.

(** Reading an array or an object from its opening bracket. *)
Lemma reads_arr st `{!WsStyle st} d depth l :
  Forall (reads st (S d) (S depth)) l → Forall nums_ok l →
  (N.of_nat depth < maxNestingDepth)%N → reads st d depth (JArr l).
Proof.
  intros Hr Hn Hdep fuel w rest Hw Hd Hf. destruct l as [|x l].
  { destruct fuel; [simpl in Hf; lia|]. cbn [parse_value print]. rewrite skip_ws_app by done.
    simpl. destruct (N.leb_spec maxNestingDepth (N.of_nat depth)); [lia|done]. }
  cbn [print] in *. rewrite !length_app in Hf. change (length §"[") with 1 in Hf.
  destruct fuel as [|fuel]; [lia|]. cbn [parse_value]. rewrite skip_ws_app by done.
  rewrite <- !app_assoc. change (skip_ws (§"[" ++ ?s)) with ("["%char :: s). cbv beta iota.
  rewrite (bool_decide_false ("["%char = quote)), bool_decide_true by done.
  destruct (N.leb_spec maxNestingDepth (N.of_nat depth)); [lia|].
  change (§"]" ++ rest) with ("]"%char :: rest). rewrite skip_ws_app by apply ws_newline.
  destruct (print_head st (S d) x) as (c & s & Hc & Hws & Hne); [by inversion Hn|].
  assert (∃ s', skip_ws (sep_concat (§"," ++ newline st (S d)) (map (print st (S d)) (x :: l))
      ++ newline st d ++ "]"%char :: rest) = c :: s') as [s' ->].
  { cbn [map]. destruct l; cbn [map sep_concat]; rewrite Hc; cbn [app skip_ws]; rewrite Hws; by eexists. }
  cbn [after]. rewrite bool_decide_false by done.
  rewrite parse_elems_print; [done|done|done|done|done|apply ws_newline|apply ws_newline|lia].
Qed.

Lemma reads_obj st `{!WsStyle st} d depth l :
  Forall (λ kv, reads st (S d) (S depth) (snd kv)) l →
  (N.of_nat depth < maxNestingDepth)%N → reads st d depth (JObj l).
Proof.
  intros Hr Hdep fuel w rest Hw Hd Hf. destruct l as [|x l].
  { destruct fuel; [simpl in Hf; lia|]. cbn [parse_value print]. rewrite skip_ws_app by done.
    simpl. destruct (N.leb_spec maxNestingDepth (N.of_nat depth)); [lia|done]. }
  cbn [print] in *. rewrite !length_app in Hf. change (length §"{") with 1 in Hf.
  destruct fuel as [|fuel]; [lia|]. cbn [parse_value]. rewrite skip_ws_app by done.
  rewrite <- !app_assoc. change (skip_ws (§"{" ++ ?s)) with ("{"%char :: s). cbv beta iota.
  rewrite (bool_decide_false ("{"%char = quote)), (bool_decide_false ("{"%char = "["%char)),
    bool_decide_true by done.
  destruct (N.leb_spec maxNestingDepth (N.of_nat depth)); [lia|].
  change (§"}" ++ rest) with ("}"%char :: rest). rewrite skip_ws_app by apply ws_newline.
  assert (∃ s', skip_ws (sep_concat (§"," ++ newline st (S d))
      (map (λ kv, enc_str kv.1 ++ §":" ++ colon_space st ++ print st (S d) kv.2) (x :: l))
      ++ newline st d ++ "}"%char :: rest) = quote :: s') as [s' ->].
  { cbn [map]. destruct l; cbn [map sep_concat]; unfold enc_str; cbn [app skip_ws]; by eexists. }
  cbn [after]. rewrite bool_decide_false by done.
  rewrite parse_members_print; [done|done|done|done|apply ws_newline|apply ws_newline|lia].
Qed.

Lemma reads_print st `{!WsStyle st} j : nums_ok j →
  ∀ d depth, (N.of_nat (depth + nesting j) ≤ maxNestingDepth)%N → reads st d depth j.
Proof.
  induction j as [|b|lit|s|l IH|l IH] using json_nested_ind; intros Hn d depth Hdep.
  - apply reads_lit. set_solver.
  - apply reads_lit. destruct b; set_solver.
  - by apply reads_num.
  - intros fuel w rest Hw Hd Hf. destruct fuel; [simpl in Hf; lia|]. by apply parse_value_str.
  - simpl in Hn, Hdep. apply nums_ok_Forall in Hn. apply reads_arr; [done| |done|lia].
    assert (Hnest : Forall (λ j, nesting j ≤ max_list (map nesting l)) l) by by apply nesting_Forall.
    rewrite Forall_forall in IH, Hn, Hnest |- *. intros x Hx. apply IH; [done|auto|].
    specialize (Hnest x Hx). lia.
  - simpl in Hn, Hdep. apply nums_ok_Forall_obj in Hn. apply reads_obj; [done| |lia].
    assert (Hnest : Forall (λ kv, nesting (snd kv) ≤ max_list (map (λ kv, nesting (snd kv)) l)) l)
      by by apply nesting_Forall_obj.
    rewrite Forall_forall in IH, Hn, Hnest |- *. intros x Hx. apply IH; [done|auto|].
    specialize (Hnest x Hx). simpl in Hnest. lia.
Qed.

(** A printed document, in either style and with a final line feed or without,
    is read back as the repaired tree. *)
Lemma parse_print st `{!WsStyle st} j w : nums_ok j →
  (N.of_nat (nesting j) ≤ maxNestingDepth)%N → all_ws w →
  parse_document (print st 0 j ++ w) = Some (repair j).
Proof.
  intros Hn Hdep Hw. unfold parse_document, parse_json.
  rewrite <- (app_nil_r w). rewrite <- (app_nil_l (print st 0 j ++ w ++ [])).
  rewrite (reads_print st j Hn 0 0 Hdep); [|done| |rewrite !length_app; simpl; lia].
  - by rewrite skip_ws_app.
  - destruct w as [|c w]; [done|]. apply andb_true_iff in Hw as [Hc _].
    apply (delim_ws_app [c] " "%char []); [|done]. unfold all_ws. simpl. by rewrite Hc.
Qed.

(** ** The fuel is enough

    [bounded n r]: the reader did not run out of fuel and, if it succeeded, left
    fewer than [n] bytes. *)
Definition bounded {A} (n : nat) (r : JR A) : Prop :=
  match r with
  | Ok (_, rest) => length rest < n
  | OutOfFuel => False
  | _ => True
  end.

Lemma skip_ws_length s : length (skip_ws s) ≤ length s.
Proof. induction s as [|c s IH]; [done|]. simpl. case_match; simpl; lia. Qed.

Lemma after_length c s r : after c s = Some r → length r < length s.
Proof. unfold after. destruct s; [done|]. case_bool_decide; [|done]. intros [= ->]. simpl. lia. Qed.

Lemma after_skip_length c s r : after c (skip_ws s) = Some r → length r < length s.
Proof. intros H%after_length. pose proof (skip_ws_length s). lia. Qed.

Lemma emit_bounded out r n : bounded n r → bounded n (emit out r).
Proof. by destruct r as [[]| | |]. Qed.

Lemma bounded_le {A} n m (r : JR A) : bounded n r → n ≤ m → bounded m r.
Proof. destruct r as [[]| | |]; simpl; [lia|done..]. Qed.

Lemma hex4_length s r s' : hex4 s = Some (r, s') → length s' < length s.
Proof.
  unfold hex4. intros H. destruct s as [|a [|b [|c [|e s]]]]; try done.
  repeat (apply bind_Some in H as (? & _ & H)). simplify_eq. simpl. lia.
Qed.

Lemma unescape_u_length s r s' : unescape_u s = Some (r, s') → length s' < length s.
Proof.
  unfold unescape_u. intros H. apply bind_Some in H as ([r0 s1] & Hh%hex4_length & H).
  destruct (is_surrogate r0); [|by simplify_eq].
  repeat (case_match; simplify_eq; try done).
  match goal with H : hex4 _ = Some _ |- _ => apply hex4_length in H end. simpl in *. lia.
Qed.

Lemma parse_str_bounded fuel s : length s < fuel → bounded (length s) (parse_str fuel s).
Proof.
  revert s. induction fuel as [|fuel IH]; intros s Hf; [lia|]. cbn [parse_str].
  destruct s as [|c s]; [done|]. cbn [length] in *.
  case_bool_decide; [simpl; lia|]. case_bool_decide.
  { destruct s as [|e s]; [done|]. cbn [length] in *. case_bool_decide.
    - destruct (unescape_u s) as [[r s3]|] eqn:E; [|done]. apply unescape_u_length in E.
      apply emit_bounded. eapply bounded_le; [apply IH; lia|lia].
    - case_match; [|done]. apply emit_bounded. eapply bounded_le; [apply IH; lia|lia]. }
  case_match; [done|]. case_match.
  { apply emit_bounded. eapply bounded_le; [apply IH; lia|lia]. }
  destruct (DecodeRune (c :: s)) as [r size] eqn:E. apply emit_bounded.
  assert (size ≠ 0).
  { unfold DecodeRune in E. repeat case_match; simplify_eq; lia. }
  eapply bounded_le; [apply IH; rewrite length_drop; simpl; lia|rewrite length_drop; simpl; lia].
Qed.

Lemma take_digits_length s d r : take_digits s = (d, r) → length d + length r = length s.
Proof.
  revert d r. induction s as [|c s IH]; intros d r H; simpl in H; [by simplify_eq|].
  destruct (is_digit c); [|by simplify_eq].
  destruct (take_digits s) as [d' r'] eqn:E. simplify_eq/=. rewrite <- (IH _ _ eq_refl). lia.
Qed.

Lemma parse_num_length s lit r : parse_num s = Some (lit, r) → length r < length s.
Proof.
  unfold parse_num. intros H.
  destruct (match after "-" s with Some s1 => _ | None => _ end) as [sign s1] eqn:E0.
  assert (length s1 ≤ length s).
  { destruct (after "-" s) eqn:Ea; [apply after_length in Ea|]; simplify_eq; lia. }
  clear E0.
  apply bind_Some in H as ([i s2] & H1 & H). apply bind_Some in H as ([f s3] & H2 & H).
  apply bind_Some in H as ([e s4] & H3 & H). simplify_eq.
  assert (length s2 < length s1).
  { unfold parse_int in H1. destruct s1 as [|c s1]; [done|]. case_bool_decide; [simplify_eq/=; lia|].
    destruct (take_digits (c :: s1)) as [[|x l] r'] eqn:E; [done|].
    apply take_digits_length in E. simplify_eq/=. lia. }
  assert (length s3 ≤ length s2).
  { unfold parse_frac in H2. destruct (after "." s2) eqn:Ea; [|by simplify_eq].
    apply after_length in Ea. destruct (take_digits l) as [[|x d] r'] eqn:E; [done|].
    apply take_digits_length in E. simplify_eq/=. lia. }
  assert (length r ≤ length s3); [|lia].
  unfold parse_exp in H3. destruct s3 as [|c s3]; [by simplify_eq|].
  case_bool_decide; [|by simplify_eq].
  destruct (match s3 with [] => _ | x :: s2 => _ end) as [sg s5] eqn:E5.
  assert (length s5 ≤ length s3) by (repeat case_match; simplify_eq/=; lia).
  destruct (take_digits s5) as [[|x d] r'] eqn:E; [done|].
  apply take_digits_length in E. simplify_eq/=. lia.
Qed.

Lemma bounded_map {A B} (f : A → B) n (r : JR A) : bounded n r →
  bounded n (match r with Ok (a, rest) => Ok (f a, rest) | Err e => Err e
             | Panic => Panic | OutOfFuel => OutOfFuel end).
Proof. by destruct r as [[]| | |]. Qed.

Lemma parse_lit_bounded lit j s : lit ≠ [] → bounded (length s) (parse_lit lit j s).
Proof.
  intros Hne. unfold parse_lit. destruct (HasPrefix s lit) eqn:E; [|done].
  apply bool_decide_eq_true in E as [k ->]. simpl. rewrite drop_app_exact, length_app.
  destruct lit; [done|]. simpl. lia.
Qed.

(** The three mutually recursive readers, for the fuel each needs. *)
Definition readers_bounded (fuel : nat) : Prop :=
  (∀ depth s, 2 * length s + 1 ≤ fuel → bounded (length s) (parse_value fuel depth s)) ∧
  (∀ depth s, 2 * length s + 2 ≤ fuel → bounded (length s) (parse_elems fuel depth s)) ∧
  (∀ depth s, 2 * length s + 1 ≤ fuel → bounded (length s) (parse_members fuel depth s)).

Lemma parse_value_bounded fuel depth s : readers_bounded fuel →
  2 * length s + 1 ≤ S fuel → bounded (length s) (parse_value (S fuel) depth s).
Proof.
  intros (_ & IHe & IHm) Hf. cbn [parse_value]. pose proof (skip_ws_length s) as Hs.
  destruct (skip_ws s) as [|c s']; [done|]. cbn [length] in Hs.
  case_bool_decide.
  { apply (bounded_map JStr). eapply bounded_le; [apply parse_str_bounded; lia|lia]. }
  case_bool_decide.
  { case_match; [done|]. destruct (after "]" (skip_ws s')) eqn:E.
    - apply after_skip_length in E. simpl. lia.
    - apply (bounded_map JArr). eapply bounded_le; [apply IHe; lia|lia]. }
  case_bool_decide.
  { case_match; [done|]. destruct (after "}" (skip_ws s')) eqn:E.
    - apply after_skip_length in E. simpl. lia.
    - apply (bounded_map JObj). eapply bounded_le; [apply IHm; lia|lia]. }
  do 3 (case_bool_decide; [eapply bounded_le; [by apply parse_lit_bounded|simpl; lia]|]).
  destruct (parse_num (c :: s')) as [[lit r]|] eqn:E; [|done].
  apply parse_num_length in E. simpl in *. lia.
Qed.

Lemma parse_elems_bounded fuel depth s : readers_bounded fuel →
  2 * length s + 2 ≤ S fuel → bounded (length s) (parse_elems (S fuel) depth s).
Proof.
  intros (IHv & IHe & _) Hf. cbn [parse_elems]. specialize (IHv depth s ltac:(lia)).
  destruct (parse_value fuel depth s) as [[j r]|e| |]; try done. simpl in IHv.
  destruct (after "," (skip_ws r)) as [r'|] eqn:E; [|destruct (after "]" (skip_ws r)) as [r'|] eqn:E2].
  - apply after_skip_length in E. specialize (IHe depth r' ltac:(lia)).
    destruct (parse_elems fuel depth r') as [[l r'']|e| |]; try done. simpl in *. lia.
  - apply after_skip_length in E2. simpl. lia.
  - done.
Qed.

Lemma parse_members_bounded fuel depth s : readers_bounded fuel →
  2 * length s + 1 ≤ S fuel → bounded (length s) (parse_members (S fuel) depth s).
Proof.
  intros (IHv & _ & IHm) Hf. cbn [parse_members]. pose proof (skip_ws_length s) as Hs.
  destruct (skip_ws s) as [|q s1]; [done|]. cbn [length] in Hs. case_bool_decide; [|done].
  pose proof (parse_str_bounded (S (length s1)) s1 ltac:(lia)) as Hk.
  destruct (parse_str _ s1) as [[k s2]|e| |]; try done. simpl in Hk.
  destruct (after ":" (skip_ws s2)) as [s3|] eqn:E3; [|done]. apply after_skip_length in E3.
  specialize (IHv depth s3 ltac:(lia)).
  destruct (parse_value fuel depth s3) as [[j r]|e| |]; try done. simpl in IHv.
  destruct (after "," (skip_ws r)) as [r'|] eqn:E; [|destruct (after "}" (skip_ws r)) as [r'|] eqn:E2].
  - apply after_skip_length in E. specialize (IHm depth r' ltac:(lia)).
    destruct (parse_members fuel depth r') as [[l r'']|e| |]; try done. simpl in *. lia.
  - apply after_skip_length in E2. simpl. lia.
  - done.
Qed.

Lemma readers_are_bounded fuel : readers_bounded fuel.
Proof.
  induction fuel as [|fuel IH]; [split_and!; intros; lia|].
  split_and!; intros; [by apply parse_value_bounded|by apply parse_elems_bounded
                      |by apply parse_members_bounded].
Qed.

(** Every text is read to a value or to a syntax error. *)
Lemma parse_json_total s : bounded (length s) (parse_json s).
Proof. apply readers_are_bounded. lia. Qed.

(** ** Decoding into Go structs

    A member is stored into the field whose name it matches up to simple case
    folding.  U+017F and U+212A are the two runes outside ASCII that fold to
    ASCII letters. *)
Definition fold_seg (g : Seg) : gostring :=
  match g with
  | Stray _ => EncodeRune RuneError
  | Valid r bs =>
      match bs with
      | [c] => [upper_byte c]
      | _ => if (r =? 0x17F)%N then §"S" else if (r =? 0x212A)%N then §"K" else bs
      end
  end.
Definition fold_name (s : gostring) : gostring := concat (map fold_seg (segs s)).
Definition matches (name key : gostring) : bool := bool_decide (fold_name key = fold_name name).

(** Scalars.  [null] leaves a string or a number as it is; [None] is an
    [UnmarshalTypeError]. *)
Definition decode_string (cur : gostring) (j : json) : option gostring :=
  match j with JStr s => Some s | JNull => Some cur | _ => None end.
Definition decode_uint64 (cur : N) (j : json) : option N :=
  match j with JNum lit => ParseUint lit | JNull => Some cur | _ => None end.

(** A [[]string].  [cur] is the backing array of the field: an element that is
    [null] keeps what the array holds at its position. *)
Fixpoint decode_elems (back : list gostring) (l : list json) : option (list gostring) :=
  match l with
  | [] => Some []
  | j :: l' =>
      x ← decode_string (default [] (head back)) j;
      xs ← decode_elems (tail back) l';
      Some (x :: xs)
  end.

(** A [map[string]string]; [cur] is the map the field holds. *)
Fixpoint decode_entries (cur : gmap gostring gostring) (l : list (gostring * json))
  : option (gmap gostring gostring) :=
  match l with
  | [] => Some cur
  | (k, j) :: l' => v ← decode_string [] j; decode_entries (<[k := v]> cur) l'
  end.
Definition decode_map (cur : option (gmap gostring gostring)) (j : json)
  : option (option (gmap gostring gostring)) :=
  match j with
  | JNull => Some None
  | JObj l => m ← decode_entries (default ∅ cur) l; Some (Some m)
  | _ => None
  end.

(** Members in their order, later ones over earlier ones; [step] says what one
    member does to the struct. *)
Fixpoint decode_members {R} (step : R → gostring → json → option R) (cur : R)
  (l : list (gostring * json)) : option R :=
  match l with
  | [] => Some cur
  | (k, j) :: l' => cur' ← step cur k j; decode_members step cur' l'
  end.
Definition decode_struct {R} (step : R → gostring → json → option R) (zero : R) (j : json) : option R :=
  match j with
  | JNull => Some zero
  | JObj l => decode_members step zero l
  | _ => None
  end.

Lemma decode_elems_strings back l : decode_elems back (map JStr l) = Some l.
Proof. revert back. induction l as [|x l IH]; intros back; [done|]. simpl. by rewrite IH. Qed.

Lemma decode_entries_strings cur (l : list (gostring * gostring)) :
  NoDup (fst <$> l) → (∀ k, k ∈ fst <$> l → cur !! k = None) →
  decode_entries cur (map (λ kv, (fst kv, JStr (snd kv))) l) = Some (cur ∪ list_to_map l).
Proof.
  revert cur. induction l as [|[k v] l IH]; intros cur Hnd Hfresh; simpl.
  { by rewrite map_union_empty. }
  apply NoDup_cons in Hnd as [Hk Hnd]. rewrite IH; [|done|].
  - f_equal. rewrite <- insert_union_l, <- insert_union_r; [done|].
    apply Hfresh. simpl. left.
  - intros k' Hk'. rewrite lookup_insert_ne; [|by intros ->]. apply Hfresh. simpl. by right.
Qed.

(** ** Number literals

    The parts of a literal: sign, integer, fraction and exponent. *)
Definition digits_ok (d : gostring) : Prop := d ≠ [] ∧ forallb is_digit d = true.
Definition int_ok (i : gostring) : Prop :=
  i = §"0" ∨ ∃ c d, i = c :: d ∧ c ≠ "0"%char ∧ forallb is_digit i = true.
Definition frac_ok (f : gostring) : Prop := f = [] ∨ ∃ d, f = "."%char :: d ∧ digits_ok d.
Definition exp_ok (e : gostring) : Prop :=
  e = [] ∨ ∃ x d, e = "e"%char :: x :: d ∧ x ∈ ["+"; "-"]%char ∧ digits_ok d.

Definition starts_digit (s : gostring) : bool := match s with c :: _ => is_digit c | [] => false end.

Lemma take_digits_app d s : forallb is_digit d = true → starts_digit s = false → take_digits (d ++ s) = (d, s).
Proof.
  intros Hd Hs. induction d as [|c d IH]; simpl in *.
  - destruct s as [|c s]; [done|]. simpl in *. by rewrite Hs.
  - apply andb_true_iff in Hd as [-> Hd]. by rewrite IH.
Qed.

Lemma parse_int_app i s : int_ok i → (i = §"0" ∨ starts_digit s = false) → parse_int (i ++ s) = Some (i, s).
Proof.
  intros [->|(c & d & -> & Hc & Hd)] Hs; [done|]. assert (starts_digit s = false) by (by destruct Hs as [[=]|]).
  pose proof (take_digits_app (c :: d) s Hd) as Ht. simpl in *. rewrite bool_decide_false by done. by rewrite Ht.
Qed.

Lemma delim_head s : delim s = true → starts_digit s = false ∧ after "." s = None ∧
  parse_exp s = Some ([], s).
Proof.
  destruct s as [|c s]; [done|]. unfold delim, delim_char. intros [Hd Hc]%negb_true_iff%orb_false_iff.
  rewrite bool_decide_eq_false in Hc. split_and!; [done|..]; simpl; rewrite bool_decide_false; [done| |done|].
  - intros ->. by apply Hc; left.
  - intros Hin. by apply Hc; right.
Qed.

Lemma parse_exp_app e s : exp_ok e → delim s = true → parse_exp (e ++ s) = Some (e, s) ∧ starts_digit (e ++ s) = false ∧
  after "." (e ++ s) = None.
Proof.
  intros He Hs. destruct (delim_head s Hs) as (Hd & Ha & Hp). destruct He as [->|(x & d & -> & Hx & Hne & Hall)]; [done|].
  split; [|done]. cbn [app parse_exp]. rewrite bool_decide_true by by left. rewrite bool_decide_true by done.
  rewrite take_digits_app by done. by destruct d.
Qed.

Lemma parse_frac_app f s : frac_ok f → starts_digit s = false → after "." s = None → parse_frac (f ++ s) = Some (f, s) ∧
  starts_digit (f ++ s) = false.
Proof.
  intros [->|(d & -> & Hne & Hall)] Hs Ha; unfold parse_frac; simpl; [by rewrite Ha|].
  split; [|done]. rewrite take_digits_app by done. by destruct d.
Qed.

(** A literal made of its parts is read as a whole. *)
Lemma num_ok_parts (neg : bool) i f e : int_ok i → frac_ok f → exp_ok e →
  num_ok ((if neg then §"-" else []) ++ i ++ f ++ e).
Proof.
  intros Hi Hf He. assert (Hih : ∃ c d, i = c :: d ∧ is_digit c = true).
  { destruct Hi as [->|(c & d & -> & _ & Hd)]; [by do 2 eexists|]. simpl in Hd. apply andb_true_iff in Hd as [? _]. eauto. }
  split.
  - destruct neg; [by do 2 eexists|]. destruct Hih as (c & d & -> & Hc). exists c, (d ++ f ++ e). split; [done|].
    unfold num_head. by rewrite Hc.
  - intros rest Hr. destruct (parse_exp_app e rest He Hr) as (He1 & He2 & He3).
    destruct (parse_frac_app f (e ++ rest) Hf He2 He3) as (Hf1 & Hf2).
    pose proof (parse_int_app i (f ++ e ++ rest) Hi (or_intror Hf2)) as Hi1.
    assert (Ha : after "-" (((if neg then §"-" else []) ++ i ++ f ++ e) ++ rest) =
                 if neg then Some (i ++ f ++ e ++ rest) else None).
    { destruct neg; cbn; rewrite <- ?app_assoc; [done|]. destruct Hih as (c & d & -> & Hc). cbn.
      rewrite bool_decide_false; [done|]. by intros ->. }
    unfold parse_num. rewrite Ha. destruct neg; cbn [app]; rewrite <- ?app_assoc, Hi1; cbn [mbind option_bind];
      rewrite Hf1; cbn [mbind option_bind]; rewrite He1; done.
Qed.

Lemma num_ok_int (neg : bool) i : int_ok i → num_ok ((if neg then §"-" else []) ++ i).
Proof. intros Hi. rewrite <- (app_nil_r i). apply (num_ok_parts neg i [] []); [done|by left|by left]. Qed.

Lemma num_ok_1 : num_ok §"1".
Proof. apply (num_ok_int false). right. by do 2 eexists. Qed.

(** Decimal numerals have no superfluous zero. *)
Lemma udec_int_ok n : (0 ≤ n)%Z → int_ok (udec n).
Proof.
  intros Hn. destruct (decide (n = 0)%Z) as [->|Hn0]; [by left|right].
  assert (Hhead : ∀ fuel m, (0 < m < 2 ^ Z.of_nat fuel)%Z → ∃ c d, dec_digits fuel m = c :: d ∧ c ≠ "0"%char).
  { induction fuel as [|fuel IH]; intros m Hm; [simpl in Hm; lia|]. simpl. destruct (Z.ltb_spec m 10) as [Hlt|Hge].
    - exists (digit_char m), []. split; [done|]. intros Hc. destruct (digit_char_spec m) as [_ Hv]; [lia|].
      rewrite Hc in Hv. change (digit_val "0") with 0%Z in Hv. lia.
    - rewrite Nat2Z.inj_succ, Z.pow_succ_r in Hm by lia. pose proof (Z.div_mod m 10 ltac:(lia)).
      pose proof (Z.mod_pos_bound m 10 ltac:(lia)).
      destruct (IH (m / 10)%Z) as (c & d & -> & Hc); [lia|]. by exists c, (d ++ [digit_char (m mod 10)]). }
  destruct (udec_spec n Hn) as (_ & Hall & _). destruct (Hhead (S (Z.to_nat (Z.log2 n))) n) as (c & d & Hd & Hc).
  - pose proof (Z.log2_spec n ltac:(lia)). pose proof (Z.log2_nonneg n). rewrite Nat2Z.inj_succ, Z2Nat.id by lia. lia.
  - exists c, d. split_and!; [exact Hd|done|done].
Qed.

Lemma num_ok_Itoa z : num_ok (Itoa z).
Proof.
  unfold Itoa. destruct (Z.ltb_spec z 0); [apply (num_ok_int true)|apply (num_ok_int false)]; apply udec_int_ok; lia.
Qed.
