(* ===== verification/Fsm.v ===== *)
(** * The replicated state machine ([fsm] in src/core/raft.go)

    [Apply] decodes a log entry and executes it, [Snapshot]/[Persist] write the
    key space, [Restore] replaces it.  The entries and the snapshots are JSON
    text.  The state is the heap of maps of [MemDB] with the database's own
    reference, and the package variable [leaderAdminAddr]. *)

From S2P Require Import Prelude GoLib Resp MemDB CmdExecutor Utf8 Json.
Import Build MemDB.

Definition OpLeaderChanged : gostring := §"LEADER_CHANGED".
Definition fsmSnapshotFormat : gostring := §"skiffdb-fsm".
Definition fsmSnapshotVersion : N := 1.

(** ** Log entries: the JSON form of [Cmd] *)
Module CmdCodec.

(** The struct tags: "op", and "args" unless it is empty. *)
Definition json_of_Cmd (cmd : Cmd) : json :=
  JObj ((§"op", JStr (Op cmd)) ::
        match Args cmd with [] => [] | args => [(§"args", JArr (map JStr args))] end).

Definition Marshal (cmd : Cmd) : gostring := print compact 0 (json_of_Cmd cmd).

(** The struct while it is decoded; [back] is the backing array of [Args]. *)
Record Dec := mkDec { dop : gostring; back : list gostring; len : nat }.

Definition step (d : Dec) (k : gostring) (j : json) : option Dec :=
  if matches §"op" k then
    s ← decode_string (dop d) j; Some (mkDec s (back d) (len d))
  else if matches §"args" k then
    match j with
    | JNull => Some (mkDec (dop d) [] 0)
    | JArr [] => Some (mkDec (dop d) [] 0)
    | JArr l => xs ← decode_elems (back d) l;
                Some (mkDec (dop d) (xs ++ drop (length l) (back d)) (length l))
    | _ => None
    end
  else Some d.

(** [json.Unmarshal(data, &cmd)]; [None] is an error. *)
Definition Unmarshal (data : gostring) : option Cmd :=
  j ← parse_document data;
  d ← decode_struct step (mkDec [] [] 0) j;
  Some (mkCmd (dop d) (take (len d) (back d))).

End CmdCodec.

(** ** Snapshots *)
Module SnapCodec.

(** [fsmSnapshotPayload] *)
Record Payload := mkPayload { Format : gostring; Version : N; PKeyspace : option Keyspace }.

(** The writer sorts the keys of a map by their bytes. *)
Definition key_le (a b : gostring * gostring) : Prop := bytes_leb (fst a) (fst b) = true.
#[global] Instance key_le_dec : RelDecision key_le.
Proof. intros a b. unfold key_le. apply _. Defined.

Definition sorted_entries (ks : Keyspace) : list (gostring * gostring) :=
  merge_sort key_le (map_to_list ks).

Definition json_of_Payload (ks : Keyspace) : json :=
  JObj [ (§"format", JStr fsmSnapshotFormat); (§"version", JNum §"1");
         (§"keyspace", JObj (map (λ kv, (fst kv, JStr (snd kv))) (sorted_entries ks))) ].

(** [Encoder.Encode] ends the value with a line feed. *)
Definition Encode (ks : Keyspace) : gostring := print compact 0 (json_of_Payload ks) ++ ["010"%char].

Definition step (p : Payload) (k : gostring) (j : json) : option Payload :=
  if matches §"format" k then
    s ← decode_string (Format p) j; Some (mkPayload s (Version p) (PKeyspace p))
  else if matches §"version" k then
    n ← decode_uint64 (Version p) j; Some (mkPayload (Format p) n (PKeyspace p))
  else if matches §"keyspace" k then
    m ← decode_map (PKeyspace p) j; Some (mkPayload (Format p) (Version p) m)
  else Some p.

Definition Decode (j : json) : option Payload := decode_struct step (mkPayload [] 0 None) j.

End SnapCodec.

(** ** The state machine *)
Module Fsm.

Record State := mkState { db : Mem; leaderAdminAddr : gostring }.
Abbreviation FM := (GM State IncrError).

(** Run an operation of the database. *)
Definition on_db {A} (m : GM Mem IncrError A) : FM A := λ s,
  let '(o, d) := m (db s) in (o, mkState d (leaderAdminAddr s)).

(** What [Apply] returns through its [interface{}] result. *)
Inductive Response := RespError | RespString (s : gostring).

Definition Apply (save : option gostring) (data : gostring) : FM Response :=
  match CmdCodec.Unmarshal data with
  | None => mret RespError
  | Some cmd =>
      if decide (Op cmd = OpLeaderChanged) then
        match Args cmd with
        | [] => gopanic
        | addr :: _ => modifyS (λ s, mkState (db s) addr);; mret (RespString RespOk)
        end
      else r ← on_db (executeOnDB save cmd); mret (RespString r)
  end.

(** The copy loop of [Snapshot]. *)
Definition copy_loop (ks : Keyspace) : Keyspace := map_fold (λ k v cp, <[k := v]> cp) ∅ ks.

(** A [memSnapshot] is a reference to the copied map. *)
Definition Snapshot : GM Mem IncrError positive :=
  m ← getS; make_map (copy_loop (deref m)).

(** The calls [Persist] makes on the sink, in their order. *)
Inductive SinkCall := SinkWrite (data : gostring) | SinkCancel | SinkClose.

(** [write_err] and [close_err] are what the sink's [Write] and [Close]
    return. *)
Definition Persist (write_err close_err : option gostring) (state : Keyspace)
  : list SinkCall * option gostring :=
  match write_err with
  | Some e => ([SinkWrite (SnapCodec.Encode state); SinkCancel], Some e)
  | None => ([SinkWrite (SnapCodec.Encode state); SinkClose], close_err)
  end.

Inductive RestoreError :=
| DecodeError
| TrailingData
| UnsupportedFormat (f : gostring)
| UnsupportedVersion (v : N)
| KeyspaceMissing.

(** The checks of [Restore] on the text it reads. *)
Definition decode_snapshot (data : gostring) : RestoreError + Keyspace :=
  match parse_json data with
  | Ok (j, rest) =>
      match SnapCodec.Decode j with
      | None => inl DecodeError
      | Some p =>
          if bool_decide (skip_ws rest ≠ []) then inl TrailingData
          else if bool_decide (SnapCodec.Format p ≠ fsmSnapshotFormat)
          then inl (UnsupportedFormat (SnapCodec.Format p))
          else if bool_decide (SnapCodec.Version p ≠ fsmSnapshotVersion)
          then inl (UnsupportedVersion (SnapCodec.Version p))
          else match SnapCodec.PKeyspace p with
               | None => inl KeyspaceMissing
               | Some ks => inr ks
               end
      end
  | _ => inl DecodeError
  end.

Definition Restore (data : gostring) : GM Mem RestoreError unit := λ m,
  match decode_snapshot data with
  | inl e => (Err e, m)
  | inr ks =>
      let l := fresh (dom (heap m)) in
      (Ok tt, mkMem (<[l := ks]> (heap m)) (Some l))
  end.

End Fsm.

(** ** Reading back log entries *)

(** The command with its strings repaired to valid UTF-8. *)
Definition repair_cmd (cmd : Cmd) : Cmd := mkCmd (to_valid (Op cmd)) (map to_valid (Args cmd)).
Definition valid_cmd (cmd : Cmd) : Prop := valid_utf8 (Op cmd) ∧ Forall valid_utf8 (Args cmd).

Lemma nums_ok_strings l : nums_ok (JArr (map JStr l)).
Proof. apply nums_ok_Forall. by apply Forall_map, Forall_true. Qed.

Lemma nesting_strings l : nesting (JArr (map JStr l)) = 1.
Proof.
  simpl. f_equal. rewrite map_map. simpl. induction l as [|x l IH]; [done|]. simpl. by rewrite IH.
Qed.

Lemma step_op d s : CmdCodec.step d §"op" (JStr s) = Some (CmdCodec.mkDec s (CmdCodec.back d) (CmdCodec.len d)).
Proof. done. Qed.

Lemma step_args op a l :
  CmdCodec.step (CmdCodec.mkDec op [] 0) §"args" (JArr (map JStr (a :: l))) =
    Some (CmdCodec.mkDec op (a :: l) (S (length l))).
Proof.
  unfold CmdCodec.step. change (matches §"op" §"args") with false.
  change (matches §"args" §"args") with true. cbv iota. cbn [map].
  change (JStr a :: map JStr l) with (map JStr (a :: l)).
  cbn [CmdCodec.back CmdCodec.dop]. rewrite decode_elems_strings. cbn [mbind option_bind].
  by rewrite drop_nil, app_nil_r, length_map.
Qed.

(** What a replica decodes from a replicated command is the repaired command. *)
Lemma Unmarshal_Marshal cmd : CmdCodec.Unmarshal (CmdCodec.Marshal cmd) = Some (repair_cmd cmd).
Proof.
  unfold CmdCodec.Unmarshal, CmdCodec.Marshal. rewrite <- (app_nil_r (print compact 0 _)).
  destruct cmd as [op [|a args]]; (rewrite parse_print; [|try done..]).
  - done.
  - unfold CmdCodec.json_of_Cmd, repair_cmd. cbn [Op Args repair map fst snd mbind option_bind].
    rewrite map_map. cbn [repair]. rewrite <- (map_map to_valid JStr).
    change (to_valid §"op") with §"op". change (to_valid §"args") with §"args".
    change (JStr (to_valid a) :: map JStr (map to_valid args)) with (map JStr (map to_valid (a :: args))).
    cbn [decode_struct decode_members]. rewrite step_op. cbn [mbind option_bind].
    cbn [CmdCodec.back CmdCodec.len map]. change (JStr ?x :: map JStr ?y) with (map JStr (x :: y)).
    rewrite step_args. cbn [mbind option_bind CmdCodec.dop CmdCodec.back CmdCodec.len].
    cbn [take]. by rewrite firstn_all.
  - split; [done|]. split; [|done]. apply (nums_ok_strings (a :: args)).
  - change (N.of_nat (S (Nat.max 0 (Nat.max (nesting (JArr (map JStr (a :: args)))) 0))) <= maxNestingDepth)%N.
    rewrite nesting_strings. unfold maxNestingDepth. lia.
Qed.

Lemma valid_repair cmd : valid_cmd (repair_cmd cmd).
Proof.
  split; [apply valid_to_valid|]. apply Forall_map, Forall_true. intros. apply valid_to_valid.
Qed.

Lemma repair_valid cmd : valid_cmd cmd → repair_cmd cmd = cmd.
Proof.
  intros [Hop Hargs]. destruct cmd as [op args]. unfold repair_cmd. simpl in *.
  rewrite Hop. f_equal. induction Hargs as [|x l Hx Hl IH]; [done|]. simpl. by rewrite Hx, IH.
Qed.

(** ** Snapshots are read back *)
Definition valid_ks (ks : Keyspace) : Prop := map_Forall (λ k v, valid_utf8 k ∧ valid_utf8 v) ks.


Lemma sorted_entries_spec ks :
  NoDup (fst <$> SnapCodec.sorted_entries ks) ∧ list_to_map (SnapCodec.sorted_entries ks) = ks.
Proof.
  assert (Hp : SnapCodec.sorted_entries ks ≡ₚ map_to_list ks) by apply merge_sort_Permutation.
  assert (Hnd : NoDup (fst <$> SnapCodec.sorted_entries ks)).
  { rewrite Hp. apply NoDup_fst_map_to_list. }
  split; [done|]. rewrite <- (list_to_map_to_list ks) at 2. by apply list_to_map_proper.
Qed.

Lemma sorted_entries_valid ks : valid_ks ks →
  Forall (λ kv, valid_utf8 (fst kv) ∧ valid_utf8 (snd kv)) (SnapCodec.sorted_entries ks).
Proof.
  intros Hv. unfold SnapCodec.sorted_entries. rewrite merge_sort_Permutation.
  apply map_Forall_to_list in Hv. eapply Forall_impl; [exact Hv|]. by intros [].
Qed.

Lemma repair_entries l : Forall (λ kv : gostring * gostring, valid_utf8 (fst kv) ∧ valid_utf8 (snd kv)) l →
  map (λ kv, (to_valid (fst kv), repair (snd kv))) (map (λ kv, (fst kv, JStr (snd kv))) l) =
  map (λ kv, (fst kv, JStr (snd kv))) l.
Proof.
  induction 1 as [|[k v] l [Hk Hv] _ IH]; [done|]. simpl in *. by rewrite Hk, Hv, IH.
Qed.

Lemma nesting_strings_obj (l : list (gostring * gostring)) :
  nesting (JObj (map (λ kv, (fst kv, JStr (snd kv))) l)) = 1.
Proof.
  simpl. f_equal. rewrite map_map. simpl. induction l as [|x l IH]; [done|]. simpl. by rewrite IH.
Qed.

Lemma payload_ok ks :
  nums_ok (SnapCodec.json_of_Payload ks) ∧ nesting (SnapCodec.json_of_Payload ks) ≤ 2.
Proof.
  unfold SnapCodec.json_of_Payload. generalize (SnapCodec.sorted_entries ks). intros l. split.
  - split; [done|]. split; [apply num_ok_1|]. split; [|done].
    apply nums_ok_Forall_obj, Forall_map, Forall_true. done.
  - change (S (Nat.max 0 (Nat.max 0 (Nat.max (nesting (JObj (map (λ kv, (fst kv, JStr (snd kv))) l))) 0))) ≤ 2).
    rewrite nesting_strings_obj. lia.
Qed.

Lemma step_format f v m s :
  SnapCodec.step (SnapCodec.mkPayload f v m) §"format" (JStr s) = Some (SnapCodec.mkPayload s v m).
Proof. done. Qed.

Lemma step_version f v m :
  SnapCodec.step (SnapCodec.mkPayload f v m) §"version" (JNum §"1") = Some (SnapCodec.mkPayload f 1 m).
Proof. done. Qed.

Lemma step_keyspace f v l : NoDup (fst <$> l) →
  SnapCodec.step (SnapCodec.mkPayload f v None) §"keyspace" (JObj (map (λ kv, (fst kv, JStr (snd kv))) l)) =
    Some (SnapCodec.mkPayload f v (Some (list_to_map l))).
Proof.
  intros Hnd. change (SnapCodec.step _ _ ?j) with
    (m ← decode_map None j; Some (SnapCodec.mkPayload f v m)).
  unfold decode_map. rewrite decode_entries_strings by (try done; intros; apply lookup_empty).
  cbn [mbind option_bind default]. by rewrite map_empty_union.
Qed.

Lemma decode_snapshot_Encode ks : valid_ks ks → Fsm.decode_snapshot (SnapCodec.Encode ks) = inr ks.
Proof.
  intros Hv. unfold Fsm.decode_snapshot, SnapCodec.Encode, parse_json.
  destruct (payload_ok ks) as [Hn Hd].
  rewrite <- (app_nil_l (print compact 0 _ ++ _)).
  rewrite (reads_print compact _ Hn 0 0); [|unfold maxNestingDepth; lia|done|done|rewrite !length_app; simpl; lia].
  unfold SnapCodec.json_of_Payload. cbn [repair map fst snd].
  rewrite repair_entries by by apply sorted_entries_valid.
  change (to_valid §"format") with §"format". change (to_valid §"version") with §"version".
  change (to_valid §"keyspace") with §"keyspace". change (to_valid fsmSnapshotFormat) with fsmSnapshotFormat.
  destruct (sorted_entries_spec ks) as [Hnd Hl].
  assert (SnapCodec.Decode (JObj [(§"format", JStr fsmSnapshotFormat); (§"version", JNum §"1");
    (§"keyspace", JObj (map (λ kv, (fst kv, JStr (snd kv))) (SnapCodec.sorted_entries ks)))]) =
    Some (SnapCodec.mkPayload fsmSnapshotFormat 1 (Some ks))) as ->; [|done].
  unfold SnapCodec.Decode. cbn [decode_struct decode_members].
  rewrite step_format. cbn [mbind option_bind]. rewrite step_version. cbn [mbind option_bind].
  rewrite step_keyspace by done. cbn [mbind option_bind]. by rewrite Hl.
Qed.

Lemma copy_loop_eq ks : Fsm.copy_loop ks = ks.
Proof.
  unfold Fsm.copy_loop. apply (map_fold_weak_ind (λ r m, r = m)); [done|].
  by intros k v m r _ ->.
Qed.

Lemma restore_Encode ks m : valid_ks ks →
  ∃ m', Fsm.Restore (SnapCodec.Encode ks) m = (Ok tt, m') ∧ mem_wf m' ∧ deref m' = ks.
Proof.
  intros Hv. unfold Fsm.Restore. rewrite decode_snapshot_Encode by done.
  eexists. split; [done|]. split.
  - eexists. split; [done|]. simpl. rewrite lookup_insert_eq. by eexists.
  - rewrite deref_mk, lookup_insert_eq. done.
Qed.

(** ** Commands on the state machine *)
Lemma execute_frame save cmd m : frame m (snd (executeOnDB save cmd m)).
Proof.
  apply (execute_preorder frame); intros; [apply (proj1 (ops_frame _)) | | | |];
    apply (proj2 (ops_frame _)).
Qed.

Lemma execute_all_frame save cmds m : frame m (snd (execute_all save cmds m)).
Proof.
  revert m. induction cmds as [|cmd cmds IH]; intros m; [done|]. cbn [execute_all].
  pose proof (execute_frame save cmd m) as Hf. unfold mbind at 1, GM_bind.
  destruct (executeOnDB save cmd m) as [[r| | |] m1]; try done. simpl in Hf.
  change (frame m (snd ((rs ← execute_all save cmds; mret (r :: rs)) m1))).
  rewrite bind_ret_snd. by transitivity m1.
Qed.

(** A snapshot is a map nobody else holds. *)
Lemma snapshot_fresh m l m1 : mem_wf m → Fsm.Snapshot m = (Ok l, m1) →
  heap m1 !! l = Some (deref m) ∧ keyspace m1 = keyspace m ∧ keyspace m1 ≠ Some l ∧ deref m1 = deref m.
Proof.
  intros (l0 & Hk & Hl0) E. unfold Fsm.Snapshot in E. rewrite gm_bind_getS, copy_loop_eq in E.
  apply make_map_spec in E as (Hl & Hh & Hk1).
  assert (l ≠ l0) by (intros ->; by destruct Hl0; congruence).
  rewrite Hh, lookup_insert_eq. split_and!; [done|done|congruence|].
  unfold deref. rewrite Hk1, Hk, Hh. by rewrite lookup_insert_ne.
Qed.

Lemma denote_valid save cmd ks : valid_cmd cmd → valid_ks ks →
  valid_ks (snd (denote save (request_of cmd) ks)).
Proof.
  intros [_ Hargs] Hks. destruct cmd as [op args]. simpl in Hargs. unfold request_of, request_table. simpl.
  assert (Hins : ∀ k v, valid_utf8 k → valid_utf8 v → valid_ks (<[k := v]> ks)).
  { intros. by apply map_Forall_insert_2. }
  assert (Hincr : ∀ k d, valid_utf8 k → valid_ks (snd (denote save (RIncr k d) ks))).
  { intros k d Hk. unfold denote, incr_value. repeat case_match; simplify_eq/=; auto using valid_Itoa. }
  assert (Hdel : ∀ k, valid_ks (delete k ks)) by (intros; by apply map_Forall_delete).
  repeat (case_decide; simpl;
    [repeat case_match; decompose_Forall_hyps; first [done | by apply Hincr | by auto]|]).
  done.
Qed.

(** Applying a log entry that holds a command executes the repaired command. *)
Lemma apply_Marshal save cmd s : mem_wf (Fsm.db s) → cmd_fits cmd → to_valid (Op cmd) ≠ OpLeaderChanged →
  let out := denote save (request_of (repair_cmd cmd)) (deref (Fsm.db s)) in
  ∃ s', Fsm.Apply save (CmdCodec.Marshal cmd) s = (Ok (Fsm.RespString (fst out)), s') ∧
        mem_wf (Fsm.db s') ∧ deref (Fsm.db s') = snd out ∧
        Fsm.leaderAdminAddr s' = Fsm.leaderAdminAddr s.
Proof.
  intros Hwf Hfit Hop. cbv zeta. unfold Fsm.Apply. rewrite Unmarshal_Marshal.
  rewrite decide_False by done.
  destruct (mem_execute save (repair_cmd cmd) (Fsm.db s) Hwf) as (m' & E & Hwf' & Hv).
  { unfold cmd_fits, repair_cmd. simpl. by rewrite length_map. }
  exists (Fsm.mkState m' (Fsm.leaderAdminAddr s)). split; [|done].
  unfold Fsm.on_db, mbind, GM_bind. by rewrite E.
Qed.

(** Reads leave the database as it is. *)
Lemma mem_read_unchanged save cmd (m : Mem) : IsWriteOp cmd = false →
  executeOnDB save cmd m = (fst (executeOnDB save cmd m), m).
Proof.
  intros Hr. destruct cmd as [op args]. unfold executeOnDB. cbn [Op Args] in *.
  repeat (case_decide; [subst op; try done; by repeat case_match|]). done.
Qed.

Lemma write_op_ascii cmd : IsWriteOp cmd = true → to_valid (Op cmd) = Op cmd ∧ Op cmd ≠ OpLeaderChanged.
Proof.
  intros Hw%bool_decide_eq_true. unfold write_ops in Hw. simpl in Hw.
  rewrite !elem_of_cons, elem_of_nil in Hw. by destruct_or!; rewrite Hw.
Qed.

(** A client cannot log a leader change. *)
Lemma write_op_not_admin cmd : IsWriteOp cmd = true → to_valid (Op cmd) ≠ OpLeaderChanged.
Proof. intros Hw. by destruct (write_op_ascii cmd Hw) as [-> ?]. Qed.

Lemma write_op_repair cmd : IsWriteOp cmd = true → IsWriteOp (repair_cmd cmd) = true.
Proof. intros Hw. unfold IsWriteOp, repair_cmd. cbn [Op]. by rewrite (proj1 (write_op_ascii cmd Hw)). Qed.

(** ** Theorems *)
Section theorems.
Implicit Types (m : Mem) (cmd : Cmd) (ks : Keyspace) (save : option gostring).

(** Applying a replicated command.  A log entry written for a command of
    valid UTF-8 strings is decoded to that very command; the state machine
    replies as the command's specification says, moves the key space where the
    specification says, keeps every key and value valid UTF-8 and leaves the
    recorded leader address alone. *)
Lemma apply_executes save cmd s : mem_wf (Fsm.db s) → cmd_fits cmd → valid_cmd cmd →
  Op cmd ≠ OpLeaderChanged → valid_ks (deref (Fsm.db s)) →
  ∃ s', Fsm.Apply save (CmdCodec.Marshal cmd) s =
          (Ok (Fsm.RespString (fst (denote save (request_of cmd) (deref (Fsm.db s))))), s') ∧
        mem_wf (Fsm.db s') ∧
        deref (Fsm.db s') = snd (denote save (request_of cmd) (deref (Fsm.db s))) ∧
        valid_ks (deref (Fsm.db s')) ∧
        Fsm.leaderAdminAddr s' = Fsm.leaderAdminAddr s.
Proof.
  intros Hwf Hfit Hv Hop Hks. pose proof (repair_valid cmd Hv) as Hr.
  destruct (apply_Marshal save cmd s Hwf Hfit) as (s' & E & ? & Hd & ?).
  { change (Op (repair_cmd cmd) ≠ OpLeaderChanged). by rewrite Hr. }
  rewrite Hr in E, Hd. exists s'. split_and!; try done. rewrite Hd. by apply denote_valid.
Qed.

(** Replication does not carry bytes that are not UTF-8.  Setting a key to
    the one byte 0xFF stores the three bytes of U+FFFD when the command goes
    through the log, and the byte itself when it is executed locally. *)
Lemma binary_value_replaced save k : valid_utf8 k →
  let cmd := mkCmd §"SET" [k; ["255"%char]] in
  (∃ s', Fsm.Apply save (CmdCodec.Marshal cmd) (Fsm.mkState initial []) =
           (Ok (Fsm.RespString RespOk), s') ∧
         deref (Fsm.db s') !! k = Some ["239"%char; "191"%char; "189"%char]) ∧
  (∃ m', ExecuteLocally save cmd initial = (Ok RespOk, m') ∧ deref m' !! k = Some ["255"%char]).
Proof.
  intros Hk cmd. split.
  - destruct (apply_Marshal save cmd (Fsm.mkState initial []) initial_wf) as (s' & E & _ & Hd & _);
      [done|done|].
    assert (Hr : request_of (repair_cmd cmd) = RSet k ["239"%char; "191"%char; "189"%char]).
    { unfold repair_cmd, cmd. cbn [Op Args map]. rewrite Hk. done. }
    rewrite Hr in E, Hd. exists s'. split; [done|]. rewrite Hd. apply lookup_insert_eq.
  - destruct (mem_execute save cmd initial initial_wf) as (m' & E & _ & Hd); [done|].
    change (request_of cmd) with (RSet k ["255"%char]) in E, Hd.
    exists m'. split; [exact E|]. rewrite Hd. apply lookup_insert_eq.
Qed.

(** Snapshots are isolated.  The map a snapshot holds is the key space at
    the moment of the snapshot, and no command executed afterwards, while the
    snapshot is being persisted, changes it. *)
Lemma snapshot_isolated save cmds m l m1 : mem_wf m → Fsm.Snapshot m = (Ok l, m1) →
  heap (snd (execute_all save cmds m1)) !! l = Some (deref m) ∧ deref m1 = deref m.
Proof.
  intros Hwf E. destruct (snapshot_fresh m l m1 Hwf E) as (Hl & _ & Hne & Hd).
  split; [|done]. by rewrite (proj2 (execute_all_frame save cmds m1)).
Qed.

(** C5.  A snapshot restores the state it was taken of.  For a key space of
    valid UTF-8, what [Persist] hands to a sink that accepts it restores, on any
    database, exactly that key space. *)
Theorem snapshot_roundtrip ks m : valid_ks ks →
  ∃ data, Fsm.Persist None None ks = ([Fsm.SinkWrite data; Fsm.SinkClose], None) ∧
  ∃ m', Fsm.Restore data m = (Ok tt, m') ∧ mem_wf m' ∧ deref m' = ks.
Proof.
  intros Hv. eexists. split; [done|]. by apply restore_Encode.
Qed.

(** A failed restore changes nothing.  When [Restore] rejects its input,
    for whatever reason, the database and the whole heap are as before. *)
Lemma restore_error_atomic data m e m' : Fsm.Restore data m = (Err e, m') → m' = m.
Proof. unfold Fsm.Restore. destruct (Fsm.decode_snapshot data); by intros [= _ <-]. Qed.
End theorems.

(** ** Witnesses *)
Lemma binary_value_replaced_witness :
  let cmd := mkCmd §"SET" [§"k"; ["255"%char]] in
  (∃ s', Fsm.Apply None (CmdCodec.Marshal cmd) (Fsm.mkState initial []) =
           (Ok (Fsm.RespString RespOk), s') ∧
         deref (Fsm.db s') !! §"k" = Some ["239"%char; "191"%char; "189"%char]) ∧
  (∃ m', ExecuteLocally None cmd initial = (Ok RespOk, m') ∧ deref m' !! §"k" = Some ["255"%char]).
Proof. apply (binary_value_replaced None §"k"). reflexivity. Defined.

Lemma snapshot_roundtrip_witness :
  ∃ data, Fsm.Persist None None {[ §"k" := §"v" ]} = ([Fsm.SinkWrite data; Fsm.SinkClose], None) ∧
  ∃ m', Fsm.Restore data initial = (Ok tt, m') ∧ mem_wf m' ∧ deref m' = {[ §"k" := §"v" ]}.
Proof.
  apply (snapshot_roundtrip {[ §"k" := §"v" ]} initial).
  apply map_Forall_singleton. split; reflexivity.
Defined.

