(* ===== verification/RespServer.v ===== *)
(** * The client-facing server (src/server/resp_server.go)

    One connection: the loop that parses a command, executes it and writes the
    reply, and the routing of a command to the local database or through the
    replicated log ([ApplyCmdViaRaft], [SaveSnapshot] and the role checks of
    src/core/raft.go).  The Raft implementation is a library outside the
    repository; its operations are the class [RaftLib] and what the server
    relies on is [RaftLaws]. *)

From S2P Require Import Prelude GoLib Resp MemDB CmdExecutor Utf8 Json Fsm.
Import Build MemDB.

(** ** The Raft library, as far as the server calls it *)

(** What [f.Response()] holds: nil, an error, a string, or a value of some
    other type. *)
Inductive Iface := INil | IError | IString (s : gostring) | IOther.

Definition iface_of (r : Fsm.Response) : Iface :=
  match r with Fsm.RespError => IError | Fsm.RespString s => IString s end.

(** [raft_is_leader]: [raft.State() == raft.Leader].  [raft_apply]:
    [raft.Apply(payload, timeout)] up to the completion of its future, [None]
    when [f.Error()] is not nil; entries are applied to the state machine in
    the meantime.  [raft_snapshot]: [raft.Snapshot().Error()]. *)
Class RaftLib (R : Type) := {
  raft_is_leader : R → bool;
  raft_apply : gostring → R → Fsm.State → option Iface * (R * Fsm.State);
  raft_snapshot : R → Fsm.State → option gostring * (R * Fsm.State);
}.

(** [applied entries s s']: the state machine goes from [s] to [s'] by applying
    the log entries [entries] one after the other. *)
Inductive applied : list gostring → Fsm.State → Fsm.State → Prop :=
| applied_nil s : applied [] s s
| applied_cons save data datas s r s1 s2 :
    Fsm.Apply save data s = (Ok r, s1) → applied datas s1 s2 → applied (data :: datas) s s2.

(** [extends m m']: new maps were allocated, none was changed. *)
Definition extends (m m' : Mem) : Prop :=
  keyspace m' = keyspace m ∧ ∀ l, is_Some (heap m !! l) → heap m' !! l = heap m !! l.

(** The documented behaviour: a future without an error means that the entry
    was committed and applied, after the entries that precede it in the log,
    and [Response] is what the state machine returned for it; with an error
    (not the leader, leadership lost, timeout) entries may have been applied as
    well; a user snapshot reads the state machine and does not change it. *)
Class RaftLaws (R : Type) `{RaftLib R} := {
  raft_apply_law payload r s i r' s' :
    raft_apply payload r s = (Some i, (r', s')) →
    ∃ before save s1 resp, applied before s s1 ∧
      Fsm.Apply save payload s1 = (Ok resp, s') ∧ i = iface_of resp;
  raft_apply_err_law payload r s r' s' :
    raft_apply payload r s = (None, (r', s')) → ∃ entries, applied entries s s';
  raft_snapshot_law r s err r' s' :
    raft_snapshot r s = (err, (r', s')) →
    extends (Fsm.db s) (Fsm.db s') ∧ Fsm.leaderAdminAddr s' = Fsm.leaderAdminAddr s;
}.

(** What [applyCmdViaRaftNode] answers for the outcome of a proposal. *)
Definition raft_reply (res : option Iface) : gostring :=
  match res with
  | None => ErrInternal
  | Some INil => RespOk
  | Some IError => ErrInternal
  | Some (IString msg) => msg
  | Some IOther => ErrInternal
  end.

(** ** The node a connection talks to *)
Section server.
Context {R : Type} `{RaftLib R} `{UnicodeTables}.

(** The state machine with the package's database, and the Raft instance once
    it is started. *)
Record Node := mkNode { fsm : Fsm.State; raft : option R }.
Abbreviation NM := (GM Node IncrError).

Definition RaftEnabled (n : Node) : bool := bool_decide (is_Some (raft n)).

Definition IsLeader (n : Node) : bool :=
  match raft n with Some r => raft_is_leader r | None => false end.

Definition SaveSnapshot : NM (option gostring) := λ n,
  match raft n with
  | None => (Ok None, n)
  | Some r =>
      let '(err, (r', s')) := raft_snapshot r (fsm n) in
      (Ok (option_map (app §"raft snapshot: ") err), mkNode s' (Some r'))
  end.

(** Run an operation of the database. *)
Definition on_fsm {A} (m : GM Fsm.State IncrError A) : NM A := λ n,
  let '(o, s) := m (fsm n) in (o, mkNode s (raft n)).

(** [SAVE] is the one command whose execution calls [SaveSnapshot]. *)
Definition calls_save (cmd : Cmd) : bool :=
  bool_decide (Op cmd = §"SAVE") && bool_decide (Args cmd = []).

Definition execute_local (cmd : Cmd) : NM gostring :=
  save ← (if calls_save cmd then SaveSnapshot else mret None);
  on_fsm (Fsm.on_db (ExecuteLocally save cmd)).

(** [applyCmdViaRaftNode]; marshalling a [Cmd] does not fail. *)
Definition applyCmdViaRaftNode (r : R) (cmd : Cmd) : NM gostring := λ n,
  let '(res, (r', s')) := raft_apply (CmdCodec.Marshal cmd) r (fsm n) in
  (Ok (raft_reply res), mkNode s' (Some r')).

Definition ApplyCmdViaRaft (cmd : Cmd) : NM gostring :=
  n ← getS;
  match raft n with
  | None => execute_local cmd
  | Some r => applyCmdViaRaftNode r cmd
  end.

Definition executeRESPCmd (cmd : option Cmd) : NM gostring :=
  match cmd with
  | None => mret ErrNoCommandSpecified
  | Some cmd =>
      n ← getS;
      if IsWriteOp cmd && RaftEnabled n then
        if negb (IsLeader n) then mret ErrWriteNotAllowed
        else ApplyCmdViaRaft cmd
      else execute_local cmd
  end.

(** *** A connection

    [input] is what the client still sends before it closes its side; [output]
    are the writes to the connection, latest last ([writeResponse] carries on
    after a failed write). *)
Record Conn := mkConn {
  parser : Parser.PStore;
  output : list gostring;
  node : Node;
}.
Abbreviation CM := (GM Conn IncrError).

Definition isBrokenPipe (err : gostring) : bool :=
  Contains err §"broken pipe" || Contains err §"connection reset".

(** Whether [writeResponse] logs the outcome of its write: a client that has gone
    away is not worth a line. *)
Definition logs_write (err : option gostring) : bool :=
  match err with Some err => negb (isBrokenPipe err) | None => false end.

Definition writeResponse (result : gostring) : CM unit :=
  modifyS (λ c, mkConn (parser c) (output c ++ [result]) (node c)).

(** [err := resp.ParseRESPCommand(reader, parserContext)] *)
Definition parse_next : CM (option Parser.ParseError) := λ c,
  let '(o, p) := Parser.ParseRESPCommand (parser c) in
  (match o with
   | Ok _ => Ok None
   | Err e => Ok (Some e)
   | Panic => Panic
   | OutOfFuel => OutOfFuel
   end, mkConn p (output c) (node c)).

Definition on_node {A} (m : NM A) : CM A := λ c,
  let '(o, n) := m (node c) in (o, mkConn (parser c) (output c) n).

Definition reset_parser : CM unit :=
  modifyS (λ c, mkConn (Parser.set_ctx (Parser.Reset (Parser.ctx (parser c))) (parser c))
                       (output c) (node c)).

Fixpoint connection_loop (fuel : nat) : CM unit :=
  match fuel with
  | O => nofuel
  | S fuel =>
      err ← parse_next;
      c ← getS;
      let cmdArgs := default [] (Parser.CmdArgs (Parser.ctx (parser c))) in
      reset_parser;;
      match err with
      | Some Parser.EOF => mret tt
      | Some _ => writeResponse ErrInvalidCommand;; connection_loop fuel
      | None =>
          match BuildCmd cmdArgs with
          | None => writeResponse ErrInvalidCommand;; connection_loop fuel
          | Some cmd =>
              ret ← on_node (executeRESPCmd (Some cmd));
              writeResponse ret;;
              connection_loop fuel
          end
      end
  end.

(** The loop makes at most one round per byte and one more. *)
Definition handleConnection (input : gostring) (n : Node) : outcome IncrError unit * Conn :=
  connection_loop (S (length input)) (mkConn (Parser.mkP Parser.InitParserContext input) [] n).

(** What the requests of a client amount to, one after the other. *)
Definition serve_one (args : list gostring) : NM gostring :=
  match BuildCmd args with
  | None => mret ErrInvalidCommand
  | Some cmd => executeRESPCmd (Some cmd)
  end.

Fixpoint serve (reqs : list (list gostring)) : NM (list gostring) :=
  match reqs with
  | [] => mret []
  | args :: reqs => r ← serve_one args; rs ← serve reqs; mret (r :: rs)
  end.
End server.
Arguments Node : clear implicits.
Arguments Conn : clear implicits.

(** A write to a connection that its client has closed is not logged, however the
    error is worded around the cause. *)
Lemma closed_connection_silent before after :
  logs_write (Some (before ++ §"broken pipe" ++ after)) = false ∧
  logs_write (Some (before ++ §"connection reset" ++ after)) = false.
Proof. unfold logs_write, isBrokenPipe. rewrite !Contains_middle. by rewrite orb_true_r. Qed.

(** ** The node stays well formed and every command gets a reply *)
Definition node_wf {R} (n : Node R) : Prop := mem_wf (Fsm.db (fsm n)).
Definition node_view {R} (n : Node R) : Keyspace := deref (Fsm.db (fsm n)).

Lemma extends_wf m m' : extends m m' → mem_wf m → mem_wf m' ∧ deref m' = deref m.
Proof.
  intros [Hk Hh] (l & Hl & Hs). unfold mem_wf, deref. rewrite Hk, Hl, Hh by done.
  split; [|done]. exists l. by rewrite Hh.
Qed.

(** Every command, on every store that is well formed, is answered. *)
Lemma execute_total save cmd (m : Mem) : mem_wf m →
  ∃ reply m', executeOnDB save cmd m = (Ok reply, m') ∧ mem_wf m'.
Proof.
  intros Hwf. destruct cmd as [op args]. unfold executeOnDB. cbn [Op Args].
  assert (Hi : ∀ k d, ∃ reply m', (err ← catch (Incr k d);
    mret (match err with inl _ => ErrWrongDataType | inr _ => RespOk end)) m = (Ok reply, m') ∧ mem_wf m').
  { intros k d. pose proof (@Incr_law _ _ MemDB_laws m k d Hwf) as HI. unfold mbind, GM_bind, catch.
    case_match; [rewrite HI|destruct HI as (m' & -> & ? & _)]; eauto. }
  repeat case_match; eauto.
  all: match goal with
       | |- context [@Set_ _ _ ?k ?v] => destruct (@Set_law _ _ MemDB_laws m k v Hwf) as (m' & E & ? & _)
       | |- context [@Delete _ _ ?k] => destruct (@Delete_law _ _ MemDB_laws m k Hwf) as (m' & E & ? & _)
       end; gm_step E; eauto.
Qed.

Lemma apply_wf save data s r s' : Fsm.Apply save data s = (Ok r, s') → mem_wf (Fsm.db s) → mem_wf (Fsm.db s').
Proof.
  unfold Fsm.Apply. intros E Hwf. destruct (CmdCodec.Unmarshal data) as [cmd|]; [|by injection E as <- <-].
  case_decide.
  - destruct (Args cmd); [done|]. rewrite gm_bind_modifyS in E. by injection E as <- <-.
  - destruct (execute_total save cmd (Fsm.db s) Hwf) as (reply & m' & Em & Hm).
    unfold mbind, GM_bind, Fsm.on_db in E. rewrite Em in E. by injection E as <- <-.
Qed.

Lemma applied_wf entries s s' : applied entries s s' → mem_wf (Fsm.db s) → mem_wf (Fsm.db s').
Proof. induction 1; eauto using apply_wf. Qed.

Section node_lemmas.
Context {R : Type} `{RaftLaws R} `{UnicodeTables}.
Implicit Types (n : Node R) (cmd : Cmd).

Lemma SaveSnapshot_total n : node_wf n →
  ∃ err n', SaveSnapshot n = (Ok err, n') ∧ node_wf n' ∧ node_view n' = node_view n ∧
    Fsm.leaderAdminAddr (fsm n') = Fsm.leaderAdminAddr (fsm n) ∧
    (raft n = None → err = None ∧ n' = n).
Proof.
  intros Hwf. unfold SaveSnapshot. destruct (raft n) as [r|] eqn:Hr; [|by eauto 10].
  destruct (raft_snapshot r (fsm n)) as [err [r' s']] eqn:E.
  apply raft_snapshot_law in E as [Hx Hl]. destruct (extends_wf _ _ Hx Hwf).
  eexists _, (mkNode s' (Some r')). by split_and!.
Qed.

(** Executing a command on the node itself follows the command's
    specification; when Raft is disabled [SAVE] does nothing. *)
Lemma execute_local_runs n cmd : node_wf n → cmd_fits cmd →
  ∃ save n', let out := denote save (request_of cmd) (node_view n) in
    execute_local cmd n = (Ok (fst out), n') ∧ node_wf n' ∧ node_view n' = snd out ∧
    Fsm.leaderAdminAddr (fsm n') = Fsm.leaderAdminAddr (fsm n) ∧
    (raft n = None → save = None ∧ raft n' = None).
Proof.
  intros Hwf Hfit. unfold execute_local.
  assert (∃ save n1, (if calls_save cmd then SaveSnapshot else mret None) n = (Ok save, n1) ∧
    node_wf n1 ∧ node_view n1 = node_view n ∧
    Fsm.leaderAdminAddr (fsm n1) = Fsm.leaderAdminAddr (fsm n) ∧
    (raft n = None → save = None ∧ n1 = n)) as (save & n1 & E1 & Hwf1 & Hv1 & Hl1 & Hr1).
  { destruct (calls_save cmd); [by apply SaveSnapshot_total|]. by exists None, n. }
  gm_step E1. destruct (mem_execute save cmd (Fsm.db (fsm n1)) Hwf1 Hfit) as (m' & E2 & Hwf2 & Hv2).
  exists save, (mkNode (Fsm.mkState m' (Fsm.leaderAdminAddr (fsm n1))) (raft n1)).
  unfold on_fsm, Fsm.on_db, ExecuteLocally. rewrite E2. rewrite <- Hv1. split_and!; try done.
  intros Hr. destruct (Hr1 Hr) as [-> ->]. done.
Qed.

Lemma execute_local_total n cmd : node_wf n →
  ∃ reply n', execute_local cmd n = (Ok reply, n') ∧ node_wf n'.
Proof.
  intros Hwf. unfold execute_local.
  assert (∃ save n1, (if calls_save cmd then SaveSnapshot else mret None) n = (Ok save, n1) ∧
    node_wf n1) as (save & n1 & E1 & Hwf1).
  { destruct (calls_save cmd); [|by eauto].
    destruct (SaveSnapshot_total n Hwf) as (? & ? & ? & ? & _). eauto. }
  gm_step E1. destruct (execute_total save cmd (Fsm.db (fsm n1)) Hwf1) as (reply & m' & E2 & Hwf2).
  unfold on_fsm, Fsm.on_db, ExecuteLocally. rewrite E2. by eexists _, _.
Qed.

Lemma ApplyCmdViaRaft_total n cmd : node_wf n →
  ∃ reply n', ApplyCmdViaRaft cmd n = (Ok reply, n') ∧ node_wf n'.
Proof.
  intros Hwf. unfold ApplyCmdViaRaft. rewrite gm_bind_getS.
  destruct (raft n) as [r|]; [|by apply execute_local_total]. unfold applyCmdViaRaftNode.
  destruct (raft_apply (CmdCodec.Marshal cmd) r (fsm n)) as [[i|] [r' s']] eqn:E.
  - apply raft_apply_law in E as (before & save & s1 & resp & Ha & E & ->).
    eexists _, _. split; [done|]. eapply apply_wf; [done|]. by eapply applied_wf.
  - apply raft_apply_err_law in E as [entries Ha].
    eexists _, _. split; [done|]. by eapply applied_wf.
Qed.

Lemma executeRESPCmd_total n (cmd : option Cmd) : node_wf n →
  ∃ reply n', executeRESPCmd cmd n = (Ok reply, n') ∧ node_wf n'.
Proof.
  intros Hwf. destruct cmd as [cmd|]; [|by eauto]. unfold executeRESPCmd. rewrite gm_bind_getS.
  destruct (IsWriteOp cmd && RaftEnabled n); [|by apply execute_local_total].
  destruct (negb (IsLeader n)); [by eauto|by apply ApplyCmdViaRaft_total].
Qed.

Lemma serve_one_total args n : node_wf n →
  ∃ reply n', serve_one args n = (Ok reply, n') ∧ node_wf n'.
Proof. intros Hwf. unfold serve_one. destruct (BuildCmd args); [by apply executeRESPCmd_total|eauto]. Qed.
End node_lemmas.

(** ** Connections *)
Section connection_lemmas.
Context {R : Type} `{RaftLaws R} `{UnicodeTables}.
Implicit Types (n : Node R) (c : Conn R).

Lemma parse_next_eq c o p : Parser.ParseRESPCommand (parser c) = (o, p) →
  parse_next c = (match o with
                  | Ok _ => Ok None
                  | Err e => Ok (Some e)
                  | Panic => Panic
                  | OutOfFuel => OutOfFuel
                  end, mkConn p (output c) (node c)).
Proof. unfold parse_next. by intros ->. Qed.

Lemma on_node_ok {A} (m : GM (Node R) IncrError A) c a n' : m (node c) = (Ok a, n') →
  on_node m c = (Ok a, mkConn (parser c) (output c) n').
Proof. unfold on_node. by intros ->. Qed.

(** One round of the loop, by what the parser does. *)
Lemma loop_ok fuel c args p reply n' :
  Parser.ParseRESPCommand (parser c) = (Ok tt, p) →
  default [] (Parser.CmdArgs (Parser.ctx p)) = args →
  serve_one args (node c) = (Ok reply, n') →
  connection_loop (S fuel) c =
  connection_loop fuel (mkConn (Parser.set_ctx (Parser.Reset (Parser.ctx p)) p)
                               (output c ++ [reply]) n').
Proof.
  intros Ep Ha Es. cbn [connection_loop]. gm_step (parse_next_eq _ _ _ Ep).
  rewrite gm_bind_getS. cbn [parser]. rewrite Ha. unfold reset_parser. rewrite gm_bind_modifyS.
  unfold serve_one in Es. destruct (BuildCmd args) as [cmd|].
  - by gm_step (on_node_ok _ (mkConn _ _ _) _ _ Es).
  - by injection Es as <- <-.
Qed.

Lemma loop_err fuel c e p :
  Parser.ParseRESPCommand (parser c) = (Err e, p) → e ≠ Parser.EOF →
  connection_loop (S fuel) c =
  connection_loop fuel (mkConn (Parser.set_ctx (Parser.Reset (Parser.ctx p)) p)
                               (output c ++ [ErrInvalidCommand]) (node c)).
Proof.
  intros Ep He. cbn [connection_loop]. gm_step (parse_next_eq _ _ _ Ep).
  rewrite gm_bind_getS. unfold reset_parser. rewrite gm_bind_modifyS. by destruct e.
Qed.

Lemma loop_eof fuel c p :
  Parser.ParseRESPCommand (parser c) = (Err Parser.EOF, p) →
  connection_loop (S fuel) c =
  (Ok tt, mkConn (Parser.set_ctx (Parser.Reset (Parser.ctx p)) p) (output c) (node c)).
Proof.
  intros Ep. cbn [connection_loop]. by gm_step (parse_next_eq _ _ _ Ep).
Qed.

Lemma parse_end ctx : Parser.state ctx = Parser.CommandStart →
  Parser.ParseRESPCommand (Parser.mkP ctx []) = (Err Parser.EOF, Parser.mkP ctx []).
Proof.
  intros Hst. unfold Parser.ParseRESPCommand. cbn [Parser.ParseRESPCommand_at].
  rewrite gm_bind_getS. cbn [Parser.ctx]. by rewrite Hst.
Qed.

Lemma loop_ends fuel c : Parser.state (Parser.ctx (parser c)) = Parser.CommandStart →
  node_wf (node c) → length (Parser.reader (parser c)) < fuel →
  match connection_loop fuel c with
  | (Ok _, c') => node_wf (node c')
  | (Panic, _) => True
  | _ => False
  end.
Proof.
  revert c. induction fuel as [|fuel IH]; intros c Hst Hwf Hf; [lia|].
  destruct (Parser.parse_progress (parser c)) as [Hnf Hpr].
  specialize (Hpr Hst).
  destruct (Parser.ParseRESPCommand (parser c)) as [[[]|e| |] p] eqn:Ep; simpl in Hnf, Hpr; [| | |done].
  - destruct (serve_one_total (default [] (Parser.CmdArgs (Parser.ctx p))) (node c) Hwf)
      as (reply & n' & Es & Hwf').
    rewrite (loop_ok fuel c _ p _ n' Ep eq_refl Es). apply IH; [done|done|].
    specialize (Hpr ltac:(done) ltac:(done)). simpl. lia.
  - destruct (decide (e = Parser.EOF)) as [->|He].
    + by rewrite (loop_eof fuel c p Ep).
    + rewrite (loop_err fuel c e p Ep He). apply IH; [done|done|].
      specialize (Hpr ltac:(done) ltac:(congruence)). simpl. lia.
  - cbn [connection_loop]. by gm_step (parse_next_eq _ _ _ Ep).
Qed.
End connection_lemmas.

(** ** Sessions *)
Section session_lemmas.
Context {R : Type} `{RaftLaws R} `{UnicodeTables}.
Implicit Types (n : Node R) (c : Conn R) (reqs : list (list gostring)).

(** A request a client may send: arguments the parser can hold, none empty. *)
Definition sendable (args : list gostring) : Prop :=
  Parser.args_fit args ∧ Forall (λ a, a ≠ []) args.

(** The bytes of a pipelined sequence of requests. *)
Definition encode_requests reqs : gostring := concat (map (λ args, BuildArray (Some args)) reqs).

Lemma loop_serve reqs fuel c replies n' :
  Forall sendable reqs → Parser.state (Parser.ctx (parser c)) = Parser.CommandStart →
  Parser.reader (parser c) = encode_requests reqs → length reqs < fuel →
  serve reqs (node c) = (Ok replies, n') →
  ∃ p, connection_loop fuel c = (Ok tt, mkConn p (output c ++ replies) n').
Proof.
  intros Hs. revert fuel c replies. induction Hs as [|args reqs [Hfit Hne] _ IH];
    intros fuel c replies Hst Hr Hf E; (destruct fuel as [|fuel]; [lia|]); destruct (parser c) as [ctx r] eqn:Ec;
    simpl in Hst, Hr; subst r.
  - injection E as <- <-. rewrite app_nil_r.
    eexists. apply loop_eof. rewrite Ec. by apply parse_end.
  - cbn [serve] in E. apply gm_bind_inv in E as (reply & n1 & E1 & E).
    apply gm_bind_inv in E as (rs & n2 & E2 & E). injection E as <- <-.
    destruct (Parser.parse_encoded ctx args (encode_requests reqs) Hst Hfit Hne) as (c' & Ep & Ha & _).
    rewrite (loop_ok fuel c args (Parser.mkP c' (encode_requests reqs)) reply n1).
    + destruct (IH fuel (mkConn (Parser.mkP (Parser.Reset c') (encode_requests reqs))
                                (output c ++ [reply]) n1) rs) as [p Hp];
        [done|done|simpl in Hf; lia|done|]. exists p. unfold Parser.set_ctx. simpl in *.
      by rewrite Hp, <- app_assoc.
    + by rewrite Ec.
    + simpl. by rewrite Ha.
    + done.
Qed.

Lemma encode_requests_length reqs : length reqs ≤ length (encode_requests reqs).
Proof.
  induction reqs as [|args reqs IH]; [done|]. unfold encode_requests in *.
  cbn [map concat length]. rewrite length_app.
  assert (1 ≤ length (BuildArray (Some args))) by (simpl; lia). lia.
Qed.

Lemma handle_serve reqs n replies n' : Forall sendable reqs → serve reqs n = (Ok replies, n') →
  ∃ p, handleConnection (encode_requests reqs) n = (Ok tt, mkConn p replies n').
Proof.
  intros Hs E. pose proof (encode_requests_length reqs).
  apply (loop_serve reqs _ (mkConn (Parser.mkP _ _) [] n)); [done|done|done|lia|done].
Qed.

Lemma serve_total reqs n : node_wf n →
  ∃ replies n', serve reqs n = (Ok replies, n') ∧ node_wf n'.
Proof.
  revert n. induction reqs as [|args reqs IH]; intros n Hwf; [by eauto|]. cbn [serve].
  destruct (serve_one_total args n Hwf) as (r & n1 & E1 & Hwf1). gm_step E1.
  destruct (IH n1 Hwf1) as (rs & n2 & E2 & Hwf2). gm_step E2. by eauto.
Qed.

Lemma serve_length reqs n replies n' : serve reqs n = (Ok replies, n') → length replies = length reqs.
Proof.
  revert n replies. induction reqs as [|args reqs IH]; intros n replies E; [by injection E as <- <-|].
  cbn [serve] in E. apply gm_bind_inv in E as (r & n1 & _ & E).
  apply gm_bind_inv in E as (rs & n2 & E2 & E). injection E as <- <-. simpl. f_equal. eauto.
Qed.

(** A node that is not the leader does not change. *)
Lemma serve_one_unchanged args n : (∀ r : R, raft_is_leader r = false) → node_wf n → is_Some (raft n) →
  let n' := snd (serve_one args n) in
  node_wf n' ∧ is_Some (raft n') ∧ node_view n' = node_view n ∧
  Fsm.leaderAdminAddr (fsm n') = Fsm.leaderAdminAddr (fsm n).
Proof.
  intros Hl Hwf [r Hr]. unfold serve_one. destruct (BuildCmd args) as [cmd|]; [|by split_and!].
  unfold executeRESPCmd. rewrite gm_bind_getS. unfold RaftEnabled, IsLeader. rewrite Hr, Hl. simpl.
  destruct (IsWriteOp cmd) eqn:Hw; [by split_and!|]. unfold execute_local.
  destruct (SaveSnapshot_total n Hwf) as (save & n1 & E1 & Hwf1 & Hv1 & Hl1 & _).
  assert (Hr1 : is_Some (raft n1)).
  { unfold SaveSnapshot in E1. rewrite Hr in E1. destruct (raft_snapshot r (fsm n)) as [? []].
    by injection E1 as <- <-. }
  destruct (calls_save cmd); simpl; [gm_step E1|rewrite gm_bind_ret];
    unfold on_fsm, Fsm.on_db, ExecuteLocally; rewrite mem_read_unchanged by done; by split_and!.
Qed.

Lemma loop_unchanged : (∀ r : R, raft_is_leader r = false) → ∀ fuel c, node_wf (node c) → is_Some (raft (node c)) →
  let n' := node (snd (connection_loop fuel c)) in
  node_view n' = node_view (node c) ∧
  Fsm.leaderAdminAddr (fsm n') = Fsm.leaderAdminAddr (fsm (node c)).
Proof.
  intros Hl fuel. induction fuel as [|fuel IH]; intros c Hwf Hr; [done|].
  destruct (Parser.ParseRESPCommand (parser c)) as [[[]|e| |] p] eqn:Ep.
  - set (args := default [] (Parser.CmdArgs (Parser.ctx p))).
    destruct (serve_one_total args (node c) Hwf) as (reply & n' & Es & _).
    destruct (serve_one_unchanged args (node c) Hl Hwf Hr) as (Hwf' & Hr' & Hv & Ha).
    rewrite Es in *. simpl in Hwf', Hr', Hv, Ha.
    rewrite (loop_ok fuel c args p reply n' Ep eq_refl Es). cbv zeta in IH |- *.
    rewrite <- Hv, <- Ha. by apply (IH (mkConn _ _ n')).
  - destruct (decide (e = Parser.EOF)) as [->|He]; [by rewrite (loop_eof fuel c p Ep)|].
    rewrite (loop_err fuel c e p Ep He). by apply (IH (mkConn _ _ (node c))).
  - cbn [connection_loop]. by gm_step (parse_next_eq _ _ _ Ep).
  - by destruct (Parser.parse_progress (parser c)) as [Hnf _]; rewrite Ep in Hnf.
Qed.

(** A node without Raft executes everything locally. *)
Lemma serve_standalone reqs cmds n : raft n = None → node_wf n → mapM BuildCmd reqs = Some cmds →
  Forall cmd_fits cmds →
  ∃ n', serve reqs n = (Ok (fst (denote_all None cmds (node_view n))), n') ∧
        node_view n' = snd (denote_all None cmds (node_view n)).
Proof.
  revert cmds n. induction reqs as [|args reqs IH]; intros cmds n Hr Hwf Hb Hfit; simpl in Hb.
  { injection Hb as <-. by exists n. }
  destruct (BuildCmd args) as [cmd|] eqn:Ec; [|done].
  destruct (mapM BuildCmd reqs) as [cmds'|] eqn:Em; [|done]. injection Hb as <-.
  apply Forall_cons in Hfit as [Hc Hfit].
  destruct (execute_local_runs n cmd Hwf Hc) as (save & n1 & E1 & Hwf1 & Hv1 & _ & Hsv).
  destruct (Hsv Hr) as [-> Hr1].
  assert (serve_one args n = execute_local cmd n) as Eo.
  { unfold serve_one. rewrite Ec. unfold executeRESPCmd. rewrite gm_bind_getS.
    unfold RaftEnabled. rewrite Hr. by rewrite andb_false_r. }
  rewrite <- Eo in E1. cbn [serve denote_all]. gm_step E1.
  destruct (IH cmds' n1 Hr1 Hwf1 eq_refl Hfit) as (n2 & E2 & Hv2). gm_step E2.
  rewrite Hv1 in *. destruct (denote None (request_of cmd) (node_view n)) as [r ks1]. simpl in *.
  destruct (denote_all None cmds' ks1). by exists n2.
Qed.
End session_lemmas.

(** ** Theorems *)
Section theorems.
Context {R : Type} `{RaftLaws R} `{UnicodeTables}.
Implicit Types (n : Node R) (reqs : list (list gostring)).

(** C35.  A connection is served to its end.  Whatever bytes a client sends
    before it closes its side, the connection's loop ends, after at most one
    round per byte and one more: it returns, or the parser panics; it neither
    spins nor returns an error, and the node stays well formed. *)
Theorem connection_terminates input n : node_wf n →
  match handleConnection input n with
  | (Ok _, c) => node_wf (node c)
  | (Panic, _) => True
  | _ => False
  end.
Proof. intros Hwf. apply loop_ends; [done|done|simpl; lia]. Qed.

(** C14.  Pipelining.  A client that sends any sequence of requests at once,
    none with an empty argument, gets exactly one reply per request, in the
    order of the requests, each computed in the state the requests before it
    left; then the connection is closed. *)
Theorem pipelined_requests reqs n : node_wf n → Forall sendable reqs →
  ∃ replies n' p, serve reqs n = (Ok replies, n') ∧ length replies = length reqs ∧
    handleConnection (encode_requests reqs) n = (Ok tt, mkConn p replies n').
Proof.
  intros Hwf Hs. destruct (serve_total reqs n Hwf) as (replies & n' & E & _).
  destruct (handle_serve reqs n replies n' Hs E) as [p Hp].
  exists replies, n', p. split_and!; [done| |exact Hp].
  by apply serve_length in E.
Qed.

(** A standalone server implements the command specification.  Without
    Raft, the bytes written to the connection and the key space that is left
    are those the specification assigns to the sequence of the client's
    commands. *)
Lemma standalone_session reqs cmds n : raft n = None → node_wf n →
  Forall sendable reqs → mapM BuildCmd reqs = Some cmds → Forall cmd_fits cmds →
  ∃ n' p, handleConnection (encode_requests reqs) n =
            (Ok tt, mkConn p (fst (denote_all None cmds (node_view n))) n') ∧
          node_view n' = snd (denote_all None cmds (node_view n)).
Proof.
  intros Hr Hwf Hs Hb Hfit.
  destruct (serve_standalone reqs cmds n Hr Hwf Hb Hfit) as (n' & E & Hv).
  destruct (handle_serve reqs n _ n' Hs E) as [p Hp].
  exists n', p. split; [exact Hp|done].
Qed.

(** C18.  A follower is read-only.  While the node is not the leader of its
    cluster, nothing a client sends, well formed or not, changes the key space
    or the recorded leader address. *)
Theorem follower_read_only input n : node_wf n → is_Some (raft n) →
  (∀ r : R, raft_is_leader r = false) →
  let n' := node (snd (handleConnection input n)) in
  node_view n' = node_view n ∧
  Fsm.leaderAdminAddr (fsm n') = Fsm.leaderAdminAddr (fsm n).
Proof.
  intros Hwf Hr Hl. apply (loop_unchanged Hl _ (mkConn _ _ n) Hwf Hr).
Qed.

(** An acknowledged write is in the state machine.  What the leader
    answers to a write is the internal error, or the reply of the command's
    specification in the state the log had reached, and then the key space is
    the one the specification leaves. *)
Lemma acknowledged_write cmd n reply n' : node_wf n → IsLeader n = true →
  IsWriteOp cmd = true → cmd_fits cmd → executeRESPCmd (Some cmd) n = (Ok reply, n') →
  reply = ErrInternal ∨
  ∃ before s1, applied before (fsm n) s1 ∧
    let out := denote None (request_of (repair_cmd cmd)) (deref (Fsm.db s1)) in
    reply = fst out ∧ node_view n' = snd out.
Proof.
  intros Hwf Hl Hw Hfit E. unfold IsLeader in Hl. destruct (raft n) as [r|] eqn:Hr; [|done].
  unfold executeRESPCmd, ApplyCmdViaRaft in E. rewrite gm_bind_getS in E.
  unfold RaftEnabled, IsLeader in E. rewrite Hw, Hr, Hl in E. simpl in E.
  rewrite gm_bind_getS, Hr in E. unfold applyCmdViaRaftNode in E.
  destruct (raft_apply (CmdCodec.Marshal cmd) r (fsm n)) as [[i|] [r' s']] eqn:Ea;
    injection E as <- <-; [|by left].
  apply raft_apply_law in Ea as (before & save & s1 & resp & Ha & Es & ->). right.
  exists before, s1. split; [done|].
  destruct (apply_Marshal save cmd s1) as (s2 & Es2 & _ & Hd & _);
    [by eapply applied_wf|done|by apply write_op_not_admin|].
  rewrite Es in Es2. injection Es2 as -> ->. unfold node_view. simpl.
  by rewrite (denote_write_save None save) by by apply write_op_repair.
Qed.
End theorems.

(** ** Witnesses

    A cluster of one node: [true] while it leads, and then an entry is applied
    at once. *)
Definition Solo := bool.

#[global] Instance Solo_lib : RaftLib Solo := {|
  raft_is_leader r := r;
  raft_apply payload r s :=
    if r then
      match Fsm.Apply None payload s with
      | (Ok resp, s') => (Some (iface_of resp), (r, s'))
      | _ => (None, (r, s))
      end
    else (None, (r, s));
  raft_snapshot r s := (None, (r, s));
|}.

#[global] Instance Solo_laws : RaftLaws Solo.
Proof.
  split.
  - intros payload r s i r' s' E. unfold raft_apply, Solo_lib in E. destruct r; [|done].
    destruct (Fsm.Apply None payload s) as [[resp| | |] s1] eqn:Ea; try done. injection E as <- <- <-.
    exists [], None, s, resp. split; [constructor|done].
  - intros payload r s r' s' E. unfold raft_apply, Solo_lib in E. exists [].
    destruct r; [destruct (Fsm.Apply None payload s) as [[] ?]; try done|]; injection E as <- <-; constructor.
  - intros r s err r' s' E. by injection E as <- <- <-.
Qed.

(** A node that never leads. *)
Definition Follower := unit.
#[global] Instance Follower_lib : RaftLib Follower := {|
  raft_is_leader _ := false;
  raft_apply _ r s := (None, (r, s));
  raft_snapshot r s := (None, (r, s));
|}.
#[global] Instance Follower_laws : RaftLaws Follower.
Proof.
  split.
  - done.
  - intros payload r s r' s' E. injection E as <- <-. exists []. constructor.
  - intros r s err r' s' E. by injection E as <- <- <-.
Qed.

(** Upper case for letters outside ASCII is not needed here. *)
#[local] Instance ascii_tables : UnicodeTables := {| map_unicode_ToUpper := λ s, s |}.

Definition standalone : Node Solo := mkNode (Fsm.mkState initial []) None.
Definition leader_node : Node Solo := mkNode (Fsm.mkState initial []) (Some true).
Definition follower_node : Node Follower := mkNode (Fsm.mkState initial []) (Some tt).

(** [SET k v] and [GET k] as a client sends them. *)
Definition set_get : list (list gostring) := [[§"set"; §"k"; §"v"]; [§"GET"; §"k"]].

Lemma set_get_sendable : Forall sendable set_get.
Proof.
  repeat constructor; try discriminate; vm_compute; discriminate.
Qed.

Lemma connection_terminates_witness :
  match handleConnection §"nonsense" leader_node with
  | (Ok _, c) => node_wf (node c)
  | (Panic, _) => True
  | _ => False
  end.
Proof. apply (connection_terminates §"nonsense" leader_node). exact initial_wf. Defined.

Lemma pipelined_requests_witness :
  ∃ replies n' p, serve set_get leader_node = (Ok replies, n') ∧ length replies = 2 ∧
    handleConnection (encode_requests set_get) leader_node = (Ok tt, mkConn p replies n').
Proof.
  apply (pipelined_requests set_get leader_node); [exact initial_wf | exact set_get_sendable].
Defined.

Lemma follower_read_only_witness :
  let n' := node (snd (handleConnection (encode_requests set_get) follower_node)) in
  node_view n' = node_view follower_node ∧ Fsm.leaderAdminAddr (fsm n') = [].
Proof.
  apply (follower_read_only (encode_requests set_get) follower_node).
  - exact initial_wf.
  - eexists. reflexivity.
  - reflexivity.
Defined.

Lemma acknowledged_write_witness :
  RespOk = ErrInternal ∨
  ∃ before s1, applied before (fsm leader_node) s1 ∧
    let out := denote None (request_of (repair_cmd (mkCmd §"SET" [§"k"; §"v"]))) (deref (Fsm.db s1)) in
    RespOk = fst out ∧
    node_view (snd (executeRESPCmd (Some (mkCmd §"SET" [§"k"; §"v"])) leader_node)) = snd out.
Proof.
  apply (acknowledged_write (mkCmd §"SET" [§"k"; §"v"]) leader_node RespOk
           (snd (executeRESPCmd (Some (mkCmd §"SET" [§"k"; §"v"])) leader_node))).
  - exact initial_wf.
  - reflexivity.
  - reflexivity.
  - vm_compute. split; [discriminate | reflexivity].
  - vm_compute. reflexivity.
Defined.
