(* ===== verification/Membership.v ===== *)
(** * Cluster membership (src/core/raft.go, src/server/raft_server.go)

    The safe join: a node that asks to join is first added without a vote; the
    leader freezes a log index as its catch-up target and gives it a vote only
    once the node reports to have applied the log up to that index.  The admin
    service wraps this operation for remote callers.

    The Raft library is the class [MembershipLib]; [MembershipLaws] states what
    its documentation says of configuration changes.  [clock] is the sequence
    of the readings of the clock. *)

From S2P Require Import Prelude GoLib.

(** ** Configurations of the Raft library *)
Inductive Suffrage := Voter | Nonvoter | Staging | OtherSuffrage (n : Z).
#[export] Instance Suffrage_eq_dec : EqDecision Suffrage.
Proof. solve_decision. Defined.

Record Server := mkServer { suffrage : Suffrage; ID : gostring; Address : gostring }.
#[export] Instance Server_eq_dec : EqDecision Server.
Proof. solve_decision. Defined.

Class MembershipLib (R : Type) := {
  raft_leads : R → bool;
  GetConfiguration : R → gostring + list Server * N;
  AddNonvoter : gostring → gostring → N → R → (gostring + N) * R;
  AddVoter : gostring → gostring → N → R → (gostring + N) * R;
  AppliedIndex : R → N;
  LeaderWithID : R → gostring * gostring;
}.

(** A server of the same ID is updated in place, another one is appended.
    [AddNonvoter] does not demote a voter. *)
Fixpoint put_server (upd : Server → Server) (new : Server) (l : list Server) : list Server :=
  match l with
  | [] => [new]
  | s :: l' => if decide (ID s = ID new) then upd s :: l' else s :: put_server upd new l'
  end.
Definition with_nonvoter (id addr : gostring) : list Server → list Server :=
  put_server (λ s, mkServer (if decide (suffrage s = Voter) then Voter else Nonvoter) id addr)
             (mkServer Nonvoter id addr).
Definition with_voter (id addr : gostring) : list Server → list Server :=
  put_server (λ _, mkServer Voter id addr) (mkServer Voter id addr).

(** A configuration change that succeeds is in effect; one that fails may
    nevertheless take effect (leadership lost after the entry was sent). *)
Class MembershipLaws (R : Type) `{MembershipLib R} := {
  servers : R → list Server;
  GetConfiguration_law r c i : GetConfiguration r = inr (c, i) → c = servers r;
  AddNonvoter_law id addr prev r res r' : AddNonvoter id addr prev r = (res, r') →
    servers r' = with_nonvoter id addr (servers r) ∨
    (servers r' = servers r ∧ ∃ e, res = inl e);
  AddVoter_law id addr prev r res r' : AddVoter id addr prev r = (res, r') →
    servers r' = with_voter id addr (servers r) ∨
    (servers r' = servers r ∧ ∃ e, res = inl e);
}.

(** ** The membership operations of a node *)
Inductive ClusterRole := ClusterRoleUnspecified | ClusterRoleVoter | ClusterRoleNonVoter.

Inductive ClusterMemberState :=
| ClusterMemberStateUnspecified
| ClusterMemberStateJoining
| ClusterMemberStateCatchingUp
| ClusterMemberStateVoter
| ClusterMemberStateFailed.

Record ClusterMember := mkMember {
  NodeID : gostring;
  Addr : gostring;
  Role : ClusterRole;
  MState : ClusterMemberState;
  MAppliedIndex : N;
  MTargetIndex : N;
}.

Record ClusterInfo := mkInfo {
  LeaderID : gostring;
  LeaderAddr : gostring;
  LeaderAdminAddr : gostring;
  Members : list ClusterMember;
}.

Record memberJoinProgress := mkProgress {
  targetIndex : N;
  appliedIndex : N;
  lastProgressAt : Z;
}.

(** [raftJoinFailureTimeout], in nanoseconds. *)
Definition raftJoinFailureTimeout : Z := 10 * 10^9.

Inductive JoinError :=
| ErrRaftNotEnabled
| NotLeaderError (leader_admin : gostring)
| ErrIDAndAddrRequired
| ErrGetConfiguration (e : gostring)
| ErrIDRegistered (id addr : gostring)
| ErrAddrRegistered (addr id : gostring)
| ErrAddNonvoter (e : gostring)
| ErrPromote (e : gostring).

(** [Error()] of a [*NotLeaderError]; [None] is the nil pointer. *)
Definition NotLeaderError_Error (e : option gostring) : gostring :=
  match e with
  | None => §"not leader"
  | Some addr =>
      if bool_decide (addr = []) then §"not leader"
      else §"not leader (adminAddr=" ++ addr ++ §")"
  end.

(** The text tells the addresses of leaders apart. *)
Lemma NotLeaderError_Error_inj a b :
  NotLeaderError_Error (Some a) = NotLeaderError_Error (Some b) → a = b.
Proof.
  unfold NotLeaderError_Error. repeat case_bool_decide; subst; try done; intros E.
  by apply app_inv_head, app_inv_tail in E.
Qed.

Section membership.
Context {R : Type} `{MembershipLib R} (clock : nat → Z).

(** The fields of [RaftNode] the join uses; [ticks] counts the readings of
    the clock. *)
Record RaftNode := mkRaftNode {
  raft : R;
  joinProgress : gmap gostring memberJoinProgress;
  ticks : nat;
}.
Abbreviation JM := (GM RaftNode JoinError).

Definition set_raft (r : R) (n : RaftNode) : RaftNode := mkRaftNode r (joinProgress n) (ticks n).
Definition set_progress (p : gmap gostring memberJoinProgress) (n : RaftNode) : RaftNode :=
  mkRaftNode (raft n) p (ticks n).

(** [time.Now()] *)
Definition Now : JM Z := λ n, (Ok (clock (ticks n)), mkRaftNode (raft n) (joinProgress n) (S (ticks n))).

Definition recordJoinProgress (id : gostring) (target applied : N) (now : Z) : JM memberJoinProgress :=
  n ← getS;
  let progress :=
    match joinProgress n !! id with
    | Some progress => progress
    | None => mkProgress (if (target =? 0)%N then AppliedIndex (raft n) else target) 0 now
    end in
  let progress :=
    if (appliedIndex progress <? applied)%N
    then mkProgress (targetIndex progress) applied now else progress in
  modifyS (set_progress (<[id := progress]> (joinProgress n)));;
  mret progress.

Definition clearJoinProgress (id : gostring) : JM unit :=
  modifyS (λ n, set_progress (delete id (joinProgress n)) n).

Definition clusterMemberProgress (server : Server) (now : Z) : JM (ClusterMemberState * N * N) :=
  if decide (suffrage server = Voter) then mret (ClusterMemberStateVoter, 0%N, 0%N)
  else
    progress ← recordJoinProgress (ID server) 0 0 now;
    let state := if (0 <? appliedIndex progress)%N
                 then ClusterMemberStateCatchingUp else ClusterMemberStateJoining in
    let state := if (appliedIndex progress <? targetIndex progress)%N
                    && (raftJoinFailureTimeout <=? now - lastProgressAt progress)%Z
                 then ClusterMemberStateFailed else state in
    mret (state, appliedIndex progress, targetIndex progress).

Definition roleFromSuffrage (s : Suffrage) : ClusterRole :=
  match s with
  | Voter => ClusterRoleVoter
  | Nonvoter | Staging => ClusterRoleNonVoter
  | OtherSuffrage _ => ClusterRoleUnspecified
  end.

(** The loop of [buildClusterInfoForNode] *)
Fixpoint memberLoop (srvs : list Server) : JM (list ClusterMember) :=
  match srvs with
  | [] => mret []
  | srv :: srvs =>
      now ← Now;
      '(state, applied, target) ← clusterMemberProgress srv now;
      members ← memberLoop srvs;
      mret (mkMember (ID srv) (Address srv) (roleFromSuffrage (suffrage srv)) state applied target
            :: members)
  end.

Definition buildClusterInfoForNode (leaderAdminAddr : gostring) : JM ClusterInfo :=
  n ← getS;
  match GetConfiguration (raft n) with
  | inl e => throw (ErrGetConfiguration e)
  | inr (srvs, _) =>
      let '(leaderAddr, leaderID) := LeaderWithID (raft n) in
      members ← memberLoop srvs;
      mret (mkInfo leaderID leaderAddr leaderAdminAddr members)
  end.

(** The loop of [validateJoiningMember] over the configuration *)
Fixpoint findMember (nodeID addr : gostring) (srvs : list Server) : JoinError + option Server :=
  match srvs with
  | [] => inr None
  | server :: srvs =>
      if bool_decide (ID server = nodeID) && bool_decide (Address server = addr) then inr (Some server)
      else if bool_decide (ID server = nodeID) then inl (ErrIDRegistered nodeID (Address server))
      else if bool_decide (Address server = addr) then inl (ErrAddrRegistered addr (ID server))
      else findMember nodeID addr srvs
  end.

Definition validateJoiningMember (nodeID addr : gostring) : JM (option Server * N) :=
  n ← getS;
  match GetConfiguration (raft n) with
  | inl e => throw (ErrGetConfiguration e)
  | inr (srvs, index) =>
      match findMember nodeID addr srvs with
      | inl e => throw e
      | inr member => mret (member, index)
      end
  end.

(** [raft.AddNonvoter(...)] and [raft.AddVoter(...)] up to their futures *)
Definition addNonvoter (id addr : gostring) (prev : N) : JM N := λ n,
  let '(res, r) := AddNonvoter id addr prev (raft n) in
  (match res with inl e => Err (ErrAddNonvoter e) | inr i => Ok i end, set_raft r n).
Definition addVoter (id addr : gostring) (prev : N) : JM N := λ n,
  let '(res, r) := AddVoter id addr prev (raft n) in
  (match res with inl e => Err (ErrPromote e) | inr i => Ok i end, set_raft r n).

(** The rest of [JoinClusterWithProgress] once the node leads and the
    arguments are trimmed. *)
Definition joinMember (leaderAdminAddr nodeID addr : gostring) (applied : N) : JM ClusterInfo :=
  '(member, configurationIndex) ← validateJoiningMember nodeID addr;
  match member with
  | Some m =>
      if decide (suffrage m = Voter) then
        clearJoinProgress (ID m);;
        buildClusterInfoForNode leaderAdminAddr
      else
        now ← Now;
        progress ← recordJoinProgress nodeID 0 applied now;
        if (applied <? targetIndex progress)%N then buildClusterInfoForNode leaderAdminAddr
        else
          addVoter nodeID addr configurationIndex;;
          clearJoinProgress nodeID;;
          buildClusterInfoForNode leaderAdminAddr
  | None =>
      index ← addNonvoter nodeID addr configurationIndex;
      n ← getS;
      let target := N.max index (AppliedIndex (raft n)) in
      now ← Now;
      recordJoinProgress nodeID target applied now;;
      buildClusterInfoForNode leaderAdminAddr
  end.

(** The package variables: the Raft node once started, and the address of the
    leader's admin service. *)
Record Core := mkCore { raftNode : option RaftNode; leaderAdminAddr : gostring }.

(** Run an operation of the node. *)
Definition on_raftNode {A} (n : RaftNode) (m : JM A) : GM Core JoinError A := λ c,
  let '(o, n') := m n in (o, mkCore (Some n') (leaderAdminAddr c)).

Definition JoinClusterWithProgress (nodeID addr : gostring) (applied : N) : GM Core JoinError ClusterInfo :=
  c ← getS;
  match raftNode c with
  | None => throw ErrRaftNotEnabled
  | Some n =>
      if negb (raft_leads (raft n)) then throw (NotLeaderError (leaderAdminAddr c))
      else
        let nodeID := TrimSpace nodeID in
        let addr := TrimSpace addr in
        if bool_decide (nodeID = []) || bool_decide (addr = []) then throw ErrIDAndAddrRequired
        else on_raftNode n (joinMember (leaderAdminAddr c) nodeID addr applied)
  end.

Definition JoinCluster (nodeID addr : gostring) : GM Core JoinError ClusterInfo :=
  JoinClusterWithProgress nodeID addr 0.

Definition buildClusterInfo : GM Core JoinError ClusterInfo :=
  c ← getS;
  match raftNode c with
  | None => throw ErrRaftNotEnabled
  | Some n => on_raftNode n (buildClusterInfoForNode (leaderAdminAddr c))
  end.
End membership.
Arguments RaftNode : clear implicits.
Arguments Core : clear implicits.

(** ** The admin service (raft_server.go)

    The messages are those of the protocol definition. *)
Module Admin.

Inductive JoinClusterResponseCode := SUCCESS | NOT_LEADER | RAFT_NOT_ENABLED.
Inductive ProtoRole := CLUSTER_ROLE_UNSPECIFIED | CLUSTER_ROLE_VOTER | CLUSTER_ROLE_NON_VOTER.
Inductive ProtoMemberState :=
| CLUSTER_MEMBER_STATE_UNSPECIFIED
| CLUSTER_MEMBER_STATE_JOINING
| CLUSTER_MEMBER_STATE_CATCHING_UP
| CLUSTER_MEMBER_STATE_VOTER
| CLUSTER_MEMBER_STATE_FAILED.
Record ProtoMember := mkProtoMember {
  node_id : gostring; addr : gostring; role : ProtoRole; state : ProtoMemberState;
  applied_index : N; target_index : N }.
Record ProtoCluster := mkProtoCluster {
  leader_id : gostring; leader_addr : gostring; leader_admin_addr : gostring; members : list ProtoMember }.
Record JoinClusterRequest := mkRequest { req_node_id : gostring; req_addr : gostring; req_applied_index : N }.
Record JoinClusterResponse := mkResponse { code : JoinClusterResponseCode; cluster : ProtoCluster }.

(** The gRPC status of a failed call. *)
Inductive RpcError := InvalidArgument | Internal (e : JoinError).

Definition toProtoRole (r : ClusterRole) : ProtoRole :=
  match r with
  | ClusterRoleVoter => CLUSTER_ROLE_VOTER
  | ClusterRoleNonVoter => CLUSTER_ROLE_NON_VOTER
  | ClusterRoleUnspecified => CLUSTER_ROLE_UNSPECIFIED
  end.

Definition toProtoMemberState (s : ClusterMemberState) : ProtoMemberState :=
  match s with
  | ClusterMemberStateJoining => CLUSTER_MEMBER_STATE_JOINING
  | ClusterMemberStateCatchingUp => CLUSTER_MEMBER_STATE_CATCHING_UP
  | ClusterMemberStateVoter => CLUSTER_MEMBER_STATE_VOTER
  | ClusterMemberStateFailed => CLUSTER_MEMBER_STATE_FAILED
  | ClusterMemberStateUnspecified => CLUSTER_MEMBER_STATE_UNSPECIFIED
  end.

Definition toProtoCluster (info : option ClusterInfo) : ProtoCluster :=
  match info with
  | None => mkProtoCluster [] [] [] []
  | Some info =>
      mkProtoCluster (LeaderID info) (LeaderAddr info) (LeaderAdminAddr info)
        (map (λ m, mkProtoMember (NodeID m) (Addr m) (toProtoRole (Role m)) (toProtoMemberState (MState m))
                             (MAppliedIndex m) (MTargetIndex m)) (Members info))
  end.

Definition JoinClusterRPC {R} `{MembershipLib R} (clock : nat → Z) (req : JoinClusterRequest)
  : GM (Core R) RpcError JoinClusterResponse := λ c,
  let nodeID := TrimSpace (req_node_id req) in
  let addr := TrimSpace (req_addr req) in
  if bool_decide (nodeID = []) || bool_decide (addr = []) then (Err InvalidArgument, c)
  else
    match JoinClusterWithProgress clock nodeID addr (req_applied_index req) c with
    | (Ok info, c') => (Ok (mkResponse SUCCESS (toProtoCluster (Some info))), c')
    | (Err ErrRaftNotEnabled, c') => (Ok (mkResponse RAFT_NOT_ENABLED (toProtoCluster None)), c')
    | (Err (NotLeaderError a), c') => (Ok (mkResponse NOT_LEADER (mkProtoCluster [] [] a [])), c')
    | (Err e, c') => (Err (Internal e), c')
    | (Panic, c') => (Panic, c')
    | (OutOfFuel, c') => (OutOfFuel, c')
    end.

End Admin.

(** ** Configurations *)
Section configurations.
Implicit Types (l : list Server) (s : Server).

Lemma put_server_append upd new l :
  (∀ s, s ∈ l → ID s ≠ ID new) → put_server upd new l = l ++ [new].
Proof.
  induction l as [|s l IH]; intros Hn; [done|]. simpl.
  rewrite decide_False by (apply Hn; left). f_equal. apply IH. intros s' Hs. apply Hn. by right.
Qed.

Lemma with_voter_elem id addr l s : s ∈ with_voter id addr l → s ∈ l ∨ s = mkServer Voter id addr.
Proof.
  unfold with_voter. induction l as [|t l IH]; simpl; [set_solver|]. case_decide; set_solver.
Qed.

Lemma with_voter_keeps id addr l s : s ∈ l → ID s ≠ id → s ∈ with_voter id addr l.
Proof.
  unfold with_voter. induction l as [|t l IH]; simpl; [set_solver|]. case_decide; set_solver.
Qed.

Lemma with_voter_in id addr l : mkServer Voter id addr ∈ with_voter id addr l.
Proof.
  unfold with_voter. induction l as [|t l IH]; simpl; [set_solver|]. case_decide; set_solver.
Qed.

(** Promoting a member changes neither the IDs nor the addresses. *)
Lemma with_voter_names m l : NoDup (ID <$> l) → m ∈ l →
  ID <$> with_voter (ID m) (Address m) l = ID <$> l ∧
  Address <$> with_voter (ID m) (Address m) l = Address <$> l.
Proof.
  unfold with_voter. induction l as [|t l IH]; intros Hnd Hm; [by apply elem_of_nil in Hm|].
  csimpl in *. apply NoDup_cons in Hnd as [Ht Hnd]. case_decide as Hid; csimpl.
  - rewrite Hid. csimpl. apply elem_of_cons in Hm as [->|Hm]; [done|].
    exfalso. apply Ht. rewrite Hid. csimpl. by apply list_elem_of_fmap_2.
  - apply elem_of_cons in Hm as [->|Hm]; [done|]. destruct (IH Hnd Hm) as [-> ->]. done.
Qed.

Lemma findMember_spec id addr l :
  match findMember id addr l with
  | inl _ => True
  | inr (Some m) => m ∈ l ∧ ID m = id ∧ Address m = addr
  | inr None => ∀ s, s ∈ l → ID s ≠ id ∧ Address s ≠ addr
  end.
Proof.
  induction l as [|s l IH]; simpl; [set_solver|].
  repeat case_bool_decide; simpl; try done; [set_solver|].
  destruct (findMember id addr l) as [|[m|]]; set_solver.
Qed.

Lemma findMember_error id addr l e : findMember id addr l = inl e →
  match e with ErrIDRegistered _ _ | ErrAddrRegistered _ _ => True | _ => False end.
Proof. induction l as [|s l IH]; simpl; [done|]. repeat case_match; naive_solver. Qed.

Lemma NoDup_fmap_elem {B} (f : Server → B) l s t : NoDup (f <$> l) → s ∈ l → t ∈ l → f s = f t → s = t.
Proof.
  induction l as [|u l IH]; csimpl; intros Hnd Hs Ht Hf; [by apply elem_of_nil in Hs|].
  apply NoDup_cons in Hnd as [Hu Hnd].
  apply elem_of_cons in Hs as [->|Hs]; apply elem_of_cons in Ht as [->|Ht]; auto; exfalso; apply Hu.
  - rewrite Hf. by apply list_elem_of_fmap_2.
  - rewrite <- Hf. by apply list_elem_of_fmap_2.
Qed.

Lemma findMember_unique m l : NoDup (ID <$> l) ∧ NoDup (Address <$> l) → m ∈ l →
  findMember (ID m) (Address m) l = inr (Some m).
Proof.
  intros [Hi Ha]. induction l as [|s l IH]; intros Hm; [by apply elem_of_nil in Hm|]. simpl.
  apply elem_of_cons in Hm as [->|Hm]; [by rewrite !bool_decide_true|].
  csimpl in *. apply NoDup_cons in Hi as [Hsi Hi]. apply NoDup_cons in Ha as [Hsa Ha].
  rewrite !bool_decide_false; [by apply IH|intros He; apply Hsa|intros He; apply Hsi];
    rewrite He; by apply list_elem_of_fmap_2.
Qed.
End configurations.

(** ** Progress records *)

(** Records are kept with their target; reported indexes only grow. *)
Definition grows (P P' : gmap gostring memberJoinProgress) : Prop :=
  ∀ id p, P !! id = Some p → ∃ p', P' !! id = Some p' ∧
    targetIndex p' = targetIndex p ∧ (appliedIndex p ≤ appliedIndex p')%N.

#[export] Instance grows_preorder : PreOrder grows.
Proof.
  split.
  - intros P id p Hp. exists p. split_and!; [done|done|lia].
  - intros P1 P2 P3 H12 H23 id p Hp. destruct (H12 id p Hp) as (p2 & Hp2 & Ht2 & Ha2).
    destruct (H23 id p2 Hp2) as (p3 & Hp3 & Ht3 & Ha3). exists p3. split_and!; [done|congruence|lia].
Qed.

Lemma grows_delete id P : grows (delete id P) P.
Proof.
  intros id' p Hp. apply lookup_delete_Some in Hp as [_ Hp].
  exists p. split_and!; [done|done|lia].
Qed.

Section progress.
Context {R : Type} `{MembershipLaws R} (clock : nat → Z).
Implicit Types (n : RaftNode R).

(** The target a record of the member has, or gets when it is created. *)
Definition target_of (id : gostring) (n : RaftNode R) : N :=
  match joinProgress n !! id with
  | Some p => targetIndex p
  | None => AppliedIndex (raft n)
  end.

Lemma recordJoinProgress_spec id target applied now n :
  ∃ p n', recordJoinProgress id target applied now n = (Ok p, n') ∧
    raft n' = raft n ∧ grows (joinProgress n) (joinProgress n') ∧
    (target = 0%N → targetIndex p = target_of id n).
Proof.
  unfold recordJoinProgress. rewrite gm_bind_getS, gm_bind_modifyS.
  eexists _, _. split; [done|]. split; [done|]. unfold target_of. split.
  - intros id' p Hp. simpl. destruct (decide (id = id')) as [<-|Hne].
    + rewrite lookup_insert_eq, Hp. eexists. split; [done|].
      destruct (N.ltb_spec (appliedIndex p) applied); simpl; split; (done || lia).
    + rewrite lookup_insert_ne by done. exists p. split_and!; [done|done|lia].
  - intros ->. destruct (joinProgress n !! id) as [p|]; by case_match.
Qed.

Lemma clusterMemberProgress_spec srv now n :
  ∃ res n', clusterMemberProgress srv now n = (Ok res, n') ∧
    raft n' = raft n ∧ grows (joinProgress n) (joinProgress n').
Proof.
  unfold clusterMemberProgress. case_decide; [by eexists _, n|].
  destruct (recordJoinProgress_spec (ID srv) 0 0 now n) as (p & n' & E & Hr & Hg & _).
  gm_step E. by eexists _, n'.
Qed.

(** The members reported are the servers of the configuration, in its order. *)
Definition describes (srv : Server) (m : ClusterMember) : Prop :=
  NodeID m = ID srv ∧ Addr m = Address srv ∧ Role m = roleFromSuffrage (suffrage srv).

Lemma memberLoop_spec srvs n :
  ∃ ms n', memberLoop clock srvs n = (Ok ms, n') ∧
    raft n' = raft n ∧ grows (joinProgress n) (joinProgress n') ∧ Forall2 describes srvs ms.
Proof.
  revert n. induction srvs as [|srv srvs IH]; intros n; [by eexists _, n|]. cbn [memberLoop].
  assert (En : Now clock n = (Ok (clock (ticks n)), mkRaftNode (raft n) (joinProgress n) (S (ticks n)))) by done.
  gm_step En. set (n1 := mkRaftNode _ _ _).
  destruct (clusterMemberProgress_spec srv (clock (ticks n)) n1) as ([[st ap] tg] & n2 & E2 & Hr2 & Hg2).
  gm_step E2. destruct (IH n2) as (ms & n3 & E3 & Hr3 & Hg3 & Hd). gm_step E3.
  eexists _, n3. split; [done|]. split_and!; [by rewrite Hr3, Hr2|by etrans|by constructor].
Qed.

Lemma build_spec la n :
  match buildClusterInfoForNode clock la n with
  | (Ok info, n') => raft n' = raft n ∧ grows (joinProgress n) (joinProgress n') ∧
                     Forall2 describes (servers (raft n)) (Members info)
  | (Err (ErrGetConfiguration _), n') => n' = n
  | _ => False
  end.
Proof.
  unfold buildClusterInfoForNode. rewrite gm_bind_getS.
  destruct (GetConfiguration (raft n)) as [e|[srvs i]] eqn:E; [done|].
  apply GetConfiguration_law in E as ->. destruct (LeaderWithID (raft n)).
  destruct (memberLoop_spec (servers (raft n)) n) as (ms & n' & Em & Hr & Hg & Hd). by gm_step Em.
Qed.

Lemma build_grows la n o n' : buildClusterInfoForNode clock la n = (o, n') →
  raft n' = raft n ∧ grows (joinProgress n) (joinProgress n').
Proof.
  intros E. pose proof (build_spec la n) as Hb. rewrite E in Hb.
  destruct o as [info|[]| |]; naive_solver.
Qed.

(** What a join can do to a node. *)
Inductive join_effect (id addr : gostring) (applied : N) (n n' : RaftNode R) : Prop :=
| je_none :
    servers (raft n') = servers (raft n) → grows (joinProgress n) (joinProgress n') →
    join_effect id addr applied n n'
| je_voter m :
    m ∈ servers (raft n) → ID m = id → suffrage m = Voter →
    raft n' = raft n → grows (delete id (joinProgress n)) (joinProgress n') →
    join_effect id addr applied n n'
| je_added :
    (∀ s, s ∈ servers (raft n) → ID s ≠ id ∧ Address s ≠ addr) →
    servers (raft n') = servers (raft n) ++ [mkServer Nonvoter id addr] →
    grows (joinProgress n) (joinProgress n') →
    join_effect id addr applied n n'
| je_promoted m :
    m ∈ servers (raft n) → ID m = id → Address m = addr → suffrage m ≠ Voter →
    (target_of id n ≤ applied)%N →
    servers (raft n') = with_voter id addr (servers (raft n)) →
    grows (delete id (joinProgress n)) (joinProgress n') →
    join_effect id addr applied n n'.

Lemma join_new la id addr applied index n o n' :
  (∀ s, s ∈ servers (raft n) → ID s ≠ id ∧ Address s ≠ addr) →
  (i ← addNonvoter id addr index;
   n0 ← getS;
   now ← Now clock;
   recordJoinProgress id (N.max i (AppliedIndex (raft n0))) applied now;;
   buildClusterInfoForNode clock la) n = (o, n') →
  join_effect id addr applied n n'.
Proof.
  intros Hnew E. unfold mbind at 1, GM_bind, addNonvoter in E.
  destruct (AddNonvoter id addr index (raft n)) as [res r] eqn:Ea.
  apply AddNonvoter_law in Ea.
  assert (Hs : servers r = servers (raft n) ++ [mkServer Nonvoter id addr] ∨
               servers r = servers (raft n) ∧ ∃ e, res = inl e).
  { destruct Ea as [Hw|]; [left|by right]. rewrite Hw. apply put_server_append. naive_solver. }
  assert (Hg : raft n' = r ∧ grows (joinProgress n) (joinProgress n')).
  { destruct res as [e|i]; [by injection E as <- <-|]. cbv beta iota in E.
    destruct (recordJoinProgress_spec id (N.max i (AppliedIndex r)) applied (clock (ticks n))
                (mkRaftNode r (joinProgress n) (S (ticks n)))) as (p & n1 & E1 & Hr1 & Hg1 & _).
    change (((recordJoinProgress id (N.max i (AppliedIndex r)) applied (clock (ticks n)));;
             buildClusterInfoForNode clock la) (mkRaftNode r (joinProgress n) (S (ticks n))) = (o, n')) in E.
    rewrite (gm_bind_ok _ _ _ _ _ E1) in E. apply build_grows in E as [Hr2 Hg2].
    simpl in *. split; [congruence|by etrans]. }
  destruct Hg as [<- Hg]. destruct Hs as [Hs|[Hs _]]; [by apply je_added|by apply je_none].
Qed.

Lemma join_nonvoter la id addr applied index m n o n' :
  m ∈ servers (raft n) → ID m = id → Address m = addr → suffrage m ≠ Voter →
  (now ← Now clock;
   progress ← recordJoinProgress id 0 applied now;
   if (applied <? targetIndex progress)%N then buildClusterInfoForNode clock la
   else addVoter id addr index;; clearJoinProgress id;; buildClusterInfoForNode clock la) n = (o, n') →
  join_effect id addr applied n n'.
Proof.
  intros Hm Hid Haddr Hnv E. unfold mbind at 1, GM_bind, Now in E.
  set (n0 := mkRaftNode _ _ _) in E.
  destruct (recordJoinProgress_spec id 0 applied (clock (ticks n)) n0) as (p & n1 & E1 & Hr1 & Hg1 & Ht).
  specialize (Ht eq_refl). change (target_of id n0) with (target_of id n) in Ht.
  change (grows (joinProgress n) (joinProgress n1)) in Hg1. change (raft n0) with (raft n) in Hr1.
  rewrite (gm_bind_ok _ _ _ _ _ E1) in E. destruct (N.ltb_spec applied (targetIndex p)) as [Hlt|Hle].
  { apply build_grows in E as [Hr2 Hg2]. apply je_none; [congruence|by etrans]. }
  unfold mbind at 1, GM_bind, addVoter in E. rewrite Hr1 in E.
  destruct (AddVoter id addr index (raft n)) as [res r] eqn:Ea. apply AddVoter_law in Ea.
  assert (Hg : raft n' = r ∧ grows (delete id (joinProgress n)) (joinProgress n') ∧
               ((∃ e, res = inl e) → grows (joinProgress n) (joinProgress n'))).
  { destruct res as [e|i].
    - injection E as <- <-. split_and!; [done| |done]. etrans; [apply grows_delete|done].
    - unfold clearJoinProgress in E. apply build_grows in E as [Hr2 Hg2]. split_and!; [done| |by intros []].
      etrans; [|exact Hg2]. simpl. intros id' p' Hp'. apply lookup_delete_Some in Hp' as [Hne Hp'].
      destruct (Hg1 id' p' Hp') as (p2 & Hp2 & ?). exists p2. by rewrite lookup_delete_ne. }
  destruct Hg as (<- & Hg & Hge). destruct Ea as [Hs|[Hs He]].
  - eapply je_promoted; try done. by rewrite <- Ht.
  - apply je_none; auto.
Qed.

Lemma joinMember_effect la id addr applied n o n' :
  joinMember clock la id addr applied n = (o, n') → join_effect id addr applied n n'.
Proof.
  intros E. unfold joinMember, validateJoiningMember in E.
  unfold mbind at 1, GM_bind at 1 in E. rewrite gm_bind_getS in E.
  destruct (GetConfiguration (raft n)) as [e|[srvs i]] eqn:Ec; [by injection E as <- <-; apply je_none|].
  apply GetConfiguration_law in Ec as ->. pose proof (findMember_spec id addr (servers (raft n))) as Hf.
  destruct (findMember id addr (servers (raft n))) as [e|[m|]]; [by injection E as <- <-; apply je_none| |].
  - destruct Hf as (Hm & Hid & Haddr). cbv beta iota in E. simpl in E. case_decide as Hv.
    + unfold clearJoinProgress in E. rewrite gm_bind_modifyS in E.
      apply build_grows in E as [Hr Hg]. rewrite <- Hid. by eapply je_voter.
    + by eapply join_nonvoter.
  - apply (join_new la id addr applied i n o n' Hf). exact E.
Qed.
End progress.

(** ** Runs of a node *)
Section runs.
Context {R : Type} `{MembershipLaws R} (clock : nat → Z).
Implicit Types (c : Core R) (n : RaftNode R).

(** A join request with any arguments, a query of the cluster, and whatever
    else moves the library and the leader's address (elections, entries of the
    log) without changing the configuration. *)
Inductive mstep : Core R → Core R → Prop :=
| step_join id addr applied c o c' :
    JoinClusterWithProgress clock id addr applied c = (o, c') → mstep c c'
| step_info c o c' : buildClusterInfo clock c = (o, c') → mstep c c'
| step_raft n r la la' :
    servers r = servers (raft n) → mstep (mkCore (Some n) la) (mkCore (Some (set_raft r n)) la').

Definition config_of c : list Server := from_option (λ n, servers (raft n)) [] (raftNode c).
Definition progress_of c : gmap gostring memberJoinProgress := from_option joinProgress ∅ (raftNode c).

(** No ID and no address occurs twice. *)
Definition unique_members c : Prop := NoDup (ID <$> config_of c) ∧ NoDup (Address <$> config_of c).
Definition is_voter (id : gostring) c : Prop :=
  ∃ s, s ∈ config_of c ∧ ID s = id ∧ suffrage s = Voter.

(** The state after a join: the node has changed as [join_effect] says, or it
    has not changed at all. *)
Lemma join_core_effect id addr applied c o c' :
  JoinClusterWithProgress clock id addr applied c = (o, c') →
  c' = c ∨ ∃ n n', raftNode c = Some n ∧ raftNode c' = Some n' ∧ raft_leads (raft n) = true ∧
    join_effect (TrimSpace id) (TrimSpace addr) applied n n'.
Proof.
  unfold JoinClusterWithProgress. rewrite gm_bind_getS. intros E.
  destruct (raftNode c) as [n|] eqn:Hn; [|injection E as <- <-; by left].
  destruct (raft_leads (raft n)) eqn:Hl; [|injection E as <- <-; by left]. simpl in E.
  case_match; [injection E as <- <-; by left|]. unfold on_raftNode in E.
  destruct (joinMember clock _ _ _ applied n) as [o' n'] eqn:Ej. injection E as <- <-.
  right. exists n, n'. split_and!; [done|done|done|]. by eapply joinMember_effect.
Qed.

(** What a join returns. *)
Lemma joinMember_reports la id addr applied n :
  match joinMember clock la id addr applied n with
  | (Ok info, n') => Forall2 describes (servers (raft n')) (Members info)
  | (Err ErrRaftNotEnabled, _) | (Err (NotLeaderError _), _) => False
  | _ => True
  end.
Proof.
  assert (Hb : ∀ n1, match buildClusterInfoForNode clock la n1 with
    | (Ok info, n') => Forall2 describes (servers (raft n')) (Members info)
    | (Err ErrRaftNotEnabled, _) | (Err (NotLeaderError _), _) => False
    | _ => True end).
  { intros n1. pose proof (build_spec clock la n1) as Hs.
    destruct (buildClusterInfoForNode clock la n1) as [[info|[]| |] n2]; try done.
    destruct Hs as (-> & _ & ?). done. }
  unfold joinMember, validateJoiningMember. unfold mbind at 1, GM_bind at 1. rewrite gm_bind_getS.
  destruct (GetConfiguration (raft n)) as [e|[srvs i]]; [done|].
  destruct (findMember id addr srvs) as [e|[m|]] eqn:Ef; [apply findMember_error in Ef; by destruct e| |].
  - cbv beta iota. simpl. case_decide; [apply Hb|].
    unfold mbind at 1, GM_bind at 1, Now at 1.
    destruct (recordJoinProgress_spec id 0 applied (clock (ticks n))
                (mkRaftNode (raft n) (joinProgress n) (S (ticks n)))) as (p & n1 & E1 & _).
    gm_step E1. destruct (applied <? targetIndex p)%N; [apply Hb|]. unfold mbind at 1, GM_bind at 1, addVoter.
    destruct (AddVoter id addr i (raft n1)) as [[e|k] r]; [done|apply Hb].
  - cbv beta iota. simpl. unfold mbind at 1, GM_bind at 1, addNonvoter.
    destruct (AddNonvoter id addr i (raft n)) as [[e|k] r]; [done|]. apply Hb.
Qed.

Lemma join_core_reports id addr applied c o c' :
  JoinClusterWithProgress clock id addr applied c = (o, c') →
  match o with
  | Ok info => Forall2 describes (config_of c') (Members info)
  | Err ErrRaftNotEnabled => c' = c ∧ raftNode c = None
  | Err (NotLeaderError la) => c' = c ∧ la = leaderAdminAddr c
  | _ => True
  end.
Proof.
  unfold JoinClusterWithProgress. rewrite gm_bind_getS. intros E.
  destruct (raftNode c) as [n|] eqn:Hn; [|by injection E as <- <-].
  destruct (raft_leads (raft n)); [|by injection E as <- <-]. simpl in E.
  case_match; [by injection E as <- <-|]. unfold on_raftNode in E.
  pose proof (joinMember_reports (leaderAdminAddr c) (TrimSpace id) (TrimSpace addr) applied n) as Hj.
  destruct (joinMember clock _ _ _ applied n) as [o' n'] eqn:Ej. injection E as <- <-.
  by destruct o' as [info|[]| |].
Qed.

Lemma info_core_effect c o c' : buildClusterInfo clock c = (o, c') →
  config_of c' = config_of c ∧ grows (progress_of c) (progress_of c').
Proof.
  unfold buildClusterInfo. rewrite gm_bind_getS. intros E. unfold config_of, progress_of.
  destruct (raftNode c) as [n|] eqn:Hn; [|injection E as <- <-; by rewrite Hn].
  unfold on_raftNode in E. destruct (buildClusterInfoForNode clock _ n) as [o' n'] eqn:Eb.
  injection E as <- <-. apply build_grows in Eb as [Hr Hg]. simpl. by rewrite Hr.
Qed.

Lemma effect_unique id addr applied n n' :
  NoDup (ID <$> servers (raft n)) → NoDup (Address <$> servers (raft n)) →
  join_effect id addr applied n n' →
  NoDup (ID <$> servers (raft n')) ∧ NoDup (Address <$> servers (raft n')).
Proof.
  intros Hi Ha [Hs _|m _ _ _ Hr _|Hn Hs _|m Hm <- <- _ _ Hs _].
  - by rewrite Hs.
  - by rewrite Hr.
  - rewrite Hs, !fmap_app. split; apply NoDup_app; (split; [done|]); (split; [|apply NoDup_singleton]);
      intros x Hx%list_elem_of_fmap Hx'; apply list_elem_of_singleton in Hx';
      destruct Hx as (s & -> & Hx); apply Hn in Hx as [? ?]; simpl in *; congruence.
  - rewrite Hs. destruct (with_voter_names m _ Hi Hm) as [-> ->]. done.
Qed.

Lemma step_unique c c' : mstep c c' → unique_members c → unique_members c'.
Proof.
  unfold unique_members. intros [id addr applied ? o c1 E|? o c1 E|n r la la' Hs] [Hi Ha].
  - apply join_core_effect in E as [->|(n & n' & Hn & Hn' & _ & He)]; [done|].
    unfold config_of in *. rewrite Hn in Hi, Ha. rewrite Hn'. by eapply effect_unique.
  - apply info_core_effect in E as [-> _]. done.
  - unfold config_of in *. simpl in *. by rewrite Hs.
Qed.

Lemma step_voter id c c' : mstep c c' → is_voter id c → is_voter id c'.
Proof.
  unfold is_voter, config_of. intros [id' addr applied ? o c1 E|? o c1 E|n r la la' Hs] (s & Hin & Hid & Hv).
  - apply join_core_effect in E as [->|(n & n' & Hn & Hn' & _ & He)]; [by exists s|].
    rewrite Hn in Hin. rewrite Hn'. simpl in *.
    destruct He as [Hs _|m _ _ _ Hr _|_ Hs _|m _ _ _ _ _ Hs _]; [exists s; by rewrite Hs|
      exists s; by rewrite Hr|exists s; rewrite Hs; set_solver|].
    destruct (decide (ID s = TrimSpace id')) as [He|He].
    + eexists. rewrite Hs. split; [apply with_voter_in|]. simpl. split; congruence.
    + exists s. rewrite Hs. split; [by apply with_voter_keeps|done].
  - apply info_core_effect in E as [Hc _]. unfold config_of in Hc. exists s. by rewrite Hc.
  - exists s. simpl in *. by rewrite Hs.
Qed.

Lemma step_progress c c' id p : mstep c c' → progress_of c !! id = Some p →
  is_voter id c' ∨ ∃ p', progress_of c' !! id = Some p' ∧
    targetIndex p' = targetIndex p ∧ (appliedIndex p ≤ appliedIndex p')%N.
Proof.
  assert (Hdel : ∀ id' P P', grows (delete id' P) P' → P !! id = Some p → id ≠ id' →
    ∃ p', P' !! id = Some p' ∧ targetIndex p' = targetIndex p ∧ (appliedIndex p ≤ appliedIndex p')%N).
  { intros id' P P' Hg Hp Hne. apply Hg. by rewrite lookup_delete_ne. }
  unfold is_voter, progress_of, config_of.
  intros [id' addr applied ? o c1 E|? o c1 E|n r la la' Hs] Hp.
  - apply join_core_effect in E as [->|(n & n' & Hn & Hn' & _ & He)].
    { right. exists p. split_and!; [done|done|lia]. }
    rewrite Hn in Hp. rewrite Hn'. simpl in *.
    destruct He as [_ Hg|m Hm Hid Hv Hr Hg|_ _ Hg|m _ _ _ _ _ Hs Hg]; [by right; apply Hg| |by right; apply Hg|].
    + destruct (decide (id = TrimSpace id')) as [->|Hne]; [left|right; by eapply Hdel].
      exists m. by rewrite Hr.
    + destruct (decide (id = TrimSpace id')) as [->|Hne]; [left|right; by eapply Hdel].
      eexists. rewrite Hs. split; [apply with_voter_in|done].
  - right. apply info_core_effect in E as [_ Hg]. by apply Hg.
  - right. exists p. split_and!; [done|done|lia].
Qed.
End runs.

(** ** Theorems *)
Section theorems.
Context {R : Type} `{MembershipLaws R} (clock : nat → Z).
Implicit Types (c : Core R) (n : RaftNode R).

(** C9.  No vote before catch-up.  After a join request, whatever its outcome,
    a voter of the configuration was one of its servers as it is before, or it
    is the member of the request: it was registered without a vote at the
    requested address, and the index it reports to have applied has reached its
    frozen target (the leader's applied index if none was recorded). *)
Theorem voter_only_after_catchup id addr applied c n o c' s :
  JoinClusterWithProgress clock id addr applied c = (o, c') → raftNode c = Some n →
  s ∈ config_of c' → suffrage s = Voter →
  s ∈ config_of c ∨
  (s = mkServer Voter (TrimSpace id) (TrimSpace addr) ∧ raft_leads (raft n) = true ∧
   (∃ m, m ∈ config_of c ∧ ID m = ID s ∧ Address m = Address s ∧ suffrage m ≠ Voter) ∧
   (target_of (ID s) n ≤ applied)%N).
Proof.
  intros E Hn Hs Hv. apply join_core_effect in E as [->|(n1 & n' & Hn1 & Hn' & Hl & He)]; [by left|].
  rewrite Hn in Hn1. injection Hn1 as <-. unfold config_of in *. rewrite Hn, Hn' in *. simpl in *.
  destruct He as [He _|m _ _ _ He _|_ He _|m Hm Hid Ha Hnv Ht He _]; rewrite He in Hs; [by left|by left| |].
  - apply elem_of_app in Hs as [Hs|Hs]; [by left|]. apply list_elem_of_singleton in Hs as ->. done.
  - apply with_voter_elem in Hs as [Hs| ->]; [by left|]. right. simpl. split_and!; try done.
    exists m. by split_and!.
Qed.

(**  Identities and addresses stay unique.  Along every run of join
    requests, queries and moves of the library, a configuration in which no ID
    and no address occurs twice stays one. *)
Lemma members_stay_unique c c' : rtc (mstep clock) c c' → unique_members c → unique_members c'.
Proof. induction 1; eauto using step_unique. Qed.

(** C23.  The catch-up target is frozen.  Along every such run, a member with a
    progress record keeps its target, and the applied index it has reported
    never decreases, until the member is a voter. *)
Theorem target_frozen c c' id p : rtc (mstep clock) c c' → progress_of c !! id = Some p →
  is_voter id c' ∨ ∃ p', progress_of c' !! id = Some p' ∧
    targetIndex p' = targetIndex p ∧ (appliedIndex p ≤ appliedIndex p')%N.
Proof.
  intros Hr. revert p. induction Hr as [c|c1 c2 c3 H12 H23 IH]; intros p Hp.
  { right. exists p. split_and!; [done|done|lia]. }
  destruct (step_progress clock c1 c2 id p H12 Hp) as [Hv|(p2 & Hp2 & Ht & Ha)].
  - left. clear IH Hp p H12. induction H23; eauto using step_voter.
  - destruct (IH p2 Hp2) as [Hv|(p3 & Hp3 & Ht3 & Ha3)]; [by left|right].
    exists p3. split_and!; [done|congruence|lia].
Qed.

(** Conflicting registrations are refused.  A request that names the ID of
    a member at another address, or the address of another member, fails and
    changes nothing. *)
Lemma conflicting_join_refused id addr applied c n i s :
  raftNode c = Some n → raft_leads (raft n) = true →
  GetConfiguration (raft n) = inr (servers (raft n), i) → unique_members c →
  TrimSpace id ≠ [] → TrimSpace addr ≠ [] → s ∈ config_of c →
  (ID s = TrimSpace id ∧ Address s ≠ TrimSpace addr ∨ ID s ≠ TrimSpace id ∧ Address s = TrimSpace addr) →
  ∃ e, JoinClusterWithProgress clock id addr applied c = (Err e, c).
Proof.
  intros Hn Hl Hg [Hi Ha] Hid Haddr Hs Hc. unfold JoinClusterWithProgress. rewrite gm_bind_getS, Hn, Hl.
  rewrite !bool_decide_false by done. simpl. unfold on_raftNode, joinMember, validateJoiningMember.
  assert (Hf : ∃ e, findMember (TrimSpace id) (TrimSpace addr) (servers (raft n)) = inl e).
  { pose proof (findMember_spec (TrimSpace id) (TrimSpace addr) (servers (raft n))) as Hf.
    unfold config_of in *. rewrite Hn in *. simpl in *.
    destruct (findMember _ _ _) as [e|[m|]]; [by eexists| |naive_solver].
    destruct Hf as (Hm & Hmi & Hma). exfalso. destruct Hc as [[H1 H2]|[H1 H2]].
    - assert (s = m) as ->; [|congruence]. by eapply (NoDup_fmap_elem ID); [..|congruence].
    - assert (s = m) as ->; [|congruence]. by eapply (NoDup_fmap_elem Address); [..|congruence]. }
  destruct Hf as [e Hf]. exists e. unfold mbind, GM_bind, getS. simpl. rewrite Hg, Hf. simpl.
  f_equal. destruct c. simpl in *. by rewrite Hn.
Qed.

(** A member that has caught up is promoted.  When a registered non-voter
    reports an index that reaches its target and the library accepts the change,
    the request ends with the member as a voter of the configuration. *)
Lemma caught_up_promoted id addr applied c n i m :
  raftNode c = Some n → raft_leads (raft n) = true →
  GetConfiguration (raft n) = inr (servers (raft n), i) → unique_members c →
  m ∈ config_of c → suffrage m ≠ Voter → ID m = TrimSpace id → Address m = TrimSpace addr →
  ID m ≠ [] → Address m ≠ [] → (target_of (ID m) n ≤ applied)%N →
  (∀ r, ∃ k, fst (AddVoter (ID m) (Address m) r (raft n)) = inr k) →
  is_voter (ID m) (snd (JoinClusterWithProgress clock id addr applied c)).
Proof.
  intros Hn Hl Hg Hu Hm Hnv Hid Haddr Hne1 Hne2 Ht Hav.
  unfold JoinClusterWithProgress. rewrite gm_bind_getS, Hn, Hl. rewrite <- Hid, <- Haddr.
  rewrite !bool_decide_false by done. simpl. unfold on_raftNode, joinMember, validateJoiningMember.
  unfold config_of, unique_members in *. unfold config_of in Hu. rewrite Hn in *. simpl in Hm, Hu.
  assert (findMember (ID m) (Address m) (servers (raft n)) = inr (Some m)) as Hf.
  { by apply findMember_unique. }
  unfold mbind at 1, GM_bind at 1. rewrite gm_bind_getS, Hg, Hf. cbv beta iota. simpl.
  rewrite decide_False by done. unfold mbind at 1, GM_bind at 1, Now at 1.
  set (n0 := mkRaftNode _ _ _).
  destruct (recordJoinProgress_spec (ID m) 0 applied (clock (ticks n)) n0) as (p & n1 & E1 & Hr1 & _ & Hp).
  specialize (Hp eq_refl). change (target_of (ID m) n0) with (target_of (ID m) n) in Hp.
  gm_step E1. rewrite (proj2 (N.ltb_ge _ _)) by lia.
  unfold mbind at 1, GM_bind at 1, addVoter. rewrite Hr1. change (raft n0) with (raft n).
  destruct (AddVoter (ID m) (Address m) i (raft n)) as [res r] eqn:Ea.
  destruct (Hav i) as [k Hk]. rewrite Ea in Hk. simpl in Hk. subst res.
  apply AddVoter_law in Ea as [Hs|[_ [e ?]]]; [|done]. unfold clearJoinProgress. rewrite gm_bind_modifyS.
  destruct (buildClusterInfoForNode clock (leaderAdminAddr c) _) as [o n'] eqn:Eb.
  apply build_grows in Eb as [Hr _]. exists (mkServer Voter (ID m) (Address m)). unfold config_of. simpl.
  rewrite Hr. simpl. rewrite Hs. split; [apply with_voter_in|done].
Qed.

(** The admin service reports the configuration.  A call answered with
    [SUCCESS] lists the servers of the configuration the call leaves, in its
    order, each with its ID, address and role; a call answered with
    [NOT_LEADER] or [RAFT_NOT_ENABLED] has changed nothing, and the former hands
    out the recorded address of the leader. *)
Lemma rpc_reports_configuration req c resp c' :
  Admin.JoinClusterRPC clock req c = (Ok resp, c') →
  match Admin.code resp with
  | Admin.SUCCESS =>
      Forall2 (λ srv pm, Admin.node_id pm = ID srv ∧ Admin.addr pm = Address srv ∧
                         Admin.role pm = Admin.toProtoRole (roleFromSuffrage (suffrage srv)))
              (config_of c') (Admin.members (Admin.cluster resp))
  | Admin.NOT_LEADER => c' = c ∧ Admin.leader_admin_addr (Admin.cluster resp) = leaderAdminAddr c
  | Admin.RAFT_NOT_ENABLED => c' = c ∧ raftNode c = None
  end.
Proof.
  unfold Admin.JoinClusterRPC. case_match; [done|]. intros E.
  destruct (JoinClusterWithProgress clock _ _ _ c) as [o c1] eqn:Ej. apply join_core_reports in Ej.
  destruct o as [info|[]| |]; try done; injection E as <- <-; simpl; [|naive_solver..].
  apply Forall2_fmap_r. eapply Forall2_impl; [exact Ej|]. intros srv m (? & ? & Hr). simpl. by rewrite Hr.
Qed.
End theorems.

(** ** Witnesses

    A leader whose configuration changes take effect at once. *)
Module Local.
Record Raft := mkRaft { conf : list Server; index : N }.

#[export] Instance Local_lib : MembershipLib Raft := {|
  raft_leads _ := true;
  GetConfiguration r := inr (conf r, index r);
  AddNonvoter id addr _ r :=
    (inr (N.succ (index r)), mkRaft (with_nonvoter id addr (conf r)) (N.succ (index r)));
  AddVoter id addr _ r :=
    (inr (N.succ (index r)), mkRaft (with_voter id addr (conf r)) (N.succ (index r)));
  AppliedIndex r := index r;
  LeaderWithID _ := (§"host:1", §"a");
|}.

#[export] Instance Local_laws : MembershipLaws Raft.
Proof.
  refine {| servers := conf |}.
  - by intros r c i [= <- _].
  - intros id addr prev r res r' [= <- <-]. by left.
  - intros id addr prev r res r' [= <- <-]. by left.
Defined.

Definition clock (t : nat) : Z := Z.of_nat t.

(** Node "a" votes, node "b" joins with target 7 and has reported index 3. *)
Definition joining : RaftNode Raft :=
  mkRaftNode (mkRaft [mkServer Voter §"a" §"host:1"; mkServer Nonvoter §"b" §"host:2"] 9)
             {[ §"b" := mkProgress 7 3 0 ]} 0.
Definition core : Core Raft := mkCore (Some joining) [].

Lemma core_unique : unique_members core.
Proof. split; apply (bool_decide_unpack _); vm_compute; exact I. Qed.

Definition join_b (applied : N) := JoinClusterWithProgress clock §"b" §"host:2" applied core.

Lemma join_b_eq applied : join_b applied = (fst (join_b applied), snd (join_b applied)).
Proof. apply surjective_pairing. Qed.

Lemma voter_only_after_catchup_witness :
  let s := mkServer Voter §"b" §"host:2" in
  s ∈ config_of core ∨
  (s = mkServer Voter (TrimSpace §"b") (TrimSpace §"host:2") ∧ raft_leads (raft joining) = true ∧
   (∃ m, m ∈ config_of core ∧ ID m = ID s ∧ Address m = Address s ∧ suffrage m ≠ Voter) ∧
   (target_of (ID s) joining ≤ 8)%N).
Proof.
  apply (voter_only_after_catchup clock §"b" §"host:2" 8 core joining (fst (join_b 8)) (snd (join_b 8))).
  - apply join_b_eq.
  - reflexivity.
  - apply (bool_decide_unpack _). vm_compute. exact I.
  - reflexivity.
Defined.

Lemma join_b_step applied : mstep clock core (snd (join_b applied)).
Proof. eapply step_join. apply join_b_eq. Qed.

Lemma members_stay_unique_witness : unique_members (snd (join_b 5)).
Proof.
  apply (members_stay_unique clock core); [apply rtc_once, join_b_step | exact core_unique].
Defined.

Lemma target_frozen_witness :
  is_voter §"b" (snd (join_b 5)) ∨ ∃ p', progress_of (snd (join_b 5)) !! §"b" = Some p' ∧
    targetIndex p' = 7%N ∧ (3 ≤ appliedIndex p')%N.
Proof.
  apply (target_frozen clock core (snd (join_b 5)) §"b" (mkProgress 7 3 0)).
  - apply rtc_once, join_b_step.
  - vm_compute. reflexivity.
Defined.

Definition request : Admin.JoinClusterRequest := Admin.mkRequest §" b " §"host:2" 7.
End Local.
