(* ===== verification/Config.v ===== *)
(** * Configuration and paths (src/core/config.go, src/core/raft_storage.go)

    The configuration record with its accessors, the path functions of
    [path/filepath] on Unix, and the directories a node keeps its files in. *)

From S2P Require Import Prelude GoLib.

(** ** [filepath] on Unix *)
Module Path.

Definition sep : ascii := "/"%char.

(** The elements between the separators. *)
Fixpoint split (s : gostring) : list gostring :=
  match s with
  | [] => [[]]
  | c :: s' =>
      if bool_decide (c = sep) then [] :: split s'
      else match split s' with
           | x :: xs => (c :: x) :: xs
           | [] => [[c]]
           end
  end.

Fixpoint render (l : list gostring) : gostring :=
  match l with
  | [] => []
  | [x] => x
  | x :: l' => x ++ sep :: render l'
  end.

(** One element of a path, on the stack of the elements kept so far (innermost
    first): the empty element and "." vanish, ".." removes the element before
    it, stays at the front of a relative path and vanishes at the root. *)
Definition clean_step (rooted : bool) (stack : list gostring) (x : gostring) : list gostring :=
  if bool_decide (x = []) || bool_decide (x = §".") then stack
  else if bool_decide (x = §"..") then
    match stack with
    | [] => if rooted then [] else [x]
    | y :: stack' => if bool_decide (y = §"..") then x :: stack else stack'
    end
  else x :: stack.

Definition is_rooted (s : gostring) : bool :=
  match s with c :: _ => bool_decide (c = sep) | [] => false end.

Definition finish (rooted : bool) (stack : list gostring) : gostring :=
  let body := render (rev stack) in
  if rooted then sep :: body else if bool_decide (body = []) then §"." else body.

Definition Clean (s : gostring) : gostring :=
  finish (is_rooted s) (fold_left (clean_step (is_rooted s)) (split s) []).

(** [filepath.Join]: the empty elements are ignored. *)
Definition Join (elems : list gostring) : gostring :=
  match filter (λ e, e ≠ []) elems with
  | [] => []
  | es => Clean (render es)
  end.

(** [filepath.Base]: the last element, without trailing separators. *)
Fixpoint strip_seps (r : gostring) : gostring :=
  match r with
  | c :: r' => if bool_decide (c = sep) then strip_seps r' else r
  | [] => []
  end.
Fixpoint upto_sep (r : gostring) : gostring :=
  match r with
  | c :: r' => if bool_decide (c = sep) then [] else c :: upto_sep r'
  | [] => []
  end.
Definition Base (s : gostring) : gostring :=
  match s with
  | [] => §"."
  | _ => match rev (upto_sep (strip_seps (rev s))) with
         | [] => §"/"
         | b => b
         end
  end.

(** [filepath.Dir]: the path up to its last separator, cleaned. *)
Fixpoint from_sep (r : gostring) : gostring :=
  match r with
  | c :: r' => if bool_decide (c = sep) then r else from_sep r'
  | [] => []
  end.
Definition Dir (s : gostring) : gostring := Clean (rev (from_sep (rev s))).

(** An element that names a directory entry. *)
Definition plain (x : gostring) : Prop := x ≠ [] ∧ x ≠ §"." ∧ x ≠ §".." ∧ sep ∉ x.

Lemma split_nonempty s : split s ≠ [].
Proof. destruct s; simpl; [done|]. case_bool_decide; [done|]. by case_match. Qed.

Lemma split_app s t : split (s ++ sep :: t) = split s ++ split t.
Proof.
  induction s as [|c s IH]; simpl; [done|].
  case_bool_decide; rewrite IH; [done|].
  pose proof (split_nonempty s). by destruct (split s).
Qed.

Lemma split_plain x : sep ∉ x → split x = [x].
Proof.
  induction x as [|c x IH]; intros Hx; [done|]. simpl.
  rewrite bool_decide_false by set_solver. by rewrite IH by set_solver.
Qed.

Lemma clean_step_plain rooted stack x : plain x → clean_step rooted stack x = x :: stack.
Proof. intros (? & ? & ? & _). unfold clean_step. by rewrite !bool_decide_false. Qed.

Lemma render_snoc l x : l ≠ [] → render (l ++ [x]) = render l ++ sep :: x.
Proof.
  induction l as [|y l IH]; [done|]. intros _. destruct l as [|z l]; [done|].
  cbn [app render]. rewrite <- app_assoc. simpl. do 2 f_equal. apply IH. done.
Qed.

Lemma render_nonempty l x : x ≠ [] → render (l ++ [x]) ≠ [].
Proof. intros Hx. destruct l as [|y l]; [done|]. rewrite render_snoc by done. by destruct (render _). Qed.

(** Cleaning a path that ends in two plain elements keeps them at its end. *)
Lemma Clean_snoc d x y : d ≠ [] → plain x → plain y →
  Clean (d ++ sep :: x ++ sep :: y) = Clean (d ++ sep :: x) ++ sep :: y.
Proof.
  intros Hd Hx Hy. unfold Clean.
  assert (is_rooted (d ++ sep :: x ++ sep :: y) = is_rooted d) as -> by by destruct d.
  assert (is_rooted (d ++ sep :: x) = is_rooted d) as -> by by destruct d.
  rewrite !split_app, (split_plain x), (split_plain y) by apply Hx || apply Hy.
  rewrite !fold_left_app. simpl. rewrite !(clean_step_plain _ _ x) by done.
  rewrite clean_step_plain by done. set (st := fold_left _ _ _).
  unfold finish. simpl. rewrite render_snoc by (by destruct (rev st)).
  rewrite (bool_decide_false (render (rev st ++ [x]) = [])) by (apply render_nonempty, Hx).
  rewrite bool_decide_false by (by destruct (render (rev st ++ [x]))).
  by destruct (is_rooted d).
Qed.

(** [Base x = x] holds of the names without separators, besides the root. *)
Lemma upto_sep_nosep r : sep ∉ upto_sep r.
Proof.
  induction r as [|c r IH]; simpl; [set_solver|]. case_bool_decide; set_solver.
Qed.

Lemma Base_fix x : Base x = x → x ≠ §"/" → sep ∉ x.
Proof.
  unfold Base. destruct x as [|c x]; [by intros|].
  pose proof (upto_sep_nosep (strip_seps (rev (c :: x)))) as Hn.
  destruct (rev (upto_sep (strip_seps (rev (c :: x))))) as [|b bs] eqn:E; intros Hb Hne.
  - by symmetry in Hb.
  - rewrite <- Hb, <- E. by rewrite list_elem_of_In, <- in_rev, <- list_elem_of_In.
Qed.

(** *** Entries of an absolute directory *)
Lemma split_render l : l ≠ [] → Forall (λ x, sep ∉ x) l → split (render l) = l.
Proof.
  induction l as [|x l IH]; [done|]. intros _ [Hx Hl]%Forall_cons. destruct l as [|y l]; [by apply split_plain|].
  change (render (x :: y :: l)) with (x ++ sep :: render (y :: l)).
  rewrite split_app, split_plain by done. by rewrite IH.
Qed.

Lemma clean_steps_plain rooted l stack : Forall plain l →
  fold_left (clean_step rooted) l stack = rev l ++ stack.
Proof.
  revert stack. induction l as [|x l IH]; intros stack; [done|]. intros [Hx Hl]%Forall_cons. simpl.
  rewrite clean_step_plain, IH by done. by rewrite <- app_assoc.
Qed.

Lemma split_nosep s : Forall (λ x, sep ∉ x) (split s).
Proof.
  induction s as [|c s IH]; simpl; [repeat constructor; set_solver|].
  case_bool_decide; [constructor; [set_solver|done]|].
  destruct (split s); [repeat constructor; set_solver|]. apply Forall_cons in IH as [? ?].
  constructor; [set_solver|done].
Qed.

(** What cleaning an absolute path keeps are names of entries. *)
Lemma clean_step_entries stack x : sep ∉ x → Forall plain stack → Forall plain (clean_step true stack x).
Proof.
  intros Hx Hs. unfold clean_step. case_bool_decide; [done|]. case_bool_decide; [done|]. simpl.
  case_bool_decide; [|by constructor]. destruct stack as [|y stack]; [done|].
  apply Forall_cons in Hs as [Hy Hs]. case_bool_decide; [|done]. subst. by destruct Hy as (_ & _ & ? & _).
Qed.

Lemma clean_entries l stack : Forall (λ x, sep ∉ x) l → Forall plain stack →
  Forall plain (fold_left (clean_step true) l stack).
Proof.
  revert stack. induction l as [|x l IH]; intros stack; [done|]. intros [Hx Hl]%Forall_cons Hs. simpl.
  apply IH; [done|]. by apply clean_step_entries.
Qed.

Lemma Clean_rooted s : is_rooted s = true →
  ∃ l, Forall plain l ∧ Clean s = sep :: render l ∧
    ∀ x, plain x → Clean (s ++ sep :: x) = sep :: render (l ++ [x]).
Proof.
  intros Hr. set (st := fold_left (clean_step true) (split s) []). exists (rev st). split_and!.
  - apply Forall_rev, clean_entries; [apply split_nosep|done].
  - unfold Clean. by rewrite Hr.
  - intros x Hx. unfold Clean. assert (is_rooted (s ++ sep :: x) = true) as -> by by destruct s.
    rewrite split_app, (split_plain x), fold_left_app by apply Hx. simpl. by rewrite clean_step_plain.
Qed.

Lemma Clean_entries l : Forall plain l → Clean (sep :: render l ++ [sep]) = sep :: render l.
Proof.
  intros Hl. unfold Clean. cbn [is_rooted]. rewrite bool_decide_true by done.
  assert (Hn : Forall (λ x, sep ∉ x) l) by (eapply Forall_impl; [done|]; by intros x (_ & _ & _ & ?)).
  change (sep :: render l ++ [sep]) with ([] ++ sep :: (render l ++ [sep])). rewrite split_app.
  rewrite (split_app (render l) []). destruct l as [|x l]; [done|].
  rewrite split_render, !fold_left_app, (clean_steps_plain _ (x :: l)) by done.
  change (finish true (rev (x :: l) ++ []) = sep :: render (x :: l)).
  unfold finish. by rewrite app_nil_r, rev_involutive.
Qed.

Lemma upto_sep_app x r : sep ∉ x → upto_sep (x ++ sep :: r) = x.
Proof.
  induction x as [|c x IH]; intros Hx; simpl; [done|]. rewrite bool_decide_false by set_solver.
  by rewrite IH by set_solver.
Qed.

Lemma from_sep_app x r : sep ∉ x → from_sep (x ++ sep :: r) = sep :: r.
Proof.
  induction x as [|c x IH]; intros Hx; simpl; [done|]. rewrite bool_decide_false by set_solver.
  apply IH. set_solver.
Qed.

(** [Dir] and [Base] take an entry of an absolute directory apart. *)
Lemma Dir_Base_entry s x : is_rooted s = true → plain x →
  Dir (Clean (s ++ sep :: x)) = Clean s ∧ Base (Clean (s ++ sep :: x)) = x.
Proof.
  intros Hr Hx. destruct (Clean_rooted s Hr) as (l & Hl & Hs & Hc). rewrite (Hc x Hx), Hs.
  assert (∃ d, sep :: render (l ++ [x]) = d ++ sep :: x ∧ Clean (d ++ [sep]) = sep :: render l) as (d & -> & Hd).
  { destruct l as [|y l]; [by exists []|]. exists (sep :: render (y :: l)).
    rewrite render_snoc by done. split; [done|]. by apply Clean_entries. }
  assert (Hn : sep ∉ rev x) by (rewrite list_elem_of_In, <- in_rev, <- list_elem_of_In; apply Hx).
  assert (Hrev : rev (d ++ sep :: x) = rev x ++ sep :: rev d)
    by (rewrite rev_app_distr; cbn [rev]; by rewrite <- app_assoc).
  split.
  - unfold Dir. rewrite Hrev, from_sep_app by done. cbn [rev]. by rewrite rev_involutive.
  - unfold Base. destruct (d ++ sep :: x) as [|c t] eqn:E; [by destruct d|]. rewrite Hrev.
    assert (∀ r, strip_seps (rev x ++ r) = rev x ++ r) as ->.
    { intros r. destruct (rev x) as [|c' r'] eqn:Er.
      - apply (f_equal (@rev ascii)) in Er. rewrite rev_involutive in Er. exfalso. by apply (proj1 Hx).
      - cbn [app strip_seps]. rewrite bool_decide_false; [done|]. set_solver. }
    rewrite upto_sep_app, rev_involutive by done. destruct x; [|done]. exfalso. by apply (proj1 Hx).
Qed.
End Path.

(** ** The configuration *)
Record Config := mkConfig {
  EnableRaft : bool;
  Bootstrap : bool;
  raftID : gostring;
  RaftAddr : gostring;
  RaftAdvertiseAddr : gostring;
  JoinAddr : gostring;
  AdminAddr : gostring;
  ListenAddr : gostring;
  dataDir : gostring;
  maxmemory : gostring;
  LogRequests : bool;
}.

(** The values of the command line flags after [flag.Parse()]. *)
Record Flags := mkFlags {
  flag_enable_raft : bool;
  flag_bootstrap : bool;
  flag_raft_id : gostring;
  flag_raft_addr : gostring;
  flag_raft_advertise_addr : gostring;
  flag_join : gostring;
  flag_admin_addr : gostring;
  flag_addr : gostring;
  flag_data_dir : gostring;
  flag_maxmemory : gostring;
  flag_log_requests : bool;
}.

(** The flags of a command line without arguments. *)
Definition default_flags : Flags :=
  mkFlags false false [] §":7000" [] [] §":50051" §":6379" [] [] true.

Definition InitDBConfig (f : Flags) : Config :=
  mkConfig (flag_enable_raft f) (flag_bootstrap f) (TrimSpace (flag_raft_id f))
    (TrimSpace (flag_raft_addr f)) (TrimSpace (flag_raft_advertise_addr f)) (TrimSpace (flag_join f))
    (TrimSpace (flag_admin_addr f)) (TrimSpace (flag_addr f)) (TrimSpace (flag_data_dir f))
    (TrimSpace (flag_maxmemory f)) (flag_log_requests f).

Definition getDefaultDataDir : gostring := §"/var/lib/skiffdb".

Definition GetDataDir (c : Config) : gostring :=
  if bool_decide (dataDir c = []) then getDefaultDataDir else dataDir c.

Definition GetRaftId (c : Config) : gostring := TrimSpace (raftID c).

Definition setRaftID (nodeID : gostring) (c : Config) : Config :=
  mkConfig (EnableRaft c) (Bootstrap c) (TrimSpace nodeID) (RaftAddr c) (RaftAdvertiseAddr c)
    (JoinAddr c) (AdminAddr c) (ListenAddr c) (dataDir c) (maxmemory c) (LogRequests c).

Definition GetRaftAdvertiseAddr (c : Config) : gostring :=
  let advertised := TrimSpace (RaftAdvertiseAddr c) in
  if bool_decide (advertised ≠ []) then advertised else TrimSpace (RaftAddr c).

(** [config.RaftAdvertiseAddr = addr] and [config.JoinAddr = addr] *)
Definition set_advertise (addr : gostring) (c : Config) : Config :=
  mkConfig (EnableRaft c) (Bootstrap c) (raftID c) (RaftAddr c) addr
    (JoinAddr c) (AdminAddr c) (ListenAddr c) (dataDir c) (maxmemory c) (LogRequests c).
Definition set_join (addr : gostring) (c : Config) : Config :=
  mkConfig (EnableRaft c) (Bootstrap c) (raftID c) (RaftAddr c) (RaftAdvertiseAddr c)
    addr (AdminAddr c) (ListenAddr c) (dataDir c) (maxmemory c) (LogRequests c).

(** ** The directories of a node *)
Inductive DirError := ErrConfigRequired | ErrRaftIDRequired | ErrInvalidRaftID (id : gostring).

Definition raftNodeDataDir (config : option Config) : DirError + gostring :=
  match config with
  | None => inl ErrConfigRequired
  | Some config =>
      let nodeID := GetRaftId config in
      if bool_decide (nodeID = []) then inl ErrRaftIDRequired
      else if bool_decide (nodeID = §".") || bool_decide (nodeID = §"..")
              || bool_decide (Path.Base nodeID ≠ nodeID) || Contains nodeID §"\"
      then inl (ErrInvalidRaftID nodeID)
      else inr (Path.Join [GetDataDir config; §"raft"; nodeID])
  end.

Definition raftRoot (c : Config) : gostring := Path.Join [GetDataDir c; §"raft"].

Definition raftIdentityFilename : gostring := §"node.json".

Definition raftIdentityPath (c : Config) : gostring :=
  Path.Join [GetDataDir c; §"raft"; raftIdentityFilename].

Lemma GetDataDir_nonempty c : GetDataDir c ≠ [].
Proof. unfold GetDataDir. by case_bool_decide. Qed.

Lemma plain_raft : Path.plain §"raft".
Proof. by split_and!; [..|apply (bool_decide_unpack _)]. Qed.

(** A plain name under the root. *)
Lemma Join_raft c x : Path.plain x → Path.Join [GetDataDir c; §"raft"; x] = raftRoot c ++ Path.sep :: x.
Proof.
  intros Hx. unfold raftRoot, Path.Join. pose proof (GetDataDir_nonempty c) as Hd.
  assert (Hx' : x ≠ []) by apply Hx.
  rewrite !filter_cons, !decide_True by done. rewrite filter_nil. cbn [Path.render].
  apply Path.Clean_snoc; [done|apply plain_raft|done].
Qed.

Lemma app_cons_inj {A} (l : list A) x y k : l ++ k :: x = l ++ k :: y → x = y.
Proof. intros E%app_inv_head. by injection E. Qed.

Section theorems.
Implicit Types c : Config.

(** A node's directory lies inside the Raft directory.  When
    [raftNodeDataDir] accepts an ID other than "/", the directory is the Raft
    directory of the data directory followed by one separator and the ID, which
    is a plain name: it cannot climb out of the Raft directory, and two nodes
    with different IDs never share a directory. *)
Lemma node_dir_confined c d : raftNodeDataDir (Some c) = inr d → GetRaftId c ≠ §"/" →
  d = raftRoot c ++ Path.sep :: GetRaftId c ∧ Path.plain (GetRaftId c) ∧
  ∀ c2 d2, raftNodeDataDir (Some c2) = inr d2 → GetRaftId c2 ≠ §"/" → GetDataDir c2 = GetDataDir c →
           d2 = d → GetRaftId c2 = GetRaftId c.
Proof.
  assert (Hin : ∀ c0 d0, raftNodeDataDir (Some c0) = inr d0 → GetRaftId c0 ≠ §"/" →
    d0 = raftRoot c0 ++ Path.sep :: GetRaftId c0 ∧ Path.plain (GetRaftId c0)).
  { intros c0 d0 E Hs. unfold raftNodeDataDir in E.
    destruct (bool_decide (GetRaftId c0 = [])) eqn:H0; [done|].
    destruct (bool_decide (GetRaftId c0 = §".")) eqn:H1; [done|].
    destruct (bool_decide (GetRaftId c0 = §"..")) eqn:H2; [done|].
    destruct (bool_decide (Path.Base (GetRaftId c0) ≠ GetRaftId c0)) eqn:H3; [done|].
    destruct (Contains (GetRaftId c0) §"\"); [done|].
    rewrite bool_decide_eq_false in H0, H1, H2, H3. apply dec_stable in H3.
    assert (Hp : Path.plain (GetRaftId c0)) by (split_and!; [done..|by apply Path.Base_fix]).
    injection E as <-. split; [by apply Join_raft|done]. }
  intros E Hs. destruct (Hin c d E Hs) as [-> Hp]. split_and!; [done|done|].
  intros c2 d2 E2 Hs2 Hd2 He. destruct (Hin c2 d2 E2 Hs2) as [-> _].
  assert (Hr : raftRoot c2 = raftRoot c) by (unfold raftRoot; by rewrite Hd2).
  rewrite Hr in He. by apply app_cons_inj in He.
Qed.

(** Two IDs that are accepted although they should not be.  The ID "/"
    passes the check against path separators and makes the shared Raft
    directory itself the node's directory, and the ID "node.json" makes the
    path of the identity file the node's directory. *)
Lemma accepted_collisions c :
  (raftID c = §"/" → raftNodeDataDir (Some c) = inr (raftRoot c)) ∧
  (raftID c = raftIdentityFilename → raftNodeDataDir (Some c) = inr (raftIdentityPath c)).
Proof.
  split; intros Hid; unfold raftNodeDataDir, GetRaftId; rewrite Hid; [|done].
  change (TrimSpace §"/") with §"/". cbv beta iota. cbn -[Path.Join raftRoot GetDataDir]. f_equal.
  unfold raftRoot, Path.Join. pose proof (GetDataDir_nonempty c) as Hd.
  rewrite !filter_cons, !decide_True by done. rewrite filter_nil. cbn [Path.render].
  unfold Path.Clean. rewrite !Path.split_app, fold_left_app.
  assert (∀ t, Path.is_rooted (GetDataDir c ++ t) = Path.is_rooted (GetDataDir c)) as Hr
    by (intros t; by destruct (GetDataDir c)).
  rewrite !Hr, !fold_left_app. done.
Qed.
End theorems.

(** ** Witnesses *)
Definition node_config (id : gostring) : Config :=
  InitDBConfig (mkFlags true true id §"127.0.0.1:7000" [] [] §":50051" §":6379" §"/data/x/../y/" [] true).

