(* ===== verification/CommandLine.v ===== *)
(** * The command line of the server (src/core/config.go, package flag)

    [InitDBConfig] registers the flags ([formal]) and package flag parses the
    arguments of the process ([Parse]).  [parse_command_line] is the round trip:
    every setting of the flags can be written as arguments and is read back. *)

From S2P Require Import Prelude GoLib Config.

(** [strconv.ParseBool] *)
Definition ParseBool (s : gostring) : option bool :=
  if bool_decide (s ∈ [§"1"; §"t"; §"T"; §"TRUE"; §"true"; §"True"]) then Some true
  else if bool_decide (s ∈ [§"0"; §"f"; §"F"; §"FALSE"; §"false"; §"False"]) then Some false
  else None.

(** ** One argument *)

(** A flag with the value after its ["="], if it has one; an argument with bad
    syntax; or the end of the flags: an argument that is no flag, or ["--"]. *)
Inductive Argument :=
| AFlag (name : gostring) (value : option gostring)
| ABad
| AEnd.

Fixpoint cut_value (s : gostring) : gostring * option gostring :=
  match s with
  | [] => ([], None)
  | c :: s =>
      if bool_decide (c = "="%char) then ([], Some s)
      else let '(name, value) := cut_value s in (c :: name, value)
  end.

Definition read_name (s : gostring) : Argument :=
  match s with
  | [] => ABad
  | c :: s =>
      if bool_decide (c = "-"%char) || bool_decide (c = "="%char) then ABad
      else let '(name, value) := cut_value s in AFlag (c :: name) value
  end.

Definition read_argument (s : gostring) : Argument :=
  match s with
  | c0 :: c1 :: s' =>
      if bool_decide (c0 ≠ "-"%char) then AEnd
      else if bool_decide (c1 = "-"%char) then (if bool_decide (s' = []) then AEnd else read_name s')
      else read_name (c1 :: s')
  | _ => AEnd
  end.

(** ** The flags of the server *)
Inductive FlagValue :=
| FBool (set : bool → Flags → Flags)
| FString (set : gostring → Flags → Flags).

Definition formal (name : gostring) : option FlagValue :=
  let named n := bool_decide (name = n) in
  if named §"enable-raft" then Some (FBool (λ v f, mkFlags v (flag_bootstrap f) (flag_raft_id f) (flag_raft_addr f)
    (flag_raft_advertise_addr f) (flag_join f) (flag_admin_addr f) (flag_addr f) (flag_data_dir f) (flag_maxmemory f)
    (flag_log_requests f)))
  else if named §"bootstrap" then Some (FBool (λ v f, mkFlags (flag_enable_raft f) v (flag_raft_id f) (flag_raft_addr f)
    (flag_raft_advertise_addr f) (flag_join f) (flag_admin_addr f) (flag_addr f) (flag_data_dir f) (flag_maxmemory f)
    (flag_log_requests f)))
  else if named §"raft-id" then Some (FString (λ v f, mkFlags (flag_enable_raft f) (flag_bootstrap f) v (flag_raft_addr f)
    (flag_raft_advertise_addr f) (flag_join f) (flag_admin_addr f) (flag_addr f) (flag_data_dir f) (flag_maxmemory f)
    (flag_log_requests f)))
  else if named §"raft-addr" then Some (FString (λ v f, mkFlags (flag_enable_raft f) (flag_bootstrap f) (flag_raft_id f) v
    (flag_raft_advertise_addr f) (flag_join f) (flag_admin_addr f) (flag_addr f) (flag_data_dir f) (flag_maxmemory f)
    (flag_log_requests f)))
  else if named §"raft-advertise-addr" then Some (FString (λ v f, mkFlags (flag_enable_raft f) (flag_bootstrap f)
    (flag_raft_id f) (flag_raft_addr f) v (flag_join f) (flag_admin_addr f) (flag_addr f) (flag_data_dir f)
    (flag_maxmemory f) (flag_log_requests f)))
  else if named §"join" then Some (FString (λ v f, mkFlags (flag_enable_raft f) (flag_bootstrap f) (flag_raft_id f)
    (flag_raft_addr f) (flag_raft_advertise_addr f) v (flag_admin_addr f) (flag_addr f) (flag_data_dir f)
    (flag_maxmemory f) (flag_log_requests f)))
  else if named §"admin-addr" then Some (FString (λ v f, mkFlags (flag_enable_raft f) (flag_bootstrap f) (flag_raft_id f)
    (flag_raft_addr f) (flag_raft_advertise_addr f) (flag_join f) v (flag_addr f) (flag_data_dir f) (flag_maxmemory f)
    (flag_log_requests f)))
  else if named §"addr" then Some (FString (λ v f, mkFlags (flag_enable_raft f) (flag_bootstrap f) (flag_raft_id f)
    (flag_raft_addr f) (flag_raft_advertise_addr f) (flag_join f) (flag_admin_addr f) v (flag_data_dir f)
    (flag_maxmemory f) (flag_log_requests f)))
  else if named §"data-dir" then Some (FString (λ v f, mkFlags (flag_enable_raft f) (flag_bootstrap f) (flag_raft_id f)
    (flag_raft_addr f) (flag_raft_advertise_addr f) (flag_join f) (flag_admin_addr f) (flag_addr f) v
    (flag_maxmemory f) (flag_log_requests f)))
  else if named §"maxmemory" then Some (FString (λ v f, mkFlags (flag_enable_raft f) (flag_bootstrap f) (flag_raft_id f)
    (flag_raft_addr f) (flag_raft_advertise_addr f) (flag_join f) (flag_admin_addr f) (flag_addr f) (flag_data_dir f) v
    (flag_log_requests f)))
  else if named §"log-requests" then Some (FBool (λ v f, mkFlags (flag_enable_raft f) (flag_bootstrap f) (flag_raft_id f)
    (flag_raft_addr f) (flag_raft_advertise_addr f) (flag_join f) (flag_admin_addr f) (flag_addr f) (flag_data_dir f)
    (flag_maxmemory f) v))
  else None.

(** [flag.Parse()]: no result when it ends the process (an unknown flag, bad
    syntax, a bad value, a missing value). *)
Fixpoint Parse (args : list gostring) (f : Flags) : option Flags :=
  match args with
  | [] => Some f
  | s :: args =>
      match read_argument s with
      | AEnd => Some f
      | ABad => None
      | AFlag name value =>
          match formal name with
          | None => None
          | Some (FBool set) =>
              match (match value with Some v => ParseBool v | None => Some true end) with
              | Some b => Parse args (set b f)
              | None => None
              end
          | Some (FString set) =>
              match value, args with
              | Some v, _ => Parse args (set v f)
              | None, v :: args' => Parse args' (set v f)
              | None, [] => None
              end
          end
      end
  end.

(** ** The round trip *)
Definition show_bool (b : bool) : gostring := if b then §"true" else §"false".

(** All flags as arguments. *)
Definition command_line (f : Flags) : list gostring :=
  [ §"--enable-raft=" ++ show_bool (flag_enable_raft f);
    §"--bootstrap=" ++ show_bool (flag_bootstrap f);
    §"--raft-id=" ++ flag_raft_id f;
    §"--raft-addr=" ++ flag_raft_addr f;
    §"--raft-advertise-addr=" ++ flag_raft_advertise_addr f;
    §"--join=" ++ flag_join f;
    §"--admin-addr=" ++ flag_admin_addr f;
    §"--addr=" ++ flag_addr f;
    §"--data-dir=" ++ flag_data_dir f;
    §"--maxmemory=" ++ flag_maxmemory f;
    §"--log-requests=" ++ show_bool (flag_log_requests f) ].

(** Values are taken as they are: an empty one, one with ["="], one that looks
    like a flag. *)
Lemma parse_command_line f f0 : Parse (command_line f) f0 = Some f.
Proof. destruct f as [er b id ra raa j aa a dd mm lr]. destruct er, b, lr; vm_compute; reflexivity. Qed.
