(* ===== verification/Identity.v ===== *)
(** * The persisted node identity (src/core/raft_identity.go)

    A node writes its ID and its advertised address to a file once it belongs
    to a cluster and reads them back when it restarts.  The file system of the
    model has what the code relies on and works around: a file's content is on
    disk only after [Sync], the name of a file or a directory is on disk only after
    the directory that holds it is synced, and every operation may fail.  Its history records every state the
    disk went through, so that a crash at any moment can be considered. *)

From S2P Require Import Prelude GoLib Utf8 Json Config.

(** ** The file system *)
Module Disk.

Record Inode := mkInode { content : gostring; synced : bool }.

(** [files] and [dirs] are the names a running process sees, [durable] and [stable]
    those that are on disk in their directory. *)
Record FS := mkFS {
  inodes : gmap positive Inode;
  files : gmap gostring positive;
  durable : gmap gostring positive;
  dirs : gset gostring;
  stable : gset gostring;
}.

Inductive OSError := ErrNotExist | ErrIsDir | ErrNotDir | ErrIO.
#[global] Instance OSError_eq_dec : EqDecision OSError.
Proof. solve_decision. Defined.

(** The machine: the disk, the number of operations so far, and the states the
    disk went through. *)
Record OS := mkOS { fs : FS; ops : nat; history : list FS }.
Abbreviation OM := (GM OS OSError).

(** The last element of a path, and whether a path names an entry of [dir]. *)
Definition last_elem (p : gostring) : gostring := rev (Path.upto_sep (rev p)).
Definition in_dir (dir p : gostring) : bool := bool_decide (p = dir ++ Path.sep :: last_elem p).

(** [path] and the directories above it. *)
Fixpoint parents (n : nat) (p : gostring) : list gostring :=
  match n with
  | O => []
  | S n => p :: (if bool_decide (Path.sep ∈ p)
                 then let up := take (length p - S (length (last_elem p))) p in
                      if bool_decide (up = []) then [] else parents n up
                 else [])
  end.

(** The directories above [path]; whether one of them may be lost in a crash. *)
Definition above (path : gostring) : list gostring := tail (parents (length path) path).
Definition may_lose (d : FS) (path : gostring) : Prop := ∃ q, q ∈ above path ∧ q ∉ stable d.

(** After a crash the name [path] may lead to [v], the content of a file or
    nothing: the name is the current one or the one on disk, and a file that was
    not synced may hold anything; and nothing is there if a directory above is lost. *)
Definition may_hold (d : FS) (path : gostring) (v : option gostring) : Prop :=
  (∃ b, (b = files d !! path ∨ b = durable d !! path) ∧
    match b with
    | None => v = None
    | Some i => ∃ data, v = Some data ∧
        ∀ nd, inodes d !! i = Some nd → synced nd = true → data = content nd
    end) ∨
  (v = None ∧ may_lose d path).

Section operations.
(** [fault k = Some n]: operation number [k] fails, after [n] bytes if it
    writes.  [rand]: the random part of a temporary name. *)
Context (fault : nat → option nat) (rand : FS → gostring).

Definition put_fs (d : FS) : OM unit := modifyS (λ s, mkOS d (ops s) (history s ++ [d])).
Definition get_fs : OM FS := s ← getS; mret (fs s).

(** One operation of the operating system; [partial n] is what remains of it
    when it fails. *)
Definition syscall {A} (partial : nat → OM unit) (body : OM A) : OM A :=
  s ← getS;
  modifyS (λ s, mkOS (fs s) (S (ops s)) (history s));;
  match fault (ops s) with
  | Some n => partial n;; throw ErrIO
  | None => body
  end.
Definition nothing : nat → OM unit := λ _, mret tt.

Definition is_dir (d : FS) (p : gostring) : bool := bool_decide (p ∈ dirs d).
Definition is_file (d : FS) (p : gostring) : bool := bool_decide (is_Some (files d !! p)).

(** New directories are not on disk yet. *)
Definition MkdirAll (p : gostring) : OM unit :=
  syscall nothing (
    d ← get_fs;
    let ps := parents (length p) p in
    if existsb (is_file d) ps then throw ErrNotDir
    else put_fs (mkFS (inodes d) (files d) (durable d) (list_to_set ps ∪ dirs d) (stable d))).

(** Permissions are not part of the model. *)
Definition Chmod (p : gostring) : OM unit :=
  syscall nothing (
    d ← get_fs;
    if is_dir d p || is_file d p then mret tt else throw ErrNotExist).

(** An open file is its inode. *)
Definition CreateTemp (dir prefix : gostring) : OM (gostring * positive) :=
  syscall nothing (
    d ← get_fs;
    if negb (is_dir d dir) then throw ErrNotExist
    else
      let p := dir ++ Path.sep :: prefix ++ rand d in
      let i := fresh (dom (inodes d)) in
      put_fs (mkFS (<[i := mkInode [] false]> (inodes d)) (<[p := i]> (files d)) (durable d) (dirs d) (stable d));;
      mret (p, i)).

Definition append_to (i : positive) (data : gostring) : OM unit :=
  d ← get_fs;
  match inodes d !! i with
  | Some nd => put_fs (mkFS (<[i := mkInode (content nd ++ data) false]> (inodes d))
                            (files d) (durable d) (dirs d) (stable d))
  | None => throw ErrIO
  end.
Definition fd_Write (i : positive) (data : gostring) : OM unit :=
  syscall (λ n, append_to i (take n data)) (append_to i data).

Definition fd_Chmod (i : positive) : OM unit := syscall nothing (mret tt).

Definition fd_Sync (i : positive) : OM unit :=
  syscall nothing (
    d ← get_fs;
    match inodes d !! i with
    | Some nd => put_fs (mkFS (<[i := mkInode (content nd) true]> (inodes d))
                              (files d) (durable d) (dirs d) (stable d))
    | None => throw ErrIO
    end).

Definition fd_Close (i : positive) : OM unit := syscall nothing (mret tt).

Definition Rename (old new : gostring) : OM unit :=
  syscall nothing (
    d ← get_fs;
    match files d !! old with
    | None => throw ErrNotExist
    | Some i =>
        if is_dir d new then throw ErrIsDir
        else put_fs (mkFS (inodes d) (<[new := i]> (delete old (files d))) (durable d) (dirs d) (stable d))
    end).

Definition Remove (p : gostring) : OM unit :=
  syscall nothing (
    d ← get_fs;
    put_fs (mkFS (inodes d) (delete p (files d)) (durable d) (dirs d) (stable d))).

Definition OpenDir (p : gostring) : OM unit :=
  syscall nothing (d ← get_fs; if is_dir d p then mret tt else throw ErrNotExist).

(** Syncing a directory puts its names on disk. *)
Definition dir_Sync (p : gostring) : OM unit :=
  syscall nothing (
    d ← get_fs;
    put_fs (mkFS (inodes d) (files d)
                 (filter (λ e, in_dir p (fst e) = true) (files d) ∪
                  filter (λ e, in_dir p (fst e) = false) (durable d)) (dirs d)
                 (filter (λ q, in_dir p q = true) (dirs d) ∪ stable d))).

Definition dir_Close (p : gostring) : OM unit := syscall nothing (mret tt).

(** [os.Open] and reading to the end; a directory opens, but cannot be read. *)
Inductive Opened := OpenedFile (data : gostring) | OpenedDir.
Definition Open (p : gostring) : OM Opened :=
  syscall nothing (
    d ← get_fs;
    if is_dir d p then mret OpenedDir
    else match files d !! p ≫= λ i, inodes d !! i with
         | Some nd => mret (OpenedFile (content nd))
         | None => throw ErrNotExist
         end).

Definition Stat (p : gostring) : OM unit :=
  syscall nothing (
    d ← get_fs;
    if is_dir d p || is_file d p then mret tt else throw ErrNotExist).

(** The entries of a directory, by name, with whether they are directories. *)
Definition name_le (a b : gostring * bool) : Prop := bytes_leb (fst a) (fst b) = true.
#[global] Instance name_le_dec : RelDecision name_le.
Proof. intros a b. unfold name_le. apply _. Defined.

Definition ReadDir (p : gostring) : OM (list (gostring * bool)) :=
  syscall nothing (
    d ← get_fs;
    if is_dir d p then
      mret (merge_sort name_le
        (map (λ q, (last_elem q, true)) (filter (λ q, in_dir p q = true) (elements (dirs d))) ++
         map (λ e, (last_elem (fst e), false)) (filter (λ e, in_dir p (fst e) = true) (map_to_list (files d)))))
    else throw ErrNotExist).
End operations.
End Disk.

(** ** The identity file *)
Definition raftIdentityFormat : gostring := §"skiffdb-raft-node".
Definition raftIdentityVersion : N := 1.

Record raftIdentity := mkIdentity {
  IFormat : gostring;
  IVersion : N;
  INodeID : gostring;
  IAdvertiseAddr : gostring;
}.

Module IdentCodec.
(** [json.MarshalIndent(identity, "", "  ")] *)
Definition json_of (i : raftIdentity) : json :=
  JObj [ (§"format", JStr (IFormat i)); (§"version", JNum (udec (Z.of_N (IVersion i))));
         (§"node_id", JStr (INodeID i)); (§"advertise_addr", JStr (IAdvertiseAddr i)) ].
Definition MarshalIndent (i : raftIdentity) : gostring := print indented 0 (json_of i).

(** With [DisallowUnknownFields] another member is an error. *)
Definition step (i : raftIdentity) (k : gostring) (j : json) : option raftIdentity :=
  if matches §"format" k then
    s ← decode_string (IFormat i) j; Some (mkIdentity s (IVersion i) (INodeID i) (IAdvertiseAddr i))
  else if matches §"version" k then
    n ← decode_uint64 (IVersion i) j; Some (mkIdentity (IFormat i) n (INodeID i) (IAdvertiseAddr i))
  else if matches §"node_id" k then
    s ← decode_string (INodeID i) j; Some (mkIdentity (IFormat i) (IVersion i) s (IAdvertiseAddr i))
  else if matches §"advertise_addr" k then
    s ← decode_string (IAdvertiseAddr i) j; Some (mkIdentity (IFormat i) (IVersion i) (INodeID i) s)
  else None.
Definition Decode (j : json) : option raftIdentity := decode_struct step (mkIdentity [] 0 [] []) j.
End IdentCodec.

Inductive IdentityError :=
| IdConfigRequired
| IdRequired
| IdAmbiguousLegacy (n : nat)
| IdConflictsLegacy (supplied : gostring) (legacy : list gostring)
| IdUnreadable (e : Disk.OSError)
| IdDecode
| IdTrailing
| IdUnsupported (format : gostring) (version : N)
| IdIncomplete
| IdConflictsPersisted (supplied persisted : gostring)
| IdScan (e : Disk.OSError)
| IdInspect (name : gostring) (e : Disk.OSError)
| IdPersist (e : Disk.OSError).

Definition containsString (values : list gostring) (wanted : gostring) : bool :=
  existsb (λ value, bool_decide (value = wanted)) values.

(** The checks of [resolveRaftIdentity] on the text of the file. *)
Definition decode_identity (supplied data : gostring) : IdentityError + raftIdentity :=
  match parse_json data with
  | Ok (j, rest) =>
      match IdentCodec.Decode j with
      | None => inl IdDecode
      | Some ident =>
          if bool_decide (skip_ws rest ≠ []) then inl IdTrailing
          else if bool_decide (IFormat ident ≠ raftIdentityFormat)
                  || bool_decide (IVersion ident ≠ raftIdentityVersion)
          then inl (IdUnsupported (IFormat ident) (IVersion ident))
          else if bool_decide (TrimSpace (INodeID ident) = [])
                  || bool_decide (TrimSpace (IAdvertiseAddr ident) = [])
          then inl IdIncomplete
          else if bool_decide (supplied ≠ []) && bool_decide (supplied ≠ INodeID ident)
          then inl (IdConflictsPersisted supplied (INodeID ident))
          else inr ident
      end
  | _ => inl IdDecode
  end.

Section identity.
Import Disk.
Context (fault : nat → option nat) (rand : FS → gostring).
Abbreviation IM := (GM OS IdentityError).

(** [fmt.Errorf("...: %w", err)] *)
Definition wrap {A} (f : OSError → IdentityError) (m : OM A) : IM A := λ s,
  match m s with
  | (Ok a, s') => (Ok a, s')
  | (Err e, s') => (Err (f e), s')
  | (Panic, s') => (Panic, s')
  | (OutOfFuel, s') => (OutOfFuel, s')
  end.

(** The loop of [discoverLegacyRaftIDs] over the entries *)
Fixpoint legacyLoop (root : gostring) (entries : list (gostring * bool)) : IM (list gostring) :=
  match entries with
  | [] => mret []
  | (name, isDir) :: entries =>
      if negb isDir then legacyLoop root entries
      else
        err ← wrap (IdInspect name) (catch (Stat fault (Path.Join [root; name; §"raft.db"])));
        match err with
        | inr _ => rest ← legacyLoop root entries; mret (name :: rest)
        | inl e => if decide (e = ErrNotExist) then legacyLoop root entries else throw (IdInspect name e)
        end
  end.

Definition discoverLegacyRaftIDs (config : Config) : IM (list gostring) :=
  let root := raftRoot config in
  err ← wrap IdScan (catch (ReadDir fault root));
  match err with
  | inl e => if decide (e = ErrNotExist) then mret [] else throw (IdScan e)
  | inr entries => legacyLoop root entries
  end.

(** The result carries the configuration, which the code updates in place. *)
Definition resolveRaftIdentity (config : option Config) : IM (option raftIdentity * bool * Config) :=
  match config with
  | None => throw IdConfigRequired
  | Some config =>
      err ← wrap IdUnreadable (catch (Open fault (raftIdentityPath config)));
      match err with
      | inl e =>
          if decide (e = ErrNotExist) then
            legacyIDs ← discoverLegacyRaftIDs config;
            let suppliedID := GetRaftId config in
            if bool_decide (suppliedID = []) then
              match legacyIDs with
              | [] => throw IdRequired
              | [id] => mret (None, false, setRaftID id config)
              | _ => throw (IdAmbiguousLegacy (length legacyIDs))
              end
            else if bool_decide (legacyIDs ≠ []) && negb (containsString legacyIDs suppliedID)
            then throw (IdConflictsLegacy suppliedID legacyIDs)
            else mret (None, false, config)
          else throw (IdUnreadable e)
      | inr OpenedDir => throw IdDecode
      | inr (OpenedFile data) =>
          match decode_identity (GetRaftId config) data with
          | inl e => throw e
          | inr ident => mret (Some ident, true, setRaftID (INodeID ident) config)
          end
      end
  end.

(** [defer] with [removeTemporary], and [_ = temporary.Close()] before an early
    return: [cleanup] runs when [m] fails, and its own error is dropped. *)
Definition on_error {A} (cleanup : OM unit) (m : OM A) : OM A := λ s,
  match m s with
  | (Err e, s') => (Err e, snd (cleanup s'))
  | r => r
  end.

(** What is written to the identity file. *)
Definition identity_of (config : Config) (advertisedAddress : gostring) : raftIdentity :=
  mkIdentity raftIdentityFormat raftIdentityVersion (GetRaftId config) (TrimSpace advertisedAddress).
Definition identity_bytes (config : Config) (advertisedAddress : gostring) : gostring :=
  IdentCodec.MarshalIndent (identity_of config advertisedAddress) ++ ["010"%char].

Definition persist_ops (config : Config) (advertisedAddress : gostring) : OM unit :=
  let root := raftRoot config in
  MkdirAll fault root;;
  Chmod fault root;;
  let path := raftIdentityPath config in
  let data := identity_bytes config advertisedAddress in
  '(temporaryPath, temporary) ← CreateTemp fault rand root §".node.json-";
  on_error (Remove fault temporaryPath) (
    on_error (fd_Close fault temporary) (fd_Chmod fault temporary);;
    on_error (fd_Close fault temporary) (fd_Write fault temporary data);;
    on_error (fd_Close fault temporary) (fd_Sync fault temporary);;
    fd_Close fault temporary;;
    Rename fault temporaryPath path);;
  OpenDir fault root;;
  syncErr ← catch (dir_Sync fault root);
  closeErr ← catch (dir_Close fault root);
  match syncErr, closeErr with
  | inl e, _ => throw e
  | _, inl e => throw e
  | inr _, inr _ => mret tt
  end.

Definition persistRaftIdentity (config : Config) (advertisedAddress : gostring) : IM unit :=
  wrap IdPersist (persist_ops config advertisedAddress).
End identity.

(** ** The operations return *)
Section totality.
Import Disk.
Context (fault : nat → option nat) (rand : FS → gostring).

Lemma total_syscall {A} partial (body : OM A) :
  (∀ n, total (partial n)) → total body → total (syscall fault partial body).
Proof. intros Hp Hb. unfold syscall. solve_total. Qed.

Lemma total_call {A} (body : OM A) : total body → total (syscall fault nothing body).
Proof. intros Hb. apply total_syscall; [|done]. intros n. apply total_ret. Qed.

Lemma total_get_fs : total get_fs.
Proof. unfold get_fs. solve_total. Qed.
Lemma total_put_fs d : total (put_fs d).
Proof. apply total_modifyS. Qed.

Lemma total_on_error {A} cleanup (m : OM A) : total m → total (on_error cleanup m).
Proof. intros Hm s. specialize (Hm s). unfold on_error. by destruct (m s) as [[] ?]. Qed.

Lemma total_wrap {A} f (m : OM A) : total m → total (wrap f m).
Proof. intros Hm s. specialize (Hm s). unfold wrap. by destruct (m s) as [[] ?]. Qed.

#[local] Hint Resolve total_get_fs total_put_fs total_call total_on_error total_wrap : skiff.

Lemma total_legacyLoop root entries : total (legacyLoop fault root entries).
Proof.
  induction entries as [|[name d] entries IH]; simpl; [apply total_ret|].
  destruct d; simpl; [|done]. apply total_bind.
  { apply total_wrap, total_catch. unfold Stat. apply total_call. solve_total. }
  intros r. solve_total.
Qed.

Lemma total_resolve config : total (resolveRaftIdentity fault config).
Proof.
  unfold resolveRaftIdentity, discoverLegacyRaftIDs, Open, ReadDir.
  destruct config as [config|]; [|apply total_throw]. apply total_bind.
  { apply total_wrap, total_catch, total_call. solve_total. }
  intros [e|[data|]]; [|solve_total..]. case_decide; [|solve_total].
  apply total_bind; [|intros ?; solve_total]. apply total_bind.
  { apply total_wrap, total_catch, total_call. solve_total. }
  intros r. case_match; [solve_total|apply total_legacyLoop].
Qed.

Lemma total_append i data : total (append_to i data).
Proof. unfold append_to. solve_total. Qed.

Lemma total_persist config adv : total (persistRaftIdentity fault rand config adv).
Proof.
  apply total_wrap. unfold persist_ops, MkdirAll, Chmod, CreateTemp, fd_Chmod, fd_Sync, fd_Close, Rename,
    OpenDir, dir_Sync, dir_Close.
  repeat first [ apply total_bind; [|intros ?] | apply total_on_error | apply total_catch | apply total_call
               | apply total_syscall; [intros ?|] | apply total_append | case_match | by auto with skiff ].
Qed.
End totality.

(** ** A program logic for sequences of operations

    [hoare I P m Q X]: from a disk that satisfies [P], [m] ends; every state of
    the disk on the way satisfies [I]; when it succeeds the disk satisfies [Q],
    when it fails [X]. *)
Module Logic.
Import Disk.
Section rules.
Context (fault : nat → option nat) (I : FS → Prop).
Implicit Types (P X : FS → Prop).

Definition hoare {A} P (m : OM A) (Q : A → FS → Prop) X : Prop :=
  ∀ s, P (fs s) → let '(o, s') := m s in
    (∃ new, history s' = history s ++ new ∧ Forall I new) ∧
    match o with Ok a => Q a (fs s') | Err _ => X (fs s') | _ => False end.

Lemma h_ret {A} P (a : A) Q X : (∀ d, P d → Q a d) → hoare P (mret a) Q X.
Proof. intros HQ s Hs. split; [exists []; by rewrite app_nil_r|]. by apply HQ. Qed.

Lemma h_throw {A} P e (Q : A → FS → Prop) X : (∀ d, P d → X d) → hoare P (throw e) Q X.
Proof. intros HX s Hs. split; [exists []; by rewrite app_nil_r|]. by apply HX. Qed.

Lemma h_conseq {A} P P' (m : OM A) Q Q' X X' : hoare P' m Q' X' →
  (∀ d, P d → P' d) → (∀ a d, Q' a d → Q a d) → (∀ d, X' d → X d) → hoare P m Q X.
Proof.
  intros Hm HP HQ HX s Hs. specialize (Hm s (HP _ Hs)). destruct (m s) as [[a|e| |] s']; naive_solver.
Qed.

Lemma h_pure {A} P (m : OM A) Q X φ : (∀ d, P d → φ) → (φ → hoare P m Q X) → hoare P m Q X.
Proof. intros Hφ Hm s Hs. exact (Hm (Hφ _ Hs) s Hs). Qed.

Lemma h_bind {A B} P (m : OM A) (f : A → OM B) R Q X :
  hoare P m R X → (∀ a, hoare (R a) (f a) Q X) → hoare P (m ≫= f) Q X.
Proof.
  intros Hm Hf s Hs. specialize (Hm s Hs). unfold mbind, GM_bind.
  destruct (m s) as [[a|e| |] s1]; [|done|by destruct Hm..].
  destruct Hm as [(n1 & H1 & HI1) HR]. specialize (Hf a s1 HR).
  destruct (f a s1) as [o s2]. destruct Hf as [(n2 & H2 & HI2) HQ]. split; [|done].
  exists (n1 ++ n2). rewrite H2, H1, app_assoc. split; [done|]. by apply Forall_app.
Qed.

Lemma h_get {A} P (k : FS → OM A) Q X :
  (∀ d, P d → hoare (λ d', d' = d) (k d) Q X) → hoare P (get_fs ≫= k) Q X.
Proof. intros Hk s Hs. by apply (Hk (fs s) Hs s). Qed.

Lemma h_put P d Q X : (∀ d', P d' → I d ∧ Q tt d) → hoare P (put_fs d) Q X.
Proof.
  intros HQ s Hs. destruct (HQ _ Hs) as [HI HQd]. split; [|done]. exists [d]. split; [done|].
  by apply Forall_singleton.
Qed.

Lemma h_syscall {A} P partial (body : OM A) Q X :
  (∀ n, hoare P (partial n) (λ _, X) X) → hoare P body Q X → hoare P (syscall fault partial body) Q X.
Proof.
  intros Hp Hb s Hs. unfold syscall. rewrite gm_bind_getS, gm_bind_modifyS.
  destruct (fault (ops s)) as [n|]; [|by apply (Hb (mkOS _ _ _))].
  assert (Hf : hoare P (partial n;; throw ErrIO) Q X)
    by (apply (h_bind _ _ _ _ _ _ (Hp n)); intros _; by apply h_throw).
  by apply (Hf (mkOS _ _ _)).
Qed.

(** A failing operation leaves nothing behind. *)
Lemma h_call {A} P (body : OM A) Q X :
  (∀ d, P d → X d) → hoare P body Q X → hoare P (syscall fault nothing body) Q X.
Proof. intros HX Hb. apply h_syscall; [|done]. intros n. by apply h_ret. Qed.

Lemma h_on_error {A} P cleanup (m : OM A) Q X Y :
  hoare P m Q Y → hoare Y cleanup (λ _, X) X → hoare P (on_error cleanup m) Q X.
Proof.
  intros Hm Hc s Hs. specialize (Hm s Hs). unfold on_error.
  destruct (m s) as [[a|e| |] s1]; [done| |by destruct Hm..].
  destruct Hm as [(n1 & H1 & HI1) HY]. specialize (Hc s1 HY). destruct (cleanup s1) as [o s2]. simpl.
  destruct Hc as [(n2 & H2 & HI2) HX]. split; [|by destruct o].
  exists (n1 ++ n2). rewrite H2, H1, app_assoc. split; [done|]. by apply Forall_app.
Qed.

Lemma h_catch {A} P (m : OM A) Q X : hoare P m Q X →
  hoare P (catch m) (λ r d, match r with inl _ => X d | inr a => Q a d end) (λ _, False).
Proof.
  intros Hm s Hs. specialize (Hm s Hs). unfold catch. by destruct (m s) as [[] ?].
Qed.
End rules.
End Logic.

(** ** Writing the identity *)
Section persist.
Import Disk Logic.
Context (fault : nat → option nat) (rand : FS → gostring) (config : Config) (advertised : gostring).
Context (d0 : FS).

Abbreviation path := (raftIdentityPath config).
Abbreviation root := (raftRoot config).
Abbreviation data := (identity_bytes config advertised).

(** Names lead to files. *)
Definition disk_wf (d : FS) : Prop :=
  ∀ p i, files d !! p = Some i ∨ durable d !! p = Some i → is_Some (inodes d !! i).

(** After a crash the identity is what it was, or the new one. *)
Definition safe (d : FS) : Prop := ∀ v, may_hold d path v → may_hold d0 path v ∨ v = Some data.

(** The identity file as it was. *)
Definition untouched (d : FS) : Prop :=
  files d !! path = files d0 !! path ∧ durable d !! path = durable d0 !! path ∧
  (∀ i, is_Some (inodes d0 !! i) → inodes d !! i = inodes d0 !! i) ∧ stable d0 ⊆ stable d.

(** Besides, a temporary file with the given content. *)
Definition with_temp (p : gostring) (i : positive) (c : gostring) (sy : bool) (d : FS) : Prop :=
  untouched d ∧ inodes d0 !! i = None ∧ p ≠ path ∧ files d !! p = Some i ∧ inodes d !! i = Some (mkInode c sy).

(** The new identity under its name; on disk for certain when [dur]. *)
Definition installed (dur : bool) (d : FS) : Prop :=
  (∃ i, files d !! path = Some i ∧ inodes d !! i = Some (mkInode data true) ∧
        durable d !! path = (if dur then Some i else durable d0 !! path)) ∧
  (∀ i, is_Some (inodes d0 !! i) → inodes d !! i = inodes d0 !! i) ∧ path ∉ dirs d ∧ stable d0 ⊆ stable d.

Lemma path_eq : path = root ++ Path.sep :: §"node.json".
Proof. apply Join_raft. by split_and!; [..|apply (bool_decide_unpack _)]. Qed.

Lemma temp_path_ne x : root ++ Path.sep :: §".node.json-" ++ x ≠ path.
Proof. rewrite path_eq. intros E%app_cons_inj. done. Qed.

Lemma in_dir_path : in_dir root path = true.
Proof.
  unfold in_dir, last_elem. rewrite path_eq. apply bool_decide_eq_true. f_equal. f_equal.
  rewrite rev_app_distr. cbn [rev]. rewrite <- !app_assoc. simpl. done.
Qed.

Context (Hwf : disk_wf d0).

(** A directory that may be lost now could be lost before. *)
Lemma lost_before d : stable d0 ⊆ stable d → may_lose d path → may_lose d0 path.
Proof. intros Hs (q & Hq & Hn). exists q. set_solver. Qed.

Lemma untouched_safe d : untouched d → safe d.
Proof.
  intros (Hf & Hd & Hi & Hs) v [(b & Hb & Hv)|[-> Hl]]; [|left; right; split; [done|]; by eapply lost_before].
  left. left. exists b. rewrite <- Hf, <- Hd. split; [done|].
  destruct b as [i|]; [|done]. rewrite <- Hi; [done|]. apply (Hwf path).
  rewrite <- Hf, <- Hd. destruct Hb; [left|right]; congruence.
Qed.

Lemma installed_safe dur d : installed dur d → safe d.
Proof.
  intros ((i & Hf & Hn & Hd) & Hi & _ & Hs) v [(b & Hb & Hv)|[-> Hl]]; [|left; right; split; [done|]; by eapply lost_before].
  assert (Hnew : b = Some i → v = Some data).
  { intros ->. destruct Hv as (c & -> & Hc). f_equal. by apply (Hc _ Hn). }
  destruct Hb as [Hb|Hb]; [right; apply Hnew; congruence|].
  destruct dur; [right; apply Hnew; congruence|]. left. left. exists b. rewrite <- Hd. split; [by right|].
  destruct b as [j|]; [|done]. rewrite <- Hi; [done|]. apply (Hwf path). right. congruence.
Qed.

Lemma installed_durable d v : installed true d → may_hold d path v → v = Some data ∨ (v = None ∧ may_lose d0 path).
Proof.
  intros ((i & Hf & Hn & Hd) & _ & _ & Hs) [(b & Hb & Hv)|[-> Hl]]; [left|right; split; [done|]; by eapply lost_before].
  assert (b = Some i) as -> by (destruct Hb; congruence).
  destruct Hv as (c & -> & Hc). f_equal. by apply (Hc _ Hn).
Qed.

Abbreviation HT := (hoare safe).

Lemma mkdir_ok : HT untouched (MkdirAll fault root) (λ _, untouched) untouched.
Proof.
  apply h_call; [done|]. apply h_get. intros d Hd. cbv zeta. case_match; [by apply h_throw; intros ? ->|].
  apply h_put. intros d' ->. split; [by apply untouched_safe|done].
Qed.

Lemma chmod_ok : HT untouched (Chmod fault root) (λ _, untouched) untouched.
Proof.
  apply h_call; [done|]. apply h_get. intros d Hd.
  case_match; [by apply h_ret; intros ? ->|by apply h_throw; intros ? ->].
Qed.

Lemma create_ok : HT untouched (CreateTemp fault rand root §".node.json-")
  (λ r d, with_temp (fst r) (snd r) [] false d) untouched.
Proof.
  apply h_call; [done|]. apply h_get. intros d Hd. case_match; [by apply h_throw; intros ? ->|].
  destruct Hd as (Hf & Hu & Hi & Hst).
  assert (Hfr : inodes d !! fresh (dom (inodes d)) = None) by apply not_elem_of_dom, is_fresh.
  assert (Hnew : inodes d0 !! fresh (dom (inodes d)) = None).
  { destruct (inodes d0 !! fresh (dom (inodes d))) as [nd|] eqn:E; [|done].
    rewrite Hi in Hfr by (rewrite E; by eexists). congruence. }
  set (p := root ++ Path.sep :: §".node.json-" ++ rand d).
  set (i := fresh (dom (inodes d))).
  set (d' := mkFS (<[i := mkInode [] false]> (inodes d)) (<[p := i]> (files d)) (durable d) (dirs d) (stable d)).
  assert (Hun : untouched d').
  { split_and!; [|done| |done].
    - simpl. rewrite lookup_insert_ne by apply temp_path_ne. done.
    - intros j Hj. simpl. rewrite lookup_insert_ne; [by apply Hi|].
      intros <-. unfold i in Hj. rewrite Hnew in Hj. by destruct Hj. }
  change (HT (λ d1, d1 = d) (put_fs d';; mret (p, i)) (λ r d, with_temp (fst r) (snd r) [] false d) untouched).
  eapply h_bind; [apply (h_put _ _ d' (λ _ d1, d1 = d'))|].
  - intros ? ->. split; [by apply untouched_safe|done].
  - intros []. apply h_ret. intros d1 ->. split_and!; [apply Hun..|done|apply temp_path_ne| |];
      simpl; by rewrite lookup_insert_eq.
Qed.

(** Changing the temporary file. *)
Lemma with_temp_update p i c sy c' sy' d : with_temp p i c sy d →
  with_temp p i c' sy' (mkFS (<[i := mkInode c' sy']> (inodes d)) (files d) (durable d) (dirs d) (stable d)).
Proof.
  intros ((Hf & Hd & Hi & Hst) & Hn & Hp & Hpf & Hpi). split; [split_and!; [done|done| |done]|].
  - intros j Hj. simpl. rewrite lookup_insert_ne; [by apply Hi|]. intros <-. rewrite Hn in Hj. by destruct Hj.
  - split_and!; [done|done|done|]. apply lookup_insert_eq.
Qed.

Lemma with_temp_untouched p i c sy d : with_temp p i c sy d → untouched d.
Proof. by intros []. Qed.

Lemma close_ok i P : HT P (fd_Close fault i) (λ _, P) P.
Proof. apply h_call; [done|]. by apply h_ret. Qed.

Lemma temp_chmod_ok p i : HT (with_temp p i [] false) (on_error (fd_Close fault i) (fd_Chmod fault i))
  (λ _, with_temp p i [] false) untouched.
Proof.
  eapply h_on_error; [|apply (close_ok i untouched)].
  apply h_call; [apply with_temp_untouched|]. by apply h_ret.
Qed.

Lemma append_ok p i x (P : FS → Prop) :
  (∀ d, with_temp p i x false d → P d) →
  HT (with_temp p i [] false) (append_to i x) (λ _, P) untouched.
Proof.
  intros HP. apply h_get. intros d Hd. destruct Hd as (Hu & Hn & Hp & Hf & Hi). rewrite Hi. cbn [content app].
  assert (Hd' := with_temp_update p i [] false x false d (conj Hu (conj Hn (conj Hp (conj Hf Hi))))).
  apply h_put. intros d' _. split; [by eapply untouched_safe, with_temp_untouched|by apply HP].
Qed.

Lemma temp_write_ok p i : HT (with_temp p i [] false) (on_error (fd_Close fault i) (fd_Write fault i data))
  (λ _, with_temp p i data false) untouched.
Proof.
  eapply h_on_error; [|apply (close_ok i untouched)].
  apply h_syscall; [intros n|]; eapply append_ok; [apply with_temp_untouched|done].
Qed.

Lemma temp_sync_ok p i : HT (with_temp p i data false) (on_error (fd_Close fault i) (fd_Sync fault i))
  (λ _, with_temp p i data true) untouched.
Proof.
  eapply h_on_error; [|apply (close_ok i untouched)]. apply h_call; [apply with_temp_untouched|].
  apply h_get. intros d Hd. pose proof (with_temp_update p i data false data true d Hd) as Hd'.
  destruct Hd as (_ & _ & _ & _ & Hi). rewrite Hi. cbn [content].
  apply h_put. intros d' _. split; [by eapply untouched_safe, with_temp_untouched|done].
Qed.

Lemma rename_ok p i : HT (with_temp p i data true) (Rename fault p path) (λ _, installed false)
  (with_temp p i data true).
Proof.
  apply h_call; [done|]. apply h_get. intros d Hd. destruct Hd as ((Hf & Hdu & Hi & Hst) & Hn & Hp & Hpf & Hpi) eqn:E.
  rewrite Hpf. case_match eqn:Hdir; [by apply h_throw; intros ? ->|].
  assert (Hin : installed false (mkFS (inodes d) (<[path := i]> (delete p (files d))) (durable d) (dirs d) (stable d))).
  { split_and!; [|done|by apply bool_decide_eq_false in Hdir|done].
    exists i. simpl. by rewrite lookup_insert_eq. }
  apply h_put. intros d' _. split; [by eapply installed_safe|done].
Qed.

Lemma remove_ok p : p ≠ path → HT untouched (Remove fault p) (λ _, untouched) untouched.
Proof.
  intros Hp. apply h_call; [done|]. apply h_get. intros d (Hf & Hdu & Hi & Hst).
  assert (Hu : untouched (mkFS (inodes d) (delete p (files d)) (durable d) (dirs d) (stable d))).
  { split_and!; [|done|done|done]. simpl. by rewrite lookup_delete_ne. }
  apply h_put. intros d' _. split; [by apply untouched_safe|done].
Qed.

(** From the temporary file to the installed one. *)
Lemma install_ok p i : HT (with_temp p i [] false)
  (on_error (Remove fault p) (
    on_error (fd_Close fault i) (fd_Chmod fault i);;
    on_error (fd_Close fault i) (fd_Write fault i data);;
    on_error (fd_Close fault i) (fd_Sync fault i);;
    fd_Close fault i;;
    Rename fault p path)) (λ _, installed false) untouched.
Proof.
  apply (h_pure _ _ _ _ _ (p ≠ path)); [by intros d (_ & _ & ? & _)|]. intros Hp.
  eapply h_on_error; [|by apply remove_ok].
  eapply h_bind; [apply temp_chmod_ok|]. intros [].
  eapply h_bind; [apply temp_write_ok|]. intros [].
  eapply h_bind; [apply temp_sync_ok|]. intros [].
  assert (Hx : ∀ d, with_temp p i data true d → untouched d) by apply with_temp_untouched.
  eapply h_bind; [eapply h_conseq; [apply (close_ok i (with_temp p i data true))|done..|done]|]. intros [].
  eapply h_conseq; [apply rename_ok|done..|done].
Qed.

Lemma dir_sync_ok : HT (installed false) (dir_Sync fault root) (λ _, installed true) (installed false).
Proof.
  apply h_call; [done|]. apply h_get. intros d ((i & Hf & Hn & _) & Hi & Hdir & Hst).
  set (d' := mkFS _ _ _ _ _).
  assert (Hin : installed true d').
  { split_and!; [|done|done|simpl; set_solver]. exists i. split_and!; [done|done|]. simpl.
    apply lookup_union_Some_l, map_lookup_filter_Some. split; [done|]. apply in_dir_path. }
  apply h_put. intros d1 _. split; [by eapply installed_safe|done].
Qed.

Lemma dir_close_ok P : HT P (dir_Close fault root) (λ _, P) P.
Proof. apply h_call; [done|]. by apply h_ret. Qed.

Lemma persist_ok : HT untouched (persist_ops fault rand config advertised) (λ _, installed true) safe.
Proof.
  assert (Hu : ∀ d, untouched d → safe d) by apply untouched_safe.
  unfold persist_ops. cbv zeta.
  eapply h_bind; [eapply h_conseq; [apply mkdir_ok|done..|done]|]. intros [].
  eapply h_bind; [eapply h_conseq; [apply chmod_ok|done..|done]|]. intros [].
  eapply h_bind; [eapply h_conseq; [apply create_ok|done..|done]|]. intros [p i].
  eapply h_bind; [eapply h_conseq; [apply install_ok|done..|done]|]. intros [].
  assert (Hi : ∀ d, installed false d → safe d) by apply installed_safe.
  eapply (h_bind _ _ _ _ (λ _, installed false)).
  { apply h_call; [done|]. apply h_get. intros d Hd.
    case_match; [by apply h_ret; intros ? ->|by apply h_throw; intros ? ->; apply Hi]. }
  intros []. eapply h_bind; [eapply h_conseq; [apply h_catch, dir_sync_ok|done|done|done]|]. intros r.
  destruct r as [e|[]].
  - eapply h_bind; [eapply h_conseq; [apply h_catch, (dir_close_ok (installed false))|done|done|done]|].
    intros r'. apply h_throw. destruct r'; apply Hi.
  - eapply h_bind; [eapply h_conseq; [apply h_catch, (dir_close_ok (installed true))|done|done|done]|].
    intros r'. destruct r' as [e|[]]; [|by apply h_ret]. apply h_throw. apply installed_safe.
Qed.
End persist.

(** ** Reading the identity back *)
Lemma Decode_identity i : IVersion i = 1%N →
  IdentCodec.Decode (JObj [(§"format", JStr (IFormat i)); (§"version", JNum §"1");
    (§"node_id", JStr (INodeID i)); (§"advertise_addr", JStr (IAdvertiseAddr i))]) = Some i.
Proof. intros Hv. destruct i as [f v n a]. simpl in Hv. subst v. reflexivity. Qed.

Lemma decode_identity_bytes config adv supplied :
  valid_utf8 (GetRaftId config) → valid_utf8 (TrimSpace adv) →
  GetRaftId config ≠ [] → TrimSpace adv ≠ [] →
  decode_identity supplied (identity_bytes config adv) =
    if decide (supplied = [] ∨ supplied = GetRaftId config) then inr (identity_of config adv)
    else inl (IdConflictsPersisted supplied (GetRaftId config)).
Proof.
  intros Hv1 Hv2 Hn1 Hn2. unfold decode_identity, identity_bytes, IdentCodec.MarshalIndent, parse_json.
  change (IdentCodec.json_of (identity_of config adv)) with
    (JObj [(§"format", JStr raftIdentityFormat); (§"version", JNum §"1");
      (§"node_id", JStr (GetRaftId config)); (§"advertise_addr", JStr (TrimSpace adv))]).
  set (j := JObj _).
  assert (Hn : nums_ok j) by (split; [done|]; split; [apply num_ok_1|]; by split_and!).
  rewrite <- (app_nil_l (print indented 0 _ ++ _)).
  rewrite (reads_print indented j Hn 0 0);
    [|unfold maxNestingDepth; simpl; lia|done|done|rewrite !length_app; simpl; lia].
  assert (repair j = j) as ->.
  { unfold j. cbn [repair map fst snd]. rewrite Hv1, Hv2. reflexivity. }
  assert (IdentCodec.Decode j = Some (identity_of config adv)) as ->
    by exact (Decode_identity (identity_of config adv) eq_refl).
  assert (Ht : TrimSpace (GetRaftId config) ≠ []) by (unfold GetRaftId in *; by rewrite TrimSpace_idem).
  assert (Ht2 : TrimSpace (TrimSpace adv) ≠ []) by by rewrite TrimSpace_idem.
  cbn [identity_of IFormat IVersion INodeID IAdvertiseAddr].
  change (skip_ws ["010"%char]) with ([] : gostring).
  rewrite (bool_decide_false (([] : gostring) ≠ [])), (bool_decide_false (raftIdentityFormat ≠ _)),
    (bool_decide_false (raftIdentityVersion ≠ _)) by (intros Hc; by apply Hc). cbn [orb].
  rewrite (bool_decide_false (TrimSpace (GetRaftId config) = [])), (bool_decide_false (TrimSpace (TrimSpace adv) = [])) by done.
  cbn [orb]. repeat case_bool_decide; case_decide; simpl; tauto.
Qed.

Section theorems.
Import Disk Logic.
Context (fault : nat → option nat) (rand : FS → gostring).
Implicit Types (config : Config) (s : OS).

(** C12.  The identity file survives crashes.  Whatever operations fail while the
    identity is written, and at whatever moment the machine crashes, the file
    then holds what it could hold before, or the complete new identity.  Once
    [persistRaftIdentity] has returned without an error, it holds the new
    identity whatever happens, provided that the directories above it were on disk
    before; otherwise it holds the new identity or is lost together with its
    directory, which the code does not sync into its parent. *)
Theorem identity_crash_safe config adv s o s' : disk_wf (fs s) →
  persistRaftIdentity fault rand config adv s = (o, s') →
  (∃ new, history s' = history s ++ new ∧
     ∀ d v, d ∈ new → may_hold d (raftIdentityPath config) v →
       may_hold (fs s) (raftIdentityPath config) v ∨ v = Some (identity_bytes config adv)) ∧
  (o = Ok tt → ∀ v, may_hold (fs s') (raftIdentityPath config) v →
     v = Some (identity_bytes config adv) ∨ (v = None ∧ may_lose (fs s) (raftIdentityPath config))).
Proof.
  intros Hwf E. pose proof (persist_ok fault rand config adv (fs s) Hwf s) as H.
  unfold persistRaftIdentity, wrap in E. destruct (persist_ops fault rand config adv s) as [r s1].
  destruct H as [(new & Hh & Hs) Hr]; [by split_and!|].
  assert (s1 = s') as -> by (destruct r; by injection E). split.
  - exists new. split; [done|]. intros d v Hd. rewrite Forall_forall in Hs. by apply Hs.
  - intros ->. destruct r as [[]| | |]; try done. intros v. by eapply installed_durable.
Qed.

(** C36.  A restart finds the identity.  After [persistRaftIdentity] has returned
    without an error, for an ID and an address that are valid UTF-8 and not empty, a start
    with the same data directory that gives the same ID or none resolves exactly the
    ID and the address that were written; one that gives another ID is refused. *)
Theorem identity_roundtrip config config' adv s s' : disk_wf (fs s) →
  persistRaftIdentity fault rand config adv s = (Ok tt, s') →
  valid_utf8 (GetRaftId config) → valid_utf8 (TrimSpace adv) →
  GetRaftId config ≠ [] → TrimSpace adv ≠ [] → GetDataDir config' = GetDataDir config →
  ∃ s'', resolveRaftIdentity (λ _, None) (Some config') s' =
    (if decide (GetRaftId config' = [] ∨ GetRaftId config' = GetRaftId config)
     then Ok (Some (identity_of config adv), true, setRaftID (GetRaftId config) config')
     else Err (IdConflictsPersisted (GetRaftId config') (GetRaftId config)), s'').
Proof.
  intros Hwf E Hv1 Hv2 Hn1 Hn2 Hdir. pose proof (persist_ok fault rand config adv (fs s) Hwf s) as H.
  unfold persistRaftIdentity, wrap in E. destruct (persist_ops fault rand config adv s) as [r s1].
  destruct H as [_ Hr]; [by split_and!|]. destruct r as [[]| | |]; try done. injection E as ->.
  destruct Hr as ((i & Hf & Hi & _) & _ & Hnd & _).
  assert (raftIdentityPath config' = raftIdentityPath config) as Hp by (unfold raftIdentityPath; by rewrite Hdir).
  unfold resolveRaftIdentity, wrap, catch, Open, syscall, get_fs, mbind, GM_bind, getS, modifyS. rewrite Hp.
  simpl. unfold is_dir. rewrite bool_decide_false by done. rewrite Hf. simpl. rewrite Hi. simpl.
  rewrite decode_identity_bytes by done. case_decide; by eexists.
Qed.

(** A node never takes over another identity.  When an identity was
    persisted, a start resolves it only if no ID or the same ID was supplied,
    and the configuration then names it; when none was, the ID is the supplied
    one or that of the only store found, and never one that differs from all the
    stores found. *)
Lemma resolved_identity config s ident had config' s' :
  resolveRaftIdentity fault (Some config) s = (Ok (ident, had, config'), s') →
  match ident with
  | Some i => had = true ∧ (GetRaftId config = [] ∨ GetRaftId config = INodeID i) ∧
              IFormat i = raftIdentityFormat ∧ TrimSpace (IAdvertiseAddr i) ≠ [] ∧
              GetRaftId config' = TrimSpace (INodeID i) ∧ GetRaftId config' ≠ []
  | None => had = false ∧ ∃ legacy s1, discoverLegacyRaftIDs fault config s1 = (Ok legacy, s') ∧
              (config' = config ∧ GetRaftId config ≠ [] ∧ (legacy = [] ∨ GetRaftId config ∈ legacy) ∨
               GetRaftId config = [] ∧ ∃ id, legacy = [id] ∧ config' = setRaftID id config)
  end.
Proof.
  unfold resolveRaftIdentity. intros E. apply gm_bind_inv in E as ([e|op] & s1 & _ & E).
  - case_decide; [|done]. apply gm_bind_inv in E as (legacy & s2 & El & E).
    case_bool_decide as Hid.
    + destruct legacy as [|id [|]]; try done. injection E as <- <- <- <-. split; [done|].
      exists [id], s1. split; [done|]. right. by eauto.
    + destruct (_ && _) eqn:Hc; [done|]. injection E as <- <- <- <-. split; [done|].
      exists legacy, s1. split; [done|]. left. split_and!; [done|done|].
      apply andb_false_iff in Hc as [Hc|Hc]; [left; by apply bool_decide_eq_false, dec_stable in Hc|right].
      apply negb_false_iff, existsb_exists in Hc as (x & Hx & Heq).
      apply bool_decide_eq_true in Heq as ->. by apply list_elem_of_In.
  - destruct op as [data|]; [|done].
    destruct (decode_identity (GetRaftId config) data) as [e|i] eqn:Ed; [done|].
    injection E as <- <- <- <-. unfold decode_identity in Ed.
    repeat (case_match; try done). injection Ed as ->.
    repeat match goal with
    | H : _ || _ = false |- _ => apply orb_false_iff in H as [??]
    | H : bool_decide _ = false |- _ => apply bool_decide_eq_false in H
    end.
    assert (Hg : GetRaftId (setRaftID (INodeID i) config) = TrimSpace (INodeID i)) by apply TrimSpace_idem.
    rewrite Hg. split_and!; try done; [|by apply dec_stable].
    match goal with H : _ && _ = false |- _ => apply andb_false_iff in H as [Hs|Hs] end; apply bool_decide_eq_false, dec_stable in Hs; auto.
Qed.
End theorems.

(** ** Witnesses: a new machine without faults *)
Definition empty_disk : Disk.OS := Disk.mkOS (Disk.mkFS ∅ ∅ ∅ ∅ ∅) 0 [].
Definition no_fault (k : nat) : option nat := None.
Definition first_temp (d : Disk.FS) : gostring := §"1".

Lemma empty_disk_wf : disk_wf (Disk.fs empty_disk).
Proof. intros p i [H|H]; discriminate H. Qed.

Definition persist_n1 := persistRaftIdentity no_fault first_temp (node_config §"n1") §"10.0.0.1:7000" empty_disk.

(** A machine on which the data directory was on disk before. *)
Definition settled_disk : Disk.OS :=
  let ds := list_to_set (Disk.above (raftIdentityPath (node_config §"n1"))) in Disk.mkOS (Disk.mkFS ∅ ∅ ∅ ds ds) 0 [].
Definition persist_settled :=
  persistRaftIdentity no_fault first_temp (node_config §"n1") §"10.0.0.1:7000" settled_disk.

Lemma identity_crash_safe_witness :
  fst persist_settled = Ok tt ∧
  ∀ v, Disk.may_hold (Disk.fs (snd persist_settled)) (raftIdentityPath (node_config §"n1")) v →
    v = Some (identity_bytes (node_config §"n1") §"10.0.0.1:7000").
Proof.
  assert (E : fst persist_settled = Ok tt) by (vm_compute; reflexivity). split; [exact E|]. intros v Hv.
  destruct (proj2 (identity_crash_safe no_fault first_temp (node_config §"n1") §"10.0.0.1:7000" settled_disk
              (fst persist_settled) (snd persist_settled) ltac:(intros p i [H|H]; discriminate H)
              (surjective_pairing _)) E v Hv) as [Hd|[_ (q & Hq & Hn)]]; [exact Hd|].
  destruct Hn. apply elem_of_list_to_set. exact Hq.
Defined.

(** On a new machine the directory is created, and a crash can take it with the
    identity after [persistRaftIdentity] has succeeded. *)
Lemma new_directory_lost :
  fst persist_n1 = Ok tt ∧ Disk.may_hold (Disk.fs (snd persist_n1)) (raftIdentityPath (node_config §"n1")) None.
Proof.
  split; [vm_compute; reflexivity|]. right. split; [done|]. exists (raftRoot (node_config §"n1")).
  split; [apply (bool_decide_unpack _); vm_compute; exact I|]. apply (bool_decide_unpack _). vm_compute. exact I.
Qed.

Lemma identity_roundtrip_witness :
  (∃ s'', resolveRaftIdentity (λ _, None) (Some (node_config [])) (snd persist_n1) =
    (Ok (Some (identity_of (node_config §"n1") §"10.0.0.1:7000"), true,
         setRaftID (GetRaftId (node_config §"n1")) (node_config [])), s'')) ∧
  (∃ s'', resolveRaftIdentity (λ _, None) (Some (node_config §"n2")) (snd persist_n1) =
    (Err (IdConflictsPersisted §"n2" §"n1"), s'')).
Proof.
  assert (Hr : ∀ config', GetDataDir config' = GetDataDir (node_config §"n1") → ∃ s'',
    resolveRaftIdentity (λ _, None) (Some config') (snd persist_n1) =
      (if decide (GetRaftId config' = [] ∨ GetRaftId config' = GetRaftId (node_config §"n1"))
       then Ok (Some (identity_of (node_config §"n1") §"10.0.0.1:7000"), true, setRaftID (GetRaftId (node_config §"n1")) config')
       else Err (IdConflictsPersisted (GetRaftId config') (GetRaftId (node_config §"n1"))), s'')).
  { intros config' Hd.
    apply (identity_roundtrip no_fault first_temp (node_config §"n1") config' §"10.0.0.1:7000" empty_disk (snd persist_n1)).
    - exact empty_disk_wf.
    - vm_compute. reflexivity.
    - vm_compute. reflexivity.
    - vm_compute. reflexivity.
    - vm_compute. discriminate.
    - vm_compute. discriminate.
    - exact Hd. }
  split; [apply (Hr (node_config []))|apply (Hr (node_config §"n2"))]; vm_compute; reflexivity.
Defined.
