(* ===== verification/Startup.v ===== *)
(** * Start-up and shutdown of a node (src/core/raft.go, src/core/raft_storage.go)

    [StartRaft] opens the durable stores, creates the Raft instance, checks the
    persisted configuration against the command line, creates a cluster or joins
    one, and records the node's identity.  Every external call of this path (the
    operating system, the Raft library and its stores, the network) is a field of
    [Env], which says how the call turns out; the calls that open and close
    resources, and those that change a cluster, are recorded in a trace. *)

From S2P Require Import Prelude GoLib Membership Config Utf8 Json Identity.

(** ** What the code calls *)

(** [net.ResolveTCPAddr]: the address, as far as the code inspects it. *)
Record TCPAddr := mkTCPAddr {
  ip_nil : bool;
  ip_unspecified : bool;
  port : Z;
  addr_string : gostring;
}.

Inductive BoltError := BoltTimeout | BoltOther.
Inductive WaitEvent := CtxDone | TimerFired | Tick.

(** How one call of the remote [JoinCluster] turns out: no connection, a failed
    call, or a response (its cluster message may be missing). *)
Inductive RpcResult :=
| NoConnection
| CallFailed
| RespondedUnknown
| Responded (code : Admin.JoinClusterResponseCode) (cluster : option Admin.ProtoCluster).

(** [raftpkg.Config], as far as it is set: the rest is [DefaultConfig()]. *)
Record RaftConfig := mkRaftConfig {
  LocalID : gostring;
  SnapshotThreshold : N;
  SnapshotInterval : Z;          (** nanoseconds *)
  TrailingLogs : N;
}.

(** [raftboltdb.Options] with the lock timeout of [bbolt.Options]. *)
Record BoltOptions := mkBoltOptions { BoltPath : gostring; BoltTimeoutNs : Z; NoSync : bool }.

Record Env := mkEnv {
  os_MkdirAll : gostring → Z → bool;
  os_Chmod : gostring → Z → bool;
  os_ReadDir : gostring → option (list (gostring * bool));
  boltdb_New : BoltOptions → option BoltError;
  NewFileSnapshotStore : gostring → nat → bool;                    (** directory, retention *)
  snapshotStore_List : option nat;
  ResolveTCPAddr : gostring → option TCPAddr;
  HasExistingState : option bool;
  NewTCPTransport : gostring → option TCPAddr → option gostring;   (** its local address *)
  NewRaft : RaftConfig → bool;
  raft_GetConfiguration : nat → option (list Server);              (** at the n-th call *)
  BootstrapCluster : Server → bool;
  raft_AppliedIndex : nat → N;
  rpc_JoinCluster : nat → gostring → RpcResult;                    (** at the n-th attempt *)
  wait_event : nat → WaitEvent;
  Shutdown_fails : bool;
  transport_Close_fails : bool;
  store_Close_fails : bool;
  disk_fault : nat → option nat;
  temp_name : Disk.FS → gostring;
}.

(** ** The state *)
Inductive Resource := RStore | RTransport | RRaft.
#[export] Instance Resource_eq_dec : EqDecision Resource.
Proof. solve_decision. Defined.

Inductive Event :=
| Opened (r : Resource)
| Closed (r : Resource)
| SetMode (path : gostring) (mode : Z)
| Bootstrapped (s : Server)
| JoinRequested (to : gostring) (req : Admin.JoinClusterRequest)
| IdentityWritten.

(** Which of the interfaces are not nil. *)
Record raftStores := mkStores {
  logStore : bool;
  stableStore : bool;
  snapshotStore : bool;
  closer : bool;
}.

(** The fields of [RaftNode] that start-up uses: which of the pointers are not
    nil, and the [closeOnce] state. *)
Record Handle := mkHandle {
  localID : gostring;
  localAddr : gostring;
  has_raft : bool;
  has_transport : bool;
  stores : option raftStores;
  hadExistingState : bool;
  initialized : bool;
  closed : bool;
}.

Record World := mkWorld {
  config : Config;
  disk : Disk.OS;
  trace : list Event;
  started : option Handle;      (** the package variable [raftNode] *)
  reads : nat;                  (** calls of [GetConfiguration] *)
  attempts : nat;               (** calls of the remote [JoinCluster] *)
}.

Inductive StartError :=
| SEConfigRequired
| SEDuplicateStart
| SEIdentity (e : IdentityError)
| SEAdvertiseRequired
| SEResolve (addr : gostring)
| SENotRoutable (addr : gostring)
| SEDir (e : DirError)
| SEMkdir | SEChmod | SEStoreInUse | SEOpenStore | SESnapshotStore
| SEListSnapshots | SEScanSnapshots | SEUnreadableSnapshots
| SEStoresRequired | SEDatabaseRequired
| SEInspectState | SETransport | SENewRaft
| SEAddressConflict (configured persisted : gostring)
| SEReadConfiguration
| SEMemberAddress (id addr configured : gostring)
| SENotAMember (id : gostring)
| SENoConfiguration
| SERestartFlags
| SEStartFlags
| SEBootstrap
| SEJoinInternal
| SEPromotionPending
| SENotRaftNode
| SENotLeader (admin : gostring)
| SEWaitCanceled | SEWaitTimeout
| SEJoined (e : StartError) (close_errors : list Resource).

Abbreviation SM := (GM World StartError).

Definition emit (e : Event) : SM unit :=
  modifyS (λ w, mkWorld (config w) (disk w) (trace w ++ [e]) (started w) (reads w) (attempts w)).
Definition set_config (c : Config) : SM unit :=
  modifyS (λ w, mkWorld c (disk w) (trace w) (started w) (reads w) (attempts w)).
Definition set_started (h : option Handle) : SM unit :=
  modifyS (λ w, mkWorld (config w) (disk w) (trace w) h (reads w) (attempts w)).
Definition get_config : SM Config := w ← getS; mret (config w).

(** Run an operation on the identity file. *)
Definition on_disk {A} (m : GM Disk.OS IdentityError A) : SM A := λ w,
  let '(o, d) := m (disk w) in
  (match o with
   | Ok a => Ok a
   | Err e => Err (SEIdentity e)
   | Panic => Panic
   | OutOfFuel => OutOfFuel
   end, mkWorld (config w) d (trace w) (started w) (reads w) (attempts w)).

(** ** The checks *)
Definition normalizeRaftAdvertiseAddr (env : Env) (address : gostring) : StartError + gostring :=
  let address := TrimSpace address in
  if bool_decide (address = []) then inl SEAdvertiseRequired
  else match ResolveTCPAddr env address with
       | None => inl (SEResolve address)
       | Some resolved =>
           if ip_nil resolved || ip_unspecified resolved then inl (SENotRoutable address)
           else inr (addr_string resolved)
       end.

Definition validateRaftStartupIntent (c : Config) (init : bool) : option StartError :=
  let hasJoin := bool_decide (TrimSpace (JoinAddr c) ≠ []) in
  if init then
    if Bootstrap c || hasJoin then Some SERestartFlags else None
  else if Bool.eqb (Bootstrap c) hasJoin then Some SEStartFlags
  else None.

(** The loop of [validatePersistedRaftConfiguration] *)
Fixpoint checkMember (nodeID advertised : gostring) (srvs : list Server) : StartError + bool :=
  match srvs with
  | [] => inl (SENotAMember nodeID)
  | server :: srvs =>
      if bool_decide (ID server ≠ nodeID) then checkMember nodeID advertised srvs
      else if bool_decide (Address server ≠ advertised)
      then inl (SEMemberAddress nodeID (Address server) advertised)
      else inr true
  end.

(** Turn a result into a computation. *)
Definition lift {A} (r : StartError + A) : SM A :=
  match r with inl e => throw e | inr a => mret a end.

Section startup.
Context (env : Env).

Definition validatePersistedRaftConfiguration : SM bool :=
  w ← getS;
  modifyS (λ w, mkWorld (config w) (disk w) (trace w) (started w) (S (reads w)) (attempts w));;
  match raft_GetConfiguration env (reads w) with
  | None => throw SEReadConfiguration
  | Some [] => mret false
  | Some servers =>
      lift (checkMember (GetRaftId (config w)) (GetRaftAdvertiseAddr (config w)) servers)
  end.

(** [waitForLocalRaftConfiguration]; [n] bounds the rounds. *)
Fixpoint waitLoop (fuel k : nat) : SM bool :=
  match fuel with
  | O => nofuel
  | S fuel =>
      init ← validatePersistedRaftConfiguration;
      if init : bool then mret true
      else match wait_event env k with
           | CtxDone => throw SEWaitCanceled
           | TimerFired => throw SEWaitTimeout
           | Tick => waitLoop fuel (S k)
           end
  end.

(** 30 seconds in steps of 20 milliseconds. *)
Definition wait_rounds : nat := 1502.
Definition waitForLocalRaftConfiguration : SM bool := waitLoop wait_rounds 0.

(** ** Stores *)

(** [raftSnapshotDirectory], [raftIncompleteSnapshotSuffix] *)
Definition raftSnapshotDirectory : gostring := §"snapshots".
Definition raftIncompleteSnapshotSuffix : gostring := §".tmp".

Definition rejectUnreadableFinalizedSnapshots (snapshotDir : gostring) : option StartError :=
  match snapshotStore_List env with
  | None => Some SEListSnapshots
  | Some (S _) => None
  | Some O =>
      match os_ReadDir env snapshotDir with
      | None => Some SEScanSnapshots
      | Some entries =>
          if existsb (λ e, snd e && negb (HasSuffix (fst e) raftIncompleteSnapshotSuffix)) entries
          then Some SEUnreadableSnapshots else None
      end
  end.

(** Directories are private, and so is the database file; the lock of the
    database is waited for one second; three snapshots are kept. *)
Definition raftDirectoryMode : Z := 7 * 8^2.
Definition raftDatabaseMode : Z := 6 * 8^2.
Definition raftStoreOpenDelay : Z := 10^9.
Definition raftSnapshotRetention : nat := 3.

(** [os.Chmod]: whether it succeeds. *)
Definition Chmod (path : gostring) (mode : Z) : SM bool :=
  if os_Chmod env path mode then emit (SetMode path mode);; mret true else mret false.

(** [store.Close()] of the database: true when it fails. *)
Definition store_Close : SM bool := emit (Closed RStore);; mret (store_Close_fails env).

(** [_ = store.Close(); return nil, err] *)
Definition close_store_and {A} (e : StartError) : SM A := store_Close;; throw e.

(** [Close] of [raftStores] *)
Definition stores_Close (s : option raftStores) : SM bool :=
  match s with
  | None => mret false
  | Some s => if closer s then store_Close else mret false
  end.

Definition newInmemRaftStores : raftStores := mkStores true true true false.

Definition newPersistentRaftStores : SM raftStores :=
  c ← get_config;
  nodeDir ← lift (match raftNodeDataDir (Some c) with inl e => inl (SEDir e) | inr d => inr d end);
  if negb (os_MkdirAll env nodeDir raftDirectoryMode) then throw SEMkdir
  else
    ok ← Chmod nodeDir raftDirectoryMode;
    if negb ok then throw SEChmod
    else
      let dbPath := Path.Join [nodeDir; §"raft.db"] in
      match boltdb_New env (mkBoltOptions dbPath raftStoreOpenDelay false) with
      | Some BoltTimeout => throw SEStoreInUse
      | Some BoltOther => throw SEOpenStore
      | None =>
          emit (Opened RStore);;
          ok ← Chmod dbPath raftDatabaseMode;
          if negb ok then close_store_and SEChmod
          else if negb (NewFileSnapshotStore env nodeDir raftSnapshotRetention) then close_store_and SESnapshotStore
          else
            let snapshotDir := Path.Join [nodeDir; raftSnapshotDirectory] in
            ok ← Chmod snapshotDir raftDirectoryMode;
            if negb ok then close_store_and SEChmod
            else match rejectUnreadableFinalizedSnapshots snapshotDir with
                 | Some e => close_store_and e
                 | None => mret (mkStores true true true true)
                 end
      end.

(** ** The node *)
Definition raftSnapshotThreshold : N := 8192.
Definition raftSnapshotInterval : Z := 2 * 60 * 10^9.
Definition raftSnapshotTrailingLogs : N := raftSnapshotThreshold * N.of_nat (raftSnapshotRetention - 1).

Definition raft_config (c : Config) : RaftConfig :=
  mkRaftConfig (GetRaftId c) raftSnapshotThreshold raftSnapshotInterval raftSnapshotTrailingLogs.

Definition initRaftNodeWithDB (strs : option raftStores) (db_given : bool) : SM Handle :=
  match strs with
  | None => throw SEStoresRequired
  | Some st =>
      if negb (logStore st && stableStore st && snapshotStore st) then throw SEStoresRequired
      else if negb db_given then throw SEDatabaseRequired
      else
        c ← get_config;
        match HasExistingState env with
        | None => throw SEInspectState
        | Some had =>
            match ResolveTCPAddr env (GetRaftAdvertiseAddr c) with
            | None => throw (SEResolve (GetRaftAdvertiseAddr c))
            | Some a =>
                let advertised := if bool_decide (port a = 0%Z) then None else Some a in
                match NewTCPTransport env (RaftAddr c) advertised with
                | None => throw SETransport
                | Some local =>
                    emit (Opened RTransport);;
                    if negb (NewRaft env (raft_config c)) then emit (Closed RTransport);; throw SENewRaft
                    else
                      emit (Opened RRaft);;
                      mret (mkHandle (GetRaftId c) local true true (Some st) had false false)
                end
            end
        end
  end.

(** [initRaftNode] passes the database of the package. *)
Definition initRaftNode (st : raftStores) : SM Handle := initRaftNodeWithDB (Some st) true.

(** [Close]: the errors of the three calls; a second call does nothing. *)
Definition close_one (present fails : bool) (r : Resource) : SM (list Resource) :=
  if present then emit (Closed r);; mret (if fails then [r] else [])
  else mret [].

Definition Close (node : Handle) : SM (list Resource) :=
  if closed node then mret []
  else
    e1 ← close_one (has_raft node) (Shutdown_fails env) RRaft;
    e2 ← close_one (has_transport node) (transport_Close_fails env) RTransport;
    failed ← stores_Close (stores node);
    mret (e1 ++ e2 ++ (if failed : bool then [RStore] else [])).

Definition createNewCluster (node : Handle) : SM unit :=
  let s := mkServer Voter (localID node) (localAddr node) in
  emit (Bootstrapped s);;
  if BootstrapCluster env s then mret tt else throw SEBootstrap.

(** ** Joining: one attempt ([sendRequest]) and what a retry does *)
Fixpoint ownMember (id : gostring) (ms : list Admin.ProtoMember) : StartError + unit :=
  match ms with
  | [] => inl SEJoinInternal
  | m :: ms =>
      if bool_decide (Admin.node_id m ≠ id) then ownMember id ms
      else match Admin.role m with
           | Admin.CLUSTER_ROLE_VOTER => inr tt
           | _ => inl SEPromotionPending
           end
  end.

Definition sendRequest : SM unit :=
  w ← getS;
  let c := config w in
  modifyS (λ w, mkWorld (config w) (disk w) (trace w) (started w) (reads w) (S (attempts w)));;
  let req := Admin.mkRequest (GetRaftId c) (GetRaftAdvertiseAddr c) (raft_AppliedIndex env (attempts w)) in
  match rpc_JoinCluster env (attempts w) (JoinAddr c) with
  | NoConnection => throw SEJoinInternal
  | CallFailed => emit (JoinRequested (JoinAddr c) req);; throw SEJoinInternal
  | RespondedUnknown => emit (JoinRequested (JoinAddr c) req);; throw SEJoinInternal
  | Responded code cluster =>
      emit (JoinRequested (JoinAddr c) req);;
      match code, cluster with
      | Admin.SUCCESS, None => throw SEJoinInternal
      | Admin.SUCCESS, Some info => lift (ownMember (GetRaftId c) (Admin.members info))
      | Admin.RAFT_NOT_ENABLED, _ => throw SENotRaftNode
      | Admin.NOT_LEADER, Some info => throw (SENotLeader (Admin.leader_admin_addr info))
      | Admin.NOT_LEADER, None => throw SEJoinInternal
      end
  end.

(** The callback [OnRetry]. *)
Definition onRetry (e : StartError) : SM unit :=
  match e with
  | SENotLeader admin => c ← get_config; set_config (set_join admin c)
  | _ => mret tt
  end.

(** The arguments of [retry.Do]: the number of attempts, and which errors end
    it at once ([retry.Unrecoverable]).  Durations are in nanoseconds. *)
Definition raftJoinRetryInterval : Z := 200 * 10^6.
Definition raftJoinPromotionTimeout : Z := 30 * 10^9.
Definition join_attempts : nat := Z.to_nat (raftJoinPromotionTimeout `div` raftJoinRetryInterval + 1).
Definition unrecoverable (e : StartError) : bool :=
  match e with SENotRaftNode => true | _ => false end.
End startup.

(** The retry library.  Its documentation: [Do] calls the function until it
    succeeds, the attempts are used up, an error is unrecoverable or the context
    is canceled; between two calls it calls [OnRetry] with the error. *)
Class RetryLib := {
  retry_Do : nat → (StartError → bool) → SM unit → (StartError → SM unit) → SM unit;
}.

Inductive retry_run (attempt : SM unit) (on_retry : StartError → SM unit) :
  World → outcome StartError unit → World → Prop :=
| rr_success w w' : attempt w = (Ok tt, w') → retry_run attempt on_retry w (Ok tt) w'
| rr_last w e w' : attempt w = (Err e, w') → retry_run attempt on_retry w (Err e) w'
| rr_last_notified w e w1 w2 :
    attempt w = (Err e, w1) → on_retry e w1 = (Ok tt, w2) → retry_run attempt on_retry w (Err e) w2
| rr_canceled w e : retry_run attempt on_retry w (Err e) w
| rr_again w e w1 w2 o w3 :
    attempt w = (Err e, w1) → on_retry e w1 = (Ok tt, w2) →
    retry_run attempt on_retry w2 o w3 → retry_run attempt on_retry w o w3.

Class RetryLaws `{RetryLib} := {
  retry_law n unrec attempt on_retry w o w' :
    retry_Do n unrec attempt on_retry w = (o, w') → retry_run attempt on_retry w o w';
}.

Section start.
Context (env : Env) `{RetryLib}.

Definition joinCluster : SM unit :=
  retry_Do join_attempts unrecoverable (sendRequest env) onRetry.

(** [closeErr := node.Close(); return errors.Join(err, closeErr)] *)
Definition fail_with {A} (node : Handle) (e : StartError) : SM A :=
  closeErr ← Close env node;
  throw (SEJoined e closeErr).

(** [if err != nil] with the same two lines. *)
Definition guard_node {A} (node : Handle) (m : SM A) : SM A :=
  r ← catch m;
  match r with
  | inl e => fail_with node e
  | inr a => mret a
  end.

Definition set_initialized (node : Handle) : Handle :=
  mkHandle (localID node) (localAddr node) (has_raft node) (has_transport node) (stores node)
           (hadExistingState node) true (closed node).

(** From the created node to the published one. *)
Definition start_node (identity_had : option raftIdentity * bool) (node : Handle) : SM unit :=
  let '(ident, had) := identity_had in
  c ← get_config;
  set_config (set_advertise (localAddr node) c);;
  c ← get_config;
  if had && bool_decide (from_option IAdvertiseAddr [] ident ≠ GetRaftAdvertiseAddr c)
  then fail_with node (SEAddressConflict (GetRaftAdvertiseAddr c) (from_option IAdvertiseAddr [] ident))
  else
    init ← guard_node node (validatePersistedRaftConfiguration env);
    if had && negb init then fail_with node SENoConfiguration
    else match validateRaftStartupIntent c init with
         | Some e => fail_with node e
         | None =>
             guard_node node (if init : bool then mret tt
                              else if Bootstrap c then createNewCluster env node
                              else joinCluster);;
             (if init : bool then mret true else guard_node node (waitForLocalRaftConfiguration env));;
             c ← get_config;
             (if had : bool then mret tt
              else guard_node node (
                on_disk (persistRaftIdentity (disk_fault env) (temp_name env) c (localAddr node));;
                emit IdentityWritten));;
             set_started (Some (set_initialized node))
         end.

Definition StartRaft (config_given : bool) : SM unit :=
  if negb config_given then throw SEConfigRequired
  else
    w ← getS;
    match started w with
    | Some _ => throw SEDuplicateStart
    | None =>
        let c := config w in
        if negb (EnableRaft c) then mret tt
        else
          '(ident, had, c') ← on_disk (resolveRaftIdentity (disk_fault env) (Some c));
          set_config c';;
          advertised ← lift (normalizeRaftAdvertiseAddr env (GetRaftAdvertiseAddr c'));
          set_config (set_advertise advertised c');;
          st ← newPersistentRaftStores env;
          r ← catch (initRaftNode env st);
          match r with
          | inl e => stores_Close env (Some st);; throw e
          | inr node => start_node (ident, had) node
          end
    end.

Definition ShutdownRaft : SM (list Resource) :=
  w ← getS;
  match started w with
  | None => mret []
  | Some node => set_started None;; Close env node
  end.
End start.

(** ** A program logic for start-up

    [triple P m Q X]: from a state that satisfies [P], [m] returns; with a value
    [a] the state satisfies [Q a], with an error [X]. *)
Definition triple {A} (P : World → Prop) (m : SM A) (Q : A → World → Prop) (X : World → Prop) : Prop :=
  ∀ w, P w → let '(o, w') := m w in
    match o with Ok a => Q a w' | Err _ => X w' | _ => False end.

Section rules.
Implicit Types (P X : World → Prop).

Lemma t_ret {A} P (a : A) (Q : A → World → Prop) X : (∀ w, P w → Q a w) → triple P (mret a) Q X.
Proof. intros HQ w Hw. by apply HQ. Qed.

Lemma t_throw {A} P e (Q : A → World → Prop) X : (∀ w, P w → X w) → triple P (throw e) Q X.
Proof. intros HX w Hw. by apply HX. Qed.

Lemma t_bind {A B} P (m : SM A) (f : A → SM B) R Q X :
  triple P m R X → (∀ a, triple (R a) (f a) Q X) → triple P (m ≫= f) Q X.
Proof.
  intros Hm Hf w Hw. specialize (Hm w Hw). unfold mbind, GM_bind.
  destruct (m w) as [[a|e| |] w1]; [|done..]. by apply (Hf a w1).
Qed.

Lemma t_getS {A} P (k : World → SM A) Q X :
  (∀ w0, P w0 → triple (λ w, w = w0) (k w0) Q X) → triple P (getS ≫= k) Q X.
Proof. intros Hk w Hw. by apply (Hk w Hw w). Qed.

Lemma t_get {A} P (k : Config → SM A) Q X :
  (∀ c, triple (λ w, P w ∧ config w = c) (k c) Q X) → triple P (get_config ≫= k) Q X.
Proof. intros Hk w Hw. by apply (Hk (config w) w). Qed.

Lemma t_lift {A} P (r : StartError + A) (Q : A → World → Prop) X :
  (∀ a w, r = inr a → P w → Q a w) → (∀ w, P w → X w) → triple P (lift r) Q X.
Proof. intros HQ HX. destruct r; [by apply t_throw|by apply t_ret; intros; apply HQ]. Qed.

Lemma t_catch {A} P (m : SM A) Q X : triple P m Q X →
  ∀ X', triple P (catch m) (λ r w, match r with inl _ => X w | inr a => Q a w end) X'.
Proof. intros Hm X' w Hw. specialize (Hm w Hw). unfold catch. by destruct (m w) as [[] ?]. Qed.

Lemma t_conseq {A} P P' (m : SM A) Q Q' X X' : triple P' m Q' X' →
  (∀ w, P w → P' w) → (∀ a w, Q' a w → Q a w) → (∀ w, X' w → X w) → triple P m Q X.
Proof.
  intros Hm HP HQ HX w Hw. specialize (Hm w (HP _ Hw)). destruct (m w) as [[a|e| |] w']; auto.
Qed.

Lemma t_pre {A} P P' (m : SM A) Q X : triple P' m Q X → (∀ w, P w → P' w) → triple P m Q X.
Proof. intros Hm HP w Hw. by apply Hm, HP. Qed.

Lemma t_pure {A} P (φ : Prop) (m : SM A) Q X : (φ → triple P m Q X) → triple (λ w, P w ∧ φ) m Q X.
Proof. intros Hm w [Hw Hφ]. by apply Hm. Qed.

(** A computation that cannot tell two states apart that agree on what [P] is
    about. *)
Lemma t_modify P g X : (∀ w, P w → P (g w)) → triple P (modifyS g) (λ _, P) X.
Proof. intros Hg w Hw. by apply Hg. Qed.

Lemma t_on_disk {A} P (m : GM Disk.OS IdentityError A) : total m →
  (∀ w d, P w → P (mkWorld (config w) d (trace w) (started w) (reads w) (attempts w))) →
  triple P (on_disk m) (λ _, P) P.
Proof.
  intros Hm HP w Hw. specialize (Hm (disk w)). unfold on_disk.
  destruct (m (disk w)) as [[a|e| |] d]; try done; by apply HP.
Qed.
End rules.

(** ** Resources *)

(** How often [r] is open. *)
Fixpoint held (r : Resource) (tr : list Event) : Z :=
  match tr with
  | [] => 0
  | Opened r' :: tr => (if decide (r' = r) then 1 else 0) + held r tr
  | Closed r' :: tr => (if decide (r' = r) then -1 else 0) + held r tr
  | _ :: tr => held r tr
  end%Z.

Definition occ (r : Resource) (l : list Resource) : Z := Z.of_nat (length (filter (λ x, x = r) l)).

Lemma held_app r tr1 tr2 : held r (tr1 ++ tr2) = (held r tr1 + held r tr2)%Z.
Proof. induction tr1 as [|[] tr1 IH]; simpl; lia. Qed.

Lemma occ_cons r x l : occ r (x :: l) = ((if decide (x = r) then 1 else 0) + occ r l)%Z.
Proof. unfold occ. rewrite filter_cons. case_decide; simpl; lia. Qed.

Section resources.
Context (base : Resource → Z) (s0 : option Handle).

(** Since the start, the resources of [l] were opened and not closed, and the
    node is not published. *)
Definition holds (l : list Resource) (w : World) : Prop :=
  started w = s0 ∧ ∀ r, held r (trace w) = (base r + occ r l)%Z.

Lemma t_open r l X : triple (holds l) (emit (Opened r)) (λ _, holds (r :: l)) X.
Proof.
  intros w [Hs Hh]. split; [done|]. intros r'. simpl. rewrite held_app, Hh, occ_cons. simpl.
  case_decide; lia.
Qed.

Lemma t_close r l X : triple (holds (r :: l)) (emit (Closed r)) (λ _, holds l) X.
Proof.
  intros w [Hs Hh]. split; [done|]. intros r'. simpl. rewrite held_app, Hh, occ_cons. simpl.
  case_decide; lia.
Qed.

Lemma t_event e l X : (∀ r, held r [e] = 0%Z) → triple (holds l) (emit e) (λ _, holds l) X.
Proof. intros He w [Hs Hh]. split; [done|]. intros r. simpl. rewrite held_app, Hh, He. lia. Qed.

Lemma t_set_config c l X : triple (holds l) (set_config c) (λ _, holds l) X.
Proof. by intros w Hw. Qed.

Context (env : Env).

Lemma t_store_Close l X : triple (holds (RStore :: l)) (store_Close env) (λ _, holds l) X.
Proof. eapply t_bind; [apply t_close|]. intros []. by apply t_ret. Qed.

Lemma t_stores_Close st l X : closer st = true →
  triple (holds (RStore :: l)) (stores_Close env (Some st)) (λ _, holds l) X.
Proof. unfold stores_Close. intros ->. apply t_store_Close. Qed.

Lemma t_Chmod path mode l X : triple (holds l) (Chmod env path mode) (λ _, holds l) X.
Proof.
  unfold Chmod. case_match; [|by apply t_ret]. eapply t_bind; [by apply t_event|]. intros []. by apply t_ret.
Qed.

Lemma t_close_store {A} e l (Q : A → World → Prop) :
  triple (holds (RStore :: l)) (close_store_and env e) Q (holds l).
Proof. eapply t_bind; [apply t_store_Close|]. intros ?. by apply t_throw. Qed.

(** The durable stores are all there. *)
Definition durable_stores (st : raftStores) : Prop := st = mkStores true true true true.

Lemma t_stores : triple (holds []) (newPersistentRaftStores env)
  (λ st w, holds [RStore] w ∧ durable_stores st) (holds []).
Proof.
  unfold newPersistentRaftStores. apply t_get. intros c. eapply t_bind.
  { apply (t_lift _ _ (λ _, holds [])); by intros; destruct_and!. }
  intros d. case_match; [by apply t_throw|].
  eapply t_bind; [apply t_Chmod|]. intros ok. destruct ok; [|by apply t_throw]. cbn [negb].
  cbv zeta. case_match; [case_match; by apply t_throw|].
  eapply t_bind; [apply t_open|]. intros []. eapply t_bind; [apply t_Chmod|]. intros ok.
  destruct ok; [|apply t_close_store]. cbn [negb]. case_match; [apply t_close_store|].
  eapply t_bind; [apply t_Chmod|]. intros ok.
  destruct ok; [|apply t_close_store]. cbn [negb]. case_match; [apply t_close_store|]. by apply t_ret.
Qed.

Definition complete (h : Handle) : Prop :=
  has_raft h = true ∧ has_transport h = true ∧ from_option closer false (stores h) = true ∧ closed h = false.

Lemma t_init st : durable_stores st → triple (holds [RStore]) (initRaftNode env st)
  (λ h w, holds [RRaft; RTransport; RStore] w ∧ complete h) (holds [RStore]).
Proof.
  intros ->. unfold initRaftNode, initRaftNodeWithDB. cbn [logStore stableStore snapshotStore andb negb].
  apply t_get. intros c.
  destruct (HasExistingState env); [|by apply t_throw; intros w []].
  destruct (ResolveTCPAddr env (GetRaftAdvertiseAddr c)); [|by apply t_throw; intros w []].
  cbv zeta. destruct (NewTCPTransport env _ _); [|by apply t_throw; intros w []].
  eapply t_bind; [eapply t_conseq; [apply (t_open _ [RStore] (holds [RStore]))|by intros w []|done|done]|].
  intros []. destruct (NewRaft env _); simpl.
  - eapply t_bind; [apply t_open|]. intros []. by apply t_ret.
  - eapply t_bind; [apply t_close|]. intros []. by apply t_throw.
Qed.

Lemma t_Close h X : complete h → triple (holds [RRaft; RTransport; RStore]) (Close env h) (λ _, holds []) X.
Proof.
  intros (H1 & H2 & H3 & H4). unfold Close, close_one. rewrite H1, H2, H4.
  destruct (stores h) as [st|]; [|done]. simpl in H3.
  eapply t_bind; [eapply t_bind; [apply t_close|intros []; by apply (t_ret _ _ (λ _, holds [RTransport; RStore]))]|].
  intros ?. eapply t_bind; [eapply t_bind; [apply t_close|intros []; by apply (t_ret _ _ (λ _, holds [RStore]))]|].
  intros ?. eapply t_bind; [by apply t_stores_Close|]. intros ?. by apply t_ret.
Qed.

Abbreviation all := [RRaft; RTransport; RStore].

Lemma t_fail {A} h e (Q : A → World → Prop) : complete h →
  triple (holds all) (fail_with env h e) Q (holds []).
Proof. intros Hh. eapply t_bind; [by apply t_Close|]. intros ?. by apply t_throw. Qed.

Lemma t_guard {A} h (m : SM A) Q : complete h → triple (holds all) m Q (holds all) →
  triple (holds all) (guard_node env h m) Q (holds []).
Proof.
  intros Hh Hm. eapply t_bind; [by apply t_catch|]. intros [e|a]; [by apply t_fail|by apply t_ret].
Qed.

Lemma t_validate l : triple (holds l) (validatePersistedRaftConfiguration env) (λ _, holds l) (holds l).
Proof.
  apply t_getS. intros w0 Hw0. eapply (t_bind _ _ _ (λ _, holds l)).
  { intros w ->. exact Hw0. }
  intros []. case_match; [|by apply t_throw]. case_match; [by apply t_ret|]. by apply t_lift.
Qed.

Lemma t_wait fuel k l : (∃ j, k ≤ j < k + fuel ∧ wait_event env j ≠ Tick) →
  triple (holds l) (waitLoop env fuel k) (λ _, holds l) (holds l).
Proof.
  revert k. induction fuel as [|fuel IH]; intros k (j & Hj & He); [lia|]. cbn [waitLoop].
  eapply t_bind; [apply t_validate|]. intros [|]; [by apply t_ret|].
  destruct (wait_event env k) eqn:Ek; [by apply t_throw..|]. apply IH.
  exists j. split; [|done]. assert (j ≠ k) by congruence. lia.
Qed.

Lemma t_send l : triple (holds l) (sendRequest env) (λ _, holds l) (holds l).
Proof.
  apply t_getS. intros w0 Hw0. cbv zeta. eapply (t_bind _ _ _ (λ _, holds l)).
  { intros w ->. exact Hw0. }
  intros []. case_match; [by apply t_throw|..]; (eapply t_bind; [by apply t_event|]); intros [];
    repeat case_match; try (by apply t_throw). by apply t_lift.
Qed.

Lemma t_onRetry e l X : triple (holds l) (onRetry e) (λ _, holds l) X.
Proof.
  destruct e; try by apply t_ret. apply t_get. intros c. eapply t_conseq; [apply t_set_config|by intros w []|done|done].
Qed.

Lemma t_join `{RetryLaws} l : triple (holds l) (joinCluster env) (λ _, holds l) (holds l).
Proof.
  intros w Hw. unfold joinCluster. destruct (retry_Do _ _ _ _ w) as [o w'] eqn:E.
  apply retry_law in E. induction E as [w w' E|w e w' E|w e w1 w2 E1 E2|w e|w e w1 w2 o w3 E1 E2 _ IH].
  - pose proof (t_send l w Hw) as Ht. by rewrite E in Ht.
  - pose proof (t_send l w Hw) as Ht. by rewrite E in Ht.
  - pose proof (t_send l w Hw) as Ht. rewrite E1 in Ht.
    pose proof (t_onRetry e l (holds l) w1 Ht) as Ht2. by rewrite E2 in Ht2.
  - done.
  - pose proof (t_send l w Hw) as Ht. rewrite E1 in Ht.
    pose proof (t_onRetry e l (holds l) w1 Ht) as Ht2. rewrite E2 in Ht2. by apply IH.
Qed.

(** The timer of the wait fires within the bound on its rounds. *)
Definition timer_fires : Prop := ∃ j, j < wait_rounds ∧ wait_event env j ≠ Tick.

Lemma t_start_node `{RetryLaws} ih h : timer_fires → complete h →
  triple (holds all) (start_node env ih h)
    (λ _ w, started w = Some (set_initialized h) ∧ ∀ r, held r (trace w) = (base r + occ r all)%Z) (holds []).
Proof.
  intros (j & Hj & Hje) Hh. destruct ih as [ident had]. unfold start_node.
  apply t_get. intros c0. eapply (t_bind _ _ _ (λ _, holds all)); [by intros w []|]. intros [].
  apply t_get. intros c. apply (t_pre _ (holds all)); [|by intros w []].
  case_match; [by apply t_fail|].
  eapply t_bind; [eapply t_conseq; [apply t_guard, t_validate; done|by intros w []|done|done]|]. intros init.
  case_match; [by apply t_fail|]. case_match; [by apply t_fail|].
  eapply (t_bind _ _ _ (λ _, holds all)).
  { apply t_guard; [done|]. destruct init; [by apply t_ret|]. destruct (Bootstrap c); [|apply t_join].
    eapply t_bind; [by apply t_event|]. intros []. case_match; [by apply t_ret|by apply t_throw]. }
  intros []. eapply (t_bind _ _ _ (λ _, holds all)).
  { destruct init; [by apply t_ret|]. apply t_guard; [done|]. apply t_wait. exists j. split; [lia|done]. }
  intros _. apply t_get. intros c'. eapply (t_bind _ _ _ (λ _, holds all)).
  { destruct had; [by apply t_ret; intros w []|].
    apply (t_pre _ (holds all)); [|by intros w []]. apply t_guard; [done|].
    eapply t_bind; [by apply t_on_disk; [apply total_persist|]|]. intros []. by apply t_event. }
  intros [] w [Hs Hr]. by split.
Qed.

Lemma t_StartRaft `{RetryLaws} given : timer_fires →
  triple (holds []) (StartRaft env given)
    (λ _ w, started w = s0 ∧ (∀ r, held r (trace w) = base r) ∨
            s0 = None ∧ (∃ h, complete h ∧ initialized h = true ∧ started w = Some h) ∧
            ∀ r, held r (trace w) = (base r + 1)%Z) (holds []).
Proof.
  intros Ht. unfold StartRaft. destruct given; [|by apply t_throw]. cbn [negb].
  apply t_getS. intros w0 Hw0. destruct (started w0) eqn:Es; [by apply t_throw; intros w ->|].
  cbv zeta. assert (s0 = None) as Hs0 by (destruct Hw0; congruence).
  destruct (EnableRaft (config w0)); cbn [negb].
  2:{ apply t_ret. intros w ->. left. destruct Hw0 as [Hs Hr]. split; [done|]. intros r. rewrite Hr.
      unfold occ. simpl. lia. }
  apply (t_pre _ (holds [])); [|by intros w ->].
  eapply t_bind; [by apply t_on_disk; [apply total_resolve|]|]. intros [[ident had] c'].
  eapply t_bind; [apply t_set_config|]. intros [].
  eapply (t_bind _ _ _ (λ _, holds [])); [by apply t_lift|]. intros adv.
  eapply t_bind; [apply t_set_config|]. intros [].
  eapply t_bind; [apply t_stores|]. intros st. apply t_pure. intros Hst.
  eapply t_bind; [by apply t_catch, t_init|]. intros [e|h].
  - eapply t_bind; [by apply t_stores_Close; rewrite Hst|]. intros ?. by apply t_throw.
  - intros w [Hw Hh]. pose proof (t_start_node (ident, had) h Ht Hh w Hw) as Hn.
    destruct (start_node env (ident, had) h w) as [[[]|e| |] w']; try done.
    destruct Hn as [Hs Hr]. right. split_and!; [done| |].
    + exists (set_initialized h). split_and!; try done; apply Hh.
    + intros r. rewrite Hr. unfold occ. by destruct r.
Qed.
End resources.

(** ** What start-up leaves alone *)

(** [pres R m]: however [m] ends, the state after it is related by [R] to the
    state before. *)
Definition pres {A} (R : relation World) (m : SM A) : Prop := ∀ w, R w (snd (m w)).

Section preserves.
Context (R : relation World) `{!PreOrder R}.

Lemma p_ret {A} (a : A) : pres R (mret a).
Proof. intros w. reflexivity. Qed.
Lemma p_throw {A} e : pres R (throw e : SM A).
Proof. intros w. reflexivity. Qed.
Lemma p_nofuel {A} : pres R (nofuel : SM A).
Proof. intros w. reflexivity. Qed.
Lemma p_getS : pres R getS.
Proof. intros w. reflexivity. Qed.
Lemma p_get_config : pres R get_config.
Proof. intros w. reflexivity. Qed.
Lemma p_lift {A} (r : StartError + A) : pres R (lift r).
Proof. intros w. by destruct r. Qed.
Lemma p_bind {A B} (m : SM A) (f : A → SM B) : pres R m → (∀ a, pres R (f a)) → pres R (m ≫= f).
Proof.
  intros Hm Hf w. specialize (Hm w). unfold mbind, GM_bind.
  destruct (m w) as [[a|e| |] w1]; [|done..]. simpl in Hm. etrans; [exact Hm|apply Hf].
Qed.
Lemma p_catch {A} (m : SM A) : pres R m → pres R (catch m).
Proof. intros Hm w. specialize (Hm w). unfold catch. by destruct (m w) as [[] ?]. Qed.
End preserves.

Ltac solve_pres :=
  repeat first [ apply p_ret, _ | apply p_throw, _ | apply p_nofuel, _ | apply p_getS, _
               | apply p_get_config, _ | apply p_lift, _ | apply p_catch
               | apply p_bind; [apply _| |intros ?]
               | match goal with |- pres _ (match ?x with _ => _ end) => destruct x end
               | by auto with skiff ].

(** The clusters that were created. *)
Fixpoint boots (tr : list Event) : list Server :=
  match tr with
  | [] => []
  | Bootstrapped s :: tr => s :: boots tr
  | _ :: tr => boots tr
  end.

Lemma boots_app tr1 tr2 : boots (tr1 ++ tr2) = boots tr1 ++ boots tr2.
Proof. induction tr1 as [|[] tr1 IH]; simpl; try done. by f_equal. Qed.

(** No cluster is created. *)
Definition calm (w w' : World) : Prop := boots (trace w') = boots (trace w).
#[export] Instance calm_preorder : PreOrder calm.
Proof. split; [done|]. intros w1 w2 w3. unfold calm. congruence. Qed.

(** Besides, the flags and the number of configurations read stay as they are. *)
Definition steady (w w' : World) : Prop :=
  calm w w' ∧ reads w' = reads w ∧ Bootstrap (config w') = Bootstrap (config w) ∧
  JoinAddr (config w') = JoinAddr (config w).
#[export] Instance steady_preorder : PreOrder steady.
Proof.
  split; [done|]. intros w1 w2 w3 (H1 & H2 & H3 & H4) (H5 & H6 & H7 & H8).
  split_and!; [by etrans|congruence..].
Qed.

Lemma emit_steady e : boots [e] = [] → pres steady (emit e).
Proof. intros He w. split_and!; try done. unfold calm. simpl. by rewrite boots_app, He, app_nil_r. Qed.

Lemma emit_calm e : boots [e] = [] → pres calm (emit e).
Proof. intros He w. apply (emit_steady e He w). Qed.

Lemma on_disk_steady {A} (m : GM Disk.OS IdentityError A) : pres steady (on_disk m).
Proof. intros w. unfold on_disk. by destruct (m (disk w)) as [o d]. Qed.

Lemma on_disk_calm {A} (m : GM Disk.OS IdentityError A) : pres calm (on_disk m).
Proof. intros w. apply (on_disk_steady m w). Qed.

Section calm.
Context (env : Env).

#[local] Hint Extern 0 (pres steady (emit _)) => by apply emit_steady : skiff.
#[local] Hint Extern 0 (pres calm (emit _)) => by apply emit_calm : skiff.
#[local] Hint Resolve on_disk_calm on_disk_steady : skiff.

Lemma stores_steady : pres steady (newPersistentRaftStores env).
Proof. unfold newPersistentRaftStores, close_store_and, store_Close, Chmod. cbv zeta. solve_pres. Qed.

Lemma init_steady st : pres steady (initRaftNode env st).
Proof. unfold initRaftNode, initRaftNodeWithDB. cbv zeta. solve_pres. Qed.

Lemma Close_calm h : pres calm (Close env h).
Proof. unfold Close, close_one, stores_Close, store_Close. solve_pres. Qed.

Lemma fail_calm {A} h e : pres calm (fail_with env h e : SM A).
Proof. unfold fail_with. apply p_bind; [apply _|apply Close_calm|]. intros. apply p_throw, _. Qed.

Lemma guard_calm {A} h (m : SM A) : pres calm m → pres calm (guard_node env h m).
Proof.
  intros Hm. unfold guard_node. apply p_bind; [apply _|by apply p_catch|].
  intros [e|a]; [apply fail_calm|apply p_ret, _].
Qed.

Lemma modify_calm g : (∀ w, trace (g w) = trace w) → pres calm (modifyS g).
Proof. intros Hg w. unfold calm. simpl. by rewrite Hg. Qed.

Lemma validate_calm : pres calm (validatePersistedRaftConfiguration env).
Proof.
  unfold validatePersistedRaftConfiguration. apply p_bind; [apply _|apply p_getS, _|]. intros w.
  apply p_bind; [apply _|by apply modify_calm|]. intros ?. solve_pres.
Qed.

Lemma wait_calm fuel k : pres calm (waitLoop env fuel k).
Proof.
  revert k. induction fuel as [|fuel IH]; intros k; cbn [waitLoop]; [apply p_nofuel, _|].
  apply p_bind; [apply _|apply validate_calm|]. intros ?. solve_pres.
Qed.

Lemma send_calm : pres calm (sendRequest env).
Proof.
  unfold sendRequest. apply p_bind; [apply _|apply p_getS, _|]. intros w. cbv zeta.
  apply p_bind; [apply _|by apply modify_calm|]. intros ?. solve_pres.
Qed.

Lemma retry_calm e : pres calm (onRetry e).
Proof. unfold onRetry, set_config. destruct e; solve_pres. Qed.

Lemma join_calm `{RetryLaws} : pres calm (joinCluster env).
Proof.
  intros w. unfold joinCluster. destruct (retry_Do _ _ _ _ w) as [o w'] eqn:E. simpl.
  apply retry_law in E.
  assert (Hs : ∀ w o w', sendRequest env w = (o, w') → calm w w').
  { intros w1 o1 w2 E1. pose proof (send_calm w1) as Hc. by rewrite E1 in Hc. }
  assert (Hr : ∀ e w o w', onRetry e w = (o, w') → calm w w').
  { intros e w1 o1 w2 E1. pose proof (retry_calm e w1) as Hc. by rewrite E1 in Hc. }
  induction E as [| | | |w e w1 w2 o w3 E1 E2 _ IH]; [by eauto..|by etrans; eauto|done|].
  etrans; [by eapply Hs|]. etrans; [by eapply Hr|done].
Qed.
End calm.

(** ** Creating and joining clusters *)
Section inversion.
Context (env : Env).
Implicit Types w : World.

(** A resolved identity changes the ID of the configuration only. *)
Lemma resolve_flags fault c s r s' : resolveRaftIdentity fault (Some c) s = (Ok r, s') →
  Bootstrap (snd r) = Bootstrap c ∧ JoinAddr (snd r) = JoinAddr c ∧ EnableRaft (snd r) = EnableRaft c.
Proof.
  unfold resolveRaftIdentity. intros E. apply gm_bind_inv in E as ([e|op] & s1 & _ & E).
  - case_decide; [|done]. apply gm_bind_inv in E as (legacy & s2 & _ & E).
    case_bool_decide; [destruct legacy as [|id [|]]|destruct (_ && _)]; try done; by injection E as <- <-.
  - destruct op as [data|]; [|done]. destruct (decode_identity (GetRaftId c) data); [done|].
    by injection E as <- <-.
Qed.

Lemma resolve_had fault c s i c' s' : resolveRaftIdentity fault (Some c) s ≠ (Ok (Some i, false, c'), s').
Proof.
  unfold resolveRaftIdentity. intros E. apply gm_bind_inv in E as ([e|op] & s1 & _ & E).
  - case_decide; [|done]. apply gm_bind_inv in E as (legacy & s2 & _ & E).
    case_bool_decide; [destruct legacy as [|id [|]]|destruct (_ && _)]; done.
  - destruct op as [data|]; [|done]. by destruct (decode_identity (GetRaftId c) data).
Qed.

Lemma pres_run {A} R (m : SM A) w o w' : pres R m → m w = (o, w') → R w w'.
Proof. intros Hm E. specialize (Hm w). by rewrite E in Hm. Qed.

Lemma validate_inv w init w' : validatePersistedRaftConfiguration env w = (Ok init, w') →
  ∃ srvs, raft_GetConfiguration env (reads w) = Some srvs ∧
    config w' = config w ∧ (init = true ↔ srvs ≠ []) ∧
    (init = true → ∃ s, s ∈ srvs ∧ ID s = GetRaftId (config w) ∧ Address s = GetRaftAdvertiseAddr (config w)).
Proof.
  unfold validatePersistedRaftConfiguration. rewrite gm_bind_getS, gm_bind_modifyS. intros E.
  destruct (raft_GetConfiguration env (reads w)) as [[|s srvs]|]; [|..|done].
  { injection E as <- <-. exists []. split_and!; done. }
  assert (Hc : ∀ l b, checkMember (GetRaftId (config w)) (GetRaftAdvertiseAddr (config w)) l = inr b →
    b = true ∧ ∃ s, s ∈ l ∧ ID s = GetRaftId (config w) ∧ Address s = GetRaftAdvertiseAddr (config w)).
  { intros l b. induction l as [|t l IH]; simpl; [done|].
    case_bool_decide as Hi; [intros [-> (u & ? & ?)]%IH; split; [done|]; exists u; set_solver|].
    case_bool_decide as Ha; [done|]. intros [= <-].
    split; [done|]. exists t. set_solver. }
  destruct (checkMember _ _ (s :: srvs)) as [e|b] eqn:Ec; [done|]. injection E as <- <-.
  destruct (Hc _ _ Ec) as [-> Hm]. exists (s :: srvs). split_and!; done.
Qed.

Lemma guard_inv {A} h (m : SM A) w a w' : guard_node env h m w = (Ok a, w') → m w = (Ok a, w').
Proof.
  unfold guard_node. intros E. apply gm_bind_inv in E as (r & w1 & E1 & E). unfold catch in E1.
  destruct (m w) as [[b|e| |] w2]; simplify_eq/=.
  - by injection E as <- <-.
  - unfold fail_with in E. by apply gm_bind_inv in E as (? & ? & _ & E).
Qed.

End inversion.

Section starting.
Context (env : Env) `{RetryLaws}.
Implicit Types w : World.

(** [start_node] after the start-up checks. *)
Lemma publish_calm h (m : SM unit) (init had : bool) : pres calm m →
  pres calm (guard_node env h m;;
    (if init then mret true else guard_node env h (waitForLocalRaftConfiguration env));;
    c ← get_config;
    (if had then mret tt
     else guard_node env h (
       on_disk (persistRaftIdentity (disk_fault env) (temp_name env) c (localAddr h));;
       emit IdentityWritten));;
    set_started (Some (set_initialized h))).
Proof.
  intros Hm. apply p_bind; [apply _|by apply guard_calm|]. intros _.
  apply p_bind; [apply _|destruct init; [apply p_ret, _|apply guard_calm, wait_calm]|]. intros _.
  apply p_bind; [apply _|apply p_get_config, _|]. intros c.
  apply p_bind; [apply _| |intros ?; by apply modify_calm].
  destruct had; [apply p_ret, _|]. apply guard_calm.
  apply p_bind; [apply _|apply on_disk_calm|]. intros _. by apply emit_calm.
Qed.

(** When [start_node] creates a cluster, it has found no configuration, no
    identity, and only the flag that asks for one. *)
Lemma start_node_boots ih h w o w' : start_node env ih h w = (o, w') → ¬ calm w w' →
  raft_GetConfiguration env (reads w) = Some [] ∧ Bootstrap (config w) = true ∧
  TrimSpace (JoinAddr (config w)) = [] ∧ snd ih = false.
Proof.
  destruct ih as [ident had]. intros E Hn. unfold start_node in E.
  rewrite (gm_bind_ok _ _ _ _ _ (eq_refl : get_config w = (Ok (config w), w))) in E.
  unfold set_config in E. rewrite gm_bind_modifyS in E. set (w1 := mkWorld _ _ _ _ _ _) in E.
  rewrite (gm_bind_ok _ _ _ _ _ (eq_refl : get_config w1 = (Ok (config w1), w1))) in E.
  destruct (had && _); [by exfalso; apply Hn; apply (pres_run calm _ w1 _ _ (fail_calm env h _) E)|].
  destruct (guard_node env h (validatePersistedRaftConfiguration env) w1) as [r w2] eqn:Eg.
  assert (Hc2 : calm w w2) by exact (pres_run _ _ _ _ _ (guard_calm env h _ (validate_calm env)) Eg).
  unfold mbind at 1, GM_bind at 1 in E. rewrite Eg in E.
  destruct r as [init|e| |]; [|by injection E as <- <-..].
  apply guard_inv, validate_inv in Eg as (srvs & Hr & _ & Hi & _).
  assert (Hcalm : ∀ m : SM unit, pres calm m → m w2 = (o, w') → False).
  { intros m Hm Em. apply Hn. etrans; [exact Hc2|]. by eapply pres_run. }
  destruct (had && negb init) eqn:Hh; [by exfalso; eapply Hcalm; [apply fail_calm|exact E]|].
  destruct (validateRaftStartupIntent (config w1) init) as [e|] eqn:Hv;
    [by exfalso; eapply Hcalm; [apply fail_calm|exact E]|].
  destruct init; [by destruct (Hcalm _ (publish_calm h (mret tt) true had (p_ret _ tt)) E)|].
  destruct (Bootstrap (config w1)) eqn:Hb; [|by destruct (Hcalm _ (publish_calm h _ false had (join_calm env)) E)].
  unfold validateRaftStartupIntent in Hv. rewrite Hb in Hv.
  case_bool_decide as Hj; [done|]. split_and!; [|done|done|].
  - change (reads w1) with (reads w) in Hr. rewrite Hr. destruct srvs; [done|]. by destruct (proj2 Hi ltac:(done)).
  - by rewrite andb_true_r in Hh.
Qed.
End starting.

(** ** What a successful start has established *)
Section success.
Context (env : Env) `{RetryLaws}.
Implicit Types w : World.

(** The local configuration, at some moment of the start, has the node. *)
Definition is_member (c : Config) : Prop :=
  ∃ k srvs s, raft_GetConfiguration env k = Some srvs ∧ s ∈ srvs ∧
    ID s = GetRaftId c ∧ Address s = GetRaftAdvertiseAddr c.

Lemma validate_member w w' : validatePersistedRaftConfiguration env w = (Ok true, w') →
  config w' = config w ∧ is_member (config w).
Proof.
  intros (srvs & Hg & Hc & _ & Hm)%validate_inv. split; [done|].
  destruct (Hm eq_refl) as (s & Hs & ?). by exists (reads w), srvs, s.
Qed.

Lemma validate_config w b w' : validatePersistedRaftConfiguration env w = (Ok b, w') → config w' = config w.
Proof. by intros (srvs & _ & ? & _)%validate_inv. Qed.

Lemma wait_member fuel k w b w' : waitLoop env fuel k w = (Ok b, w') →
  config w' = config w ∧ is_member (config w).
Proof.
  revert k w. induction fuel as [|fuel IH]; intros k w E; [done|]. cbn [waitLoop] in E.
  apply gm_bind_inv in E as ([|] & w1 & Ev & E).
  - apply validate_member in Ev as [Hc Hm]. by injection E as <- <-.
  - apply validate_config in Ev. destruct (wait_event env k); [done..|].
    apply IH in E as [Hc Hm]. by rewrite <- Ev.
Qed.

(** Joining changes the address to join and nothing else of the configuration. *)
Definition same_node (c c' : Config) : Prop :=
  GetRaftId c' = GetRaftId c ∧ GetRaftAdvertiseAddr c' = GetRaftAdvertiseAddr c ∧ GetDataDir c' = GetDataDir c.

Lemma send_config : pres (λ w w', config w' = config w) (sendRequest env).
Proof.
  assert (PreOrder (λ w w' : World, config w' = config w)) by (split; [done|by intros ??? -> ->]).
  unfold sendRequest. apply p_bind; [done|by apply p_getS|]. intros w. cbv zeta.
  apply p_bind; [done|by intros ?|]. intros ?. by solve_pres.
Qed.

Lemma retry_node e w o w' : onRetry e w = (o, w') → same_node (config w) (config w').
Proof.
  unfold onRetry. intros E. destruct e; try (by injection E as <- <-).
Qed.

Lemma join_voter w w' : joinCluster env w = (Ok tt, w') →
  same_node (config w) (config w') ∧
  ∃ n addr info m, rpc_JoinCluster env n addr = Responded Admin.SUCCESS (Some info) ∧
    m ∈ Admin.members info ∧ Admin.node_id m = GetRaftId (config w') ∧
    Admin.role m = Admin.CLUSTER_ROLE_VOTER.
Proof.
  unfold joinCluster. intros E%retry_law. remember (Ok tt) as o eqn:Ho.
  induction E as [w w' E| | | |w e w1 w2 o w3 E1 E2 _ IH]; try done.
  - pose proof (pres_run _ _ _ _ _ send_config E) as Hc. simpl in Hc. rewrite Hc. split; [done|].
    unfold sendRequest in E. rewrite gm_bind_getS in E. cbv zeta in E. rewrite gm_bind_modifyS in E.
    destruct (rpc_JoinCluster env (attempts w) (JoinAddr (config w))) as [| | |code cl] eqn:Er;
      [done|by apply gm_bind_inv in E as (? & ? & _ & E)..|].
    apply gm_bind_inv in E as ([] & w1 & _ & E).
    destruct code; [|by destruct cl|done]. destruct cl as [info|]; [|done].
    exists (attempts w), (JoinAddr (config w)), info.
    assert (Hm : ∀ ms, ownMember (GetRaftId (config w)) ms = inr tt →
      ∃ m, m ∈ ms ∧ Admin.node_id m = GetRaftId (config w) ∧ Admin.role m = Admin.CLUSTER_ROLE_VOTER).
    { induction ms as [|m ms IHm]; simpl; [done|]. case_bool_decide.
      - intros (m' & ? & ?)%IHm. exists m'. set_solver.
      - destruct (Admin.role m) eqn:Hr; try done. intros _. exists m. set_solver. }
    destruct (ownMember _ (Admin.members info)) as [e|[]] eqn:Eo; [done|].
    destruct (Hm _ Eo) as (m & Hin & Hid & Hro). by exists m.
  - pose proof (pres_run _ _ _ _ _ send_config E1) as Hc. simpl in Hc. apply retry_node in E2.
    destruct (IH Ho) as [Hs Hv]. split; [|done]. unfold same_node in *. rewrite Hc in E2.
    destruct Hs as (? & ? & ?), E2 as (? & ? & ?). split_and!; congruence.
Qed.

Lemma is_member_same c c' : same_node c c' → is_member c → is_member c'.
Proof.
  intros (Hi & Ha & _) (k & srvs & s & Hg & Hs & Hid & Had). exists k, srvs, s. split_and!; congruence.
Qed.

(** [start_node] publishes a member of the local configuration, with its
    identity on disk. *)
Lemma start_node_success ih h w w' : start_node env ih h w = (Ok tt, w') →
  is_member (config w') ∧ GetRaftId (config w') = GetRaftId (config w) ∧
  (snd ih = true ∨ ∃ c d, same_node c (config w') ∧
     persistRaftIdentity (disk_fault env) (temp_name env) c (localAddr h) d = (Ok tt, disk w')).
Proof.
  destruct ih as [ident had]. intros E. unfold start_node in E.
  rewrite (gm_bind_ok _ _ _ _ _ (eq_refl : get_config w = (Ok (config w), w))) in E.
  unfold set_config in E. rewrite gm_bind_modifyS in E. set (w1 := mkWorld _ _ _ _ _ _) in E.
  rewrite (gm_bind_ok _ _ _ _ _ (eq_refl : get_config w1 = (Ok (config w1), w1))) in E.
  destruct (had && _); [by apply gm_bind_inv in E as (? & ? & _ & E)|].
  apply gm_bind_inv in E as (init & w2 & Ev%guard_inv & E).
  destruct (had && negb init); [by apply gm_bind_inv in E as (? & ? & _ & E)|].
  destruct (validateRaftStartupIntent _ _); [by apply gm_bind_inv in E as (? & ? & _ & E)|].
  apply gm_bind_inv in E as ([] & w3 & Em%guard_inv & E).
  apply gm_bind_inv in E as (b & w4 & Ew & E).
  assert (H4 : is_member (config w4) ∧ GetRaftId (config w4) = GetRaftId (config w)).
  { pose proof (validate_config _ _ _ Ev) as Hc2. destruct init.
    - injection Em as <-. injection Ew as <- <-. apply validate_member in Ev as [_ Hm]. by rewrite Hc2.
    - apply guard_inv, wait_member in Ew as [-> Hm]. split; [done|].
      change (GetRaftId (config w)) with (GetRaftId (config w1)). rewrite <- Hc2.
      destruct (Bootstrap (config w1)); [|apply join_voter in Em as [(? & _) _]; done].
      unfold createNewCluster, emit in Em. rewrite gm_bind_modifyS in Em.
      destruct (BootstrapCluster env _); [|done]. by injection Em as <-. }
  rewrite (gm_bind_ok _ _ _ _ _ (eq_refl : get_config w4 = (Ok (config w4), w4))) in E.
  apply gm_bind_inv in E as ([] & w5 & Ep & E). injection E as <-. simpl.
  destruct had; [injection Ep as <-; by split_and!; [apply H4..|left]|].
  apply guard_inv, gm_bind_inv in Ep as ([] & w6 & Ed & Ep). injection Ep as <-. simpl.
  unfold on_disk in Ed. destruct (persistRaftIdentity _ _ _ _ (disk w4)) as [[[]|e| |] d] eqn:Epd; simplify_eq/=.
  split_and!; [apply H4..|]. right. exists (config w4), (disk w4). by split_and!.
Qed.

Lemma Chmod_true path mode w w' : Chmod env path mode w = (Ok true, w') →
  config w' = config w ∧ trace w' = trace w ++ [SetMode path mode].
Proof. unfold Chmod. destruct (os_Chmod env path mode); [|done]. by intros [= <-]. Qed.

Lemma close_store_not_ok {A} e w (a : A) w' : close_store_and env e w ≠ (Ok a, w').
Proof. intros Ec. unfold close_store_and in Ec. by apply gm_bind_inv in Ec as (? & ? & _ & Ec). Qed.

(** The one way in which the stores open. *)
Lemma stores_opened w w' st d : raftNodeDataDir (Some (config w)) = inr d →
  newPersistentRaftStores env w = (Ok st, w') →
  durable_stores st ∧
  boltdb_New env (mkBoltOptions (Path.Join [d; §"raft.db"]) raftStoreOpenDelay false) = None ∧
  trace w' = trace w ++ [SetMode d raftDirectoryMode; Opened RStore;
    SetMode (Path.Join [d; §"raft.db"]) raftDatabaseMode;
    SetMode (Path.Join [d; raftSnapshotDirectory]) raftDirectoryMode] ∧
  rejectUnreadableFinalizedSnapshots env (Path.Join [d; raftSnapshotDirectory]) = None.
Proof.
  intros Hd E. unfold newPersistentRaftStores in E.
  rewrite (gm_bind_ok _ _ _ _ _ (eq_refl : get_config w = (Ok (config w), w))), Hd in E.
  apply gm_bind_inv in E as (nd & w1 & El & E). injection El as <- <-. cbv zeta in E.
  destruct (os_MkdirAll env d _); [|done]. cbn [negb] in E.
  apply gm_bind_inv in E as ([] & w1 & E1 & E); [|done]. cbn [negb] in E. apply Chmod_true in E1 as [_ T1].
  destruct (boltdb_New env _) as [[]|]; try done. apply gm_bind_inv in E as ([] & w2 & E2 & E).
  injection E2 as <-. apply gm_bind_inv in E as ([] & w3 & E3 & E); cbn [negb] in E;
    [|by apply close_store_not_ok in E]. apply Chmod_true in E3 as [_ T3]. simpl in T3.
  destruct (NewFileSnapshotStore env d _); cbn [negb] in E; [|by apply close_store_not_ok in E].
  apply gm_bind_inv in E as ([] & w4 & E4 & E); cbn [negb] in E; [|by apply close_store_not_ok in E].
  apply Chmod_true in E4 as [_ T4].
  destruct (rejectUnreadableFinalizedSnapshots env _); [by apply close_store_not_ok in E|].
  injection E as <- <-. split_and!; [done|done| |done]. by rewrite T4, T3, T1, <- !app_assoc.
Qed.

Lemma reject_none dir : rejectUnreadableFinalizedSnapshots env dir = None →
  (∃ n, snapshotStore_List env = Some (S n)) ∨
  (snapshotStore_List env = Some 0 ∧ ∃ entries, os_ReadDir env dir = Some entries ∧
     ∀ name, (name, true) ∈ entries → HasSuffix name raftIncompleteSnapshotSuffix = true).
Proof.
  unfold rejectUnreadableFinalizedSnapshots. destruct (snapshotStore_List env) as [[|n]|]; [|by eauto|done].
  destruct (os_ReadDir env _) as [entries|]; [|done].
  destruct (existsb _ entries) eqn:Hx; [done|]. intros _. right. split; [done|].
  exists entries. split; [done|]. intros name Hn. destruct (HasSuffix name _) eqn:Hs; [done|].
  assert (existsb (λ e, snd e && negb (HasSuffix (fst e) raftIncompleteSnapshotSuffix)) entries = true) as Ht.
  { apply existsb_exists. exists (name, true). split; [by apply list_elem_of_In|]. simpl. by rewrite Hs. }
  congruence.
Qed.
End success.

(** ** Starting and stopping, for the clients of this file *)
Section lifecycle.
Context (env : Env) `{RetryLaws}.
Implicit Types w : World.

Lemma start_outcome given w : timer_fires env →
  match StartRaft env given w with
  | (Err _, w') => started w' = started w ∧ ∀ r, held r (trace w') = held r (trace w)
  | (Ok _, w') =>
      started w' = started w ∧ (∀ r, held r (trace w') = held r (trace w)) ∨
      started w = None ∧ (∃ h, complete h ∧ initialized h = true ∧ started w' = Some h) ∧
      ∀ r, held r (trace w') = (held r (trace w) + 1)%Z
  | _ => False
  end.
Proof.
  intros Ht. pose proof (t_StartRaft (λ r, held r (trace w)) (started w) env given Ht w) as Hs.
  assert (Hw : holds (λ r, held r (trace w)) (started w) [] w).
  { split; [done|]. intros r. unfold occ. simpl. lia. }
  specialize (Hs Hw). destruct (StartRaft env given w) as [[[]|e| |] w']; try done.
  destruct Hs as [? Hr]. split; [done|]. intros r. rewrite Hr. unfold occ. simpl. lia.
Qed.

Lemma shutdown_closes (base : Resource → Z) w h : started w = Some h → complete h →
  (∀ r, held r (trace w) = (base r + 1)%Z) →
  ∃ errs w', ShutdownRaft env w = (Ok errs, w') ∧ started w' = None ∧ ∀ r, held r (trace w') = base r.
Proof.
  intros Hh Hc Hr. unfold ShutdownRaft. rewrite gm_bind_getS, Hh.
  unfold set_started. rewrite gm_bind_modifyS. set (w1 := mkWorld _ _ _ _ _ _).
  assert (Hw1 : holds base None [RRaft; RTransport; RStore] w1).
  { split; [done|]. intros r. simpl. rewrite Hr. unfold occ. by destruct r. }
  pose proof (t_Close _ _ env h (λ _, False) Hc w1 Hw1) as Hcl.
  destruct (Close env h w1) as [[errs|e| |] w2]; try done. destruct Hcl as [Hs2 Hr2].
  exists errs, w2. split_and!; [done|done|]. intros r. rewrite Hr2. unfold occ. simpl. lia.
Qed.

(** The guards at the beginning. *)
Lemma start_guards given w :
  match StartRaft env given w with
  | (Err _, _) => given = false ∨ is_Some (started w) ∨ EnableRaft (config w) = true
  | (Ok _, w') => given = true ∧ started w = None ∧ (EnableRaft (config w) = false → w' = w)
  | _ => True
  end.
Proof.
  unfold StartRaft. destruct given; [|by left]. cbn [negb]. rewrite gm_bind_getS.
  destruct (started w); [right; left; by eexists|]. cbv zeta.
  destruct (EnableRaft (config w)); [|done]. cbn [negb].
  match goal with |- match ?r with _ => _ end => destruct r as [[] ?] end; auto. by split_and!.
Qed.

(** With Raft enabled, success means that a node is published. *)
Lemma start_publishes given w w' : started w = None → EnableRaft (config w) = true →
  StartRaft env given w = (Ok tt, w') → is_Some (started w').
Proof.
  intros Hs He E. unfold StartRaft in E. destruct given; [|done]. cbn [negb] in E.
  rewrite gm_bind_getS, Hs, He in E. cbn [negb] in E. cbv zeta in E.
  apply gm_bind_inv in E as ([[ident had] c'] & w1 & _ & E).
  apply gm_bind_inv in E as ([] & w2 & _ & E). apply gm_bind_inv in E as (adv & w3 & _ & E).
  apply gm_bind_inv in E as ([] & w4 & _ & E). apply gm_bind_inv in E as (st & w5 & _ & E).
  apply gm_bind_inv in E as ([e|h] & w6 & _ & E); [by apply gm_bind_inv in E as (? & ? & _ & E)|].
  unfold start_node in E. apply gm_bind_inv in E as (c & w7 & _ & E). apply gm_bind_inv in E as ([] & w8 & _ & E).
  apply gm_bind_inv in E as (c2 & w9 & _ & E).
  destruct (had && _); [by apply gm_bind_inv in E as (? & ? & _ & E)|].
  apply gm_bind_inv in E as (init & w10 & _ & E).
  destruct (had && negb init); [by apply gm_bind_inv in E as (? & ? & _ & E)|].
  destruct (validateRaftStartupIntent _ _); [by apply gm_bind_inv in E as (? & ? & _ & E)|].
  do 4 apply gm_bind_inv in E as (? & ? & _ & E). injection E as <-. by eexists.
Qed.
End lifecycle.

(** ** Theorems *)
Section theorems.
Context (env : Env) `{RetryLaws}.
Implicit Types w : World.

(** C13.  Start-up releases what it opened.  [StartRaft] returns.  When it returns
    an error, at whatever stage, there was no configuration, a node was published
    before or Raft is enabled; every store, transport and Raft instance it
    opened has been closed again, and which node is published has not changed.  When
    it succeeds, no node was published before; with Raft enabled exactly one of each
    resource is open in addition and a node that owns them, with a cluster
    configuration, is published; without Raft nothing at all has changed. *)
Theorem start_releases given w : timer_fires env →
  match StartRaft env given w with
  | (Err _, w') =>
      (given = false ∨ is_Some (started w) ∨ EnableRaft (config w) = true) ∧
      started w' = started w ∧ ∀ r, held r (trace w') = held r (trace w)
  | (Ok _, w') =>
      given = true ∧ started w = None ∧
      if EnableRaft (config w) then
        (∃ h, complete h ∧ initialized h = true ∧ started w' = Some h) ∧
        ∀ r, held r (trace w') = (held r (trace w) + 1)%Z
      else w' = w
  | _ => False
  end.
Proof.
  intros Ht. pose proof (start_outcome env given w Ht) as Ho. pose proof (start_guards env given w) as Hg.
  destruct (StartRaft env given w) as [[[]|e| |] w'] eqn:E; try done. destruct Hg as (Hgiven & Hs & Hoff).
  split_and!; [done|done|]. destruct (EnableRaft (config w)) eqn:He; [|by apply Hoff].
  destruct (start_publishes env given w w' Hs He E) as [h Hh]. destruct Ho as [[Hs' _]|(_ & Hn & Hr)]; [congruence|done].
Qed.

(** Shutdown undoes start-up.  After a start that published a node,
    [ShutdownRaft] closes the Raft instance, the transport and the store and
    unpublishes the node, whichever of these calls report an error. *)
Lemma shutdown_releases given w w' : timer_fires env → started w = None →
  StartRaft env given w = (Ok tt, w') → is_Some (started w') →
  ∃ errs w'', ShutdownRaft env w' = (Ok errs, w'') ∧ started w'' = None ∧
    ∀ r, held r (trace w'') = held r (trace w).
Proof.
  intros Ht Hs E Hst. pose proof (start_outcome env given w Ht) as Ho. rewrite E in Ho.
  destruct Ho as [[Hs' _]|(_ & (h & Hc & _ & Hh) & Hr)].
  { rewrite Hs', Hs in Hst. by destruct Hst. }
  by apply (shutdown_closes env _ w' h).
Qed.

(** C24.  No cluster is created over existing state.  If [StartRaft] bootstraps a
    cluster, then the local store held no configuration, no identity had been
    persisted, and the command line asked to bootstrap and not to join. *)
Theorem bootstrap_only_fresh given w o w' : StartRaft env given w = (o, w') →
  boots (trace w') ≠ boots (trace w) →
  raft_GetConfiguration env (reads w) = Some [] ∧ Bootstrap (config w) = true ∧
  TrimSpace (JoinAddr (config w)) = [] ∧
  ∃ c' d, resolveRaftIdentity (disk_fault env) (Some (config w)) (disk w) = (Ok (None, false, c'), d).
Proof.
  intros E Hn. change (¬ calm w w') in Hn. unfold StartRaft in E.
  destruct given; [|by injection E as <- <-]. cbn [negb] in E. rewrite gm_bind_getS in E.
  destruct (started w); [by injection E as <- <-|]. cbv zeta in E.
  destruct (EnableRaft (config w)); [|by injection E as <- <-]. cbn [negb] in E.
  apply gm_bind_split in E as [([[ident had] c'] & w1 & Er & E)|[r Er]];
    [|by destruct Hn; eapply (pres_run calm); [apply on_disk_calm|exact Er]].
  unfold on_disk in Er. destruct (resolveRaftIdentity _ _ (disk w)) as [[r|e| |] d] eqn:Ei; simplify_eq/=.
  destruct (resolve_flags _ _ _ _ _ Ei) as (Hfb & Hfj & _). simpl in Hfb, Hfj.
  unfold set_config in E. rewrite gm_bind_modifyS in E. set (w2 := mkWorld _ _ _ _ _ _) in E.
  apply gm_bind_split in E as [(adv & w3 & El & E)|[r El]];
    [|by destruct Hn; apply (pres_run calm _ w2 _ _ (p_lift _ _) El)].
  assert (w3 = w2) as -> by (unfold lift in El; destruct (normalizeRaftAdvertiseAddr _ _); [done|by injection El]).
  rewrite gm_bind_modifyS in E. set (w4 := mkWorld _ _ _ _ _ _) in E.
  assert (Hw4 : calm w w4 ∧ reads w4 = reads w ∧ Bootstrap (config w4) = Bootstrap (config w) ∧
                JoinAddr (config w4) = JoinAddr (config w)) by (by split_and!).
  apply gm_bind_split in E as [(st & w5 & Es & E)|[r Es]].
  2:{ destruct Hn. etrans; [apply Hw4|]. apply (pres_run steady _ _ _ _ (stores_steady env) Es). }
  pose proof (pres_run steady _ _ _ _ (stores_steady env) Es) as H5.
  apply gm_bind_split in E as [(nd & w6 & En & E)|[r En]].
  2:{ destruct Hn. etrans; [apply Hw4|]. etrans; [apply H5|].
      apply (pres_run steady _ _ _ _ (p_catch _ _ (init_steady env st)) En). }
  pose proof (pres_run steady _ _ _ _ (p_catch _ _ (init_steady env st)) En) as H6.
  assert (H46 : steady w4 w6) by by etrans. destruct H46 as (Hc & Hr & Hb & Hj), Hw4 as (Hc' & Hr' & Hb' & Hj').
  destruct nd as [e|h].
  { destruct Hn. etrans; [exact Hc'|]. etrans; [exact Hc|]. eapply (pres_run calm); [|exact E].
    unfold stores_Close, store_Close. solve_pres. by apply emit_calm. }
  destruct (start_node_boots env (ident, had) h w6 o w' E) as (Hg & Hbo & Hjo & Hh).
  { intros Hcc. apply Hn. etrans; [exact Hc'|]. by etrans. }
  simpl in Hh. subst had. split_and!; [congruence|congruence|congruence|].
  exists c', d. destruct ident as [i|]; [|done]. by apply resolve_had in Ei.
Qed.

(** A published node is a member of its cluster, with its identity on disk.
    When [StartRaft] publishes a node, the node's local configuration has been
    seen to contain its ID at its advertised address, and its identity was
    persisted before, or [persistRaftIdentity] has succeeded. *)
Lemma published_node_is_member given w w' : started w = None → EnableRaft (config w) = true →
  StartRaft env given w = (Ok tt, w') →
  is_member env (config w') ∧
  ((∃ i c' d, resolveRaftIdentity (disk_fault env) (Some (config w)) (disk w) = (Ok (i, true, c'), d)) ∨
   ∃ c addr d, same_node c (config w') ∧
     persistRaftIdentity (disk_fault env) (temp_name env) c addr d = (Ok tt, disk w')).
Proof.
  intros Hs He E. unfold StartRaft in E. destruct given; [|done]. cbn [negb] in E.
  rewrite gm_bind_getS, Hs, He in E. cbn [negb] in E. cbv zeta in E.
  apply gm_bind_inv in E as ([[ident had] c'] & w1 & Er & E).
  unfold on_disk in Er. destruct (resolveRaftIdentity _ _ (disk w)) as [[r|e| |] d] eqn:Ei; simplify_eq/=.
  apply gm_bind_inv in E as ([] & w2 & _ & E). apply gm_bind_inv in E as (adv & w3 & _ & E).
  apply gm_bind_inv in E as ([] & w4 & _ & E). apply gm_bind_inv in E as (st & w5 & _ & E).
  apply gm_bind_inv in E as ([e|h] & w6 & _ & E); [by apply gm_bind_inv in E as (? & ? & _ & E)|].
  apply (start_node_success env (ident, had) h) in E as (Hm & _ & Hd). split; [done|]. simpl in Hd.
  destruct Hd as [->|(c & d' & Hsn & Hp)]; [left; by eauto|right; by eauto].
Qed.

(** Joining ends with a vote.  [joinCluster] succeeds only after an admin
    service has answered that the node of this configuration is a voter. *)
Lemma joined_as_voter w w' : joinCluster env w = (Ok tt, w') →
  ∃ n addr info m, rpc_JoinCluster env n addr = Responded Admin.SUCCESS (Some info) ∧
    m ∈ Admin.members info ∧ Admin.node_id m = GetRaftId (config w) ∧
    Admin.role m = Admin.CLUSTER_ROLE_VOTER.
Proof. intros E. by apply join_voter in E as [(<- & _) Hv]. Qed.

(** Storage is opened safely.  The stores of a node open only after the
    node's directory was made private, the database file and the snapshot directory
    are made private too, writes to the database are synced, and only if some
    finalized snapshot is readable, or the snapshot directory holds nothing but
    incomplete snapshots and plain files. *)
Lemma storage_opened_safely w w' st d : raftNodeDataDir (Some (config w)) = inr d →
  newPersistentRaftStores env w = (Ok st, w') →
  durable_stores st ∧
  boltdb_New env (mkBoltOptions (Path.Join [d; §"raft.db"]) raftStoreOpenDelay false) = None ∧
  trace w' = trace w ++ [SetMode d raftDirectoryMode; Opened RStore;
    SetMode (Path.Join [d; §"raft.db"]) raftDatabaseMode;
    SetMode (Path.Join [d; raftSnapshotDirectory]) raftDirectoryMode] ∧
  ((∃ n, snapshotStore_List env = Some (S n)) ∨
   (snapshotStore_List env = Some 0 ∧
    ∃ entries, os_ReadDir env (Path.Join [d; raftSnapshotDirectory]) = Some entries ∧
      ∀ name, (name, true) ∈ entries → HasSuffix name raftIncompleteSnapshotSuffix = true)).
Proof.
  intros Hd E. destruct (stores_opened env w w' st d Hd E) as (Hst & Hb & Htr & Hr). split_and!; [done..|].
  by apply reject_none.
Qed.
End theorems.

(** ** Witnesses: first starts of a node *)

(** A retry library that calls the function once. *)
Definition once (attempt : SM unit) : SM unit := λ w,
  match attempt w with
  | (Ok _, w') => (Ok tt, w')
  | (Err e, w') => (Err e, w')
  | _ => (Err SEJoinInternal, w)
  end.
#[local] Instance once_lib : RetryLib := {| retry_Do _ _ attempt _ := once attempt |}.
#[local] Instance once_laws : RetryLaws.
Proof.
  split. intros n unrec attempt on_retry w o w' E. unfold retry_Do, once_lib, once in E.
  destruct (attempt w) as [[[]|e| |] w1] eqn:Ea; injection E as <- <-;
    [by apply rr_success|by apply rr_last|apply rr_canceled..].
Qed.

Definition local : TCPAddr := mkTCPAddr false false 7000 §"127.0.0.1:7000".
Definition own_server : Server := mkServer Voter §"n1" §"127.0.0.1:7000".

(** Everything works; the store is empty at first. *)
Definition calm_env : Env := {|
  os_MkdirAll _ _ := true; os_Chmod _ _ := true; os_ReadDir _ := Some [(§"1-2-3.tmp", true)];
  boltdb_New _ := None; NewFileSnapshotStore _ _ := true; snapshotStore_List := Some 0;
  ResolveTCPAddr _ := Some local; HasExistingState := Some false;
  NewTCPTransport _ _ := Some §"127.0.0.1:7000"; NewRaft _ := true;
  raft_GetConfiguration k := Some (if bool_decide (k = 0) then [] else [own_server]);
  BootstrapCluster _ := true; raft_AppliedIndex _ := 0%N;
  rpc_JoinCluster _ _ := Responded Admin.SUCCESS (Some (Admin.mkProtoCluster [] [] []
    [Admin.mkProtoMember §"n1" §"127.0.0.1:7000" Admin.CLUSTER_ROLE_VOTER
       Admin.CLUSTER_MEMBER_STATE_VOTER 0%N 0%N]));
  wait_event _ := TimerFired;
  Shutdown_fails := false; transport_Close_fails := true; store_Close_fails := false;
  disk_fault := no_fault; temp_name := first_temp;
|}.

Definition new_machine : World := mkWorld (node_config §"n1") empty_disk [] None 0 0.
Definition running : World := Eval vm_compute in snd (StartRaft calm_env true new_machine).

Lemma timer_fires_calm : timer_fires calm_env.
Proof. exists 0. split; [apply Nat.lt_0_succ | discriminate]. Qed.

Lemma start_releases_witness :
  match StartRaft calm_env true new_machine with
  | (Ok _, w') =>
      (∃ h, complete h ∧ initialized h = true ∧ started w' = Some h) ∧
      ∀ r, held r (trace w') = (held r (trace new_machine) + 1)%Z
  | _ => False
  end.
Proof.
  pose proof (start_releases calm_env true new_machine timer_fires_calm) as H.
  assert (E : fst (StartRaft calm_env true new_machine) = Ok tt) by (vm_compute; reflexivity).
  destruct (StartRaft calm_env true new_machine) as [o w']. simpl in E. subst o. exact (proj2 (proj2 H)).
Defined.

Lemma bootstrap_only_fresh_witness :
  raft_GetConfiguration calm_env 0 = Some [] ∧ Bootstrap (node_config §"n1") = true ∧
  TrimSpace (JoinAddr (node_config §"n1")) = [] ∧
  ∃ c' d, resolveRaftIdentity (disk_fault calm_env) (Some (node_config §"n1")) empty_disk = (Ok (None, false, c'), d).
Proof.
  apply (bootstrap_only_fresh calm_env true new_machine (Ok tt) running).
  - vm_compute. reflexivity.
  - vm_compute. discriminate.
Defined.

Lemma storage_opened_safely_witness :
  durable_stores (mkStores true true true true) ∧
  boltdb_New calm_env (mkBoltOptions (Path.Join [§"/data/y/raft/n1"; §"raft.db"]) raftStoreOpenDelay false) = None ∧
  trace (snd (newPersistentRaftStores calm_env new_machine)) =
    [SetMode §"/data/y/raft/n1" raftDirectoryMode; Opened RStore;
     SetMode §"/data/y/raft/n1/raft.db" raftDatabaseMode;
     SetMode §"/data/y/raft/n1/snapshots" raftDirectoryMode] ∧
  ((∃ n, snapshotStore_List calm_env = Some (S n)) ∨
   (snapshotStore_List calm_env = Some 0 ∧
    ∃ entries, os_ReadDir calm_env §"/data/y/raft/n1/snapshots" = Some entries ∧
      ∀ name, (name, true) ∈ entries → HasSuffix name raftIncompleteSnapshotSuffix = true)).
Proof.
  apply (storage_opened_safely calm_env new_machine (snd (newPersistentRaftStores calm_env new_machine))
           (mkStores true true true true) §"/data/y/raft/n1").
  - vm_compute. reflexivity.
  - vm_compute. reflexivity.
Defined.
