(* ===== verification/Cluster.v ===== *)
(** * The replicated database as a whole

    The replicas of a cluster apply one log, the one the Raft library commits.
    The steps are those the repository's code takes: a leader proposes a client's
    write ([executeRESPCmd]) or announces itself ([observeClusterLeaderChange]),
    a replica applies the next entry ([fsm.Apply]), serves a read, takes a
    snapshot ([fsm.Snapshot], [Persist]), shuts Raft down ([ShutdownRaft]),
    restarts, or restores a snapshot, its own or one installed from the leader
    ([fsm.Restore]).  That the committed log
    is one sequence is what the library guarantees; everything else is proved. *)

From S2P Require Import Prelude GoLib Resp MemDB CmdExecutor Utf8 Json Fsm Membership Config Identity Startup.
Import Build MemDB.

(** ** Announcing the leader ([observeClusterLeaderChange]) *)

Definition GetLeaderAdminAddr (s : Fsm.State) : gostring := Fsm.leaderAdminAddr s.

(** The entry a new leader proposes: its record of the leader's address. *)
Definition leaderChangedCmd (leaderAdminAddr : gostring) : Cmd := mkCmd OpLeaderChanged [leaderAdminAddr].

(** The two goroutines, on one observed leader: the first passes on the
    observations of this node, the second proposes unless the leader is the last
    one it has seen.  The result is the new [lastLeader] and whether an entry is
    proposed. *)
Definition observe_step (localID lastLeader leaderID : gostring) : gostring * bool :=
  if bool_decide (leaderID = localID) then
    if bool_decide (leaderID = lastLeader) then (lastLeader, false)
    else (leaderID, true)
  else (lastLeader, false).

(** The proposals for a sequence of observed leaders; [lastLeader] is empty at
    first. *)
Fixpoint observe (localID lastLeader : gostring) (leaders : list gostring) : list bool :=
  match leaders with
  | [] => []
  | l :: leaders =>
      let '(last, proposed) := observe_step localID lastLeader l in
      proposed :: observe localID last leaders
  end.

Definition announcements (localID : gostring) (leaders : list gostring) : nat :=
  length (filter (λ b, b = true) (observe localID [] leaders)).

(** ** Replicas and their steps *)
Record Replica := mkReplica { rfsm : Fsm.State; rapplied : nat }.

Record System := mkSystem {
  log : list gostring;
  replicas : gmap nat Replica;
  snapshots : list (nat * gostring);      (** the index and the text of each *)
}.

Definition new_replica : Replica := mkReplica (Fsm.mkState initial []) 0.

Definition append (data : gostring) (c : System) : System := mkSystem (log c ++ [data]) (replicas c) (snapshots c).
Definition put (i : nat) (r : Replica) (c : System) : System := mkSystem (log c) (<[i := r]> (replicas c)) (snapshots c).
Definition with_db (d : Mem) (r : Replica) : Replica :=
  mkReplica (Fsm.mkState d (Fsm.leaderAdminAddr (rfsm r))) (rapplied r).

(** Raft is shut down on node [i], which is no replica any more until it starts
    again. *)
Definition take_down (i : nat) (c : System) : System := mkSystem (log c) (delete i (replicas c)) (snapshots c).

Inductive cstep : System → System → Prop :=
| cs_write c cmd :
    IsWriteOp cmd = true → cmd_fits cmd → cstep c (append (CmdCodec.Marshal cmd) c)
| cs_announce c i r :
    replicas c !! i = Some r →
    cstep c (append (CmdCodec.Marshal (leaderChangedCmd (GetLeaderAdminAddr (rfsm r)))) c)
| cs_apply c i r data save resp s' :
    replicas c !! i = Some r → log c !! rapplied r = Some data →
    Fsm.Apply save data (rfsm r) = (Ok resp, s') →
    cstep c (put i (mkReplica s' (S (rapplied r))) c)
| cs_read c i r save cmd :
    replicas c !! i = Some r → IsWriteOp cmd = false →
    cstep c (put i (with_db (snd (ExecuteLocally save cmd (Fsm.db (rfsm r)))) r) c)
| cs_snapshot c i r l d ks data :
    replicas c !! i = Some r → Fsm.Snapshot (Fsm.db (rfsm r)) = (Ok l, d) → heap d !! l = Some ks →
    Fsm.Persist None None ks = ([Fsm.SinkWrite data; Fsm.SinkClose], None) →
    cstep c (mkSystem (log c) (<[i := with_db d r]> (replicas c)) ((rapplied r, data) :: snapshots c))
| cs_start c i : cstep c (put i new_replica c)
| cs_stop c i : cstep c (take_down i c)
| cs_restore c i r k data d :
    replicas c !! i = Some r → (k, data) ∈ snapshots c →
    Fsm.Restore data (Fsm.db (rfsm r)) = (Ok tt, d) →
    cstep c (put i (mkReplica (Fsm.mkState d (Fsm.leaderAdminAddr (rfsm r))) k) c).

Definition start : System := mkSystem [] ∅ [].

(** ** What a log means *)
Definition entry_effect (ks : Keyspace) (data : gostring) : Keyspace :=
  match CmdCodec.Unmarshal data with
  | None => ks
  | Some cmd => if decide (Op cmd = OpLeaderChanged) then ks else snd (denote None (request_of cmd) ks)
  end.
Definition replay (entries : list gostring) : Keyspace := foldl entry_effect ∅ entries.

(** The entries of a log: client writes, and announcements of no address. *)
Definition entry_ok (data : gostring) : Prop :=
  (∃ cmd, data = CmdCodec.Marshal cmd ∧ IsWriteOp cmd = true ∧ cmd_fits cmd) ∨
  data = CmdCodec.Marshal (leaderChangedCmd []).

Record invariant (c : System) : Prop := {
  inv_log : Forall entry_ok (log c);
  inv_replica i r : replicas c !! i = Some r →
    rapplied r ≤ length (log c) ∧ mem_wf (Fsm.db (rfsm r)) ∧
    deref (Fsm.db (rfsm r)) = replay (take (rapplied r) (log c)) ∧ Fsm.leaderAdminAddr (rfsm r) = [];
  inv_snapshot k data : (k, data) ∈ snapshots c →
    k ≤ length (log c) ∧ data = SnapCodec.Encode (replay (take k (log c)));
}.

Lemma write_apply save cmd s : mem_wf (Fsm.db s) → IsWriteOp cmd = true → cmd_fits cmd →
  ∃ resp s', Fsm.Apply save (CmdCodec.Marshal cmd) s = (Ok resp, s') ∧ mem_wf (Fsm.db s') ∧
    deref (Fsm.db s') = entry_effect (deref (Fsm.db s)) (CmdCodec.Marshal cmd) ∧
    Fsm.leaderAdminAddr s' = Fsm.leaderAdminAddr s.
Proof.
  intros Hwf Hw Hfit. pose proof (write_op_not_admin cmd Hw) as Hna.
  destruct (apply_Marshal save cmd s Hwf Hfit Hna) as (s' & E & Hwf' & Hd & Hl).
  eexists _, s'. split; [exact E|]. split_and!; [done| |done]. rewrite Hd.
  unfold entry_effect. rewrite Unmarshal_Marshal, decide_False by exact Hna.
  by rewrite (denote_write_save save None) by by apply write_op_repair.
Qed.

(** Applying an entry of the log returns, and does what the entry means. *)
Lemma entry_apply save data s : entry_ok data → mem_wf (Fsm.db s) → Fsm.leaderAdminAddr s = [] →
  ∃ resp s', Fsm.Apply save data s = (Ok resp, s') ∧ mem_wf (Fsm.db s') ∧
    deref (Fsm.db s') = entry_effect (deref (Fsm.db s)) data ∧ Fsm.leaderAdminAddr s' = [].
Proof.
  intros [(cmd & -> & Hw & Hfit)| ->] Hwf Hl.
  - destruct (write_apply save cmd s Hwf Hw Hfit) as (resp & s' & E & ? & ? & ?). exists resp, s'.
    split_and!; [done|done|done|congruence].
  - exists (Fsm.RespString RespOk), (Fsm.mkState (Fsm.db s) []). unfold entry_effect, Fsm.Apply.
    rewrite Unmarshal_Marshal. by split_and!.
Qed.

Lemma entry_valid data ks : entry_ok data → valid_ks ks → valid_ks (entry_effect ks data).
Proof.
  intros [(cmd & -> & Hw & _)| ->] Hks; unfold entry_effect; rewrite Unmarshal_Marshal; [|done].
  case_decide; [done|]. apply denote_valid; [apply valid_repair|done].
Qed.

Lemma replay_valid entries : Forall entry_ok entries → valid_ks (replay entries).
Proof.
  unfold replay. intros He. assert (Hk : valid_ks ∅) by apply map_Forall_empty.
  revert Hk. generalize (∅ : Keyspace). induction He as [|d entries Hd _ IH]; intros ks Hk; [done|].
  simpl. by apply IH, entry_valid.
Qed.

Lemma replay_snoc entries data : replay (entries ++ [data]) = entry_effect (replay entries) data.
Proof. unfold replay. by rewrite foldl_app. Qed.

(** ** The steps keep the invariant *)
Section steps.
Implicit Types c : System.

Lemma inv_start : invariant start.
Proof. split; [done|done|]. intros k data Hk. by apply elem_of_nil in Hk. Qed.

Lemma inv_append c data : entry_ok data → invariant c → invariant (append data c).
Proof.
  intros Hd [Hl Hr Hs]. split; simpl.
  - apply Forall_app. split; [done|]. by apply Forall_singleton.
  - intros i r Hi. destruct (Hr i r Hi) as (Ha & Hwf & Hv & Hla). rewrite length_app.
    split_and!; [lia|done| |done]. by rewrite take_app_le.
  - intros k d Hk. destruct (Hs k d Hk) as [Hle ->]. rewrite length_app. split; [lia|]. by rewrite take_app_le.
Qed.

Lemma inv_put c i r : invariant c →
  rapplied r ≤ length (log c) → mem_wf (Fsm.db (rfsm r)) →
  deref (Fsm.db (rfsm r)) = replay (take (rapplied r) (log c)) → Fsm.leaderAdminAddr (rfsm r) = [] →
  invariant (put i r c).
Proof.
  intros [Hl Hr Hs] ????. split; [done| |done]. intros j r' Hj. simpl in Hj.
  apply lookup_insert_Some in Hj as [[<- <-]|[_ Hj]]; [done|]. by apply Hr in Hj.
Qed.

Lemma inv_apply c i r data save resp s' : invariant c → replicas c !! i = Some r →
  log c !! rapplied r = Some data → Fsm.Apply save data (rfsm r) = (Ok resp, s') →
  invariant (put i (mkReplica s' (S (rapplied r))) c).
Proof.
  intros Hc Hi Hd E. destruct (inv_replica c Hc i r Hi) as (Ha & Hwf & Hv & Hla).
  assert (Hok : entry_ok data) by exact (proj1 (Forall_lookup _ _) (inv_log c Hc) _ _ Hd).
  destruct (entry_apply save data (rfsm r) Hok Hwf Hla) as (resp' & s1 & E1 & Hwf1 & Hd1 & Hl1).
  rewrite E in E1. injection E1 as <- <-. apply inv_put; simpl; [done| |done| |done].
  - apply lookup_lt_Some in Hd. lia.
  - rewrite Hd1, Hv. rewrite (take_S_r _ _ _ Hd). symmetry. apply replay_snoc.
Qed.

Lemma inv_snap c i r l d ks data : invariant c → replicas c !! i = Some r →
  Fsm.Snapshot (Fsm.db (rfsm r)) = (Ok l, d) → heap d !! l = Some ks →
  Fsm.Persist None None ks = ([Fsm.SinkWrite data; Fsm.SinkClose], None) →
  invariant (mkSystem (log c) (<[i := with_db d r]> (replicas c)) ((rapplied r, data) :: snapshots c)).
Proof.
  intros Hc Hi Es Hk Ep. destruct (inv_replica c Hc i r Hi) as (Ha & Hwf & Hv & Hla).
  destruct (snapshot_fresh _ _ _ Hwf Es) as (Hl & Hks & Hne & Hdr). rewrite Hk in Hl. injection Hl as ->.
  assert (Hwfd : mem_wf d).
  { destruct Hwf as (l0 & Hl0 & Hs0). exists l0. rewrite Hks. split; [done|].
    unfold Fsm.Snapshot in Es. rewrite gm_bind_getS in Es. apply make_map_spec in Es as (Hn & Hh & _).
    rewrite Hh. destruct (decide (l = l0)) as [->|]; [rewrite lookup_insert_eq; by eexists|].
    by rewrite lookup_insert_ne. }
  assert (Hp : invariant (put i (with_db d r) c)) by (apply inv_put; simpl; [done..|by rewrite Hdr|done]).
  split; [apply Hp|apply Hp|]. simpl. intros k data' [Heq|Hin]%elem_of_cons; [|by apply (inv_snapshot c Hc)].
  injection Heq as -> ->. split; [done|]. injection Ep as <-. by rewrite Hv.
Qed.

Lemma initial_empty : deref initial = ∅.
Proof. vm_compute. reflexivity. Qed.

Lemma inv_new c i : invariant c → invariant (put i new_replica c).
Proof.
  intros Hc. apply inv_put; [done|apply Nat.le_0_l|exact initial_wf|exact initial_empty|reflexivity].
Qed.

Lemma inv_restore c i r k data d : invariant c → replicas c !! i = Some r → (k, data) ∈ snapshots c →
  Fsm.Restore data (Fsm.db (rfsm r)) = (Ok tt, d) →
  invariant (put i (mkReplica (Fsm.mkState d (Fsm.leaderAdminAddr (rfsm r))) k) c).
Proof.
  intros Hc Hi Hk E. destruct (inv_replica c Hc i r Hi) as (Ha & Hwf & Hv & Hla).
  destruct (inv_snapshot c Hc k data Hk) as [Hle ->].
  assert (Hval : valid_ks (replay (take k (log c)))) by (apply replay_valid, Forall_take, Hc).
  destruct (restore_Encode _ (Fsm.db (rfsm r)) Hval) as (m' & E' & Hwf' & Hd').
  rewrite E in E'. injection E' as ->. by apply inv_put.
Qed.

Lemma inv_step c c' : cstep c c' → invariant c → invariant c'.
Proof.
  intros Hs Hc. destruct Hs as [c cmd Hw Hf|c i r Hi|c i r data save resp s' Hi Hd E|c i r save cmd Hi Hw
    |c i r l d ks data Hi Es Hk Ep|c i|c i|c i r k data d Hi Hk E].
  - apply inv_append; [left; by eauto|done].
  - apply inv_append; [right|done]. unfold GetLeaderAdminAddr. destruct (inv_replica c Hc i r Hi) as (_ & _ & _ & ->). done.
  - by eapply inv_apply.
  - destruct (inv_replica c Hc i r Hi) as (Ha & Hwf & Hv & Hla). unfold ExecuteLocally.
    rewrite mem_read_unchanged by done. by apply inv_put.
  - by eapply inv_snap.
  - by apply inv_new.
  - destruct Hc as [Hl Hr Hsn]. split; [done| |done]. intros j r Hj. simpl in Hj. apply lookup_delete_Some in Hj as [_ Hj]. by apply Hr in Hj.
  - by eapply inv_restore.
Qed.

Lemma inv_reachable c : rtc cstep start c → invariant c.
Proof.
  intros Hr. assert (Hi : ∀ c1 c2, rtc cstep c1 c2 → invariant c1 → invariant c2)
    by (induction 1; eauto using inv_step). by eapply Hi, inv_start.
Qed.
End steps.

(** ** Theorems *)
Section theorems.
Implicit Types c : System.

(** C1.  Replicas agree.  In every reachable state of the cluster, after any
    interleaving of writes, announcements, applications, reads, snapshots,
    shutdowns, restarts and restores, the key space of a replica is the one the specification
    of the commands assigns to the part of the log the replica has applied; so two
    replicas that have applied the same number of entries hold the same data. *)
Theorem replicas_agree c i r : rtc cstep start c → replicas c !! i = Some r →
  deref (Fsm.db (rfsm r)) = replay (take (rapplied r) (log c)) ∧
  ∀ j r', replicas c !! j = Some r' → rapplied r' = rapplied r →
    deref (Fsm.db (rfsm r')) = deref (Fsm.db (rfsm r)).
Proof.
  intros Hr Hi. apply inv_reachable in Hr. destruct (inv_replica c Hr i r Hi) as (_ & _ & Hv & _).
  split; [done|]. intros j r' Hj Ha. destruct (inv_replica c Hr j r' Hj) as (_ & _ & -> & _).
  by rewrite Hv, Ha.
Qed.

(** Every committed entry can be applied.  In every reachable state, a
    replica that has not applied the whole log can apply its next entry: the
    state machine neither panics nor fails to return, whatever the clients sent,
    and the step leads to a reachable state. *)
Lemma apply_progress c i r data save : rtc cstep start c → replicas c !! i = Some r →
  log c !! rapplied r = Some data →
  ∃ resp s', Fsm.Apply save data (rfsm r) = (Ok resp, s') ∧
             rtc cstep start (put i (mkReplica s' (S (rapplied r))) c).
Proof.
  intros Hr Hi Hd. pose proof (inv_reachable c Hr) as Hc.
  destruct (inv_replica c Hc i r Hi) as (_ & Hwf & _ & Hla).
  assert (Hok : entry_ok data) by exact (proj1 (Forall_lookup _ _) (inv_log c Hc) _ _ Hd).
  destruct (entry_apply save data (rfsm r) Hok Hwf Hla) as (resp & s' & E & _).
  exists resp, s'. split; [done|]. eapply rtc_r; [done|]. by eapply cs_apply.
Qed.

(** C37.  The address of the leader is never known.  The entry a leader announces
    itself with carries what the leader has recorded as the leader's address; the
    record is empty at first, so it stays empty on every replica: a node that is
    not the leader redirects a joining node to the empty address, and the joining
    node then retries there. *)
Theorem redirect_leads_nowhere {R} `{MembershipLaws R} c i r clock (core : Core R) n req w :
  rtc cstep start c → replicas c !! i = Some r →
  raftNode core = Some n → leaderAdminAddr core = Fsm.leaderAdminAddr (rfsm r) →
  raft_leads (Membership.raft n) = false →
  TrimSpace (Admin.req_node_id req) ≠ [] → TrimSpace (Admin.req_addr req) ≠ [] →
  ∃ resp, Admin.JoinClusterRPC clock req core = (Ok resp, core) ∧ Admin.code resp = Admin.NOT_LEADER ∧
    JoinAddr (config (snd (onRetry (SENotLeader (Admin.leader_admin_addr (Admin.cluster resp))) w))) = [].
Proof.
  intros Hr Hi Hn Hla Hl Hid Had. apply inv_reachable in Hr.
  destruct (inv_replica c Hr i r Hi) as (_ & _ & _ & Hempty). rewrite Hempty in Hla.
  exists (Admin.mkResponse Admin.NOT_LEADER (Admin.mkProtoCluster [] [] [] [])). split; [|done].
  unfold Admin.JoinClusterRPC. rewrite !bool_decide_false by done. simpl.
  unfold JoinClusterWithProgress. rewrite gm_bind_getS, Hn, Hl. simpl. by rewrite Hla.
Qed.

(** A node announces itself at most once.  Whatever sequence of leaders a
    node observes, its own re-elections included, it proposes at most one
    announcement over its lifetime: it remembers the last leader it announced,
    which is always itself, and does not hear of the others. *)
Lemma announced_at_most_once localID leaders : announcements localID leaders ≤ 1.
Proof.
  assert (Hnone : ∀ l, length (filter (λ b, b = true) (observe localID localID l)) = 0).
  { induction l as [|x l IH]; [done|]. simpl. unfold observe_step.
    destruct (bool_decide (x = localID)); by rewrite filter_cons_False by done. }
  unfold announcements. generalize (@nil ascii) as last. induction leaders as [|x l IH]; intros last; simpl; [lia|].
  unfold observe_step. case_bool_decide as Hx; [|by rewrite filter_cons_False by done].
  case_bool_decide; [by rewrite filter_cons_False by done|].
  rewrite filter_cons_True by done. simpl. subst x. rewrite Hnone. lia.
Qed.
End theorems.

(** ** Witnesses *)
Definition set_k : gostring := CmdCodec.Marshal (mkCmd §"SET" [§"k"; §"v"]).
Definition two_nodes : System := append set_k (put 1 new_replica (put 0 new_replica start)).

Lemma two_nodes_reachable : rtc cstep start two_nodes.
Proof.
  unfold two_nodes, set_k. eapply rtc_l; [apply (cs_start _ 0)|]. eapply rtc_l; [apply (cs_start _ 1)|].
  apply rtc_once, cs_write; [reflexivity|]. vm_compute. split; [discriminate | reflexivity].
Qed.

Lemma replicas_agree_witness :
  deref (Fsm.db (rfsm new_replica)) = replay (take 0 (log two_nodes)) ∧
  ∀ j r', replicas two_nodes !! j = Some r' → rapplied r' = 0 →
    deref (Fsm.db (rfsm r')) = deref (Fsm.db (rfsm new_replica)).
Proof.
  apply (replicas_agree two_nodes 0 new_replica two_nodes_reachable). vm_compute. reflexivity.
Defined.

Lemma apply_progress_witness :
  ∃ resp s', Fsm.Apply None set_k (rfsm new_replica) = (Ok resp, s') ∧
             rtc cstep start (put 1 (mkReplica s' 1) two_nodes).
Proof.
  apply (apply_progress two_nodes 1 new_replica set_k None two_nodes_reachable);
    vm_compute; reflexivity.
Defined.

(** A follower: as [Local], but never the leader. *)
Definition follower_lib : MembershipLib Local.Raft := {|
  raft_leads _ := false;
  GetConfiguration r := inr (Local.conf r, Local.index r);
  AddNonvoter _ _ _ r := (inl [], r);
  AddVoter _ _ _ r := (inl [], r);
  AppliedIndex r := Local.index r;
  LeaderWithID _ := ([], []);
|}.
Lemma follower_laws : @MembershipLaws Local.Raft follower_lib.
Proof.
  refine {| servers := Local.conf |}.
  - by intros r c i [= <- _].
  - intros id addr prev r res r' [= <- <-]. right. split; [done|]. by eexists.
  - intros id addr prev r res r' [= <- <-]. right. split; [done|]. by eexists.
Defined.

Lemma redirect_leads_nowhere_witness :
  ∃ resp, @Admin.JoinClusterRPC _ follower_lib Local.clock Local.request Local.core = (Ok resp, Local.core) ∧
    Admin.code resp = Admin.NOT_LEADER ∧
    JoinAddr (config (snd (onRetry (SENotLeader (Admin.leader_admin_addr (Admin.cluster resp))) new_machine))) = [].
Proof.
  apply (@redirect_leads_nowhere _ follower_lib follower_laws two_nodes 0 new_replica Local.clock Local.core
           Local.joining Local.request new_machine two_nodes_reachable).
  - vm_compute. reflexivity.
  - reflexivity.
  - reflexivity.
  - reflexivity.
  - vm_compute. discriminate.
  - vm_compute. discriminate.
Defined.
