(* ===== verification/Consistency.v ===== *)
(** * What the clients of a cluster observe

    The clients talk to any node of the cluster at any time.  A write is
    [executeRESPCmd] on a node that takes itself for the leader: it proposes the
    command ([applyCmdViaRaftNode]), waits for the future of the Raft library and
    answers ([raft_reply]).  The library may commit the entry before or after
    the client has its answer, or never; the future is completed when the
    proposing node applies the entry, or with an error.  A read is executed on
    the node's own database.  In between the replicas take the steps of [Cluster]:
    they apply entries, take snapshots, restart and restore.

    When Raft is shut down on a node ([ShutdownRaft]), its connections stay open:
    [executeRESPCmd] then executes reads and writes on the node's own database,
    and so does [ApplyCmdViaRaft] for a write that had passed the check before.
    [ApplyCmdViaRaft] holds the lock [raftNodeMu] for reading while it waits for its
    future, and [ShutdownRaft] holds it for writing until the Raft instance has
    ended; so a node shuts down when no write waits on it, and executes commands
    without the log only after its last entry was applied.

    The theorems: the writes that are acknowledged by nodes with Raft are
    linearizable, with the log as their order ([writes_linearizable]); and every
    client has the session guarantees ([session_guarantees]), of which those for
    reads hold on one node while it stays up.  Answers without the log are given only
    by nodes on which Raft was shut down.  [stale_read] shows that a
    reader of another node can be behind, [unlogged_write] that a write can be
    acknowledged without the log. *)

From S2P Require Import Prelude GoLib Resp MemDB CmdExecutor Utf8 Json Fsm RespServer Cluster.
Import Build MemDB.

(** ** The events that clients see *)

(** A write is known by the place of its invocation among the events.  [k] is the
    place of a write in the log, and the number of entries that the node had
    applied when it executed a read.  [ELocal] is the answer to a command, a read or
    a write, on a node on which Raft was shut down. *)
Inductive Event :=
| EInvoke (i : nat) (cmd : Cmd)
| EAnswer (id i : nat) (cmd : Cmd) (k : nat) (reply : gostring)
| EError (id i : nat) (cmd : Cmd)
| ERefuse (i : nat) (cmd : Cmd)
| ERead (i : nat) (cmd : Cmd) (k : nat) (reply : gostring)
| EShutdown (i : nat)
| ELocal (i : nat) (cmd : Cmd) (reply : gostring)
| ERestart (i : nat).

(** A connection that waits in [f.Error()]; [w_result] is what the library has
    completed the future with. *)
Record Waiting := mkWaiting { w_node : nat; w_cmd : Cmd; w_result : option (nat * gostring) }.

(** [origins]: which write, if any, proposed each entry of the log.  [proposed]:
    the proposals that the library may still commit.  [stopped]: the databases of the
    nodes on which Raft was shut down. *)
Record Service := mkService {
  sys : System;
  origins : list (option nat);
  proposed : gmap nat Cmd;
  waiting : gmap nat Waiting;
  events : list Event;
  stopped : gmap nat Mem;
}.

Definition new_service : Service := mkService start [] ∅ ∅ [] ∅.

Definition with_sys (c : System) (s : Service) : Service :=
  mkService c (origins s) (proposed s) (waiting s) (events s) (stopped s).
Definition emit (e : Event) (s : Service) : Service :=
  mkService (sys s) (origins s) (proposed s) (waiting s) (events s ++ [e]) (stopped s).
Definition set_waiting (ws : gmap nat Waiting) (s : Service) : Service :=
  mkService (sys s) (origins s) (proposed s) ws (events s) (stopped s).
Definition set_stopped (st : gmap nat Mem) (s : Service) : Service :=
  mkService (sys s) (origins s) (proposed s) (waiting s) (events s) st.
Definition committed (data : gostring) (origin : option nat) (s : Service) : Service :=
  mkService (append data (sys s)) (origins s ++ [origin])
    (match origin with Some id => delete id (proposed s) | None => proposed s end) (waiting s) (events s) (stopped s).

(** The future of the entry at [k], if the proposer is node [i] and still waits. *)
Definition complete (i k : nat) (resp : Fsm.Response) (s : Service) : gmap nat Waiting :=
  match origins s !! k with
  | Some (Some id) =>
      match waiting s !! id with
      | Some w =>
          if bool_decide (w_node w = i) && bool_decide (w_result w = None) then
            <[id := mkWaiting i (w_cmd w) (Some (k, raft_reply (Some (iface_of resp))))]> (waiting s)
          else waiting s
      | None => waiting s
      end
  | _ => waiting s
  end.

(** The steps.  Whether a node takes itself for the leader is up to the library;
    so is when a proposal is committed or fails.  A snapshot that a running node
    installs is not older than its state.  A write can be refused after the shutdown
    when it was routed to Raft before. *)
Inductive sstep : Service → Service → Prop :=
| ss_invoke s i r cmd : replicas (sys s) !! i = Some r → IsWriteOp cmd = true → cmd_fits cmd →
    sstep s (mkService (sys s) (origins s) (<[length (events s) := cmd]> (proposed s))
               (<[length (events s) := mkWaiting i cmd None]> (waiting s)) (events s ++ [EInvoke i cmd]) (stopped s))
| ss_refuse s i cmd : is_Some (replicas (sys s) !! i) ∨ is_Some (stopped s !! i) → IsWriteOp cmd = true →
    sstep s (emit (ERefuse i cmd) s)
| ss_commit s id cmd : proposed s !! id = Some cmd → sstep s (committed (CmdCodec.Marshal cmd) (Some id) s)
| ss_answer s id i cmd k reply : waiting s !! id = Some (mkWaiting i cmd (Some (k, reply))) →
    sstep s (set_waiting (delete id (waiting s)) (emit (EAnswer id i cmd k reply) s))
| ss_error s id i cmd : waiting s !! id = Some (mkWaiting i cmd None) →
    sstep s (set_waiting (delete id (waiting s)) (emit (EError id i cmd) s))
| ss_read s i r save cmd reply d : replicas (sys s) !! i = Some r → IsWriteOp cmd = false → cmd_fits cmd →
    ExecuteLocally save cmd (Fsm.db (rfsm r)) = (Ok reply, d) →
    sstep s (emit (ERead i cmd (rapplied r) reply) (with_sys (put i (with_db d r) (sys s)) s))
| ss_announce s i r : replicas (sys s) !! i = Some r →
    sstep s (committed (CmdCodec.Marshal (leaderChangedCmd (GetLeaderAdminAddr (rfsm r)))) None s)
| ss_apply s i r data save resp f : replicas (sys s) !! i = Some r → log (sys s) !! rapplied r = Some data →
    Fsm.Apply save data (rfsm r) = (Ok resp, f) →
    sstep s (set_waiting (complete i (rapplied r) resp s) (with_sys (put i (mkReplica f (S (rapplied r))) (sys s)) s))
| ss_snapshot s i r l d ks data : replicas (sys s) !! i = Some r →
    Fsm.Snapshot (Fsm.db (rfsm r)) = (Ok l, d) → heap d !! l = Some ks →
    Fsm.Persist None None ks = ([Fsm.SinkWrite data; Fsm.SinkClose], None) →
    sstep s (with_sys (mkSystem (log (sys s)) (<[i := with_db d r]> (replicas (sys s)))
                         ((rapplied r, data) :: snapshots (sys s))) s)
| ss_shutdown s i r : replicas (sys s) !! i = Some r → (∀ id w, waiting s !! id = Some w → w_node w ≠ i) →
    sstep s (set_stopped (<[i := Fsm.db (rfsm r)]> (stopped s)) (emit (EShutdown i) (with_sys (take_down i (sys s)) s)))
| ss_local s i m save cmd reply m' : stopped s !! i = Some m → ExecuteLocally save cmd m = (Ok reply, m') →
    sstep s (set_stopped (<[i := m']> (stopped s)) (emit (ELocal i cmd reply) s))
| ss_start s i :
    sstep s (set_stopped (delete i (stopped s)) (set_waiting (filter (λ '(_, w), w_node w ≠ i) (waiting s))
               (emit (ERestart i) (with_sys (put i new_replica (sys s)) s))))
| ss_restore s i r k data d : replicas (sys s) !! i = Some r → (k, data) ∈ snapshots (sys s) → rapplied r ≤ k →
    Fsm.Restore data (Fsm.db (rfsm r)) = (Ok tt, d) →
    sstep s (with_sys (put i (mkReplica (Fsm.mkState d (Fsm.leaderAdminAddr (rfsm r))) k) (sys s)) s).

Definition reachable (s : Service) : Prop := rtc sstep new_service s.

(** ** Specification *)

(** The reply that the commands' specification gives after the first [k] entries. *)
Definition spec_reply (save : option gostring) (cmd : Cmd) (k : nat) (s : Service) : gostring :=
  fst (denote save (request_of cmd) (replay (take k (log (sys s))))).

(** How much of the log an event has seen. *)
Definition seen (e : Event) : option nat :=
  match e with
  | EAnswer _ _ _ k _ => Some (S k)
  | ERead _ _ k _ => Some k
  | _ => None
  end.
Definition event_node (e : Event) : nat :=
  match e with
  | EInvoke i _ | EAnswer _ i _ _ _ | EError _ i _ | ERefuse i _ | ERead i _ _ _ | EShutdown i | ELocal i _ _ | ERestart i => i
  end.

(** Node [i] was not restarted after the event at [a]. *)
Definition up_since (i a : nat) (s : Service) : Prop := ∀ b, a < b → events s !! b ≠ Some (ERestart i).

(** ** The invariant *)

(** A proposal that is not in the log yet. *)
Definition proposed_ok (s : Service) (id : nat) (cmd : Cmd) : Prop :=
  (∃ i, events s !! id = Some (EInvoke i cmd)) ∧ IsWriteOp cmd = true ∧ cmd_fits cmd ∧
  ∀ k, origins s !! k ≠ Some (Some id).

(** A waiting connection has no answer yet; a completed future has its reply. *)
Definition waiting_ok (s : Service) (id : nat) (w : Waiting) : Prop :=
  events s !! id = Some (EInvoke (w_node w) (w_cmd w)) ∧
  (∀ j i cmd k reply, events s !! j ≠ Some (EAnswer id i cmd k reply)) ∧
  ∀ k reply, w_result w = Some (k, reply) → origins s !! k = Some (Some id) ∧
    reply = spec_reply None (repair_cmd (w_cmd w)) k s ∧
    ∀ r, replicas (sys s) !! w_node w = Some r → k < rapplied r.

(** Raft was shut down on node [i] since its last start. *)
Definition shut_down (s : Service) (i : nat) : Prop := ∃ a, events s !! a = Some (EShutdown i) ∧ up_since i a s.

Record served (s : Service) : Prop := {
  sv_system : rtc cstep start (sys s);
  sv_length : length (origins s) = length (log (sys s));
  sv_proposed id cmd : proposed s !! id = Some cmd → proposed_ok s id cmd;
  sv_origin k id : origins s !! k = Some (Some id) →
    ∃ i cmd, events s !! id = Some (EInvoke i cmd) ∧ log (sys s) !! k = Some (CmdCodec.Marshal cmd) ∧
      IsWriteOp cmd = true ∧ cmd_fits cmd;
  sv_once k k' id : origins s !! k = Some (Some id) → origins s !! k' = Some (Some id) → k = k';
  sv_waiting id w : waiting s !! id = Some w → waiting_ok s id w;
  sv_answer j id i cmd k reply : events s !! j = Some (EAnswer id i cmd k reply) →
    id < j ∧ events s !! id = Some (EInvoke i cmd) ∧ origins s !! k = Some (Some id) ∧
    reply = spec_reply None (repair_cmd cmd) k s ∧
    ∀ j' i' cmd' k' reply', events s !! j' = Some (EAnswer id i' cmd' k' reply') → j' = j;
  sv_read j i cmd k reply : events s !! j = Some (ERead i cmd k reply) →
    k ≤ length (log (sys s)) ∧ ∃ save, reply = spec_reply save cmd k s;
  sv_order j e p id k : events s !! j = Some e → seen e = Some p → j < id → origins s !! k = Some (Some id) → p ≤ k;
  sv_up a e p r : events s !! a = Some e → seen e = Some p → up_since (event_node e) a s →
    replicas (sys s) !! event_node e = Some r → p ≤ rapplied r;
  sv_session a b e p i cmd k reply : events s !! a = Some e → seen e = Some p → a < b →
    events s !! b = Some (ERead i cmd k reply) → event_node e = i →
    (∀ c, a < c < b → events s !! c ≠ Some (ERestart i)) → p ≤ k;
  sv_stopped i m : stopped s !! i = Some m → shut_down s i;
  sv_local b i cmd reply : events s !! b = Some (ELocal i cmd reply) →
    ∃ a, a < b ∧ events s !! a = Some (EShutdown i) ∧ ∀ c, a < c < b → events s !! c ≠ Some (ERestart i);
}.

(** ** The steps keep the invariant *)
Section steps.
Implicit Types (s : Service) (e : Event) (w : Waiting).

Lemma snoc_last {A} (l : list A) x : (l ++ [x]) !! length l = Some x.
Proof. apply lookup_snoc_Some. by right. Qed.

Lemma spec_reply_prefix save cmd k s s' more : k ≤ length (log (sys s)) → log (sys s') = log (sys s) ++ more →
  spec_reply save cmd k s' = spec_reply save cmd k s.
Proof. intros Hk Hl. unfold spec_reply. rewrite Hl. by rewrite take_app_le. Qed.

Lemma up_since_emit i a e s : up_since i a (emit e s) → up_since i a s.
Proof. intros Hu b Hb He. apply (Hu b Hb). simpl. by apply lookup_app_l_Some. Qed.

(** The Raft library's own steps: the log stays, no replica is set back. *)
Lemma served_quiet c s : served s → rtc cstep start c → log c = log (sys s) →
  (∀ i r', replicas c !! i = Some r' → ∃ r, replicas (sys s) !! i = Some r ∧ rapplied r ≤ rapplied r') →
  served (with_sys c s).
Proof.
  intros Hs Hc Hl Hup. assert (Hsp : ∀ save cmd k, spec_reply save cmd k (with_sys c s) = spec_reply save cmd k s)
    by (intros; unfold spec_reply; simpl; by rewrite Hl).
  split; simpl; rewrite ?Hl; try apply Hs; [done| | | |].
  - intros id w Hw. destruct (sv_waiting s Hs id w Hw) as (He & Hn & Hr). split_and!; [done|done|].
    intros k reply Hk. destruct (Hr k reply Hk) as (Ho & -> & Hlt). rewrite Hsp. split_and!; [done|done|].
    intros r' Hr'. destruct (Hup _ r' Hr') as (r & Hi & ?). apply Hlt in Hi. lia.
  - intros j id i cmd k reply Hj. rewrite Hsp. by apply (sv_answer s Hs).
  - intros j i cmd k reply Hj. destruct (sv_read s Hs _ _ _ _ _ Hj) as (? & save & ->). split; [done|].
    exists save. by rewrite Hsp.
  - intros a e p r' Ha Hp Hu Hr'. destruct (Hup _ r' Hr') as (r & Hi & ?). pose proof (sv_up s Hs a e p r Ha Hp Hu Hi). lia.
Qed.

Lemma served_put i r r' s : served s → rtc cstep start (put i r' (sys s)) →
  replicas (sys s) !! i = Some r → rapplied r ≤ rapplied r' → served (with_sys (put i r' (sys s)) s).
Proof.
  intros Hs Hc Hi Hle. apply served_quiet; [done|done|done|].
  intros j q Hj. simpl in Hj. apply lookup_insert_Some in Hj as [[<- <-]|[_ Hj]]; [by exists r|by exists q].
Qed.

Lemma served_waiting ws s : served s → (∀ id w, ws !! id = Some w → waiting_ok s id w) → served (set_waiting ws s).
Proof. intros Hs Hw. split; simpl; try apply Hs. intros id w Hi. by apply Hw in Hi. Qed.

Lemma served_stopped st s : served s → (∀ i m, st !! i = Some m → shut_down s i) → served (set_stopped st s).
Proof. intros Hs Hst. split; simpl; try apply Hs. exact Hst. Qed.

(** What must hold for an answer to be given. *)
Definition event_ok e s : Prop :=
  match e with
  | EAnswer id i cmd k reply =>
      events s !! id = Some (EInvoke i cmd) ∧ origins s !! k = Some (Some id) ∧
      reply = spec_reply None (repair_cmd cmd) k s ∧ waiting s !! id = None ∧
      (∀ j i' cmd' k' reply', events s !! j ≠ Some (EAnswer id i' cmd' k' reply')) ∧
      ∀ r, replicas (sys s) !! i = Some r → k < rapplied r
  | ERead i cmd k reply =>
      (∃ save, reply = spec_reply save cmd k s) ∧ ∃ r, replicas (sys s) !! i = Some r ∧ rapplied r = k
  | EError _ _ _ | ERefuse _ _ => True
  | ELocal i _ _ => shut_down s i
  | EInvoke _ _ | EShutdown _ | ERestart _ => False
  end.

Lemma event_seen e s p r : event_ok e s → seen e = Some p → replicas (sys s) !! event_node e = Some r → p ≤ rapplied r.
Proof.
  intros He Hp Hr. destruct e; try done; injection Hp as <-.
  - destruct He as (_ & _ & _ & _ & _ & Hk). by apply Hk.
  - destruct He as (_ & r' & Hr' & <-). by simplify_eq/=.
Qed.

Lemma origin_early s k id : served s → origins s !! k = Some (Some id) → id < length (events s).
Proof. intros Hs Hk. destruct (sv_origin s Hs k id Hk) as (i & cmd & He & _). by apply lookup_lt_Some in He. Qed.

Lemma replica_bound s i r : served s → replicas (sys s) !! i = Some r → rapplied r ≤ length (log (sys s)).
Proof. intros Hs Hi. by apply (inv_replica _ (inv_reachable _ (sv_system s Hs))) in Hi as [? _]. Qed.

Lemma proposed_snoc e s c ps ws st id cmd : served s → proposed s !! id = Some cmd →
  proposed_ok (mkService c (origins s) ps ws (events s ++ [e]) st) id cmd.
Proof.
  intros Hs Hp. destruct (sv_proposed s Hs id cmd Hp) as ([i Hi] & ? & ? & ?). split_and!; [|done..].
  exists i. by apply lookup_app_l_Some.
Qed.

Lemma waiting_snoc e s c ps ws st id w : served s → (∀ i cmd k reply, e ≠ EAnswer id i cmd k reply) → log c = log (sys s) →
  replicas c !! w_node w = replicas (sys s) !! w_node w → waiting s !! id = Some w →
  waiting_ok (mkService c (origins s) ps ws (events s ++ [e]) st) id w.
Proof.
  intros Hs He Hl Hr Hw. destruct (sv_waiting s Hs id w Hw) as (Hi & Hn & Ha). split_and!; simpl.
  - by apply lookup_app_l_Some.
  - intros j i cmd k reply [[_ Hj]|[_ ->]]%lookup_snoc_Some; [by apply Hn in Hj|by eapply He].
  - intros k reply Hk. rewrite Hr. unfold spec_reply. simpl. rewrite Hl. by apply Ha.
Qed.

Lemma shut_down_snoc e s c ps ws st i : shut_down s i → e ≠ ERestart i →
  shut_down (mkService c (origins s) ps ws (events s ++ [e]) st) i.
Proof.
  intros (a & Ha & Hu) He. exists a. split; [by apply lookup_app_l_Some|].
  intros b Hb [[_ Hx]|[_ ->]]%lookup_snoc_Some; [by apply (Hu b Hb)|done].
Qed.

(** The answers of nodes without Raft before another event. *)
Lemma local_snoc e s b i cmd reply : served s → (e = ELocal i cmd reply → shut_down s i) →
  (events s ++ [e]) !! b = Some (ELocal i cmd reply) →
  ∃ a, a < b ∧ (events s ++ [e]) !! a = Some (EShutdown i) ∧ ∀ c, a < c < b → (events s ++ [e]) !! c ≠ Some (ERestart i).
Proof.
  intros Hs He [[Hlt Hb]|[-> ->]]%lookup_snoc_Some.
  - destruct (sv_local s Hs b i cmd reply Hb) as (a & Hab & Ha & Hno). exists a. split; [done|]. split; [by apply lookup_app_l_Some|].
    intros c Hc. rewrite lookup_app_l by lia. by apply Hno.
  - destruct (He eq_refl) as (a & Ha & Hu). pose proof (lookup_lt_Some _ _ _ Ha). exists a. split; [done|].
    split; [by apply lookup_app_l_Some|]. intros c Hc. rewrite lookup_app_l by lia. apply Hu. lia.
Qed.

(** An answer to a client. *)
Lemma served_emit e s : served s → event_ok e s → served (emit e s).
Proof.
  intros Hs He. pose proof (event_seen e s) as Hseen.
  assert (Hst : ∀ i m, stopped s !! i = Some m → shut_down (emit e s) i).
  { intros i m Hm. apply shut_down_snoc; [by eapply (sv_stopped s Hs)|]. by intros ->. }
  assert (Hlo : ∀ b i cmd reply, events (emit e s) !! b = Some (ELocal i cmd reply) → ∃ a, a < b ∧
    events (emit e s) !! a = Some (EShutdown i) ∧ ∀ c, a < c < b → events (emit e s) !! c ≠ Some (ERestart i)).
  { intros b i cmd reply. apply local_snoc; [done|]. by intros ->. }
  split; simpl; try apply Hs; try exact Hst; try exact Hlo; try setoid_rewrite lookup_snoc_Some.
  - intros id cmd Hp. by apply proposed_snoc.
  - intros k id Ho. destruct (sv_origin s Hs k id Ho) as (i & cmd & Hi & ?). exists i, cmd. split; [|done].
    left. split; [by apply lookup_lt_Some in Hi|done].
  - intros id w Hw. apply waiting_snoc; try done. intros i cmd k reply ->. destruct He as (_ & _ & _ & Hnone & _). congruence.
  - intros j id i cmd k reply [[Hlt Hj]|[-> ->]].
    + destruct (sv_answer s Hs _ _ _ _ _ _ Hj) as (Hid & Hi & Ho & Hr & Hu). split_and!; [done| |done|done|].
      * left. split; [lia|done].
      * intros j' i' cmd' k' reply' [[_ Hj']|[_ ->]]; [by eapply Hu|].
        destruct He as (_ & _ & _ & _ & Hn & _). by apply Hn in Hj.
    + destruct He as (Hi & Ho & Hr & _ & Hn & _). pose proof (lookup_lt_Some _ _ _ Hi). split_and!; try done.
      * by left.
      * intros j' i' cmd' k' reply' [[_ Hj']|[-> _]]; [by apply Hn in Hj'|done].
  - intros j i cmd k reply [[_ Hj]|[_ ->]]; [by eapply (sv_read s Hs)|].
    destruct He as (Hr & r & Hi & <-). split; [by eapply replica_bound|done].
  - intros j e' p id k [[_ Hj]|[-> _]] Hp Hlt Ho; [by eapply (sv_order s Hs)|]. apply origin_early in Ho; [lia|done].
  - intros a e' p r [[_ Ha]|[_ ->]] Hp Hu; [|by apply Hseen].
    apply (sv_up s Hs a e' p r Ha Hp). by eapply up_since_emit.
  - intros a b e' p i cmd k reply [[Hla Ha]|[-> _]] Hp Hab; [|intros [[? _]|[? _]]; lia].
    intros [[Hlb Hb]|[-> ->]] Hn Hno.
    + eapply (sv_session s Hs a b); try done. intros c Hc Hr. apply (Hno c Hc). left. split; [lia|done].
    + destruct He as (_ & r & Hr & <-). simpl in Hn.
      apply (sv_up s Hs a e' p r Ha Hp); [|by rewrite Hn].
      rewrite Hn. intros c Hc Hx. pose proof (lookup_lt_Some _ _ _ Hx). apply (Hno c); [lia|]. by left.
Qed.

(** The library commits an entry: the proposal of a write, or an announcement. *)
Lemma served_commit data origin s : served s → rtc cstep start (append data (sys s)) →
  match origin with
  | Some id => ∃ cmd, proposed s !! id = Some cmd ∧ data = CmdCodec.Marshal cmd
  | None => True
  end → served (committed data origin s).
Proof.
  intros Hs Hc Hor. pose proof (sv_length s Hs) as Hlen.
  assert (Hsp : ∀ save cmd k, k ≤ length (log (sys s)) → spec_reply save cmd k (committed data origin s) = spec_reply save cmd k s)
    by (intros; by eapply spec_reply_prefix).
  assert (Hin : ∀ k id, origins s !! k = Some (Some id) → k < length (log (sys s)))
    by (intros k id Hk; rewrite <- Hlen; by apply lookup_lt_Some in Hk).
  assert (Hkeep : ∀ k id, origins s !! k = Some (Some id) → (origins s ++ [origin]) !! k = Some (Some id))
    by (intros; by apply lookup_app_l_Some).
  assert (Hnew : ∀ id, origin = Some id → ∀ k, origins s !! k ≠ Some (Some id)).
  { intros id -> k. destruct Hor as (cmd & Hp & _). by apply (sv_proposed s Hs) in Hp as (_ & _ & _ & Hn). }
  split; simpl; try apply Hs; [done|by rewrite !length_app, Hlen| | | | | | |].
  - intros id cmd Hp. assert (Hp' : proposed s !! id = Some cmd ∧ origin ≠ Some id).
    { destruct origin as [id'|]; [|done]. apply lookup_delete_Some in Hp as [??]. split; [done|]. congruence. }
    destruct Hp' as [Hp' Hne]. destruct (sv_proposed s Hs id cmd Hp') as (? & ? & ? & Hn). split_and!; try done.
    intros k [[_ Hk]|[_ Hk]]%lookup_snoc_Some; [by apply Hn in Hk|by rewrite Hk in Hne].
  - intros k id [[Hlt Hk]|[-> ->]]%lookup_snoc_Some.
    + destruct (sv_origin s Hs k id Hk) as (i & cmd & ? & Hl & ? & ?). exists i, cmd. split_and!; try done.
      by apply lookup_app_l_Some.
    + destruct Hor as (cmd & Hp & ->). destruct (sv_proposed s Hs id cmd Hp) as ([i Hi] & ? & ? & _).
      exists i, cmd. split_and!; try done. by rewrite Hlen, snoc_last.
  - intros k k' id [[_ Hk]|[-> Hk]]%lookup_snoc_Some [[_ Hk']|[-> Hk']]%lookup_snoc_Some; [by eapply (sv_once s Hs)| | |done];
      by edestruct Hnew.
  - intros id w Hw. destruct (sv_waiting s Hs id w Hw) as (? & ? & Hr). split_and!; [done|done|].
    intros k reply Hk. destruct (Hr k reply Hk) as (Ho & -> & ?). pose proof (Hin _ _ Ho). rewrite Hsp by lia. auto.
  - intros j id i cmd k reply Hj. destruct (sv_answer s Hs _ _ _ _ _ _ Hj) as (? & ? & Ho & -> & ?).
    pose proof (Hin _ _ Ho). rewrite Hsp by lia. auto.
  - intros j i cmd k reply Hj. destruct (sv_read s Hs _ _ _ _ _ Hj) as (Hk & save & ->). rewrite length_app. split; [lia|].
    exists save. by rewrite Hsp.
  - intros j e p id k Hj Hp Hlt [[_ Hk]|[-> ->]]%lookup_snoc_Some; [by eapply (sv_order s Hs)|]. rewrite Hlen.
    destruct e; try done; injection Hp as <-.
    + destruct (sv_answer s Hs _ _ _ _ _ _ Hj) as (_ & _ & Ho & _). apply Hin in Ho. lia.
    + by apply (sv_read s Hs) in Hj as [? _].
Qed.

(** An event without an answer, which may come with a new proposal and new
    connections, and may set a node back if it is the restart of that node. *)
Lemma served_silent e c ps ws st s : served s → seen e = None → (∀ i cmd reply, e ≠ ELocal i cmd reply) →
  rtc cstep start c → log c = log (sys s) →
  (∀ i r', replicas c !! i = Some r' →
     e = ERestart i ∨ ∃ r, replicas (sys s) !! i = Some r ∧ rapplied r ≤ rapplied r') →
  let s' := mkService c (origins s) ps ws (events s ++ [e]) st in
  (∀ id cmd, ps !! id = Some cmd → proposed_ok s' id cmd) → (∀ id w, ws !! id = Some w → waiting_ok s' id w) →
  (∀ i m, st !! i = Some m → shut_down s' i) → served s'.
Proof.
  intros Hs He Hnl Hc Hl Hup s' Hps Hws Hst.
  assert (Hsp : ∀ save cmd k, spec_reply save cmd k s' = spec_reply save cmd k s)
    by (intros; unfold spec_reply; simpl; by rewrite Hl).
  assert (Hev : ∀ j x, (events s ++ [e]) !! j = Some x → is_Some (seen x) → events s !! j = Some x).
  { intros j x [[_ Hj]|[_ <-]]%lookup_snoc_Some; [done|]. rewrite He. by intros []. }
  assert (Hold : ∀ j x, events s !! j = Some x → (events s ++ [e]) !! j = Some x) by (intros; by apply lookup_app_l_Some).
  split; simpl; rewrite ?Hl; try apply Hs; [done|done| |done| | | | | |done|].
  - intros k id Ho. destruct (sv_origin s Hs k id Ho) as (j & cmd & Hj & ?). eauto 10.
  - intros j id i' cmd' k reply Hj%Hev; [|done]. rewrite Hsp.
    destruct (sv_answer s Hs _ _ _ _ _ _ Hj) as (? & ? & ? & ? & Hu). split_and!; auto.
    intros j' i2 cmd2 k2 reply2 Hj'%Hev; [|done]. by eapply Hu.
  - intros j i' cmd' k reply Hj%Hev; [|done]. destruct (sv_read s Hs _ _ _ _ _ Hj) as (? & save & ->). split; [done|].
    exists save. by rewrite Hsp.
  - intros j e' p id k Hj Hp. apply Hev in Hj; [|by rewrite Hp]. by apply (sv_order s Hs j e').
  - intros a e' p r' Ha Hp Hu Hr'. apply Hev in Ha; [|by rewrite Hp]. destruct (Hup _ r' Hr') as [->|(r & Hr & Hle)].
    { exfalso. apply (Hu (length (events s))); [by apply lookup_lt_Some in Ha|]. by simpl; rewrite snoc_last. }
    assert (p ≤ rapplied r); [|lia]. apply (sv_up s Hs a e' p r Ha Hp); [|done]. intros b Hb Hx. by apply (Hu b Hb), Hold.
  - intros a b e' p i' cmd' k reply Ha Hp Hab Hb Hn Hno. apply Hev in Ha; [|by rewrite Hp]. apply Hev in Hb; [|done].
    eapply (sv_session s Hs a b); try done. intros d Hd Hr. by apply (Hno d Hd), Hold.
  - intros b i cmd reply. apply local_snoc; [done|]. by intros ?%Hnl.
Qed.

(** A new write. *)
Lemma served_invoke i cmd s : served s → IsWriteOp cmd = true → cmd_fits cmd →
  served (mkService (sys s) (origins s) (<[length (events s) := cmd]> (proposed s))
            (<[length (events s) := mkWaiting i cmd None]> (waiting s)) (events s ++ [EInvoke i cmd]) (stopped s)).
Proof.
  intros Hs Hw Hf. apply served_silent; [done|done|done|apply Hs|done|eauto 10| | |].
  - intros id c [[<- <-]|[_ Hp]]%lookup_insert_Some; [|by apply proposed_snoc].
    split_and!; [|done|done|].
    + exists i. by simpl; rewrite snoc_last.
    + intros k Hk. apply (origin_early s) in Hk; [lia|done].
  - intros id w [[<- <-]|[_ Hi]]%lookup_insert_Some; [|apply waiting_snoc; by try intros ->].
    split_and!; simpl; [by rewrite snoc_last| |done].
    intros j i' cmd' k reply [[Hlt Hj]|[_ ?]]%lookup_snoc_Some; [|done].
    destruct (sv_answer s Hs _ _ _ _ _ _ Hj) as (? & _). lia.
  - intros j m Hj. apply shut_down_snoc; [by eapply (sv_stopped s Hs)|done].
Qed.

(** Raft is shut down on a node on which no write waits. *)
Lemma served_shutdown i r s : served s → replicas (sys s) !! i = Some r → (∀ id w, waiting s !! id = Some w → w_node w ≠ i) →
  served (set_stopped (<[i := Fsm.db (rfsm r)]> (stopped s)) (emit (EShutdown i) (with_sys (take_down i (sys s)) s))).
Proof.
  intros Hs Hi Hno. apply (served_silent (EShutdown i) (take_down i (sys s)) (proposed s) (waiting s) _ s); try done.
  - eapply rtc_r; [apply Hs|apply cs_stop].
  - intros j r' Hj. simpl in Hj. apply lookup_delete_Some in Hj as [_ Hj]. right. by exists r'.
  - intros id cmd Hp. by apply proposed_snoc.
  - intros id w Hw. apply waiting_snoc; try done. simpl. rewrite lookup_delete_ne; [done|]. intros ->. by eapply Hno.
  - intros j m [[<- _]|[_ Hj]]%lookup_insert_Some; [|apply shut_down_snoc; [by eapply (sv_stopped s Hs)|done]].
    exists (length (events s)). simpl. rewrite snoc_last. split; [done|].
    intros b Hb Hx%lookup_lt_Some. simpl in Hx. rewrite length_app in Hx. simpl in Hx. lia.
Qed.

(** A node starts again: its connections are gone. *)
Lemma served_restart i s : served s → rtc cstep start (put i new_replica (sys s)) →
  served (set_stopped (delete i (stopped s)) (set_waiting (filter (λ '(_, w), w_node w ≠ i) (waiting s))
            (emit (ERestart i) (with_sys (put i new_replica (sys s)) s)))).
Proof.
  intros Hs Hc. apply (served_silent (ERestart i) (put i new_replica (sys s)) (proposed s) _ _ s); [done|done|done|done|done| | | |].
  - intros j r Hj. simpl in Hj. apply lookup_insert_Some in Hj as [[<- _]|[_ Hj]]; [by left|right]. by exists r.
  - intros id cmd Hp. by apply proposed_snoc.
  - intros id w [Hw Hne]%map_lookup_filter_Some. apply waiting_snoc; try done. by simpl; rewrite lookup_insert_ne.
  - intros j m [Hne Hj]%lookup_delete_Some. apply shut_down_snoc; [by eapply (sv_stopped s Hs)|]. by intros [= ->].
Qed.

(** A replica applies an entry, which completes the future of its own proposal. *)
Lemma served_apply i r data save resp f s : served s → replicas (sys s) !! i = Some r →
  log (sys s) !! rapplied r = Some data → Fsm.Apply save data (rfsm r) = (Ok resp, f) →
  served (set_waiting (complete i (rapplied r) resp s) (with_sys (put i (mkReplica f (S (rapplied r))) (sys s)) s)).
Proof.
  intros Hs Hi Hd E. set (c := put i (mkReplica f (S (rapplied r))) (sys s)).
  assert (Hq : served (with_sys c s)).
  { apply (served_put i r); [done| |done|simpl; lia]. eapply rtc_r; [apply Hs|]. by eapply cs_apply. }
  apply served_waiting; [done|]. unfold complete.
  destruct (origins s !! rapplied r) as [[id|]|] eqn:Eo; try apply Hq.
  destruct (waiting s !! id) as [w|] eqn:Ew; [|apply Hq]. destruct (_ && _) eqn:Eb; [|apply Hq].
  apply andb_true_iff in Eb as [Hn%bool_decide_eq_true _].
  intros id' w' [[<- <-]|[_ Hw]]%lookup_insert_Some; [|by apply Hq].
  destruct (sv_waiting _ Hq id w Ew) as (He & Ha & _). split_and!; [by simpl in *; rewrite <- Hn|done|].
  intros k reply [= <- <-]. simpl. split_and!; [done| |rewrite lookup_insert_eq; intros q [= <-]; simpl; lia].
  destruct (sv_origin s Hs _ _ Eo) as (i' & cmd & He' & Hl & Hw & Hf). simpl in He. rewrite He in He'. injection He' as _ <-.
  rewrite Hl in Hd. injection Hd as <-.
  destruct (inv_replica _ (inv_reachable _ (sv_system s Hs)) i r Hi) as (_ & Hwf & Hv & _).
  destruct (apply_Marshal save (w_cmd w) (rfsm r) Hwf Hf (write_op_not_admin _ Hw)) as (f' & E' & _).
  rewrite E in E'. injection E' as -> ->. simpl. unfold spec_reply. simpl. rewrite Hv.
  by rewrite (denote_write_save save None) by by apply write_op_repair.
Qed.

(** A read is executed on the data of the node's prefix of the log. *)
Lemma served_read i r save cmd reply d s : served s → replicas (sys s) !! i = Some r → IsWriteOp cmd = false → cmd_fits cmd →
  ExecuteLocally save cmd (Fsm.db (rfsm r)) = (Ok reply, d) →
  served (emit (ERead i cmd (rapplied r) reply) (with_sys (put i (with_db d r) (sys s)) s)).
Proof.
  intros Hs Hi Hw Hf E. destruct (inv_replica _ (inv_reachable _ (sv_system s Hs)) i r Hi) as (_ & Hwf & Hv & _).
  assert (Hq : served (with_sys (put i (with_db d r) (sys s)) s)).
  { apply (served_put i r); [done| |done|done]. eapply rtc_r; [apply Hs|].
    replace d with (snd (ExecuteLocally save cmd (Fsm.db (rfsm r)))) by by rewrite E. by apply cs_read. }
  apply served_emit; [done|]. split; [|exists (with_db d r); simpl; by rewrite lookup_insert_eq].
  exists save. destruct (mem_execute save cmd (Fsm.db (rfsm r)) Hwf Hf) as (m' & E' & _).
  unfold ExecuteLocally in E. rewrite E in E'. injection E' as -> _. unfold spec_reply. simpl. by rewrite <- Hv.
Qed.

Lemma served_step s s' : sstep s s' → served s → served s'.
Proof.
  intros Hst Hs. pose proof (sv_system s Hs) as Hc.
  destruct Hst as [s i r cmd Hi Hw Hf|s i cmd Hi Hw|s id cmd Hp|s id i cmd k reply Hw|s id i cmd Hw|s i r save cmd reply d Hi Hw Hf E
    |s i r Hi|s i r data save resp f Hi Hd E|s i r l d ks data Hi Es Hk Ep|s i r Hi Hno|s i m save cmd reply m' Hi E|s i|s i r k data d Hi Hk Hle E].
  - by apply served_invoke.
  - by apply served_emit.
  - apply served_commit; [done| |by exists cmd]. destruct (sv_proposed s Hs id cmd Hp) as (_ & ? & ? & _).
    eapply rtc_r; [done|]. by apply cs_write.
  - destruct (sv_waiting s Hs _ _ Hw) as (He & Hn & Ha). destruct (Ha k reply eq_refl) as (? & ? & ?).
    change (served (emit (EAnswer id i cmd k reply) (set_waiting (delete id (waiting s)) s))). apply served_emit.
    + apply served_waiting; [done|]. intros id' w [_ Hi]%lookup_delete_Some. by apply Hs.
    + split_and!; try done. by apply lookup_delete_eq.
  - change (served (emit (EError id i cmd) (set_waiting (delete id (waiting s)) s))). apply served_emit; [|done].
    apply served_waiting; [done|]. intros id' w [_ Hi]%lookup_delete_Some. by apply Hs.
  - by eapply served_read.
  - apply served_commit; [done| |done]. eapply rtc_r; [done|]. by eapply cs_announce.
  - by eapply served_apply.
  - apply served_quiet; [done| |done|].
    + eapply rtc_r; [done|]. by eapply cs_snapshot.
    + intros j q Hj. simpl in Hj. apply lookup_insert_Some in Hj as [[<- <-]|[_ Hj]]; [by exists r|by exists q].
  - by apply served_shutdown.
  - assert (Hsd : shut_down s i) by by eapply (sv_stopped s Hs).
    change (served (set_stopped (<[i := m']> (stopped (emit (ELocal i cmd reply) s))) (emit (ELocal i cmd reply) s))).
    apply served_stopped; [by apply served_emit|].
    intros j q [[<- _]|[_ Hj]]%lookup_insert_Some; (apply shut_down_snoc; [|done]); [done|by eapply (sv_stopped s Hs)].
  - apply served_restart; [done|]. eapply rtc_r; [done|]. apply cs_start.
  - apply (served_put i r); [done| |done|done]. eapply rtc_r; [done|]. by eapply cs_restore.
Qed.

Lemma served_new : served new_service.
Proof. by split. Qed.

Lemma served_reachable s : reachable s → served s.
Proof.
  intros Hr. assert (Hi : ∀ s1 s2, rtc sstep s1 s2 → served s1 → served s2)
    by (induction 1; eauto using served_step). by eapply Hi, served_new.
Qed.
End steps.

(** ** A write can be answered *)
Section progress.
Implicit Types s : Service.

(** Every entry that a replica has not applied can be applied. *)
Lemma can_apply s i r k : reachable s → replicas (sys s) !! i = Some r → rapplied r ≤ k → k < length (log (sys s)) →
  ∃ resp f, sstep s (set_waiting (complete i (rapplied r) resp s) (with_sys (put i (mkReplica f (S (rapplied r))) (sys s)) s)).
Proof.
  intros Hs%served_reachable Hi Hle Hlt. pose proof (inv_reachable _ (sv_system s Hs)) as Hc.
  destruct (lookup_lt_is_Some_2 (log (sys s)) (rapplied r)) as [data Hd]; [lia|].
  destruct (inv_replica _ Hc i r Hi) as (_ & Hwf & _ & Hla).
  assert (Hok : entry_ok data) by exact (proj1 (Forall_lookup _ _) (inv_log _ Hc) _ _ Hd).
  destruct (entry_apply None data (rfsm r) Hok Hwf Hla) as (resp & f & E & _). exists resp, f. by eapply ss_apply.
Qed.

(** Node [i] applies the log up to its own entry at [k], which completes it. *)
Lemma apply_until k id i cmd s : reachable s → origins s !! k = Some (Some id) →
  waiting s !! id = Some (mkWaiting i cmd None) →
  (∃ r, replicas (sys s) !! i = Some r ∧ rapplied r ≤ k) →
  ∃ s' reply, rtc sstep s s' ∧ waiting s' !! id = Some (mkWaiting i cmd (Some (k, reply))).
Proof.
  intros Hr Ho Hw (r & Hi & Hle). remember (k - rapplied r) as n eqn:Hn. revert s r Hr Ho Hw Hi Hle Hn.
  induction n as [|n IH]; intros s r Hr Ho Hw Hi Hle Hn; pose proof (served_reachable s Hr) as Hs.
  all: assert (Hk : k < length (log (sys s))) by (rewrite <- (sv_length s Hs); by apply lookup_lt_Some in Ho).
  all: destruct (can_apply s i r k Hr Hi Hle Hk) as (resp & f & Hst).
  - replace (rapplied r) with k in Hst by lia. eexists _, _. split; [by apply rtc_once|]. simpl.
    unfold complete. rewrite Ho, Hw. simpl. rewrite bool_decide_true by done. simpl. by rewrite lookup_insert_eq.
  - edestruct (IH (set_waiting (complete i (rapplied r) resp s) (with_sys (put i (mkReplica f (S (rapplied r))) (sys s)) s)))
      as (s' & reply & Hs' & Hw'); [by eapply rtc_r|done| |simpl; by rewrite lookup_insert_eq|simpl; lia|simpl; lia|].
    + simpl. unfold complete. destruct (origins s !! rapplied r) as [[id'|]|] eqn:Eo; try done.
      destruct (waiting s !! id'); [|done]. destruct (_ && _); [|done]. rewrite lookup_insert_ne; [done|].
      intros ->. assert (rapplied r = k) by (by eapply (sv_once s Hs)). lia.
    + exists s', reply. split; [|done]. by eapply rtc_l.
Qed.
End progress.

(** ** Theorems *)
Section theorems.
Implicit Types s : Service.

(** C2. Acknowledged writes are linearizable.  In every run of the cluster, with
    clients on any nodes, proposals committed late or never, crashes, restarts,
    shutdowns and snapshots: a write that a node with Raft has answered is in the log
    exactly once, its answer is the
    one that the specification of the commands gives after the entries before
    it, and no write is answered twice or shares its place with another.  The
    order of the log respects real time: a write that was invoked after another
    one was answered comes later in the log, on whatever nodes.  Only a node on which
    Raft was shut down since it started answers writes without the log. *)
Theorem writes_linearizable s : reachable s →
  (∀ b id i cmd k reply, events s !! b = Some (EAnswer id i cmd k reply) →
    id < b ∧ events s !! id = Some (EInvoke i cmd) ∧
    log (sys s) !! k = Some (CmdCodec.Marshal cmd) ∧ origins s !! k = Some (Some id) ∧
    (∀ k', origins s !! k' = Some (Some id) → k' = k) ∧
    reply = fst (denote None (request_of (repair_cmd cmd)) (replay (take k (log (sys s)))))) ∧
  (∀ b b' id id' i i' cmd cmd' k k' reply reply',
    events s !! b = Some (EAnswer id i cmd k reply) → events s !! b' = Some (EAnswer id' i' cmd' k' reply') →
    (id = id' ↔ b = b') ∧ (k = k' ↔ b = b') ∧ (b < id' → k < k')) ∧
  (∀ b i cmd reply, events s !! b = Some (ELocal i cmd reply) → IsWriteOp cmd = true →
    ∃ a, a < b ∧ events s !! a = Some (EShutdown i) ∧ ∀ c, a < c < b → events s !! c ≠ Some (ERestart i)).
Proof.
  intros Hs%served_reachable. split_and!; [| |intros; by eapply (sv_local s Hs)].
  - intros b id i cmd k reply Hb. destruct (sv_answer s Hs _ _ _ _ _ _ Hb) as (Hlt & He & Ho & -> & _).
    destruct (sv_origin s Hs k id Ho) as (i' & cmd' & He' & Hl & _). rewrite He in He'. injection He' as <- <-.
    split_and!; try done. intros k' Ho'. by eapply (sv_once s Hs).
  - intros b b' id id' i i' cmd cmd' k k' reply reply' Hb Hb'.
    destruct (sv_answer s Hs _ _ _ _ _ _ Hb) as (_ & He & Ho & _ & Hu).
    destruct (sv_answer s Hs _ _ _ _ _ _ Hb') as (_ & He' & Ho' & _ & _).
    split_and!.
    + split; [intros ->; symmetry; by eapply Hu|]. intros ->. congruence.
    + split; [|intros ->; congruence]. intros ->. symmetry. eapply Hu. replace id with id' by congruence. exact Hb'.
    + intros Hlt. assert (S k ≤ k'); [|lia]. by eapply (sv_order s Hs b _ _ id'); [exact Hb|..].
Qed.

(** C3. The session guarantees.  A read that a node with Raft has answered has the
    answer of the specification after a prefix of the log, and only a node on which
    Raft was shut down since it started answers reads otherwise.  A write that is invoked after an
    event that has seen some prefix of the log, the answer of a write or a read on
    whatever node, comes after that prefix (monotonic writes, and writes follow
    reads).  A read on a node that has stayed up since an event on it sees at
    least what the event has seen, the answered write included (read your writes,
    and monotonic reads). *)
Theorem session_guarantees s : reachable s →
  (∀ b i cmd k reply, events s !! b = Some (ERead i cmd k reply) → k ≤ length (log (sys s)) ∧
    ∃ save, reply = fst (denote save (request_of cmd) (replay (take k (log (sys s)))))) ∧
  (∀ a e p id k, events s !! a = Some e → seen e = Some p → a < id → origins s !! k = Some (Some id) → p ≤ k) ∧
  (∀ a b e p cmd k reply, events s !! a = Some e → seen e = Some p → a < b →
    events s !! b = Some (ERead (event_node e) cmd k reply) →
    (∀ c, a < c < b → events s !! c ≠ Some (ERestart (event_node e))) → p ≤ k) ∧
  (∀ b i cmd reply, events s !! b = Some (ELocal i cmd reply) → IsWriteOp cmd = false →
    ∃ a, a < b ∧ events s !! a = Some (EShutdown i) ∧ ∀ c, a < c < b → events s !! c ≠ Some (ERestart i)).
Proof.
  intros Hs%served_reachable. split_and!.
  - exact (sv_read s Hs).
  - exact (sv_order s Hs).
  - intros a b e p cmd k reply Ha Hp Hab Hb. by apply (sv_session s Hs a b e p _ cmd k reply).
  - intros. by eapply (sv_local s Hs).
Qed.

(** C4. A write can be answered.  In every reachable state, a write whose client
    waits on a node and whose proposal the library has not dropped can be
    committed, applied and answered: the node can take the steps one after the
    other, whatever happened before. *)
Theorem write_completes s id i cmd : reachable s → waiting s !! id = Some (mkWaiting i cmd None) →
  proposed s !! id = Some cmd → is_Some (replicas (sys s) !! i) →
  ∃ s' k reply, rtc sstep s s' ∧ last (events s') = Some (EAnswer id i cmd k reply).
Proof.
  intros Hr Hw Hp Hup.
  destruct (apply_until (length (log (sys s))) id i cmd (committed (CmdCodec.Marshal cmd) (Some id) s)) as (s' & reply & Hs' & Hw').
  - eapply rtc_r; [done|]. by apply ss_commit.
  - simpl. rewrite <- (sv_length s (served_reachable s Hr)). apply snoc_last.
  - done.
  - destruct Hup as [r Hi]. exists r. split; [done|]. by eapply replica_bound, Hi; apply served_reachable.
  - eexists _, (length (log (sys s))), reply. split.
    + eapply rtc_l; [by apply ss_commit|]. eapply rtc_r; [exact Hs'|]. by apply ss_answer.
    + simpl. apply last_snoc.
Qed.
End theorems.

(** ** A run *)
Module Example.
Definition set_cmd : Cmd := mkCmd §"SET" [§"k"; §"v"].
Definition get_cmd : Cmd := mkCmd §"GET" [§"k"].

(** Two nodes; a write on node 0; node 0 applies it and answers; reads on both. *)
Definition up1 : Service := emit (ERestart 0) (with_sys (put 0 new_replica start) new_service).
Definition up2 : Service := emit (ERestart 1) (with_sys (put 1 new_replica (sys up1)) up1).
Definition invoked : Service :=
  mkService (sys up2) [] {[ 2 := set_cmd ]} {[ 2 := mkWaiting 0 set_cmd None ]} (events up2 ++ [EInvoke 0 set_cmd]) ∅.
Definition logged : Service := committed (CmdCodec.Marshal set_cmd) (Some 2) invoked.
Definition after_set : Fsm.State := snd (Fsm.Apply None (CmdCodec.Marshal set_cmd) (rfsm new_replica)).
Definition applied0 : Service :=
  set_waiting (complete 0 0 (Fsm.RespString RespOk) logged) (with_sys (put 0 (mkReplica after_set 1) (sys logged)) logged).
Definition answered : Service := set_waiting (delete 2 (waiting applied0)) (emit (EAnswer 2 0 set_cmd 0 RespOk) applied0).
Definition read0 : Service :=
  emit (ERead 0 get_cmd 1 (BuildBulkString (Some §"v")))
    (with_sys (put 0 (with_db (Fsm.db after_set) (mkReplica after_set 1)) (sys answered)) answered).
Definition read1 : Service :=
  emit (ERead 1 get_cmd 0 (BuildBulkString None)) (with_sys (put 1 (with_db (Fsm.db (rfsm new_replica)) new_replica) (sys read0)) read0).

Lemma invoked_reachable : reachable invoked.
Proof.
  apply (rtc_l _ _ up1); [apply (ss_start new_service 0)|]. apply (rtc_l _ _ up2); [apply (ss_start up1 1)|].
  apply rtc_once, (ss_invoke up2 0 new_replica set_cmd); [reflexivity|reflexivity|vm_compute; done].
Qed.

Lemma answered_reachable : reachable answered.
Proof.
  eapply rtc_trans; [exact invoked_reachable|]. apply (rtc_l _ _ logged); [by apply (ss_commit invoked 2)|].
  apply (rtc_l _ _ applied0).
  { apply (ss_apply logged 0 new_replica (CmdCodec.Marshal set_cmd) None); vm_compute; reflexivity. }
  apply rtc_once, ss_answer. vm_compute. reflexivity.
Qed.

Lemma read_reachable : reachable read1.
Proof.
  eapply rtc_trans; [exact answered_reachable|]. apply (rtc_l _ _ read0).
  { apply (ss_read answered 0 (mkReplica after_set 1) None); vm_compute; done. }
  apply rtc_once, (ss_read read0 1 new_replica None); vm_compute; done.
Qed.

(** Then a second write, on the other node. *)
Definition invoked1 : Service :=
  mkService (sys read1) (origins read1) {[ 6 := set_cmd ]} {[ 6 := mkWaiting 1 set_cmd None ]} (events read1 ++ [EInvoke 1 set_cmd]) ∅.
Definition logged1 : Service := committed (CmdCodec.Marshal set_cmd) (Some 6) invoked1.

Lemma logged1_reachable : reachable logged1.
Proof.
  eapply rtc_trans; [exact read_reachable|]. apply (rtc_l _ _ invoked1).
  { apply (ss_invoke read1 1 (with_db (Fsm.db (rfsm new_replica)) new_replica) set_cmd); vm_compute; done. }
  apply rtc_once, (ss_commit invoked1 6). reflexivity.
Qed.

(** Then node 0 shuts Raft down, and a client sets another value there and reads it. *)
Definition set_local : Cmd := mkCmd §"SET" [§"k"; §"x"].
Definition shut : Service :=
  set_stopped {[ 0 := Fsm.db after_set ]} (emit (EShutdown 0) (with_sys (take_down 0 (sys read1)) read1)).
Definition wrote : Service :=
  set_stopped {[ 0 := snd (ExecuteLocally None set_local (Fsm.db after_set)) ]} (emit (ELocal 0 set_local RespOk) shut).
Definition reread : Service :=
  set_stopped {[ 0 := snd (ExecuteLocally None set_local (Fsm.db after_set)) ]}
    (emit (ELocal 0 get_cmd (BuildBulkString (Some §"x"))) wrote).

Lemma reread_reachable : reachable reread.
Proof.
  eapply rtc_trans; [exact read_reachable|]. apply (rtc_l _ _ shut).
  { apply (ss_shutdown read1 0 (mkReplica after_set 1)); [vm_compute; reflexivity|]. intros id w Hw. vm_compute in Hw.
    by destruct id as [|[|[|[]]]]. }
  apply (rtc_l _ _ wrote).
  { apply (ss_local shut 0 (Fsm.db after_set) None set_local); vm_compute; reflexivity. }
  apply rtc_once, (ss_local wrote 0 (snd (ExecuteLocally None set_local (Fsm.db after_set))) None get_cmd); vm_compute; reflexivity.
Qed.

(** The value is acknowledged and read back, and it is not in the log. *)
Lemma unlogged_write :
  events reread !! 7 = Some (ELocal 0 set_local RespOk) ∧
  events reread !! 8 = Some (ELocal 0 get_cmd (BuildBulkString (Some §"x"))) ∧
  log (sys reread) = [CmdCodec.Marshal set_cmd].
Proof. vm_compute. done. Qed.

Lemma writes_linearizable_witness :
  log (sys reread) !! 0 = Some (CmdCodec.Marshal set_cmd) ∧
  RespOk = fst (denote None (request_of (repair_cmd set_cmd)) (replay (take 0 (log (sys reread))))) ∧
  ∃ a, a < 7 ∧ events reread !! a = Some (EShutdown 0) ∧ ∀ c, a < c < 7 → events reread !! c ≠ Some (ERestart 0).
Proof.
  destruct (writes_linearizable reread reread_reachable) as (Ha & _ & Hl).
  destruct (Ha 3 2 0 set_cmd 0 RespOk) as (_ & _ & Hlog & _ & _ & Hr); [vm_compute; reflexivity|].
  split; [exact Hlog|]. split; [exact Hr|]. apply (Hl 7 0 set_local RespOk); vm_compute; reflexivity.
Defined.

Lemma session_guarantees_witness :
  (∃ save, BuildBulkString (Some §"v") = fst (denote save (request_of get_cmd) (replay (take 1 (log (sys logged1)))))) ∧
  origins logged1 !! 1 = Some (Some 6) ∧ 1 ≤ 1.
Proof.
  destruct (session_guarantees logged1 logged1_reachable) as (Hr & Ho & Hs & _).
  assert (1 ≤ 1).
  { refine (Hs 3 4 (EAnswer 2 0 set_cmd 0 RespOk) 1 get_cmd 1 (BuildBulkString (Some §"v")) _ _ _ _ _);
      [vm_compute; reflexivity|reflexivity|lia|vm_compute; reflexivity|intros; lia]. }
  split_and!; [|reflexivity|].
  - refine (proj2 (Hr 4 0 get_cmd 1 _ _)). vm_compute. reflexivity.
  - refine (Ho 3 (EAnswer 2 0 set_cmd 0 RespOk) 1 6 1 _ _ _ _); [vm_compute; reflexivity|reflexivity|lia|reflexivity].
Defined.

Lemma write_completes_witness :
  ∃ s' k reply, rtc sstep invoked s' ∧ last (events s') = Some (EAnswer 2 0 set_cmd k reply).
Proof.
  apply (write_completes invoked 2 0 set_cmd invoked_reachable); [reflexivity|reflexivity|by eexists].
Defined.

(** A reader of another node does not see the write that was answered before. *)
Lemma stale_read :
  events read1 !! 3 = Some (EAnswer 2 0 set_cmd 0 RespOk) ∧ events read1 !! 5 = Some (ERead 1 get_cmd 0 (BuildBulkString None)).
Proof. vm_compute. done. Qed.
End Example.
