(* ===== verification/Join.v ===== *)
(** * Joining a cluster, both sides

    The joining node repeats its request until it is a voter ([joinCluster],
    src/core/raft.go); the leader's admin service answers each request
    ([raftClusterAdminServer.JoinCluster] and [JoinClusterWithProgress]) and meanwhile
    serves other nodes.  The two sides were modelled apart ([Startup] with the
    answers as a parameter, [Membership] with the requests as arguments); here
    the answers that the client gets are those that the server gives.

    The theorems: when [joinCluster] succeeds, the node was registered without a
    vote, later reported an index that reached its target, and is a voter at its
    own address ([join_earns_vote]); and when the leader works and the node catches
    up before the last attempt, [joinCluster] succeeds ([join_succeeds]). *)

From S2P Require Import Prelude GoLib Membership Config Identity Startup.

(** ** The conversation *)
Section conversation.
Context {R : Type} `{MembershipLaws R} (clock : nat → Z) (env : Env) (id addr : gostring).
Implicit Types c : Core R.

(** The request of the [n]-th attempt. *)
Definition join_request (n : nat) : Admin.JoinClusterRequest :=
  Admin.mkRequest id addr (raft_AppliedIndex env n).

(** One attempt: the server handles the request and its answer arrives, or the
    answer is an error or lost, or the request does not reach the server. *)
Inductive exchange (n : nat) (res : RpcResult) (c c' : Core R) : Prop :=
| ex_answered resp : Admin.JoinClusterRPC clock (join_request n) c = (Ok resp, c') →
    res = Responded (Admin.code resp) (Some (Admin.cluster resp)) → exchange n res c c'
| ex_failed o : Admin.JoinClusterRPC clock (join_request n) c = (o, c') → res = CallFailed → exchange n res c c'
| ex_unreached : c' = c → res = NoConnection ∨ res = CallFailed → exchange n res c c'.

(** What else happens on the server between two attempts: requests of other
    nodes, queries, and moves of the library. *)
Inductive other_step : Core R → Core R → Prop :=
| os_join id' addr' applied c o c' : TrimSpace id' ≠ id →
    JoinClusterWithProgress clock id' addr' applied c = (o, c') → other_step c c'
| os_info c o c' : buildClusterInfo clock c = (o, c') → other_step c c'
| os_raft n r la la' :
    servers r = servers (raft n) → other_step (mkCore (Some n) la) (mkCore (Some (set_raft r n)) la').

(** [cores n] and [afters n] are the server before and after the [n]-th attempt. *)
Record conversation (cores afters : nat → Core R) : Prop := {
  cv_exchange n a : exchange n (rpc_JoinCluster env n a) (cores n) (afters n);
  cv_other n : rtc other_step (afters n) (cores (S n));
}.

(** ** The entries of a configuration for the node *)
Definition entries (l : list Server) : list Server := filter (λ s, ID s = id) l.
Definition entries_of c : list Server := entries (config_of c).

Lemma entries_other_voter id' addr' l : id' ≠ id → entries (with_voter id' addr' l) = entries l.
Proof.
  intros Hne. unfold entries, with_voter. induction l as [|s l IH]; simpl; [by rewrite filter_cons_False|].
  case_decide as Hs; simpl in Hs; [by rewrite !filter_cons_False by (simpl; congruence)|].
  destruct (decide (ID s = id)); [rewrite !filter_cons_True by done; by f_equal|by rewrite !filter_cons_False].
Qed.

Lemma entries_voter m l : entries l = [m] → entries (with_voter id addr l) = [mkServer Voter id addr].
Proof.
  unfold entries, with_voter. induction l as [|s l IH]; simpl; [done|].
  destruct (decide (ID s = id)) as [Hs|Hs].
  - rewrite !filter_cons_True by done. by intros [= _ ->].
  - rewrite !filter_cons_False by done. exact IH.
Qed.

Lemma entries_elem s l : s ∈ entries l ↔ ID s = id ∧ s ∈ l.
Proof. unfold entries. by rewrite list_elem_of_filter. Qed.

Lemma other_entries c c' : rtc other_step c c' → entries_of c' = entries_of c.
Proof.
  induction 1 as [|c1 c2 c3 Hs _ IH]; [done|]. rewrite IH. clear IH. unfold entries_of.
  destruct Hs as [id' addr' applied c o c' Hne E|c o c' E|n r la la' Hr].
  - apply (join_core_effect clock) in E as [->|(n & n' & Hn & Hn' & _ & He)]; [done|].
    unfold config_of. rewrite Hn, Hn'. simpl.
    destruct He as [Hs _|m _ _ _ Hr _|_ Hs _|m _ _ _ _ _ Hs _]; [by rewrite Hs|by rewrite Hr| |].
    + rewrite Hs. unfold entries. rewrite filter_app, filter_cons_False by done. apply app_nil_r.
    + rewrite Hs. by apply entries_other_voter.
  - by apply (info_core_effect clock) in E as [-> _].
  - unfold config_of. simpl. by rewrite Hr.
Qed.

(** ** What one attempt does *)
Context (Hid : TrimSpace id = id) (Haddr : TrimSpace addr = addr).

Lemma rpc_core n c o c' : Admin.JoinClusterRPC clock (join_request n) c = (o, c') →
  c' = c ∨ ∃ node node', raftNode c = Some node ∧ raftNode c' = Some node' ∧
    join_effect id addr (raft_AppliedIndex env n) node node'.
Proof.
  unfold Admin.JoinClusterRPC, join_request. simpl. rewrite Hid, Haddr. case_match; [intros [= _ <-]; by left|].
  destruct (JoinClusterWithProgress clock id addr _ c) as [o1 c1] eqn:E. intros Ho.
  assert (c1 = c') as -> by (by destruct o1 as [?|[]| |]; injection Ho).
  apply (join_core_effect clock) in E as [->|(node & node' & ? & ? & _ & He)]; [by left|right].
  rewrite Hid, Haddr in He. eauto 10.
Qed.

(** The registration of the node, and its promotion, in one attempt. *)
Definition registered (c c' : Core R) : Prop :=
  entries_of c = [] ∧ entries_of c' = [mkServer Nonvoter id addr].
Definition promoted (n : nat) (c c' : Core R) : Prop :=
  entries_of c' = [mkServer Voter id addr] ∧
  (∃ m, entries_of c = [m] ∧ suffrage m ≠ Voter ∧ Address m = addr) ∧
  ∃ node, raftNode c = Some node ∧ (target_of id node ≤ raft_AppliedIndex env n)%N.

Lemma exchange_entries n res c c' : exchange n res c c' → length (entries_of c) ≤ 1 →
  entries_of c' = entries_of c ∨ registered c c' ∨ promoted n c c'.
Proof.
  intros He Hl. assert (Hr : c' = c ∨ ∃ node node', raftNode c = Some node ∧ raftNode c' = Some node' ∧
    join_effect id addr (raft_AppliedIndex env n) node node').
  { destruct He as [resp E _|o E _|He _]; [by eapply rpc_core..|by left]. }
  destruct Hr as [->|(node & node' & Hn & Hn' & Hj)]; [by left|].
  unfold registered, promoted, entries_of, config_of in *. rewrite Hn, Hn' in *. simpl in *.
  destruct Hj as [Hs _|m _ _ _ Hr _|Hnew Hs _|m Hm Hmi Hma Hmv Ht Hs _]; [left; by rewrite Hs|left; by rewrite Hr|right; left|right; right].
  - assert (Hnil : entries (servers (raft node)) = []).
    { apply elem_of_nil_inv. intros s [? Hin]%entries_elem. by apply Hnew in Hin as [? _]. }
    split; [done|]. rewrite Hs. unfold entries in *. rewrite filter_app, Hnil, filter_cons_True by done. done.
  - assert (Hone : entries (servers (raft node)) = [m]).
    { assert (Hin : m ∈ entries (servers (raft node))) by (by apply entries_elem).
      destruct (entries (servers (raft node))) as [|x [|y l]]; [by apply elem_of_nil in Hin| |simpl in Hl; lia].
      by apply list_elem_of_singleton in Hin as ->. }
    split_and!; [rewrite Hs; by eapply entries_voter|by exists m|by exists node].
Qed.

(** ** The whole conversation *)
Section attempts.
Context (cores afters : nat → Core R) (Hcv : conversation cores afters) (Hnew : entries_of (cores 0) = []).

(** Where the node stands after a number of attempts. *)
Definition stands (n : nat) (c : Core R) : Prop :=
  entries_of c = [] ∨
  (∃ j, j < n ∧ registered (cores j) (afters j) ∧ entries_of c = [mkServer Nonvoter id addr]) ∨
  ∃ j k, j < k ∧ k < n ∧ registered (cores j) (afters j) ∧ promoted k (cores k) (afters k) ∧
    entries_of c = [mkServer Voter id addr].

Lemma stands_attempt n : stands n (cores n) → stands (S n) (afters n).
Proof.
  intros Hs. assert (Hlen : length (entries_of (cores n)) ≤ 1).
  { destruct Hs as [->|[(j & _ & _ & ->)|(j & k & _ & _ & _ & _ & ->)]]; simpl; lia. }
  destruct (exchange_entries n _ _ _ (cv_exchange _ _ Hcv n []) Hlen) as [He|[Hr|Hp]].
  - unfold stands. rewrite He. destruct Hs as [->|[(j & ? & ? & ->)|(j & k & ? & ? & ? & ? & ->)]]; [by left| |].
    + right; left. exists j. auto with lia.
    + right; right. exists j, k. split_and!; auto with lia.
  - right; left. exists n. destruct Hr as [H1 H2]. split_and!; [lia|by split|done].
  - right; right. pose proof Hp as (Hv & (m & Hm & Hnv & _) & _).
    destruct Hs as [Hs|[(j & Hj & Hreg & _)|(j & k & _ & _ & _ & _ & Hs)]]; [congruence| |].
    + exists j, n. auto with lia.
    + rewrite Hs in Hm. injection Hm as <-. done.
Qed.

Lemma stands_after n : stands n (cores n).
Proof.
  induction n as [|n IH]; [by left|]. pose proof (stands_attempt n IH) as Ha. unfold stands.
  rewrite (other_entries _ _ (cv_other _ _ Hcv n)). exact Ha.
Qed.
End attempts.
End conversation.

(** A successful answer that names the node as a voter tells the truth. *)
Lemma answer_voter {R} `{MembershipLaws R} clock env id addr n a c c' info m :
  exchange clock env id addr n a c c' → a = Responded Admin.SUCCESS (Some info) →
  m ∈ Admin.members info → Admin.node_id m = id → Admin.role m = Admin.CLUSTER_ROLE_VOTER →
  ∃ srv, srv ∈ entries_of id c' ∧ suffrage srv = Voter.
Proof.
  intros [resp E Ha|o E Ha|_ [Ha|Ha]] Hs; rewrite Hs in Ha; try done. injection Ha as Hcode ->. intros Hm Hmi Hmr.
  apply rpc_reports_configuration in E. rewrite <- Hcode in E.
  apply list_elem_of_lookup in Hm as [i Hm]. destruct (Forall2_lookup_r _ _ _ _ _ E Hm) as (srv & Hsrv & Hid & _ & Hrole).
  exists srv. split; [apply entries_elem; split; [congruence|by eapply list_elem_of_lookup_2]|].
  rewrite Hmr in Hrole. by destruct (suffrage srv).
Qed.

(** C10. Joining earns the vote.  The joining node and the admin service of the
    leader, with answers lost and other nodes served in between: if the node was
    unknown at first and [joinCluster] succeeds, then one attempt has
    registered the node without a vote at its own address, a later one has
    reported an applied index that reaches the node's target and has given it the
    vote, and after the attempt whose answer ended the loop the node is a voter at
    its own address, registered once. *)
Theorem join_earns_vote {R} `{MembershipLaws R} `{RetryLaws} clock env (cores afters : nat → Core R) w w' :
  let id := GetRaftId (config w) in
  let addr := GetRaftAdvertiseAddr (config w) in
  TrimSpace id = id → TrimSpace addr = addr →
  conversation clock env id addr cores afters → entries_of id (cores 0) = [] →
  joinCluster env w = (Ok tt, w') →
  ∃ j k n, j < k ∧ k ≤ n ∧ registered id addr (cores j) (afters j) ∧ promoted env id addr k (cores k) (afters k) ∧
    entries_of id (afters n) = [mkServer Voter id addr].
Proof.
  intros id addr Hid Haddr Hcv Hnew E. apply (joined_as_voter env) in E as (n & a & info & m & Hrpc & Hm & Hmi & Hmr).
  destruct (answer_voter _ _ _ _ _ _ _ _ _ _ (cv_exchange _ _ _ _ _ _ Hcv n a) Hrpc Hm Hmi Hmr) as (srv & Hsrv & Hv).
  pose proof (stands_after clock env id addr Hid Haddr cores afters Hcv Hnew n) as Hs.
  apply (stands_attempt clock env id addr Hid Haddr cores afters Hcv) in Hs.
  destruct Hs as [Hs|[(j & _ & _ & Hs)|(j & k & Hj & Hk & Hr & Hp & Hs)]].
  - rewrite Hs in Hsrv. by apply elem_of_nil in Hsrv.
  - rewrite Hs in Hsrv. by apply list_elem_of_singleton in Hsrv as ->.
  - exists j, k, n. split_and!; [done|lia|done|done|done].
Qed.

(** ** A join that goes well *)

(** What the documentation of the retry library says of [Do] while its context is
    not canceled: a call that succeeds ends it with success; after an error that is
    recoverable, while attempts are left, it calls [OnRetry] and goes on with one
    attempt less. *)
Class RetryContinues `{RetryLib} := {
  retry_succeeds n final attempt on_retry w w' :
    attempt w = (Ok tt, w') → retry_Do (S n) final attempt on_retry w = (Ok tt, w');
  retry_goes_on n final attempt on_retry w e w1 w2 :
    attempt w = (Err e, w1) → final e = false → on_retry e w1 = (Ok tt, w2) →
    retry_Do (S (S n)) final attempt on_retry w = retry_Do (S n) final attempt on_retry w2;
}.

Section success.
Context {R : Type} `{MembershipLaws R} (clock : nat → Z) (env : Env) (id addr : gostring).
Implicit Types (c : Core R) (n : RaftNode R).

(** The leader leads, and its library does what it is asked. *)
Record responsive : Prop := {
  rs_leads (r : R) : raft_leads r = true;
  rs_configuration (r : R) : ∃ i, GetConfiguration r = inr (servers r, i);
  rs_nonvoter prev (r : R) : ∃ i, fst (AddNonvoter id addr prev r) = inr i;
  rs_voter prev (r : R) : ∃ i, fst (AddVoter id addr prev r) = inr i;
}.
Context (Hrs : responsive) (Hid : TrimSpace id = id) (Haddr : TrimSpace addr = addr) (Hid0 : id ≠ []) (Haddr0 : addr ≠ []).

Lemma build_ok la n : ∃ info n', buildClusterInfoForNode clock la n = (Ok info, n') ∧
  servers (raft n') = servers (raft n) ∧ grows (joinProgress n) (joinProgress n').
Proof.
  pose proof (build_spec clock la n) as Hb. destruct (rs_configuration Hrs (raft n)) as [i Hi].
  destruct (buildClusterInfoForNode clock la n) as [[info|e| |] n'] eqn:E; try done.
  - destruct Hb as (Hr & Hg & _). exists info, n'. by rewrite Hr.
  - unfold buildClusterInfoForNode in E. rewrite gm_bind_getS, Hi in E. destruct (LeaderWithID (raft n)).
    destruct (memberLoop_spec clock (servers (raft n)) n) as (ms & n1 & Em & _). by rewrite (gm_bind_ok _ _ _ _ _ Em) in E.
Qed.

Lemma fresh_find l : (∀ s, s ∈ l → ID s ≠ id ∧ Address s ≠ addr) → findMember id addr l = inr None.
Proof.
  induction l as [|s l IH]; intros Hn; [done|]. simpl. destruct (Hn s) as [H1 H2]; [by left|].
  rewrite !bool_decide_false by done. apply IH. intros t Ht. apply Hn. by right.
Qed.

(** The request of an unknown node is answered; the node has a progress record. *)
Lemma join_first la applied n : (∀ s, s ∈ servers (raft n) → ID s ≠ id ∧ Address s ≠ addr) →
  ∃ info n', joinMember clock la id addr applied n = (Ok info, n') ∧ is_Some (joinProgress n' !! id) ∧
    servers (raft n') = servers (raft n) ++ [mkServer Nonvoter id addr].
Proof.
  intros Hn. unfold joinMember, validateJoiningMember. unfold mbind at 1, GM_bind at 1. rewrite gm_bind_getS.
  destruct (rs_configuration Hrs (raft n)) as [i ->]. rewrite fresh_find by done. cbv beta iota. simpl.
  unfold mbind at 1, GM_bind at 1, addNonvoter. destruct (rs_nonvoter Hrs i (raft n)) as [k Hk].
  destruct (AddNonvoter id addr i (raft n)) as [res r] eqn:Ea. simpl in Hk. subst res.
  apply AddNonvoter_law in Ea as [Hs|[_ [e ?]]]; [|done].
  unfold with_nonvoter in Hs. rewrite put_server_append in Hs by (intros s Hin; by apply Hn in Hin as [? _]).
  set (n1 := mkRaftNode r (joinProgress n) (S (ticks n))).
  set (rec := recordJoinProgress id (N.max k (AppliedIndex r)) applied (clock (ticks n))).
  change (∃ info n', (rec;; buildClusterInfoForNode clock la) n1 = (Ok info, n') ∧ is_Some (joinProgress n' !! id) ∧
    servers (raft n') = servers (raft n) ++ [mkServer Nonvoter id addr]).
  assert (Hrec : ∃ p n2, rec n1 = (Ok p, n2) ∧ joinProgress n2 !! id = Some p ∧ raft n2 = r).
  { unfold rec, recordJoinProgress. rewrite gm_bind_getS, gm_bind_modifyS. eexists _, _. split; [done|].
    split; [simpl; apply lookup_insert_eq|done]. }
  destruct Hrec as (p & n2 & E & Hp & Hr2). gm_step E.
  destruct (build_ok la n2) as (info & n3 & E3 & Hs3 & Hg). exists info, n3. split; [done|]. split.
  - destruct (Hg id p Hp) as (p' & -> & _). by eexists.
  - by rewrite Hs3, Hr2.
Qed.

(** The request of a registered node is answered. *)
Lemma join_member la applied n m : findMember id addr (servers (raft n)) = inr (Some m) →
  ∃ info n', joinMember clock la id addr applied n = (Ok info, n').
Proof.
  intros Hf. unfold joinMember, validateJoiningMember. unfold mbind at 1, GM_bind at 1. rewrite gm_bind_getS.
  destruct (rs_configuration Hrs (raft n)) as [i ->]. rewrite Hf. cbv beta iota. simpl.
  assert (Hb : ∀ n1, ∃ info n', buildClusterInfoForNode clock la n1 = (Ok info, n')).
  { intros n1. destruct (build_ok la n1) as (info & n2 & ? & _). eauto. }
  case_decide; [unfold clearJoinProgress; rewrite gm_bind_modifyS; apply Hb|].
  unfold mbind at 1, GM_bind at 1, Now at 1.
  destruct (recordJoinProgress_spec id 0 applied (clock (ticks n))
              (mkRaftNode (raft n) (joinProgress n) (S (ticks n)))) as (p & n1 & E1 & _).
  gm_step E1. destruct (applied <? targetIndex p)%N; [apply Hb|]. unfold mbind at 1, GM_bind at 1, addVoter.
  destruct (rs_voter Hrs i (raft n1)) as [k Hk]. destruct (AddVoter id addr i (raft n1)) as [res r]. simpl in Hk. subst res.
  unfold clearJoinProgress. rewrite gm_bind_modifyS. apply Hb.
Qed.

(** The answer of the service, from that of [joinMember]. *)
Lemma rpc_ok k c n info n' : raftNode c = Some n →
  joinMember clock (leaderAdminAddr c) id addr (raft_AppliedIndex env k) n = (Ok info, n') →
  let c' := mkCore (Some n') (leaderAdminAddr c) in
  Admin.JoinClusterRPC clock (join_request env id addr k) c =
    (Ok (Admin.mkResponse Admin.SUCCESS (Admin.toProtoCluster (Some info))), c') ∧
  JoinClusterWithProgress clock id addr (raft_AppliedIndex env k) c = (Ok info, c').
Proof.
  intros Hn E c'.
  assert (Hj : JoinClusterWithProgress clock id addr (raft_AppliedIndex env k) c = (Ok info, c')).
  { unfold JoinClusterWithProgress. rewrite gm_bind_getS, Hn, (rs_leads Hrs), Hid, Haddr. rewrite !bool_decide_false by done.
    simpl. unfold on_raftNode. by rewrite E. }
  split; [|done]. unfold Admin.JoinClusterRPC, join_request. simpl. rewrite Hid, Haddr, !bool_decide_false by done. simpl.
  by rewrite Hj.
Qed.

(** *** A registered node that waits for its vote, with its target *)
Definition waits (T : N) c : Prop :=
  unique_members c ∧ entries_of id c = [mkServer Nonvoter id addr] ∧
  ∃ p, progress_of c !! id = Some p ∧ targetIndex p = T.

Lemma not_voter c : entries_of id c = [mkServer Nonvoter id addr] → ¬ is_voter id c.
Proof.
  intros He (s & Hs & Hsi & Hv). assert (Hin : s ∈ entries_of id c) by by apply entries_elem.
  rewrite He in Hin. by apply list_elem_of_singleton in Hin as ->.
Qed.

Lemma waits_step T c c' : mstep clock c c' → entries_of id c' = entries_of id c → waits T c → waits T c'.
Proof.
  intros Hs He (Hu & Hn & p & Hp & HT). rewrite Hn in He. split_and!; [by eapply step_unique|done|].
  destruct (step_progress clock c c' id p Hs Hp) as [Hv|(p' & Hp' & Ht & _)]; [by apply not_voter in Hv|].
  exists p'. split; [done|congruence].
Qed.

(** A request of such a node is answered; it gets its vote when it reports the
    target, and otherwise gets it or goes on waiting. *)
Lemma waits_attempt T k c : waits T c →
  ∃ resp c', Admin.JoinClusterRPC clock (join_request env id addr k) c = (Ok resp, c') ∧ Admin.code resp = Admin.SUCCESS ∧
    (entries_of id c' = [mkServer Voter id addr] ∨
     waits T c' ∧ (raft_AppliedIndex env k < T)%N).
Proof.
  intros Hw. pose proof Hw as (Hu & He & p & Hp & HT). unfold progress_of in Hp.
  destruct (raftNode c) as [n|] eqn:Hn; [|simpl in Hp; by rewrite lookup_empty in Hp]. simpl in Hp.
  set (m := mkServer Nonvoter id addr).
  assert (Hm : m ∈ config_of c) by (apply (entries_elem id); unfold entries_of in He; rewrite He; set_solver).
  pose proof Hm as Hms. unfold config_of in Hms. rewrite Hn in Hms. simpl in Hms.
  assert (Hu' := Hu). unfold unique_members, config_of in Hu'. rewrite Hn in Hu'. simpl in Hu'.
  destruct (join_member (leaderAdminAddr c) (raft_AppliedIndex env k) n m (findMember_unique m _ Hu' Hms)) as (info & n' & Ej).
  destruct (rpc_ok k c n info n' Hn Ej) as [Er Ew]. set (c' := mkCore (Some n') (leaderAdminAddr c)) in *.
  eexists _, c'. split; [exact Er|]. split; [done|].
  destruct (exchange_entries clock env id addr Hid Haddr k (Responded Admin.SUCCESS (Some (Admin.toProtoCluster (Some info)))) c c')
    as [Hsame|[[Hnil _]|(Hv & _)]]; [by eapply ex_answered|by rewrite He; simpl; lia| |congruence|by left].
  right. split; [eapply waits_step; [by eapply step_join|done|done]|].
  destruct (N.lt_ge_cases (raft_AppliedIndex env k) T) as [?|Hge]; [done|exfalso].
  rewrite He in Hsame. apply (not_voter c' Hsame). destruct (rs_configuration Hrs (raft n)) as [i Hi].
  assert (Hv : is_voter id (snd (JoinClusterWithProgress clock id addr (raft_AppliedIndex env k) c))).
  { change id with (ID m) at 1. apply (caught_up_promoted clock id addr (raft_AppliedIndex env k) c n i m); try done; simpl; [apply Hrs| |].
    - unfold target_of. rewrite Hp. lia.
    - intros prev. apply Hrs. }
  by rewrite Ew in Hv.
Qed.

(** *** The client *)
Lemma ownMember_reports l ms :
  Forall2 (λ srv pm, Admin.node_id pm = ID srv ∧ Admin.addr pm = Address srv ∧
                     Admin.role pm = Admin.toProtoRole (roleFromSuffrage (suffrage srv))) l ms →
  ownMember id ms = match entries id l with
                    | [] => inl SEJoinInternal
                    | s :: _ => if decide (suffrage s = Voter) then inr tt else inl SEPromotionPending
                    end.
Proof.
  unfold entries. induction 1 as [|s m l ms (Hi & _ & Hr) _ IH]; [done|]. simpl.
  destruct (decide (ID s = id)) as [Hs|Hs].
  - rewrite filter_cons_True, bool_decide_false by (done || (rewrite Hi; tauto)). rewrite Hr. by destruct (suffrage s).
  - rewrite filter_cons_False by done. rewrite bool_decide_true by (by rewrite Hi). exact IH.
Qed.

Definition own_outcome (l : list Server) : outcome StartError unit :=
  match l with
  | [] => Err SEJoinInternal
  | s :: _ => if decide (suffrage s = Voter) then Ok tt else Err SEPromotionPending
  end.

(** An attempt that is answered ends as the configuration says. *)
Lemma send_outcome k c resp c' w : GetRaftId (config w) = id → attempts w = k →
  Admin.JoinClusterRPC clock (join_request env id addr k) c = (Ok resp, c') → Admin.code resp = Admin.SUCCESS →
  (∀ a, rpc_JoinCluster env k a = Responded (Admin.code resp) (Some (Admin.cluster resp))) →
  ∃ w', sendRequest env w = (own_outcome (entries_of id c'), w') ∧ config w' = config w ∧ attempts w' = S k.
Proof.
  intros Hw Hk E Hc Hrpc. pose proof (rpc_reports_configuration clock _ _ _ _ E) as Hr. rewrite Hc in Hr.
  unfold sendRequest. rewrite gm_bind_getS. cbv zeta. rewrite gm_bind_modifyS, Hk, Hrpc, Hc, Hw.
  rewrite (ownMember_reports _ _ Hr). fold (entries_of id c').
  destruct (entries_of id c') as [|srv l]; [|simpl; destruct (decide (suffrage srv = Voter))]; by eexists.
Qed.

(** *** The loop *)
Section loop.
Context (cores afters : nat → Core R).

(** The steps of the service that leave the registration of this node alone:
    requests of other nodes, queries, and what the library does by itself. *)
Definition others_step c c' : Prop := mstep clock c c' ∧ entries_of id c' = entries_of id c.

(** The answers arrive, and between two attempts the service takes only such steps. *)
Record undisturbed : Prop := {
  ud_answer (n : nat) resp c' : Admin.JoinClusterRPC clock (join_request env id addr n) (cores n) = (Ok resp, c') →
    c' = afters n ∧ ∀ a, rpc_JoinCluster env n a = Responded (Admin.code resp) (Some (Admin.cluster resp));
  ud_between (n : nat) : rtc others_step (afters n) (cores (S n));
}.
Context (Hud : undisturbed).

Lemma others_wait T (n : nat) : waits T (afters n) → waits T (cores (S n)).
Proof.
  generalize (ud_between Hud n). induction 1 as [|c1 c2 c3 [Hs He] _ IH]; [done|]. intros Hw. apply IH. by eapply waits_step.
Qed.

Definition pending (n : nat) (w : World) : Prop := GetRaftId (config w) = id ∧ attempts w = n.

Lemma loop_succeeds `{RetryContinues} T k fuel w : pending k w → waits T (cores k) →
  (∃ n : nat, k ≤ n < k + fuel ∧ (T ≤ raft_AppliedIndex env n)%N) →
  ∃ w', retry_Do fuel unrecoverable (sendRequest env) onRetry w = (Ok tt, w').
Proof.
  revert k w. induction fuel as [|fuel IH]; intros k w [Hc Hk] Hw (n & Hn & HT); [lia|].
  destruct (waits_attempt T k (cores k) Hw) as (resp & c' & Er & Hcode & Hout).
  destruct (ud_answer Hud k resp c' Er) as [-> Hrpc].
  destruct (send_outcome k (cores k) resp (afters k) w Hc Hk Er Hcode Hrpc) as (w1 & Es & Hc1 & Hk1).
  destruct Hout as [Hv|[Hw' Hlt]]; [rewrite Hv in Es; eexists; by apply retry_succeeds|].
  pose proof Hw' as (_ & He & _). rewrite He in Es. destruct fuel as [|fuel].
  { assert (n = k) as -> by lia. lia. }
  rewrite (retry_goes_on _ _ _ _ _ _ _ _ Es eq_refl eq_refl).
  apply (IH (S k)); [split; [by rewrite Hc1|done]|by apply others_wait|]. exists n. split; [|done].
  destruct (decide (n = k)) as [->|]; lia.
Qed.

(** The first attempt registers the node. *)
Lemma first_attempt : unique_members (cores 0) → (∀ s, s ∈ config_of (cores 0) → ID s ≠ id ∧ Address s ≠ addr) →
  is_Some (raftNode (cores 0)) →
  ∃ resp T, Admin.JoinClusterRPC clock (join_request env id addr 0) (cores 0) = (Ok resp, afters 0) ∧
    Admin.code resp = Admin.SUCCESS ∧ waits T (afters 0).
Proof.
  intros Hu Hn [node Hnode]. pose proof Hn as Hn'. unfold config_of in Hn'. rewrite Hnode in Hn'. simpl in Hn'.
  destruct (join_first (leaderAdminAddr (cores 0)) (raft_AppliedIndex env 0) node Hn') as (info & n' & Ej & [p Hp] & Hs).
  destruct (rpc_ok 0 (cores 0) node info n' Hnode Ej) as [Er Ew].
  destruct (ud_answer Hud 0 _ _ Er) as [Ha _]. rewrite Ha in Er, Ew. eexists _, (targetIndex p). split; [exact Er|]. split; [done|].
  assert (Hnil : entries_of id (cores 0) = []).
  { apply elem_of_nil_inv. intros s [? Hin]%entries_elem. by apply Hn in Hin as [? _]. }
  assert (He : entries_of id (afters 0) = [mkServer Nonvoter id addr]).
  { rewrite <- Ha. unfold entries_of, config_of in *. rewrite Hnode in Hnil. simpl in *. rewrite Hs. unfold entries in *.
    by rewrite filter_app, Hnil, filter_cons_True by done. }
  split_and!; [eapply step_unique; [by eapply step_join|done]|done|]. exists p. split; [|done].
  rewrite <- Ha. exact Hp.
Qed.
End loop.
End success.

(** C11. A join that goes well succeeds.  Let the retry library go on while its
    context is not canceled, let the leader keep leading and its Raft library accept
    every change it is asked for, and let the answers arrive.  Between two attempts
    the service may serve other nodes and its library may move, as long as nobody
    else changes the registration of this node.  If the node's ID and
    address are new to the cluster, and before the last of the 151 attempts the node
    reports an index that reaches the target it was given at the first one, then
    [joinCluster] succeeds. *)
Theorem join_succeeds {R} `{MembershipLaws R} `{RetryContinues} clock env (cores afters : nat → Core R) w :
  let id := GetRaftId (config w) in
  let addr := GetRaftAdvertiseAddr (config w) in
  TrimSpace id = id → TrimSpace addr = addr → id ≠ [] → addr ≠ [] →
  responsive id addr → undisturbed clock env id addr cores afters → attempts w = 0 →
  is_Some (raftNode (cores 0)) → unique_members (cores 0) →
  (∀ s, s ∈ config_of (cores 0) → ID s ≠ id ∧ Address s ≠ addr) →
  (∃ n, 0 < n < join_attempts ∧
    ∀ p, progress_of (afters 0) !! id = Some p → (targetIndex p ≤ raft_AppliedIndex env n)%N) →
  ∃ w', joinCluster env w = (Ok tt, w').
Proof.
  intros id addr Hid Haddr Hid0 Haddr0 Hrs Hud Hw Hnode Hu Hnew (n & Hn & Hp).
  destruct (first_attempt clock env id addr Hrs Hid Haddr Hid0 Haddr0 cores afters Hud Hu Hnew Hnode)
    as (resp & T & Er & Hcode & Hwait).
  destruct (ud_answer _ _ _ _ _ _ Hud 0 resp _ Er) as [_ Hrpc].
  destruct (send_outcome clock env id addr 0 _ resp _ w eq_refl Hw Er Hcode Hrpc) as (w1 & Es & Hc1 & Hk1).
  unfold joinCluster. destruct join_attempts as [|[|fuel]]; [lia..|].
  pose proof Hwait as (_ & He & p & Hpr & HT). rewrite He in Es.
  rewrite (retry_goes_on _ _ _ _ _ _ _ _ Es eq_refl eq_refl).
  apply (loop_succeeds clock env id addr Hrs Hid Haddr Hid0 Haddr0 cores afters Hud T 1).
  - split; [unfold id; by rewrite Hc1|done].
  - by apply (others_wait clock env id addr cores afters Hud).
  - exists n. split; [lia|]. rewrite <- HT. by apply Hp.
Qed.

(** ** A join *)
Module Example.
Import Local.

(** A retry library that has the laws. *)
Fixpoint retry_loop (n : nat) (final : StartError → bool) (attempt : SM unit) (on_retry : StartError → SM unit) : SM unit := λ w,
  match n with
  | O => (Err SEJoinInternal, w)
  | S n =>
      match attempt w with
      | (Ok _, w1) => (Ok tt, w1)
      | (Err e, w1) =>
          if final e then (Err e, w1)
          else match on_retry e w1 with
               | (Ok _, w2) => match n with O => (Err e, w2) | _ => retry_loop n final attempt on_retry w2 end
               | _ => (Err e, w1)
               end
      | _ => (Err SEJoinInternal, w)
      end
  end.
Definition persistent_retry : RetryLib := {| retry_Do := retry_loop |}.

Lemma retry_loop_laws : @RetryLaws persistent_retry.
Proof.
  split. intros n final attempt on_retry. simpl. induction n as [|n IH]; intros w o w' E; simpl in E.
  { injection E as <- <-. apply rr_canceled. }
  destruct (attempt w) as [[[]|e| |] w1] eqn:Ea; [injection E as <- <-; by apply rr_success| |injection E as <- <-; apply rr_canceled..].
  destruct (final e); [injection E as <- <-; by apply rr_last|].
  destruct (on_retry e w1) as [[[]|e2| |] w2] eqn:Eo; [|injection E as <- <-; by apply rr_last..].
  destruct n as [|n]; [injection E as <- <-; by eapply rr_last_notified|]. eapply rr_again; [done|done|]. by apply IH.
Qed.

Lemma retry_loop_continues : @RetryContinues persistent_retry.
Proof.
  split.
  - intros n final attempt on_retry w w' E. simpl. by rewrite E.
  - intros n final attempt on_retry w e w1 w2 E Hf Eo. change (retry_loop (S (S n)) final attempt on_retry w = retry_loop (S n) final attempt on_retry w2).
    cbn [retry_loop]. by rewrite E, Hf, Eo.
Qed.

(** The node reports index 0, 5, 10, ... to a leader that has applied 9 entries. *)
Definition reported (n : nat) : N := N.of_nat (5 * n).
Definition node : World := new_machine.
Definition ask (n : nat) : Admin.JoinClusterRequest :=
  Admin.mkRequest (GetRaftId (config node)) (GetRaftAdvertiseAddr (config node)) (reported n).

Fixpoint before (n : nat) : Core Raft :=
  match n with
  | O => mkCore (Some (mkRaftNode (mkRaft [mkServer Voter §"a" §"host:1"] 9) ∅ 0)) []
  | S n => snd (Admin.JoinClusterRPC clock (ask n) (before n))
  end.
Definition answer (n : nat) : RpcResult :=
  match fst (Admin.JoinClusterRPC clock (ask n) (before n)) with
  | Ok resp => Responded (Admin.code resp) (Some (Admin.cluster resp))
  | _ => CallFailed
  end.

Definition join_env : Env := {|
  os_MkdirAll := os_MkdirAll calm_env; os_Chmod := os_Chmod calm_env; os_ReadDir := os_ReadDir calm_env;
  boltdb_New := boltdb_New calm_env; NewFileSnapshotStore := NewFileSnapshotStore calm_env;
  snapshotStore_List := snapshotStore_List calm_env; ResolveTCPAddr := ResolveTCPAddr calm_env;
  HasExistingState := HasExistingState calm_env; NewTCPTransport := NewTCPTransport calm_env; NewRaft := NewRaft calm_env;
  raft_GetConfiguration := raft_GetConfiguration calm_env; BootstrapCluster := BootstrapCluster calm_env;
  raft_AppliedIndex := reported; rpc_JoinCluster n _ := answer n; wait_event := wait_event calm_env;
  Shutdown_fails := false; transport_Close_fails := false; store_Close_fails := false;
  disk_fault := disk_fault calm_env; temp_name := temp_name calm_env;
|}.

Abbreviation id := (GetRaftId (config node)).
Abbreviation addr := (GetRaftAdvertiseAddr (config node)).

Lemma before_S n o c : Admin.JoinClusterRPC clock (ask n) (before n) = (o, c) → before (S n) = c.
Proof.
  intros E. change (before (S n)) with (snd (Admin.JoinClusterRPC clock (ask n) (before n))). by rewrite E.
Qed.

Lemma talk : conversation clock join_env id addr before (λ n, before (S n)).
Proof.
  split; [|intros n; apply rtc_refl]. intros n a. change (rpc_JoinCluster join_env n a) with (answer n). unfold answer.
  destruct (Admin.JoinClusterRPC clock (ask n) (before n)) as [o c] eqn:E.
  rewrite (before_S _ _ _ E). destruct o as [resp|e| |]; cbn [fst].
  - by eapply ex_answered.
  - by eapply ex_failed.
  - by eapply ex_failed.
  - by eapply ex_failed.
Qed.

Lemma calm_talk : undisturbed clock join_env id addr before (λ n, before (S n)).
Proof.
  split.
  - intros n resp c' E. change (join_request join_env id addr n) with (ask n) in E. split; [symmetry; exact (before_S _ _ _ E)|].
    intros a. change (rpc_JoinCluster join_env n a) with (answer n). unfold answer. by rewrite E.
  - intros n. apply rtc_refl.
Qed.

Lemma local_responsive : @responsive Raft _ _ id addr.
Proof.
  split; [done|intros r; by eexists|intros prev r; by eexists|intros prev r; by eexists].
Qed.

Lemma join_earns_vote_witness :
  ∃ j k n, j < k ∧ k ≤ n ∧ registered id addr (before j) (before (S j)) ∧
    promoted join_env id addr k (before k) (before (S k)) ∧ entries_of id (before (S n)) = [mkServer Voter id addr].
Proof.
  apply (@join_earns_vote Raft _ _ persistent_retry retry_loop_laws clock join_env before (λ n, before (S n)) node
           (snd (@joinCluster join_env persistent_retry node))).
  - vm_compute. reflexivity.
  - vm_compute. reflexivity.
  - exact talk.
  - vm_compute. reflexivity.
  - vm_compute. reflexivity.
Defined.

Lemma join_succeeds_witness : ∃ w', @joinCluster join_env persistent_retry node = (Ok tt, w').
Proof.
  apply (@join_succeeds Raft _ _ persistent_retry retry_loop_continues clock join_env before (λ n, before (S n)) node).
  - vm_compute. reflexivity.
  - vm_compute. reflexivity.
  - vm_compute. discriminate.
  - vm_compute. discriminate.
  - exact local_responsive.
  - exact calm_talk.
  - reflexivity.
  - by eexists.
  - split; apply (bool_decide_unpack _); vm_compute; exact I.
  - intros s Hs. apply list_elem_of_singleton in Hs as ->. vm_compute. split; discriminate.
  - exists 2. split; [vm_compute; lia|]. intros p Hp. vm_compute in Hp. injection Hp as <-. vm_compute. discriminate.
Defined.
End Example.
