(* ===== verification/Client.v ===== *)
(** * The RESP client of the benchmark harness (benchmarks/harness/client.go)

    The client writes commands to a buffered writer, flushes it and reads the
    responses.  Together with the server it closes the circle: what a client
    reads is what the specification assigns to the commands it wrote
    ([client_session]). *)

From S2P Require Import Prelude GoLib Resp MemDB CmdExecutor Utf8 Json Fsm RespServer.
Import Build MemDB.

(** ** The connection as the client sees it *)

(** [w] is what the buffered writer has been given and not been flushed (when
    its buffer is full it passes data on earlier, in the same order), [sent] what
    went to the server, [r] what the server still delivers before
    it closes the connection; [calls] counts the calls of the writer. *)
Record respClient := mkClient {
  r : gostring;
  w : gostring;
  sent : gostring;
  calls : nat;
}.

(** The errors, one constructor per [return] of an error. *)
Inductive ClientError :=
| CWrite
| CEOF
| CUnexpectedEOF
| CInvalidResponse
| CBulkLength (line : gostring)
| CBulkTerminator
| CPrefix (c : ascii).

Abbreviation RM := (GM respClient ClientError).

Section client.
(** [fault k = Some n]: call number [k] of the writer fails after [n] bytes. *)
Context (fault : nat → option nat).

Definition Fprintf (s : gostring) : RM unit := λ c,
  match fault (calls c) with
  | None => (Ok tt, mkClient (r c) (w c ++ s) (sent c) (S (calls c)))
  | Some n => (Err CWrite, mkClient (r c) (w c ++ take n s) (sent c) (S (calls c)))
  end.

Definition Flush : RM unit := λ c,
  match fault (calls c) with
  | None => (Ok tt, mkClient (r c) [] (sent c ++ w c) (S (calls c)))
  | Some n => (Err CWrite, mkClient (r c) (drop n (w c)) (sent c ++ take n (w c)) (S (calls c)))
  end.

Fixpoint writeArgs (args : list gostring) : RM unit :=
  match args with
  | [] => mret tt
  | arg :: args =>
      Fprintf (§"$" ++ Itoa (Z.of_nat (length arg)) ++ CRLF ++ arg ++ CRLF);;
      writeArgs args
  end.

Definition writeCommand (args : list gostring) : RM unit :=
  Fprintf (§"*" ++ Itoa (Z.of_nat (length args)) ++ CRLF);;
  writeArgs args.

(** [r.ReadString('\n')] *)
Definition ReadString : RM gostring := λ c,
  match Parser.split_line (r c) with
  | Some (line, rest) => (Ok line, mkClient rest (w c) (sent c) (calls c))
  | None => (Err CEOF, mkClient [] (w c) (sent c) (calls c))
  end.

(** [io.ReadFull] into a buffer of [n] bytes, [n] not zero. *)
Definition ReadFull (n : nat) : RM gostring := λ c,
  if bool_decide (n ≤ length (r c)) then (Ok (take n (r c)), mkClient (drop n (r c)) (w c) (sent c) (calls c))
  else (Err (if bool_decide (r c = []) then CEOF else CUnexpectedEOF), mkClient [] (w c) (sent c) (calls c)).

Definition readResponse : RM gostring :=
  line ← ReadString;
  if bool_decide (length line < 3) || negb (HasSuffix line CRLF) then throw CInvalidResponse
  else match line with
  | [] => gopanic
  | c :: rest =>
      if bool_decide (c ∈ [ "+"%char; "-"%char; ":"%char ]) then mret line
      else if bool_decide (c = "$"%char) then
        match Atoi (TrimSuffix rest CRLF) with
        | None => throw (CBulkLength line)
        | Some n =>
            if (n <? 0)%Z then mret line
            else if Parser.makeslice_ok 1 (wrap64 (n + 2)) then
              body ← ReadFull (Z.to_nat (wrap64 (n + 2)));
              if bool_decide (drop (Z.to_nat n) body ≠ CRLF) then throw CBulkTerminator
              else mret (line ++ body)
            else gopanic
        end
      else throw (CPrefix c)
  end.

Definition command (args : list gostring) : RM gostring :=
  writeCommand args;;
  Flush;;
  readResponse.

(** A batch of pipelined commands: all are written, then the writer is flushed,
    then their responses are read in turn. *)
Fixpoint writeAll (reqs : list (list gostring)) : RM unit :=
  match reqs with
  | [] => mret tt
  | args :: reqs => writeCommand args;; writeAll reqs
  end.

Fixpoint readAll (reqs : list (list gostring)) : RM (list gostring) :=
  match reqs with
  | [] => mret []
  | _ :: reqs => reply ← readResponse; rs ← readAll reqs; mret (reply :: rs)
  end.
End client.

Definition responseOK (response : gostring) : bool :=
  match response with
  | [] => false
  | c :: _ => negb (bool_decide (c = "-"%char))
  end.

(** ** What is written *)
Section writing.
Context (fault : nat → option nat).
Implicit Types (c : respClient).

Lemma Fprintf_ok s c : fault (calls c) = None →
  Fprintf fault s c = (Ok tt, mkClient (r c) (w c ++ s) (sent c) (S (calls c))).
Proof. unfold Fprintf. by intros ->. Qed.

(** Writes [s] if nothing fails, a prefix of [s] otherwise. *)
Definition writes (s : gostring) (m : RM unit) : Prop := ∀ c, ∃ k,
  (m c = (Ok tt, mkClient (r c) (w c ++ s) (sent c) k)) ∨
  (∃ s', s' `prefix_of` s ∧ (∃ j, fault j ≠ None) ∧ m c = (Err CWrite, mkClient (r c) (w c ++ s') (sent c) k)).

Lemma writes_Fprintf s : writes s (Fprintf fault s).
Proof.
  intros c. exists (S (calls c)). unfold Fprintf. destruct (fault (calls c)) as [n|] eqn:E; [right|by left].
  exists (take n s). split_and!; [apply prefix_take|by exists (calls c); rewrite E|done].
Qed.

Lemma writes_ret : writes [] (mret tt).
Proof. intros c. exists (calls c). left. rewrite app_nil_r. by destruct c. Qed.

Lemma writes_seq s1 s2 m1 m2 : writes s1 m1 → writes s2 m2 → writes (s1 ++ s2) (m1;; m2).
Proof.
  intros H1 H2 c. destruct (H1 c) as (k & [E|(s' & Hp & Hf & E)]).
  - gm_step E. destruct (H2 (mkClient (r c) (w c ++ s1) (sent c) k)) as (k' & [E'|(s' & Hp & Hf & E')]);
      exists k'; rewrite E'; simpl; rewrite <- app_assoc; [by left|right].
    exists (s1 ++ s'). split_and!; [by apply prefix_app|done|done].
  - gm_step E. exists k. right. exists s'. split_and!; [by apply prefix_app_r|done|done].
Qed.

Lemma writes_args args : writes (Parser.encode_args args) (writeArgs fault args).
Proof.
  induction args as [|arg args IH]; [apply writes_ret|].
  unfold Parser.encode_args. cbn [writeArgs map concat BuildBulkString].
  apply writes_seq; [apply writes_Fprintf|exact IH].
Qed.

Lemma writes_command args : writes (BuildArray (Some args)) (writeCommand fault args).
Proof.
  unfold writeCommand, BuildArray. rewrite !app_assoc. apply writes_seq; [|apply writes_args].
  rewrite <- app_assoc. apply writes_Fprintf.
Qed.

Lemma writes_all reqs : writes (encode_requests reqs) (writeAll fault reqs).
Proof.
  induction reqs as [|args reqs IH]; [apply writes_ret|].
  unfold encode_requests. cbn [writeAll map concat]. apply writes_seq; [apply writes_command|exact IH].
Qed.
End writing.

(** Nothing fails. *)
Definition no_fault : nat → option nat := λ _, None.

Lemma no_fault_writes s m c : writes no_fault s m → ∃ k, m c = (Ok tt, mkClient (r c) (w c ++ s) (sent c) k).
Proof. intros Hw. destruct (Hw c) as (k & [E|(s' & _ & [j Hj] & _)]); [by exists k|done]. Qed.

(** ** What is read *)

(** [framed reply]: a client that finds [reply] at the head of its stream reads
    exactly [reply]. *)
Definition framed (reply : gostring) : Prop := ∀ rest buf out k,
  readResponse (mkClient (reply ++ rest) buf out k) = (Ok reply, mkClient rest buf out k).

Lemma ReadString_line l rest buf out k : "010"%char ∉ l →
  ReadString (mkClient (l ++ CRLF ++ rest) buf out k) = (Ok (l ++ CRLF), mkClient rest buf out k).
Proof.
  intros Hl. unfold ReadString. cbn [r].
  replace (l ++ CRLF ++ rest) with ((l ++ ["013"%char]) ++ "010"%char :: rest) by (by rewrite <- app_assoc).
  rewrite Parser.split_line_app; [|apply Parser.not_LF_app; [done|]].
  - by rewrite <- app_assoc.
  - rewrite elem_of_cons, elem_of_nil. by intros [|].
Qed.

Lemma framed_line t l : t ∈ [ "+"%char; "-"%char; ":"%char ] → "010"%char ∉ l → framed (t :: l ++ CRLF).
Proof.
  intros Ht Hl rest buf out k. unfold readResponse.
  assert (Hn : "010"%char ∉ t :: l).
  { rewrite elem_of_cons. intros [<-|?]; [|done]. by rewrite !elem_of_cons, elem_of_nil in Ht; destruct_or! Ht. }
  pose proof (ReadString_line (t :: l) rest buf out k Hn) as E. cbn [app] in E.
  change ((t :: l ++ CRLF) ++ rest) with (t :: (l ++ CRLF) ++ rest). rewrite <- app_assoc. gm_step E.
  rewrite bool_decide_false by (simpl; rewrite length_app; simpl; lia).
  change (t :: l ++ CRLF) with ((t :: l) ++ CRLF). rewrite HasSuffix_app. simpl.
  by rewrite bool_decide_true by done.
Qed.

Lemma framed_nil : framed (BuildBulkString None).
Proof. intros rest buf out k. reflexivity. Qed.

Lemma framed_bulk v : Parser.arg_fits v → framed (BuildBulkString (Some v)).
Proof.
  intros Hv rest buf out k. pose proof (Parser.fits_int64 v Hv) as Hi.
  destruct (Parser.Itoa_line (Z.of_nat (length v))) as [Hne Hnl].
  set (h := Itoa (Z.of_nat (length v))) in *.
  assert (Hn : "010"%char ∉ "$"%char :: h) by (rewrite elem_of_cons; by intros [|]).
  rewrite Parser.bulk_eq. fold h. unfold readResponse.
  pose proof (ReadString_line ("$"%char :: h) (v ++ CRLF ++ rest) buf out k Hn) as E. cbn [app] in E.
  gm_step E. rewrite bool_decide_false.
  2:{ simpl. rewrite length_app. destruct h; [done|]. simpl. lia. }
  change ("$"%char :: h ++ CRLF) with (("$"%char :: h) ++ CRLF) at 1. rewrite HasSuffix_app. cbn [orb negb].
  change (bool_decide ("$"%char ∈ [ "+"%char; "-"%char; ":"%char ])) with false. cbv iota.
  rewrite bool_decide_true by done. rewrite TrimSuffix_app. unfold h. rewrite Atoi_Itoa by done. fold h.
  destruct (Z.ltb_spec (Z.of_nat (length v)) 0); [lia|].
  unfold Parser.arg_fits in Hv. rewrite wrap64_id by (unfold in_int64, Parser.maxAlloc in *; lia).
  rewrite Parser.makeslice_ok_true by lia.
  assert (Er : ReadFull (Z.to_nat (Z.of_nat (length v) + 2)) (mkClient (v ++ CRLF ++ rest) buf out k) =
               (Ok (v ++ CRLF), mkClient rest buf out k)).
  { replace (Z.to_nat (Z.of_nat (length v) + 2)) with (length (v ++ CRLF)) by (rewrite length_app; simpl; lia).
    unfold ReadFull. cbn [r w sent calls]. rewrite app_assoc. rewrite bool_decide_true by (rewrite !length_app; lia).
    by rewrite take_app_exact, drop_app_exact. }
  gm_step Er. rewrite Nat2Z.id, drop_app_exact, bool_decide_false by (intros Hc; by apply Hc).
  unfold BuildBulkString. fold h. simpl. by rewrite <- app_assoc.
Qed.

(** ** Every reply of the specification is framed *)
Lemma Itoa_length z : in_int64 z → length (Itoa z) ≤ 65.
Proof.
  assert (Hd : ∀ fuel n, length (dec_digits fuel n) ≤ fuel).
  { induction fuel as [|fuel IH]; intros n; simpl; [lia|]. destruct (n <? 10)%Z; simpl; [lia|].
    rewrite length_app. specialize (IH (n / 10)%Z). simpl. lia. }
  assert (Hu : ∀ n, (n ≤ 2^63)%Z → length (udec n) ≤ 64).
  { intros n Hn. unfold udec. pose proof (Hd (S (Z.to_nat (Z.log2 n))) n).
    pose proof (Z.log2_le_mono n (2^63) Hn) as Hl. rewrite Z.log2_pow2 in Hl by lia. lia. }
  unfold in_int64, Itoa. intros Hz. destruct (z <? 0)%Z; simpl; [specialize (Hu (- z)%Z)|specialize (Hu z)]; lia.
Qed.

Lemma Itoa_fits z : in_int64 z → Parser.arg_fits (Itoa z).
Proof. intros Hz%Itoa_length. unfold Parser.arg_fits, Parser.maxAlloc. lia. Qed.

(** The values a request stores or echoes are of a size a slice can have. *)
Definition request_fits (req : Request) : Prop :=
  match req with
  | RPing (Some a) | RSet _ a => Parser.arg_fits a
  | RIncr _ d => in_int64 d
  | _ => True
  end.

Definition values_fit (ks : Keyspace) : Prop := map_Forall (λ _ v, Parser.arg_fits v) ks.

Lemma request_of_fits cmd : Forall Parser.arg_fits (Args cmd) → request_fits (request_of cmd).
Proof.
  destruct cmd as [op args]. simpl. intros Ha. unfold request_of. cbn [Op Args].
  destruct (list_find _ request_table) as [[i [o mk]]|] eqn:E; [|done].
  apply list_find_Some in E as (Hi & _ & _). apply list_elem_of_lookup_2 in Hi. unfold request_table in Hi.
  rewrite !elem_of_cons, elem_of_nil in Hi.
  destruct_or!; try done; injection Hi as _ ->; repeat case_match; simpl; try done;
    repeat match goal with
    | H : Forall _ (_ :: _) |- _ => apply Forall_cons in H as [? H]
    | H : Atoi _ = Some _ |- _ => apply Atoi_in_int64 in H
    end; done.
Qed.

(** The constant replies are lines; this is decided by evaluation. *)
Definition is_line (s : gostring) : bool :=
  match s with
  | [] => false
  | t :: l => bool_decide (t ∈ [ "+"%char; "-"%char; ":"%char ]) && HasSuffix l CRLF
              && bool_decide ("010"%char ∉ TrimSuffix l CRLF)
  end.

Lemma framed_const s : is_line s = true → framed s.
Proof.
  destruct s as [|t l]; [done|]. simpl. rewrite !andb_true_iff. intros [[Ht Hs] Hn].
  apply bool_decide_eq_true in Ht, Hn. apply HasSuffix_split in Hs. rewrite Hs.
  by apply framed_line.
Qed.

Lemma framed_reply req ks : request_fits req → values_fit ks → framed (fst (denote None req ks)).
Proof.
  intros Hr Hks. destruct req as [[a|]|k v|k|k|k d|keys| | |]; simpl in *; try by apply framed_const.
  - by apply framed_bulk.
  - destruct (ks !! k) as [v|] eqn:E; [|apply framed_nil]. apply framed_bulk. by apply (Hks k).
  - case_match; by apply framed_const.
  - apply framed_line; [by vm_compute; repeat constructor|]. apply Parser.Itoa_line.
Qed.

Lemma denote_fits req ks : request_fits req → values_fit ks → values_fit (snd (denote None req ks)).
Proof.
  intros Hr Hks. destruct req as [[a|]|k v|k|k|k d|keys| | |]; simpl in *; try done.
  - by apply map_Forall_insert_2.
  - by apply map_Forall_delete.
  - unfold incr_value. repeat case_match; simplify_eq/=; try done; apply map_Forall_insert_2; try done;
      apply Itoa_fits; auto with skiff.
Qed.

(** The client reads the replies of a session one by one. *)
Lemma readAll_replies reqs cmds ks rest buf out k :
  length reqs = length cmds → Forall (λ cmd, Forall Parser.arg_fits (Args cmd)) cmds → values_fit ks →
  readAll reqs (mkClient (concat (fst (denote_all None cmds ks)) ++ rest) buf out k) =
    (Ok (fst (denote_all None cmds ks)), mkClient rest buf out k).
Proof.
  revert cmds ks. induction reqs as [|args reqs IH]; intros [|cmd cmds] ks Hl Hc Hks; try done.
  apply Forall_cons in Hc as [Hc Hcs]. apply request_of_fits in Hc.
  pose proof (framed_reply _ ks Hc Hks) as Hf. pose proof (denote_fits _ ks Hc Hks) as Hks1.
  cbn [denote_all]. destruct (denote None (request_of cmd) ks) as [reply ks1]. simpl in Hf, Hks1.
  specialize (IH cmds ks1 ltac:(by injection Hl) Hcs Hks1). destruct (denote_all None cmds ks1) as [rs ks2].
  cbn [fst concat readAll] in *. rewrite <- app_assoc. gm_step (Hf _ _ _ _). by gm_step IH.
Qed.

Lemma BuildCmd_args `{UnicodeTables} args cmd : BuildCmd args = Some cmd → Forall Parser.arg_fits args →
  Forall Parser.arg_fits (Args cmd).
Proof.
  intros Hb Ha. destruct args as [|op rest]; [done|]. apply Forall_cons in Ha as [_ Ha].
  destruct rest; injection Hb as <-; done.
Qed.

Lemma BuildCmds_args `{UnicodeTables} reqs cmds : mapM BuildCmd reqs = Some cmds → Forall sendable reqs →
  length reqs = length cmds ∧ Forall (λ cmd, Forall Parser.arg_fits (Args cmd)) cmds.
Proof.
  intros Hb%mapM_Some Hs. split; [by apply Forall2_length in Hb|].
  induction Hb as [|args cmd reqs cmds Hb _ IH]; [done|]. apply Forall_cons in Hs as [[[_ Hf] _] Hs].
  constructor; [by eapply BuildCmd_args|by apply IH].
Qed.

(** One command: what is sent is its encoding, what is returned the reply. *)
Lemma command_reply args reply rest out k : framed reply → ∃ k',
  command no_fault args (mkClient (reply ++ rest) [] out k) =
    (Ok reply, mkClient rest [] (out ++ BuildArray (Some args)) k').
Proof.
  intros Hf. destruct (no_fault_writes _ _ (mkClient (reply ++ rest) [] out k) (writes_command no_fault args))
    as [k1 E]. exists (S k1). unfold command. gm_step E. unfold Flush at 1, no_fault at 1. simpl.
  unfold mbind at 1, GM_bind at 1. simpl. apply Hf.
Qed.

(** ** Theorems *)
Section theorems.
Context {R : Type} `{RaftLaws R} `{UnicodeTables}.
Implicit Types (n : Node R) (reqs : list (list gostring)).

(** C26.  A session from end to end.  A client writes any batch of commands, none
    with an empty argument, to a standalone server, which answers; the client,
    reading one response per command, gets exactly the replies the specification
    assigns to the commands, in order and with no byte left over, and the server
    holds the key space the specification leaves. *)
Theorem client_session reqs cmds n buf : raft n = None → node_wf n → values_fit (node_view n) →
  Forall sendable reqs → mapM BuildCmd reqs = Some cmds → Forall cmd_fits cmds →
  let out := denote_all None cmds (node_view n) in
  ∃ k bytes p n',
    (writeAll no_fault reqs;; Flush no_fault) (mkClient buf [] [] 0) = (Ok tt, mkClient buf [] bytes k) ∧
    handleConnection bytes n = (Ok tt, mkConn p (fst out) n') ∧ node_view n' = snd out ∧
    readAll reqs (mkClient (concat (fst out)) [] bytes k) = (Ok (fst out), mkClient [] [] bytes k).
Proof.
  intros Hr Hwf Hv Hs Hb Hfit out.
  destruct (no_fault_writes _ _ (mkClient buf [] [] 0) (writes_all no_fault reqs)) as [k Ew].
  destruct (serve_standalone reqs cmds n Hr Hwf Hb Hfit) as (n' & E & Hn').
  destruct (handle_serve reqs n _ n' Hs E) as [p Hp].
  destruct (BuildCmds_args reqs cmds Hb Hs) as [Hl Ha].
  exists (S k), (encode_requests reqs), p, n'. split_and!; [|exact Hp|exact Hn'|].
  - gm_step Ew. done.
  - rewrite <- (app_nil_r (concat _)). by apply readAll_replies.
Qed.
End theorems.

(** ** Witnesses *)
#[local] Instance ascii_only : UnicodeTables := {| map_unicode_ToUpper := λ s, s |}.

Lemma client_session_witness :
  let out := denote_all None [mkCmd §"SET" [§"k"; §"v"]; mkCmd §"GET" [§"k"]] (node_view standalone) in
  ∃ k bytes p n',
    (writeAll no_fault set_get;; Flush no_fault) (mkClient [] [] [] 0) = (Ok tt, mkClient [] [] bytes k) ∧
    handleConnection bytes standalone = (Ok tt, mkConn p (fst out) n') ∧ node_view n' = snd out ∧
    readAll set_get (mkClient (concat (fst out)) [] bytes k) = (Ok (fst out), mkClient [] [] bytes k).
Proof.
  apply (client_session set_get [mkCmd §"SET" [§"k"; §"v"]; mkCmd §"GET" [§"k"]] standalone []).
  - reflexivity.
  - exact initial_wf.
  - change (node_view standalone) with (∅ : Keyspace). apply map_Forall_empty.
  - exact set_get_sendable.
  - vm_compute. reflexivity.
  - repeat constructor; vm_compute; discriminate.
Defined.
