(* ===== verification/Float64.v ===== *)
(** * Go's [float64]

    The benchmark harness computes with 64-bit floating-point numbers.  They are
    the IEEE 754 numbers of the Standard Library's [SpecFloat] at 53 bits of
    precision, with the operations that the source uses.  The
    lemmas reduce the rounded product and quotient of integers to inequalities
    between integers ([mul_int_round], [div_int_round]), from which [Workload]
    shows where rounding makes no difference. *)

From S2P Require Import Prelude.
From Stdlib Require Import SpecFloat.
Local Open Scope Z_scope.

Abbreviation float64 := spec_float.

(** ** Operations *)
Definition fadd (x y : float64) : float64 := SFadd 53 1024 x y.
Definition fsub (x y : float64) : float64 := SFsub 53 1024 x y.
Definition fmul (x y : float64) : float64 := SFmul 53 1024 x y.
Definition fdiv (x y : float64) : float64 := SFdiv 53 1024 x y.
Definition flt (x y : float64) : bool := SFltb x y.
Definition fzero : float64 := S754_zero false.

(** [float64(n)] *)
Definition of_int (n : Z) : float64 := binary_normalize 53 1024 n 0 false.

(** The decimal literal [num/den], rounded once: [decimal 95 100] is [.95]. *)
Definition decimal (num den : Z) : float64 := fdiv (of_int num) (of_int den).

Definition dyadic_ceil (s : bool) (m : positive) (e : Z) : Z :=
  - ((- cond_Zopp s (Zpos m)) / 2 ^ (- e)).

(** [math.Ceil] *)
Definition Ceil (x : float64) : float64 :=
  match x with
  | S754_finite s m e => if 0 <=? e then x else binary_normalize 53 1024 (dyadic_ceil s m e) 0 s
  | _ => x
  end.

(** [int(x)] truncates; what it returns for a value out of range, an infinity or
    NaN is left to the implementation. *)
Class FloatToInt := out_of_range : float64 → Z.

Definition dyadic_trunc (s : bool) (m : positive) (e : Z) : Z :=
  cond_Zopp s (if 0 <=? e then Zpos m * 2 ^ e else Zpos m / 2 ^ (- e)).

Definition to_int `{FloatToInt} (x : float64) : Z :=
  match x with
  | S754_zero _ => 0
  | S754_finite s m e =>
      let z := dyadic_trunc s m e in if bool_decide (in_int64 z) then z else out_of_range x
  | _ => out_of_range x
  end.

(** ** Rounding *)

(** The record of a shifted mantissa with its round and sticky bits stands for the
    fraction [n / d]. *)
Definition cell (mrs : shr_record) (n d : Z) : Prop :=
  0 ≤ shr_m mrs ∧
  let f := n - shr_m mrs * d in
  match shr_r mrs, shr_s mrs with
  | false, false => f = 0
  | false, true => 0 < 2 * f < d
  | true, false => 2 * f = d
  | true, true => d < 2 * f < 2 * d
  end.

Lemma cell_shr_1 mrs n d : 0 < d → cell mrs n d → cell (shr_1 mrs) n (2 * d).
Proof.
  destruct mrs as [m r s]. unfold cell. simpl. intros Hd [Hm Hf].
  destruct m as [|[p|p|]|p]; destruct r, s; simpl in *; split; try lia.
Qed.

Lemma cell_iter p mrs n d : 0 < d → cell mrs n d → cell (iter_pos shr_1 p mrs) n (2 ^ Zpos p * d).
Proof.
  revert mrs d. induction p as [p IH|p IH|]; intros mrs d Hd Hc; simpl iter_pos.
  - replace (2 ^ Zpos p~1 * d) with (2 ^ Zpos p * (2 ^ Zpos p * (2 * d))).
    2:{ replace (Zpos p~1) with (Zpos p + Zpos p + 1) by lia. rewrite !Z.pow_add_r by lia. lia. }
    assert (0 < 2 ^ Zpos p) by (apply Z.pow_pos_nonneg; lia).
    apply IH; [nia|]. apply IH; [lia|]. by apply cell_shr_1.
  - replace (2 ^ Zpos p~0 * d) with (2 ^ Zpos p * (2 ^ Zpos p * d)).
    2:{ replace (Zpos p~0) with (Zpos p + Zpos p) by lia. rewrite !Z.pow_add_r by lia. lia. }
    assert (0 < 2 ^ Zpos p) by (apply Z.pow_pos_nonneg; lia).
    apply IH; [nia|]. by apply IH.
  - by apply cell_shr_1.
Qed.

(** [z] is the integer nearest to [n / d], or one of two. *)
Definition nearest (z n d : Z) : Prop := 2 * Z.abs (z * d - n) ≤ d.

Lemma nearest_cell mrs n d : 0 < d → cell mrs n d →
  nearest (round_nearest_even (shr_m mrs) (loc_of_shr_record mrs)) n d.
Proof.
  destruct mrs as [m r s]. unfold cell, nearest. simpl. intros Hd [Hm Hf].
  destruct r, s; simpl; [|destruct (Z.even m)|..]; lia.
Qed.

(** ** Digits *)
Lemma digits_bound p : 2 ^ (Zpos (digits2_pos p) - 1) ≤ Zpos p < 2 ^ Zpos (digits2_pos p).
Proof.
  induction p as [p IH|p IH|]; [..|done]; simpl digits2_pos; rewrite Pos2Z.inj_succ, Z.pow_succ_r by lia;
    replace (Z.succ (Zpos (digits2_pos p)) - 1) with (Z.succ (Zpos (digits2_pos p) - 1)) by lia;
    rewrite (Z.pow_succ_r _ (Zpos (digits2_pos p) - 1)) by lia; lia.
Qed.

Lemma digits_unique p k : 0 ≤ k → 2 ^ k ≤ Zpos p < 2 ^ (k + 1) → Zpos (digits2_pos p) = k + 1.
Proof.
  intros Hk Hp. pose proof (digits_bound p) as Hb. 
  destruct (Z.lt_trichotomy (Zpos (digits2_pos p)) (k + 1)) as [Hl|[He|Hg]]; [|done|]; exfalso.
  - pose proof (Z.pow_le_mono_r 2 (Zpos (digits2_pos p)) k ltac:(lia) ltac:(lia)). lia.
  - pose proof (Z.pow_le_mono_r 2 (k + 1) (Zpos (digits2_pos p) - 1) ltac:(lia) ltac:(lia)). lia.
Qed.

(** ** The rounding of a fraction *)
Lemma cell_bounds mrs n d : 0 < d → cell mrs n d → shr_m mrs * d ≤ n < (shr_m mrs + 1) * d.
Proof.
  destruct mrs as [m r s]. unfold cell. simpl. intros Hd [Hm Hf]. destruct r, s; lia.
Qed.

Lemma round_bounds m l : m ≤ round_nearest_even m l ≤ m + 1.
Proof. destruct l as [|[]]; simpl; try destruct (Z.even m); lia. Qed.

Lemma shr_spec mrs e k n d : 0 < d → 0 ≤ k → cell mrs n d →
  ∃ mrs', shr mrs e k = (mrs', e + k) ∧ cell mrs' n (2 ^ k * d).
Proof.
  intros Hd Hk Hc. destruct k as [|p|p]; [|exists (iter_pos shr_1 p mrs); split; [done|by apply cell_iter]|lia].
  exists mrs. rewrite Z.add_0_r. split; [done|]. by replace (2 ^ 0 * d) with d by lia.
Qed.

(** A number of 53 bits, or the next power of two, as a float. *)
Definition pack (s : bool) (z e : Z) : float64 :=
  if z =? 2 ^ 53 then S754_finite s (2 ^ 52) (e + 1) else S754_finite s (Z.to_pos z) e.

Lemma fexp_normal k e : -1074 ≤ k + e - 53 → fexp 53 1024 (k + e) - e = k - 53.
Proof. unfold fexp, emin. lia. Qed.

Lemma round_exact s z e : 2 ^ 52 ≤ z ≤ 2 ^ 53 → -1074 ≤ e < 971 →
  (let '(mrs, e') := shr_fexp 53 1024 z e loc_Exact in
   match shr_m mrs with
   | Z0 => S754_zero s
   | Zpos m => if e' <=? 1024 - 53 then S754_finite s m e' else S754_infinity s
   | _ => S754_nan
   end) = pack s z e.
Proof.
  intros Hz He. unfold pack, shr_fexp. destruct (Z.eqb_spec z (2 ^ 53)) as [->|Hne].
  - change (Zdigits2 (2 ^ 53)) with 54. rewrite fexp_normal by lia. change (54 - 53) with 1.
    change (2 ^ 53) with 9007199254740992. simpl. destruct (Z.leb_spec (e + 1) (1024 - 53)); [done|lia].
  - destruct z as [|p|p]; [lia| |lia]. simpl Zdigits2. rewrite (digits_unique p 52) by lia.
    rewrite fexp_normal by lia. simpl. destruct (Z.leb_spec e (1024 - 53)); [done|lia].
Qed.

Lemma round_aux_spec s mx ex lx n d : 0 < d → cell (shr_record_of_loc (Zpos mx) lx) n d →
  53 ≤ Zpos (digits2_pos mx) → -1074 ≤ Zpos (digits2_pos mx) + ex - 53 < 971 →
  ∃ z, 2 ^ 52 ≤ z ≤ 2 ^ 53 ∧ nearest z n (2 ^ (Zpos (digits2_pos mx) - 53) * d) ∧
    binary_round_aux 53 1024 s (Zpos mx) ex lx = pack s z (ex + (Zpos (digits2_pos mx) - 53)).
Proof.
  intros Hd Hc H53 He. unfold binary_round_aux, shr_fexp at 1. simpl Zdigits2. rewrite fexp_normal by lia.
  pose proof (digits_bound mx) as Hb. set (dg := Zpos (digits2_pos mx)) in *. set (k := dg - 53).
  assert (Hk : 0 ≤ k) by lia.
  destruct (shr_spec (shr_record_of_loc (Zpos mx) lx) ex k n d Hd Hk Hc) as (mrs & -> & Hc').
  assert (Hp : 0 < 2 ^ k) by (apply Z.pow_pos_nonneg; lia).
  assert (Hkd : 0 < 2 ^ k * d) by lia.
  pose proof (cell_bounds _ _ _ Hd Hc) as B1. pose proof (cell_bounds _ _ _ Hkd Hc') as B2.
  assert (Hm : shr_m (shr_record_of_loc (Zpos mx) lx) = Zpos mx) by (by destruct lx as [|[]]). rewrite Hm in B1.
  assert (E1 : 2 ^ (dg - 1) = 2 ^ 52 * 2 ^ k) by (rewrite <- Z.pow_add_r by lia; f_equal; lia).
  assert (E2 : 2 ^ dg = 2 ^ 53 * 2 ^ k) by (rewrite <- Z.pow_add_r by lia; f_equal; lia).
  assert (Hlo : 2 ^ 52 ≤ shr_m mrs).
  { apply Z.lt_succ_r, (Z.mul_lt_mono_pos_r (2 ^ k * d)); [lia|]. rewrite E1 in Hb. nia. }
  assert (Hhi : shr_m mrs < 2 ^ 53).
  { apply (Z.mul_lt_mono_pos_r (2 ^ k * d)); [lia|]. rewrite E2 in Hb. nia. }
  pose proof (round_bounds (shr_m mrs) (loc_of_shr_record mrs)) as Hr.
  exists (round_nearest_even (shr_m mrs) (loc_of_shr_record mrs)). split; [lia|]. split; [by apply nearest_cell|].
  apply round_exact; lia.
Qed.

(** ** Integers as floats *)
Lemma iter_xO m p : Zpos (Pos.iter xO m p) = Zpos m * 2 ^ Zpos p.
Proof.
  induction p as [|p IH] using Pos.peano_ind; [simpl; lia|].
  rewrite Pos.iter_succ, Pos2Z.inj_xO, IH, Pos2Z.inj_succ, Z.pow_succ_r by lia. lia.
Qed.

Lemma nearest_1 z n : nearest z n (2 ^ 0 * 1) → z = n.
Proof. unfold nearest. simpl. lia. Qed.

Lemma pack_small s z e : z < 2 ^ 53 → pack s z e = S754_finite s (Z.to_pos z) e.
Proof. intros Hz. unfold pack. by rewrite (proj2 (Z.eqb_neq _ _)) by lia. Qed.

Lemma shl_align_spec m k : 0 ≤ k → ∃ m', shl_align m 0 (- k) = (m', - k) ∧ Zpos m' = Zpos m * 2 ^ k.
Proof.
  intros Hk. unfold shl_align. destruct k as [|p|p]; [|..|lia].
  - exists m. split; [done|]. simpl. lia.
  - exists (Pos.iter xO m p). split; [done|]. apply iter_xO.
Qed.

(** Up to 53 bits an integer is a float, with its mantissa shifted up. *)
Lemma of_int_spec n : 0 < n < 2 ^ 53 → ∃ k, 0 ≤ k ≤ 52 ∧ 2 ^ 52 ≤ n * 2 ^ k < 2 ^ 53 ∧
  of_int n = S754_finite false (Z.to_pos (n * 2 ^ k)) (- k).
Proof.
  intros Hn. destruct n as [|m|m]; [lia| |lia]. pose proof (digits_bound m) as Hb.
  set (dg := Zpos (digits2_pos m)) in *. assert (Hdg : 1 ≤ dg ≤ 53).
  { split; [lia|]. destruct (Z.le_gt_cases dg 53) as [?|Hg]; [done|].
    pose proof (Z.pow_le_mono_r 2 53 (dg - 1) ltac:(lia) ltac:(lia)). lia. }
  exists (53 - dg). split; [lia|].
  assert (Hp : 0 < 2 ^ (53 - dg)) by (apply Z.pow_pos_nonneg; lia).
  assert (E1 : 2 ^ (dg - 1) * 2 ^ (53 - dg) = 2 ^ 52) by (rewrite <- Z.pow_add_r by lia; f_equal; lia).
  assert (E2 : 2 ^ dg * 2 ^ (53 - dg) = 2 ^ 53) by (rewrite <- Z.pow_add_r by lia; f_equal; lia).
  assert (Hz : 2 ^ 52 ≤ Zpos m * 2 ^ (53 - dg) < 2 ^ 53) by nia. split; [done|].
  unfold of_int, binary_normalize, binary_round. fold dg.
  replace (fexp 53 1024 (dg + 0)) with (- (53 - dg)) by (unfold fexp, emin; lia).
  destruct (shl_align_spec m (53 - dg) ltac:(lia)) as (m' & -> & Hm'). rewrite <- Hm' in *.
  assert (Hd' : Zpos (digits2_pos m') = 53) by (apply (digits_unique m' 52); lia).
  destruct (round_aux_spec false m' (- (53 - dg)) loc_Exact (Zpos m') 1) as (z & Hzb & Hnear & ->);
    [lia|unfold cell; simpl; lia|lia|rewrite Hd'; lia|].
  rewrite Hd' in *. apply nearest_1 in Hnear as ->. rewrite pack_small by lia. f_equal. lia.
Qed.

(** ** Products and quotients *)
Lemma pow2_pos k : 0 ≤ k → 0 < 2 ^ k.
Proof. intros. apply Z.pow_pos_nonneg; lia. Qed.

Lemma nearest_scale z n d c : 0 < c → nearest z (n * c) (d * c) ↔ nearest z n d.
Proof.
  unfold nearest. intros Hc. replace (z * (d * c) - n * c) with ((z * d - n) * c) by lia.
  rewrite Z.abs_mul, (Z.abs_eq c), Z.mul_assoc by lia. symmetry. by apply Z.mul_le_mono_pos_r.
Qed.

(** The same fraction in other terms. *)
Lemma nearest_eq z n d n' d' c c' : 0 < c → 0 < c' → n * c = n' * c' → d * c = d' * c' → nearest z n d → nearest z n' d'.
Proof.
  intros Hc Hc' Hn Hd H. apply (nearest_scale _ _ _ c' Hc'). rewrite <- Hn, <- Hd. by apply nearest_scale.
Qed.

Lemma mul_int_round (m : positive) n : 2 ^ 52 ≤ Zpos m < 2 ^ 53 → 0 < n < 2 ^ 53 →
  ∃ z e, 0 ≤ e ∧ 2 ^ 52 ≤ z ≤ 2 ^ 53 ∧ nearest z (Zpos m * n * 2 ^ e) (2 ^ 53) ∧
    fmul (S754_finite false m (-53)) (of_int n) = pack false z (- e).
Proof.
  intros Hm Hn. destruct (of_int_spec n Hn) as (k & Hk & Hb & ->).
  unfold fmul, SFmul. set (b := Z.to_pos (n * 2 ^ k)). assert (Hbz : Zpos b = n * 2 ^ k) by lia.
  set (dg := Zpos (digits2_pos (m * b))). assert (Hdg : 105 ≤ dg ≤ 106).
  { pose proof (digits_bound (m * b)) as Hd. fold dg in Hd. rewrite Pos2Z.inj_mul in Hd. split.
    - destruct (Z.le_gt_cases 105 dg) as [?|Hg]; [done|].
      pose proof (Z.pow_le_mono_r 2 dg 104 ltac:(lia) ltac:(lia)). nia.
    - destruct (Z.le_gt_cases dg 106) as [?|Hg]; [done|].
      pose proof (Z.pow_le_mono_r 2 106 (dg - 1) ltac:(lia) ltac:(lia)). nia. }
  destruct (round_aux_spec (xorb false false) (m * b) (-53 + - k) loc_Exact (Zpos (m * b)) 1) as (z & Hz & Hnear & ->);
    [lia|unfold cell; simpl; lia|fold dg; lia|fold dg; lia|]. fold dg in Hnear |- *.
  exists z, (106 + k - dg). split; [lia|]. split; [done|]. split; [|f_equal; lia].
  pose proof (pow2_pos k ltac:(lia)). pose proof (pow2_pos (dg - 53) ltac:(lia)).
  assert (E : 2 ^ (106 + k - dg) * 2 ^ (dg - 53) = 2 ^ 53 * 2 ^ k) by (rewrite <- !Z.pow_add_r by lia; f_equal; lia).
  rewrite Pos2Z.inj_mul, Hbz in Hnear.
  refine (nearest_eq _ _ _ _ _ (2 ^ 53 * 2 ^ k) (2 ^ (dg - 53) * 2 ^ k) _ _ _ _ Hnear); [lia|lia| |ring].
  rewrite <- E. ring.
Qed.

Lemma cell_new_location q d r : 0 < d → 0 ≤ q → 0 ≤ r < d → cell (shr_record_of_loc q (new_location d r)) (q * d + r) d.
Proof.
  intros Hd Hq Hr. unfold new_location, new_location_even, new_location_odd.
  destruct (Z.even d) eqn:Ed; destruct (Z.eqb_spec r 0) as [->|Hr0]; [unfold cell; simpl; lia| |unfold cell; simpl; lia|].
  - destruct (Z.compare_spec (2 * r) d); unfold cell; simpl; lia.
  - assert (Hodd : d ≠ 2 * r) by (intros ->; by rewrite Z.even_mul in Ed).
    destruct (Z.compare_spec (2 * r + 1) d); unfold cell; simpl; lia.
Qed.

Lemma div_core_spec m1 e1 m2 e2 : 2 ^ 52 ≤ Zpos m1 < 2 ^ 53 → 2 ^ 52 ≤ Zpos m2 < 2 ^ 53 → -1000 ≤ e1 - e2 → ∃ q l,
  SFdiv_core_binary 53 1024 (Zpos m1) e1 (Zpos m2) e2 = (Zpos q, e1 - e2 - 53, l) ∧
  cell (shr_record_of_loc (Zpos q) l) (Zpos m1 * 2 ^ 53) (Zpos m2) ∧ 53 ≤ Zpos (digits2_pos q) ≤ 54.
Proof.
  intros H1 H2 He. unfold SFdiv_core_binary. simpl Zdigits2. rewrite (digits_unique m1 52), (digits_unique m2 52) by lia.
  replace (Z.min (fexp 53 1024 (52 + 1 + e1 - (52 + 1 + e2))) (e1 - e2)) with (e1 - e2 - 53) by (unfold fexp, emin; lia).
  replace (e1 - e2 - (e1 - e2 - 53)) with 53 by lia. rewrite Z.shiftl_mul_pow2 by lia.
  pose proof (Z_div_mod (Zpos m1 * 2 ^ 53) (Zpos m2) ltac:(lia)) as Hdm.
  destruct (Z.div_eucl (Zpos m1 * 2 ^ 53) (Zpos m2)) as [q r]. destruct Hdm as [Hq Hr].
  assert (Hqb : 2 ^ 52 ≤ q < 2 ^ 54) by nia. destruct q as [|q|q]; [lia| |lia].
  exists q, (new_location (Zpos m2) r). split; [done|]. split.
  - replace (Zpos m1 * 2 ^ 53) with (Zpos q * Zpos m2 + r) by lia. apply cell_new_location; lia.
  - destruct (Z.lt_ge_cases (Zpos q) (2 ^ 53)); [rewrite (digits_unique q 52)|rewrite (digits_unique q 53)]; lia.
Qed.

Lemma div_int_round t w : 0 < t < 2 ^ 53 → 0 < w < 2 ^ 53 →
  ∃ z e, 0 ≤ e ∧ 2 ^ 52 ≤ z ≤ 2 ^ 53 ∧ nearest z (t * 2 ^ e) w ∧ fdiv (of_int t) (of_int w) = pack false z (- e).
Proof.
  intros Ht Hw. destruct (of_int_spec t Ht) as (k1 & Hk1 & Hb1 & ->), (of_int_spec w Hw) as (k2 & Hk2 & Hb2 & ->).
  unfold fdiv, SFdiv. set (a := Z.to_pos (t * 2 ^ k1)). set (b := Z.to_pos (w * 2 ^ k2)).
  assert (Ha : Zpos a = t * 2 ^ k1) by lia. assert (Hb : Zpos b = w * 2 ^ k2) by lia.
  destruct (div_core_spec a (- k1) b (- k2)) as (q & l & -> & Hc & Hdg); [lia..|].
  destruct (round_aux_spec (xorb false false) q (- k1 - - k2 - 53) l (Zpos a * 2 ^ 53) (Zpos b)) as (z & Hz & Hnear & ->);
    [lia|done|lia|lia|]. set (dg := Zpos (digits2_pos q)) in *.
  exists z, (106 + k1 - k2 - dg). split; [lia|]. split; [done|]. split; [|f_equal; lia].
  pose proof (pow2_pos k2 ltac:(lia)). pose proof (pow2_pos (dg - 53) ltac:(lia)).
  assert (E : 2 ^ (106 + k1 - k2 - dg) * (2 ^ (dg - 53) * 2 ^ k2) = 2 ^ 53 * 2 ^ k1)
    by (rewrite <- !Z.pow_add_r by lia; f_equal; lia).
  rewrite Ha, Hb in Hnear.
  refine (nearest_eq _ _ _ _ _ 1 (2 ^ (dg - 53) * 2 ^ k2) _ _ _ _ Hnear); [lia|lia| |ring].
  transitivity (t * (2 ^ 53 * 2 ^ k1)); [ring|rewrite <- E; ring].
Qed.

(** ** Back to integers *)
Lemma ceil_unique m d c : 0 < d → (c - 1) * d < m ≤ c * d → - (- m / d) = c.
Proof. intros Hd Hm. rewrite <- (Z.div_unique (- m) d (- c) (c * d - m)); lia. Qed.

Section to_int.
Context `{FloatToInt}.

Lemma to_int_finite m e c : in_int64 c → dyadic_trunc false m e = c → to_int (S754_finite false m e) = c.
Proof. intros Hc He. unfold to_int. by rewrite He, bool_decide_true. Qed.

Lemma to_int_of_int c : 0 < c < 2 ^ 53 → to_int (of_int c) = c.
Proof.
  intros Hc. destruct (of_int_spec c Hc) as (k & Hk & Hb & ->). apply to_int_finite; [unfold in_int64; lia|].
  unfold dyadic_trunc. simpl. rewrite Z2Pos.id by lia. pose proof (pow2_pos k ltac:(lia)).
  destruct (Z.leb_spec 0 (- k)).
  - replace k with 0 by lia. simpl. lia.
  - rewrite Z.opp_involutive. apply Z.div_mul. lia.
Qed.

(** [int(math.Ceil(m * 2^-e))] *)
Lemma int_ceil_finite m e c : 0 ≤ e → (c - 1) * 2 ^ e < Zpos m ≤ c * 2 ^ e → 0 < c < 2 ^ 53 →
  to_int (Ceil (S754_finite false m (- e))) = c.
Proof.
  intros He Hm Hc. unfold Ceil. destruct (Z.leb_spec 0 (- e)).
  - replace e with 0 in * by lia. apply to_int_finite; [unfold in_int64; lia|]. unfold dyadic_trunc. simpl. lia.
  - unfold dyadic_ceil. simpl. rewrite Z.opp_involutive. fold (- Zpos m).
    rewrite (ceil_unique (Zpos m) (2 ^ e) c) by (lia || (apply pow2_pos; lia)). by apply to_int_of_int.
Qed.

Lemma int_ceil_pack z e c : 0 ≤ e → 2 ^ 52 ≤ z ≤ 2 ^ 53 → (c - 1) * 2 ^ e < z ≤ c * 2 ^ e → 0 < c < 2 ^ 53 →
  to_int (Ceil (pack false z (- e))) = c.
Proof.
  intros He Hz Hb Hc. unfold pack. destruct (Z.eqb_spec z (2 ^ 53)) as [->|Hne].
  - assert (He1 : 1 ≤ e) by (destruct (Z.le_gt_cases 1 e); [done|]; replace e with 0 in * by lia; lia).
    replace (- e + 1) with (- (e - 1)) by lia. apply int_ceil_finite; [lia| |done].
    assert (2 ^ e = 2 * 2 ^ (e - 1)) by (rewrite <- Z.pow_succ_r by lia; f_equal; lia).
    change (Zpos (2 ^ 52)) with (2 ^ 52). lia.
  - apply int_ceil_finite; [done| |done]. rewrite Z2Pos.id by lia. done.
Qed.
End to_int.
