(* ===== verification/FloatText.v ===== *)
(** * Floating-point numbers as text (packages strconv and encoding/json)

    [ParseFloat] gives the float nearest to a decimal literal.  [AppendFloat] with
    precision -1 writes the shortest decimal that is read back as the number: the
    digits of the exact value are cut off, down or up, as early as that works
    ([shortest]).  The layout is the one encoding/json chooses.  The theorem
    [parse_format]: reading what was written gives the number. *)

From S2P Require Import Prelude GoLib Utf8 Json Float64.
From Stdlib Require Import SpecFloat.
Local Open Scope Z_scope.

(** ** Reading *)

(** The float nearest to [a / b]. *)
Definition round_fraction (s : bool) (a b : positive) : float64 :=
  let '(q, e, l) := SFdiv_core_binary 53 1024 (Zpos a) 0 (Zpos b) 0 in
  binary_round_aux 53 1024 s q e l.

Definition pow10 (e : Z) : positive := Z.to_pos (10 ^ e).

(** The float nearest to [v * 10^t]. *)
Definition decimal_value (s : bool) (v t : Z) : float64 :=
  match v with
  | Zpos p => if 0 <=? t then round_fraction s (p * pow10 t) 1 else round_fraction s p (pow10 (- t))
  | _ => S754_zero s
  end.

Definition is_finite (x : float64) : bool := match x with S754_infinity _ | S754_nan => false | _ => true end.

(** The exponent of a literal, if it has one. *)
Definition exponent (s : gostring) : option Z :=
  match s with
  | [] => Some 0
  | c :: s' =>
      if bool_decide (c ∈ ["e"; "E"]%char) then
        match s' with
        | x :: s2 => if bool_decide (x = "-"%char) then Z.opp <$> parse_udec s2
                     else if bool_decide (x = "+"%char) then parse_udec s2 else parse_udec s'
        | [] => None
        end
      else None
  end.

(** [strconv.ParseFloat(s, 64)] on a literal of the JSON grammar. *)
Definition ParseFloat (s : gostring) : option float64 :=
  let '(neg, s1) := match after "-" s with Some r => (true, r) | None => (false, s) end in
  let '(i, s2) := take_digits s1 in
  let '(f, s3) := match after "." s2 with Some r => take_digits r | None => ([], s2) end in
  e ← exponent s3;
  let x := decimal_value neg (digits_val (i ++ f)) (e - Z.of_nat (length f)) in
  if is_finite x then Some x else None.

(** ** Writing *)

(** The exact value of a finite number as [v * 10^t]. *)
Definition exact_decimal (m : positive) (e : Z) : Z * Z :=
  if 0 <=? e then (Zpos m * 2 ^ e, 0) else (Zpos m * 5 ^ (- e), e).

(** [v * 10^t] without trailing zeros. *)
Fixpoint trim_zeros (fuel : nat) (v t : Z) : Z * Z :=
  match fuel with
  | O => (v, t)
  | S fuel => if v mod 10 =? 0 then trim_zeros fuel (v / 10) (t + 1) else (v, t)
  end.

(** The first [n] of the [nd] digits of [v], or the next larger number. *)
Definition cut (nd n : nat) (up : bool) (v t : Z) : Z * Z :=
  let p := 10 ^ Z.of_nat (nd - n) in
  trim_zeros nd (v / p + if up then 1 else 0) (t + Z.of_nat (nd - n)).

(** Cutting up is nearer, or as near and the last digit is odd. *)
Definition round_up (nd n : nat) (v : Z) : bool :=
  let p := 10 ^ Z.of_nat (nd - n) in
  let rest := v mod p in
  if 2 * rest =? p then Z.odd (v / p) else p <? 2 * rest.

Definition sf_same (x y : float64) : bool :=
  match x, y with
  | S754_zero s, S754_zero s' => Bool.eqb s s'
  | S754_finite s m e, S754_finite s' m' e' => Bool.eqb s s' && Pos.eqb m m' && Z.eqb e e'
  | _, _ => false
  end.

(** [roundShortest]: the fewest digits that are read back as [x]. *)
Fixpoint shortest (s : bool) (x : float64) (nd todo : nat) (v t : Z) : Z * Z :=
  let n := (nd - todo)%nat in
  match todo with
  | O => trim_zeros nd v t
  | S todo' =>
      let down := cut nd n false v t in
      let up := cut nd n true v t in
      let okdown := sf_same (decimal_value s (fst down) (snd down)) x in
      let okup := sf_same (decimal_value s (fst up) (snd up)) x in
      if okdown && okup then if round_up nd n v then up else down
      else if okdown then down
      else if okup then up
      else shortest s x nd todo' v t
  end.

Definition shortest_decimal (s : bool) (m : positive) (e : Z) : Z * Z :=
  let '(v, t) := exact_decimal m e in
  let nd := length (udec v) in
  shortest s (S754_finite s m e) nd (nd - 1) v t.

Definition zeros (n : Z) : gostring := replicate (Z.to_nat n) "0"%char.

(** The fraction is left out when it has no digits. *)
Definition frac_part (f : gostring) : gostring := match f with [] => [] | _ => "."%char :: f end.
Definition exp_part (e : Z) : gostring := "e"%char :: if e <? 0 then "-"%char :: udec (- e) else "+"%char :: udec e.

(** The format [f] without an exponent. *)
Definition fmtF (v t : Z) : gostring :=
  let d := udec v in
  let dp := Z.of_nat (length d) + t in
  if 0 <=? t then d ++ zeros t
  else if 0 <? dp then take (Z.to_nat dp) d ++ frac_part (drop (Z.to_nat dp) d)
  else §"0" ++ frac_part (zeros (- dp) ++ d).

(** The format [e]; encoding/json takes the zero out of e-09. *)
Definition fmtE (v t : Z) : gostring :=
  let d := udec v in
  take 1 d ++ frac_part (drop 1 d) ++ exp_part (Z.of_nat (length d) + t - 1).

(** [float64Encoder]: numbers below 1e-6 and from 1e21 on have an exponent. *)
Definition format_float (x : float64) : option gostring :=
  match x with
  | S754_zero s => Some ((if s then §"-" else []) ++ §"0")
  | S754_finite s m e =>
      let abs := S754_finite false m e in
      Some ((if s then §"-" else []) ++
        let '(v, t) := shortest_decimal s m e in
        if flt abs (decimal_value false 1 (-6)) || negb (flt abs (decimal_value false 1 21)) then fmtE v t else fmtF v t)
  | _ => None
  end.

Example format_tenth : format_float (fdiv (of_int 1) (of_int 10)) = Some §"0.1".
Proof. vm_compute. reflexivity. Qed.
Example format_third : format_float (fdiv (of_int 1) (of_int 3)) = Some §"0.3333333333333333".
Proof. vm_compute. reflexivity. Qed.
Example format_large : format_float (of_int (10 ^ 21)) = Some §"1e+21".
Proof. vm_compute. reflexivity. Qed.
Example format_plain : format_float (of_int (-1234500)) = Some §"-1234500".
Proof. vm_compute. reflexivity. Qed.
Example format_small : format_float (fdiv (of_int 25) (of_int (10 ^ 9))) = Some §"2.5e-8".
Proof. vm_compute. reflexivity. Qed.

(** ** The exact value is read back *)

(** The mantissa and exponent of a finite float64. *)
Definition canonical (m : positive) (e : Z) : Prop := fexp 53 1024 (Zpos (digits2_pos m) + e) = e ∧ e ≤ 971.

Lemma div_eucl_exact a b q : 0 < b → a = q * b → Z.div_eucl a b = (q, 0).
Proof.
  intros Hb ->. pose proof (Z_div_mod (q * b) b ltac:(lia)) as H. destruct (Z.div_eucl (q * b) b) as [q' r].
  destruct H as [H Hr]. assert (q' = q) by nia. subst q'. f_equal. lia.
Qed.

Lemma new_location_exact b : new_location b 0 = loc_Exact.
Proof. unfold new_location, new_location_even, new_location_odd. by destruct (Z.even b). Qed.

Lemma pow2_cancel k a b : 0 ≤ k → a * 2 ^ k = b * 2 ^ k → a = b.
Proof. intros Hk. pose proof (pow2_pos k Hk). apply Z.mul_reg_r. lia. Qed.

Lemma quotient_digits a b m e k : 0 ≤ k → 0 ≤ e + k →
  Zpos a * 2 ^ k = Zpos m * 2 ^ (e + k) * Zpos b →
  Zpos (digits2_pos a) - Zpos (digits2_pos b) ≤ Zpos (digits2_pos m) + e.
Proof.
  intros Hk Hek Heq. pose proof (digits_bound a) as Ha. pose proof (digits_bound b) as Hb. pose proof (digits_bound m) as Hm.
  set (d1 := Zpos (digits2_pos a)) in *. set (d2 := Zpos (digits2_pos b)) in *. set (dm := Zpos (digits2_pos m)) in *.
  destruct (Z.le_gt_cases (d1 - d2) (dm + e)) as [?|Hgt]; [done|exfalso].
  pose proof (pow2_pos k Hk). pose proof (pow2_pos (e + k) Hek).
  assert (H1 : 2 ^ (d1 - 1) * 2 ^ k ≤ Zpos a * 2 ^ k) by nia.
  assert (H2 : Zpos m * 2 ^ (e + k) * Zpos b < 2 ^ dm * 2 ^ (e + k) * 2 ^ d2).
  { apply Z.lt_le_trans with (2 ^ dm * 2 ^ (e + k) * Zpos b); nia. }
  rewrite <- Z.pow_add_r in H1 by lia. rewrite <- Z.pow_add_r, <- Z.pow_add_r in H2 by lia.
  pose proof (Z.pow_le_mono_r 2 (dm + (e + k) + d2) (d1 - 1 + k) ltac:(lia) ltac:(lia)). lia.
Qed.

Lemma digits_shift m k mx : 0 ≤ k → Zpos mx = Zpos m * 2 ^ k → Zpos (digits2_pos mx) = Zpos (digits2_pos m) + k.
Proof.
  intros Hk Hmx. pose proof (digits_bound m) as Hm. pose proof (pow2_pos k Hk).
  replace (Zpos (digits2_pos m) + k) with (Zpos (digits2_pos m) - 1 + k + 1) by lia.
  apply digits_unique; [lia|]. rewrite Hmx.
  replace (Zpos (digits2_pos m) - 1 + k + 1) with (Zpos (digits2_pos m) + k) by lia. rewrite !Z.pow_add_r by lia. nia.
Qed.

(** Rounding a number that is a float already. *)
Lemma round_canonical s m e mx ex : canonical m e → ex ≤ e → Zpos mx = Zpos m * 2 ^ (e - ex) →
  binary_round_aux 53 1024 s (Zpos mx) ex loc_Exact = S754_finite s m e.
Proof.
  intros [Hc He] Hex Hmx. unfold binary_round_aux, shr_fexp at 1. simpl Zdigits2.
  rewrite (digits_shift m (e - ex) mx) by (try done; lia).
  replace (Zpos (digits2_pos m) + (e - ex) + ex) with (Zpos (digits2_pos m) + e) by lia. rewrite Hc.
  destruct (shr_spec (shr_record_of_loc (Zpos mx) loc_Exact) ex (e - ex) (Zpos mx) 1) as (mrs & -> & Hcell);
    [lia|lia|unfold cell; simpl; lia|].
  pose proof (pow2_pos (e - ex) ltac:(lia)) as Hp. rewrite Z.mul_1_r in Hcell.
  pose proof (cell_bounds _ _ _ Hp Hcell) as B.
  assert (Hm : shr_m mrs = Zpos m) by nia. replace (ex + (e - ex)) with e by lia.
  assert (Hl : loc_of_shr_record mrs = loc_Exact).
  { destruct Hcell as [_ Hf]. rewrite Hm, Hmx in Hf. destruct mrs as [? [] []]; simpl in *; [nia..|done]. }
  rewrite Hm, Hl. simpl round_nearest_even. unfold shr_fexp. simpl Zdigits2. rewrite Hc, Z.sub_diag. simpl.
  destruct (Z.leb_spec e (1024 - 53)); [done|lia].
Qed.

Lemma round_fraction_exact s a b m e k : canonical m e → 0 ≤ k → 0 ≤ e + k →
  Zpos a * 2 ^ k = Zpos m * 2 ^ (e + k) * Zpos b → round_fraction s a b = S754_finite s m e.
Proof.
  intros Hm Hk Hek Heq. unfold round_fraction, SFdiv_core_binary. simpl Zdigits2.
  pose proof (quotient_digits a b m e k Hk Hek Heq) as Hd.
  set (d1 := Zpos (digits2_pos a)) in *. set (d2 := Zpos (digits2_pos b)) in *.
  set (e' := Z.min (fexp 53 1024 (d1 + 0 - (d2 + 0))) (0 - 0)).
  assert (He' : e' ≤ e ∧ e' ≤ 0) by (destruct Hm as [Hc _]; unfold e', fexp in *; lia).
  assert (Hshift : match 0 - 0 - e' with Z0 => Zpos a | Zpos _ => Z.shiftl (Zpos a) (0 - 0 - e') | Zneg _ => 0 end
                   = Zpos a * 2 ^ (- e')).
  { replace (0 - 0 - e') with (- e') by lia. rewrite <- Z.shiftl_mul_pow2 by lia. destruct (- e') eqn:E; [|done|lia].
    by rewrite Z.shiftl_0_r. }
  rewrite Hshift. rewrite (div_eucl_exact _ _ (Zpos m * 2 ^ (e - e'))); [|lia|].
  2:{ apply (pow2_cancel k); [done|].
      transitivity (Zpos a * 2 ^ k * 2 ^ (- e')); [ring|]. rewrite Heq.
      replace (e + k) with (k + e) by lia.
      assert (E : 2 ^ (k + e) * 2 ^ (- e') = 2 ^ (e - e') * 2 ^ k) by (rewrite <- !Z.pow_add_r by lia; f_equal; lia).
      transitivity (Zpos m * Zpos b * (2 ^ (k + e) * 2 ^ (- e'))); [ring|]. rewrite E. ring. }
  rewrite new_location_exact. pose proof (pow2_pos (e - e') ltac:(lia)) as Hp.
  destruct (Zpos m * 2 ^ (e - e')) as [|mx|mx] eqn:Emx; [lia| |lia].
  apply round_canonical; [done|lia|done].
Qed.

(** [v * 10^t = m * 2^e] *)
Definition represents (v t : Z) (m : positive) (e : Z) : Prop :=
  ∃ k, 0 ≤ k ∧ 0 ≤ t + k ∧ 0 ≤ e + k ∧ v * 10 ^ (t + k) * 2 ^ k = Zpos m * 2 ^ (e + k) * 10 ^ k.

Lemma represents_exact m e : let '(v, t) := exact_decimal m e in represents v t m e.
Proof.
  unfold exact_decimal. destruct (Z.leb_spec 0 e) as [He|He].
  - exists 0. split_and!; [lia..|]. rewrite !Z.add_0_r. change (10 ^ 0) with 1. change (2 ^ 0) with 1. ring.
  - exists (- e). split_and!; [lia..|]. replace (e + - e) with 0 by lia. change (10 ^ 0) with 1. change (2 ^ 0) with 1.
    change 10 with (5 * 2). rewrite Z.pow_mul_l. ring.
Qed.

Lemma pow10_pos k : 0 ≤ k → 0 < 10 ^ k.
Proof. intros. apply Z.pow_pos_nonneg; lia. Qed.

Lemma represents_trim fuel v t m e : represents v t m e →
  represents (fst (trim_zeros fuel v t)) (snd (trim_zeros fuel v t)) m e.
Proof.
  revert v t. induction fuel as [|fuel IH]; intros v t Hr; [done|]. simpl.
  destruct (Z.eqb_spec (v mod 10) 0) as [Hmod|]; [|done]. apply IH.
  destruct Hr as (k & Hk & Ht & He & Heq). exists k. split_and!; [lia..|]. rewrite <- Heq.
  pose proof (Z.div_mod v 10 ltac:(lia)) as Hv. rewrite Hmod in Hv.
  replace (t + 1 + k) with (1 + (t + k)) by lia. rewrite (Z.pow_add_r 10 1) by lia. rewrite Hv at 2. ring.
Qed.

Lemma decimal_value_exact s v t m e : canonical m e → represents v t m e → decimal_value s v t = S754_finite s m e.
Proof.
  intros Hn (k & Hk & Ht & He & Heq). pose proof (pow10_pos k Hk). pose proof (pow10_pos (t + k) Ht).
  pose proof (pow2_pos k Hk). pose proof (pow2_pos (e + k) He).
  assert (Hv : 0 < v).
  { assert (0 < v * (10 ^ (t + k) * 2 ^ k)); [rewrite Z.mul_assoc, Heq; nia|]. nia. }
  destruct v as [|p|p]; [lia| |lia]. unfold decimal_value. destruct (Z.leb_spec 0 t) as [Ht0|Ht0].
  - apply (round_fraction_exact _ _ _ _ _ k); [done..|]. unfold pow10. rewrite Pos2Z.inj_mul, Z2Pos.id by by apply pow10_pos.
    apply (Z.mul_reg_r _ _ (10 ^ k)); [lia|]. rewrite Z.pow_add_r in Heq by lia. rewrite Z.mul_1_r, <- Heq. ring.
  - apply (round_fraction_exact _ _ _ _ _ k); [done..|]. unfold pow10. rewrite Z2Pos.id by (apply pow10_pos; lia).
    apply (Z.mul_reg_r _ _ (10 ^ (t + k))); [lia|].
    assert (E : 10 ^ k = 10 ^ (- t) * 10 ^ (t + k)) by (rewrite <- Z.pow_add_r by lia; f_equal; lia).
    rewrite E in Heq. transitivity (Zpos p * 10 ^ (t + k) * 2 ^ k); [ring|]. rewrite Heq. ring.
Qed.

Lemma sf_same_eq x s m e : sf_same x (S754_finite s m e) = true → x = S754_finite s m e.
Proof.
  destruct x as [| | |s' m' e']; try done. simpl. rewrite !andb_true_iff. intros [[?%Bool.eqb_prop ?%Pos.eqb_eq] ?%Z.eqb_eq].
  congruence.
Qed.

Lemma shortest_value s nd todo v t m e : canonical m e → represents v t m e →
  let '(v', t') := shortest s (S754_finite s m e) nd todo v t in decimal_value s v' t' = S754_finite s m e.
Proof.
  intros Hn Hr. induction todo as [|todo IH]; simpl.
  - pose proof (represents_trim nd v t m e Hr) as Ht. destruct (trim_zeros nd v t) as [v' t']. by apply decimal_value_exact.
  - set (down := cut _ _ false _ _). set (up := cut _ _ true _ _).
    destruct (sf_same (decimal_value s down.1 down.2) _) eqn:Ed, (sf_same (decimal_value s up.1 up.2) _) eqn:Eu; cbn [andb].
    + destruct (round_up _ _ _); [apply sf_same_eq in Eu|apply sf_same_eq in Ed]; by destruct up, down.
    + apply sf_same_eq in Ed. by destruct down.
    + apply sf_same_eq in Eu. by destruct up.
    + exact IH.
Qed.

(** ** Literals *)
Lemma digits_val_from acc d : fold_left (λ acc c, acc * 10 + digit_val c) d acc = acc * 10 ^ Z.of_nat (length d) + digits_val d.
Proof.
  revert acc. induction d as [|c d IH] using rev_ind; intros acc; [simpl; unfold digits_val; simpl; lia|].
  rewrite fold_left_app, IH, digits_val_snoc, length_app. cbn [fold_left length]. rewrite Nat.add_1_r, Nat2Z.inj_succ, Z.pow_succ_r by lia.
  ring.
Qed.

Lemma digits_val_app a b : digits_val (a ++ b) = digits_val a * 10 ^ Z.of_nat (length b) + digits_val b.
Proof. unfold digits_val at 1. rewrite fold_left_app. apply digits_val_from. Qed.

Lemma zeros_length n : 0 ≤ n → Z.of_nat (length (zeros n)) = n.
Proof. intros. unfold zeros. rewrite length_replicate. lia. Qed.

Lemma zeros_digits n : forallb is_digit (zeros n) = true ∧ digits_val (zeros n) = 0.
Proof.
  unfold zeros. induction (Z.to_nat n) as [|k [IH1 IH2]]; [done|]. simpl. split; [done|].
  unfold digits_val in *. simpl. exact IH2.
Qed.

(** A literal by its parts: the digits before and after the point, the exponent. *)
Lemma ParseFloat_parts (neg : bool) i f ex e : int_ok i → forallb is_digit f = true →
  ex = [] ∧ e = 0 ∨ ex = exp_part e →
  ParseFloat ((if neg then §"-" else []) ++ i ++ frac_part f ++ ex) =
    let x := decimal_value neg (digits_val (i ++ f)) (e - Z.of_nat (length f)) in
    if is_finite x then Some x else None.
Proof.
  intros Hi Hf He. unfold ParseFloat.
  assert (Hih : ∃ c d, i = c :: d ∧ forallb is_digit i = true).
  { destruct Hi as [->|(c & d & -> & _ & ?)]; eauto 10. }
  assert (Ha : after "-" ((if neg then §"-" else []) ++ i ++ frac_part f ++ ex) =
               if neg then Some (i ++ frac_part f ++ ex) else None).
  { destruct neg; [done|]. destruct Hih as (c & d & -> & Hd). simpl in Hd. apply andb_true_iff in Hd as [Hc _].
    cbn. rewrite bool_decide_false; [done|]. by intros ->. }
  assert (Hex : starts_digit ex = false ∧ after "." ex = None ∧ exponent ex = Some e).
  { destruct He as [[-> ->]| ->]; [done|]. split_and!; [done|done|]. unfold exp_part, exponent. simpl.
    destruct (Z.ltb_spec e 0); simpl; rewrite parse_udec_udec by lia; simpl; [by rewrite Z.opp_involutive|done]. }
  destruct Hex as (Hx1 & Hx2 & Hx3).
  assert (Hfr : match after "." (frac_part f ++ ex) with Some r => take_digits r | None => ([], frac_part f ++ ex) end = (f, ex)
                ∧ starts_digit (frac_part f ++ ex) = false).
  { destruct f as [|c f]; simpl; [by rewrite Hx2|]. split; [|done]. by apply (take_digits_app (c :: f)). }
  destruct Hfr as [Hf1 Hf2]. rewrite Ha. destruct neg; cbn [app].
  all: destruct Hih as (c & d & _ & Hd); rewrite take_digits_app by done; rewrite Hf1, Hx3; reflexivity.
Qed.

Lemma num_ok_frac (neg : bool) i f ex e : int_ok i → forallb is_digit f = true → ex = [] ∨ ex = exp_part e →
  num_ok ((if neg then §"-" else []) ++ i ++ frac_part f ++ ex).
Proof.
  intros Hi Hf He. apply num_ok_parts; [done| |].
  - destruct f as [|c f]; [by left|right]. exists (c :: f). split; [done|]. by split.
  - destruct He as [->| ->]; [by left|right]. unfold exp_part. destruct (Z.ltb_spec e 0).
    + exists "-"%char, (udec (- e)). destruct (udec_spec (- e)) as (? & ? & _); [lia|]. split_and!; [done|set_solver|by split].
    + exists "+"%char, (udec e). destruct (udec_spec e) as (? & ? & _); [lia|]. split_and!; [done|set_solver|by split].
Qed.

(** ** Layouts *)
Lemma forallb_take_drop n (d : gostring) : forallb is_digit d = true →
  forallb is_digit (take n d) = true ∧ forallb is_digit (drop n d) = true.
Proof. intros Hd. rewrite <- (take_drop n d), forallb_app in Hd. by apply andb_true_iff. Qed.

(** The digits of a positive number start with one that is not zero. *)
Lemma udec_head v : 0 < v → ∃ c d, udec v = c :: d ∧ c ≠ "0"%char.
Proof.
  intros Hv. destruct (udec_int_ok v ltac:(lia)) as [Hz|(c & d & -> & Hc & _)]; [|eauto].
  destruct (udec_spec v ltac:(lia)) as (_ & _ & Hval). rewrite Hz in Hval. vm_compute in Hval. lia.
Qed.

Lemma int_ok_take v n : 0 < v → (0 < n)%nat → int_ok (take n (udec v)).
Proof.
  intros Hv Hn. destruct (udec_spec v ltac:(lia)) as (_ & Hall & _). destruct (udec_head v Hv) as (c & d & E & Hc).
  right. exists c, (take (n - 1) d). rewrite E. destruct n as [|n]; [lia|]. simpl. rewrite Nat.sub_0_r. split_and!; [done|done|].
  rewrite E in Hall. simpl in Hall. apply andb_true_iff in Hall as [-> Hd]. by apply forallb_take_drop.
Qed.

Lemma decimal_value_shift s v t : 0 ≤ t → decimal_value s (v * 10 ^ t) 0 = decimal_value s v t.
Proof.
  intros Ht. unfold decimal_value. rewrite (proj2 (Z.leb_le 0 t)) by done. pose proof (pow10_pos t Ht).
  destruct v as [|p|p]; [done| |].
  - destruct (Zpos p * 10 ^ t) as [|q|q] eqn:E; [lia| |lia]. f_equal. unfold pow10. change (Z.to_pos (10 ^ 0)) with 1%positive.
    rewrite Pos.mul_1_r. apply Pos2Z.inj. rewrite <- E, Pos2Z.inj_mul, Z2Pos.id by done. done.
  - destruct (Zneg p * 10 ^ t) as [|q|q] eqn:E; [done|lia|done].
Qed.

(** How a layout is read. *)
Definition layout_ok (neg : bool) (v t : Z) (text : gostring) : Prop :=
  num_ok ((if neg then §"-" else []) ++ text) ∧
  ParseFloat ((if neg then §"-" else []) ++ text) =
    let x := decimal_value neg v t in if is_finite x then Some x else None.

Lemma fmtF_ok neg v t : 0 < v → layout_ok neg v t (fmtF v t).
Proof.
  intros Hv. destruct (udec_spec v ltac:(lia)) as (_ & Hall & Hval). destruct (zeros_digits t) as [Hz Hz0].
  unfold fmtF, layout_ok. set (d := udec v) in *. destruct (Z.leb_spec 0 t) as [Ht|Ht]; [|destruct (Z.ltb_spec 0 (Z.of_nat (length d) + t))].
  - assert (Hi : int_ok (d ++ zeros t)).
    { destruct (udec_head v Hv) as (c & d' & E & Hc). fold d in E. right. exists c, (d' ++ zeros t). rewrite E. split_and!; [done|done|].
      rewrite <- E, forallb_app, Hall. done. }
    pose proof (num_ok_frac neg (d ++ zeros t) [] [] 0 Hi eq_refl (or_introl eq_refl)) as Hn.
    pose proof (ParseFloat_parts neg (d ++ zeros t) [] [] 0 Hi eq_refl (or_introl (conj eq_refl eq_refl))) as Hp.
    cbn [frac_part app] in Hn, Hp. rewrite !app_nil_r in Hn, Hp. split; [done|]. rewrite Hp. cbv zeta. cbn [length Z.of_nat].
    rewrite digits_val_app, Hval, Hz0, zeros_length, Z.add_0_r, Z.sub_0_r, decimal_value_shift by done. done.
  - set (k := Z.to_nat (Z.of_nat (length d) + t)). assert (Hi : int_ok (take k d)) by (apply int_ok_take; lia).
    destruct (forallb_take_drop k d Hall) as [_ Hf].
    pose proof (num_ok_frac neg (take k d) (drop k d) [] 0 Hi Hf (or_introl eq_refl)) as Hn.
    pose proof (ParseFloat_parts neg (take k d) (drop k d) [] 0 Hi Hf (or_introl (conj eq_refl eq_refl))) as Hp.
    rewrite !app_nil_r in Hn, Hp. split; [done|]. rewrite Hp, take_drop, Hval, length_drop.
    by replace (0 - Z.of_nat (length d - k)) with t by lia.
  - set (z := zeros (- (Z.of_nat (length d) + t))). destruct (zeros_digits (- (Z.of_nat (length d) + t))) as [Hzd Hzv]. fold z in Hzd, Hzv.
    assert (Hi : int_ok §"0") by by left. assert (Hf : forallb is_digit (z ++ d) = true) by (by rewrite forallb_app, Hzd, Hall).
    pose proof (num_ok_frac neg §"0" (z ++ d) [] 0 Hi Hf (or_introl eq_refl)) as Hn.
    pose proof (ParseFloat_parts neg §"0" (z ++ d) [] 0 Hi Hf (or_introl (conj eq_refl eq_refl))) as Hp.
    rewrite !app_nil_r in Hn, Hp. split; [done|]. rewrite Hp, !digits_val_app, Hval, Hzv, length_app.
    assert (Hl : Z.of_nat (length z) = - (Z.of_nat (length d) + t)) by (apply zeros_length; lia).
    replace (0 - Z.of_nat (length z + length d)) with t by lia.
    change (digits_val §"0") with 0. by replace (0 * _ + (0 * _ + v)) with v by ring.
Qed.

Lemma fmtE_ok neg v t : 0 < v → layout_ok neg v t (fmtE v t).
Proof.
  intros Hv. destruct (udec_spec v ltac:(lia)) as (Hne & Hall & Hval). unfold fmtE, layout_ok. set (d := udec v) in *.
  set (e := Z.of_nat (length d) + t - 1). assert (Hi : int_ok (take 1 d)) by (apply int_ok_take; lia).
  destruct (forallb_take_drop 1 d Hall) as [_ Hf]. split.
  - apply (num_ok_frac neg (take 1 d) (drop 1 d) (exp_part e) e); [done|done|by right].
  - rewrite (ParseFloat_parts neg (take 1 d) (drop 1 d) (exp_part e) e) by (done || by right).
    rewrite take_drop, Hval, length_drop. destruct d as [|c d']; [done|]. simpl length in *.
    by replace (e - Z.of_nat (S (length d') - 1)) with t by lia.
Qed.

(** ** Reading what was written *)
Definition writable (x : float64) : bool := is_finite x && valid_binary 53 1024 x.

Lemma parse_format x : writable x → ∃ text, format_float x = Some text ∧ num_ok text ∧ ParseFloat text = Some x.
Proof.
  destruct x as [s| | |s m e]; try done; intros Hw.
  - eexists. split; [done|]. split; [apply num_ok_int; by left|]. by destruct s.
  - assert (Hc : canonical m e).
    { apply Is_true_true, andb_true_iff in Hw as [_ [Hc%Z.eqb_eq He%Z.leb_le]%andb_true_iff]. by split. }
    unfold format_float, shortest_decimal. pose proof (represents_exact m e) as Hr.
    destruct (exact_decimal m e) as [v0 t0]. set (nd := length (udec v0)).
    pose proof (shortest_value s nd (nd - 1) v0 t0 m e Hc Hr) as Hs.
    destruct (shortest s (S754_finite s m e) nd (nd - 1) v0 t0) as [v t]. eexists. split; [reflexivity|].
    assert (Hv : 0 < v) by (destruct v; try done; lia).
    destruct (_ || _); [destruct (fmtE_ok s v t Hv) as [Hn Hp]|destruct (fmtF_ok s v t Hv) as [Hn Hp]];
      (split; [exact Hn|]; rewrite Hp, Hs; done).
Qed.

(** ** A fixed number of digits

    The verbs [%.nf] and [%+.nf] of package fmt: the exact value, rounded to the
    nearest, ties to even. *)
Definition round_half_even (n d : Z) : Z :=
  let q := n / d in
  let r := n mod d in
  if 2 * r =? d then if Z.odd q then q + 1 else q else if d <? 2 * r then q + 1 else q.

Lemma round_half_even_nearest n d : 0 < d → nearest (round_half_even n d) n d.
Proof.
  intros Hd. unfold nearest, round_half_even. pose proof (Z.div_mod n d ltac:(lia)). pose proof (Z.mod_pos_bound n d Hd).
  destruct (Z.eqb_spec (2 * (n mod d)) d); [destruct (Z.odd _); nia|]. destruct (Z.ltb_spec d (2 * (n mod d))); nia.
Qed.

(** The digits of [q], the last [prec] of them after the point. *)
Definition fixed_digits (prec : nat) (q : Z) : gostring :=
  let d := udec q in
  let d := replicate (S prec - length d) "0"%char ++ d in
  take (length d - prec) d ++ frac_part (drop (length d - prec) d).

Definition format_fixed (plus : bool) (prec : nat) (x : float64) : gostring :=
  let sign (s : bool) := if s then §"-" else if plus then §"+" else [] in
  match x with
  | S754_nan => (if plus then §"+" else []) ++ §"NaN"
  | S754_infinity s => (if s then §"-" else §"+") ++ §"Inf"
  | S754_zero s => sign s ++ fixed_digits prec 0
  | S754_finite s m e =>
      let scaled := Zpos m * 10 ^ Z.of_nat prec in
      sign s ++ fixed_digits prec (if 0 <=? e then scaled * 2 ^ e else round_half_even scaled (2 ^ (- e)))
  end.

Example format_fixed_test :
  format_fixed false 2 (fdiv (of_int 1) (of_int 3)) = §"0.33" ∧ format_fixed true 2 (of_int 12) = §"+12.00" ∧
  format_fixed false 2 (fdiv (of_int 5) (of_int 1000)) = §"0.01" ∧ format_fixed false 3 (fdiv (of_int (-1)) (of_int 8)) = §"-0.125".
Proof. vm_compute. done. Qed.
