(* ===== verification/JsonCodec.v ===== *)
(** * JSON forms of Go types (package encoding/json)

    A [Codec] says how the package writes the values of a Go type and how it reads
    them into a variable; there is one for each basic type in use and one combinator
    for each of slices, pointers, maps with string keys and structs, so that the form of
    a struct is its list of fields with their tags.

    Reading need not give back the value: strings come back repaired, and the
    integer in an [interface{}] comes back as a float.  [c_reread] is what comes
    back, and [CodecLaws] says that it does for all values that [c_ok] admits;
    instances prove the laws of a compound type from those of its parts.
    [document_roundtrip] is the result for a whole file. *)

From S2P Require Import Prelude GoLib Utf8 Json Float64 FloatText.
From Stdlib Require Import SpecFloat.

Record Codec (A : Type) := mkCodec {
  c_zero : A;
  c_empty : A → bool;                  (** what [omitempty] leaves out *)
  c_encode : A → option json;
  c_decode : A → json → option A;      (** into a variable that holds the first argument *)
  c_ok : A → bool;
  c_reread : A → A;
  c_bare : A → bool;                   (** the values that come back as zero if left out *)
  c_depth : nat;
}.
Arguments mkCodec {A}.
Arguments c_zero {A}.
Arguments c_empty {A}.
Arguments c_encode {A}.
Arguments c_decode {A}.
Arguments c_ok {A}.
Arguments c_reread {A}.
Arguments c_bare {A}.
Arguments c_depth {A}.

Class CodecLaws {A} (c : Codec A) : Prop := {
  law_roundtrip x : c_ok c x = true → ∃ j, c_encode c x = Some j ∧ nums_ok j ∧ nesting j ≤ c_depth c ∧
    c_decode c (c_zero c) (repair j) = Some (c_reread c x);
  law_bare x : c_bare c x = true → c_reread c x = c_zero c;
}.

(** ** Basic types *)
Definition str_codec : Codec gostring :=
  let empty s := bool_decide (s = []) in
  mkCodec [] empty (λ s, Some (JStr s)) decode_string (λ _, true) to_valid empty 0.

Definition bool_codec : Codec bool :=
  mkCodec false negb (λ b, Some (JBool b)) (λ cur j, match j with JBool b => Some b | JNull => Some cur | _ => None end)
    (λ _, true) id negb 0.

Definition int_codec : Codec Z :=
  mkCodec 0%Z (Z.eqb 0) (λ z, Some (JNum (Itoa z)))
    (λ cur j, match j with JNum lit => Atoi lit | JNull => Some cur | _ => None end)
    (λ z, bool_decide (in_int64 z)) id (Z.eqb 0) 0.

Definition uint64_codec : Codec N :=
  mkCodec 0%N (N.eqb 0) (λ n, Some (JNum (udec (Z.of_N n)))) decode_uint64 (λ n, (n <? 2 ^ 64)%N) id (N.eqb 0) 0.

(** A negative zero is left out too, and comes back as the positive one. *)
Definition float64_codec : Codec float64 :=
  mkCodec fzero (λ x, SFeqb x fzero) (λ x, JNum <$> format_float x)
    (λ cur j, match j with JNum lit => ParseFloat lit | JNull => Some cur | _ => None end)
    writable id (λ x, match x with S754_zero false => true | _ => false end) 0.

#[export] Instance str_laws : CodecLaws str_codec.
Proof.
  split.
  - intros s _. by exists (JStr s).
  - intros s Hs. by apply bool_decide_eq_true in Hs as ->.
Qed.

#[export] Instance bool_laws : CodecLaws bool_codec.
Proof. split; [intros b _; by exists (JBool b)|by intros []]. Qed.

#[export] Instance int_laws : CodecLaws int_codec.
Proof.
  split.
  - intros z Hz%bool_decide_eq_true. exists (JNum (Itoa z)). split_and!; [done|apply num_ok_Itoa|done|by apply Atoi_Itoa].
  - by intros [].
Qed.

#[export] Instance uint64_laws : CodecLaws uint64_codec.
Proof.
  split.
  - intros n Hn%N.ltb_lt. exists (JNum (udec (Z.of_N n))). split_and!; [done| |done|by apply ParseUint_udec].
    apply (num_ok_int false), udec_int_ok. lia.
  - by intros [].
Qed.

#[export] Instance float64_laws : CodecLaws float64_codec.
Proof.
  split.
  - intros x Hx. destruct (parse_format x) as (text & Ht & Hn & Hp); [by apply Is_true_true|].
    exists (JNum text). split_and!; [cbn; by rewrite Ht|done|done|done].
  - by intros [[]| | |].
Qed.

(** ** Slices

    A slice without elements is nil, which is written as [null]: the code makes its slices by
    appending to nil.  Reading an array reads its elements into those that the
    slice has. *)
Section slice.
Context {A : Type} (c : Codec A).

Fixpoint encode_all (l : list A) : option (list json) :=
  match l with
  | [] => Some []
  | x :: l => j ← c_encode c x; js ← encode_all l; Some (j :: js)
  end.

Fixpoint decode_all (back : list A) (l : list json) : option (list A) :=
  match l with
  | [] => Some []
  | j :: l => x ← c_decode c (default (c_zero c) (head back)) j; xs ← decode_all (tail back) l; Some (x :: xs)
  end.

Definition nil_slice (l : list A) : bool := match l with [] => true | _ => false end.

Definition slice_codec : Codec (list A) :=
  mkCodec [] nil_slice
    (λ l, match l with [] => Some JNull | _ => JArr <$> encode_all l end)
    (λ cur j, match j with JNull => Some [] | JArr l => decode_all cur l | _ => None end)
    (forallb (c_ok c)) (map (c_reread c)) nil_slice (S (c_depth c)).

Lemma encode_all_spec `{!CodecLaws c} l : forallb (c_ok c) l = true →
  ∃ js, encode_all l = Some js ∧ Forall nums_ok js ∧ Forall (λ j, nesting j ≤ c_depth c) js ∧
    decode_all [] (map repair js) = Some (map (c_reread c) l).
Proof.
  induction l as [|x l IH]; intros Hl; [by exists []|]. apply andb_true_iff in Hl as [Hx Hl].
  destruct (law_roundtrip x Hx) as (j & Ej & Hn & Hd & Er). destruct (IH Hl) as (js & Ejs & Hns & Hds & Ers).
  exists (j :: js). simpl. rewrite Ej, Ejs, Er, Ers. split_and!; [done|by constructor|by constructor|done].
Qed.

#[export] Instance slice_laws `{!CodecLaws c} : CodecLaws slice_codec.
Proof.
  split; [|by intros []]. intros [|x l] Hl; [exists JNull; split_and!; [done..|simpl; lia|done]|].
  destruct (encode_all_spec _ Hl) as (js & Ejs & Hns & Hds & Ers). exists (JArr js). split_and!.
  - cbn [slice_codec c_encode]. by rewrite Ejs.
  - by apply nums_ok_Forall.
  - simpl. apply le_n_S, nesting_Forall, Hds.
  - exact Ers.
Qed.
End slice.

(** ** Pointers *)
Section pointer.
Context {A : Type} (c : Codec A).

Definition nil_pointer (x : option A) : bool := match x with None => true | Some _ => false end.

Definition pointer_codec : Codec (option A) :=
  mkCodec None nil_pointer
    (λ x, match x with None => Some JNull | Some x => c_encode c x end)
    (λ cur j, match j with JNull => Some None | _ => Some <$> c_decode c (default (c_zero c) cur) j end)
    (λ x, match x with None => true | Some x => c_ok c x && match c_encode c x with Some JNull => false | _ => true end end)
    (fmap (c_reread c)) nil_pointer (c_depth c).

#[export] Instance pointer_laws `{!CodecLaws c} : CodecLaws pointer_codec.
Proof.
  split; [|by intros []]. intros [x|] Hx; [|exists JNull; split_and!; [done..|simpl; lia|done]].
  apply andb_true_iff in Hx as [Hx Hj]. destruct (law_roundtrip x Hx) as (j & Ej & Hn & Hd & Er).
  exists j. split_and!; [done..|]. rewrite Ej in Hj. cbn [pointer_codec c_decode c_zero default c_reread].
  destruct j; cbn [repair] in *; [done|..]; by rewrite Er.
Qed.
End pointer.

(** ** Maps with string keys

    [None] is the nil map.  The writer sorts the entries by the bytes of their
    keys; the reader adds entries to the map that the variable holds, each read into
    a zero value. *)
Definition entry_le {A} (a b : gostring * A) : Prop := bytes_leb (fst a) (fst b) = true.
#[export] Instance entry_le_dec {A} : RelDecision (@entry_le A).
Proof. intros a b. unfold entry_le. apply _. Defined.

Definition sorted_map {A} (m : gmap gostring A) : list (gostring * A) := merge_sort entry_le (map_to_list m).

Lemma sorted_map_spec {A} (m : gmap gostring A) :
  NoDup (fst <$> sorted_map m) ∧ list_to_map (sorted_map m) = m ∧ sorted_map m ≡ₚ map_to_list m.
Proof.
  assert (Hp : sorted_map m ≡ₚ map_to_list m) by apply merge_sort_Permutation.
  assert (Hnd : NoDup (fst <$> sorted_map m)) by (rewrite Hp; apply NoDup_fst_map_to_list).
  split_and!; [done| |done]. rewrite <- (list_to_map_to_list m) at 2. by apply list_to_map_proper.
Qed.

Section mapping.
Context {A : Type} (c : Codec A).

Fixpoint encode_map_entries (l : list (gostring * A)) : option (list (gostring * json)) :=
  match l with
  | [] => Some []
  | (k, x) :: l => j ← c_encode c x; js ← encode_map_entries l; Some ((k, j) :: js)
  end.

Fixpoint decode_map_entries (cur : gmap gostring A) (l : list (gostring * json)) : option (gmap gostring A) :=
  match l with
  | [] => Some cur
  | (k, j) :: l => x ← c_decode c (c_zero c) j; decode_map_entries (<[k := x]> cur) l
  end.

Definition entry_ok (e : gostring * A) : bool := bool_decide (valid_utf8 (fst e)) && c_ok c (snd e).
Definition reread_map (m : gmap gostring A) : gmap gostring A := c_reread c <$> m.

Definition map_codec : Codec (option (gmap gostring A)) :=
  mkCodec None
    (λ m, match m with None => true | Some m => bool_decide (size m = 0) end)
    (λ m, match m with None => Some JNull | Some m => option_map JObj (encode_map_entries (sorted_map m)) end)
    (λ cur j, match j with
              | JNull => Some None
              | JObj l => option_map Some (decode_map_entries (default ∅ cur) l)
              | _ => None
              end)
    (λ m, match m with None => true | Some m => forallb entry_ok (map_to_list m) end)
    (option_map reread_map)
    (λ m, match m with None => true | Some _ => false end) (S (c_depth c)).

Lemma encode_map_entries_spec `{!CodecLaws c} l cur : Forall entry_ok l → NoDup (fst <$> l) →
  (∀ k, k ∈ fst <$> l → cur !! k = None) →
  ∃ js, encode_map_entries l = Some js ∧ Forall (λ kj, nums_ok (snd kj)) js ∧
    Forall (λ kj, nesting (snd kj) ≤ c_depth c) js ∧
    decode_map_entries cur (map (λ kv, (to_valid (fst kv), repair (snd kv))) js) =
      Some (cur ∪ (c_reread c <$> list_to_map l)).
Proof.
  revert cur. induction l as [|[k x] l IH]; intros cur Hok Hnd Hf.
  { exists []. split_and!; [done..|]. simpl. by rewrite fmap_empty, map_union_empty. }
  apply Forall_cons in Hok as [[Hk Hx]%andb_True Hok]. apply NoDup_cons in Hnd as [Hkl Hnd].
  apply bool_decide_unpack in Hk. apply Is_true_true in Hx. simpl in Hk, Hx.
  destruct (law_roundtrip x Hx) as (j & Ej & Hn & Hd & Er).
  destruct (IH (<[k := c_reread c x]> cur) Hok Hnd) as (js & Ejs & Hns & Hds & Ers).
  { intros k' Hk'. rewrite lookup_insert_ne by (by intros ->). apply Hf. by right. }
  exists ((k, j) :: js). simpl. rewrite Ej, Ejs, Hk, Er. simpl. split_and!; [done|by constructor|by constructor|].
  rewrite Ers. f_equal. rewrite fmap_insert, <- insert_union_l, <- insert_union_r; [done|].
  apply Hf. left.
Qed.

#[export] Instance map_laws `{!CodecLaws c} : CodecLaws map_codec.
Proof.
  split; [|by intros []]. intros [m|] Hm; [|exists JNull; split_and!; [done..|simpl; lia|done]].
  destruct (sorted_map_spec m) as (Hnd & Hl & Hp). cbn [map_codec c_ok] in Hm.
  assert (Hok : Forall entry_ok (sorted_map m)) by (rewrite Hp; apply forallb_True; by apply Is_true_true).
  destruct (encode_map_entries_spec _ ∅ Hok Hnd) as (js & Ejs & Hns & Hds & Ers); [intros; apply lookup_empty|].
  exists (JObj js). split_and!.
  - cbn [map_codec c_encode]. by rewrite Ejs.
  - by apply nums_ok_Forall_obj.
  - simpl. apply le_n_S, nesting_Forall_obj, Hds.
  - cbn [map_codec c_decode c_zero repair default c_reread]. rewrite Ers, map_empty_union, Hl. done.
Qed.
End mapping.

(** ** Structs

    [StructFields T]: the fields of a struct whose values are the tuple [T], each with its
    name in the file and whether it has [omitempty]. *)
Inductive StructFields : Type → Type :=
| fnil : StructFields unit
| fcons {A B} (name : gostring) (omit : bool) (c : Codec A) (fs : StructFields B) : StructFields (A * B).

Fixpoint fields_zero {T} (fs : StructFields T) : T :=
  match fs with fnil => tt | fcons _ _ c fs => (c_zero c, fields_zero fs) end.

Fixpoint fields_names {T} (fs : StructFields T) : list gostring :=
  match fs with fnil => [] | fcons name _ _ fs => name :: fields_names fs end.

Fixpoint fields_depth {T} (fs : StructFields T) : nat :=
  match fs with fnil => 0 | fcons _ _ c fs => Nat.max (c_depth c) (fields_depth fs) end.

Fixpoint encode_fields {T} (fs : StructFields T) : T → option (list (gostring * json)) :=
  match fs with
  | fnil => λ _, Some []
  | fcons name omit c fs => λ t,
      if omit && c_empty c (fst t) then encode_fields fs (snd t)
      else j ← c_encode c (fst t); js ← encode_fields fs (snd t); Some ((name, j) :: js)
  end.

(** One member of the file. *)
Fixpoint decode_field {T} (fs : StructFields T) : T → gostring → json → option T :=
  match fs with
  | fnil => λ t _ _, Some t
  | fcons name _ c fs => λ t k j,
      if matches name k then x ← c_decode c (fst t) j; Some (x, snd t)
      else r ← decode_field fs (snd t) k j; Some (fst t, r)
  end.

Fixpoint fields_ok {T} (fs : StructFields T) : T → bool :=
  match fs with
  | fnil => λ _, true
  | fcons _ omit c fs => λ t,
      c_ok c (fst t) && (negb (omit && c_empty c (fst t)) || c_bare c (fst t)) && fields_ok fs (snd t)
  end.

Fixpoint fields_reread {T} (fs : StructFields T) : T → T :=
  match fs with
  | fnil => λ t, t
  | fcons _ _ c fs => λ t, (c_reread c (fst t), fields_reread fs (snd t))
  end.

Class FieldsLaws {T} (fs : StructFields T) : Prop :=
  fields_roundtrip t : fields_ok fs t = true → NoDup (fold_name <$> fields_names fs) →
    Forall valid_utf8 (fields_names fs) →
    ∃ js, encode_fields fs t = Some js ∧ Forall (λ kj, nums_ok (snd kj)) js ∧
      Forall (λ kj, nesting (snd kj) ≤ fields_depth fs) js ∧ Forall (λ kj, fst kj ∈ fields_names fs) js ∧
      decode_members (decode_field fs) (fields_zero fs) (map (λ kv, (to_valid (fst kv), repair (snd kv))) js) =
        Some (fields_reread fs t).

#[export] Instance fnil_laws : FieldsLaws fnil.
Proof. intros [] _ _ _. by exists []. Qed.

(** Members that match no name of the head leave it as it is. *)
Lemma decode_members_tail {A B} name omit (c : Codec A) (fs : StructFields B) x t js :
  Forall (λ kj, matches name (fst kj) = false) js →
  decode_members (decode_field (fcons name omit c fs)) (x, t) js =
    (r ← decode_members (decode_field fs) t js; Some (x, r)).
Proof.
  intros Hm. revert t. induction Hm as [|[k j] js Hk Hjs IH]; intros t; [done|]. cbn [decode_members decode_field fst snd] in *.
  rewrite Hk. destruct (decode_field fs t k j) as [t'|]; [|done]. cbn [mbind option_bind]. by rewrite IH.
Qed.

Lemma decode_field_head {A B} name omit (c : Codec A) (fs : StructFields B) x t j y : c_decode c x j = Some y →
  decode_field (fcons name omit c fs) (x, t) name j = Some (y, t).
Proof.
  intros Ey. cbn [decode_field fst snd]. assert (matches name name = true) as -> by (by apply bool_decide_true).
  by rewrite Ey.
Qed.

#[export] Instance fcons_laws {A B} name omit (c : Codec A) (fs : StructFields B) `{!CodecLaws c} `{!FieldsLaws fs} :
  FieldsLaws (fcons name omit c fs).
Proof.
  intros [x t] Hok Hnd Hv. cbn [fields_ok fst snd] in Hok. rewrite !andb_true_iff in Hok. destruct Hok as [[Hx Homit] Ht].
  cbn [fields_names fmap list_fmap] in Hnd, Hv. apply NoDup_cons in Hnd as [Hfresh Hnd]. apply Forall_cons in Hv as [Hname Hv].
  destruct (fields_roundtrip t Ht Hnd Hv) as (js & Ejs & Hns & Hds & Hks & Ers).
  assert (Hm : Forall (λ kj, matches name (fst kj) = false)
                 (map (λ kv, (to_valid (fst kv), repair (snd kv))) js)).
  { apply Forall_map. eapply Forall_impl; [exact Hks|]. intros [k j] Hin. simpl in *.
    rewrite (proj1 (Forall_forall _ _) Hv k Hin). unfold matches. apply bool_decide_eq_false. intros Heq. apply Hfresh. rewrite <- Heq.
    by apply list_elem_of_fmap_2. }
  assert (Hd' : Forall (λ kj, nesting (snd kj) ≤ Nat.max (c_depth c) (fields_depth fs)) js)
    by (eapply Forall_impl; [exact Hds|simpl; lia]).
  assert (Hk' : Forall (λ kj, fst kj ∈ name :: fields_names fs) js)
    by (eapply Forall_impl; [exact Hks|intros; by right]).
  cbn [encode_fields fields_zero fields_reread fields_depth fields_names fst snd].
  destruct (omit && c_empty c x) eqn:Eo.
  - exists js. split_and!; [done..|]. rewrite decode_members_tail, Ers by done. simpl in Homit. by rewrite law_bare.
  - destruct (law_roundtrip x Hx) as (j & Ej & Hn & Hd & Er). exists ((name, j) :: js). rewrite Ej, Ejs. split_and!.
    + done.
    + by constructor.
    + constructor; [simpl; lia|done].
    + constructor; [left|done].
    + cbn [map decode_members fst snd]. rewrite Hname, (decode_field_head _ _ _ _ _ _ _ _ Er). cbn [mbind option_bind]. by rewrite decode_members_tail, Ers.
Qed.

Section struct.
Context {R T : Type} (fs : StructFields T) (to : R → T) (from : T → R).

Definition struct_codec : Codec R :=
  mkCodec (from (fields_zero fs)) (λ _, false)
    (λ r, JObj <$> encode_fields fs (to r))
    (λ cur j, from <$> decode_struct (decode_field fs) (to cur) j)
    (λ r, fields_ok fs (to r)) (λ r, from (fields_reread fs (to r))) (λ _, false) (S (fields_depth fs)).

(** What the tags of a struct must satisfy: the names are different, also up to case. *)
Definition tags_ok : bool :=
  bool_decide (NoDup (fold_name <$> fields_names fs)) && bool_decide (Forall valid_utf8 (fields_names fs)).

Lemma struct_laws `{!FieldsLaws fs} : tags_ok = true → (∀ t, to (from t) = t) → CodecLaws struct_codec.
Proof.
  intros [Hnd%bool_decide_eq_true Hv%bool_decide_eq_true]%andb_true_iff Hto. split; [|done]. intros r Hr.
  destruct (fields_roundtrip (to r) Hr Hnd Hv) as (js & Ejs & Hns & Hds & _ & Ers). exists (JObj js).
  cbn [struct_codec c_encode c_decode c_zero c_reread c_depth]. rewrite Ejs, Hto. split_and!.
  - done.
  - by apply nums_ok_Forall_obj.
  - simpl. apply le_n_S, nesting_Forall_obj, Hds.
  - cbn [repair decode_struct]. by rewrite Ers.
Qed.
End struct.

(** ** Values of type [interface{}]

    A map is the list of its entries, sorted by key.  Numbers are read as floats. *)
Inductive any :=
| ANil | ABool (b : bool) | ANumber (x : float64) | AInt (z : Z) | AText (s : gostring)
| AArr (l : list any) | AObj (l : list (gostring * any)).

Fixpoint encode_any (a : any) : option json :=
  match a with
  | ANil => Some JNull
  | ABool b => Some (JBool b)
  | ANumber x => JNum <$> format_float x
  | AInt z => Some (JNum (Itoa z))
  | AText s => Some (JStr s)
  | AArr l => JArr <$> foldr (λ a r, j ← encode_any a; js ← r; Some (j :: js)) (Some []) l
  | AObj l => JObj <$> foldr (λ e r, j ← encode_any (snd e); js ← r; Some ((fst e, j) :: js)) (Some []) l
  end.

Fixpoint decode_any (j : json) : option any :=
  match j with
  | JNull => Some ANil
  | JBool b => Some (ABool b)
  | JNum lit => ANumber <$> ParseFloat lit
  | JStr s => Some (AText s)
  | JArr l => AArr <$> foldr (λ j r, a ← decode_any j; l ← r; Some (a :: l)) (Some []) l
  | JObj l =>
      es ← foldr (λ e r, a ← decode_any (snd e); l ← r; Some ((fst e, a) :: l)) (Some []) l;
      Some (AObj (sorted_map (list_to_map (reverse es))))
  end.

(** [reflect.DeepEqual]: numbers as [==] does. *)
Fixpoint any_equal (a b : any) : bool :=
  match a, b with
  | ANil, ANil => true
  | ABool x, ABool y => Bool.eqb x y
  | ANumber x, ANumber y => SFeqb x y
  | AInt x, AInt y => Z.eqb x y
  | AText s, AText t => bool_decide (s = t)
  | AArr l, AArr l' =>
      (fix equal_all l l' := match l, l' with
                             | [], [] => true
                             | a :: l, b :: l' => any_equal a b && equal_all l l'
                             | _, _ => false
                             end) l l'
  | AObj l, AObj l' =>
      (fix equal_all l l' := match l, l' with
                             | [], [] => true
                             | (k, a) :: l, (k', b) :: l' => bool_decide (k = k') && any_equal a b && equal_all l l'
                             | _, _ => false
                             end) l l'
  | _, _ => false
  end.

(** The laws are stated for scalars. *)
Definition any_codec : Codec any :=
  mkCodec ANil (λ a, match a with ANil => true | _ => false end) encode_any (λ _, decode_any)
    (λ a, match a with
          | ANil | ABool _ | AText _ => true
          | ANumber x => writable x
          | AInt z => match ParseFloat (Itoa z) with Some _ => true | None => false end
          | _ => false
          end)
    (λ a, match a with
          | AInt z => from_option ANumber ANil (ParseFloat (Itoa z))
          | AText s => AText (to_valid s)
          | _ => a
          end)
    (λ a, match a with ANil => true | _ => false end) 0.

#[export] Instance any_laws : CodecLaws any_codec.
Proof.
  split; [|by intros []]. intros [|b|x|z|s|l|l] Hx; try done.
  - by exists JNull.
  - by exists (JBool b).
  - destruct (parse_format x) as (text & Ht & Hn & Hp); [by apply Is_true_true|].
    exists (JNum text). cbn. rewrite Ht, Hp. by split_and!.
  - exists (JNum (Itoa z)). cbn in *. destruct (ParseFloat (Itoa z)) as [x|]; [|done].
    split_and!; [done|apply num_ok_Itoa|done|done].
  - by exists (JStr s).
Qed.

(** ** Files

    [json.MarshalIndent] and a line feed; [json.Unmarshal] into a zero value. *)
Definition MarshalIndent {A} (c : Codec A) (x : A) : option gostring := print indented 0 <$> c_encode c x.
Definition Unmarshal {A} (c : Codec A) (text : gostring) : option A := j ← parse_document text; c_decode c (c_zero c) j.

Lemma document_roundtrip {A} (c : Codec A) `{!CodecLaws c} x : c_ok c x = true → (N.of_nat (c_depth c) ≤ maxNestingDepth)%N →
  ∃ text, MarshalIndent c x = Some text ∧ Unmarshal c (text ++ ["010"%char]) = Some (c_reread c x).
Proof.
  intros Hx Hd. destruct (law_roundtrip x Hx) as (j & Ej & Hn & Hj & Er). unfold MarshalIndent, Unmarshal. rewrite Ej.
  eexists. split; [done|]. rewrite (parse_print indented j ["010"%char] Hn); [exact Er|lia|done].
Qed.
