(* ===== verification/Rfc3339.v ===== *)
(** * Times as text (package time)

    A time is the number of nanoseconds since the start of 1970 in UTC.  Its JSON form
    is the text of RFC 3339 with as many digits of the second as it needs; the
    theorem [parse_time_text] says that reading it gives the time. *)

From S2P Require Import Prelude GoLib Utf8 Json.
Local Open Scope Z_scope.

(** ** The calendar *)

(** Dates in the Gregorian calendar; [days] counts from 1970-01-01.  Years start in
    March here, so that the leap day is the last one; eras have 400 years. *)
Definition era_days : Z := 146097.

(** The day of an era: its century, the cycle of four years in it, the year in
    that, and the day of the year; the last century and the last year of a cycle may
    have a day more. *)
Definition era_parts (doe : Z) : Z * Z * Z * Z :=
  let c := Z.min 3 (doe / 36524) in
  let d1 := doe - 36524 * c in
  let q := d1 / 1461 in
  let d2 := d1 - 1461 * q in
  let r := Z.min 3 (d2 / 365) in
  (c, q, r, d2 - 365 * r).

Definition civil_of_era (doe : Z) : Z * Z * Z :=
  let '(c, q, r, doy) := era_parts doe in
  let mp := (5 * doy + 2) / 153 in
  (100 * c + 4 * q + r, mp, doy - (153 * mp + 2) / 5 + 1).

Definition month_of (mp : Z) : Z := if mp <? 10 then mp + 3 else mp - 9.

Definition civil (days : Z) : Z * Z * Z :=
  let z := days + 719468 in
  let '(yoe, mp, d) := civil_of_era (z mod era_days) in
  (yoe + 400 * (z / era_days) + (if mp <? 10 then 0 else 1), month_of mp, d).

Definition days_of_civil (y m d : Z) : Z :=
  let y := if m <=? 2 then y - 1 else y in
  let yoe := y mod 400 in
  let doy := (153 * (if m <=? 2 then m + 9 else m - 3) + 2) / 5 + d - 1 in
  y / 400 * era_days + (yoe * 365 + yoe / 4 - yoe / 100 + doy) - 719468.

Definition leap (y : Z) : bool := (y mod 4 =? 0) && (negb (y mod 100 =? 0) || (y mod 400 =? 0)).
Definition days_in (m y : Z) : Z :=
  if m =? 2 then if leap y then 29 else 28
  else if bool_decide (m ∈ [4; 6; 9; 11]) then 30 else 31.

Fixpoint all_below (fuel : nat) (n : Z) (f : Z → bool) : bool :=
  match fuel with O => true | S fuel => f n && all_below fuel (n + 1) f end.

Lemma all_below_spec fuel n f : all_below fuel n f = true → ∀ k, n ≤ k < n + Z.of_nat fuel → f k = true.
Proof.
  revert n. induction fuel as [|fuel IH]; intros n H k Hk; [lia|]. apply andb_true_iff in H as [Hn Hr].
  destruct (decide (k = n)) as [->|]; [done|]. apply (IH (n + 1)); [done|lia].
Qed.

(** Every day of a year that starts in March; day 365 is the leap day. *)
Definition year_day_ok (doy : Z) : bool :=
  let mp := (5 * doy + 2) / 153 in
  let d := doy - (153 * mp + 2) / 5 + 1 in
  (0 <=? mp) && (mp <? 12) && (1 <=? d) &&
  (d <=? days_in (month_of mp) (if doy =? 365 then 0 else 1)).

Lemma year_days_ok doy : 0 ≤ doy < 366 → year_day_ok doy = true.
Proof. apply (all_below_spec 366 0). vm_compute. reflexivity. Qed.

(** The quotient and the rest of [a] by [b], for [lia]. *)
Ltac div_facts a b :=
  pose proof (Z.div_mod a b ltac:(lia)); pose proof (Z.mod_pos_bound a b ltac:(lia)).

Lemma era_parts_spec doe : 0 ≤ doe < era_days → let '(c, q, r, doy) := era_parts doe in
  0 ≤ c ≤ 3 ∧ 0 ≤ q ≤ 24 ∧ 0 ≤ r ≤ 3 ∧ 0 ≤ doy < 366 ∧ doe = 36524 * c + 1461 * q + 365 * r + doy ∧
  (doy = 365 → r = 3 ∧ (q = 24 → c = 3)).
Proof.
  unfold era_parts, era_days. intros H. cbv zeta. set (c := Z.min 3 (doe / 36524)).
  assert (Hc : 0 ≤ c ≤ 3 ∧ 0 ≤ doe - 36524 * c ≤ 36524 ∧ (doe - 36524 * c = 36524 → c = 3)) by (unfold c; div_facts doe 36524; lia).
  clearbody c. set (d1 := doe - 36524 * c) in *. set (q := d1 / 1461).
  assert (Hq : 0 ≤ q ≤ 24 ∧ 0 ≤ d1 - 1461 * q ≤ 1460) by (unfold q; div_facts d1 1461; lia). clearbody q. set (d2 := d1 - 1461 * q) in *.
  set (r := Z.min 3 (d2 / 365)). assert (Hr : 0 ≤ r ≤ 3 ∧ 0 ≤ d2 - 365 * r ≤ 365 ∧ (d2 - 365 * r = 365 → r = 3)) by (unfold r; div_facts d2 365; lia).
  clearbody r. split_and!; lia.
Qed.

Lemma days_in_leap m y : days_in m 1 ≤ days_in m y.
Proof. unfold days_in. change (leap 1) with false. destruct (m =? 2); [destruct (leap y); lia|lia]. Qed.

(** Every day of an era has a date in its calendar, and the date gives back the day. *)
Lemma era_day_spec doe : 0 ≤ doe < era_days → let '(yoe, mp, d) := civil_of_era doe in
  0 ≤ yoe < 400 ∧ 0 ≤ mp < 12 ∧ 1 ≤ d ≤ days_in (month_of mp) (yoe + if mp <? 10 then 0 else 1) ∧
  yoe * 365 + yoe / 4 - yoe / 100 + ((153 * mp + 2) / 5 + d - 1) = doe.
Proof.
  intros H. unfold civil_of_era. pose proof (era_parts_spec doe H) as Hp. destruct (era_parts doe) as [[[c q] r] doy].
  destruct Hp as (Hc & Hq & Hr & Hdoy & He & Hleap). pose proof (year_days_ok doy Hdoy) as Hy. unfold year_day_ok in Hy.
  rewrite !andb_true_iff, !Z.leb_le, Z.ltb_lt in Hy. destruct Hy as [[[Hm0 Hm] Hd0] Hd].
  set (mp := (5 * doy + 2) / 153) in *. set (d := doy - (153 * mp + 2) / 5 + 1) in *. set (yoe := 100 * c + 4 * q + r).
  assert (H4 : yoe / 4 = 25 * c + q) by (unfold yoe; div_facts (100 * c + 4 * q + r) 4; lia).
  assert (H100 : yoe / 100 = c) by (unfold yoe; div_facts (100 * c + 4 * q + r) 100; lia).
  split_and!; [unfold yoe; lia..|lia|lia|lia| |rewrite H4, H100; unfold d, yoe; lia].
  destruct (Z.eqb_spec doy 365) as [E|E].
  - assert (Hmp : mp = 11) by (unfold mp; by rewrite E). destruct (Hleap E) as [-> Hq24]. unfold month_of in *. rewrite Hmp in *.
    simpl in Hd |- *. change (days_in 2 0) with 29 in Hd. assert (leap (yoe + 1) = true) as Hl.
    { unfold leap, yoe. replace (100 * c + 4 * q + 3 + 1) with ((25 * c + q + 1) * 4) by lia. rewrite Z.mod_mul by lia. simpl.
      destruct (Z.eqb_spec ((25 * c + q + 1) * 4 mod 100) 0) as [E1|]; [|done]. simpl. apply Z.eqb_eq.
      div_facts ((25 * c + q + 1) * 4) 100. assert (q = 24) as Hq' by lia. rewrite Hq', (Hq24 Hq'). done. }
    unfold days_in. simpl. rewrite Hl. exact Hd.
  - etransitivity; [exact Hd|]. apply days_in_leap.
Qed.

Lemma leap_era y k : leap (y + 400 * k) = leap y.
Proof.
  unfold leap. replace (y + 400 * k) with (y + (100 * k) * 4) by lia. rewrite Z.mod_add by lia.
  replace (y + 100 * k * 4) with (y + (4 * k) * 100) by lia. rewrite Z.mod_add by lia.
  replace (y + 4 * k * 100) with (y + k * 400) by lia. by rewrite Z.mod_add by lia.
Qed.

(** The calendar counts days: each day has one date, which is a date. *)
Lemma civil_spec days : let '(y, m, d) := civil days in
  1 ≤ m ≤ 12 ∧ 1 ≤ d ≤ days_in m y ∧ days_of_civil y m d = days.
Proof.
  unfold civil. set (z := days + 719468).
  pose proof (Z.mod_pos_bound z era_days ltac:(done)) as Hb. pose proof (era_day_spec _ Hb) as Hok.
  pose proof (Z.div_mod z era_days ltac:(done)) as Hz.
  destruct (civil_of_era (z mod era_days)) as [[yoe mp] d]. destruct Hok as (Hy & Hm & Hd & He). set (era := z / era_days) in *.
  assert (Hdays : days_in (month_of mp) (yoe + 400 * era + (if mp <? 10 then 0 else 1))
                  = days_in (month_of mp) (yoe + (if mp <? 10 then 0 else 1))).
  { unfold days_in. replace (yoe + 400 * era + _) with (yoe + (if mp <? 10 then 0 else 1) + 400 * era) by lia.
    by rewrite leap_era. }
  rewrite Hdays. unfold month_of in *. split_and!; [destruct (Z.ltb_spec mp 10); lia..|lia|lia|].
  unfold days_of_civil. destruct (Z.ltb_spec mp 10) as [Hs|Hs].
  - destruct (Z.leb_spec (mp + 3) 2); [lia|]. replace (yoe + 400 * era + 0) with (yoe + era * 400) by lia.
    rewrite Z.mod_add, Z.div_add, (Z.mod_small yoe), (Z.div_small yoe) by lia. replace (mp + 3 - 3) with mp by lia. lia.
  - destruct (Z.leb_spec (mp - 9) 2); [|lia]. replace (yoe + 400 * era + 1 - 1) with (yoe + era * 400) by lia.
    rewrite Z.mod_add, Z.div_add, (Z.mod_small yoe), (Z.div_small yoe) by lia. replace (mp - 9 + 9) with mp by lia. lia.
Qed.

(** ** Fields of fixed width *)
Fixpoint pad (k : nat) (n : Z) : gostring :=
  match k with O => [] | S k => pad k (n / 10) ++ [digit_char (n mod 10)] end.

Lemma pad_spec k n : 0 ≤ n < 10 ^ Z.of_nat k → length (pad k n) = k ∧ forallb is_digit (pad k n) = true ∧ digits_val (pad k n) = n.
Proof.
  revert n. induction k as [|k IH]; intros n Hn; [simpl in Hn; unfold digits_val; simpl; split_and!; [done..|lia]|].
  rewrite Nat2Z.inj_succ, Z.pow_succ_r in Hn by lia. pose proof (Z.div_mod n 10 ltac:(lia)) as Hd.
  pose proof (Z.mod_pos_bound n 10 ltac:(lia)) as Hm.
  destruct (IH (n / 10)) as (Hl & Hf & Hv); [split; [apply Z.div_pos; lia|apply Z.div_lt_upper_bound; lia]|].
  destruct (digit_char_spec (n mod 10)) as [Hc Hcv]; [lia|]. cbn [pad].
  rewrite length_app, forallb_app, digits_val_snoc, Hl, Hf, Hv, Hcv. simpl. rewrite Hc. split_and!; [lia|done|lia].
Qed.

(** [parseUint]: exactly [k] digits, with a value in the range. *)
Definition read_field (k : nat) (lo hi : Z) (s : gostring) : option (Z * gostring) :=
  let d := take k s in
  if bool_decide (length d = k) && forallb is_digit d && (lo <=? digits_val d) && (digits_val d <=? hi)
  then Some (digits_val d, drop k s) else None.

Lemma read_field_pad k lo hi n s : 0 ≤ n < 10 ^ Z.of_nat k → lo ≤ n ≤ hi → read_field k lo hi (pad k n ++ s) = Some (n, s).
Proof.
  intros Hn Hr. destruct (pad_spec k n Hn) as (Hl & Hf & Hv). unfold read_field.
  rewrite take_app_length', drop_app_length' by done. rewrite Hf, Hv, Hl, bool_decide_true by done.
  destruct (Z.leb_spec lo n); [|lia]. destruct (Z.leb_spec n hi); [done|lia].
Qed.

(** The digits of the second's fraction, without trailing zeros. *)
Fixpoint trim_trailing (s : gostring) : gostring :=
  match s with
  | [] => []
  | c :: s =>
      match trim_trailing s with
      | [] => if bool_decide (c = "0"%char) then [] else [c]
      | t => c :: t
      end
  end.

Lemma trim_trailing_app s : trim_trailing s ++ replicate (length s - length (trim_trailing s)) "0"%char = s.
Proof.
  induction s as [|c s IH]; [done|]. simpl. destruct (trim_trailing s) as [|x t]; simpl in IH.
  - rewrite Nat.sub_0_r in IH. case_bool_decide as Hc; simpl; [by rewrite Hc, IH|]. by rewrite Nat.sub_0_r, IH.
  - simpl. by rewrite IH.
Qed.

Lemma trim_trailing_length s : (length (trim_trailing s) ≤ length s)%nat.
Proof. induction s as [|c s IH]; [done|]. simpl. destruct (trim_trailing s); [case_bool_decide|]; simpl in *; lia. Qed.

(** [parseNanoseconds]: the first nine digits count. *)
Definition nanoseconds (f : gostring) : Z := digits_val (take 9 (f ++ replicate 9 "0"%char)).

Lemma nanoseconds_trim s : length s = 9%nat → nanoseconds (trim_trailing s) = digits_val s.
Proof.
  intros Hl. unfold nanoseconds. f_equal. pose proof (trim_trailing_app s) as Ha. pose proof (trim_trailing_length s) as Hle.
  rewrite <- Ha at 2. rewrite take_app, (take_ge (trim_trailing s)) by lia. f_equal. rewrite take_replicate. f_equal. lia.
Qed.

Lemma trim_trailing_digits s : forallb is_digit s = true → forallb is_digit (trim_trailing s) = true.
Proof.
  intros Hs. rewrite <- (trim_trailing_app s), forallb_app, andb_true_iff in Hs. by destruct Hs.
Qed.

(** ** Times *)
Definition day_ns : Z := 86400 * 1000000000.

Definition fraction_text (ns : Z) : gostring :=
  match trim_trailing (pad 9 ns) with [] => [] | f => "."%char :: f end.

(** [Time.MarshalJSON] of a time in UTC, which refuses years that have not four digits. *)
Definition time_text (t : Z) : option gostring :=
  let '(y, m, d) := civil (t / day_ns) in
  let s := t / 1000000000 mod 86400 in
  if (0 <=? y) && (y <=? 9999) then
    Some (pad 4 y ++ §"-" ++ pad 2 m ++ §"-" ++ pad 2 d ++ §"T" ++ pad 2 (s / 3600) ++ §":" ++ pad 2 (s / 60 mod 60) ++ §":" ++
          pad 2 (s mod 60) ++ fraction_text (t mod 1000000000) ++ §"Z")
  else None.

(** What [time.Parse] makes of a text that is not exactly of this form. *)
Class TimeParse := lenient_time : gostring → option Z.

(** The zone: [Z] or a sign, hours and minutes. *)
Definition read_zone (s : gostring) : option Z :=
  if bool_decide (s = §"Z") then Some 0
  else match s with
       | sign :: s1 =>
           '(h, s2) ← read_field 2 0 23 s1;
           s3 ← after ":" s2;
           '(mi, s4) ← read_field 2 0 59 s3;
           if bool_decide (s4 = []) then
             if bool_decide (sign = "+"%char) then Some ((h * 60 + mi) * 60)
             else if bool_decide (sign = "-"%char) then Some (- ((h * 60 + mi) * 60)) else None
           else None
       | [] => None
       end.

(** [parseRFC3339] *)
Definition parseRFC3339 (s : gostring) : option Z :=
  '(y, s) ← read_field 4 0 9999 s; s ← after "-" s;
  '(m, s) ← read_field 2 1 12 s; s ← after "-" s;
  '(d, s) ← read_field 2 1 (days_in m y) s; s ← after "T" s;
  '(h, s) ← read_field 2 0 23 s; s ← after ":" s;
  '(mi, s) ← read_field 2 0 59 s; s ← after ":" s;
  '(sec, s) ← read_field 2 0 59 s;
  let '(f, s) := match after "." s with
                 | Some r => if starts_digit r then take_digits r else ([], s)
                 | None => ([], s)
                 end in
  zone ← read_zone s;
  Some ((days_of_civil y m d * 86400 + h * 3600 + mi * 60 + sec - zone) * 1000000000 + nanoseconds f).

(** [parseStrictRFC3339], which is as lenient as [time.Parse] for now. *)
Definition parse_time `{TimeParse} (s : gostring) : option Z :=
  match parseRFC3339 s with Some t => Some t | None => lenient_time s end.

Lemma read_fraction ns s : 0 ≤ ns < 1000000000 → starts_digit s = false → after "." s = None →
  ∃ f, (match after "." (fraction_text ns ++ s) with
        | Some r => if starts_digit r then take_digits r else ([], fraction_text ns ++ s)
        | None => ([], fraction_text ns ++ s)
        end) = (f, s) ∧ nanoseconds f = ns.
Proof.
  intros Hns Hs Ha. destruct (pad_spec 9 ns) as (Hl & Hf & Hv); [lia|].
  pose proof (nanoseconds_trim _ Hl) as Hn. pose proof (trim_trailing_digits _ Hf) as Hd. rewrite Hv in Hn.
  unfold fraction_text. exists (trim_trailing (pad 9 ns)). split; [|done].
  destruct (trim_trailing (pad 9 ns)) as [|c f]; [cbn [app]; by rewrite Ha|]. cbn [app after].
  rewrite bool_decide_true by done. pose proof Hd as Hc. apply andb_true_iff in Hc as [Hc _]. cbn [starts_digit]. rewrite Hc.
  by apply (take_digits_app (c :: f)).
Qed.

(** The next field, after its separator. *)
Ltac read_next := rewrite read_field_pad by (simpl; lia); cbn [mbind option_bind].

Lemma sep_after c s : after c ([c] ++ s) = Some s.
Proof. apply after_eq. Qed.
Ltac read_sep := rewrite sep_after; cbn [mbind option_bind].

(** A time is read back from its text. *)
Lemma parse_time_text `{TimeParse} t text : time_text t = Some text → parse_time text = Some t.
Proof.
  unfold time_text, parse_time. pose proof (civil_spec (t / day_ns)) as Hc. destruct (civil (t / day_ns)) as [[y m] d].
  destruct Hc as (Hm & Hd & Hdays). destruct (_ && _) eqn:Ey; [|done]. apply andb_true_iff in Ey as [Hy0%Z.leb_le Hy%Z.leb_le].
  set (s := t / 1000000000 mod 86400). intros <-%(inj Some).
  pose proof (Z.mod_pos_bound (t / 1000000000) 86400 ltac:(lia)) as Hs. fold s in Hs.
  assert (Hd31 : days_in m y ≤ 31) by (unfold days_in; repeat case_match; lia).
  assert (Hh : 0 ≤ s / 3600 ≤ 23) by (split; [apply Z.div_pos; lia|apply Z.lt_succ_r, Z.div_lt_upper_bound; lia]).
  pose proof (Z.mod_pos_bound (s / 60) 60 ltac:(lia)) as Hmi. pose proof (Z.mod_pos_bound s 60 ltac:(lia)) as Hsec.
  pose proof (Z.mod_pos_bound t 1000000000 ltac:(lia)) as Hns.
  destruct (read_fraction (t mod 1000000000) §"Z" Hns eq_refl eq_refl) as (f & Ef & Hf).
  unfold parseRFC3339. read_next. do 5 (read_sep; read_next). rewrite Ef. cbn [mbind option_bind]. change (read_zone §"Z") with (Some 0).
  cbn [mbind option_bind]. rewrite Hf, Hdays. f_equal.
  assert (Hsplit : s = s / 3600 * 3600 + s / 60 mod 60 * 60 + s mod 60).
  { pose proof (Z.div_mod s 60 ltac:(lia)). pose proof (Z.div_mod (s / 60) 60 ltac:(lia)).
    rewrite Z.div_div in * by lia. change (60 * 60) with 3600 in *. lia. }
  assert (Hday : t / day_ns = t / 1000000000 / 86400) by (rewrite Z.div_div by lia; done).
  pose proof (Z.div_mod (t / 1000000000) 86400 ltac:(lia)) as E1. pose proof (Z.div_mod t 1000000000 ltac:(lia)) as E2.
  fold s in E1. rewrite Hday. lia.
Qed.

Example time_text_test : time_text 1753800000123000000 = Some §"2025-07-29T14:40:00.123Z".
Proof. vm_compute. reflexivity. Qed.
