(* ===== verification/Workload.v ===== *)
(** * What the benchmark measures (benchmarks/harness/workload.go, profile.go)

    The records of a workload are summarised per operation and per interval of
    100 ms.  The summaries use [float64]; the theorems show that
    they are nevertheless exact where it matters: a percentile is the latency of
    nearest rank ([percentile_rank]), and the intervals cover the measured time
    and count every successful operation once ([intervals_account]). *)

From S2P Require Import Prelude GoLib Float64.
From Stdlib Require Import SpecFloat.

(** ** Data *)

(** Durations are [int64] nanoseconds. *)
Record recordedOp := mkOp {
  op : gostring;
  latencyUS : float64;
  finished : Z;
  success : bool;
}.

Record OpMetrics := mkOpMetrics {
  om_Count : N;
  P50US : float64;
  P95US : float64;
  P99US : float64;
  P999US : float64;
}.

Record IntervalMetrics := mkInterval {
  StartMS : float64;
  EndMS : float64;
  Operations : N;
  Throughput : float64;
  im_P99US : float64;
}.

(** ** Durations *)
Definition Millisecond : Z := 1000000.
Definition Second : Z := 1000000000.

Definition millis (duration : Z) : float64 := fdiv (of_int duration) (of_int Millisecond).

(** [Duration.Seconds]: whole seconds and the rest, added. *)
Definition Seconds (d : Z) : float64 :=
  fadd (of_int (Z.quot d Second)) (fdiv (of_int (Z.rem d Second)) (of_int Second)).

(** ** Sorting

    [sort.Float64s] puts NaN first. *)
Definition is_nan (x : float64) : bool := match x with S754_nan => true | _ => false end.
Definition fless (x y : float64) : bool := flt x y || is_nan x && negb (is_nan y).
Definition fle (x y : float64) : Prop := fless y x = false.
#[export] Instance fle_dec : RelDecision fle.
Proof. intros x y. unfold fle. apply _. Defined.

Definition Float64s (values : list float64) : list float64 := merge_sort fle values.

(** [fless] is a lexicographic order: by sign and kind, exponent, mantissa. *)
Definition fkey (x : float64) : Z * Z * Z :=
  match x with
  | S754_nan => (-3, 0, 0)%Z
  | S754_infinity true => (-2, 0, 0)%Z
  | S754_finite true m e => (-1, - e, - Zpos m)%Z
  | S754_zero _ => (0, 0, 0)%Z
  | S754_finite false m e => (1, e, Zpos m)%Z
  | S754_infinity false => (2, 0, 0)%Z
  end.

Definition key_lt (a b : Z * Z * Z) : Prop :=
  let '(a1, a2, a3) := a in let '(b1, b2, b3) := b in
  (a1 < b1 ∨ a1 = b1 ∧ (a2 < b2 ∨ a2 = b2 ∧ a3 < b3))%Z.

Lemma fless_key x y : fless x y = true ↔ key_lt (fkey x) (fkey y).
Proof.
  unfold fless, flt, SFltb, SFcompare.
  destruct x as [sx|sx| |sx mx ex], y as [sy|sy| |sy my ey]; try destruct sx; try destruct sy; simpl;
    try (split; intros; (done || lia)).
  all: destruct (Z.compare_spec ex ey); simpl; try (split; intros; (done || lia)).
  all: change (Pos.compare_cont Eq mx my) with (Pos.compare mx my); destruct (Pos.compare_spec mx my); simpl;
    split; intros; (done || lia).
Qed.

Lemma fle_key x y : fle x y ↔ ¬ key_lt (fkey y) (fkey x).
Proof. unfold fle. rewrite <- fless_key. by destruct (fless y x). Qed.

#[export] Instance fle_trans : Transitive fle.
Proof.
  intros x y z. rewrite !fle_key. destruct (fkey x) as [[]], (fkey y) as [[]], (fkey z) as [[]]. simpl. lia.
Qed.

#[export] Instance fle_total : Total fle.
Proof. intros x y. rewrite !fle_key. destruct (fkey x) as [[]], (fkey y) as [[]]. simpl. lia. Qed.

Lemma fle_refl x : fle x x.
Proof. by destruct (fle_total x x). Qed.

Lemma Float64s_spec values : StronglySorted fle (Float64s values) ∧ Float64s values ≡ₚ values.
Proof. split; [apply (StronglySorted_merge_sort _)|apply merge_sort_Permutation]. Qed.

(** ** Summaries *)
Section summaries.
Context `{FloatToInt}.
Local Open Scope Z_scope.

Definition percentile_index (n : nat) (quantile : float64) : Z :=
  let index := wrap64 (to_int (Ceil (fmul quantile (of_int (Z.of_nat n)))) - 1) in
  let index := if index <? 0 then 0 else index in
  if Z.of_nat n <=? index then Z.of_nat n - 1 else index.

(** [sorted[index]] is in range ([percentile_index_range]). *)
Definition percentile (sorted : list float64) (quantile : float64) : float64 :=
  match sorted with
  | [] => fzero
  | _ => default fzero (sorted !! Z.to_nat (percentile_index (length sorted) quantile))
  end.

Definition p50 : float64 := decimal 50 100.
Definition p95 : float64 := decimal 95 100.
Definition p99 : float64 := decimal 99 100.
Definition p999 : float64 := decimal 999 1000.

(** [latencies[record.op] = append(latencies[record.op], record.latencyUS)] *)
Definition add_latency (latencies : gmap gostring (list float64)) (record : recordedOp) : gmap gostring (list float64) :=
  if success record then <[op record := default [] (latencies !! op record) ++ [latencyUS record]]> latencies
  else latencies.

Definition op_metrics (values : list float64) : OpMetrics :=
  let values := Float64s values in
  mkOpMetrics (N.of_nat (length values)) (percentile values p50) (percentile values p95) (percentile values p99)
    (percentile values p999).

Definition summarizeOperations (records : list recordedOp) : gmap gostring OpMetrics :=
  let latencies := foldl add_latency (<[§"GET" := []]> {[ §"SET" := [] ]}) records in
  op_metrics <$> latencies.

Definition interval_count (width total : Z) : Z := to_int (Ceil (fdiv (of_int total) (of_int width))).

(** The interval of a record, at most the last. *)
Definition interval_index (width count : Z) (record : recordedOp) : Z :=
  let index := Z.quot (finished record) width in
  if count <=? index then count - 1 else index.

Definition add_interval (width count : Z) (values : list (list float64)) (record : recordedOp) : list (list float64) :=
  let index := interval_index width count record in
  if (0 <=? index) && success record then alter (λ vs, vs ++ [latencyUS record]) (Z.to_nat index) values
  else values.

Definition interval_metrics (width total : Z) (i : nat) (values : list float64) : IntervalMetrics :=
  let values := Float64s values in
  let start := wrap64 (Z.of_nat i * width) in
  let stop := wrap64 (start + width) in
  let stop := if total <? stop then total else stop in
  let duration := wrap64 (stop - start) in
  mkInterval (millis start) (millis stop) (N.of_nat (length values))
    (if 0 <? duration then fdiv (of_int (Z.of_nat (length values))) (Seconds duration) else fzero)
    (percentile values p99).

Definition interval_values (records : list recordedOp) (width count : Z) : list (list float64) :=
  foldl (add_interval width count) (replicate (Z.to_nat count) []) records.

Definition summarizeIntervals (records : list recordedOp) (width total : Z) : list IntervalMetrics :=
  if (width <=? 0) || (total <=? 0) then []
  else imap (interval_metrics width total) (interval_values records width (interval_count width total)).

Lemma interval_metrics_ops width total i values :
  Operations (interval_metrics width total i values) = N.of_nat (length values).
Proof. simpl. by rewrite (Permutation_length (proj2 (Float64s_spec values))). Qed.

(** ** Percentiles *)
Lemma percentile_index_range n quantile : (0 < n)%nat → 0 ≤ percentile_index n quantile < Z.of_nat n.
Proof.
  intros Hn. unfold percentile_index. generalize (wrap64 (to_int (Ceil (fmul quantile (of_int (Z.of_nat n)))) - 1)).
  intros z. destruct (Z.ltb_spec z 0); case_match; lia.
Qed.

(** [m * 2^-53] is the float nearest to [num / 1000], from below. *)
Definition quantile_of (num : Z) (q : float64) : Prop := ∃ m : positive,
  q = S754_finite false m (-53) ∧ 2 ^ 52 ≤ Zpos m < 2 ^ 53 ∧ num * 2 ^ 53 - 1000 ≤ 1000 * Zpos m ≤ num * 2 ^ 53.

Lemma quantiles : quantile_of 500 p50 ∧ quantile_of 950 p95 ∧ quantile_of 990 p99 ∧ quantile_of 999 p999.
Proof. split_and!; (eexists; split; [vm_compute; reflexivity|split; vm_compute; split; congruence]). Qed.

(** The smallest rank that is at least [num / 1000] of [n]. *)
Definition nearest_rank (num n : Z) : Z := - (- (num * n) / 1000).

Lemma nearest_rank_spec num n c : nearest_rank num n = c ↔ (c - 1) * 1000 < num * n ≤ c * 1000.
Proof.
  unfold nearest_rank. pose proof (Z.div_mod (- (num * n)) 1000 ltac:(lia)). 
  pose proof (Z.mod_pos_bound (- (num * n)) 1000 ltac:(lia)). lia.
Qed.

Lemma rank_exact num q n : quantile_of num q → 0 < num ≤ 1000 → 0 < n ≤ 2 ^ 40 →
  to_int (Ceil (fmul q (of_int n))) = nearest_rank num n.
Proof.
  intros (m & -> & Hm & Hq) Hnum Hn.
  destruct (mul_int_round m n Hm ltac:(lia)) as (z & e & He & Hz & Hnear & ->). unfold nearest in Hnear.
  pose proof (proj1 (nearest_rank_spec num n _) eq_refl) as Hc. set (c := nearest_rank num n) in *.
  assert (Hcn : 0 < c ≤ n) by nia. pose proof (pow2_pos e He) as Hp. set (E := 2 ^ e) in *.
  assert (HE : 2 ^ 11 ≤ E).
  { assert (2 * z * 2 ^ 53 ≤ 2 * 2 ^ 53 * n * E + 2 ^ 53) by nia. nia. }
  apply int_ceil_pack; [done|done| |lia]. fold E. split.
  - assert (Hlo : ((c - 1) * 1000 + 1) * 2 ^ 53 - 1000 * n ≤ 1000 * (Zpos m * n)) by nia.
    assert ((((c - 1) * 1000 + 1) * 2 ^ 53 - 1000 * n) * E ≤ 1000 * (Zpos m * n) * E) by nia. nia.
  - assert (Zpos m * n * E ≤ c * 2 ^ 53 * E) by (apply Z.mul_le_mono_nonneg_r; nia). nia.
Qed.

(** How many values are at most [x], and how many are smaller. *)
Definition count_le (x : float64) (values : list float64) : nat := length (filter (λ v, fle v x) values).
Definition count_lt (x : float64) (values : list float64) : nat := length (filter (λ v, fless v x = true) values).

Lemma filter_all {A} (P : A → Prop) `{∀ x, Decision (P x)} l : Forall P l → filter P l = l.
Proof. induction 1; [done|]. rewrite filter_cons_True by done. by f_equal. Qed.

Lemma filter_none {A} (P : A → Prop) `{∀ x, Decision (P x)} l : Forall (λ x, ¬ P x) l → filter P l = [].
Proof. induction 1; [done|]. by rewrite filter_cons_False. Qed.

Lemma sorted_rank values (i : nat) x : Float64s values !! i = Some x →
  x ∈ values ∧ (count_lt x values ≤ i < count_le x values)%nat.
Proof.
  destruct (Float64s_spec values) as [Hs Hp]. intros Hx. split.
  { rewrite <- Hp. by eapply list_elem_of_lookup_2. }
  unfold count_le, count_lt. rewrite <- Hp. pose proof (lookup_lt_Some _ _ _ Hx) as Hi.
  apply take_drop_middle in Hx. rewrite <- Hx in Hs |- *. 
  assert (Hl : length (take i (Float64s values)) = i) by (rewrite length_take; lia).
  apply StronglySorted_app in Hs as (Hle & _ & Hr). apply StronglySorted_cons in Hr as [Hge _].
  rewrite !filter_app, !length_app. split.
  - rewrite (filter_none _ (x :: _)).
    + pose proof (length_filter (λ v, fless v x = true) (take i (Float64s values))). simpl. lia.
    + constructor; [by rewrite (fle_refl x)|]. eapply Forall_impl; [exact Hge|]. intros y Hy. unfold fle in Hy. congruence.
  - rewrite filter_all, filter_cons_True by (apply fle_refl || (apply Forall_forall; intros y Hy; apply Hle; set_solver)).
    simpl. lia.
Qed.

Lemma percentile_lookup values q : values ≠ [] →
  Float64s values !! Z.to_nat (percentile_index (length values) q) = Some (percentile (Float64s values) q).
Proof.
  intros Hv. destruct (Float64s_spec values) as [_ Hp]. pose proof (Permutation_length Hp) as Hl.
  assert (Hn : (0 < length values)%nat) by (destruct values; [done|simpl; lia]).
  destruct (lookup_lt_is_Some_2 (Float64s values) (Z.to_nat (percentile_index (length values) q))) as [x Hx].
  { rewrite Hl. pose proof (percentile_index_range (length values) q Hn). lia. }
  unfold percentile. rewrite Hl, Hx. by destruct (Float64s values) eqn:E; [rewrite lookup_nil in Hx|].
Qed.

Lemma percentile_index_exact num q n : quantile_of num q → 0 < num ≤ 1000 → (0 < n)%nat → Z.of_nat n ≤ 2 ^ 40 →
  percentile_index n q = nearest_rank num (Z.of_nat n) - 1.
Proof.
  intros Hq Hnum Hn Hb. unfold percentile_index. rewrite (rank_exact num) by (done || lia).
  pose proof (proj1 (nearest_rank_spec num (Z.of_nat n) _) eq_refl) as Hc. set (c := nearest_rank num (Z.of_nat n)) in *.
  assert (0 < c ≤ Z.of_nat n) by nia. rewrite wrap64_id by (unfold in_int64; lia).
  destruct (Z.ltb_spec (c - 1) 0); [lia|]. destruct (Z.leb_spec (Z.of_nat n) (c - 1)); lia.
Qed.

(** C34. The percentiles that [summarizeOperations] and [summarizeIntervals]
    report are sample quantiles, exactly, although the rank is computed in
    floating point with [.95], [.99] and [.999] rounded: for up to 2^40 values
    the percentile is one of the latencies, at least the fraction [num/1000] of
    the latencies are at most as large, and fewer than that fraction are
    smaller. *)
Theorem percentile_rank values num q :
  (num, q) ∈ [(500, p50); (950, p95); (990, p99); (999, p999)] → values ≠ [] → Z.of_nat (length values) ≤ 2 ^ 40 →
  let x := percentile (Float64s values) q in
  x ∈ values ∧
  num * Z.of_nat (length values) ≤ 1000 * Z.of_nat (count_le x values) ∧
  1000 * Z.of_nat (count_lt x values) < num * Z.of_nat (length values).
Proof.
  intros Hq Hv Hb. destruct quantiles as (H50 & H95 & H99 & H999).
  assert (Hnum : quantile_of num q ∧ 0 < num ≤ 1000).
  { rewrite !elem_of_cons in Hq. destruct Hq as [E|[E|[E|[E|E]]]]; [injection E as -> ->; (split; [done|lia])..|].
    by apply not_elem_of_nil in E. }
  destruct Hnum as [Hqn Hnum]. assert (Hn : (0 < length values)%nat) by (destruct values; [done|simpl; lia]).
  pose proof (percentile_lookup values q Hv) as Hx. rewrite (percentile_index_exact num) in Hx by done.
  apply sorted_rank in Hx as [Hin Hc]. split; [done|].
  pose proof (proj1 (nearest_rank_spec num (Z.of_nat (length values)) _) eq_refl).
  set (c := nearest_rank num (Z.of_nat (length values))) in *. assert (0 < c) by nia. lia.
Qed.

(** ** Intervals *)
Definition interval_width : Z := 100 * Millisecond.

(** The number of intervals is [total / width] rounded up, for up to 104 days. *)
Lemma interval_count_exact total : 0 < total < 2 ^ 53 →
  let count := interval_count interval_width total in
  0 < count < 2 ^ 53 ∧ (count - 1) * interval_width < total ≤ count * interval_width.
Proof.
  intros Ht. unfold interval_count. change interval_width with 100000000.
  destruct (div_int_round total 100000000 Ht ltac:(lia)) as (z & e & He & Hz & Hnear & ->). unfold nearest in Hnear.
  pose proof (pow2_pos e He) as Hp.
  assert (He26 : 2 ^ 26 ≤ 2 ^ e).
  { apply Z.pow_le_mono_r; [lia|]. destruct (Z.le_gt_cases 26 e); [done|].
    pose proof (Z.pow_le_mono_r 2 e 25 ltac:(lia) ltac:(lia)). nia. }
  set (E := 2 ^ e) in *. set (c := - (- total / 100000000)).
  assert (Hc : (c - 1) * 100000000 < total ≤ c * 100000000).
  { unfold c. pose proof (Z.div_mod (- total) 100000000 ltac:(lia)).
    pose proof (Z.mod_pos_bound (- total) 100000000 ltac:(lia)). lia. }
  assert (Hcb : 0 < c < 2 ^ 53) by nia.
  rewrite (int_ceil_pack z e c); [done|done|done| |done]. fold E. nia.
Qed.

Section accounting.
Context (width count : Z).
Implicit Types (records : list recordedOp) (record : recordedOp).

(** The successful records of an interval. *)
Definition in_interval (i : nat) record : Prop := success record = true ∧ interval_index width count record = Z.of_nat i.
#[local] Instance in_interval_dec i record : Decision (in_interval i record).
Proof. unfold in_interval. apply _. Defined.

Definition interval_records (i : nat) records : list recordedOp := filter (in_interval i) records.

Lemma interval_values_snoc records record : interval_values (records ++ [record]) width count =
  add_interval width count (interval_values records width count) record.
Proof. unfold interval_values. by rewrite foldl_app. Qed.

Lemma interval_values_lookup records (i : nat) : (i < Z.to_nat count)%nat →
  interval_values records width count !! i = Some (latencyUS <$> interval_records i records).
Proof.
  intros Hi. induction records as [|record records IH] using rev_ind.
  { unfold interval_values. simpl. by rewrite lookup_replicate_2. }
  rewrite interval_values_snoc. unfold add_interval, interval_records in *. rewrite filter_app, fmap_app.
  destruct ((0 <=? interval_index width count record) && success record) eqn:Hb.
  - apply andb_prop in Hb as [Hz Hs]. apply Z.leb_le in Hz.
    destruct (decide (Z.to_nat (interval_index width count record) = i)) as [Hk|Hk].
    + rewrite Hk, list_lookup_alter_eq, IH, filter_cons_True by (split; [done|lia]). done.
    + rewrite list_lookup_alter_ne by done. rewrite filter_cons_False by (intros [_ ?]; lia). by rewrite app_nil_r.
  - rewrite filter_cons_False, app_nil_r; [done|]. intros [Hs Hz]. rewrite Hs, Hz, andb_true_r in Hb.
    apply Z.leb_gt in Hb. lia.
Qed.

Lemma interval_values_length records : length (interval_values records width count) = Z.to_nat count.
Proof.
  induction records as [|record records IH] using rev_ind; [apply length_replicate|].
  rewrite interval_values_snoc. unfold add_interval. case_match; [by rewrite length_alter|done].
Qed.

Lemma sum_alter {A} (l : list (list A)) k x : (k < length l)%nat →
  sum_list_with length (alter (λ vs, vs ++ [x]) k l) = S (sum_list_with length l).
Proof.
  revert k. induction l as [|vs l IH]; intros k Hk; [simpl in Hk; lia|].
  destruct k as [|k]; simpl in *; [rewrite length_app; simpl; lia|].
  change (list_alter (λ vs0, vs0 ++ [x]) k l) with (alter (λ vs0, vs0 ++ [x]) k l). rewrite IH by lia. lia.
Qed.

Definition successes records : list recordedOp := filter (λ r, success r = true) records.

Lemma interval_values_sum records : 0 < width → 0 < count → Forall (λ r, 0 ≤ finished r) records →
  sum_list_with length (interval_values records width count) = length (successes records).
Proof.
  intros Hw Hc. induction records as [|record records IH] using rev_ind; intros Hf.
  { unfold interval_values. simpl. induction (Z.to_nat count); simpl; lia. }
  apply Forall_app in Hf as [Hf Hr]. apply Forall_cons in Hr as [Hr _].
  rewrite interval_values_snoc. unfold add_interval, successes in *. rewrite filter_app, length_app, <- IH by done.
  assert (Hq : 0 ≤ interval_index width count record < count).
  { unfold interval_index. pose proof (Z.quot_pos (finished record) width Hr Hw). case_match eqn:E; lia. }
  rewrite (proj2 (Z.leb_le 0 _)) by lia. simpl. destruct (success record) eqn:Hs.
  - rewrite sum_alter by (rewrite interval_values_length; lia). rewrite filter_cons_True by done. simpl. lia.
  - rewrite filter_cons_False by congruence. simpl. lia.
Qed.
End accounting.

Lemma filter_ext_Forall {A} (P Q : A → Prop) `{∀ x, Decision (P x)} `{∀ x, Decision (Q x)} l :
  Forall (λ x, P x ↔ Q x) l → filter P l = filter Q l.
Proof. induction 1 as [|x l Hx _ IH]; [done|]. rewrite !filter_cons, IH. by repeat case_decide; try tauto. Qed.

(** The records of interval [i] of [n], by their times. *)
Definition finished_in (i n : nat) (r : recordedOp) : Prop :=
  success r = true ∧ Z.of_nat i * interval_width ≤ finished r ∧
  (finished r < (Z.of_nat i + 1) * interval_width ∨ S i = n).
#[export] Instance finished_in_dec i n r : Decision (finished_in i n r).
Proof. unfold finished_in. apply _. Defined.

Lemma in_interval_time count (i : nat) r : 0 ≤ finished r → (i < Z.to_nat count)%nat →
  in_interval interval_width count i r ↔ finished_in i (Z.to_nat count) r.
Proof.
  intros Hf Hi. unfold in_interval, finished_in, interval_index. change interval_width with 100000000.
  rewrite Z.quot_div_nonneg by lia. pose proof (Z.div_mod (finished r) 100000000 ltac:(lia)).
  pose proof (Z.mod_pos_bound (finished r) 100000000 ltac:(lia)). case_match eqn:E; split; intros [Hs Hr]; (split; [done|]); lia.
Qed.

Lemma interval_metrics_bounds total (i : nat) values : 0 < total < 2 ^ 53 → Z.of_nat i * interval_width < total →
  let b := interval_metrics interval_width total i values in
  StartMS b = millis (Z.of_nat i * interval_width) ∧
  EndMS b = millis (Z.min ((Z.of_nat i + 1) * interval_width) total).
Proof.
  intros Ht Hi. simpl. change interval_width with 100000000 in *.
  rewrite !wrap64_id by (unfold in_int64; lia). split; [done|].
  f_equal. destruct (Z.ltb_spec total (Z.of_nat i * 100000000 + 100000000)); lia.
Qed.

Lemma sum_operations (f : nat → list float64 → IntervalMetrics) l :
  (∀ i values, Operations (f i values) = N.of_nat (length values)) →
  foldr (λ b k, (Operations b + k)%N) 0%N (imap f l) = N.of_nat (sum_list_with length l).
Proof.
  revert f. induction l as [|vs l IH]; intros f Hf; [done|]. rewrite imap_cons. simpl.
  rewrite IH, Hf; [lia|]. intros. apply Hf.
Qed.

Lemma summarizeIntervals_eq records total : 0 < total →
  summarizeIntervals records interval_width total = imap (interval_metrics interval_width total)
    (interval_values records interval_width (interval_count interval_width total)).
Proof.
  intros Ht. unfold summarizeIntervals.
  by rewrite (proj2 (Z.leb_gt interval_width 0)), (proj2 (Z.leb_gt total 0)) by (done || lia).
Qed.

Lemma intervals_sum records total : 0 < total < 2 ^ 53 → Forall (λ r, 0 ≤ finished r) records →
  foldr (λ b k, (Operations b + k)%N) 0%N (summarizeIntervals records interval_width total) =
    N.of_nat (length (successes records)).
Proof.
  intros Ht Hf. destruct (interval_count_exact total Ht) as [Hc _].
  rewrite <- (interval_values_sum interval_width (interval_count interval_width total)) by (done || lia).
  rewrite summarizeIntervals_eq by lia. apply sum_operations, interval_metrics_ops.
Qed.

(** The intervals of a workload: for a measured time of up to 104 days there
    are as many intervals of 100 ms as cover it, although their number is
    computed in floating point; together they count every successful
    operation once; and interval [i] runs from [i * 100 ms] to the start of the
    next, the last one to the end of the measured time, and summarises
    the operations that finished in it, the last one also those that
    finished later. *)
Lemma intervals_account records total : 0 < total < 2 ^ 53 → Forall (λ r, 0 ≤ finished r) records →
  let bs := summarizeIntervals records interval_width total in
  let n := length bs in
  (Z.of_nat n - 1) * interval_width < total ≤ Z.of_nat n * interval_width ∧
  foldr (λ b k, (Operations b + k)%N) 0%N bs = N.of_nat (length (successes records)) ∧
  ∀ i b, bs !! i = Some b →
    StartMS b = millis (Z.of_nat i * interval_width) ∧
    EndMS b = millis (Z.min ((Z.of_nat i + 1) * interval_width) total) ∧
    let values := latencyUS <$> filter (finished_in i n) records in
    Operations b = N.of_nat (length values) ∧ im_P99US b = percentile (Float64s values) p99.
Proof.
  intros Ht Hf bs n. destruct (interval_count_exact total Ht) as [Hc Hcov].
  set (count := interval_count interval_width total) in *.
  assert (Hbs : bs = imap (interval_metrics interval_width total) (interval_values records interval_width count))
    by (apply summarizeIntervals_eq; lia).
  assert (Hn : n = Z.to_nat count) by (unfold n; rewrite Hbs, length_imap; apply interval_values_length).
  split; [rewrite Hn; lia|]. split; [by apply intervals_sum|].
  intros i b Hb. rewrite Hbs, list_lookup_imap in Hb.
  assert (Hi : (i < Z.to_nat count)%nat).
  { apply fmap_Some in Hb as (vs & Hvs & _). rewrite <- (interval_values_length interval_width count records).
    by eapply lookup_lt_Some. }
  rewrite interval_values_lookup in Hb by done. injection Hb as <-. unfold interval_records.
  rewrite (filter_ext_Forall _ (finished_in i n)).
  2:{ rewrite Hn. eapply Forall_impl; [exact Hf|]. intros r Hr. by apply in_interval_time. }
  destruct (interval_metrics_bounds total i (latencyUS <$> filter (finished_in i n) records) Ht) as [-> ->].
  { assert (0 < interval_width) by done. nia. }
  split_and!; [done..|apply interval_metrics_ops|done].
Qed.
End summaries.

(** ** Witnesses *)
#[local] Instance zero_out_of_range : FloatToInt := λ _, 0%Z.

(** Latencies from 20 down to 1 microseconds. *)
Definition sample_latencies : list float64 := (λ i, of_int (20 - Z.of_nat i)) <$> seq 0 20.

Lemma percentile_rank_witness :
  let x := percentile (Float64s sample_latencies) p95 in
  x = of_int 19 ∧ x ∈ sample_latencies ∧
  (950 * Z.of_nat (length sample_latencies) ≤ 1000 * Z.of_nat (count_le x sample_latencies))%Z ∧
  (1000 * Z.of_nat (count_lt x sample_latencies) < 950 * Z.of_nat (length sample_latencies))%Z.
Proof.
  split; [vm_compute; reflexivity|]. apply (percentile_rank sample_latencies 950 p95).
  - apply elem_of_cons. right. apply elem_of_cons. by left.
  - discriminate.
  - simpl. lia.
Defined.

(** Two successes in the first interval, one after the end, and an error. *)
Definition sample_records : list recordedOp :=
  [mkOp §"GET" (of_int 7) 1000 true; mkOp §"SET" (of_int 9) 99999999 true; mkOp §"SET" (of_int 8) 150000000 false;
   mkOp §"GET" (of_int 5) 260000000 true].

Example intervals_account_sample :
  let bs := summarizeIntervals sample_records interval_width 250000000 in
  length bs = 3 ∧ foldr (λ b k, (Operations b + k)%N) 0%N bs = 3%N ∧
  ∀ b, bs !! 2 = Some b → StartMS b = millis 200000000 ∧ EndMS b = millis 250000000 ∧
    Operations b = N.of_nat (length [of_int 5]) ∧ im_P99US b = percentile (Float64s [of_int 5]) p99.
Proof.
  assert (Hf : Forall (λ r, (0 ≤ finished r)%Z) sample_records) by (repeat (constructor; [simpl; lia|]); constructor).
  destruct (intervals_account sample_records 250000000 ltac:(lia) Hf) as (Hn & Hs & Hi).
  split; [vm_compute; reflexivity|]. split; [exact Hs|]. intros b Hb. exact (Hi 2 b Hb).
Defined.

(** The source's own test: the values from 1 to 1000. *)
Example percentiles_test :
  let values := (λ i, of_int (Z.of_nat i)) <$> seq 1 1000 in
  percentile values <$> [p50; p95; p99; p999] = of_int <$> [500; 950; 990; 999]%Z.
Proof. vm_compute. reflexivity. Qed.
