(* ===== verification/Harness.v ===== *)
(** * The clusters of the benchmark harness (benchmarks/harness/cluster.go)

    The harness starts one or three server processes, stops and restarts them
    and collects what they used.  The arguments it passes to a server are
    parsed by the server's own flags, so that the two programs are verified
    against each other: every start is one the server accepts
    ([launches_accepted]), and a start of a cluster that fails leaves no process
    and no data behind ([start_cleans_up]). *)

From S2P Require Import Prelude GoLib Config CommandLine MemDB Identity Startup Float64 Workload.

(** ** Data *)
Abbreviation Deployment := gostring (only parsing).
Definition InMemorySingle : Deployment := §"in-memory-single".
Definition DurableSingle : Deployment := §"durable-single-voter".
Definition DurableThree : Deployment := §"durable-three-voter".

Record diskCounters := mkCounters { readBytes : N; writeBytes : N; counters_ok : bool }.

Record ProcessMetrics := mkMetrics {
  pm_Deployment : Deployment;
  pm_NodeID : gostring;
  pm_PID : Z;
  pm_CPUTimeMS : float64;
  pm_PeakRSSBytes : N;
  pm_DiskReadBytes : N;
  pm_DiskWriteBytes : N;
  pm_Missing : list gostring;
}.

(** [cmd] is the process ID while the process has been started and not been
    stopped.  What the sampling goroutines write into the node ([peakRSS],
    [diskEnd], [state]) is read only after the process has ended, and is
    computed there from what they have read ([Sampled]). *)
Record bench_node := mkBenchNode {
  node_id : gostring;
  respAddr : gostring;
  adminAddr : gostring;
  raftAddr : gostring;
  node_dir : gostring;
  bootstrap : bool;
  joinAddr : gostring;
  logPath : gostring;
  cmd : option N;
  diskStart : diskCounters;
}.

(** What was read about a process while it ran: outputs of ps and of /proc (with
    whether it could be read to its end), in the order in which the goroutines
    stored them; none if the command or the file failed. *)
Inductive Reading := ReadPS (output : option gostring) | ReadIO (file : option (gostring * bool)).

(** [os.ProcessState]: the processor time in nanoseconds, and [Maxrss] if the
    platform reports it. *)
Record ProcessState := mkProcessState { cpu_time : Z; maxrss : option Z }.

Record Sampled := mkSampled {
  readings : list Reading;
  process_state : option ProcessState;
}.

(** *** Sampling *)
Definition wrap_u64 (n : N) : N := (n mod 2 ^ 64)%N.

(** One line of /proc/<pid>/io; the flags are [foundRead] and [foundWrite]. *)
Definition disk_line (acc : N * N * bool * bool) (line : gostring) : N * N * bool * bool :=
  let '(r, w, foundRead, foundWrite) := acc in
  match Fields line with
  | [name; value] =>
      match ParseUint value with
      | Some n =>
          if bool_decide (name = §"read_bytes:") then (n, w, true, foundWrite)
          else if bool_decide (name = §"write_bytes:") then (r, n, foundRead, true) else acc
      | None => acc
      end
  | _ => acc
  end.

Definition readDiskCounters (file : option (gostring * bool)) : diskCounters :=
  match file with
  | None => mkCounters 0 0 false
  | Some (text, complete) =>
      let '(r, w, foundRead, foundWrite) := foldl disk_line (0%N, 0%N, false, false) (split_lines text) in
      mkCounters r w (complete && foundRead && foundWrite)
  end.

(** The output of ps is in KiB. *)
Definition processRSS (output : option gostring) : N :=
  match output with
  | Some text => match ParseUint (TrimSpace text) with Some kib => wrap_u64 (kib * 1024) | None => 0%N end
  | None => 0%N
  end.

(** What [sampleRSS], [stop] and the goroutine that waits for the process leave in
    the node: the largest memory seen, and the last complete counters. *)
Definition peakRSS (s : Sampled) : N :=
  foldl (λ peak r, match r with ReadPS output => N.max peak (processRSS output) | ReadIO _ => peak end) 0%N (readings s).
Definition diskEnd (s : Sampled) : diskCounters :=
  foldl (λ last r, match r with
                   | ReadIO file => let c := readDiskCounters file in if counters_ok c then c else last
                   | ReadPS _ => last
                   end) (mkCounters 0 0 false) (readings s).

(** What [filepath.WalkDir] shows to [directorySize]: an error, a directory, or
    another entry with its size, if [Info] gives one. *)
Inductive WalkEntry := WError | WDir | WFile (size : option N).

Definition directorySize (entries : list WalkEntry) : N :=
  foldl (λ total e, match e with WFile (Some size) => wrap_u64 (total + size) | _ => total end) 0%N entries.

(** The directory [snapshotSize] measures. *)
Definition snapshot_dir (n : bench_node) : gostring :=
  Path.Join [node_dir n; §"raft"; node_id n; §"snapshots"].

(** [walk root k]: the entries under [root] in the [k]th call to the outside. *)
Definition snapshotSize (walk : gostring → nat → list WalkEntry) (n : bench_node) (k : nat) : N :=
  directorySize (walk (snapshot_dir n) k).

(** A process the harness has started: the node and the arguments. *)
Record Launch := mkLaunch { launch_id : gostring; launch_args : list gostring }.

(** The fields of [cluster] that change, the processes started, the
    directories given to [os.RemoveAll] with whether they were removed, and the
    number of calls made to the outside. *)
Record cluster := mkCluster {
  dataRoot : option gostring;
  nodes : list bench_node;
  metrics : list ProcessMetrics;
  launches : list Launch;
  removed : list (gostring * bool);
  ext_calls : nat;
}.

Inductive HarnessError :=
| HMkdirTemp | HListen | HRunning | HSystem | HNotReady (addr : gostring) | HNotWritable
| HRange (index : Z) | HNoLeader | HValue (key addr : gostring) | HStart (id : gostring) (e : HarnessError) | HWait (id : gostring) (e : HarnessError).

Abbreviation HM := (GM cluster HarnessError).

(** The outside, by the number of the call: the number [os.MkdirTemp] appends,
    the port of a listener on 127.0.0.1:0, whether a system call succeeds, a
    process ID, disk counters, whether the clock is before the deadline, the
    response to a command, and what is known of an ended process; besides, which
    directories [os.RemoveAll] removes. *)
Record HEnv := {
  TempDir : gostring;
  mkdir_temp : nat → option N;
  listen : nat → option N;
  system_call : nat → bool;
  pid_of : nat → N;
  proc_io : nat → option (gostring * bool);
  on_linux : bool;
  before_deadline : nat → bool;
  response_to : list gostring → nat → option gostring;
  sampled : nat → Sampled;
  remove_all : gostring → bool;
}.

(** ** Operations *)
Section harness.
Context (env : HEnv) (deployment : Deployment) (logsDir : gostring) (keepData : bool).

Definition tick : HM nat := λ c,
  (Ok (ext_calls c), mkCluster (dataRoot c) (nodes c) (metrics c) (launches c) (removed c) (S (ext_calls c))).

Definition os_call : HM unit := k ← tick; if system_call env k then mret tt else throw HSystem.

Definition set_root (d : gostring) (c : cluster) : cluster :=
  mkCluster (Some d) (nodes c) (metrics c) (launches c) (removed c) (ext_calls c).
Definition set_bench_nodes (ns : list bench_node) (c : cluster) : cluster :=
  mkCluster (dataRoot c) ns (metrics c) (launches c) (removed c) (ext_calls c).
Definition add_metric (m : ProcessMetrics) (c : cluster) : cluster :=
  mkCluster (dataRoot c) (nodes c) (metrics c ++ [m]) (launches c) (removed c) (ext_calls c).
Definition add_launch (l : Launch) (c : cluster) : cluster :=
  mkCluster (dataRoot c) (nodes c) (metrics c) (launches c ++ [l]) (removed c) (ext_calls c).
Definition add_removed (d : gostring * bool) (c : cluster) : cluster :=
  mkCluster (dataRoot c) (nodes c) (metrics c) (launches c) (removed c ++ [d]) (ext_calls c).

(** The nodes are shared by reference: a node is its place in [nodes]. *)
Definition node_at (i : nat) : HM bench_node :=
  c ← getS; match nodes c !! i with Some n => mret n | None => gopanic end.
Definition set_bench_node (i : nat) (n : bench_node) : HM unit :=
  modifyS (λ c, set_bench_nodes (<[i := n]> (nodes c)) c).

(** *** Processes *)

Definition raft_deployment : bool := bool_decide (deployment ≠ InMemorySingle).

(** The arguments of the server. *)
Definition node_args (n : bench_node) : list gostring :=
  [§"--addr=" ++ respAddr n; §"--admin-addr=" ++ adminAddr n; §"--data-dir=" ++ node_dir n; §"--log-requests=false"] ++
  (if raft_deployment then
     [§"--enable-raft"; §"--raft-id=" ++ node_id n; §"--raft-addr=" ++ raftAddr n;
      §"--raft-advertise-addr=" ++ raftAddr n] ++
     (if bootstrap n then [§"--bootstrap"] else []) ++
     (if bool_decide (joinAddr n ≠ []) then [§"--join=" ++ joinAddr n] else [])
   else []).

(** [os.MkdirAll] twice, [os.OpenFile], [cmd.Start] *)
Definition spawn : HM nat := os_call;; os_call;; os_call;; os_call;; tick.

Definition node_start (i : nat) : HM unit :=
  n ← node_at i;
  match cmd n with
  | Some _ => throw HRunning
  | None =>
      k ← spawn;
      modifyS (add_launch (mkLaunch (node_id n) (node_args n)));;
      set_bench_node i (mkBenchNode (node_id n) (respAddr n) (adminAddr n) (raftAddr n) (node_dir n)
        (bootstrap n) (joinAddr n) (logPath n) (Some (pid_of env k)) (readDiskCounters (proc_io env k)))
  end.

Definition subtractCounter (stop_at start_at : N) : N :=
  if (stop_at <? start_at)%N then 0%N else (stop_at - start_at)%N.

(** The memory that the system reports for a process that has ended, in KiB on
    Linux and in bytes elsewhere. *)
Definition processStatePeakRSS (state : ProcessState) : N :=
  let rss := Z.to_N (default 0%Z (maxrss state)) in
  if on_linux env then wrap_u64 (rss * 1024) else rss.

Definition process_metrics (n : bench_node) (pid : N) (s : Sampled) : ProcessMetrics :=
  let '(cpu, peak, missing) :=
    match process_state s with
    | Some state => (millis (cpu_time state), N.max (processStatePeakRSS state) (peakRSS s), [])
    | None => (fzero, peakRSS s, [§"process CPU time"])
    end in
  let missing := missing ++ (if (peak =? 0)%N then [§"peak RSS"] else []) in
  if counters_ok (diskStart n) && counters_ok (diskEnd s) then
    mkMetrics deployment (node_id n) (Z.of_N pid) cpu peak
      (subtractCounter (readBytes (diskEnd s)) (readBytes (diskStart n)))
      (subtractCounter (writeBytes (diskEnd s)) (writeBytes (diskStart n)))
      (missing ++ [§"per-process disk operation counts unavailable on this platform"])
  else
    mkMetrics deployment (node_id n) (Z.of_N pid) cpu peak 0 0
      (missing ++ [§"per-process disk bytes/operations unavailable on this platform"]).

(** [stop] interrupts the process, kills it after five seconds, and waits for
    its end. *)
Definition node_stop (i : nat) : HM ProcessMetrics :=
  n ← node_at i;
  match cmd n with
  | None => mret (mkMetrics deployment (node_id n) 0 fzero 0 0 0 [§"process was not running"])
  | Some pid =>
      k ← tick;
      set_bench_node i (mkBenchNode (node_id n) (respAddr n) (adminAddr n) (raftAddr n) (node_dir n)
        false [] (logPath n) None (diskStart n));;
      mret (process_metrics n pid (sampled env k))
  end.

Definition in_range (index : Z) (c : cluster) : bool :=
  (0 <=? index)%Z && (index <? Z.of_nat (length (nodes c)))%Z.

Definition stopNode (index : Z) : HM unit :=
  c ← getS;
  if negb (in_range index c) then throw (HRange index)
  else m ← node_stop (Z.to_nat index); modifyS (add_metric m).

Fixpoint stop_from (i count : nat) : HM unit :=
  match count with
  | 0 => mret tt
  | S count =>
      n ← node_at i;
      (match cmd n with Some _ => m ← node_stop i; modifyS (add_metric m) | None => mret tt end);;
      stop_from (S i) count
  end.
Definition stopAll : HM unit := c ← getS; stop_from 0 (length (nodes c)).

Definition data_prefix : gostring := §"skiffdb-bench-data-".

(** The error of [os.RemoveAll] is dropped. *)
Definition cleanupData : HM unit :=
  if keepData then mret tt
  else
    c ← getS;
    match dataRoot c with
    | None => mret tt
    | Some root =>
        let clean := Path.Clean root in
        let temp := Path.Clean (TempDir env) in
        if bool_decide (Path.Dir clean = temp) && HasPrefix (Path.Base clean) data_prefix
        then modifyS (add_removed (clean, remove_all env clean)) else mret tt
    end.

(** *** Waiting

    [poll rounds attempt e] is the loop [for time.Now().Before(deadline)] with
    25 milliseconds of sleep after a failed attempt: after [rounds], the timeout
    in units of 25 milliseconds, the deadline has passed. *)
Fixpoint poll (rounds : nat) (attempt : HM bool) (e : HarnessError) : HM unit :=
  match rounds with
  | 0 => throw e
  | S rounds =>
      k ← tick;
      if before_deadline env k then
        ok ← attempt;
        if ok : bool then mret tt else poll rounds attempt e
      else throw e
  end.

(** [dialRESP] and one command *)
Definition request (args : list gostring) : HM (option gostring) := k ← tick; mret (response_to env args k).

Definition answers_with (prefix : gostring) (response : option gostring) : bool :=
  match response with Some s => HasPrefix s prefix | None => false end.

Definition waitForRESP (addr : gostring) (rounds : nat) : HM unit :=
  poll rounds (r ← request [§"PING"]; mret (answers_with §"+PONG" r)) (HNotReady addr).

(** The probe that [waitForWritable] and [findLeader] send to each running node
    in turn. *)
Fixpoint probe (i : nat) (ns : list bench_node) : HM (option nat) :=
  match ns with
  | [] => mret None
  | n :: ns =>
      match cmd n with
      | None => probe (S i) ns
      | Some _ =>
          k ← tick;
          r ← request [§"SET"; §"bench:leader-probe"; Itoa (Z.of_nat k)];
          if answers_with §"+OK" r then mret (Some i) else probe (S i) ns
      end
  end.

Definition waitForWritable (ns : list bench_node) (rounds : nat) : HM unit :=
  poll rounds (i ← probe 0 ns; mret (bool_decide (is_Some i))) HNotWritable.

Definition findLeader : HM nat :=
  c ← getS;
  i ← probe 0 (nodes c);
  match i with Some i => mret i | None => throw HNoLeader end.

(** *** The ports *)
Definition loopback (port : N) : gostring := §"127.0.0.1:" ++ udec (Z.of_N port).

(** The listeners stay open until all addresses are found. *)
Fixpoint reserve (fuel : nat) (count : nat) (ports : list gostring) : HM (list gostring) :=
  if bool_decide (length ports < count) then
    match fuel with
    | 0 => nofuel
    | S fuel =>
        k ← tick;
        match listen env k with
        | None => throw HListen
        | Some port =>
            let address := loopback port in
            if bool_decide (address ∈ ports) then reserve fuel count ports
            else reserve fuel count (ports ++ [address])
        end
    end
  else mret ports.
Definition reservePorts (count : nat) : HM (list gostring) := reserve count count [].

(** *** Starting a cluster *)
Definition nodeCount : nat := if bool_decide (deployment = DurableThree) then 3 else 1.

Definition bench_id (i : nat) : gostring := §"bench-node-" ++ Itoa (Z.of_nat (i + 1)).

Definition port_at (ports : list gostring) (k : nat) : HM gostring :=
  match ports !! k with Some p => mret p | None => gopanic end.

Definition new_node (root : gostring) (i : nat) (resp admin raft join : gostring) : bench_node :=
  mkBenchNode (bench_id i) resp admin raft
    (Path.Join [root; §"node-" ++ Itoa (Z.of_nat (i + 1))])
    (raft_deployment && bool_decide (i = 0)) join
    (Path.Join [logsDir; deployment ++ §"-node-" ++ Itoa (Z.of_nat (i + 1)) ++ §".log"])
    None (mkCounters 0 0 false).

(** One round of the loop of [startCluster]. *)
Definition start_one (root : gostring) (ports : list gostring) (i : nat) : HM unit :=
  resp ← port_at ports (i * 3);
  admin ← port_at ports (i * 3 + 1);
  raft ← port_at ports (i * 3 + 2);
  join ← (if raft_deployment && bool_decide (0 < i) then n0 ← node_at 0; mret (adminAddr n0) else mret []);
  modifyS (λ c, set_bench_nodes (nodes c ++ [new_node root i resp admin raft join]) c);;
  r ← catch (node_start i);
  match r with
  | inl e => throw (HStart (bench_id i) e)
  | inr _ =>
      r ← catch (waitForRESP resp 600);
      match r with
      | inl e => throw (HWait (bench_id i) e)
      | inr _ =>
          if bool_decide (i = 0) && raft_deployment
          then n ← node_at i; waitForWritable [n] 400
          else mret tt
      end
  end.

Fixpoint start_from (root : gostring) (ports : list gostring) (i count : nat) : HM unit :=
  match count with
  | 0 => mret tt
  | S count => start_one root ports i;; start_from root ports (S i) count
  end.

(** [cleanupOnError] *)
Definition cleanup_on_error (m : HM unit) : HM unit :=
  r ← catch m;
  match r with
  | inl e => stopAll;; cleanupData;; throw e
  | inr _ => mret tt
  end.

(** The name [os.MkdirTemp] makes. *)
Definition temp_path (number : N) : gostring :=
  TempDir env ++ (if HasSuffix (TempDir env) [Path.sep] then [] else [Path.sep]) ++
  data_prefix ++ udec (Z.of_N number).

Definition startCluster : HM unit :=
  k ← tick;
  match mkdir_temp env k with
  | None => throw HMkdirTemp
  | Some number =>
      let root := temp_path number in
      modifyS (set_root root);;
      cleanup_on_error (
        ports ← reservePorts (nodeCount * 3);
        start_from root ports 0 nodeCount;;
        c ← getS;
        waitForWritable (nodes c) 600)
  end.

Definition restartNode (index : Z) : HM unit :=
  c ← getS;
  if negb (in_range index c) then throw (HRange index)
  else
    let i := Z.to_nat index in
    n ← node_at i;
    node_start i;;
    waitForRESP (respAddr n) 600.

(** ** The life of a cluster: what the scenarios do with it, in any order. *)
Inductive hstep : cluster → cluster → Prop :=
| h_stop index c : hstep c (snd (stopNode index c))
| h_restart index c : hstep c (snd (restartNode index c))
| h_stop_all c : hstep c (snd (stopAll c))
| h_find_leader c : hstep c (snd (findLeader c))
| h_wait rounds c : hstep c (snd (waitForWritable (nodes c) rounds c)).

Definition no_cluster : cluster := mkCluster None [] [] [] [] 0.
End harness.

(** ** Names, addresses and directories *)
Lemma loopback_inj p q : loopback p = loopback q → p = q.
Proof. intros E%app_inv_head. apply udec_inj in E; lia. Qed.

Lemma digit_not_space d : is_digit d = true → no_head (map reverse space_encodings) d = true.
Proof. by destruct d as [[] [] [] [] [] [] [] []]. Qed.

Lemma loopback_trimmed p : TrimSpace (loopback p) = loopback p ∧ loopback p ≠ [].
Proof.
  split; [|done]. destruct (udec_spec (Z.of_N p)) as (Hne & Hd & _); [lia|].
  destruct (exists_last Hne) as (s & d & E). unfold loopback. rewrite E in Hd |- *.
  rewrite forallb_app in Hd. apply andb_prop in Hd as [_ Hd]. simpl in Hd. rewrite andb_true_r in Hd.
  eapply TrimSpace_fixed; [reflexivity|by rewrite app_assoc|reflexivity|by apply digit_not_space].
Qed.

Definition is_loopback (a : gostring) : Prop := ∃ p, a = loopback p.
Definition trimmed (a : gostring) : Prop := TrimSpace a = a ∧ a ≠ [].

Lemma is_loopback_trimmed a : is_loopback a → trimmed a.
Proof. intros [p ->]. apply loopback_trimmed. Qed.

Lemma bench_id_inj i j : i < 3 → j < 3 → bench_id i = bench_id j → i = j.
Proof. intros Hi Hj. destruct i as [|[|[|]]], j as [|[|[|]]]; try lia; by vm_compute. Qed.

Section directories.
Context (env : HEnv).

(** [os.TempDir()] is an absolute path without a separator at its end. *)
Definition temp_dir_ok : Prop :=
  Path.is_rooted (TempDir env) = true ∧ HasSuffix (TempDir env) [Path.sep] = false.

Definition temp_name_of (number : N) : gostring := data_prefix ++ udec (Z.of_N number).

Lemma temp_path_eq number : temp_dir_ok →
  temp_path env number = TempDir env ++ Path.sep :: temp_name_of number.
Proof. intros [_ H]. unfold temp_path. by rewrite H. Qed.

Lemma temp_name_plain number : Path.plain (temp_name_of number).
Proof.
  split_and!; [done..|]. intros [H|H]%elem_of_app; [by revert H; apply (bool_decide_unpack _)|].
  destruct (udec_spec (Z.of_N number)) as (_ & Hd & _); [lia|].
  apply Is_true_eq_left, forallb_True in Hd. rewrite Forall_forall in Hd. by apply Hd in H.
Qed.

(** The check of [cleanupData] lets the directory of the cluster pass. *)
Lemma temp_path_removable number : temp_dir_ok →
  let clean := Path.Clean (temp_path env number) in
  Path.Dir clean = Path.Clean (TempDir env) ∧ HasPrefix (Path.Base clean) data_prefix = true.
Proof.
  intros Ht clean. subst clean. pose proof (temp_name_plain number) as Hp. rewrite temp_path_eq by done.
  destruct (Path.Dir_Base_entry (TempDir env) _ (proj1 Ht) Hp) as [-> ->]. split; [done|].
  unfold HasPrefix. apply bool_decide_eq_true. by apply prefix_app_r.
Qed.

(** The directory of a node. *)
Lemma node_dir_trimmed number i : temp_dir_ok → i < 3 →
  trimmed (Path.Join [temp_path env number; §"node-" ++ Itoa (Z.of_nat (i + 1))]).
Proof.
  intros Ht Hi. rewrite temp_path_eq by done. set (y := §"node-" ++ _).
  assert (Hy : Path.plain y ∧ ∃ s d, y = s ++ [d] ∧ is_digit d = true).
  { subst y. destruct i as [|[|[|]]]; [..|lia];
      (split; [split_and!; [done..|by apply (bool_decide_unpack _)]|]); vm_compute;
      eexists ["n"; "o"; "d"; "e"; "-"]%char, _; split; reflexivity. }
  destruct Hy as [Hy (s & d & Es & Hd)]. destruct Ht as [Hr _].
  assert (Hne : TempDir env ≠ []) by (intros E; by rewrite E in Hr).
  unfold Path.Join. rewrite !filter_cons, !decide_True by (by destruct (TempDir env)) || apply Hy.
  rewrite filter_nil. cbn [Path.render]. rewrite <- app_assoc. cbn [app].
  rewrite Path.Clean_snoc by (done || apply temp_name_plain).
  assert (∃ r, Path.Clean (TempDir env ++ Path.sep :: temp_name_of number) = Path.sep :: r) as [r ->].
  { unfold Path.Clean, Path.finish. destruct (TempDir env) as [|c t] eqn:E; [done|].
    change (Path.is_rooted ((c :: t) ++ Path.sep :: temp_name_of number)) with (Path.is_rooted (c :: t)).
    rewrite Hr. by eexists. }
  split; [|done]. eapply TrimSpace_fixed; [reflexivity| |reflexivity|by apply digit_not_space].
  rewrite Es. instantiate (1 := (Path.sep :: r) ++ Path.sep :: s). by rewrite <- app_assoc.
Qed.
End directories.

(** ** What the server makes of the arguments *)
Section arguments.
Context (deployment : Deployment).
Implicit Types n : bench_node.
Abbreviation with_raft := (raft_deployment deployment).

Definition static_ok n : Prop :=
  (∃ i, i < 3 ∧ node_id n = bench_id i) ∧ trimmed (respAddr n) ∧ trimmed (adminAddr n) ∧
  trimmed (raftAddr n) ∧ trimmed (node_dir n).

(** The server listens, stores its data and takes part in Raft as the harness
    has recorded of the node; its snapshots are where the harness measures
    them. *)
Definition serves n (c : Config) : Prop :=
  EnableRaft c = with_raft ∧ ListenAddr c = respAddr n ∧ AdminAddr c = adminAddr n ∧
  GetDataDir c = node_dir n ∧ LogRequests c = false ∧
  (with_raft = true →
   GetRaftId c = node_id n ∧ RaftAddr c = raftAddr n ∧ GetRaftAdvertiseAddr c = raftAddr n ∧
   ∃ d, raftNodeDataDir (Some c) = inr d ∧ snapshot_dir n = d ++ Path.sep :: raftSnapshotDirectory).

(** The flags of a first start, and of a restart. *)
Definition fresh_flags n : Prop :=
  if bootstrap n then joinAddr n = [] else trimmed (joinAddr n).
Definition restart_flags n : Prop := bootstrap n = false ∧ joinAddr n = [].

Definition node_flags n : Flags :=
  if with_raft
  then mkFlags true (bootstrap n) (node_id n) (raftAddr n) (raftAddr n) (joinAddr n) (adminAddr n) (respAddr n)
         (node_dir n) [] false
  else mkFlags false false [] §":7000" [] [] (adminAddr n) (respAddr n) (node_dir n) [] false.

Lemma args_flags n : Parse (node_args deployment n) default_flags = Some (node_flags n).
Proof.
  unfold node_args, node_flags. destruct with_raft; [|reflexivity].
  destruct (bootstrap n), (joinAddr n) as [|c j] eqn:E; reflexivity.
Qed.

Lemma bench_id_fixed i : i < 3 → TrimSpace (bench_id i) = bench_id i.
Proof. intros Hi. destruct i as [|[|[|]]]; [..|lia]; reflexivity. Qed.

Lemma bench_id_plain i : i < 3 → Path.plain (bench_id i).
Proof. intros Hi. destruct i as [|[|[|]]]; [..|lia]; (split_and!; [done..|by apply (bool_decide_unpack _)]). Qed.

Lemma bench_id_accepted i c : i < 3 → GetRaftId c = bench_id i →
  raftNodeDataDir (Some c) = inr (Path.Join [GetDataDir c; §"raft"; bench_id i]).
Proof. intros Hi E. unfold raftNodeDataDir. rewrite E. destruct i as [|[|[|]]]; [..|lia]; reflexivity. Qed.

Lemma args_serve n : static_ok n → serves n (InitDBConfig (node_flags n)).
Proof.
  intros ((i & Hi & Hid) & [Hr _] & [Ha _] & [Hra Hrn] & [Hd Hdn]).
  assert (Hdir : GetDataDir (InitDBConfig (node_flags n)) = node_dir n).
  { unfold GetDataDir, node_flags. destruct with_raft; simpl; rewrite Hd; by rewrite bool_decide_false. }
  split_and!; [by unfold node_flags; destruct with_raft| | |done|by unfold node_flags; destruct with_raft|].
  1-2: unfold node_flags; by destruct with_raft.
  intros Hw. assert (E : GetRaftId (InitDBConfig (node_flags n)) = node_id n).
  { unfold GetRaftId, node_flags. rewrite Hw. simpl. by rewrite TrimSpace_idem, Hid, bench_id_fixed. }
  split_and!; [done|unfold node_flags; by rewrite Hw| |].
  { unfold GetRaftAdvertiseAddr, node_flags. rewrite Hw. simpl. rewrite !Hra. by rewrite bool_decide_true. }
  rewrite Hid in E. eexists. split; [by apply (bench_id_accepted i)|]. rewrite Hdir.
  unfold snapshot_dir, Path.Join. rewrite Hid. pose proof (bench_id_plain i Hi) as Hp.
  rewrite !filter_cons, !decide_True by (done || apply Hp). rewrite filter_nil. cbn [Path.render].
  assert (Ha' : ∀ t, node_dir n ++ Path.sep :: §"raft" ++ Path.sep :: t =
                     (node_dir n ++ Path.sep :: §"raft") ++ Path.sep :: t)
    by (intros t; by rewrite <- app_assoc).
  rewrite !Ha'. apply Path.Clean_snoc; [by destruct (node_dir n)|done|].
  split_and!; [done..|by apply (bool_decide_unpack _)].
Qed.

Lemma args_intent n (known : bool) : with_raft = true →
  (if known then restart_flags n else fresh_flags n) →
  validateRaftStartupIntent (InitDBConfig (node_flags n)) known = None.
Proof.
  intros Hw Hk. unfold validateRaftStartupIntent, node_flags. rewrite Hw. simpl. rewrite TrimSpace_idem.
  destruct known; [by destruct Hk as [-> ->]|]. unfold fresh_flags in Hk. destruct (bootstrap n); [by rewrite Hk|].
  destruct Hk as [-> Hn]. by rewrite bool_decide_true.
Qed.

(** ** The invariant *)

(** What a node never changes. *)
Definition place n : bench_node :=
  mkBenchNode (node_id n) (respAddr n) (adminAddr n) (raftAddr n) (node_dir n) false [] (logPath n) None
    (mkCounters 0 0 false).
Definition addresses n : list gostring := [respAddr n; adminAddr n; raftAddr n].

Definition launched (ls : list Launch) (id : gostring) : Prop := id ∈ launch_id <$> ls.
#[global] Instance launched_dec ls id : Decision (launched ls id).
Proof. unfold launched. apply _. Defined.

(** A node that runs has been started; one that does not has the flags its next
    start needs. *)
Definition node_ok (ls : list Launch) n : Prop :=
  match cmd n with
  | Some _ => launched ls (node_id n)
  | None => if bool_decide (launched ls (node_id n)) then restart_flags n
            else with_raft = true → fresh_flags n
  end.

Definition launch_ok (places : list bench_node) (pre : list Launch) (l : Launch) : Prop :=
  ∃ f n, Parse (launch_args l) default_flags = Some f ∧ n ∈ places ∧ node_id n = launch_id l ∧
    serves n (InitDBConfig f) ∧
    (with_raft = true →
     validateRaftStartupIntent (InitDBConfig f) (bool_decide (launched pre (launch_id l))) = None).

Record hinv (ns : list bench_node) (ls : list Launch) : Prop := {
  hi_launch pre l post : ls = pre ++ l :: post → launch_ok (place <$> ns) pre l;
  hi_nodes i n : ns !! i = Some n → i < 3 ∧ node_id n = bench_id i ∧ static_ok n ∧ node_ok ls n;
  hi_addresses : NoDup (ns ≫= addresses);
}.

Lemma bind_place ns : (place <$> ns) ≫= addresses = ns ≫= addresses.
Proof. induction ns as [|n ns IH]; [done|]. cbn. do 3 f_equal. exact IH. Qed.

Lemma place_insert (ns : list bench_node) i n n' : ns !! i = Some n → place n' = place n → place <$> <[i := n']> ns = place <$> ns.
Proof. intros Hi E. rewrite list_fmap_insert, E. apply list_insert_id. by rewrite list_lookup_fmap, Hi. Qed.

Lemma static_place n n' : place n' = place n → static_ok n → static_ok n' ∧ node_id n' = node_id n.
Proof. intros E. injection E as E1 E2 E3 E4 E5 _. unfold static_ok. by rewrite E1, E2, E3, E4, E5. Qed.

Lemma launches_snoc {A} (ls pre post : list A) l l' : ls ++ [l'] = pre ++ l :: post →
  (pre = ls ∧ l = l') ∨ ∃ post', ls = pre ++ l :: post'.
Proof.
  destruct (exists_last (l := l :: post)) as (post' & x & E); [done|]. rewrite E, app_assoc.
  intros [-> ->]%app_inj_tail. destruct post' as [|y post']; [left|right].
  - injection E as -> ->. by rewrite app_nil_r.
  - injection E as -> _. by exists post'.
Qed.

Lemma hinv_update ns ls i n n' : hinv ns ls → ns !! i = Some n → place n' = place n →
  node_ok ls n' → hinv (<[i := n']> ns) ls.
Proof.
  intros [H1 H2 H3] Hi Hp Hn. pose proof (place_insert ns i n n' Hi Hp) as Hpl. split.
  - intros pre l post E. rewrite Hpl. by eapply H1.
  - intros j m. rewrite list_lookup_insert_Some. intros [(<- & <- & _)|[_ Hj]]; [|by apply H2].
    destruct (H2 i n Hi) as (Hi3 & Hid & Hs & _). destruct (static_place n n' Hp Hs) as [Hs' ->]. done.
  - by rewrite <- bind_place, Hpl, bind_place.
Qed.

Lemma hinv_launch ns ls i n n' : hinv ns ls → ns !! i = Some n → cmd n = None →
  place n' = place n → is_Some (cmd n') →
  hinv (<[i := n']> ns) (ls ++ [mkLaunch (node_id n) (node_args deployment n)]).
Proof.
  intros Hv Hi Hc Hp [pid Hpid]. destruct (hi_nodes _ _ Hv i n Hi) as (Hi3 & Hid & Hs & Hok).
  destruct (static_place n n' Hp Hs) as [Hs' Hid']. pose proof (place_insert ns i n n' Hi Hp) as Hpl. split.
  - intros pre l post E. rewrite Hpl. destruct (launches_snoc _ _ _ _ _ E) as [[-> ->]|[post' ->]];
      [|by eapply (hi_launch _ _ Hv)].
    exists (node_flags n), (place n). split_and!; [apply args_flags| |done|by apply (args_serve n)|].
    + apply list_elem_of_fmap. exists n. split; [done|]. by apply list_elem_of_lookup_2 in Hi.
    + intros Hw. apply args_intent; [done|]. unfold node_ok in Hok. rewrite Hc in Hok. simpl.
      destruct (bool_decide _); [done|by apply Hok].
  - intros j m. rewrite list_lookup_insert_Some. intros [(<- & <- & _)|[Hne Hj]].
    + rewrite Hid'. split_and!; [done..|]. unfold node_ok. rewrite Hpid. unfold launched.
      rewrite fmap_app, Hid'. apply elem_of_app. right. by apply list_elem_of_singleton.
    + destruct (hi_nodes _ _ Hv j m Hj) as (Hj3 & Hjd & Hjs & Hjok). split_and!; [done..|].
      assert (Hiff : launched (ls ++ [mkLaunch (node_id n) (node_args deployment n)]) (node_id m) ↔ launched ls (node_id m)).
      { unfold launched. rewrite fmap_app, elem_of_app. split; [|by left]. intros [?|H]; [done|].
        apply list_elem_of_singleton in H. simpl in H. rewrite Hjd, Hid in H. by apply bench_id_inj in H. }
      unfold node_ok in *. rewrite (bool_decide_ext _ _ Hiff). destruct (cmd m); [by apply Hiff|done].
  - rewrite <- bind_place, Hpl, bind_place. apply Hv.
Qed.

Lemma hinv_append ns ls n : hinv ns ls → length ns < 3 → node_id n = bench_id (length ns) → static_ok n →
  cmd n = None → (with_raft = true → fresh_flags n) → NoDup ((ns ++ [n]) ≫= addresses) → hinv (ns ++ [n]) ls.
Proof.
  intros Hv Hl Hid Hs Hc Hf Hd. split; [| |done].
  - intros pre l post E. destruct (hi_launch _ _ Hv pre l post E) as (f & m & ? & Hm & ?).
    exists f, m. split_and!; [done| |naive_solver..]. rewrite fmap_app. apply elem_of_app. by left.
  - intros i m. rewrite lookup_app_Some. intros [Hi|[Hge Hi]]; [by apply Hv|].
    apply list_lookup_singleton_Some in Hi as [H0 <-]. assert (i = length ns) as -> by lia.
    split_and!; [done..|]. unfold node_ok. rewrite Hc, bool_decide_false; [done|].
    intros (l & Hnl & (pre & post & E)%list_elem_of_split)%list_elem_of_fmap.
    destruct (hi_launch _ _ Hv pre l post E) as (f & m & _ & Hm & Hml & _).
    apply list_elem_of_fmap in Hm as (m' & -> & (j & Hj)%list_elem_of_lookup_1).
    destruct (hi_nodes _ _ Hv j m' Hj) as (Hj3 & Hjd & _). simpl in Hml.
    assert (j = length ns) by (apply bench_id_inj; congruence). apply lookup_lt_Some in Hj. lia.
Qed.
End arguments.

(** ** The operations *)
Section operations.
Context (env : HEnv) (deployment : Deployment) (logsDir : gostring) (keepData : bool).
Implicit Types c : cluster.

Definition returns {A} (o : outcome HarnessError A) : Prop :=
  match o with Ok _ | Err _ => True | Panic | OutOfFuel => False end.

Definition set_calls (k : nat) c : cluster :=
  mkCluster (dataRoot c) (nodes c) (metrics c) (launches c) (removed c) k.

(** [quiet m]: [m] returns and changes nothing but the outside. *)
Definition quiet {A} (m : HM A) : Prop := ∀ c, ∃ o k, m c = (o, set_calls k c) ∧ returns o.

Lemma quiet_ret {A} (a : A) : quiet (mret a).
Proof. intros c. exists (Ok a), (ext_calls c). by destruct c. Qed.
Lemma quiet_throw {A} e : quiet (throw e : HM A).
Proof. intros c. exists (Err e), (ext_calls c). by destruct c. Qed.
Lemma quiet_tick : quiet tick.
Proof. intros c. by eexists _, _. Qed.
Lemma quiet_bind {A B} (m : HM A) (f : A → HM B) : quiet m → (∀ a, quiet (f a)) → quiet (m ≫= f).
Proof.
  intros Hm Hf c. destruct (Hm c) as (o & k & E & Ho). unfold mbind, GM_bind. rewrite E.
  destruct o as [a|e| |]; try done; [|by exists (Err e), k].
  destruct (Hf a (set_calls k c)) as (o & k' & E' & Ho'). exists o, k'. by rewrite E'.
Qed.

Ltac solve_quiet :=
  repeat first [ apply quiet_tick | apply quiet_ret | apply quiet_throw
               | apply quiet_bind; [|intros ?] | case_match | assumption ].

Lemma quiet_os_call : quiet (os_call env).
Proof. unfold os_call. solve_quiet. Qed.
Lemma quiet_request args : quiet (request env args).
Proof. unfold request. solve_quiet. Qed.
Lemma quiet_probe i ns : quiet (probe env i ns).
Proof.
  revert i. induction ns as [|n ns IH]; intros i; simpl; [apply quiet_ret|]. destruct (cmd n); [|apply IH].
  apply quiet_bind; [apply quiet_tick|intros k]. apply quiet_bind; [apply quiet_request|intros r].
  case_match; [apply quiet_ret|apply IH].
Qed.
Lemma quiet_poll rounds attempt e : quiet attempt → quiet (poll env rounds attempt e).
Proof. intros Ha. induction rounds as [|rounds IH]; simpl; solve_quiet. Qed.
Lemma quiet_waitForRESP addr rounds : quiet (waitForRESP env addr rounds).
Proof. apply quiet_poll. apply quiet_bind; [apply quiet_request|intros r; apply quiet_ret]. Qed.
Lemma quiet_waitForWritable ns rounds : quiet (waitForWritable env ns rounds).
Proof. apply quiet_poll. apply quiet_bind; [apply quiet_probe|intros r; apply quiet_ret]. Qed.

(** *** Starting and stopping a process *)
Lemma node_at_eq i c n : nodes c !! i = Some n → node_at i c = (Ok n, c).
Proof. intros E. unfold node_at, mbind, GM_bind, getS. by rewrite E. Qed.

Lemma quiet_spawn : quiet (spawn env).
Proof. pose proof quiet_os_call. unfold spawn. solve_quiet. Qed.

Lemma node_start_spec i c n : nodes c !! i = Some n →
  (∃ e k, node_start env deployment i c = (Err e, set_calls k c)) ∨
  (cmd n = None ∧ ∃ k n', place n' = place n ∧ is_Some (cmd n') ∧
   node_start env deployment i c =
     (Ok tt, mkCluster (dataRoot c) (<[i := n']> (nodes c)) (metrics c)
               (launches c ++ [mkLaunch (node_id n) (node_args deployment n)]) (removed c) k)).
Proof.
  intros Hi. unfold node_start. gm_step (node_at_eq i c n Hi). destruct (cmd n) eqn:Hc.
  { left. exists HRunning, (ext_calls c). by destruct c. }
  destruct (quiet_spawn c) as (o & k & E & Ho). destruct o as [j|e| |]; try done; [right|left].
  - split; [done|]. eexists k, _. split_and!; [..|gm_step E; reflexivity]; [done|by eexists].
  - exists e, k. by gm_step E.
Qed.

Definition stopped (n : bench_node) : bench_node :=
  mkBenchNode (node_id n) (respAddr n) (adminAddr n) (raftAddr n) (node_dir n) false [] (logPath n) None (diskStart n).

(** Stopping leaves the node stopped, whether it ran or not. *)
Lemma node_stop_spec i c n : nodes c !! i = Some n → ∃ m k n', place n' = place n ∧ cmd n' = None ∧
  node_stop env deployment i c =
    (Ok m, mkCluster (dataRoot c) (<[i := n']> (nodes c)) (metrics c) (launches c) (removed c) k) ∧
  (cmd n = None ∧ n' = n ∨ cmd n ≠ None ∧ n' = stopped n).
Proof.
  intros Hi. unfold node_stop. gm_step (node_at_eq i c n Hi). destruct (cmd n) as [pid|] eqn:Hc.
  - eexists _, (S (ext_calls c)), (stopped n). split_and!; [done|done|reflexivity|by right].
  - eexists _, (ext_calls c), n. split_and!; [done|done| |by left].
    rewrite list_insert_id by done. by destruct c.
Qed.

(** *** The invariant is kept *)
Definition cinv c : Prop := hinv deployment (nodes c) (launches c).
Definition keeps {A} (m : HM A) : Prop := ∀ c, cinv c → cinv (snd (m c)).

Lemma keeps_quiet {A} (m : HM A) : quiet m → keeps m.
Proof. intros Hm c Hc. destruct (Hm c) as (o & k & -> & _). exact Hc. Qed.

Lemma keeps_bind {A B} (m : HM A) (f : A → HM B) : keeps m → (∀ a, keeps (f a)) → keeps (m ≫= f).
Proof.
  intros Hm Hf c Hc. specialize (Hm c Hc). unfold mbind, GM_bind. destruct (m c) as [[a| | |] c']; try done.
  by apply Hf.
Qed.

Lemma keeps_getS {A} (f : cluster → HM A) : (∀ c, keeps (f c)) → keeps (getS ≫= f).
Proof. intros Hf c. apply Hf. Qed.

Lemma keeps_node_at i {A} (f : bench_node → HM A) : (∀ n, keeps (f n)) → keeps (node_at i ≫= f).
Proof.
  intros Hf c Hc. destruct (nodes c !! i) as [n|] eqn:E; [gm_step (node_at_eq i c n E); by apply Hf|].
  unfold node_at, mbind, GM_bind, getS. by rewrite E.
Qed.

Lemma keeps_add_metric m : keeps (modifyS (add_metric m)).
Proof. by intros c. Qed.

Lemma keeps_start i : keeps (node_start env deployment i).
Proof.
  intros c Hc. destruct (nodes c !! i) as [n|] eqn:Hi.
  - destruct (node_start_spec i c n Hi) as [(e & k & ->)|(Hn & k & n' & Hp & Hs & ->)]; [exact Hc|].
    by apply (hinv_launch _ _ _ _ n).
  - unfold node_start, node_at, mbind, GM_bind, getS. by rewrite Hi.
Qed.

Lemma stopped_ok ls n : node_ok deployment ls n → cmd n ≠ None → node_ok deployment ls (stopped n).
Proof.
  unfold node_ok. destruct (cmd n); [|done]. intros Hl _. simpl. by rewrite bool_decide_true.
Qed.

Lemma keeps_stop i : keeps (node_stop env deployment i).
Proof.
  intros c Hc. destruct (nodes c !! i) as [n|] eqn:Hi.
  - pose proof (hi_nodes _ _ _ Hc i n Hi) as (_ & _ & _ & Hok).
    destruct (node_stop_spec i c n Hi) as (m & k & n' & Hp & _ & -> & Hn).
    apply (hinv_update _ _ _ _ n); [done..|]. destruct Hn as [[_ ->]|[Hn ->]]; [done|by apply stopped_ok].
  - unfold node_stop, node_at, mbind, GM_bind, getS. by rewrite Hi.
Qed.

Lemma keeps_stop_metric i : keeps (m ← node_stop env deployment i; modifyS (add_metric m)).
Proof. apply keeps_bind; [apply keeps_stop|apply keeps_add_metric]. Qed.

Lemma keeps_stop_from i count : keeps (stop_from env deployment i count).
Proof.
  revert i. induction count as [|count IH]; intros i; simpl; [apply keeps_quiet, quiet_ret|].
  apply keeps_node_at. intros n. apply keeps_bind; [|intros _; apply IH].
  destruct (cmd n); [apply keeps_stop_metric|apply keeps_quiet, quiet_ret].
Qed.

Lemma keeps_restart index : keeps (restartNode env deployment index).
Proof.
  apply keeps_getS. intros c. case_match; [apply keeps_quiet, quiet_throw|]. apply keeps_node_at. intros n.
  apply keeps_bind; [apply keeps_start|]. intros _. apply keeps_quiet, quiet_waitForRESP.
Qed.

Lemma step_inv c c' : hstep env deployment c c' → cinv c → cinv c'.
Proof.
  intros [index c1|index c1|c1|c1|rounds c1].
  - apply keeps_getS. intros c2. case_match; [apply keeps_quiet, quiet_throw|apply keeps_stop_metric].
  - apply keeps_restart.
  - apply keeps_getS. intros c2. apply keeps_stop_from.
  - apply keeps_getS. intros c2. apply keeps_bind; [apply keeps_quiet, quiet_probe|]. intros [i|];
      [apply keeps_quiet, quiet_ret|apply keeps_quiet, quiet_throw].
  - apply keeps_quiet, quiet_waitForWritable.
Qed.

Lemma steps_inv c c' : rtc (hstep env deployment) c c' → cinv c → cinv c'.
Proof. induction 1; eauto using step_inv. Qed.

(** *** The ports *)

(** A port that an open listener holds is not given to another one. *)
Definition listeners_distinct : Prop :=
  ∀ j k p, j < k → listen env j = Some p → listen env k ≠ Some p.

Definition held_ports c (ports : list gostring) : Prop :=
  ∀ a, a ∈ ports → ∃ j p, j < ext_calls c ∧ listen env j = Some p ∧ a = loopback p.

Lemma reserve_spec fuel count ports c : listeners_distinct → count = length ports + fuel →
  NoDup ports → held_ports c ports →
  ∃ k, (∃ ports', reserve env fuel count ports c = (Ok ports', set_calls k c) ∧ length ports' = count ∧
                  NoDup ports' ∧ Forall is_loopback ports') ∨
       reserve env fuel count ports c = (Err HListen, set_calls k c).
Proof.
  intros Hd. revert ports c. induction fuel as [|fuel IH]; intros ports c Hc Hn Hh.
  - exists (ext_calls c). left. exists ports. simpl. rewrite bool_decide_false by lia.
    split_and!; [by destruct c|lia|done|]. apply Forall_forall. intros a (j & p & _ & _ & ->)%Hh. by exists p.
  - simpl. rewrite bool_decide_true by lia. unfold mbind, GM_bind, tick.
    destruct (listen env (ext_calls c)) as [p|] eqn:Hl; [|by exists (S (ext_calls c)); right].
    assert (Hnew : loopback p ∉ ports).
    { intros (j & q & Hj & Hq & ->%loopback_inj)%Hh. by apply (Hd j (ext_calls c) q). }
    rewrite bool_decide_false by done.
    destruct (IH (ports ++ [loopback p]) (set_calls (S (ext_calls c)) c)) as (k & H).
    + rewrite length_app. simpl. lia.
    + apply NoDup_app. split_and!; [done| |apply NoDup_singleton]. set_solver.
    + intros a [Ha|Ha]%elem_of_app.
      * destruct (Hh a Ha) as (j & q & Hj & Hq & ->). exists j, q. split_and!; [simpl; lia|done|done].
      * apply list_elem_of_singleton in Ha as ->. exists (ext_calls c), p. split_and!; [simpl; lia|done|done].
    + exists k. destruct H as [(ports' & E & ?)|E]; [left; exists ports'; split; [exact E|done]|right; exact E].
Qed.

(** *** Starting a cluster *)
Section starting_cluster.
Context (number : N) (ports : list gostring).
Context (Htemp : temp_dir_ok env) (Hdup : NoDup ports) (Hloop : Forall is_loopback ports).
Context (Hlen : length ports = nodeCount deployment * 3).
Abbreviation root := (temp_path env number).
Abbreviation with_raft := (raft_deployment deployment).

(** The cluster has its directory, and it is still there. *)
Definition rooted c : Prop := cinv c ∧ dataRoot c = Some root ∧ removed c = [].

(** [i] nodes run, on the first ports. *)
Definition progress (i : nat) c : Prop :=
  rooted c ∧ length (nodes c) = i ∧ nodes c ≫= addresses = take (i * 3) ports ∧
  Forall (λ n, is_Some (cmd n)) (nodes c).

Lemma nodeCount_bound : nodeCount deployment ≤ 3.
Proof. unfold nodeCount. case_bool_decide; lia. Qed.

Lemma port_at_eq k a c : ports !! k = Some a → port_at ports k c = (Ok a, c).
Proof. intros E. unfold port_at. by rewrite E. Qed.

(** The address the node is to join. *)
Lemma join_addr i c : progress i c → ∃ join,
  (if with_raft && bool_decide (0 < i) then n0 ← node_at 0; mret (adminAddr n0) else mret []) c = (Ok join, c) ∧
  (with_raft = true → if bool_decide (i = 0) then join = [] else trimmed join).
Proof.
  intros ((Hc & _) & Hl & _). destruct with_raft; [|by exists []]. simpl.
  destruct i as [|i]; [by exists []|]. rewrite bool_decide_true by lia.
  destruct (nodes c !! 0) as [n0|] eqn:E; [|apply lookup_ge_None in E; lia].
  exists (adminAddr n0). split; [by gm_step (node_at_eq 0 c n0 E)|].
  destruct (hi_nodes _ _ _ Hc 0 n0 E) as (_ & _ & (_ & _ & Ha & _) & _). intros _. by rewrite bool_decide_false.
Qed.

(** A new node is added to the cluster. *)
Lemma add_node i c a1 a2 a3 join : progress i c → i < nodeCount deployment →
  ports !! (i * 3) = Some a1 → ports !! (i * 3 + 1) = Some a2 → ports !! (i * 3 + 2) = Some a3 →
  (with_raft = true → if bool_decide (i = 0) then join = [] else trimmed join) →
  let n := new_node deployment logsDir root i a1 a2 a3 join in
  let c' := set_bench_nodes (nodes c ++ [n]) c in
  rooted c' ∧ nodes c' !! i = Some n ∧ nodes c' ≫= addresses = take (S i * 3) ports.
Proof.
  intros ((Hc & Hr) & Hl & Ha & _) Hi E1 E2 E3 Hj n c'. pose proof nodeCount_bound as Hb.
  assert (Htake : nodes c' ≫= addresses = take (S i * 3) ports).
  { simpl. rewrite bind_app, Ha.
    rewrite (take_S_r _ _ a3), (take_S_r _ _ a2), (take_S_r _ _ a1);
      [by rewrite <- !app_assoc|done|by rewrite <- E2; f_equal; lia|by rewrite <- E3; f_equal; lia]. }
  rewrite Forall_forall in Hloop. assert (Ht : ∀ k a, ports !! k = Some a → trimmed a)
    by (intros k a ?%list_elem_of_lookup_2; by apply is_loopback_trimmed, Hloop).
  split_and!; [|simpl; rewrite lookup_app_r by lia; by rewrite Hl, Nat.sub_diag|done]. split; [|done].
  apply hinv_append; [done|lia|simpl; by rewrite Hl| |done| |].
  - split_and!; [exists i; split; [lia|done]|by eapply Ht..|]. apply node_dir_trimmed; [done|lia].
  - intros Hw. unfold fresh_flags, n. simpl. rewrite Hw. specialize (Hj Hw). simpl. by case_bool_decide.
  - change (NoDup (nodes c' ≫= addresses)). rewrite Htake.
    rewrite <- (take_drop (S i * 3) ports) in Hdup. by apply NoDup_app in Hdup as [? _].
Qed.

(** The waiting after a node was started. *)
Lemma wait_started i c addr n : nodes c !! i = Some n → ∃ o k,
  (r ← catch (waitForRESP env addr 600);
   match r with
   | inl e => throw (HWait (bench_id i) e)
   | inr _ => if bool_decide (i = 0) && with_raft then n ← node_at i; waitForWritable env [n] 400 else mret tt
   end) c = (o, set_calls k c) ∧ returns o.
Proof.
  intros Hn. destruct (quiet_waitForRESP addr 600 c) as (o & k & E & Ho).
  unfold catch, mbind at 1, GM_bind at 1. rewrite E. destruct o as [[]|e| |]; try done; [|by eexists _, k].
  destruct (bool_decide (i = 0) && with_raft); [|by eexists _, k].
  rewrite (gm_bind_ok _ _ _ _ _ (node_at_eq i (set_calls k c) n Hn)).
  destruct (quiet_waitForWritable [n] 400 (set_calls k c)) as (o & k' & E' & Ho'). exists o, k'. by rewrite E'.
Qed.

Lemma start_one_spec i c : progress i c → i < nodeCount deployment →
  ∃ o c', start_one env deployment logsDir root ports i c = (o, c') ∧ rooted c' ∧
    ((o = Ok tt ∧ progress (S i) c') ∨ ∃ e, o = Err e).
Proof.
  intros Hp Hi.
  destruct (lookup_lt_is_Some_2 ports (i * 3)) as [a1 E1]; [lia|].
  destruct (lookup_lt_is_Some_2 ports (i * 3 + 1)) as [a2 E2]; [lia|].
  destruct (lookup_lt_is_Some_2 ports (i * 3 + 2)) as [a3 E3]; [lia|].
  destruct (join_addr i c Hp) as (join & Ej & Hj).
  destruct (add_node i c a1 a2 a3 join Hp Hi E1 E2 E3 Hj) as (Hr & Hn & Ha).
  set (n := new_node _ _ _ _ _ _ _ _) in *. set (c1 := set_bench_nodes _ _) in *.
  unfold start_one. gm_step (port_at_eq _ _ c E1). gm_step (port_at_eq _ _ c E2). gm_step (port_at_eq _ _ c E3).
  gm_step Ej. rewrite gm_bind_modifyS. fold n. fold c1.
  destruct (node_start_spec i c1 n Hn) as [(e & k & Es)|(_ & k & n' & Hpl & Hc' & Es)].
  { exists (Err (HStart (bench_id i) e)), (set_calls k c1). split_and!; [|done|by right; eexists].
    unfold catch, mbind, GM_bind. by rewrite Es. }
  pose proof (keeps_start i c1 (proj1 Hr)) as Hk. rewrite Es in Hk. set (c2 := mkCluster _ _ _ _ _ _) in *.
  assert (Hr2 : rooted c2) by (split; [exact Hk|apply Hr]).
  assert (Hp2 : progress (S i) c2).
  { destruct Hp as (_ & Hl & _ & Hrun). split_and!; [done| | |].
    - simpl. rewrite length_insert, length_app, Hl. simpl. lia.
    - rewrite <- Ha, <- bind_place. simpl. by rewrite (place_insert _ i n n'), bind_place.
    - simpl. rewrite <- Hl, <- (Nat.add_0_r (length _)), insert_app_r. apply Forall_app. by split; [|constructor]. }
  destruct (wait_started i c2 a1 n') as (o & k' & E & Ho).
  { simpl. apply list_lookup_insert_eq. apply lookup_lt_Some in Hn. exact Hn. }
  exists o, (set_calls k' c2). split_and!; [|exact Hr2|].
  - assert (Ec : catch (node_start env deployment i) c1 = (Ok (inr tt), c2)) by (unfold catch; by rewrite Es).
    gm_step Ec. exact E.
  - destruct o as [[]|e| |]; [left|right; by eexists|done..]. by split.
Qed.

Lemma start_from_spec count i c : progress i c → i + count = nodeCount deployment →
  ∃ o c', start_from env deployment logsDir root ports i count c = (o, c') ∧ rooted c' ∧
    ((o = Ok tt ∧ progress (nodeCount deployment) c') ∨ ∃ e, o = Err e).
Proof.
  revert i c. induction count as [|count IH]; intros i c Hp Hi.
  - eexists _, c. split_and!; [reflexivity|apply Hp|left]. split; [done|]. by rewrite <- Hi, Nat.add_0_r.
  - destruct (start_one_spec i c Hp) as (o & c1 & E & Hr & [[-> Hp1]|[e ->]]); [lia| |].
    + destruct (IH (S i) c1 Hp1) as (o & c2 & E2 & H2); [lia|]. exists o, c2. split; [|done].
      simpl. by gm_step E.
    + eexists _, c1. split_and!; [simpl; by gm_step E|done|right; by eexists].
Qed.
End starting_cluster.

(** *** Stopping all *)
Lemma stop_from_spec count i c : i + count = length (nodes c) →
  (∀ j n, j < i → nodes c !! j = Some n → cmd n = None) →
  ∃ c', stop_from env deployment i count c = (Ok tt, c') ∧ dataRoot c' = dataRoot c ∧ removed c' = removed c ∧
    Forall (λ n, cmd n = None) (nodes c').
Proof.
  revert i c. induction count as [|count IH]; intros i c Hi Hb.
  - exists c. split_and!; [done..|]. apply Forall_lookup. intros j n Hj. apply (Hb j); [|done].
    apply lookup_lt_Some in Hj. lia.
  - destruct (lookup_lt_is_Some_2 (nodes c) i) as [n Hn]; [lia|]. simpl. gm_step (node_at_eq i c n Hn).
    destruct (cmd n) as [pid|] eqn:Hc.
    + destruct (node_stop_spec i c n Hn) as (m & k & n' & _ & Hn' & E & _).
      assert (E' : (m ← node_stop env deployment i; modifyS (add_metric m)) c =
        (Ok tt, add_metric m (mkCluster (dataRoot c) (<[i := n']> (nodes c)) (metrics c) (launches c) (removed c) k)))
        by (by gm_step E).
      gm_step E'. match goal with |- context [stop_from _ _ _ _ ?c1] => destruct (IH (S i) c1) as (c' & H) end;
        [simpl; rewrite length_insert; lia| |by exists c'].
      intros j m' Hj [(_ & <- & _)|[Hne Hm]]%list_lookup_insert_Some; [done|]. apply (Hb j); [lia|done].
    + rewrite gm_bind_ret. apply (IH (S i)); [lia|]. intros j m Hj Hm.
      destruct (decide (j = i)) as [->|]; [congruence|]. apply (Hb j); [lia|done].
Qed.

(** *** What [startCluster] leaves *)
Definition start_result (o : outcome HarnessError unit) c : Prop :=
  match o with
  | Ok _ => length (nodes c) = nodeCount deployment ∧ Forall (λ n, is_Some (cmd n)) (nodes c) ∧ removed c = []
  | Err _ => Forall (λ n, cmd n = None) (nodes c) ∧
             (keepData = false → removed c = option_list ((λ root, let clean := Path.Clean root in
                                                             (clean, remove_all env clean)) <$> dataRoot c))
  | Panic | OutOfFuel => False
  end.

Lemma cleanup_spec number (m : HM unit) c o c1 : temp_dir_ok env → m c = (o, c1) → rooted number c1 →
  (o = Ok tt ∧ length (nodes c1) = nodeCount deployment ∧ Forall (λ n, is_Some (cmd n)) (nodes c1)) ∨
  (∃ e, o = Err e) →
  ∃ o' c', cleanup_on_error env deployment keepData m c = (o', c') ∧ cinv c' ∧ start_result o' c'.
Proof.
  intros Ht E (Hc & Hroot & Hrem) [(-> & Hl & Hrun)|[e ->]]; unfold cleanup_on_error.
  - exists (Ok tt), c1. split_and!; [|done|done]. unfold catch, mbind, GM_bind. by rewrite E.
  - destruct (stop_from_spec (length (nodes c1)) 0 c1) as (c2 & E2 & Hroot2 & Hrem2 & Hst); [lia|lia|].
    assert (Hc2 : cinv c2) by (pose proof (keeps_stop_from 0 (length (nodes c1)) c1 Hc) as H; by rewrite E2 in H).
    assert (Ec : catch m c = (Ok (inl e), c1)) by (unfold catch; by rewrite E). gm_step Ec.
    assert (E3 : stopAll env deployment c1 = (Ok tt, c2)) by exact E2. gm_step E3.
    destruct keepData eqn:Hk.
    { exists (Err e), c2. split_and!; [done|done|]. split; [done|]. by rewrite Hk. }
    rewrite Hroot in Hroot2. destruct (temp_path_removable env number Ht) as [Hd Hb].
    assert (E4 : cleanupData env false c2 = (Ok tt, add_removed (let clean := Path.Clean (temp_path env number) in (clean, remove_all env clean)) c2)).
    { unfold cleanupData. rewrite gm_bind_getS, Hroot2. cbv zeta. by rewrite bool_decide_true, Hb by done. }
    gm_step E4. exists (Err e). eexists. split_and!; [reflexivity|exact Hc2|]. split; [exact Hst|].
    intros _. simpl. by rewrite Hrem2, Hrem, Hroot2.
Qed.

Lemma startCluster_spec : listeners_distinct → temp_dir_ok env →
  ∃ o c, startCluster env deployment logsDir keepData no_cluster = (o, c) ∧ cinv c ∧ start_result o c.
Proof.
  intros Hd Ht. assert (H0 : ∀ r k, cinv (mkCluster r [] [] [] [] k)).
  { intros r k. split; [by intros []|done|apply NoDup_nil_2]. }
  unfold startCluster. gm_step (eq_refl : tick no_cluster = (Ok 0, set_calls 1 no_cluster)).
  destruct (mkdir_temp env 0) as [number|]; [|].
  2:{ exists (Err HMkdirTemp), (set_calls 1 no_cluster). by split_and!; [|apply H0|split]. }
  rewrite gm_bind_modifyS. set (c0 := set_root _ _).
  destruct (reserve_spec (nodeCount deployment * 3) (nodeCount deployment * 3) [] c0 Hd) as
    (k & [(ports & E & Hlen & Hdup & Hloop)|E]); [done|apply NoDup_nil_2|by intros a ?%elem_of_nil| |].
  - assert (Hp : progress number ports 0 (set_calls k c0)) 
      by (split; [split_and!; [apply H0|done|done]|split_and!; [done|done|constructor]]).
    destruct (start_from_spec number ports Ht Hdup Hloop Hlen (nodeCount deployment) 0 _ Hp) as
      (o & c1 & E1 & Hr & Ho); [done|]. destruct Ho as [[-> Hp1]|[e ->]].
    + destruct (quiet_waitForWritable (nodes c1) 600 c1) as (o & k' & E2 & Ho).
      apply (cleanup_spec number _ c0 o (set_calls k' c1)); [done| |exact Hr|].
      * unfold reservePorts. gm_step E. gm_step E1. by rewrite gm_bind_getS.
      * destruct o as [[]|e| |]; [left|right; by eexists|done..]. destruct Hp1 as (_ & ? & _ & ?). done.
    + apply (cleanup_spec number _ c0 (Err e) c1); [done| |done|right; by eexists].
      unfold reservePorts. gm_step E. by gm_step E1.
  - apply (cleanup_spec number _ c0 (Err HListen) (set_calls k c0)); [done| | |right; by eexists].
    + unfold reservePorts. by gm_step E.
    + split_and!; [apply H0|done..].
Qed.
End operations.

(** ** Theorems *)
Section theorems.
Context (env : HEnv) (deployment : Deployment) (logsDir : gostring) (keepData : bool).
Implicit Types c : cluster.

(** C28.  Every start of a server is one the server accepts.  Whatever the
    scenarios do with a cluster, in any order and whatever fails, the arguments
    of every process that was started parse; the resulting configuration is that
    of the node the harness has recorded, its snapshots lie where the harness
    measures them; and with Raft the server's check of its flags lets it pass, as
    a new node at the first start and as a restarted one afterwards.  No two
    nodes of a cluster share an address. *)
Theorem launches_accepted o c1 c pre l post : listeners_distinct env → temp_dir_ok env →
  startCluster env deployment logsDir keepData no_cluster = (o, c1) → rtc (hstep env deployment) c1 c →
  launches c = pre ++ l :: post →
  NoDup (nodes c ≫= addresses) ∧
  ∃ f n, Parse (launch_args l) default_flags = Some f ∧ n ∈ nodes c ∧ node_id n = launch_id l ∧
    serves deployment n (InitDBConfig f) ∧
    (EnableRaft (InitDBConfig f) = true →
     validateRaftStartupIntent (InitDBConfig f) (bool_decide (launched pre (launch_id l))) = None).
Proof.
  intros Hd Ht E Hr Hl. destruct (startCluster_spec env deployment logsDir keepData Hd Ht) as (o' & c' & E' & Hc & _).
  rewrite E in E'. injection E' as <- <-. pose proof (steps_inv _ _ _ _ Hr Hc) as Hv. split; [apply Hv|].
  destruct (hi_launch _ _ _ Hv pre l post Hl) as (f & n & Hf & Hn & Hid & Hs & Hi).
  apply list_elem_of_fmap in Hn as (n' & -> & Hn). exists f, n'. split_and!; [done..|].
  intros He. apply Hi. rewrite <- He. symmetry. apply Hs.
Qed.

(** A cluster starts completely or not at all.  [startCluster] returns; on
    success all nodes of the deployment run; on an error no process it started
    is left running, and [os.RemoveAll] was called on the directory it made unless
    the data is to be kept. *)
Lemma start_cleans_up : listeners_distinct env → temp_dir_ok env →
  let '(o, c) := startCluster env deployment logsDir keepData no_cluster in
  match o with
  | Ok _ => length (nodes c) = nodeCount deployment ∧ Forall (λ n, is_Some (cmd n)) (nodes c) ∧ removed c = []
  | Err _ => Forall (λ n, cmd n = None) (nodes c) ∧
             (keepData = false → removed c = option_list ((λ root, let clean := Path.Clean root in
                                                             (clean, remove_all env clean)) <$> dataRoot c))
  | Panic | OutOfFuel => False
  end.
Proof.
  intros Hd Ht. destruct (startCluster_spec env deployment logsDir keepData Hd Ht) as (o & c & -> & _ & H). exact H.
Qed.
End theorems.

(** ** Witnesses: a machine on which everything works, and one on which the
    servers do not answer *)
Definition machine (responds : bool) : HEnv := {|
  TempDir := §"/tmp";
  mkdir_temp _ := Some 7%N;
  listen k := Some (N.of_nat k + 100)%N;
  system_call _ := true;
  pid_of k := N.of_nat k;
  proc_io _ := None;
  on_linux := true;
  before_deadline _ := true;
  response_to args _ :=
    if responds then Some (if bool_decide (args = [§"PING"]) then §"+PONG" ++ CRLF else §"+OK" ++ CRLF) else None;
  sampled _ := mkSampled [] None;
  remove_all _ := true;
|}.

Lemma machine_distinct b : listeners_distinct (machine b).
Proof. intros j k p Hj [= <-] [=]. lia. Qed.

Lemma machine_temp b : temp_dir_ok (machine b).
Proof. by split. Qed.

(** The second node of a cluster of three is stopped and started again. *)
Definition three : cluster := snd (startCluster (machine true) DurableThree §"logs" false no_cluster).
Definition restarted : cluster :=
  snd (restartNode (machine true) DurableThree 1 (snd (stopNode (machine true) DurableThree 1 three))).
Definition second_launch : Launch :=
  mkLaunch §"bench-node-2"
    [§"--addr=127.0.0.1:104"; §"--admin-addr=127.0.0.1:105"; §"--data-dir=/tmp/skiffdb-bench-data-7/node-2";
     §"--log-requests=false"; §"--enable-raft"; §"--raft-id=bench-node-2"; §"--raft-addr=127.0.0.1:106";
     §"--raft-advertise-addr=127.0.0.1:106"].

Lemma launches_accepted_witness :
  NoDup (nodes restarted ≫= addresses) ∧
  ∃ f n, Parse (launch_args second_launch) default_flags = Some f ∧ n ∈ nodes restarted ∧
    node_id n = launch_id second_launch ∧ serves DurableThree n (InitDBConfig f) ∧
    (EnableRaft (InitDBConfig f) = true → validateRaftStartupIntent (InitDBConfig f)
       (bool_decide (launched (take 3 (launches restarted)) (launch_id second_launch))) = None).
Proof.
  apply (launches_accepted (machine true) DurableThree §"logs" false (Ok tt) three restarted
           (take 3 (launches restarted)) second_launch [] (machine_distinct true) (machine_temp true)).
  - vm_compute. reflexivity.
  - eapply rtc_l; [exact (h_stop (machine true) DurableThree 1 three)|].
    apply rtc_once. exact (h_restart (machine true) DurableThree 1 _).
  - vm_compute. reflexivity.
Defined.

