(* ===== verification/Process.v ===== *)
(** * The server process (main.go, [InitRaft] and [InitRESPTCPServer])

    [main] starts the admin server and the database server and waits for both;
    goroutines serve, and others wait for the signal that stops them.  The
    process is a transition system: one rule per step of a goroutine, at the
    grain at which the code takes locks.  In particular a command of a client
    is routed, checked for leadership and executed in separate steps
    ([executeRESPCmd]), with the steps of the shutdown in between.

    The properties: [main] returns only after Raft was shut down and both servers
    have stopped; after the signal the process keeps moving to its end; writes go
    through the log until Raft is shut down, and after that no longer. *)

From S2P Require Import Prelude GoLib Resp MemDB CmdExecutor Utf8 Json Fsm RespServer Membership Config Identity Startup.
Import Build MemDB.

(** ** The state *)
Inductive Exit := ExitOK | ExitFatal.

(** Where [main] is. *)
Inductive MainPC := MConfig | MInitRaft | MInitResp | MWait | MReturned.

(** The goroutine of the admin server: [s.Serve], then [ShutdownRaft], then the
    deferred [wg.Done]. *)
Inductive AdminPC := AdNone | AdServing | AdReturned | AdShut | AdDone.

(** The goroutine of the accept loop. *)
Inductive AcceptPC := AcNone | AcLoop | AcDone.

(** A goroutine that waits for the end of the context. *)
Inductive WatchPC := WNone | WWaiting | WDone.

(** A connection: reading its next command, or between two steps of
    [executeRESPCmd].  [logged] tells whether the command went through the log. *)
Inductive ConnPC :=
| CRead
| CWrite (cmd : Cmd)                (** a write, and Raft was enabled *)
| CLeader (cmd : Cmd)               (** besides, this node was the leader *)
| CLocal (cmd : Cmd)
| CReply (cmd : Cmd) (reply : gostring) (logged : bool).

Record Answer := mkAnswer { acmd : Cmd; areply : gostring; alogged : bool }.

Section process.
Context (env : Env) (flags : Flags) {R : Type} `{RetryLib} `{RaftLib R}.

Record Proc := mkProc {
  world : World;                    (** start-up's state, with the variable [raftNode] *)
  rstate : R;                       (** the Raft instance *)
  pfsm : Fsm.State;
  ctx_done : bool;
  wg : Z;
  main : MainPC;
  admin : AdminPC;
  stopper : WatchPC;                (** [<-ctx.Done(); s.GracefulStop()] *)
  accept : AcceptPC;
  closer_ : WatchPC;                (** [<-ctx.Done(); ln.Close()] *)
  listening : bool;                 (** [ln] is open *)
  conns : gmap nat ConnPC;
  answers : list Answer;            (** the replies written, latest last *)
  exited : option Exit;
}.

Definition boot (w : World) (r : R) (s : Fsm.State) : Proc :=
  mkProc w r s false 0 MConfig AdNone WNone AcNone WNone false ∅ [] None.

Implicit Types p : Proc.

Definition set_world (w : World) p : Proc :=
  mkProc w (rstate p) (pfsm p) (ctx_done p) (wg p) (main p) (admin p) (stopper p) (accept p) (closer_ p)
         (listening p) (conns p) (answers p) (exited p).
Definition set_main (m : MainPC) p : Proc :=
  mkProc (world p) (rstate p) (pfsm p) (ctx_done p) (wg p) m (admin p) (stopper p) (accept p) (closer_ p)
         (listening p) (conns p) (answers p) (exited p).
Definition set_admin (n : Z) (a : AdminPC) (s : WatchPC) p : Proc :=
  mkProc (world p) (rstate p) (pfsm p) (ctx_done p) (wg p + n) (main p) a s (accept p) (closer_ p)
         (listening p) (conns p) (answers p) (exited p).
Definition set_accept (n : Z) (a : AcceptPC) (c : WatchPC) (l : bool) p : Proc :=
  mkProc (world p) (rstate p) (pfsm p) (ctx_done p) (wg p + n) (main p) (admin p) (stopper p) a c
         l (conns p) (answers p) (exited p).
Definition set_conn (i : nat) (c : ConnPC) p : Proc :=
  mkProc (world p) (rstate p) (pfsm p) (ctx_done p) (wg p) (main p) (admin p) (stopper p) (accept p) (closer_ p)
         (listening p) (<[i := c]> (conns p)) (answers p) (exited p).
Definition drop_conn (i : nat) p : Proc :=
  mkProc (world p) (rstate p) (pfsm p) (ctx_done p) (wg p) (main p) (admin p) (stopper p) (accept p) (closer_ p)
         (listening p) (delete i (conns p)) (answers p) (exited p).
Definition add_answer (a : Answer) p : Proc :=
  mkProc (world p) (rstate p) (pfsm p) (ctx_done p) (wg p) (main p) (admin p) (stopper p) (accept p) (closer_ p)
         (listening p) (conns p) (answers p ++ [a]) (exited p).
Definition set_data (r : R) (s : Fsm.State) p : Proc :=
  mkProc (world p) r s (ctx_done p) (wg p) (main p) (admin p) (stopper p) (accept p) (closer_ p)
         (listening p) (conns p) (answers p) (exited p).
Definition set_done p : Proc :=
  mkProc (world p) (rstate p) (pfsm p) true (wg p) (main p) (admin p) (stopper p) (accept p) (closer_ p)
         (listening p) (conns p) (answers p) (exited p).
Definition exit (e : Exit) p : Proc :=
  mkProc (world p) (rstate p) (pfsm p) (ctx_done p) (wg p) (main p) (admin p) (stopper p) (accept p) (closer_ p)
         (listening p) (conns p) (answers p) (Some e).

(** The node as the connections see it: Raft is enabled while a node is
    published. *)
Definition node_of p : Node R :=
  mkNode (pfsm p) (match started (world p) with Some _ => Some (rstate p) | None => None end).

Definition set_node (n : Node R) p : Proc := set_data (default (rstate p) (RespServer.raft n)) (fsm n) p.

(** ** The functions of [main] *)

(** [core.InitDBConfig()] *)
Definition main_config p : Proc :=
  let w := world p in
  set_main MInitRaft
    (set_world (mkWorld (InitDBConfig flags) (disk w) (trace w) (started w) (reads w) (attempts w)) p).

(** [InitRaft]: [listens] is the outcome of [net.Listen].  [log.Fatalf] ends the
    process at once.  There is no result when [StartRaft] does not return. *)
Definition InitRaft (listens : bool) p : option Proc :=
  let p := set_admin 1 (admin p) (stopper p) p in
  let '(o, w) := (if EnableRaft (config (world p)) then StartRaft env true (world p) else (Ok tt, world p)) in
  match o with
  | Ok _ =>
      if listens then Some (set_main MInitResp (set_admin 0 AdServing WWaiting (set_world w p)))
      else Some (exit ExitFatal (set_world (snd (ShutdownRaft env w)) p))
  | Err _ => Some (exit ExitFatal (set_world w p))
  | _ => None
  end.

Definition InitRESPTCPServer (listens : bool) p : Proc :=
  let p := set_accept 1 (accept p) (closer_ p) (listening p) p in
  if listens then set_main MWait (set_accept 0 AcLoop WWaiting true p)
  else exit ExitFatal p.

(** ** The steps of a connection ([executeRESPCmd] between its locks) *)

(** [cmd.IsWriteOp() && core.RaftEnabled()] *)
Definition route (cmd : Cmd) p : ConnPC :=
  if IsWriteOp cmd && RaftEnabled (node_of p) then CWrite cmd else CLocal cmd.

(** [!core.IsLeader()] *)
Definition check_leader (cmd : Cmd) p : ConnPC :=
  if negb (IsLeader (node_of p)) then CReply cmd ErrWriteNotAllowed false else CLeader cmd.

(** [core.ApplyCmdViaRaft(cmd, ...)]: it executes locally when Raft has been
    shut down in the meantime. *)
Definition apply_cmd (i : nat) (cmd : Cmd) p : option Proc :=
  match ApplyCmdViaRaft cmd (node_of p) with
  | (Ok reply, n) =>
      Some (set_conn i (CReply cmd reply (bool_decide (is_Some (started (world p))))) (set_node n p))
  | _ => None
  end.

Definition local_cmd (i : nat) (cmd : Cmd) p : option Proc :=
  match execute_local cmd (node_of p) with
  | (Ok reply, n) => Some (set_conn i (CReply cmd reply false) (set_node n p))
  | _ => None
  end.

(** ** The transition system *)

(** Who takes a step: the servers themselves, a client, the Raft library, or
    something going wrong or being asked for from outside. *)
Inductive Label := Server_ | Client | Library | Fault | Signal.
#[global] Instance Label_eq_dec : EqDecision Label.
Proof. solve_decision. Defined.

Inductive pstep : Label → Proc → Proc → Prop :=
| ps_signal p : exited p = None → pstep Signal p (set_done p)
(** [main] *)
| ps_config p : exited p = None → main p = MConfig → pstep Server_ p (main_config p)
| ps_InitRaft p p' : exited p = None → main p = MInitRaft → InitRaft true p = Some p' → pstep Server_ p p'
| ps_InitRaft_fails p p' : exited p = None → main p = MInitRaft → InitRaft false p = Some p' → pstep Fault p p'
| ps_InitResp p : exited p = None → main p = MInitResp → pstep Server_ p (InitRESPTCPServer true p)
| ps_InitResp_fails p : exited p = None → main p = MInitResp → pstep Fault p (InitRESPTCPServer false p)
| ps_wait p : exited p = None → main p = MWait → wg p = 0%Z →
    pstep Server_ p (exit ExitOK (set_main MReturned p))
(** the admin server *)
| ps_graceful_stop p : exited p = None → stopper p = WWaiting → ctx_done p = true →
    pstep Server_ p (set_admin 0 (admin p) WDone p)
| ps_serve_stopped p : exited p = None → admin p = AdServing → stopper p = WDone →
    pstep Server_ p (set_admin 0 AdReturned (stopper p) p)
| ps_serve_fails p : exited p = None → admin p = AdServing →
    pstep Fault p (set_admin 0 AdReturned (stopper p) p)
| ps_shutdown p : exited p = None → admin p = AdReturned →
    pstep Server_ p (set_admin 0 AdShut (stopper p) (set_world (snd (ShutdownRaft env (world p))) p))
| ps_admin_done p : exited p = None → admin p = AdShut →
    pstep Server_ p (set_admin (-1) AdDone (stopper p) p)
(** the database server *)
| ps_close p : exited p = None → closer_ p = WWaiting → ctx_done p = true →
    pstep Server_ p (set_accept 0 (accept p) WDone false p)
| ps_close_fails p : exited p = None → closer_ p = WWaiting → ctx_done p = true →
    pstep Fault p (exit ExitFatal p)
| ps_accept p i : exited p = None → accept p = AcLoop → listening p = true → conns p !! i = None →
    pstep Client p (set_conn i CRead p)
| ps_accept_closed p : exited p = None → accept p = AcLoop → listening p = false →
    pstep Server_ p (set_accept (-1) AcDone (closer_ p) (listening p) p)
| ps_accept_error p : exited p = None → accept p = AcLoop → ctx_done p = true →
    pstep Fault p (set_accept (-1) AcDone (closer_ p) (listening p) p)
| ps_accept_retry p : exited p = None → accept p = AcLoop → ctx_done p = false →
    pstep Fault p p
(** connections: a request that is not a command is answered without any of
    the steps below; one that makes the parser panic ends the process *)
| ps_command p i cmd : exited p = None → conns p !! i = Some CRead →
    pstep Client p (set_conn i (route cmd p) p)
| ps_leader p i cmd : exited p = None → conns p !! i = Some (CWrite cmd) →
    pstep Client p (set_conn i (check_leader cmd p) p)
| ps_apply p i cmd p' : exited p = None → conns p !! i = Some (CLeader cmd) → apply_cmd i cmd p = Some p' →
    pstep Client p p'
| ps_local p i cmd p' : exited p = None → conns p !! i = Some (CLocal cmd) → local_cmd i cmd p = Some p' →
    pstep Client p p'
| ps_reply p i cmd reply logged : exited p = None → conns p !! i = Some (CReply cmd reply logged) →
    pstep Client p (set_conn i CRead (add_answer (mkAnswer cmd reply logged) p))
| ps_panic p i : exited p = None → conns p !! i = Some CRead → pstep Fault p (exit ExitFatal p)
| ps_hangup p i : exited p = None → conns p !! i = Some CRead → pstep Client p (drop_conn i p)
(** the Raft instance applies entries and changes its role *)
| ps_raft p r entries s : exited p = None → is_Some (started (world p)) → applied entries (pfsm p) s →
    pstep Library p (set_data r s p).

Definition any_step p p' : Prop := ∃ l, pstep l p p'.
End process.
Arguments Proc : clear implicits.

(** ** Invariants *)
Section invariants.
Context (env : Env) (flags : Flags) {R : Type} `{RetryLaws} `{RaftLaws R}.
Implicit Types p : Proc R.

(** The goroutines that [wg.Wait] waits for. *)
Definition admin_count (a : AdminPC) : Z := match a with AdNone | AdDone => 0 | _ => 1 end.
Definition accept_count (a : AcceptPC) : Z := match a with AcLoop => 1 | _ => 0 end.

(** Which goroutines have been started, by the position of [main]. *)
Definition spawned p : Prop :=
  match main p with
  | MConfig | MInitRaft => admin p = AdNone ∧ stopper p = WNone ∧ accept p = AcNone ∧ closer_ p = WNone
  | MInitResp => admin p ≠ AdNone ∧ stopper p ≠ WNone ∧ accept p = AcNone ∧ closer_ p = WNone
  | MWait => admin p ≠ AdNone ∧ stopper p ≠ WNone ∧ accept p ≠ AcNone ∧ closer_ p ≠ WNone
  | MReturned => admin p = AdDone ∧ accept p = AcDone
  end.

Record shape p : Prop := {
  sh_spawned : spawned p;
  sh_wg : exited p ≠ Some ExitFatal → wg p = (admin_count (admin p) + accept_count (accept p))%Z;
  sh_exit : exited p = Some ExitOK ↔ main p = MReturned;
  sh_closed : closer_ p = WDone → listening p = false;
  sh_conns : accept p = AcNone → conns p = ∅ ∧ answers p = [];
}.

(** Raft is published. *)
Definition up p : Prop := admin p = AdServing ∨ admin p = AdReturned.
Definition raft_up (w : World) : Prop :=
  ∃ h, started w = Some h ∧ complete h ∧ ∀ r, held r (trace w) = 1%Z.
Definition raft_down (w : World) : Prop := started w = None ∧ ∀ r, held r (trace w) = 0%Z.

Definition resources_ok p : Prop :=
  match admin p with
  | AdServing | AdReturned => if flag_enable_raft flags then raft_up (world p) else raft_down (world p)
  | _ => raft_down (world p)
  end.

Lemma boot_shape w r s : shape (boot w r s).
Proof. split; simpl; done. Qed.

Lemma InitRaft_inv listens p p' : InitRaft env listens p = Some p' → ∃ w,
  (w = world p ∧ EnableRaft (config (world p)) = false ∨
   EnableRaft (config (world p)) = true ∧ StartRaft env true (world p) = (Ok tt, w)) ∧
  (if listens
   then p' = set_main MInitResp (set_admin 0 AdServing WWaiting (set_world w (set_admin 1 (admin p) (stopper p) p)))
   else p' = exit ExitFatal (set_world (snd (ShutdownRaft env w)) (set_admin 1 (admin p) (stopper p) p)))
  ∨ ∃ e, StartRaft env true (world p) = (Err e, w) ∧
         p' = exit ExitFatal (set_world w (set_admin 1 (admin p) (stopper p) p)).
Proof.
  unfold InitRaft. intros E. destruct (EnableRaft (config (world (set_admin 1 (admin p) (stopper p) p)))) eqn:Hen.
  - destruct (StartRaft env true _) as [o w] eqn:Es. exists w. destruct o as [[]|e| |]; [left|right|done|done].
    + split; [right; by split|]. destruct listens; by injection E as <-.
    + exists e. by injection E as <-.
  - exists (world p). left. split; [left; by split|]. destruct listens; by injection E as <-.
Qed.

Lemma apply_cmd_inv i cmd p p' : apply_cmd i cmd p = Some p' → ∃ reply n,
  ApplyCmdViaRaft cmd (node_of p) = (Ok reply, n) ∧
  p' = set_conn i (CReply cmd reply (bool_decide (is_Some (started (world p))))) (set_node n p).
Proof.
  unfold apply_cmd. destruct (ApplyCmdViaRaft cmd (node_of p)) as [[reply|e| |] n]; try done.
  intros [= <-]. by exists reply, n.
Qed.

Lemma local_cmd_inv i cmd p p' : local_cmd i cmd p = Some p' → ∃ reply n,
  execute_local cmd (node_of p) = (Ok reply, n) ∧ p' = set_conn i (CReply cmd reply false) (set_node n p).
Proof.
  unfold local_cmd. destruct (execute_local cmd (node_of p)) as [[reply|e| |] n]; try done.
  intros [= <-]. by exists reply, n.
Qed.

(** What a step of a connection or of the library leaves alone. *)
Definition same_servers p p' : Prop :=
  main p' = main p ∧ wg p' = wg p ∧ admin p' = admin p ∧ stopper p' = stopper p ∧ accept p' = accept p ∧
  closer_ p' = closer_ p ∧ listening p' = listening p ∧ exited p' = exited p ∧ world p' = world p ∧
  ctx_done p' = ctx_done p.

Lemma client_same_servers l p p' : pstep env flags l p p' → l = Client ∨ l = Library → same_servers p p'.
Proof.
  intros Hs Hl. destruct Hs; try (by destruct Hl);
    try match goal with
    | E : apply_cmd _ _ _ = Some _ |- _ => apply apply_cmd_inv in E as (reply & n & _ & ->)
    | E : local_cmd _ _ _ = Some _ |- _ => apply local_cmd_inv in E as (reply & n & _ & ->)
    end; by split_and!.
Qed.

Lemma conns_accepting l p p' : pstep env flags l p p' → shape p → l = Client ∨ l = Library →
  accept p = AcNone → conns p' = ∅ ∧ answers p' = [].
Proof.
  intros Hs Hp Hl Ha. destruct (sh_conns p Hp Ha) as [Hc Hans].
  destruct Hs; try (by destruct Hl); try done; try congruence;
    match goal with E : conns _ !! _ = Some _ |- _ => by rewrite Hc, lookup_empty in E end.
Qed.

Lemma shape_same p p' : same_servers p p' → (accept p = AcNone → conns p' = ∅ ∧ answers p' = []) → shape p → shape p'.
Proof.
  intros (Hm & Hw & Ha & Hst & Hac & Hc & Hl & He & _) Hconn [Hsp Hwg Hex Hcl Hco].
  split; unfold spawned in *; rewrite ?Hm, ?Hw, ?Ha, ?Hst, ?Hac, ?Hc, ?Hl, ?He; auto.
Qed.

Lemma step_shape l p p' : pstep env flags l p p' → shape p → shape p'.
Proof.
  intros Hs Hp. destruct (decide (l = Client ∨ l = Library)) as [Hl|Hl].
  { apply (shape_same p); [by eapply client_same_servers|by eapply conns_accepting|done]. }
  destruct Hp as [Hsp Hwg Hex Hcl Hco].
  destruct Hs as [[] | [] | [] | [] | [] | [] | [] | [] | [] | [] | [] | [] | [] | [] | | [] | [] | [] | | | | | | [] | |];
    try (by destruct Hl; tauto);
    try match goal with E : InitRaft _ _ _ = Some _ |- _ =>
      apply InitRaft_inv in E as (w & [[_ ->]|(e & _ & ->)]) end;
    simpl in *; subst; split; unfold spawned in *; simpl in *;
    repeat match goal with
    | x : MainPC |- _ => destruct x
    | x : AdminPC |- _ => destruct x
    | x : AcceptPC |- _ => destruct x
    end; simpl in *; intuition (lia || congruence).
Qed.

(** *** Resources *)
Lemma shutdown_down w : raft_up w ∨ raft_down w → raft_down (snd (ShutdownRaft env w)).
Proof.
  intros [(h & Hh & Hc & Hr)|[Hs Hr]].
  - destruct (shutdown_closes env (λ _, 0%Z) w h Hh Hc) as (errs & w' & -> & Hs & Hr'); [done|]. by split.
  - unfold ShutdownRaft. by rewrite gm_bind_getS, Hs.
Qed.

Lemma start_up w : timer_fires env → raft_down w →
  match StartRaft env true w with
  | (Ok _, w') => EnableRaft (config w) = true → raft_up w'
  | (_, w') => raft_down w'
  end.
Proof.
  intros Ht [Hs Hr]. pose proof (start_outcome env true w Ht) as Ho.
  destruct (StartRaft env true w) as [[[]|e| |] w'] eqn:E; try done.
  - intros He. destruct (start_publishes env true w w' Hs He E) as [h Hh].
    destruct Ho as [[Hs' _]|(_ & (h' & Hc & _ & Hh') & Hr')]; [congruence|].
    exists h'. split_and!; [done|done|]. intros r. by rewrite Hr', Hr.
  - destruct Ho as [Hs' Hr']. split; [congruence|]. intros r. by rewrite Hr', Hr.
Qed.

(** The resources are those the position of the admin goroutine says; the
    configuration is that of the command line when Raft is started. *)
Definition resources_inv p : Prop :=
  resources_ok p ∧
  (exited p = None → main p = MInitRaft → EnableRaft (config (world p)) = flag_enable_raft flags).

Lemma resources_down p : resources_ok p → raft_up (world p) ∨ raft_down (world p).
Proof. unfold resources_ok. destruct (admin p), (flag_enable_raft flags); auto. Qed.

Lemma InitRaft_resources listens p p' : timer_fires env → exited p = None → main p = MInitRaft →
  InitRaft env listens p = Some p' → shape p → resources_inv p → resources_inv p'.
Proof.
  intros Ht He Hm E Hp [Hr Hc]. pose proof (sh_spawned p Hp) as Hs. unfold spawned in Hs. rewrite Hm in Hs.
  destruct Hs as (Ha & _). unfold resources_ok in Hr. rewrite Ha in Hr. pose proof (start_up _ Ht Hr) as Hu.
  apply InitRaft_inv in E as (w & [[Hw E]|(e & Es & ->)]).
  - assert (Hw' : if flag_enable_raft flags then raft_up w else raft_down w).
    { rewrite <- (Hc He Hm). destruct Hw as [[-> ->]|[Hen Es]]; [done|]. rewrite Es in Hu. rewrite Hen. by apply Hu. }
    destruct listens; subst p'; [by split|]. split; [|done].
    unfold resources_ok. simpl. rewrite Ha. apply shutdown_down. destruct (flag_enable_raft flags); auto.
  - split; [|done]. unfold resources_ok. simpl. rewrite Ha. by rewrite Es in Hu.
Qed.

Lemma step_resources l p p' : timer_fires env → pstep env flags l p p' → shape p →
  resources_inv p → resources_inv p'.
Proof.
  intros Ht Hs Hp Hi. destruct (decide (l = Client ∨ l = Library)) as [Hl|Hl].
  { apply (client_same_servers l) in Hs as (Hm & _ & Ha & _ & _ & _ & _ & He & Hw & _); [|done].
    unfold resources_inv, resources_ok in *. by rewrite Hm, Ha, He, Hw. }
  destruct Hs; try (by destruct Hl; tauto); try (by eapply InitRaft_resources);
    pose proof (sh_spawned _ Hp) as Hsp; destruct Hi as [Hr Hc];
    pose proof (resources_down _ Hr) as Hd; split; try done;
    unfold spawned, resources_ok in *; simpl in *;
    repeat match goal with
    | E : admin _ = _ |- _ => rewrite E in *
    | E : main _ = _ |- _ => rewrite E in *
    end; simpl in *; try done.
  - by apply shutdown_down.
  - intros _ Hm. rewrite Hm in Hsp. by destruct Hsp.
Qed.

(** *** Clients *)

(** Up to the shutdown of Raft, a write that is not refused goes through the
    log. *)
Definition conn_ok (c : ConnPC) : Prop :=
  match c with
  | CLocal cmd => IsWriteOp cmd = false
  | CReply cmd reply logged => logged = false → IsWriteOp cmd = true → reply = ErrWriteNotAllowed
  | _ => True
  end.
Definition answer_ok (a : Answer) : Prop :=
  alogged a = false → IsWriteOp (acmd a) = true → areply a = ErrWriteNotAllowed.
Definition replicated p : Prop :=
  flag_enable_raft flags = true → up p →
  map_Forall (λ _, conn_ok) (conns p) ∧ Forall answer_ok (answers p).

Lemma server_same_clients l p p' : pstep env flags l p p' → shape p → l ≠ Client →
  conns p' = conns p ∧ answers p' = answers p ∧ (up p' → up p ∨ accept p = AcNone).
Proof.
  intros Hs Hp Hl. pose proof (sh_spawned _ Hp) as Hsp. unfold spawned in Hsp. destruct Hs; try done;
    try match goal with E : InitRaft _ _ _ = Some _ |- _ =>
      apply InitRaft_inv in E as (w & [[_ ->]|(e & _ & ->)]) end;
    split_and!; try done; unfold up; simpl; auto; intros Hu;
    repeat match goal with E : main _ = _ |- _ => rewrite E in * end; intuition congruence.
Qed.

Lemma enabled_up p : flag_enable_raft flags = true → up p → resources_ok p → is_Some (started (world p)).
Proof.
  intros Hf Hu Hr. unfold resources_ok in Hr. rewrite Hf in Hr.
  assert (raft_up (world p)) as (h & Hh & _) by (by destruct Hu as [Hu|Hu]; rewrite Hu in Hr). by eexists.
Qed.

Lemma client_conn l p p' : pstep env flags l p p' → l = Client → (∃ i c a,
  conns p' = <[i := c]> (conns p) ∧ answers p' = answers p ++ a ∧
  (flag_enable_raft flags = true → is_Some (started (world p)) → map_Forall (λ _, conn_ok) (conns p) →
   conn_ok c ∧ Forall answer_ok a)) ∨
  ∃ i, conns p' = delete i (conns p) ∧ answers p' = answers p.
Proof.
  intros Hs Hl. destruct Hs as [| | | | | | | | | | | | | |p i He Ha Hli Hi| | | |p i cmd He Hi|p i cmd He Hi
    |p i cmd p' He Hi E|p i cmd p' He Hi E|p i cmd rep lg He Hi| |p i He Hi|]; try discriminate Hl.
  1-6: left. 7: right; by exists i.
  - exists i, CRead, []. split_and!; [done|by rewrite app_nil_r|done].
  - exists i, (route cmd p), []. split_and!; [done|by rewrite app_nil_r|]. intros _ Hst _. split; [|done].
    unfold route, RaftEnabled, node_of. destruct Hst as [h ->]. simpl.
    destruct (IsWriteOp cmd) eqn:Hw; by simpl.
  - exists i, (check_leader cmd p), []. split_and!; [done|by rewrite app_nil_r|]. intros _ _ _. split; [|done].
    unfold check_leader. by case_match.
  - apply apply_cmd_inv in E as (reply & n & _ & ->). eexists i, _, [].
    split_and!; [done|by rewrite app_nil_r|]. intros _ Hst _. split; [|done].
    rewrite bool_decide_true by done. done.
  - apply local_cmd_inv in E as (reply & n & _ & ->). eexists i, _, [].
    split_and!; [done|by rewrite app_nil_r|]. intros _ _ Hc. split; [|done]. intros _ Hw.
    specialize (Hc i _ Hi). simpl in Hc. congruence.
  - exists i, CRead, [mkAnswer cmd rep lg]. split_and!; [done|done|]. intros _ _ Hc. split; [done|].
    apply Forall_singleton. exact (Hc i _ Hi).
Qed.

Lemma step_replicated l p p' : pstep env flags l p p' → shape p → resources_inv p →
  replicated p → replicated p'.
Proof.
  intros Hs Hp [Hr _] Hi Hf Hu. destruct (decide (l = Client)) as [->|Hl].
  - pose proof (client_same_servers _ _ _ Hs (or_introl eq_refl)) as (_ & _ & Ha & _).
    assert (Hup : up p) by (unfold up in *; congruence). destruct (Hi Hf Hup) as [Hc Hans].
    pose proof (enabled_up p Hf Hup Hr) as Hst.
    destruct (client_conn _ _ _ Hs eq_refl) as [(i & c & a & -> & -> & Hok)|(i & -> & ->)].
    + destruct (Hok Hf Hst Hc). split; [by apply map_Forall_insert_2|by apply Forall_app].
    + split; [by apply map_Forall_delete|done].
  - destruct (server_same_clients _ _ _ Hs Hp Hl) as (Hc & Ha & Hup). rewrite Hc, Ha.
    destruct (Hup Hu) as [Hu0|Hnone]; [by apply Hi|]. destruct (sh_conns p Hp Hnone) as [-> ->].
    split; [apply map_Forall_empty|done].
Qed.

(** *** The database stays well formed *)
Lemma step_wf l p p' : pstep env flags l p p' → mem_wf (Fsm.db (pfsm p)) → mem_wf (Fsm.db (pfsm p')).
Proof.
  intros Hs Hwf. destruct Hs as [| |p p' He Hm E|p p' He Hm E| | | | | | | | | | | | | | | | |p i cmd p' He Hi E
    |p i cmd p' He Hi E| | | |p r entries s He Hst Ha]; try done.
  1-2: by apply InitRaft_inv in E as (w & [[_ ->]|(e & _ & ->)]).
  - apply apply_cmd_inv in E as (reply & n & E & ->).
    destruct (ApplyCmdViaRaft_total (node_of p) cmd Hwf) as (reply' & n' & E' & Hn). rewrite E in E'.
    injection E' as <- <-. exact Hn.
  - apply local_cmd_inv in E as (reply & n & E & ->).
    destruct (execute_local_total (node_of p) cmd Hwf) as (reply' & n' & E' & Hn). rewrite E in E'.
    injection E' as <- <-. exact Hn.
  - by eapply applied_wf.
Qed.

(** All of them, in every reachable state. *)
Record pinv p : Prop := {
  pi_shape : shape p;
  pi_resources : resources_inv p;
  pi_replicated : replicated p;
  pi_wf : mem_wf (Fsm.db (pfsm p));
}.

Lemma pinv_reachable w r s p : timer_fires env → raft_down w → mem_wf (Fsm.db s) →
  rtc (any_step env flags) (boot w r s) p → pinv p.
Proof.
  intros Ht Hw Hs Hr. assert (H0' : pinv (boot w r s)).
  { split; [apply boot_shape|by split| |done]. intros _ [Hu|Hu]; done. }
  revert H0'. induction Hr as [|p1 p2 p3 [l Hl] _ IH]; [done|]. intros [H1' H2' H3' H4']. apply IH. split.
  - by eapply step_shape.
  - by eapply step_resources.
  - by eapply step_replicated.
  - by eapply step_wf.
Qed.

(** ** The way to the end *)

(** How many steps of the servers are left after the signal. *)
Definition remaining p : nat :=
  match stopper p with WWaiting => 1 | _ => 0 end +
  match closer_ p with WWaiting => 1 | _ => 0 end +
  match admin p with AdServing => 3 | AdReturned => 2 | AdShut => 1 | _ => 0 end +
  match accept p with AcLoop => 1 | _ => 0 end +
  match main p with MWait => 1 | _ => 0 end.

Lemma remaining_step p : shape p → exited p = None → main p = MWait → ctx_done p = true →
  ∃ p', pstep env flags Server_ p p' ∧ remaining p' < remaining p.
Proof.
  intros [Hsp Hwg _ Hcl _] He Hm Hd. unfold spawned in Hsp. rewrite Hm in Hsp.
  destruct Hsp as (Ha & Hst & Hac & Hc).
  destruct (stopper p) eqn:Es; [done| |].
  { eexists. split; [by apply ps_graceful_stop|]. unfold remaining. simpl. rewrite Es. lia. }
  destruct (closer_ p) eqn:Ec; [done| |].
  { eexists. split; [by apply ps_close|]. unfold remaining. simpl. rewrite Es, Ec. lia. }
  destruct (admin p) eqn:Ea; [done| | | |].
  1-3: eexists; (split; [first [by apply ps_serve_stopped|by apply ps_shutdown|by apply ps_admin_done]|]);
    unfold remaining; simpl; rewrite Es, Ec, Ea; lia.
  destruct (accept p) eqn:Ep; [done| |].
  { eexists. split; [by apply ps_accept_closed; auto|]. unfold remaining. simpl. rewrite Es, Ec, Ea, Ep. lia. }
  eexists. split; [apply ps_wait; [done|done|]|].
  - apply Hwg. by rewrite He.
  - unfold remaining. simpl. rewrite Hm. lia.
Qed.

Lemma remaining_mono l p p' : pstep env flags l p p' → main p = MWait → remaining p' ≤ remaining p.
Proof.
  intros Hs Hm. destruct (decide (l = Client ∨ l = Library)) as [Hl|Hl].
  { apply (client_same_servers l) in Hs as (E1 & _ & E2 & E3 & E4 & E5 & _); [|done].
    unfold remaining. by rewrite E1, E2, E3, E4, E5. }
  destruct Hs; try (by destruct Hl; tauto); try congruence; unfold remaining; simpl;
    repeat match goal with
    | E : stopper _ = _ |- _ => rewrite E in *
    | E : closer_ _ = _ |- _ => rewrite E in *
    | E : admin _ = _ |- _ => rewrite E in *
    | E : accept _ = _ |- _ => rewrite E in *
    end; simpl; lia.
Qed.

(** A write that a connection reads once Raft is down is executed locally. *)
Lemma local_write p i cmd : mem_wf (Fsm.db (pfsm p)) → exited p = None → started (world p) = None →
  conns p !! i = Some CRead → cmd_fits cmd →
  ∃ p', rtc (any_step env flags) p p' ∧
    let out := denote None (request_of cmd) (deref (Fsm.db (pfsm p))) in
    answers p' = answers p ++ [mkAnswer cmd (fst out) false] ∧ deref (Fsm.db (pfsm p')) = snd out ∧
    world p' = world p ∧ exited p' = None.
Proof.
  intros Hwf He Hn Hi Hf. set (p1 := set_conn i (CLocal cmd) p).
  assert (Hroute : route cmd p = CLocal cmd).
  { unfold route, RaftEnabled, node_of. rewrite Hn. simpl. by rewrite andb_false_r. }
  destruct (execute_local_runs (node_of p1) cmd Hwf Hf) as (save & n' & E & _ & Hv & _ & Hsave).
  destruct Hsave as [-> _]; [unfold node_of; simpl; by rewrite Hn|].
  set (p2 := set_conn i (CReply cmd (fst (denote None (request_of cmd) (node_view (node_of p1)))) false) (set_node n' p1)).
  exists (set_conn i CRead (add_answer (mkAnswer cmd (fst (denote None (request_of cmd) (node_view (node_of p1)))) false) p2)).
  split; [|by split_and!].
  eapply rtc_l; [exists Client; by apply (ps_command env flags p i cmd)|]. rewrite Hroute.
  eapply rtc_l; [exists Client; apply (ps_local env flags p1 i cmd p2); [done|apply lookup_insert_eq|]|].
  - unfold local_cmd. by rewrite E.
  - apply rtc_once. exists Client. apply (ps_reply env flags p2 i); [done|apply lookup_insert_eq].
Qed.
End invariants.

(** ** Theorems *)
Section theorems.
Context (env : Env) (flags : Flags) {R : Type} `{RetryLaws} `{RaftLaws R}.
Context (w : World) (r : R) (s : Fsm.State).
Implicit Types p : Proc R.

Abbreviation reachable := (rtc (any_step env flags) (boot w r s)).

(** C20.  [main] returns only after a complete shutdown.  However the goroutines of
    the process are interleaved, when [main] has returned, the admin server and
    the accept loop have ended, the Raft node is unpublished, and its Raft
    instance, transport and store are closed. *)
Theorem exit_after_shutdown p : timer_fires env → raft_down w → mem_wf (Fsm.db s) →
  reachable p → exited p = Some ExitOK →
  admin p = AdDone ∧ accept p = AcDone ∧ raft_down (world p).
Proof.
  intros Ht Hw Hs Hr He. destruct (pinv_reachable env flags w r s p Ht Hw Hs Hr) as [Hsh [Hres _] _ _].
  pose proof (proj1 (sh_exit p Hsh) He) as Hm. pose proof (sh_spawned p Hsh) as Hsp.
  unfold spawned in Hsp. rewrite Hm in Hsp. destruct Hsp as [Ha Hac]. split_and!; [done|done|].
  unfold resources_ok in Hres. by rewrite Ha in Hres.
Qed.

(** C22.  After the signal the process ends.  Once both servers run and the signal
    has arrived, in every reachable state a server can take a step that brings
    the end nearer, and no step, of whatever goroutine, takes it further away: if
    the servers' steps are not put off for ever, [main] returns. *)
Theorem shutdown_progress p : timer_fires env → raft_down w → mem_wf (Fsm.db s) →
  reachable p → exited p = None → main p = MWait → ctx_done p = true →
  (∃ p', pstep env flags Server_ p p' ∧ remaining p' < remaining p) ∧
  ∀ l p', pstep env flags l p p' → remaining p' ≤ remaining p.
Proof.
  intros Ht Hw Hs Hr He Hm Hd. destruct (pinv_reachable env flags w r s p Ht Hw Hs Hr) as [Hsh _ _ _].
  split; [by apply remaining_step|]. intros l p' Hl. by eapply remaining_mono.
Qed.


(** C39.  After the shutdown of Raft, writes are acknowledged without replication.
    Connections are not closed by the shutdown, and [executeRESPCmd] takes a node
    without Raft for one that was started without it: in every reachable state
    after [ShutdownRaft], a write that a client sends on an open connection is
    executed on the local database only and answered as if it had been committed. *)
Theorem unreplicated_write p i cmd : timer_fires env → raft_down w → mem_wf (Fsm.db s) →
  reachable p → admin p = AdShut ∨ admin p = AdDone → exited p = None →
  conns p !! i = Some CRead → IsWriteOp cmd = true → cmd_fits cmd →
  ∃ p', reachable p' ∧
    let out := denote None (request_of cmd) (deref (Fsm.db (pfsm p))) in
    answers p' = answers p ++ [mkAnswer cmd (fst out) false] ∧ deref (Fsm.db (pfsm p')) = snd out.
Proof.
  intros Ht Hw Hs Hr Ha He Hi _ Hf.
  destruct (pinv_reachable env flags w r s p Ht Hw Hs Hr) as [_ [Hres _] _ Hwf].
  assert (Hdown : raft_down (world p)) by (unfold resources_ok in Hres; by destruct Ha as [Ha|Ha]; rewrite Ha in Hres).
  destruct (local_write env flags p i cmd Hwf He (proj1 Hdown) Hi Hf) as (p' & Hrun & Hans & Hv & _).
  exists p'. split; [by etrans|done].
Qed.

(**  A listener that cannot be opened ends the process; only the admin
    listener's failure shuts Raft down first.  When the admin address is in use,
    everything [StartRaft] opened has been closed when the process ends; when the
    database address is in use, the process ends with the Raft instance, the
    transport and the store still open. *)
Lemma listener_failures p : timer_fires env → raft_down w → mem_wf (Fsm.db s) →
  reachable p → exited p = None →
  (main p = MInitRaft → ∃ p', InitRaft env false p = Some p' ∧ exited p' = Some ExitFatal ∧ raft_down (world p')) ∧
  (main p = MInitResp → flag_enable_raft flags = true → up p →
   exited (InitRESPTCPServer false p) = Some ExitFatal ∧ raft_up (world (InitRESPTCPServer false p))).
Proof.
  intros Ht Hw Hs Hr He. destruct (pinv_reachable env flags w r s p Ht Hw Hs Hr) as [Hsh Hres _ _]. split.
  - intros Hm. pose proof (sh_spawned p Hsh) as Hsp. unfold spawned in Hsp. rewrite Hm in Hsp.
    destruct Hsp as (Ha & _). pose proof (proj1 Hres) as Hd. unfold resources_ok in Hd. rewrite Ha in Hd.
    assert (∃ p', InitRaft env false p = Some p') as [p' E].
    { unfold InitRaft. simpl. pose proof (start_outcome env true (world p) Ht) as Ho.
      destruct (EnableRaft _); [|by eexists]. destruct (StartRaft env true (world p)) as [[| | |] ?]; by eauto. }
    exists p'. split; [done|].
    pose proof (InitRaft_resources env flags false p p' Ht He Hm E Hsh Hres) as [Hd' _].
    assert (admin p' = AdNone ∧ exited p' = Some ExitFatal) as [Ha' ->].
    { by apply InitRaft_inv in E as (w' & [[_ ->]|(e & _ & ->)]); simpl. }
    unfold resources_ok in Hd'. by rewrite Ha' in Hd'.
  - intros Hm Hf Hu. split; [done|]. destruct Hres as [Hres _]. unfold resources_ok in Hres. rewrite Hf in Hres.
    change (raft_up (world p)). by destruct Hu as [Hu|Hu]; rewrite Hu in Hres.
Qed.
End theorems.

(** ** Witnesses: a node that bootstraps, serves a client, and is stopped *)
Definition flags1 : Flags :=
  mkFlags true true §"n1" §"127.0.0.1:7000" [] [] §":50051" §":6379" §"/data" [] true.
#[local] Existing Instance once_lib.
#[local] Existing Instance once_laws.

Definition set_cmd : Cmd := mkCmd §"SET" [§"k"; §"v"].
Definition stage0 : Proc Solo := boot new_machine true (Fsm.mkState initial []).
Definition configured : Proc Solo := main_config flags1 stage0.
Definition admin_up : Proc Solo := default configured (InitRaft calm_env true configured).
Definition serving : Proc Solo := set_conn 0 CRead (InitRESPTCPServer true admin_up).


(** The signal, and the end. *)
Definition signalled : Proc Solo := set_done serving.
Definition stopping : Proc Solo := set_admin 0 (admin signalled) WDone signalled.
Definition returned_ : Proc Solo := set_admin 0 AdReturned (stopper stopping) stopping.
Definition down : Proc Solo :=
  set_admin 0 AdShut (stopper returned_) (set_world (snd (ShutdownRaft calm_env (world returned_))) returned_).
Definition admin_ended : Proc Solo := set_admin (-1) AdDone (stopper down) down.
Definition closed_ : Proc Solo := set_accept 0 (accept admin_ended) WDone false admin_ended.
Definition accept_ended : Proc Solo := set_accept (-1) AcDone (closer_ closed_) (listening closed_) closed_.
Definition ended : Proc Solo := exit ExitOK (set_main MReturned accept_ended).

Abbreviation runs_to := (rtc (any_step calm_env flags1)).

Lemma new_machine_down : raft_down new_machine.
Proof. split; [reflexivity|]. by intros []. Qed.

Lemma admin_up_run : runs_to stage0 admin_up.
Proof.
  eapply rtc_l; [exists Server_; by apply ps_config|].
  apply rtc_once. exists Server_. apply (ps_InitRaft calm_env flags1 configured); [reflexivity|reflexivity|].
  vm_compute. reflexivity.
Qed.

Lemma serving_run : runs_to stage0 serving.
Proof.
  etrans; [exact admin_up_run|].
  eapply rtc_l; [exists Server_; apply (ps_InitResp calm_env flags1 admin_up); vm_compute; reflexivity|].
  apply rtc_once. exists Client. apply (ps_accept calm_env flags1 _ 0); vm_compute; reflexivity.
Qed.


Lemma signalled_run : runs_to stage0 signalled.
Proof.
  eapply rtc_r; [exact serving_run|]. exists Signal. apply ps_signal. vm_compute. reflexivity.
Qed.

Lemma down_run : runs_to stage0 down.
Proof.
  etrans; [exact signalled_run|].
  eapply rtc_l; [exists Server_; apply (ps_graceful_stop calm_env flags1 signalled); vm_compute; reflexivity|].
  eapply rtc_l; [exists Server_; apply (ps_serve_stopped calm_env flags1 stopping); vm_compute; reflexivity|].
  apply rtc_once. exists Server_. apply (ps_shutdown calm_env flags1 returned_); vm_compute; reflexivity.
Qed.

Lemma ended_run : runs_to stage0 ended.
Proof.
  etrans; [exact down_run|].
  eapply rtc_l; [exists Server_; apply (ps_admin_done calm_env flags1 down); vm_compute; reflexivity|].
  eapply rtc_l; [exists Server_; apply (ps_close calm_env flags1 admin_ended); vm_compute; reflexivity|].
  eapply rtc_l; [exists Server_; apply (ps_accept_closed calm_env flags1 closed_); vm_compute; reflexivity|].
  apply rtc_once. exists Server_. apply (ps_wait calm_env flags1 accept_ended); vm_compute; reflexivity.
Qed.

Lemma exit_after_shutdown_witness : admin ended = AdDone ∧ accept ended = AcDone ∧ raft_down (world ended).
Proof.
  apply (exit_after_shutdown calm_env flags1 new_machine true (Fsm.mkState initial []) ended
           timer_fires_calm new_machine_down initial_wf ended_run).
  reflexivity.
Defined.

Lemma shutdown_progress_witness :
  (∃ p', pstep calm_env flags1 Server_ signalled p' ∧ remaining p' < remaining signalled) ∧
  ∀ l p', pstep calm_env flags1 l signalled p' → remaining p' ≤ remaining signalled.
Proof.
  apply (shutdown_progress calm_env flags1 new_machine true (Fsm.mkState initial []) signalled
           timer_fires_calm new_machine_down initial_wf signalled_run).
  - vm_compute. reflexivity.
  - vm_compute. reflexivity.
  - reflexivity.
Defined.


Lemma unreplicated_write_witness :
  ∃ p', runs_to stage0 p' ∧
    let out := denote None (request_of set_cmd) (deref (Fsm.db (pfsm down))) in
    answers p' = answers down ++ [mkAnswer set_cmd (fst out) false] ∧ deref (Fsm.db (pfsm p')) = snd out.
Proof.
  apply (unreplicated_write calm_env flags1 new_machine true (Fsm.mkState initial []) down 0 set_cmd
           timer_fires_calm new_machine_down initial_wf down_run).
  - left. reflexivity.
  - vm_compute. reflexivity.
  - vm_compute. reflexivity.
  - reflexivity.
  - vm_compute. split; [discriminate | reflexivity].
Defined.

Lemma listener_failures_witness :
  (main admin_up = MInitRaft → ∃ p', InitRaft calm_env false admin_up = Some p' ∧
     exited p' = Some ExitFatal ∧ raft_down (world p')) ∧
  (main admin_up = MInitResp → flag_enable_raft flags1 = true → up admin_up →
   exited (InitRESPTCPServer false admin_up) = Some ExitFatal ∧ raft_up (world (InitRESPTCPServer false admin_up))).
Proof.
  apply (listener_failures calm_env flags1 new_machine true (Fsm.mkState initial []) admin_up
           timer_fires_calm new_machine_down initial_wf admin_up_run).
  vm_compute. reflexivity.
Defined.
