(* ===== verification/Replies.v ===== *)
(** * Every reply is a complete response (src/server/resp_server.go)

    A client that speaks RESP finds the end of a reply by its own form.  Here:
    whatever bytes a client sends, every write of the server to the connection
    is exactly one response in this sense.  The parser only passes on arguments
    the runtime could allocate, the executor only stores such values, and so the
    lengths the server announces are lengths a client can read. *)

From S2P Require Import Prelude GoLib Resp MemDB CmdExecutor Utf8 Json Fsm RespServer Client.
Import Build MemDB.

(** ** What the parser passes on *)
Section sizes.
Import Parser.

(** The arguments collected so far fit. *)
Definition ctx_fits (s : PStore) : Prop :=
  match CmdArgs (ctx s) with Some args => args_fit args | None => True end.

Definition fits {A} (Q : A → Prop) (m : PM A) (s : PStore) : Prop :=
  ctx_fits (snd (m s)) ∧ ∀ a, fst (m s) = Ok a → Q a.

Lemma fits_ret {A} (Q : A → Prop) a s : ctx_fits s → Q a → fits Q (mret a) s.
Proof. intros Hs Ha. split; [done|]. by intros ? [= <-]. Qed.
Lemma fits_throw {A} (Q : A → Prop) e s : ctx_fits s → fits Q (throw e) s.
Proof. by split. Qed.
Lemma fits_panic {A} (Q : A → Prop) s : ctx_fits s → fits Q gopanic s.
Proof. by split. Qed.
Lemma fits_nofuel {A} (Q : A → Prop) s : ctx_fits s → fits Q nofuel s.
Proof. by split. Qed.
Lemma fits_modify (Q : unit → Prop) g s : ctx_fits (g s) → Q tt → fits Q (modifyS g) s.
Proof. intros Hs Hq. split; [done|]. by intros ? [= <-]. Qed.
Lemma fits_getS {A} (Q : A → Prop) (k : PStore → PM A) s : fits Q (k s) s → fits Q (getS ≫= k) s.
Proof. done. Qed.
Lemma fits_bind {A B} (P : A → Prop) (Q : B → Prop) (m : PM A) (f : A → PM B) s :
  fits P m s → (∀ a s', P a → ctx_fits s' → fits Q (f a) s') → fits Q (m ≫= f) s.
Proof.
  intros [Hs Hp] Hf. unfold fits, mbind, GM_bind. destruct (m s) as [[a|e| |] s'] eqn:E; simpl in *; try done.
  apply Hf; [by apply Hp|done].
Qed.
#[local] Hint Resolve fits_ret fits_throw fits_panic fits_nofuel : skiff.

Lemma fits_readBytes s : ctx_fits s → fits (λ _, True) readBytes s.
Proof.
  intros Hs. apply fits_getS. destruct (split_line (reader s)) as [[l rest]|];
    (apply (fits_bind (λ _, True)); [by apply fits_modify|]; intros; auto with skiff).
Qed.

Lemma fits_readNextCmd s : ctx_fits s → fits (λ _, True) readNextCmd s.
Proof.
  intros Hs. apply (fits_bind (λ _, True)); [by apply fits_readBytes|]. intros cmd s' _ Hs'.
  repeat case_match; auto with skiff.
Qed.

(** The body of a bulk string has been read into a buffer that was allocated. *)
Lemma fits_body len s : ctx_fits s → fits arg_fits (readNextCmdFixedLength len) s.
Proof.
  intros Hs. unfold readNextCmdFixedLength. destruct (makeslice_ok 1 _) eqn:Hm; [|auto with skiff].
  unfold makeslice_ok in Hm. apply andb_true_iff in Hm as [H0 H1]. apply Z.leb_le in H0, H1.
  apply (fits_bind (λ cmd, (Z.of_nat (length cmd) ≤ maxAlloc)%Z)).
  - apply fits_getS. cbv beta zeta. case_bool_decide; (apply (fits_bind (λ _, True)); [by apply fits_modify|]); intros;
      [|auto with skiff]. apply fits_ret; [done|]. rewrite length_take. lia.
  - intros cmd s' Hl Hs'. case_bool_decide; [auto with skiff|]. destruct (HasSuffix cmd Separator) eqn:Hx;
      simpl; [|auto with skiff]. apply fits_ret; [done|]. apply HasSuffix_split in Hx. unfold arg_fits.
    rewrite Hx, length_app in Hl. simpl in Hl. lia.
Qed.

Lemma fits_setArg arg s : arg_fits arg → ctx_fits s → fits (λ _, True) (setArg arg) s.
Proof.
  intros Ha Hs. apply fits_getS. cbv beta zeta. pose proof Hs as Hs'. unfold ctx_fits in Hs'.
  destruct (CmdArgs (ctx s)) as [args|] eqn:Ec; [|auto with skiff].
  repeat (case_match; [auto with skiff|]). apply fits_modify; [|done]. unfold ctx_fits. simpl.
  destruct Hs' as [Hl Hf]. split; [by rewrite length_insert|by apply Forall_insert].
Qed.

Lemma fits_start cmd s : ctx_fits s → fits (λ _, True) (readCommandStart cmd) s.
Proof.
  intros Hs. unfold readCommandStart. destruct cmd as [|c cmd]; [auto with skiff|].
  assert (Hlen : ∀ s', ctx_fits s' → fits (λ _, True) (getLengthInHeader (c :: cmd)) s')
    by (intros; unfold getLengthInHeader; case_match; auto with skiff).
  case_bool_decide; [|case_bool_decide; [|auto with skiff]];
    (eapply fits_bind; [by apply Hlen|]; intros len s1 _ Hs1); [by apply fits_modify|].
  apply (fits_bind (λ _, True)); [|intros; by apply fits_modify].
  unfold initCmdArgs. case_match; [auto with skiff|]. destruct (makeslice_ok 16 len) eqn:Hmk; [|auto with skiff].
  apply fits_modify; [|done]. unfold makeslice_ok in Hmk. apply andb_true_iff in Hmk as [Hz Hm].
  apply Z.leb_le in Hz, Hm. split; simpl.
  - rewrite length_replicate. lia.
  - apply Forall_replicate. unfold arg_fits, maxAlloc. simpl. lia.
Qed.

Lemma fits_loop body fuel i s : (∀ s', ctx_fits s' → fits (λ _, True) body s') → ctx_fits s →
  fits (λ _, True) (arrayLoop body fuel i) s.
Proof.
  intros Hb. revert i s. induction fuel as [|fuel IH]; intros i s Hs; cbn [arrayLoop]; [auto with skiff|].
  apply fits_getS. case_bool_decide; [|auto with skiff].
  apply (fits_bind (λ _, True)); [by apply fits_modify|]. intros [] s1 _ Hs1.
  apply (fits_bind (λ _, True)); [by apply Hb|]. intros [] s2 _ Hs2. by apply IH.
Qed.

Lemma fits_parse d s : ctx_fits s → fits (λ _, True) (ParseRESPCommand_at d) s.
Proof.
  revert s. induction d as [|d IH]; intros s Hs; cbn [ParseRESPCommand_at]; [auto with skiff|].
  apply fits_getS. destruct (state (ctx s)).
  - apply (fits_bind (λ _, True)); [by apply fits_readNextCmd|]. intros cmd s1 _ Hs1.
    apply (fits_bind (λ _, True)); [by apply fits_start|]. intros [] s2 _ Hs2. by apply IH.
  - apply (fits_bind (λ _, True)); [by apply fits_readNextCmd|]. intros cmd s1 _ Hs1.
    apply (fits_bind (λ _, True)); [by apply fits_start|]. intros [] s2 _ Hs2.
    apply fits_getS. case_match; [auto with skiff|by apply IH].
  - apply (fits_bind arg_fits); [by apply fits_body|]. intros cmd s1 Ha Hs1. by apply fits_setArg.
  - by apply fits_loop.
Qed.

Lemma parsed_args_fit s p o : ctx_fits s → ParseRESPCommand s = (o, p) →
  args_fit (default [] (CmdArgs (ctx p))).
Proof.
  intros Hs E. destruct (fits_parse 4 s Hs) as [Hp _]. unfold ParseRESPCommand in E. rewrite E in Hp.
  unfold ctx_fits in Hp. simpl in Hp. destruct (CmdArgs (ctx p)); [done|]. split; [done|constructor].
Qed.
End sizes.

(** ** The replies of a connection *)
Section replies.
Context {R : Type} `{RaftLaws R} `{UnicodeTables}.
Implicit Types (n : Node R) (c : Conn R).

Lemma fits_cmd args cmd : Parser.args_fit args → BuildCmd args = Some cmd →
  cmd_fits cmd ∧ Forall Parser.arg_fits (Args cmd).
Proof.
  intros [Hl Hf] Hb. split; [|by eapply BuildCmd_args]. unfold cmd_fits, in_int64, Parser.maxAlloc in *.
  destruct args as [|op rest]; [done|]. destruct rest; injection Hb as <-; simpl in *; lia.
Qed.

(** One request on a node without Raft. *)
Lemma serve_one_framed args n reply n' : raft n = None → node_wf n → values_fit (node_view n) →
  Parser.args_fit args → serve_one args n = (Ok reply, n') →
  framed reply ∧ raft n' = None ∧ node_wf n' ∧ values_fit (node_view n').
Proof.
  intros Hr Hwf Hv Ha E. unfold serve_one in E. destruct (BuildCmd args) as [cmd|] eqn:Eb.
  2:{ injection E as <- <-. split; [by apply framed_const|done]. }
  destruct (fits_cmd args cmd Ha Eb) as [Hfit Hargs]. apply request_of_fits in Hargs.
  assert (El : executeRESPCmd (Some cmd) n = execute_local cmd n).
  { unfold executeRESPCmd. rewrite gm_bind_getS. unfold RaftEnabled. rewrite Hr. by rewrite andb_false_r. }
  rewrite El in E. destruct (execute_local_runs n cmd Hwf Hfit) as (save & n1 & E1 & Hwf1 & Hv1 & _ & Hs).
  destruct (Hs Hr) as [-> Hr1]. rewrite E in E1. injection E1 as -> ->. split_and!; [|done|done|].
  - by apply framed_reply.
  - rewrite Hv1. by apply denote_fits.
Qed.

Lemma loop_framed fuel c : raft (node c) = None → node_wf (node c) → values_fit (node_view (node c)) →
  ctx_fits (parser c) → Forall framed (output c) →
  let c' := snd (connection_loop fuel c) in Forall framed (output c') ∧ values_fit (node_view (node c')).
Proof.
  revert c. induction fuel as [|fuel IH]; intros c Hr Hwf Hv Hp Ho; [done|].
  destruct (Parser.ParseRESPCommand (parser c)) as [o p] eqn:Ep.
  pose proof (parsed_args_fit _ _ _ Hp Ep) as Ha. destruct o as [[]|e| |].
  - destruct (serve_one_total (default [] (Parser.CmdArgs (Parser.ctx p))) (node c) Hwf) as (reply & n' & Es & _).
    destruct (serve_one_framed _ _ _ _ Hr Hwf Hv Ha Es) as (Hf & Hr' & Hwf' & Hv').
    rewrite (loop_ok fuel c _ p reply n' Ep eq_refl Es). apply IH; [done..|].
    apply Forall_app. split; [done|]. by apply Forall_singleton.
  - destruct (decide (e = Parser.EOF)) as [->|He]; [by rewrite (loop_eof fuel c p Ep)|].
    rewrite (loop_err fuel c e p Ep He). apply IH; [done..|].
    apply Forall_app. split; [done|]. apply Forall_singleton. by apply framed_const.
  - cbn [connection_loop]. by gm_step (parse_next_eq _ _ _ Ep).
  - by destruct (Parser.parse_progress (parser c)) as [Hnf _]; rewrite Ep in Hnf.
Qed.
End replies.

(** ** Theorems *)
Section theorems.
Context {R : Type} `{RaftLaws R} `{UnicodeTables}.
Implicit Types n : Node R.

(** C27.  Every reply is one response.  Whatever bytes a client sends to a
    standalone server, well formed or not, each write of the server to the
    connection is one complete RESP response: a client that finds it at the head
    of its stream reads exactly it and leaves what follows.  The values stored
    keep a size that a reply can carry. *)
Theorem replies_framed input n : raft n = None → node_wf n → values_fit (node_view n) →
  let c := snd (handleConnection input n) in
  Forall framed (output c) ∧ values_fit (node_view (node c)).
Proof. intros Hr Hwf Hv. by apply (loop_framed _ (mkConn _ [] n)). Qed.
End theorems.

(** ** Witnesses *)
#[local] Existing Instance ascii_only.
Definition noise : gostring := §"*1" ++ CRLF ++ §"$4" ++ CRLF ++ §"PING" ++ CRLF ++ §"?oops" ++ CRLF.

Lemma replies_framed_witness :
  let c := snd (handleConnection noise standalone) in
  Forall framed (output c) ∧ values_fit (node_view (node c)).
Proof.
  apply (replies_framed noise standalone).
  - reflexivity.
  - exact initial_wf.
  - change (node_view standalone) with (∅ : Keyspace). apply map_Forall_empty.
Defined.
