(* ===== verification/Recovery.v ===== *)
(** * Recovery from snapshots and the log that is kept (src/core/raft.go)

    The Raft library keeps the newest snapshots of a node and drops the entries
    of the log they cover, except for a tail.  How many snapshots, how often,
    and how long the tail is, are constants of the repository
    ([raftSnapshotRetention], [raftSnapshotThreshold],
    [raftSnapshotTrailingLogs]).  The point of the tail is that a node recovers from
    an older snapshot should the newest turn out unreadable: it does when at most
    two thresholds of entries follow that snapshot ([retained_snapshot_recovers]).
    The threshold is the least distance of two snapshots, so the oldest of three is
    in general further away, and then the tail is too short ([oldest_out_of_reach]). *)

From S2P Require Import Prelude GoLib Resp MemDB CmdExecutor Utf8 Json Fsm RespServer Membership Config Identity Startup Cluster.
Import Build MemDB.

(** [compactLogs trailing snapshot last]: how many entries, from the first, the
    library drops after a snapshot at index [snapshot] when the log ends at
    [last].  Its documentation: none after the snapshot, and at least [trailing]
    entries are left. *)
Class CompactionLib := { compactLogs : N → nat → nat → nat }.
Class CompactionLaws `{CompactionLib} := {
  compact_snapshot trailing snapshot last : compactLogs trailing snapshot last ≤ snapshot;
  compact_trailing trailing snapshot last :
    compactLogs trailing snapshot last + N.to_nat trailing ≤ last ∨ compactLogs trailing snapshot last = 0;
}.

Section recovery.
Context `{CompactionLaws}.

(** The number of entries that are gone after a snapshot at [newest], when the log
    ends at [last]. *)
Definition dropped (newest last : nat) : nat := compactLogs raftSnapshotTrailingLogs newest last.

Lemma trailing_logs : N.to_nat raftSnapshotTrailingLogs = (raftSnapshotRetention - 1) * N.to_nat raftSnapshotThreshold.
Proof. unfold raftSnapshotTrailingLogs. rewrite N2Nat.inj_mul, Nat2N.id. apply Nat.mul_comm. Qed.

(** The newest snapshot, and one with few entries after it, is not older than the
    log that is left. *)
Lemma snapshot_reaches newest last k :
  k = newest ∨ last ≤ k + (raftSnapshotRetention - 1) * N.to_nat raftSnapshotThreshold → dropped newest last ≤ k.
Proof.
  rewrite <- trailing_logs. unfold dropped. intros [->|Hk]; [apply compact_snapshot|].
  destruct (compact_trailing raftSnapshotTrailingLogs newest last) as [Hc| ->]; lia.
Qed.

(** Applying the entries that follow. *)
Lemma replay_app l1 l2 : replay (l1 ++ l2) = foldl entry_effect (replay l1) l2.
Proof. unfold replay. apply foldl_app. Qed.

Lemma applied_entries entries s : Forall entry_ok entries → mem_wf (Fsm.db s) → Fsm.leaderAdminAddr s = [] →
  ∃ s', applied entries s s' ∧ deref (Fsm.db s') = foldl entry_effect (deref (Fsm.db s)) entries.
Proof.
  intros He. revert s. induction He as [|d entries Hd _ IH]; intros s Hwf Hl; [by exists s; split; [constructor|]|].
  destruct (entry_apply None d s Hd Hwf Hl) as (resp & s1 & E & Hwf1 & Hd1 & Hl1).
  destruct (IH s1 Hwf1 Hl1) as (s2 & Ha & Hd2). exists s2. split; [by econstructor|]. simpl. by rewrite Hd2, Hd1.
Qed.

(** C25.  A node recovers from its snapshots and the log that was kept.  After the
    snapshot at [newest] the library has dropped entries from a log that ended at
    [last]; the log may have grown since.  If a restarting node can read the newest
    snapshot, or an older one that at most two thresholds of entries followed
    at that time, then restoring it and applying the kept entries after it
    gives the state of the whole log. *)
Theorem retained_snapshot_recovers entries newest last k m : Forall entry_ok entries →
  k = newest ∨ last ≤ k + (raftSnapshotRetention - 1) * N.to_nat raftSnapshotThreshold →
  let gone := dropped newest last in
  gone ≤ k ∧
  ∃ m' s', Fsm.Restore (SnapCodec.Encode (replay (take k entries))) m = (Ok tt, m') ∧
    applied (drop (k - gone) (drop gone entries)) (Fsm.mkState m' []) s' ∧
    deref (Fsm.db s') = replay entries.
Proof.
  intros He Hk gone. pose proof (snapshot_reaches _ _ _ Hk) as Hg. fold gone in Hg. split; [done|].
  assert (Hv : valid_ks (replay (take k entries))) by (by apply replay_valid, Forall_take).
  destruct (restore_Encode _ m Hv) as (m' & E & Hwf & Hd). exists m'.
  rewrite drop_drop, Nat.add_comm, Nat.sub_add by done.
  destruct (applied_entries (drop k entries) (Fsm.mkState m' [])) as (s' & Ha & Hd');
    [by apply Forall_drop|done|done|].
  exists s'. split_and!; [done|done|]. rewrite Hd'. simpl. rewrite Hd, <- replay_app. by rewrite take_drop.
Qed.

(** If the library keeps no more than it is asked to, then the oldest of three
    snapshots that are at least a threshold apart misses entries as soon as the log
    has gone on after the newest. *)
Lemma oldest_out_of_reach oldest middle newest last :
  oldest + N.to_nat raftSnapshotThreshold ≤ middle → middle + N.to_nat raftSnapshotThreshold ≤ newest → newest < last →
  newest `min` (last - N.to_nat raftSnapshotTrailingLogs) ≤ dropped newest last → oldest < dropped newest last.
Proof.
  rewrite trailing_logs. unfold raftSnapshotRetention. assert (0 < N.to_nat raftSnapshotThreshold)
    by (change raftSnapshotThreshold with 8192%N; lia).
  generalize dependent (N.to_nat raftSnapshotThreshold). lia.
Qed.
End recovery.

(** ** Witnesses *)
#[local] Instance tail_only : CompactionLib :=
  {| compactLogs trailing snapshot last := snapshot `min` (last - N.to_nat trailing) |}.
#[local] Instance tail_only_laws : CompactionLaws.
Proof. split; unfold compactLogs, tail_only; intros; lia. Qed.

Definition two_sets : list gostring :=
  [CmdCodec.Marshal (mkCmd §"SET" [§"k"; §"v"]); CmdCodec.Marshal (mkCmd §"SET" [§"k"; §"w"])].

Lemma retained_snapshot_recovers_witness :
  let gone := dropped 2 2 in
  gone ≤ 1 ∧
  ∃ m' s', Fsm.Restore (SnapCodec.Encode (replay (take 1 two_sets))) initial = (Ok tt, m') ∧
    applied (drop (1 - gone) (drop gone two_sets)) (Fsm.mkState m' []) s' ∧
    deref (Fsm.db s') = replay two_sets.
Proof.
  apply (retained_snapshot_recovers two_sets 2 2 1 initial).
  - apply Forall_cons; split; [|apply Forall_cons; split; [|by apply Forall_nil]];
      (left; eexists; split; [reflexivity|]; split; [reflexivity|];
       vm_compute; split; [discriminate | reflexivity]).
  - right. change raftSnapshotThreshold with 8192%N. unfold raftSnapshotRetention. lia.
Defined.

(** Three snapshots a threshold apart and one entry more: the first entry is gone,
    which the oldest snapshot needs. *)
Lemma oldest_out_of_reach_example : 0 < dropped (2 * N.to_nat raftSnapshotThreshold) (2 * N.to_nat raftSnapshotThreshold + 1).
Proof.
  apply (oldest_out_of_reach 0 (N.to_nat raftSnapshotThreshold)); unfold dropped, compactLogs, tail_only; lia.
Qed.
