(* ===== verification/Routes.v ===== *)
(** * The two routes of a command (src/server/resp_server.go)

    With Raft, writes take a long way: they are encoded, replicated, decoded and
    applied, while reads are executed at once.  Here: for clients that send
    UTF-8, the leader of a cluster in which nothing else happens is
    indistinguishable from a server without Raft. *)

From S2P Require Import Prelude GoLib Resp MemDB CmdExecutor Utf8 Json Fsm RespServer.
Import Build MemDB.

(** A cluster in which nothing else happens: the node leads, an entry is applied
    right after those before it, and snapshots succeed. *)
Class Undisturbed (R : Type) `{RaftLib R} : Prop := {
  und_leader r : raft_is_leader r = true;
  und_apply payload r s resp s' : Fsm.Apply None payload s = (Ok resp, s') →
    ∃ r', raft_apply payload r s = (Some (iface_of resp), (r', s'));
  und_snapshot r s : fst (raft_snapshot r s) = None;
}.

Section routes.
Context {R : Type} `{RaftLaws R} `{!Undisturbed R} `{UnicodeTables}.
Implicit Types (n : Node R) (cmd : Cmd) (reqs : list (list gostring)).

(** Both routes do what the specification says. *)
Lemma leader_runs n cmd : node_wf n → is_Some (raft n) → cmd_fits cmd → valid_cmd cmd →
  ∃ n', let out := denote None (request_of cmd) (node_view n) in
    executeRESPCmd (Some cmd) n = (Ok (fst out), n') ∧ node_wf n' ∧ is_Some (raft n') ∧ node_view n' = snd out.
Proof.
  intros Hwf [r Hr] Hfit Hv. unfold executeRESPCmd. rewrite gm_bind_getS.
  unfold RaftEnabled, IsLeader. rewrite Hr, und_leader. simpl. rewrite andb_true_r.
  destruct (IsWriteOp cmd) eqn:Hw.
  - unfold ApplyCmdViaRaft. rewrite gm_bind_getS, Hr. unfold applyCmdViaRaftNode.
    destruct (apply_Marshal None cmd (fsm n) Hwf Hfit (write_op_not_admin cmd Hw)) as (s' & E & Hwf' & Hd & _).
    rewrite (repair_valid cmd Hv) in E, Hd. destruct (und_apply _ r _ _ _ E) as [r' ->].
    eexists. by split_and!.
  - unfold execute_local.
    assert (∃ n1, (if calls_save cmd then SaveSnapshot else mret None) n = (Ok None, n1) ∧
      node_wf n1 ∧ node_view n1 = node_view n ∧ is_Some (raft n1)) as (n1 & E1 & Hwf1 & Hv1 & Hr1).
    { destruct (calls_save cmd); [|by exists n; rewrite Hr].
      destruct (SaveSnapshot_total n Hwf) as (err & n1 & E1 & Hwf1 & Hv1 & _ & _).
      exists n1. revert E1. unfold SaveSnapshot. rewrite Hr. pose proof (und_snapshot r (fsm n)) as Hs.
      destruct (raft_snapshot r (fsm n)) as [err' [r' s']]. simpl in Hs. subst err'.
      intros [= <- <-]. by split_and!. }
    gm_step E1. destruct (mem_execute None cmd (Fsm.db (fsm n1)) Hwf1 Hfit) as (m' & E2 & Hwf2 & Hv2).
    unfold on_fsm, Fsm.on_db, ExecuteLocally. rewrite E2. eexists. rewrite <- Hv1. by split_and!.
Qed.

Lemma serve_leader reqs cmds n : is_Some (raft n) → node_wf n → mapM BuildCmd reqs = Some cmds →
  Forall cmd_fits cmds → Forall valid_cmd cmds →
  ∃ n', serve reqs n = (Ok (fst (denote_all None cmds (node_view n))), n') ∧
        node_view n' = snd (denote_all None cmds (node_view n)).
Proof.
  revert cmds n. induction reqs as [|args reqs IH]; intros cmds n Hr Hwf Hb Hfit Hv; simpl in Hb.
  { injection Hb as <-. by exists n. }
  destruct (BuildCmd args) as [cmd|] eqn:Ec; [|done].
  destruct (mapM BuildCmd reqs) as [cmds'|] eqn:Em; [|done]. injection Hb as <-.
  apply Forall_cons in Hfit as [Hc Hfit]. apply Forall_cons in Hv as [Hvc Hv].
  destruct (leader_runs n cmd Hwf Hr Hc Hvc) as (n1 & E1 & Hwf1 & Hr1 & Hv1).
  assert (Eo : serve_one args n = executeRESPCmd (Some cmd) n) by (unfold serve_one; by rewrite Ec).
  rewrite <- Eo in E1. cbn [serve denote_all]. gm_step E1.
  destruct (IH cmds' n1 Hr1 Hwf1 eq_refl Hfit Hv) as (n2 & E2 & Hv2). gm_step E2. rewrite Hv1 in *.
  destruct (denote None (request_of cmd) (node_view n)) as [reply ks1]. simpl in *.
  destruct (denote_all None cmds' ks1). by exists n2.
Qed.
End routes.

(** ** Theorems *)
Section theorems.
Context {R R' : Type} `{RaftLaws R, !Undisturbed R} `{RaftLaws R'} `{UnicodeTables}.
Implicit Types reqs : list (list gostring).

(** C21.  Replication is transparent.  For every batch of requests of valid UTF-8,
    none with an empty argument, the leader of an undisturbed cluster writes the
    same bytes to the connection as a server without Raft that holds the same
    data, and both hold the same data afterwards. *)
Theorem leader_equals_standalone reqs cmds (n : Node R) (n0 : Node R') :
  is_Some (raft n) → node_wf n → raft n0 = None → node_wf n0 → node_view n = node_view n0 →
  Forall sendable reqs → mapM BuildCmd reqs = Some cmds → Forall cmd_fits cmds → Forall valid_cmd cmds →
  let c := handleConnection (encode_requests reqs) n in
  let c0 := handleConnection (encode_requests reqs) n0 in
  fst c = Ok tt ∧ fst c0 = Ok tt ∧ output (snd c) = output (snd c0) ∧
  node_view (node (snd c)) = node_view (node (snd c0)).
Proof.
  intros Hr Hwf Hr0 Hwf0 Hv Hs Hb Hfit Hval.
  destruct (serve_leader reqs cmds n Hr Hwf Hb Hfit Hval) as (n' & E & Hn').
  destruct (serve_standalone reqs cmds n0 Hr0 Hwf0 Hb Hfit) as (n0' & E0 & Hn0').
  destruct (handle_serve reqs n _ n' Hs E) as [p ->]. destruct (handle_serve reqs n0 _ n0' Hs E0) as [p0 ->].
  simpl. rewrite Hn', Hn0', Hv. done.
Qed.
End theorems.

(** ** Witnesses: a node that always leads *)
Definition Alone := unit.
#[local] Instance Alone_lib : RaftLib Alone := {|
  raft_is_leader _ := true;
  raft_apply payload r s :=
    match Fsm.Apply None payload s with
    | (Ok resp, s') => (Some (iface_of resp), (r, s'))
    | _ => (None, (r, s))
    end;
  raft_snapshot r s := (None, (r, s));
|}.
#[local] Instance Alone_laws : RaftLaws Alone.
Proof.
  split.
  - intros payload r s i r' s' E. unfold raft_apply, Alone_lib in E.
    destruct (Fsm.Apply None payload s) as [[resp| | |] s1] eqn:Ea; try done. injection E as <- <- <-.
    exists [], None, s, resp. split; [constructor|done].
  - intros payload r s r' s' E. unfold raft_apply, Alone_lib in E. exists [].
    destruct (Fsm.Apply None payload s) as [[] ?]; try done; injection E as <- <-; constructor.
  - intros r s err r' s' E. by injection E as <- <- <-.
Qed.
#[local] Instance Alone_undisturbed : Undisturbed Alone.
Proof.
  split; [done| |done]. intros payload r s resp s' E. exists r. unfold raft_apply, Alone_lib. by rewrite E.
Qed.
#[local] Existing Instance ascii_tables.

Definition alone : Node Alone := mkNode (Fsm.mkState initial []) (Some tt).

Lemma leader_equals_standalone_witness :
  let c := handleConnection (encode_requests set_get) alone in
  let c0 := handleConnection (encode_requests set_get) standalone in
  fst c = Ok tt ∧ fst c0 = Ok tt ∧ output (snd c) = output (snd c0) ∧
  node_view (node (snd c)) = node_view (node (snd c0)).
Proof.
  apply (leader_equals_standalone set_get [mkCmd §"SET" [§"k"; §"v"]; mkCmd §"GET" [§"k"]] alone standalone).
  - eexists. reflexivity.
  - exact initial_wf.
  - reflexivity.
  - exact initial_wf.
  - reflexivity.
  - exact set_get_sendable.
  - vm_compute. reflexivity.
  - repeat constructor; vm_compute; discriminate.
  - repeat constructor; vm_compute; reflexivity.
Defined.
