(* ===== verification/Goroutines.v ===== *)
(** * Locks, shared variables and goroutines (src/core/raft.go, src/server)

    The process has many goroutines: one per connection and per admin call, the
    one that shuts Raft down, the one that announces the leader, and the
    goroutine of the Raft library that runs the state machine.  They share four
    locks and four variables.  Here every function that takes a lock is the
    sequence of its lock operations, its accesses to shared variables and its
    calls to the Raft library; [Locking] has the values.  Since locks are taken in one order, and the library's
    goroutine comes in that order before the mutex of the database, every call
    returns ([calls_return]); and all variables but one are guarded
    ([guarded_variables], [leader_address_race]). *)

From S2P Require Import Prelude GoLib Resp MemDB CmdExecutor Utf8 Json Fsm.

(** ** Actions *)
Inductive lock := raftNodeMu | membershipMu | joinProgressMu | dbMutex.
#[global] Instance lock_eq_dec : EqDecision lock.
Proof. solve_decision. Defined.

Inductive var := v_raftNode | v_joinProgress | v_keyspace | v_leaderAdminAddr.
#[global] Instance var_eq_dec : EqDecision var.
Proof. solve_decision. Defined.

(** What the Raft library gives its state machine goroutine to do: apply an
    entry, pass a change of the configuration, [fsm.Snapshot], [fsm.Restore], or
    stop. *)
Inductive job :=
| JEntry (cmd : Cmd)
| JConfiguration
| JSnapshot
| JRestore
| JStop.

(** [ALib] is a call that returns by itself; [AFsm] is one that returns when the
    state machine goroutine has done a job ([raft.Apply], [AddVoter],
    [raft.Snapshot], [raft.Shutdown] and their futures), and [AWait] is its
    second half. *)
Inductive act :=
| ARLock (l : lock)
| ARUnlock (l : lock)
| ALock (l : lock)
| AUnlock (l : lock)
| ARead (x : var)
| AWrite (x : var)
| ALib
| AFsm (j : job)
| AWait.

Abbreviation prog := (list act).

(** ** The functions *)
Definition db_read : prog := [ARLock dbMutex; ARead v_keyspace; ARUnlock dbMutex].
Definition db_write : prog := [ALock dbMutex; ARead v_keyspace; AWrite v_keyspace; AUnlock dbMutex].

Definition RaftEnabled_code : prog := [ARLock raftNodeMu; ARead v_raftNode; ARUnlock raftNodeMu].

Definition IsLeader_code (enabled : bool) : prog :=
  [ARLock raftNodeMu; ARead v_raftNode] ++ (if enabled then [ALib] else []) ++ [ARUnlock raftNodeMu].

Definition SaveSnapshot_code (enabled : bool) : prog :=
  [ARLock raftNodeMu; ARead v_raftNode] ++ (if enabled then [AFsm JSnapshot] else []) ++ [ARUnlock raftNodeMu].

(** [executeOnDB]: the method of the database that a command calls. *)
Definition cmd_code (enabled : bool) (cmd : Cmd) : prog :=
  let args n p := if bool_decide (length (Args cmd) = n) then p else [] in
  if decide (Op cmd = §"SET") then args 2 db_write
  else if decide (Op cmd = §"GET") then args 1 db_read
  else if decide (Op cmd = §"DEL") then args 1 db_write
  else if decide (Op cmd = §"INCR") then args 1 db_write
  else if decide (Op cmd = §"DECR") then args 1 db_write
  else if decide (Op cmd = §"INCRBY") then
    args 2 (match Args cmd with [_; d] => match Atoi d with Some _ => db_write | None => [] end | _ => [] end)
  else if decide (Op cmd = §"EXISTS") then match Args cmd with [] => [] | _ => db_read end
  else if decide (Op cmd = §"SAVE") then args 0 (SaveSnapshot_code enabled)
  else [].

(** What the state machine goroutine does: [fsm.Apply], [Snapshot], [Restore]. *)
Definition job_code (j : job) : prog :=
  match j with
  | JEntry cmd => if decide (Op cmd = OpLeaderChanged) then [AWrite v_leaderAdminAddr] else cmd_code true cmd
  | JSnapshot => db_read
  | JRestore => [ALock dbMutex; AWrite v_keyspace; AUnlock dbMutex]
  | JConfiguration | JStop => []
  end.

Definition ApplyCmdViaRaft_code (enabled : bool) (cmd : Cmd) : prog :=
  [ARLock raftNodeMu; ARead v_raftNode] ++
  (if enabled then [AFsm (JEntry cmd)] else cmd_code false cmd) ++ [ARUnlock raftNodeMu].

(** [executeRESPCmd]: Raft may be shut down between the steps, so each has its
    own answer. *)
Definition executeRESPCmd_code (enabled leader still : bool) (cmd : Cmd) : prog :=
  if IsWriteOp cmd then
    RaftEnabled_code ++
    (if enabled then IsLeader_code still ++ (if leader then ApplyCmdViaRaft_code still cmd else [])
     else cmd_code enabled cmd)
  else cmd_code enabled cmd.

Definition recordJoinProgress_code : prog :=
  [ALock joinProgressMu; ARead v_joinProgress; ALib; AWrite v_joinProgress; AUnlock joinProgressMu].
Definition clearJoinProgress_code : prog :=
  [ALock joinProgressMu; AWrite v_joinProgress; AUnlock joinProgressMu].

(** [nonvoters] is the number of servers without a vote. *)
Definition buildClusterInfoForNode_code (nonvoters : nat) : prog :=
  [ALib; ALib; ARead v_leaderAdminAddr] ++ mjoin (replicate nonvoters recordJoinProgress_code).
Definition buildClusterInfo_code (enabled : bool) (nonvoters : nat) : prog :=
  [ARLock raftNodeMu; ARead v_raftNode] ++
  (if enabled then buildClusterInfoForNode_code nonvoters else []) ++ [ARUnlock raftNodeMu].

(** The branches of [JoinClusterWithProgress] below its last check. *)
Inductive join_branch :=
| BInvalid | BVoter | BAddFails | BAdded | BBehind | BPromoteFails | BPromoted.
Definition join_branch_code (b : join_branch) (nonvoters : nat) : prog :=
  match b with
  | BInvalid => []
  | BVoter => clearJoinProgress_code ++ buildClusterInfoForNode_code nonvoters
  | BAddFails => [AFsm JConfiguration]
  | BAdded => [AFsm JConfiguration; ALib] ++ recordJoinProgress_code ++ buildClusterInfoForNode_code nonvoters
  | BBehind => recordJoinProgress_code ++ buildClusterInfoForNode_code nonvoters
  | BPromoteFails => recordJoinProgress_code ++ [AFsm JConfiguration]
  | BPromoted => recordJoinProgress_code ++ [AFsm JConfiguration] ++ clearJoinProgress_code ++
                 buildClusterInfoForNode_code nonvoters
  end.

Inductive join_outcome := ONotEnabled | ONotLeader | OBadRequest | OAdmitted (b : join_branch).
Definition JoinClusterWithProgress_code (o : join_outcome) (nonvoters : nat) : prog :=
  [ARLock raftNodeMu; ARead v_raftNode] ++
  match o with
  | ONotEnabled => []
  | ONotLeader => [ALib; ARead v_leaderAdminAddr]
  | OBadRequest => [ALib]
  | OAdmitted b => [ALib; ALock membershipMu; ALib] ++ join_branch_code b nonvoters ++ [AUnlock membershipMu]
  end ++ [ARUnlock raftNodeMu].

(** [StartRaft] holds its lock throughout.  [NewRaft] may restore a snapshot;
    when a later step fails, the node is closed. *)
Inductive start_branch := BRefused | BFailed (restored : bool) | BPublished (restored : bool).
Definition StartRaft_code (b : start_branch) : prog :=
  [ALock raftNodeMu; ARead v_raftNode] ++
  match b with
  | BRefused => [ALib]
  | BFailed restored => [ALib] ++ (if restored then job_code JRestore else []) ++ [ALib; AFsm JStop; ALib]
  | BPublished restored => [ALib] ++ (if restored then job_code JRestore else []) ++ [ALib; AWrite v_raftNode]
  end ++ [AUnlock raftNodeMu].

Definition ShutdownRaft_code (published : bool) : prog :=
  [ALock raftNodeMu; ARead v_raftNode] ++
  (if published then [AWrite v_raftNode; AFsm JStop; ALib; ALib] else []) ++ [AUnlock raftNodeMu].

(** The announcement of the leader, without a lock. *)
Definition announce_code (cmd : Cmd) : prog := [ARead v_leaderAdminAddr; AFsm (JEntry cmd)].

(** ** Calls: what a goroutine does.  [GLibrary] is the library acting by itself:
    entries committed by another leader, automatic snapshots, a snapshot
    installed by the leader. *)
Inductive gcall :=
| GExecute (enabled leader still : bool) (cmd : Cmd)
| GJoin (o : join_outcome) (nonvoters : nat)
| GInfo (enabled : bool) (nonvoters : nat)
| GStart (b : start_branch)
| GShutdown (published : bool)
| GAnnounce (addr : gostring)
| GLibrary (j : job).

Definition call_code (c : gcall) : prog :=
  match c with
  | GExecute enabled leader still cmd => executeRESPCmd_code enabled leader still cmd
  | GJoin o n => JoinClusterWithProgress_code o n
  | GInfo enabled n => buildClusterInfo_code enabled n
  | GStart b => StartRaft_code b
  | GShutdown published => ShutdownRaft_code published
  | GAnnounce addr => announce_code (mkCmd OpLeaderChanged [addr])
  | GLibrary j => [AFsm j]
  end.

(** The entries of the log are the writes of clients and the announcements. *)
Definition entry_cmd (cmd : Cmd) : bool := IsWriteOp cmd || bool_decide (Op cmd = OpLeaderChanged).
Definition call_ok (c : gcall) : bool :=
  match c with GLibrary (JEntry cmd) => entry_cmd cmd | _ => true end.

(** ** Goroutines and their steps *)
Record goroutine := mkG {
  code : prog;
  held : list (lock * bool);       (** the locks it holds, [true] for writing *)
  announced : bool;                (** it waits in [Lock] for the readers to leave *)
}.

(** [None] is the state machine goroutine of the library, while it has a job;
    [caller] is the goroutine that waits for the job. *)
Record GS := mkGS { agents : gmap (option nat) goroutine; caller : option nat }.

Definition holds (s : GS) (l : lock) (a : option nat) : Prop :=
  ∃ g m, agents s !! a = Some g ∧ (l, m) ∈ held g.
Definition writes (s : GS) (l : lock) (a : option nat) : Prop :=
  ∃ g, agents s !! a = Some g ∧ (l, true) ∈ held g.
Definition waits (s : GS) (l : lock) (a : option nat) : Prop :=
  ∃ g k, agents s !! a = Some g ∧ announced g = true ∧ code g = ALock l :: k.

Definition set_agent (a : option nat) (g : goroutine) (s : GS) : GS := mkGS (<[a := g]> (agents s)) (caller s).

(** [sync.RWMutex]: a reader enters when no writer is inside or waits; a writer
    first announces itself, then enters when nobody is inside.  A [sync.Mutex]
    is used with [Lock] only.  Locks are released in the reverse order (all
    unlocks are deferred). *)
Inductive gstep : GS → GS → Prop :=
| g_RLock s a l k h :
    agents s !! a = Some (mkG (ARLock l :: k) h false) →
    (∀ b, ¬ writes s l b ∧ ¬ waits s l b) →
    gstep s (set_agent a (mkG k ((l, false) :: h) false) s)
| g_announce s a l k h :
    agents s !! a = Some (mkG (ALock l :: k) h false) →
    (∀ b, ¬ writes s l b ∧ ¬ waits s l b) →
    gstep s (set_agent a (mkG (ALock l :: k) h true) s)
| g_Lock s a l k h :
    agents s !! a = Some (mkG (ALock l :: k) h true) →
    (∀ b, ¬ holds s l b) →
    gstep s (set_agent a (mkG k ((l, true) :: h) false) s)
| g_RUnlock s a l k h :
    agents s !! a = Some (mkG (ARUnlock l :: k) ((l, false) :: h) false) →
    gstep s (set_agent a (mkG k h false) s)
| g_Unlock s a l k h :
    agents s !! a = Some (mkG (AUnlock l :: k) ((l, true) :: h) false) →
    gstep s (set_agent a (mkG k h false) s)
| g_local s a x k h :
    x = ALib ∨ (∃ y, x = ARead y) ∨ (∃ y, x = AWrite y) →
    agents s !! a = Some (mkG (x :: k) h false) →
    gstep s (set_agent a (mkG k h false) s)
| g_call s t j k h :
    agents s !! Some t = Some (mkG (AFsm j :: k) h false) → agents s !! None = None →
    gstep s (mkGS (<[None := mkG (job_code j) [] false]> (<[Some t := mkG (AWait :: k) h false]> (agents s))) (Some t))
| g_done s t k h :
    agents s !! None = Some (mkG [] [] false) → caller s = Some t →
    agents s !! Some t = Some (mkG (AWait :: k) h false) →
    gstep s (mkGS (delete None (<[Some t := mkG k h false]> (agents s))) None).

(** Any number of goroutines, each with a sequence of calls. *)
Definition goroutine_of (calls : list gcall) : goroutine := mkG (calls ≫= call_code) [] false.
Definition pool (calls : list (list gcall)) : GS :=
  mkGS (list_to_map (imap (λ i cs, (Some i, goroutine_of cs)) calls)) None.

Definition finished (s : GS) : Prop := ∀ a g, agents s !! a = Some g → a ≠ None ∧ code g = [].

(** ** The discipline

    The order of the locks, with the state machine goroutine at 3, and the lock
    that guards each variable. *)
Definition level (l : lock) : nat :=
  match l with raftNodeMu => 0 | membershipMu => 1 | joinProgressMu => 2 | dbMutex => 4 end.
Definition fsm_level : nat := 3.

Definition guard (x : var) : option lock :=
  match x with
  | v_raftNode => Some raftNodeMu
  | v_joinProgress => Some joinProgressMu
  | v_keyspace => Some dbMutex
  | v_leaderAdminAddr => None
  end.

Definition below (n : nat) (h : list (lock * bool)) : bool := forallb (λ e, bool_decide (level (fst e) < n)) h.

Definition plain_job (j : job) : bool := match j with JEntry cmd => entry_cmd cmd | _ => true end.

(** [check fsm h p]: [p], run while [h] is held, takes locks only upwards,
    releases what it holds, touches guarded variables only under their lock, and
    calls the library only from below; it is not inside a call; [fsm] tells whether it runs on the state
    machine goroutine.  The result is what is held at its end. *)
Definition check_act (fsm : bool) (h : list (lock * bool)) (x : act) : option (list (lock * bool)) :=
  let when (b : bool) r := if b then Some r else None in
  match x with
  | ARLock l => when (below (level l) h && implb fsm (bool_decide (fsm_level < level l))) ((l, false) :: h)
  | ALock l => when (below (level l) h && implb fsm (bool_decide (fsm_level < level l))) ((l, true) :: h)
  | ARUnlock l => match h with (l', false) :: h' => when (bool_decide (l = l')) h' | _ => None end
  | AUnlock l => match h with (l', true) :: h' => when (bool_decide (l = l')) h' | _ => None end
  | ARead x =>
      match guard x with
      | Some l => when (bool_decide ((l, false) ∈ h) || bool_decide ((l, true) ∈ h)) h
      | None => Some h
      end
  | AWrite x => match guard x with Some l => when (bool_decide ((l, true) ∈ h)) h | None => Some h end
  | ALib => Some h
  | AFsm j => when (negb fsm && below fsm_level h && plain_job j) h
  | AWait => None
  end.

Fixpoint check (fsm : bool) (h : list (lock * bool)) (p : prog) : option (list (lock * bool)) :=
  match p with
  | [] => Some h
  | x :: p => h' ← check_act fsm h x; check fsm h' p
  end.

Lemma check_app fsm h p q : check fsm h (p ++ q) = h' ← check fsm h p; check fsm h' q.
Proof.
  revert h. induction p as [|x p IH]; intros h; [done|]. simpl. destruct (check_act fsm h x); [apply IH|done].
Qed.

(** [p] leaves what is held as it was. *)
Definition neutral (fsm : bool) (h : list (lock * bool)) (p : prog) : Prop := check fsm h p = Some h.

Lemma neutral_nil fsm h : neutral fsm h [].
Proof. done. Qed.
Lemma neutral_app fsm h p q : neutral fsm h p → neutral fsm h q → neutral fsm h (p ++ q).
Proof. unfold neutral. rewrite check_app. by intros ->. Qed.
Lemma neutral_join fsm h n p : neutral fsm h p → neutral fsm h (mjoin (replicate n p)).
Proof. intros Hp. induction n as [|n IH]; [done|]. by apply neutral_app. Qed.

(** A section under a lock. *)
Lemma neutral_section fsm h l m p :
  check_act fsm h (if m : bool then ALock l else ARLock l) = Some ((l, m) :: h) → neutral fsm ((l, m) :: h) p →
  neutral fsm h ((if m then ALock l else ARLock l) :: p ++ [if m then AUnlock l else ARUnlock l]).
Proof.
  intros Hl Hp. unfold neutral in *. cbn [check]. rewrite Hl. simpl. rewrite check_app, Hp. simpl.
  destruct m; simpl; by rewrite bool_decide_true.
Qed.

(** ** Every function keeps it *)

(** The commands of the log touch the database at most. *)
Lemma write_code e cmd : IsWriteOp cmd = true → cmd_code e cmd = [] ∨ cmd_code e cmd = db_write.
Proof.
  unfold IsWriteOp. intros H%bool_decide_eq_true. unfold cmd_code. destruct cmd as [op args]. simpl in *.
  unfold write_ops in H. set_unfold in H. destruct_or! H; subst op; try done; simpl; repeat case_match; auto.
Qed.

Lemma job_checked j : plain_job j = true → neutral true [] (job_code j).
Proof.
  destruct j as [cmd| | | |]; try done. simpl. unfold entry_cmd. intros H.
  destruct (decide (Op cmd = OpLeaderChanged)) as [Ho|Ho]; [done|]. rewrite (bool_decide_false _ Ho), orb_false_r in H.
  by destruct (write_code true cmd H) as [->| ->].
Qed.

Lemma cmd_checked e cmd : neutral false [] (cmd_code e cmd).
Proof. unfold cmd_code. repeat case_match; try done; by destruct e. Qed.

Lemma apply_checked e cmd : IsWriteOp cmd = true → neutral false [] (ApplyCmdViaRaft_code e cmd).
Proof.
  intros H. unfold ApplyCmdViaRaft_code.
  apply (neutral_section false [] raftNodeMu false (ARead v_raftNode :: _)); [done|]. destruct e.
  - unfold neutral. simpl. unfold entry_cmd. by rewrite H.
  - destruct (write_code false cmd H) as [->| ->]; done.
Qed.

Lemma execute_checked enabled leader still cmd : neutral false [] (executeRESPCmd_code enabled leader still cmd).
Proof.
  unfold executeRESPCmd_code. destruct (IsWriteOp cmd) eqn:H; [|apply cmd_checked].
  apply neutral_app; [done|]. destruct enabled; [|apply cmd_checked]. apply neutral_app; [by destruct still|].
  destruct leader; [by apply apply_checked|done].
Qed.

Abbreviation in_node := ([(raftNodeMu, false)]).
Abbreviation in_join := ([(membershipMu, true); (raftNodeMu, false)]).

Lemma info_checked h n : h = in_node ∨ h = in_join → neutral false h (buildClusterInfoForNode_code n).
Proof. intros Hh. apply neutral_app; [done|]. apply neutral_join. by destruct Hh as [->| ->]. Qed.

Lemma join_checked o n : neutral false [] (JoinClusterWithProgress_code o n).
Proof.
  apply (neutral_section false [] raftNodeMu false (ARead v_raftNode :: _)); [done|].
  destruct o as [| | |b]; try done. apply (neutral_app _ _ [ARead v_raftNode; ALib]); [done|].
  apply (neutral_section false in_node membershipMu true (ALib :: _)); [done|].
  apply (neutral_app _ _ [ALib]); [done|]. pose proof (info_checked in_join n (or_intror eq_refl)) as Hi.
  destruct b; try done; simpl; repeat first [exact Hi | done | apply (neutral_app _ in_join [_; _])
    | apply (neutral_app _ in_join recordJoinProgress_code) | apply (neutral_app _ in_join clearJoinProgress_code)
    | apply (neutral_app _ in_join [_])].
Qed.

Lemma call_checked c : call_ok c = true → neutral false [] (call_code c).
Proof.
  destruct c as [enabled leader still cmd|o n|enabled n|b|published|addr|j]; intros H.
  - apply execute_checked.
  - apply join_checked.
  - apply (neutral_section false [] raftNodeMu false (ARead v_raftNode :: _)); [done|].
    apply (neutral_app _ _ [_]); [done|]. destruct enabled; [apply info_checked; by left|done].
  - by destruct b as [|[]|[]].
  - by destruct published.
  - done.
  - unfold neutral. simpl in *. destruct j; simpl in *; by rewrite ?H.
Qed.

Lemma goroutine_checked calls : Forall (λ c, call_ok c = true) calls → neutral false [] (calls ≫= call_code).
Proof. induction 1; [done|]. by apply neutral_app; [apply call_checked|]. Qed.

(** ** The invariant *)
Definition is_fsm (a : option nat) : bool := bool_decide (a = None).

Definition agent_ok (a : option nat) (g : goroutine) : Prop :=
  match code g with
  | AWait :: k => is_fsm a = false ∧ below fsm_level (held g) = true ∧ check false (held g) k = Some []
  | p => check (is_fsm a) (held g) p = Some []
  end ∧ (announced g = true → ∃ l k, code g = ALock l :: k).

Record ginv (s : GS) : Prop := {
  gi_ok a g : agents s !! a = Some g → agent_ok a g;
  gi_job g : agents s !! None = Some g →
    ∃ t k h, caller s = Some t ∧ agents s !! Some t = Some (mkG (AWait :: k) h false);
  gi_wait a g k : agents s !! a = Some g → code g = AWait :: k → is_Some (agents s !! None) ∧ a = caller s;
  gi_mutex a b l : a ≠ b → writes s l a → ¬ holds s l b;
}.

Lemma agent_ok_cons a x k h an : agent_ok a (mkG (x :: k) h an) → x ≠ AWait →
  ∃ h', check_act (is_fsm a) h x = Some h' ∧ check (is_fsm a) h' k = Some [].
Proof.
  intros [H _] Hx. assert (H' : check (is_fsm a) h (x :: k) = Some []) by by destruct x.
  by apply bind_Some in H'.
Qed.

Lemma agent_ok_tail a k h : check (is_fsm a) h k = Some [] → agent_ok a (mkG k h false).
Proof. intros H. split; [|done]. simpl. destruct k as [|[] k]; done. Qed.

Lemma tail_not_waiting fsm k h : check fsm h k = Some [] → ∀ k', k ≠ AWait :: k'.
Proof. intros H k' ->. done. Qed.

Lemma holds_set a g s l b : holds (set_agent a g s) l b ↔ (a = b ∧ ∃ m, (l, m) ∈ held g) ∨ (a ≠ b ∧ holds s l b).
Proof.
  unfold holds, set_agent. simpl. destruct (decide (a = b)) as [->|Hne].
  - rewrite lookup_insert_eq. naive_solver.
  - rewrite lookup_insert_ne by done. naive_solver.
Qed.

Lemma writes_set a g s l b : writes (set_agent a g s) l b ↔ (a = b ∧ (l, true) ∈ held g) ∨ (a ≠ b ∧ writes s l b).
Proof.
  unfold writes, set_agent. simpl. destruct (decide (a = b)) as [->|Hne].
  - rewrite lookup_insert_eq. naive_solver.
  - rewrite lookup_insert_ne by done. naive_solver.
Qed.

(** One goroutine goes on, without entering or leaving a call. *)
Lemma ginv_set s a g g' : ginv s → agents s !! a = Some g → agent_ok a g' →
  (∀ k, code g ≠ AWait :: k) → (∀ k, code g' ≠ AWait :: k) →
  (∀ l m, (l, m) ∈ held g' → (l, m) ∈ held g ∨ (∀ b, ¬ writes s l b)) →
  (∀ l, (l, true) ∈ held g' → (l, true) ∈ held g ∨ (∀ b, ¬ holds s l b)) →
  ginv (set_agent a g' s).
Proof.
  intros [Hok Hjob Hwait Hmx] Ha Hg' Hg Hgw Hh Hw. split.
  - intros b gb. simpl. rewrite lookup_insert_Some. intros [[<- <-]|[_ Hb]]; [done|by eapply Hok].
  - intros gf Hf. assert (is_Some (agents s !! None)) as [gf' Hf'].
    { simpl in Hf. rewrite lookup_insert_Some in Hf. destruct Hf as [[-> _]|[_ Hf]]; by eexists. }
    destruct (Hjob _ Hf') as (t & k & h & Hc & Ht). exists t, k, h. split; [done|]. simpl.
    rewrite lookup_insert_ne; [done|]. intros ->. rewrite Ht in Ha. injection Ha as <-. by apply (Hg k).
  - intros b gb k. simpl. rewrite lookup_insert_Some. intros [[<- <-]|[_ Hb]] Hk; [by apply Hgw in Hk|].
    destruct (Hwait _ _ _ Hb Hk) as [[gf Hf] Hc]. split; [|done]. destruct (decide (a = None)) as [->|Hn];
      [rewrite lookup_insert_eq|rewrite lookup_insert_ne by done]; by eexists.
  - intros b c l Hbc. rewrite writes_set, holds_set. intros [[<- Hl]|[Hb Hl]] [[<- (m & Hm)]|[Hc Hm]]; try done.
    + destruct (Hw l Hl) as [Hl'|Hnone]; [|by apply (Hnone c)]. apply (Hmx a c l Hbc); [by exists g|done].
    + destruct (Hh l m Hm) as [Hm'|Hnone]; [|by apply (Hnone b)]. apply (Hmx b a l); [done|done|by exists g, m].
    + by apply (Hmx b c l).
Qed.

Lemma ginv_next s a x k h an h' : ginv s → agents s !! a = Some (mkG (x :: k) h an) → x ≠ AWait →
  (∀ h'', check_act (is_fsm a) h x = Some h'' → h'' = h') →
  (∀ l m, (l, m) ∈ h' → (l, m) ∈ h ∨ (∀ b, ¬ writes s l b)) →
  (∀ l, (l, true) ∈ h' → (l, true) ∈ h ∨ (∀ b, ¬ holds s l b)) →
  ginv (set_agent a (mkG k h' false) s).
Proof.
  intros Hi Ha Hx Hh H1 H2. destruct (agent_ok_cons a _ _ _ _ (gi_ok _ Hi _ _ Ha) Hx) as (h'' & Hc & Hk).
  rewrite (Hh _ Hc) in Hk. apply (ginv_set s a _ _ Hi Ha); [by apply agent_ok_tail| |by eapply tail_not_waiting|done|done].
  simpl. congruence.
Qed.

(** The calls into the library. *)
Lemma inv_call s t j k h : ginv s → agents s !! Some t = Some (mkG (AFsm j :: k) h false) → agents s !! None = None →
  ginv (mkGS (<[None := mkG (job_code j) [] false]> (<[Some t := mkG (AWait :: k) h false]> (agents s))) (Some t)).
Proof.
  intros Hi Ha Hf. destruct (agent_ok_cons _ _ _ _ _ (gi_ok _ Hi _ _ Ha)) as (h' & Hc & Hk); [done|].
  simpl in Hc. destruct (below fsm_level h && plain_job j) eqn:Hb; [|done]. injection Hc as <-.
  apply andb_prop in Hb as [Hb Hj]. set (s' := mkGS _ _).
  assert (Hh : ∀ l b m, (∃ g, agents s' !! b = Some g ∧ (l, m) ∈ held g) → ∃ g, agents s !! b = Some g ∧ (l, m) ∈ held g).
  { intros l b m (g & Hg & Hl). simpl in Hg. rewrite !lookup_insert_Some in Hg.
    destruct Hg as [[<- <-]|[_ [[<- <-]|[_ Hg]]]]; [by apply not_elem_of_nil in Hl|by eexists|by exists g]. }
  split.
  - intros a g. simpl. rewrite !lookup_insert_Some. intros [[<- <-]|[_ [[<- <-]|[_ Hg]]]].
    + apply agent_ok_tail. by apply job_checked.
    + by split.
    + by eapply gi_ok.
  - intros g _. exists t, k, h. split; [done|]. simpl. by rewrite lookup_insert_ne, lookup_insert_eq.
  - intros a g k' Hg Hw. simpl. rewrite lookup_insert_eq. split; [by eexists|].
    simpl in Hg. rewrite !lookup_insert_Some in Hg. destruct Hg as [[<- <-]|[_ [[<- <-]|[_ Hg]]]]; [|done|].
    + exfalso. eapply (tail_not_waiting true (job_code j) []); [by apply job_checked|exact Hw].
    + destruct (gi_wait _ Hi _ _ _ Hg Hw) as [[gf Hgf] _]. congruence.
  - intros a b l Hab Hw (g & m & Hg & Hl). destruct (Hh l a true Hw) as (ga & Hga & Hla).
    destruct (Hh l b m) as (gb & Hgb & Hlb); [by exists g|].
    apply (gi_mutex _ Hi a b l Hab); [by exists ga|by exists gb, m].
Qed.

Lemma inv_done s t k h : ginv s → agents s !! None = Some (mkG [] [] false) →
  agents s !! Some t = Some (mkG (AWait :: k) h false) → caller s = Some t →
  ginv (mkGS (delete None (<[Some t := mkG k h false]> (agents s))) None).
Proof.
  intros Hi Hf Ha Hc. pose proof (gi_ok _ Hi _ _ Ha) as [(_ & Hb & Hk) _]. set (s' := mkGS _ _).
  assert (Hh : ∀ l b m, (∃ g, agents s' !! b = Some g ∧ (l, m) ∈ held g) → ∃ g, agents s !! b = Some g ∧ (l, m) ∈ held g).
  { intros l b m (g & Hg & Hl). simpl in Hg. rewrite lookup_delete_Some, lookup_insert_Some in Hg.
    destruct Hg as [_ [[<- <-]|[_ Hg]]]; [by eexists|by exists g]. }
  assert (Hnw : ∀ a g k', agents s' !! a = Some g → code g ≠ AWait :: k').
  { intros a g k' Hg Hw. simpl in Hg. rewrite lookup_delete_Some, lookup_insert_Some in Hg.
    destruct Hg as [Hn [[<- <-]|[Hne Hg]]]; [by apply (tail_not_waiting _ _ _ Hk k')|].
    destruct (gi_wait _ Hi _ _ _ Hg Hw) as [_ ->]. congruence. }
  split.
  - intros a g. simpl. rewrite lookup_delete_Some, lookup_insert_Some. intros [_ [[<- <-]|[_ Hg]]];
      [by apply agent_ok_tail|by eapply gi_ok].
  - intros g. simpl. by rewrite lookup_delete_eq.
  - intros a g k' Hg Hw. by destruct (Hnw a g k' Hg).
  - intros a b l Hab Hw (g & m & Hg & Hl). destruct (Hh l a true Hw) as (ga & Hga & Hla).
    destruct (Hh l b m) as (gb & Hgb & Hlb); [by exists g|].
    apply (gi_mutex _ Hi a b l Hab); [by exists ga|by exists gb, m].
Qed.

Lemma ginv_step s s' : gstep s s' → ginv s → ginv s'.
Proof.
  intros Hs Hi. destruct Hs as [s a l k h Ha Hn|s a l k h Ha Hn|s a l k h Ha Hn|s a l k h Ha|s a l k h Ha
    |s a x k h Hx Ha|s t j k h Ha Hf|s t k h Hf Hc Ha].
  - apply (ginv_next s a _ _ _ _ _ Hi Ha); [done|simpl; intros h'; case_match; congruence| |].
    + intros l' m [[= -> ->]|?]%elem_of_cons; [right|by left]. intros b. apply Hn.
    + intros l' [[=]|?]%elem_of_cons. by left.
  - apply (ginv_set s a _ _ Hi Ha); [|done..|by left|by left].
    destruct (gi_ok _ Hi _ _ Ha) as [H _]. split; [exact H|]. intros _. by exists l, k.
  - apply (ginv_next s a _ _ _ _ _ Hi Ha); [done|simpl; intros h'; case_match; congruence| |].
    + intros l' m [[= -> ->]|?]%elem_of_cons; [right|by left]. intros b (g & Hg & Hw). apply (Hn b). by exists g, true.
    + intros l' [[= ->]|?]%elem_of_cons; [by right|by left].
  - apply (ginv_next s a _ _ _ _ _ Hi Ha); [done|simpl; intros h'; case_match; congruence|set_solver|set_solver].
  - apply (ginv_next s a _ _ _ _ _ Hi Ha); [done|simpl; intros h'; case_match; congruence|set_solver|set_solver].
  - apply (ginv_next s a _ _ _ _ _ Hi Ha); [naive_solver| |by left|by left].
    intros h'. destruct Hx as [->|[[y ->]|[y ->]]]; simpl; repeat case_match; congruence.
  - by apply inv_call.
  - by eapply inv_done.
Qed.

Lemma pool_lookup calls a g : agents (pool calls) !! a = Some g →
  ∃ i cs, a = Some i ∧ calls !! i = Some cs ∧ g = goroutine_of cs.
Proof.
  intros H%elem_of_list_to_map_2. apply elem_of_lookup_imap in H as (i & cs & [= -> ->] & Hi). by exists i, cs.
Qed.

Lemma pool_free calls l b : ¬ writes (pool calls) l b ∧ ¬ waits (pool calls) l b.
Proof.
  split.
  - intros (g & (i & cs & -> & _ & ->)%pool_lookup & H). by apply not_elem_of_nil in H.
  - by intros (g & k & (i & cs & -> & _ & ->)%pool_lookup & H & _).
Qed.

Lemma inv_pool calls : Forall (Forall (λ c, call_ok c = true)) calls → ginv (pool calls).
Proof.
  intros Hc. pose proof (pool_lookup calls) as Hl.
  assert (Hok : ∀ cs i, calls !! i = Some cs → neutral false [] (cs ≫= call_code)).
  { intros cs i Hi. apply goroutine_checked. by eapply (Forall_lookup_1 _ _ _ _ Hc). }
  split.
  - intros a g (i & cs & -> & Hi & ->)%Hl. apply agent_ok_tail. by apply (Hok _ i).
  - intros g (i & cs & [=] & _)%Hl.
  - intros a g k (i & cs & -> & Hi & ->)%Hl Hk. exfalso. by eapply tail_not_waiting; [apply (Hok _ i Hi)|].
  - intros a b l _ (g & (i & cs & -> & Hi & ->)%Hl & H). by apply not_elem_of_nil in H.
Qed.

Lemma ginv_reachable calls s : Forall (Forall (λ c, call_ok c = true)) calls → rtc gstep (pool calls) s → ginv s.
Proof. intros Hc Hr. apply inv_pool in Hc. induction Hr; eauto using ginv_step. Qed.

(** ** Progress: who waits, waits for somebody further up *)
Definition wants (g : goroutine) : option nat :=
  match code g with
  | ARLock l :: _ | ALock l :: _ => Some (level l)
  | AFsm _ :: _ | AWait :: _ => Some fsm_level
  | _ => None
  end.

Definition can_step (s : GS) : Prop := ∃ s', gstep s s'.
Definition waits_above (s : GS) (n : nat) : Prop :=
  ∃ a g n', agents s !! a = Some g ∧ wants g = Some n' ∧ n < n'.

Lemma below_elem n h l m : below n h = true → (l, m) ∈ h → level l < n.
Proof.
  unfold below. intros H Hl. apply Is_true_eq_left, forallb_True in H. rewrite Forall_forall in H.
  specialize (H _ Hl). by apply bool_decide_unpack in H.
Qed.

(** A goroutine that does not wait can go on. *)
Lemma free_steps s a g : ginv s → agents s !! a = Some g → wants g = None → code g ≠ [] → can_step s.
Proof.
  intros Hi Ha Hw Hne. destruct g as [[|x k] h an]; [done|]. pose proof (gi_ok _ Hi _ _ Ha) as Hok.
  destruct an. { destruct Hok as [_ (l & k' & [= -> ->])]; [done|]. done. }
  assert (Hstep : x ≠ AWait → (∃ h', check_act (is_fsm a) h x = Some h') → can_step s).
  { intros Hx [h' Hc]. destruct x as [l|l|l|l|y|y| |j|]; try done; simpl in Hc.
    - destruct h as [|[l' []] h]; try done. case_bool_decide; [|done]. simplify_eq. eexists. by eapply g_RUnlock.
    - destruct h as [|[l' []] h]; try done. case_bool_decide; [|done]. simplify_eq. eexists. by eapply g_Unlock.
    - eexists. eapply g_local; [|exact Ha]. by right; left; eexists.
    - eexists. eapply g_local; [|exact Ha]. by right; right; eexists.
    - eexists. eapply g_local; [by left|exact Ha]. }
  assert (Hx : x ≠ AWait) by (by intros ->). apply Hstep; [done|].
  destruct (agent_ok_cons _ _ _ _ _ Hok Hx) as (h' & Hc & _). by exists h'.
Qed.

(** A lock that is taken, or a call into the library, is above all that is held. *)
Lemma wants_above a g l m n : agent_ok a g → wants g = Some n → (l, m) ∈ held g → level l < n.
Proof.
  intros Hok Hw Hl. destruct g as [[|x k] h an]; [done|]. unfold wants in Hw. simpl in *.
  assert (Hb : below n h = true).
  { destruct x as [l'|l'|l'|l'|y|y| |j|]; try done; injection Hw as <-;
      [..|by destruct Hok as [(_ & Hb & _) _]]; destruct (agent_ok_cons _ _ _ _ _ Hok) as (h' & Hc & _); try done;
      simpl in Hc; case_match; try done;
      repeat match goal with E : _ && _ = true |- _ => apply andb_prop in E as [? ?] end; done. }
  by apply (below_elem _ _ _ _ Hb Hl).
Qed.

Lemma holder_climbs s a g l m : ginv s → agents s !! a = Some g → (l, m) ∈ held g →
  can_step s ∨ waits_above s (level l).
Proof.
  intros Hi Ha Hl. pose proof (gi_ok _ Hi _ _ Ha) as Hok. destruct (wants g) as [n|] eqn:Hw.
  - right. exists a, g, n. split_and!; [done..|]. by eapply wants_above.
  - left. apply (free_steps s a g); [done..|]. intros E. destruct Hok as [Hok _]. rewrite E in Hok.
    simpl in Hok. injection Hok as Hok. rewrite Hok in Hl. by apply not_elem_of_nil in Hl.
Qed.

Lemma fsm_climbs s g : ginv s → agents s !! None = Some g → can_step s ∨ waits_above s fsm_level.
Proof.
  intros Hi Ha. pose proof (gi_ok _ Hi _ _ Ha) as Hok. destruct (wants g) as [n|] eqn:Hw.
  - right. exists None, g, n. split_and!; [done..|]. destruct g as [[|x k] h an]; [done|]. unfold wants in Hw. simpl in *.
    destruct x as [l'|l'|l'|l'|y|y| |j|]; try done; injection Hw as <-;
      [..|by destruct Hok as [(Hf & _) _]]; destruct (agent_ok_cons _ _ _ _ _ Hok) as (h' & Hc & _); try done;
      simpl in Hc; case_match; try done;
      match goal with E : _ && _ = true |- _ => apply andb_prop in E as [_ E]; by apply bool_decide_eq_true in E end.
  - left. destruct (code g) as [|x k'] eqn:E; [|apply (free_steps s None g); [done..|by rewrite E]].
    destruct (gi_job _ Hi g Ha) as (t & k & h & Hc & Ht). destruct Hok as [Hok Han].
    rewrite E in Hok, Han. simpl in Hok. injection Hok as Hok. destruct g as [c h' an]. simpl in *. subst c h'.
    destruct an; [by destruct (Han eq_refl) as (? & ? & ?)|]. eexists. by eapply g_done.
Qed.

Lemma some_agent (f : goroutine → bool) s :
  (∃ a g, agents s !! a = Some g ∧ f g = true) ∨ (∀ a g, agents s !! a = Some g → f g = false).
Proof.
  destruct (decide (map_Forall (λ _ g, f g = false) (agents s))) as [H|H]; [by right|left].
  apply map_not_Forall in H as (a & g & Ha & Hg); [|intros; apply _]. exists a, g. split; [done|]. by destruct (f g).
Qed.

Definition waits_for (l : lock) (g : goroutine) : bool :=
  announced g && match code g with ALock l' :: _ => bool_decide (l' = l) | _ => false end.

Lemma waits_for_spec s l a g : agents s !! a = Some g → waits s l a ↔ waits_for l g = true.
Proof.
  intros Ha. unfold waits, waits_for. split.
  - intros (g' & k & Hg & Hn & Hc). rewrite Ha in Hg. injection Hg as <-. rewrite Hn, Hc. simpl. by apply bool_decide_eq_true.
  - intros [Hn H]%andb_prop. destruct (code g) as [|[] k] eqn:E; try done. apply bool_decide_eq_true in H as ->.
    by exists g, k.
Qed.

Lemma lock_holder s l : (∃ b g m, agents s !! b = Some g ∧ (l, m) ∈ held g) ∨ (∀ b, ¬ holds s l b).
Proof.
  destruct (some_agent (λ g, bool_decide ((l, false) ∈ held g) || bool_decide ((l, true) ∈ held g)) s) as [H|H].
  - left. destruct H as (a & g & Ha & [H|H]%orb_prop); apply bool_decide_eq_true in H; by eexists a, g, _.
  - right. intros b (g & m & Hg & Hl). apply H in Hg. apply orb_false_elim in Hg as [H1 H2].
    rewrite bool_decide_eq_false in H1, H2. by destruct m.
Qed.

Lemma lock_writer s l : (∃ b, writes s l b ∨ waits s l b) ∨ (∀ b, ¬ writes s l b ∧ ¬ waits s l b).
Proof.
  destruct (some_agent (λ g, bool_decide ((l, true) ∈ held g) || waits_for l g) s) as [H|H].
  - left. destruct H as (a & g & Ha & [H|H]%orb_prop); exists a; [left|right].
    + apply bool_decide_eq_true in H. by exists g.
    + by apply (waits_for_spec s l a g).
  - right. intros b. split.
    + intros (g & Hg & Hl). apply H in Hg. apply orb_false_elim in Hg as [H1 _]. by rewrite bool_decide_eq_false in H1.
    + intros Hw. pose proof Hw as (g & k & Hg & _). rewrite (waits_for_spec s l b g Hg) in Hw.
      apply H in Hg. apply orb_false_elim in Hg as [_ H2]. congruence.
Qed.

(** A writer that waits for a lock enters, or waits for somebody inside. *)
Lemma writer_climbs s l a : ginv s → waits s l a → can_step s ∨ waits_above s (level l).
Proof.
  intros Hi (g & k & Ha & Hn & Hc). destruct (lock_holder s l) as [(b & gb & m & Hb & Hl)|Hf].
  - by eapply holder_climbs.
  - left. destruct g as [c h an]. simpl in *. subst c an. eexists. by eapply g_Lock.
Qed.

Lemma blocked_climbs s l : ginv s → (∃ b, writes s l b ∨ waits s l b) → can_step s ∨ waits_above s (level l).
Proof.
  intros Hi (b & [(g & Hg & Hl)|Hw]); [by eapply holder_climbs|by eapply writer_climbs].
Qed.

Lemma waiter_climbs s a g n : ginv s → agents s !! a = Some g → wants g = Some n → can_step s ∨ waits_above s n.
Proof.
  intros Hi Ha Hw. pose proof (gi_ok _ Hi _ _ Ha) as Hok. destruct g as [[|x k] h an]; [done|].
  unfold wants in Hw. simpl in Hw. destruct x as [l|l|l|l|y|y| |j|]; try done; injection Hw as <-.
  - destruct (lock_writer s l) as [Hb|Hf]; [by apply blocked_climbs|]. left.
    destruct an; [by destruct (proj2 Hok eq_refl) as (? & ? & ?)|]. eexists. by eapply g_RLock.
  - destruct an.
    + apply (writer_climbs s l a Hi). by eexists _, k.
    + destruct (lock_writer s l) as [Hb|Hf]; [by apply blocked_climbs|]. left. eexists. by eapply g_announce.
  - destruct (agents s !! None) as [gf|] eqn:Hf; [by eapply fsm_climbs|]. left.
    destruct an; [by destruct (proj2 Hok eq_refl) as (? & ? & ?)|].
    destruct a as [t|]; [|congruence]. eexists. by eapply g_call.
  - destruct (gi_wait _ Hi _ _ _ Ha eq_refl) as [[gf Hf] _]. by eapply fsm_climbs.
Qed.

(** Nobody waits above the highest lock. *)
Lemma no_deadlock s : ginv s → can_step s ∨ finished s.
Proof.
  intros Hi. assert (Hup : ∀ d n, n + d = 5 → waits_above s n → can_step s).
  { induction d as [|d IH]; intros n Hn (a & g & n' & Ha & Hw & Hlt).
    - exfalso. assert (n' ≤ 4); [|lia]. unfold wants in Hw. destruct (code g) as [|[l|l|l|l| | | | |] k]; try done;
        injection Hw as <-; unfold fsm_level; try destruct l; simpl; lia.
    - destruct (waiter_climbs s a g n' Hi Ha Hw) as [?|(a' & g' & n'' & ? & ? & ?)]; [done|].
      apply (IH (S n)); [lia|]. exists a', g', n''. split_and!; [done..|lia]. }
  destruct (some_agent (λ g, match code g with [] => false | _ => true end) s) as [(a & g & Ha & Hc)|Hnone].
  - left. destruct (wants g) as [n|] eqn:Hw.
    + destruct (waiter_climbs s a g n Hi Ha Hw) as [?|Hb]; [done|].
      destruct (decide (n ≤ 5)) as [Hn|Hn]; [apply (Hup (5 - n) n); [lia|done]|].
      apply (Hup 0 5); [done|]. destruct Hb as (a' & g' & n' & ? & ? & ?). exists a', g', n'. split_and!; [done..|lia].
    + apply (free_steps s a g); [done..|]. intros E. by rewrite E in Hc.
  - destruct (agents s !! None) as [gf|] eqn:Hf.
    + left. destruct (fsm_climbs s gf Hi Hf) as [?|(a & g & n & Ha & Hw & _)]; [done|].
      apply Hnone in Ha. unfold wants in Hw. by destruct (code g).
    + right. intros a g Ha. split; [congruence|]. apply Hnone in Ha. by destruct (code g).
Qed.

(** ** Termination: every step uses up work *)
Definition act_work (x : act) : nat := match x with ALock _ => 2 | _ => 1 end.
Definition code_work (p : prog) : nat := sum_list_with act_work p.
Definition act_weight (x : act) : nat := match x with AFsm j => 3 + code_work (job_code j) | _ => act_work x end.
Definition weight (g : goroutine) : nat :=
  sum_list_with act_weight (code g) - (if announced g then 1 else 0).
Definition total_weight (m : gmap (option nat) goroutine) : nat := map_fold (λ _ g n, weight g + n) 0 m.

Lemma total_delete m a g : m !! a = Some g → total_weight m = weight g + total_weight (delete a m).
Proof. intros Ha. apply (map_fold_delete_L (λ _ g n, weight g + n)); [|done]. intros. lia. Qed.

Lemma total_insert m a g : total_weight (<[a := g]> m) = weight g + total_weight (delete a m).
Proof. rewrite (total_delete _ a g) by apply lookup_insert_eq. by rewrite delete_insert_eq. Qed.

Lemma job_weight j : plain_job j = true → sum_list_with act_weight (job_code j) = code_work (job_code j).
Proof.
  destruct j as [cmd| | | |]; try done. simpl. unfold entry_cmd. intros H. case_match; [done|].
  rewrite bool_decide_false, orb_false_r in H by done. by destruct (write_code true cmd H) as [->| ->].
Qed.

Lemma act_weight_pos x : 1 ≤ act_weight x.
Proof. destruct x; simpl; lia. Qed.

Lemma set_weight s a g g' : agents s !! a = Some g → weight g' < weight g →
  total_weight (agents (set_agent a g' s)) < total_weight (agents s).
Proof. intros Ha Hlt. simpl. rewrite total_insert, (total_delete (agents s) a g Ha). lia. Qed.

Lemma step_weight s s' : gstep s s' → ginv s → total_weight (agents s') < total_weight (agents s).
Proof.
  intros Hs Hi. destruct Hs as [s a l k h Ha Hn|s a l k h Ha Hn|s a l k h Ha Hn|s a l k h Ha|s a l k h Ha
    |s a x k h Hx Ha|s t j k h Ha Hf|s t k h Hf Hc Ha].
  1-5: apply (set_weight s a _ _ Ha); unfold weight; simpl; lia.
  - apply (set_weight s a _ _ Ha). unfold weight. simpl. pose proof (act_weight_pos x). lia.
  - destruct (agent_ok_cons _ _ _ _ _ (gi_ok _ Hi _ _ Ha)) as (h' & Hc & _); [done|]. simpl in Hc.
    destruct (below fsm_level h && plain_job j) eqn:Hb; [|done]. apply andb_prop in Hb as [_ Hj].
    simpl. rewrite total_insert, delete_insert_ne, total_insert by done.
    rewrite (delete_id (agents s) None) by done. rewrite (total_delete (agents s) (Some t) _ Ha).
    unfold weight. simpl. rewrite (job_weight j Hj). lia.
  - simpl. rewrite delete_insert_ne, total_insert by done.
    rewrite (total_delete (agents s) (Some t) _ Ha), (total_delete (delete (Some t) (agents s)) None _)
      by (by rewrite lookup_delete_ne). rewrite delete_delete. unfold weight. simpl. lia.
Qed.

Lemma runs_end s : ginv s → sn gstep s.
Proof.
  intros Hi. remember (total_weight (agents s)) as n eqn:Hn. revert s Hi Hn.
  induction (lt_wf n) as [n _ IH]. intros s Hi ->. constructor. intros s' Hs.
  apply (IH (total_weight (agents s'))); [by apply step_weight|by eapply ginv_step|done].
Qed.

(** ** Races *)

(** Two goroutines are about to access a variable, one of them to write it. *)
Definition about (g : goroutine) (x : var) (w : bool) : Prop :=
  ∃ k, code g = (if w then AWrite x else ARead x) :: k.
Definition race (s : GS) (x : var) : Prop :=
  ∃ a b ga gb w, a ≠ b ∧ agents s !! a = Some ga ∧ agents s !! b = Some gb ∧ about ga x true ∧ about gb x w.

Lemma about_held a g x w l : agent_ok a g → about g x w → guard x = Some l →
  ∃ m, (l, m) ∈ held g ∧ (w = true → m = true).
Proof.
  intros Hok [k Hk] Hg. destruct g as [c h an]. simpl in *. subst c.
  destruct (agent_ok_cons _ _ _ _ _ Hok) as (h' & Hc & _); [by destruct w|]. destruct w; simpl in Hc; rewrite Hg in Hc.
  - case_bool_decide; [|done]. by exists true.
  - destruct (bool_decide ((l, false) ∈ h)) eqn:E; [apply bool_decide_eq_true in E; by exists false|].
    simpl in Hc. case_bool_decide; [|done]. by exists true.
Qed.

(** ** Theorems *)
Section theorems.
Implicit Types (calls : list (list gcall)) (s : GS).

(** C15.  Every call returns.  Whatever functions of the node and the database any
    number of goroutines call, with writers and readers of the locks, with calls
    into the Raft library that wait for its state machine goroutine and with a
    shutdown at any time, no run goes on for ever, and a run that cannot go on
    has returned from every call: there is no deadlock. *)
Theorem calls_return calls s : Forall (Forall (λ c, call_ok c = true)) calls → rtc gstep (pool calls) s →
  sn gstep s ∧ ∀ s', rtc gstep s s' → nf gstep s' → finished s'.
Proof.
  intros Hc Hr. split; [by eapply runs_end, ginv_reachable|]. intros s' Hs' Hn.
  assert (Hi : ginv s') by (eapply (ginv_reachable calls); [done|by etrans]).
  destruct (no_deadlock s' Hi) as [Hstep|?]; [by destruct Hn|done].
Qed.

(** C16.  The shared variables are guarded.  In no reachable state are two
    goroutines about to access the node, the progress of joining members or the
    key space at once, one of them for writing. *)
Theorem guarded_variables calls s x : Forall (Forall (λ c, call_ok c = true)) calls → rtc gstep (pool calls) s →
  x ≠ v_leaderAdminAddr → ¬ race s x.
Proof.
  intros Hc Hr Hx (a & b & ga & gb & w & Hab & Ha & Hb & Hwa & Hwb).
  pose proof (ginv_reachable calls s Hc Hr) as Hi. destruct (guard x) as [l|] eqn:Hg; [|by destruct x].
  destruct (about_held a ga x true l (gi_ok _ Hi _ _ Ha) Hwa Hg) as (m & Hm & Ht). rewrite (Ht eq_refl) in Hm.
  destruct (about_held b gb x w l (gi_ok _ Hi _ _ Hb) Hwb Hg) as (m' & Hm' & _).
  apply (gi_mutex _ Hi a b l Hab); [by exists ga|by exists gb, m'].
Qed.

(** C38.  The record of the leader's address is not guarded.  A follower that
    refuses a join request reads [leaderAdminAddr] while the state machine
    goroutine applies an announcement and writes it: the two accesses are
    ordered by no lock. *)
Theorem leader_address_race nonvoters addr :
  let calls := [[GJoin ONotLeader nonvoters]; [GLibrary (JEntry (mkCmd OpLeaderChanged [addr]))]] in
  Forall (Forall (λ c, call_ok c = true)) calls ∧ ∃ s, rtc gstep (pool calls) s ∧ race s v_leaderAdminAddr.
Proof.
  intros calls. split; [by repeat constructor|].
  eexists. split.
  - eapply rtc_l; [eapply (g_RLock (pool calls) (Some 0) raftNodeMu); [reflexivity|apply pool_free]|].
    eapply rtc_l; [eapply (g_local _ (Some 0) (ARead v_raftNode)); [right; left; by eexists|reflexivity]|].
    eapply rtc_l; [eapply (g_local _ (Some 0) ALib); [by left|reflexivity]|].
    apply rtc_once. eapply (g_call _ 1 (JEntry (mkCmd OpLeaderChanged [addr]))); reflexivity.
  - eexists None, (Some 0), _, _, false. split_and!; [done|reflexivity|reflexivity| |]; by eexists.
Qed.
End theorems.

(** Why the log must hold no SAVE: applied by the state machine goroutine, it
    asks the library for a snapshot, which that goroutine would have to take. *)
Lemma save_entry_hangs : let calls := [[GLibrary (JEntry (mkCmd §"SAVE" []))]] in
  ∃ s, rtc gstep (pool calls) s ∧ nf gstep s ∧ ¬ finished s.
Proof.
  intros calls. set (stuck := mkG [AFsm JSnapshot; ARUnlock raftNodeMu] [(raftNodeMu, false)] false).
  set (waiting := mkG [AWait] [] false). set (hung := mkGS {[ None := stuck; Some 0 := waiting ]} (Some 0)).
  assert (Hl : ∀ a g, agents hung !! a = Some g → (a = None ∧ g = stuck) ∨ (a = Some 0 ∧ g = waiting)).
  { intros a g. simpl. rewrite lookup_insert_Some, lookup_singleton_Some. naive_solver. }
  exists hung. split_and!.
  - eapply rtc_l; [eapply (g_call (pool calls) 0); reflexivity|].
    eapply rtc_l; [eapply (g_RLock _ None raftNodeMu); [reflexivity|]|].
    { intros b. split; [intros (g & Hg & H)|intros (g & k & Hg & H & _)]; simpl in Hg;
        rewrite !lookup_insert_Some, lookup_empty in Hg; destruct Hg as [[<- <-]|[? [[<- <-]|[? [[<- <-]|[? ?]]]]]];
        try done; by apply not_elem_of_nil in H. }
    eapply rtc_l; [eapply (g_local _ None (ARead v_raftNode)); [right; left; by eexists|reflexivity]|].
    match goal with |- rtc _ ?s _ => replace hung with s by (vm_compute; reflexivity) end. apply rtc_refl.
  - intros [s' H]. inversion H as [? a ? ? ? Ha| ? a ? ? ? Ha|? a ? ? ? Ha|? a ? ? ? Ha|? a ? ? ? Ha|? a x ? ? Hx Ha
      |? t ? ? ? Ha Hf|? t ? ? Hf]; subst; try (apply Hl in Ha as [[-> [=]]|[-> [=]]]); try done; naive_solver.
  - intros Hf. by destruct (Hf None stuck eq_refl).
Qed.

(** ** Witnesses: a write, a join request and a shutdown at the same time *)
Definition busy : list (list gcall) :=
  [[GExecute true true true (mkCmd §"SET" [§"k"; §"v"])]; [GJoin (OAdmitted BPromoted) 2; GInfo true 1];
   [GShutdown true]; [GLibrary JSnapshot]].

Lemma busy_ok : Forall (Forall (λ c, call_ok c = true)) busy.
Proof. by repeat constructor. Qed.

(** The first goroutine has asked whether Raft is enabled. *)
Definition entered : GS :=
  set_agent (Some 0)
    (mkG (drop 1 (executeRESPCmd_code true true true (mkCmd §"SET" [§"k"; §"v"]) ++ [])) [(raftNodeMu, false)] false)
    (pool busy).

Lemma entered_run : rtc gstep (pool busy) entered.
Proof. apply rtc_once. apply (g_RLock (pool busy) (Some 0) raftNodeMu); [vm_compute; reflexivity|apply pool_free]. Qed.

Lemma calls_return_witness :
  sn gstep entered ∧ ∀ s', rtc gstep entered s' → nf gstep s' → finished s'.
Proof. exact (calls_return busy entered busy_ok entered_run). Defined.

Lemma guarded_variables_witness : ¬ race entered v_raftNode.
Proof. apply (guarded_variables busy entered v_raftNode busy_ok entered_run). discriminate. Defined.
