(* ===== verification/Announce.v ===== *)
(** * The goroutines that announce the leader (src/core/raft.go)

    [observeClusterLeaderChange] starts two goroutines: one receives the
    observations of the Raft library and passes on those that name this node, the
    other proposes an announcement.  They are connected by two channels of 64
    places and end with the context.  [Cluster] describes them by the function
    [observe] of the observed leaders; here the goroutines and channels are
    shown to compute it ([pipeline_refines_observe]). *)

From S2P Require Import Prelude GoLib Resp MemDB CmdExecutor Utf8 Json Fsm Membership Config Identity Startup Cluster.

(** ** State *)

(** The first goroutine: in its [select], in [workCh <- leaderEvent], returned. *)
Inductive ForwardPC := FSelect | FSend (leader : gostring) | FDone.
(** The second: in its [select], in [applyCmdViaRaftNode], returned. *)
Inductive AnnouncePC := NSelect | NApply | NDone.

Definition channel_size : nat := 64.

(** [seen] lists the observations that found room in [obsCh]: the observer is not
    blocking, and the library drops the others. *)
Record Pipe := mkPipe {
  cancelled : bool;
  obsCh : list gostring;
  forward : ForwardPC;
  workCh : list gostring;
  announce : AnnouncePC;
  lastLeader : gostring;
  proposals : nat;
  seen : list gostring;
}.

Section pipeline.
Context (localID : gostring).
Implicit Types p : Pipe.

Definition new_pipe : Pipe := mkPipe false [] FSelect [] NSelect [] 0 [].

Inductive pipe_step : Pipe → Pipe → Prop :=
(** the outside: an observation, the end of the context, the apply returns *)
| pp_observe p leader : forward p ≠ FDone → length (obsCh p) < channel_size →
    pipe_step p (mkPipe (cancelled p) (obsCh p ++ [leader]) (forward p) (workCh p) (announce p) (lastLeader p)
                   (proposals p) (seen p ++ [leader]))
| pp_cancel p :
    pipe_step p (mkPipe true (obsCh p) (forward p) (workCh p) (announce p) (lastLeader p) (proposals p) (seen p))
| pp_applied p : announce p = NApply →
    pipe_step p (mkPipe (cancelled p) (obsCh p) (forward p) (workCh p) NSelect (lastLeader p) (proposals p) (seen p))
(** the first goroutine *)
| pp_forward_done p : forward p = FSelect → cancelled p = true →
    pipe_step p (mkPipe (cancelled p) (obsCh p) FDone (workCh p) (announce p) (lastLeader p) (proposals p) (seen p))
| pp_receive p leader queue : forward p = FSelect → obsCh p = leader :: queue →
    pipe_step p (mkPipe (cancelled p) queue (if bool_decide (leader = localID) then FSend leader else FSelect)
                   (workCh p) (announce p) (lastLeader p) (proposals p) (seen p))
| pp_send p leader : forward p = FSend leader → length (workCh p) < channel_size →
    pipe_step p (mkPipe (cancelled p) (obsCh p) FSelect (workCh p ++ [leader]) (announce p) (lastLeader p)
                   (proposals p) (seen p))
(** the second goroutine *)
| pp_announce_done p : announce p = NSelect → cancelled p = true →
    pipe_step p (mkPipe (cancelled p) (obsCh p) (forward p) (workCh p) NDone (lastLeader p) (proposals p) (seen p))
| pp_repeated p leader queue : announce p = NSelect → workCh p = leader :: queue → leader = lastLeader p →
    pipe_step p (mkPipe (cancelled p) (obsCh p) (forward p) queue NSelect (lastLeader p) (proposals p) (seen p))
| pp_propose p leader queue : announce p = NSelect → workCh p = leader :: queue → leader ≠ lastLeader p →
    pipe_step p (mkPipe (cancelled p) (obsCh p) (forward p) queue NApply leader (S (proposals p)) (seen p)).

(** Everything seen has been dealt with. *)
Definition quiescent p : Prop := obsCh p = [] ∧ forward p = FSelect ∧ workCh p = [].

(** ** What [observe] does with a list in two parts *)
Fixpoint last_after (last : gostring) (leaders : list gostring) : gostring :=
  match leaders with
  | [] => last
  | l :: leaders => last_after (fst (observe_step localID last l)) leaders
  end.

Definition count_true (l : list bool) : nat := length (filter (λ b, b = true) l).

Lemma observe_app last l1 l2 : observe localID last (l1 ++ l2) = observe localID last l1 ++ observe localID (last_after last l1) l2.
Proof.
  revert last. induction l1 as [|x l1 IH]; intros last; [done|]. simpl. destruct (observe_step localID last x) as [last' b].
  simpl. by rewrite IH.
Qed.

Lemma last_after_app last l1 l2 : last_after last (l1 ++ l2) = last_after (last_after last l1) l2.
Proof. revert last. induction l1 as [|x l1 IH]; intros last; [done|]. apply IH. Qed.

(** Observations of other nodes make no difference. *)
Definition own (leaders : list gostring) : list gostring := filter (λ l, l = localID) leaders.

Lemma observe_own last l : count_true (observe localID last l) = count_true (observe localID last (own l)) ∧
  last_after last l = last_after last (own l).
Proof.
  revert last. induction l as [|x l IH]; intros last; [done|]. unfold own. rewrite filter_cons.
  destruct (decide (x = localID)) as [->|Hx]; simpl.
  - destruct (observe_step localID last localID) as [last' b]. destruct (IH last') as [H1 H2]. unfold count_true in *.
    rewrite !filter_cons. split; [|exact H2]. case_decide; simpl; [f_equal|]; exact H1.
  - unfold observe_step. rewrite bool_decide_false by done. unfold count_true. rewrite filter_cons_False by done.
    apply (IH last).
Qed.

Lemma own_app l1 l2 : own (l1 ++ l2) = own l1 ++ own l2.
Proof. unfold own. apply filter_app. Qed.

Lemma own_one leader : own [leader] = if bool_decide (leader = localID) then [leader] else [].
Proof. unfold own. rewrite filter_cons, filter_nil. by case_bool_decide; case_decide. Qed.

(** A part of the own observations comes from a part of the observations. *)
Lemma own_prefix l a b : own l = a ++ b → ∃ k, k ≤ length l ∧ own (take k l) = a.
Proof.
  revert a. induction l as [|x l IH]; intros a E.
  - exists 0. split; [done|]. by destruct a.
  - destruct a as [|y a]; [by exists 0; split; [lia|]|]. unfold own in E. rewrite filter_cons in E.
    destruct (decide (x = localID)) as [Hx|Hx].
    + injection E as -> E. destruct (IH a E) as (k & Hk & Ho). exists (S k). split; [simpl; lia|].
      simpl. unfold own. rewrite filter_cons_True by done. by f_equal.
    + destruct (IH (y :: a) E) as (k & Hk & Ho). exists (S k). split; [simpl; lia|].
      simpl. unfold own. by rewrite filter_cons_False.
Qed.

(** ** The invariant

    What the second goroutine has taken from its channel, what is in the channel,
    what the first is sending and what waits in front of it are, in this order,
    the own observations seen. *)
Definition sending p : list gostring := match forward p with FSend l => [l] | _ => [] end.

Record pipe_inv p : Prop := {
  pi_order : ∃ taken received, seen p = received ++ obsCh p ∧ own received = taken ++ workCh p ++ sending p ∧
    proposals p = count_true (observe localID [] taken) ∧ lastLeader p = last_after [] taken;
}.

(** What the second goroutine takes names this node. *)
Lemma own_taken received taken leader rest : own received = taken ++ leader :: rest → leader = localID.
Proof.
  intros E. assert (H : leader ∈ own received) by (rewrite E; set_solver).
  by apply list_elem_of_filter in H as [? _].
Qed.

(** The second goroutine's [if] is [observe_step] on what it takes. *)
Lemma take_one taken leader : leader = localID →
  count_true (observe localID [] (taken ++ [leader])) =
    count_true (observe localID [] taken) + (if bool_decide (leader = last_after [] taken) then 0 else 1) ∧
  last_after [] (taken ++ [leader]) = leader.
Proof.
  intros ->. rewrite observe_app, last_after_app. unfold count_true. rewrite filter_app, length_app. simpl.
  unfold observe_step. rewrite (bool_decide_true (localID = localID)) by done.
  by case_bool_decide.
Qed.

Lemma pipe_inv_new : pipe_inv new_pipe.
Proof. split. by exists [], []. Qed.

Lemma pipe_inv_step p p' : pipe_step p p' → pipe_inv p → pipe_inv p'.
Proof.
  intros Hs [(taken & received & Hseen & Hown & Hp & Hl)]. split.
  destruct Hs as [p leader Hf Hn|p|p Ha|p Hf Hc|p leader queue Hf Hq|p leader Hf Hn|p Ha Hc|p leader queue Ha Hq Hsame
    |p leader queue Ha Hq Hne]; unfold sending in *; simpl in *; rewrite ?Hf in *.
  - exists taken, received. by rewrite Hseen, app_assoc.
  - by exists taken, received.
  - by exists taken, received.
  - by exists taken, received.
  - exists taken, (received ++ [leader]). split_and!; [by rewrite Hseen, Hq, <- app_assoc| |done|done].
    rewrite own_app, Hown, own_one, app_nil_r, <- !app_assoc. by case_bool_decide.
  - exists taken, received. split_and!; [done| |done|done]. by rewrite Hown, app_nil_r.
  - by exists taken, received.
  - rewrite Hq in Hown. destruct (take_one taken leader (own_taken _ _ _ _ Hown)) as [E1 E2].
    exists (taken ++ [leader]), received. split_and!; [done|by rewrite Hown, <- app_assoc| |congruence].
    rewrite E1, bool_decide_true by congruence. lia.
  - rewrite Hq in Hown. destruct (take_one taken leader (own_taken _ _ _ _ Hown)) as [E1 E2].
    exists (taken ++ [leader]), received. split_and!; [done|by rewrite Hown, <- app_assoc| |congruence].
    rewrite E1, bool_decide_false by congruence. lia.
Qed.

(** A step that the program or the end of an apply makes: no observation, no
    cancellation. *)
Definition own_step p p' : Prop := pipe_step p p' ∧ seen p' = seen p ∧ cancelled p' = cancelled p.

Lemma pipe_progress p : cancelled p = false → forward p ≠ FDone → announce p ≠ NDone →
  quiescent p ∨ ∃ p', own_step p p'.
Proof.
  intros Hc Hf Ha. destruct (announce p) eqn:En; [|right; eexists; split; [by apply pp_applied|done]|done].
  destruct (workCh p) as [|leader queue] eqn:Ew.
  - destruct (forward p) as [|leader|] eqn:Ef; [| |done].
    + destruct (obsCh p) as [|leader queue] eqn:Eo; [by left|].
      right. eexists. split; [by apply (pp_receive p leader queue)|done].
    + right. eexists. split; [apply (pp_send p leader); [done|rewrite Ew; unfold channel_size; simpl; lia]|done].
  - right. destruct (decide (leader = lastLeader p)) as [Hl|Hl]; eexists.
    + split; [by apply (pp_repeated p leader queue)|done].
    + split; [by apply (pp_propose p leader queue)|done].
Qed.

(** The goroutines return only after the context has ended. *)
Lemma pipe_running p : rtc pipe_step new_pipe p → cancelled p = false → forward p ≠ FDone ∧ announce p ≠ NDone.
Proof.
  intros H. apply rtc_nsteps in H as [n H]. revert p H.
  induction n as [|n IH]; intros p H Hc; [inversion H; subst; done|].
  apply nsteps_inv_r in H as (q & Hq & Hs). specialize (IH _ Hq).
  destruct Hs as [q leader Hf Hn|q|q Ha|q Hf Hcc|q leader queue Hf Hqq|q leader Hf Hn|q Ha Hcc|q leader queue Ha Hqq Hsame
    |q leader queue Ha Hqq Hne]; simpl in *; try (destruct (IH Hc)); try congruence; split; try done.
  by case_bool_decide.
Qed.

(** The work left before everything seen has been dealt with. *)
Definition pending p : nat :=
  4 * length (obsCh p) + 3 * length (sending p) + 2 * length (workCh p) + match announce p with NApply => 1 | _ => 0 end.

Lemma own_step_pending p p' : cancelled p = false → own_step p p' → pending p' < pending p.
Proof.
  intros Hc [Hs [Hseen Hcan]]. unfold pending, sending.
  destruct Hs as [p leader Hf Hn|p|p Ha|p Hf Hcc|p leader queue Hf Hq|p leader Hf Hn|p Ha Hcc|p leader queue Ha Hq Hsame
    |p leader queue Ha Hq Hne]; simpl in *; try congruence.
  - apply (f_equal length) in Hseen. rewrite length_app in Hseen. simpl in Hseen. lia.
  - rewrite Ha. lia.
  - rewrite Hf, Hq. case_bool_decide; simpl; lia.
  - rewrite Hf, length_app. simpl. lia.
  - rewrite Ha, Hq. simpl. lia.
  - rewrite Ha, Hq. simpl. lia.
Qed.

(** ** The goroutines compute [observe] *)
Lemma pipe_inv_reachable p : rtc pipe_step new_pipe p → pipe_inv p.
Proof. revert p. apply rtc_ind_r; eauto using pipe_inv_new, pipe_inv_step. Qed.

Lemma announcements_own l : announcements localID l = count_true (observe localID [] (own l)).
Proof. apply (proj1 (observe_own [] l)). Qed.

Lemma quiescent_proposals p : pipe_inv p → quiescent p → proposals p = announcements localID (seen p).
Proof.
  intros [(taken & received & Hseen & Hown & Hp & _)] (Ho & Hf & Hw). unfold sending in Hown.
  rewrite Ho, app_nil_r in Hseen. rewrite Hw, Hf, !app_nil_r in Hown.
  by rewrite announcements_own, Hseen, Hown.
Qed.

Lemma own_steps_reachable p q : rtc pipe_step new_pipe p → rtc own_step p q →
  rtc pipe_step new_pipe q ∧ seen q = seen p ∧ cancelled q = cancelled p.
Proof.
  intros Hp. revert q. apply rtc_ind_r; [done|]. intros q r _ [Hs [Hseen Hc]] (Hq & IHs & IHc).
  split_and!; [by eapply rtc_r|congruence..].
Qed.

Lemma own_step_sn p : cancelled p = false → sn own_step p.
Proof.
  remember (pending p) as n eqn:Hn. revert p Hn. induction (lt_wf n) as [n _ IH]. intros p -> Hc.
  constructor. intros q Hq. eapply IH; [by apply own_step_pending|done|].
  by destruct Hq as (_ & _ & ->).
Qed.

(** C17. The two goroutines of [observeClusterLeaderChange] and their channels
    implement [observe].  In every interleaving the number of announcements
    proposed so far is that of [observe] on a prefix of the observations the
    library delivered, so none is proposed that a sequential reader would not;
    and until the context is cancelled no observation of this node is lost: from
    every reachable state the goroutines, left to run (every apply
    returning), come to rest after finitely many steps, in any schedule, with
    exactly the announcements of [observe] on all the delivered observations. *)
Theorem pipeline_refines_observe p : rtc pipe_step new_pipe p →
  (∃ k, k ≤ length (seen p) ∧ proposals p = announcements localID (take k (seen p))) ∧
  (cancelled p = false → sn own_step p ∧
     ∀ q, rtc own_step p q → nf own_step q → proposals q = announcements localID (seen p)).
Proof.
  intros Hp. split.
  - destruct (pipe_inv_reachable p Hp) as [(taken & received & Hseen & Hown & Hpr & _)].
    destruct (own_prefix (seen p) taken (workCh p ++ sending p ++ own (obsCh p))) as (k & Hk & Ho).
    { by rewrite Hseen, own_app, Hown, <- !app_assoc. }
    exists k. split; [done|]. by rewrite announcements_own, Ho.
  - intros Hc. split; [by apply own_step_sn|]. intros q Hq Hnf.
    destruct (own_steps_reachable p q Hp Hq) as (Hr & Hseen & Hcq). rewrite Hc in Hcq.
    destruct (pipe_running q Hr Hcq) as [Hf Ha]. rewrite <- Hseen.
    apply quiescent_proposals; [by apply pipe_inv_reachable|].
    destruct (pipe_progress q Hcq Hf Ha) as [?|[q' ?]]; [done|]. exfalso. apply Hnf. by exists q'.
Qed.

(** The forwarder's send does not watch the context: with the second goroutine
    returned and [workCh] full, a forwarder in its send can make no step, so it
    never deregisters its observer. *)
Lemma forwarder_stuck p leader : forward p = FSend leader → announce p = NDone → length (workCh p) = channel_size →
  ∀ q, rtc pipe_step p q → forward q = FSend leader.
Proof.
  intros Hf Ha Hw q Hq.
  cut (forward q = FSend leader ∧ announce q = NDone ∧ length (workCh q) = channel_size); [by intros (?&_)|].
  revert q Hq. apply rtc_ind_r; [done|]. intros q r _ Hs (IHf & IHa & IHw).
  destruct Hs; simpl in *; try congruence; [done..|]. exfalso. lia.
Qed.
End pipeline.

(** A node "a" that observes its election, another node and itself again. *)
Definition sample_pipe : Pipe := mkPipe false [["b"%char]; ["a"%char]] (FSend ["a"%char]) [] NSelect [] 0
  [["a"%char]; ["b"%char]; ["a"%char]].

Lemma sample_pipe_reachable : rtc (pipe_step ["a"%char]) new_pipe sample_pipe.
Proof.
  eapply rtc_l; [eapply (pp_observe _ _ ["a"%char]); [done|unfold channel_size; simpl; lia]|]. simpl.
  eapply rtc_l; [eapply (pp_observe _ _ ["b"%char]); [done|unfold channel_size; simpl; lia]|]. simpl.
  eapply rtc_l; [eapply (pp_observe _ _ ["a"%char]); [done|unfold channel_size; simpl; lia]|]. simpl.
  eapply rtc_l; [by eapply (pp_receive ["a"%char])|]. simpl. reflexivity.
Qed.

Lemma pipeline_refines_observe_witness :
  rtc (pipe_step ["a"%char]) new_pipe sample_pipe ∧ seen sample_pipe = [["a"%char]; ["b"%char]; ["a"%char]] ∧
  ∀ q, rtc (own_step ["a"%char]) sample_pipe q → nf (own_step ["a"%char]) q →
    proposals q = announcements ["a"%char] [["a"%char]; ["b"%char]; ["a"%char]].
Proof.
  split; [exact sample_pipe_reachable|]. split; [reflexivity|]. intros q Hq Hn.
  exact (proj2 (proj2 (pipeline_refines_observe ["a"%char] sample_pipe sample_pipe_reachable) eq_refl) q Hq Hn).
Defined.
