(* ===== verification/Measure.v ===== *)
(** * Running a workload (benchmarks/harness/workload.go, profile.go)

    A worker of a phase draws GET and SET commands, writes them in batches to
    its connection and times the responses.  A worker's records are shown
    to describe the commands it sent and the responses it got
    ([worker_measures]); on a server of this repository every one of them succeeds
    ([worker_on_server]), and the tallies of a result agree
    ([workload_accounts]). *)

From S2P Require Import Prelude GoLib Resp MemDB CmdExecutor Utf8 Json Fsm RespServer Client Config CommandLine Identity Startup Harness Float64 Workload.
Import Build MemDB.

(** ** Profiles and options *)
Record WorkloadSpec := mkWorkload {
  wl_Name : gostring;
  GetPercent : Z;
  SetPercent : Z;
  ValueSize : Z;
}.

Record Profile := mkProfile {
  pr_Name : gostring;
  Deployments : list Deployment;
  Workloads : list WorkloadSpec;
  Scenarios : bool;
}.

Definition mixes : list (gostring * Z) :=
  [(§"get100", 100%Z); (§"set100", 0%Z); (§"get95-set5", 95%Z); (§"get50-set50", 50%Z)].
Definition sizes : list Z := [64; 1024; 16 * 1024]%Z.

(** The two loops of [ResolveProfile] over [mixes] and [sizes]. *)
Definition full_workloads : list WorkloadSpec :=
  mix ← mixes; size ← sizes; [mkWorkload (fst mix) (snd mix) (100 - snd mix) size].

Definition full_profile : Profile :=
  mkProfile §"full" [InMemorySingle; DurableSingle; DurableThree] full_workloads true.

Definition ResolveProfile (name : gostring) : option Profile :=
  if bool_decide (name = §"full") then Some full_profile
  else if bool_decide (name = §"smoke") then
    Some (mkProfile §"smoke" (Deployments full_profile) [mkWorkload §"get95-set5" 95 5 64] true)
  else None.

(** Durations in nanoseconds. *)
Record Options := mkOptions {
  o_Profile : gostring;
  ResultsRoot : gostring;
  ServerBinary : gostring;
  BuildCommand : gostring;
  Duration : Z;
  Warmup : Z;
  Concurrency : Z;
  PipelineDepth : Z;
  Seed : Z;
  KeepData : bool;
}.

Definition or_default (s d : gostring) : gostring := if bool_decide (s = []) then d else s.

Definition setDefaults (o : Options) : Options := mkOptions
  (or_default (o_Profile o) §"smoke")
  (or_default (ResultsRoot o) §"benchmarks/results")
  (or_default (ServerBinary o) §"./skiffdb-server")
  (or_default (BuildCommand o) §"go build -o ./skiffdb-server .")
  (if (Duration o <=? 0)%Z then (2 * Second)%Z else Duration o)
  (if (Warmup o <? 0)%Z then 0%Z else Warmup o)
  (if (Concurrency o <=? 0)%Z then 4%Z else Concurrency o)
  (if (PipelineDepth o <=? 0)%Z then 1%Z else PipelineDepth o)
  (if bool_decide (Seed o = 0%Z) then 1%Z else Seed o)
  (KeepData o).

(** [strings.Repeat] of ["v"]; the sizes of the profiles are not negative. *)
Definition repeat_v (size : Z) : gostring := replicate (Z.to_nat size) "v"%char.

(** The options that [setDefaults] leaves can be run: there is time to measure,
    a worker, and a command in each batch. *)
Lemma setDefaults_runnable o : let o' := setDefaults o in
  (0 < Duration o' ∧ 0 ≤ Warmup o' ∧ 0 < Concurrency o' ∧ 0 < PipelineDepth o')%Z ∧ o_Profile o' ≠ [] ∧
  setDefaults o' = o'.
Proof.
  assert (Hd : ∀ s d : gostring, d ≠ [] → or_default s d ≠ [] ∧ or_default (or_default s d) d = or_default s d).
  { intros s d Hd. unfold or_default. split; repeat case_bool_decide; done. }
  split; [unfold setDefaults, Second; simpl; split_and!; case_match; lia|]. split; [by apply Hd|].
  unfold setDefaults. simpl. f_equal; try (by apply Hd); repeat case_match; try done; try lia; by repeat case_bool_decide.
Qed.

(** The workloads of a profile divide the draws between GET and SET and write
    values that a server accepts. *)
Lemma profile_workloads name profile : ResolveProfile name = Some profile →
  pr_Name profile = name ∧ Workloads profile ≠ [] ∧ Deployments profile = [InMemorySingle; DurableSingle; DurableThree] ∧
  Forall (λ wl, (0 ≤ GetPercent wl ≤ 100)%Z ∧ (GetPercent wl + SetPercent wl = 100)%Z ∧ (0 < ValueSize wl)%Z ∧
            Parser.arg_fits (repeat_v (ValueSize wl))) (Workloads profile).
Proof.
  assert (Hfit : ∀ size, (size ≤ 16 * 1024)%Z → Parser.arg_fits (repeat_v size)).
  { intros size Hs. unfold Parser.arg_fits, Parser.maxAlloc, repeat_v. rewrite length_replicate. lia. }
  unfold ResolveProfile. case_bool_decide as H1; [|case_bool_decide as H2; [|done]]; intros [= <-]; cbn [pr_Name Workloads Deployments full_profile].
  - split_and!; [done..|]. apply Forall_forall. intros wl. unfold full_workloads.
    rewrite list_elem_of_bind. intros (mix & (size & Hwl & Hsize)%list_elem_of_bind & Hmix).
    apply list_elem_of_singleton in Hwl as ->. cbn [GetPercent SetPercent ValueSize].
    assert (0 < size ≤ 16 * 1024)%Z by (unfold sizes in Hsize; rewrite !elem_of_cons, elem_of_nil in Hsize; lia).
    assert (0 ≤ snd mix ≤ 100)%Z by (unfold mixes in Hmix; rewrite !elem_of_cons, elem_of_nil in Hmix;
      destruct_or! Hmix; subst; simpl; lia).
    split_and!; try lia. apply Hfit. lia.
  - split_and!; [done..|]. apply Forall_singleton. cbn [GetPercent SetPercent ValueSize].
    split_and!; try lia. apply Hfit. lia.
Qed.

(** ** A worker *)

(** What a worker gets from outside: its readings of the clock, in nanoseconds
    from the start of the phase; its random draws; whether the phase's context
    has ended at each check; the failing writes of its connection. *)
Record WorkerEnv := mkWorkerEnv {
  now : nat → Z;
  Intn : nat → Z → Z;
  ctx_done : nat → bool;
  write_fault : nat → option nat;
}.

Record Worker := mkWorker {
  client : respClient;
  readings : nat;
  draws : nat;
  local : list recordedOp;
}.

Abbreviation WM := (GM Worker ClientError).

Definition bench_key (n : Z) : gostring := §"bench:" ++ Itoa n.

Section worker.
Context (env : WorkerEnv) (workload : WorkloadSpec) (depth : nat).
Implicit Types s : Worker.

Let value : gostring := repeat_v (ValueSize workload).

Definition on_client {A} (m : RM A) : WM A := λ s,
  let '(o, c) := m (client s) in (o, mkWorker c (readings s) (draws s) (local s)).

Definition time_Now : WM Z := λ s,
  (Ok (now env (readings s)), mkWorker (client s) (S (readings s)) (draws s) (local s)).

Definition rng_Intn (n : Z) : WM Z := λ s,
  (Ok (Intn env (draws s) n), mkWorker (client s) (readings s) (S (draws s)) (local s)).

Definition append_local (record : recordedOp) : WM unit :=
  modifyS (λ s, mkWorker (client s) (readings s) (draws s) (local s ++ [record])).

(** One command of a batch: what is pending for it. *)
Definition write_one : WM (gostring * Z) :=
  x ← rng_Intn 100;
  let isGet := (x <? GetPercent workload)%Z in
  y ← rng_Intn 256;
  let key := bench_key y in
  started ← time_Now;
  if isGet then
    on_client (writeCommand (write_fault env) [§"GET"; key]);; mret (§"GET", started)
  else
    on_client (writeCommand (write_fault env) [§"SET"; key; value]);; mret (§"SET", started).

Fixpoint write_batch (i : nat) : WM (list (gostring * Z)) :=
  match i with
  | 0 => mret []
  | S i => p ← write_one; ps ← write_batch i; mret (p :: ps)
  end.

Definition latency (started stopped : Z) : float64 := fdiv (of_int (stopped - started)) (of_int 1000).

Fixpoint read_batch (batch : list (gostring * Z)) : WM unit :=
  match batch with
  | [] => mret tt
  | (op, started) :: batch =>
      response ← catch (on_client readResponse);
      stopped ← time_Now;
      match response with
      | inl err => append_local (mkOp op (latency started stopped) stopped false);; throw err
      | inr response => append_local (mkOp op (latency started stopped) stopped (responseOK response));; read_batch batch
      end
  end.

(** One turn of the loop; the deadline is set from the clock. *)
Definition worker_turn : WM unit :=
  time_Now;;
  batch ← write_batch depth;
  on_client (Flush (write_fault env));;
  read_batch batch.

(** [for ctx.Err() == nil], the check number [k] first. *)
Fixpoint worker_loop (fuel k : nat) : WM unit :=
  match fuel with
  | 0 => nofuel
  | S fuel => if ctx_done env k then mret tt else worker_turn;; worker_loop fuel (S k)
  end.

(** The command number [j] of the worker. *)
Definition bench_op (j : nat) : gostring := if (Intn env (2 * j) 100 <? GetPercent workload)%Z then §"GET" else §"SET".
Definition bench_request (j : nat) : list gostring :=
  let key := bench_key (Intn env (2 * j + 1) 256) in
  if (Intn env (2 * j) 100 <? GetPercent workload)%Z then [§"GET"; key] else [§"SET"; key; value].

(** ** What a worker records *)

(** The clock is read once per turn for the deadline, then before each command
    of the batch is written and after each response is read. *)
Definition turn_base (t : nat) : nat := t * (2 * depth + 1) + 1.
Definition started_at (j : nat) : Z := now env (turn_base (j / depth) + j mod depth).
Definition stopped_at (j : nat) : Z := now env (turn_base (j / depth) + depth + j mod depth).

Definition expected_record (j : nat) (ok : bool) : recordedOp :=
  mkOp (bench_op j) (latency (started_at j) (stopped_at j)) (stopped_at j) ok.

Definition expected_records (j : nat) (replies : list gostring) : list recordedOp :=
  imap (λ i reply, expected_record (j + i) (responseOK reply)) replies.

Lemma expected_records_app j rs1 rs2 :
  expected_records j (rs1 ++ rs2) = expected_records j rs1 ++ expected_records (j + length rs1) rs2.
Proof.
  unfold expected_records. rewrite imap_app. f_equal. apply imap_ext. intros i r _. simpl. f_equal. lia.
Qed.

(** Reading fails on what is left of the stream. *)
Definition unreadable (rest : gostring) (e : ClientError) : Prop :=
  ∀ buf out k, ∃ c, readResponse (mkClient rest buf out k) = (Err e, c).

(** Command [i] of turn [t], as it is pending. *)
Definition pending_at (t i : nat) : gostring * Z :=
  (bench_op (t * depth + i), now env (turn_base t + i)).

Lemma turn_index t i : i < depth → (t * depth + i) / depth = t ∧ (t * depth + i) mod depth = i.
Proof.
  intros Hi. rewrite (Nat.add_comm (t * depth)), Nat.div_add, Nat.Div0.mod_add by lia.
  by rewrite Nat.div_small, Nat.mod_small.
Qed.

Lemma expected_at t i ok : i < depth → expected_record (t * depth + i) ok =
  let '(op, started) := pending_at t i in
  let stopped := now env (turn_base t + depth + i) in mkOp op (latency started stopped) stopped ok.
Proof. intros Hi. unfold expected_record, started_at, stopped_at, pending_at. by destruct (turn_index t i Hi) as [-> ->]. Qed.
Lemma read_batch_cons op started batch s reply rest buf out k :
  client s = mkClient (reply ++ rest) buf out k → framed reply →
  let t := now env (readings s) in
  read_batch ((op, started) :: batch) s =
    read_batch batch (mkWorker (mkClient rest buf out k) (S (readings s)) (draws s)
                        (local s ++ [mkOp op (latency started t) t (responseOK reply)])).
Proof.
  intros Hc Hf t. cbn [read_batch]. unfold mbind, GM_bind, catch, on_client. by rewrite Hc, (Hf rest buf out k).
Qed.

Lemma read_batch_fail op started batch s rest buf out k e :
  client s = mkClient rest buf out k → unreadable rest e →
  let t := now env (readings s) in
  ∃ c, read_batch ((op, started) :: batch) s =
    (Err e, mkWorker c (S (readings s)) (draws s) (local s ++ [mkOp op (latency started t) t false])).
Proof.
  intros Hc Hu t. destruct (Hu buf out k) as [c E]. exists c.
  cbn [read_batch]. unfold mbind, GM_bind, catch, on_client. by rewrite Hc, E.
Qed.

(** Reading what is pending of turn [t] from command [a] on: all of it, or
    until reading fails. *)
Lemma read_batch_spec n a t rs rest s buf out k : a + n ≤ depth → readings s = turn_base t + depth + a →
  client s = mkClient (concat rs ++ rest) buf out k → Forall framed rs →
  let batch := pending_at t <$> seq a n in
  let seen := local s ++ expected_records (t * depth + a) rs in
  (length rs = n → read_batch batch s = (Ok tt, mkWorker (mkClient rest buf out k) (readings s + n) (draws s) seen)) ∧
  (length rs < n → ∀ e, unreadable rest e → ∃ s', read_batch batch s = (Err e, s') ∧
     local s' = seen ++ [expected_record (t * depth + (a + length rs)) false]).
Proof.
  revert a rs s. induction n as [|n IH]; intros a rs s Ha Hr Hc Hf.
  { split; [|lia]. intros Hl. destruct rs; [|done]. destruct s. simpl in *. subst. by rewrite Nat.add_0_r, app_nil_r. }
  destruct rs as [|reply rs].
  { split; [done|]. intros _ e He. simpl in Hc.
    destruct (read_batch_fail (fst (pending_at t a)) (snd (pending_at t a)) (pending_at t <$> seq (S a) n) s rest buf out k e Hc He)
      as [c E]. eexists. split; [exact E|]. simpl. rewrite app_nil_r, Nat.add_0_r, expected_at by lia. by rewrite Hr. }
  apply Forall_cons in Hf as [Hf Hfs]. simpl in Hc. rewrite <- app_assoc in Hc.
  set (s1 := mkWorker (mkClient (concat rs ++ rest) buf out k) (S (readings s)) (draws s)
               (local s ++ [expected_record (t * depth + a) (responseOK reply)])).
  assert (E : read_batch (pending_at t <$> seq a (S n)) s = read_batch (pending_at t <$> seq (S a) n) s1).
  { unfold s1. rewrite expected_at, <- Hr by lia.
    exact (read_batch_cons (fst (pending_at t a)) (snd (pending_at t a)) (pending_at t <$> seq (S a) n) s reply
             (concat rs ++ rest) buf out k Hc Hf). }
  assert (Hx : local s ++ expected_records (t * depth + a) (reply :: rs) =
    local s1 ++ expected_records (t * depth + S a) rs).
  { change (reply :: rs) with ([reply] ++ rs). rewrite expected_records_app, app_assoc.
    replace (t * depth + a + length [reply]) with (t * depth + S a) by (simpl; lia).
    unfold expected_records at 1. simpl. by rewrite Nat.add_0_r. }
  destruct (IH (S a) rs s1) as [IHo IHf]; [lia|simpl; lia|done|done|]. cbv zeta. rewrite E, Hx. split.
  - intros Hl. rewrite IHo by (simpl in Hl; lia).
    by replace (readings s + S n) with (readings s1 + n) by (simpl; lia).
  - intros Hl e He. destruct (IHf ltac:(simpl in Hl; lia) e He) as (s' & E' & Hs'). exists s'. split; [exact E'|].
    rewrite Hs'. do 3 f_equal. simpl. lia.
Qed.

(** ** What a worker sends *)
Context (Hfault : write_fault env = no_fault).

Lemma write_client m str s : writes no_fault str m → ∃ k, on_client m s =
  (Ok tt, mkWorker (mkClient (r (client s)) (w (client s) ++ str) (sent (client s)) k) (readings s) (draws s) (local s)).
Proof. intros Hw. destruct (no_fault_writes _ _ (client s) Hw) as [k E]. exists k. unfold on_client. by rewrite E. Qed.

Lemma write_one_spec j s : draws s = 2 * j → ∃ k, write_one s =
  (Ok (bench_op j, now env (readings s)),
   mkWorker (mkClient (r (client s)) (w (client s) ++ BuildArray (Some (bench_request j))) (sent (client s)) k)
     (S (readings s)) (2 * S j) (local s)).
Proof.
  intros Hd. unfold write_one, rng_Intn, time_Now, mbind at 1 2 3, GM_bind at 1 2 3. cbn [draws client readings local].
  rewrite Hd. replace (S (2 * j)) with (2 * j + 1) by lia. replace (S (2 * j + 1)) with (2 * S j) by lia.
  unfold bench_op, bench_request. rewrite Hfault. destruct (Intn env (2 * j) 100 <? GetPercent workload)%Z;
    match goal with |- context [writeCommand no_fault ?args] =>
      destruct (write_client _ _ (mkWorker (client s) (S (readings s)) (2 * S j) (local s)) (writes_command no_fault args))
        as [k E]; exists k; gm_step E; reflexivity
    end.
Qed.

Lemma write_batch_spec n a t s : draws s = 2 * (t * depth + a) → readings s = turn_base t + a → ∃ k, write_batch n s =
  (Ok (pending_at t <$> seq a n),
   mkWorker (mkClient (r (client s)) (w (client s) ++ encode_requests (bench_request <$> seq (t * depth + a) n))
               (sent (client s)) k) (readings s + n) (2 * (t * depth + a + n)) (local s)).
Proof.
  revert a s. induction n as [|n IH]; intros a s Hd Hr.
  { exists (calls (client s)). destruct s as [[]]. simpl in *. subst. unfold encode_requests. simpl. by rewrite app_nil_r, !Nat.add_0_r. }
  destruct (write_one_spec (t * depth + a) s Hd) as [k1 E1]. set (s1 := mkWorker _ _ _ _) in E1.
  destruct (IH (S a) s1) as [k2 E2]; [simpl; lia|simpl; lia|]. exists k2. cbn [write_batch]. gm_step E1. gm_step E2.
  unfold mret, GM_ret. cbn [seq fmap list_fmap]. unfold pending_at at 2. rewrite <- Hr.
  replace (t * depth + S a) with (S (t * depth + a)) by lia. unfold s1. cbn [client readings draws local r w sent calls].
  unfold encode_requests. cbn [map concat]. rewrite <- app_assoc. do 2 f_equal; lia.
Qed.

(** The bytes of the commands from [j] to [j + n]. *)
Definition request_bytes (j n : nat) : gostring := encode_requests (bench_request <$> seq j n).

Lemma turn_spec t rs rest s out k : draws s = 2 * (t * depth) → readings s = t * (2 * depth + 1) →
  client s = mkClient (concat rs ++ rest) [] out k → Forall framed rs →
  (length rs = depth → ∃ k', worker_turn s = (Ok tt,
     mkWorker (mkClient rest [] (out ++ request_bytes (t * depth) depth) k') (S t * (2 * depth + 1)) (2 * (S t * depth))
       (local s ++ expected_records (t * depth) rs))) ∧
  (length rs < depth → ∀ e, unreadable rest e → ∃ s', worker_turn s = (Err e, s') ∧
     local s' = local s ++ expected_records (t * depth) rs ++ [expected_record (t * depth + length rs) false]).
Proof.
  intros Hd Hr Hc Hf. unfold worker_turn. set (s0 := mkWorker (client s) (S (readings s)) (draws s) (local s)).
  assert (E0 : time_Now s = (Ok (now env (readings s)), s0)) by done.
  destruct (write_batch_spec depth 0 t s0) as [k1 E1]; [simpl; lia|unfold turn_base; simpl; lia|].
  set (s1 := mkWorker _ _ _ _) in E1.
  set (s2 := mkWorker (mkClient (concat rs ++ rest) [] (out ++ request_bytes (t * depth) depth) (S k1))
               (readings s1) (draws s1) (local s)).
  assert (E2 : on_client (Flush (write_fault env)) s1 = (Ok tt, s2)).
  { rewrite Hfault. unfold s1, s2, request_bytes. simpl. rewrite Hc. unfold on_client. simpl. by rewrite Nat.add_0_r. }
  destruct (read_batch_spec depth 0 t rs rest s2 [] (out ++ request_bytes (t * depth) depth) (S k1)) as [Ho He];
    [lia|unfold turn_base; simpl; lia|done|done|].
  rewrite Nat.add_0_r in *. split.
  - intros Hl. exists (S k1). gm_step E0. gm_step E1. gm_step E2. rewrite Ho by done. unfold s2. simpl. do 2 f_equal; lia.
  - intros Hl e Hu. destruct (He Hl e Hu) as (s' & E & Hs'). exists s'. gm_step E0. gm_step E1. gm_step E2.
    split; [exact E|]. rewrite Hs'. by rewrite <- app_assoc.
Qed.

(** ** The loop *)
Lemma request_bytes_app j a b : request_bytes j (a + b) = request_bytes j a ++ request_bytes (j + a) b.
Proof.
  unfold request_bytes, encode_requests. rewrite seq_app, fmap_app.
  change (@map (list gostring) gostring) with (@fmap list _ (list gostring) gostring). by rewrite fmap_app, concat_app.
Qed.

Lemma framed_split (rs : list gostring) n : Forall framed rs →
  Forall framed (take n rs) ∧ Forall framed (drop n rs) ∧ concat rs = concat (take n rs) ++ concat (drop n rs).
Proof. intros Hf. split_and!; [by apply Forall_take|by apply Forall_drop|]. by rewrite <- concat_app, take_drop. Qed.

Lemma loop_spec m fuel t rs rest s out k : m < fuel → draws s = 2 * (t * depth) → readings s = t * (2 * depth + 1) →
  (∀ i, i < m → ctx_done env (t + i) = false) → client s = mkClient (concat rs ++ rest) [] out k → Forall framed rs →
  (length rs = m * depth → ctx_done env (t + m) = true → ∃ s', worker_loop fuel t s = (Ok tt, s') ∧
     sent (client s') = out ++ request_bytes (t * depth) (m * depth) ∧
     local s' = local s ++ expected_records (t * depth) rs) ∧
  (length rs < m * depth → ∀ e, unreadable rest e → ∃ s', worker_loop fuel t s = (Err e, s') ∧
     local s' = local s ++ expected_records (t * depth) rs ++ [expected_record (t * depth + length rs) false]).
Proof.
  revert fuel t rs s out k. induction m as [|m IH]; intros fuel t rs s out k Hm Hd Hr Hctx Hc Hf.
  { destruct fuel as [|fuel]; [lia|]. cbn [worker_loop]. split; [|simpl; lia]. intros Hl Ht. rewrite Nat.add_0_r in Ht.
    destruct rs; [|done]. rewrite Ht. exists s. rewrite Hc, !app_nil_r. done. }
  destruct fuel as [|fuel]; [lia|]. cbn [worker_loop].
  pose proof (Hctx 0 ltac:(lia)) as H0. rewrite Nat.add_0_r in H0. rewrite H0.
  destruct (framed_split rs depth Hf) as (Hf1 & Hf2 & Hsplit). rewrite Hsplit, <- app_assoc in Hc.
  destruct (decide (depth ≤ length rs)) as [Hge|Hlt].
  - destruct (turn_spec t (take depth rs) (concat (drop depth rs) ++ rest) s out k Hd Hr Hc Hf1) as [Ho _].
    destruct Ho as [k' E]; [rewrite length_take; lia|]. set (s1 := mkWorker _ _ _ _) in E.
    destruct (IH fuel (S t) (drop depth rs) s1 (out ++ request_bytes (t * depth) depth) k') as [IHo IHe];
      [lia|done|done| |done|done|].
    { intros i Hi. rewrite Nat.add_succ_comm. apply Hctx. lia. }
    rewrite length_drop in *. assert (Hx : expected_records (t * depth) rs =
      expected_records (t * depth) (take depth rs) ++ expected_records (S t * depth) (drop depth rs)).
    { rewrite <- (take_drop depth rs) at 1. rewrite expected_records_app, length_take. do 2 f_equal. lia. }
    rewrite Hx. gm_step E. split.
    + intros Hl Ht. rewrite Nat.add_succ_comm in IHo. destruct (IHo ltac:(simpl in Hl; lia) Ht) as (s' & E' & Hs & Hloc).
      exists s'. split; [exact E'|]. rewrite Hs, Hloc. simpl local. rewrite <- !app_assoc. split; [|done].
      change (S m * depth) with (depth + m * depth). rewrite request_bytes_app.
      by replace (t * depth + depth) with (S t * depth) by lia.
    + intros Hl e He. destruct (IHe ltac:(simpl in Hl; lia) e He) as (s' & E' & Hloc). exists s'. split; [exact E'|].
      rewrite Hloc. simpl local. rewrite <- !app_assoc.
      by replace (S t * depth + (length rs - depth)) with (t * depth + length rs) by lia.
  - split; [intros Hl; simpl in Hl; lia|]. intros _ e He. rewrite drop_ge, take_ge in Hc by lia.
    destruct (turn_spec t rs rest s out k Hd Hr Hc Hf) as [_ Hfail].
    destruct (Hfail ltac:(lia) e He) as (s' & E & Hloc). exists s'. by gm_step E.
Qed.

(** The worker as the phase starts it. *)
Definition new_worker (stream : gostring) : Worker := mkWorker (mkClient stream [] [] 0) 0 0 [].

(** C33. What a worker of the benchmark measures.  For any draws and any clock,
    a worker whose context ends after some number of turns, on a connection that takes
    all writes and delivers the given responses: when there is one response per
    command, the worker has sent exactly the commands of its draws, in batches
    of the pipeline depth, and its records are, in order, one per command, with the
    command's operation, the time between writing the command and reading its own
    response, and the success of that response; when the stream ends or
    breaks earlier, the worker returns that error, and what it has recorded is
    the responses read and one failed operation. *)
Theorem worker_measures turns replies rest :
  (∀ i, i < turns → ctx_done env i = false) → ctx_done env turns = true → Forall framed replies →
  let run := worker_loop (S turns) 0 (new_worker (concat replies ++ rest)) in
  (length replies = turns * depth → ∃ s, run = (Ok tt, s) ∧
     sent (client s) = encode_requests (bench_request <$> seq 0 (turns * depth)) ∧ local s = expected_records 0 replies) ∧
  (∀ e, length replies < turns * depth → unreadable rest e → ∃ s, run = (Err e, s) ∧
     local s = expected_records 0 replies ++ [expected_record (length replies) false]).
Proof.
  intros Hctx Hend Hf run.
  destruct (loop_spec turns (S turns) 0 replies rest (new_worker (concat replies ++ rest)) [] 0) as [Ho He];
    [lia|done..|]. split; [|intros e Hl Hu; by apply He].
  intros Hl. by apply Ho.
Qed.
End worker.

(** ** A worker and a server *)
Section on_server.
Context {R : Type} `{RaftLaws R} `{UnicodeTables}.
Context (env : WorkerEnv) (workload : WorkloadSpec) (depth : nat).
Implicit Types n : Node R.

(** [rand.Intn] *)
Definition Intn_range : Prop := ∀ k bound, (0 < bound → 0 ≤ Intn env k bound < bound)%Z.

(** The command a server builds from a worker's request. *)
Definition bench_cmd (j : nat) : Cmd :=
  let key := bench_key (Intn env (2 * j + 1) 256) in
  if (Intn env (2 * j) 100 <? GetPercent workload)%Z then mkCmd §"GET" [key]
  else mkCmd §"SET" [key; repeat_v (ValueSize workload)].

Lemma bench_cmds js : mapM BuildCmd (bench_request env workload <$> js) = Some (bench_cmd <$> js).
Proof.
  apply mapM_Some, Forall2_fmap, Forall_Forall2_diag, Forall_true. intros j. unfold bench_request, bench_cmd. by case_match.
Qed.

Lemma bench_key_fits k : Intn_range → Parser.arg_fits (bench_key (Intn env k 256)) ∧ bench_key (Intn env k 256) ≠ [].
Proof.
  intros Hi. split; [|done]. unfold Parser.arg_fits, Parser.maxAlloc, bench_key. rewrite length_app.
  pose proof (Hi k 256%Z ltac:(lia)). pose proof (Itoa_length (Intn env k 256) ltac:(unfold in_int64; lia)). simpl. lia.
Qed.

Context (Hrange : Intn_range) (Hsize : (0 < ValueSize workload)%Z) (Hfits : Parser.arg_fits (repeat_v (ValueSize workload))).

Lemma bench_sendable js : Forall sendable (bench_request env workload <$> js).
Proof.
  apply Forall_forall. intros args (j & -> & _)%list_elem_of_fmap.
  destruct (bench_key_fits (2 * j + 1) Hrange) as [Hk Hne]. unfold sendable, Parser.args_fit, bench_request.
  assert (Hv : repeat_v (ValueSize workload) ≠ []) by (unfold repeat_v; destruct (Z.to_nat (ValueSize workload)) eqn:?; [lia|done]).
  assert (Parser.arg_fits §"GET") by done. assert (Parser.arg_fits §"SET") by done.
  case_match; repeat constructor; done.
Qed.

Lemma bench_cmd_fits j : Forall Parser.arg_fits (Args (bench_cmd j)) ∧ cmd_fits (bench_cmd j).
Proof.
  destruct (bench_key_fits (2 * j + 1) Hrange) as [Hk _].
  unfold bench_cmd. case_match; (split; [by repeat constructor|unfold cmd_fits, in_int64; simpl; lia]).
Qed.

Lemma bulk_ok v : responseOK (BuildBulkString v) = true.
Proof. by destruct v. Qed.

(** The replies to the benchmark's commands are read one by one, and none is an
    error. *)
Lemma bench_replies js ks : values_fit ks →
  let replies := fst (denote_all None (bench_cmd <$> js) ks) in
  length replies = length js ∧ Forall framed replies ∧ Forall (λ reply, responseOK reply = true) replies.
Proof.
  revert ks. induction js as [|j js IH]; intros ks Hks; [done|]. rewrite fmap_cons. cbn [denote_all].
  destruct (bench_cmd_fits j) as [Hf _]. apply request_of_fits in Hf.
  pose proof (framed_reply _ ks Hf Hks) as Hfr. pose proof (denote_fits _ ks Hf Hks) as Hks1.
  assert (Hok : responseOK (fst (denote None (request_of (bench_cmd j)) ks)) = true).
  { unfold bench_cmd. case_match; [exact (bulk_ok _)|done]. }
  destruct (denote None (request_of (bench_cmd j)) ks) as [reply ks1]. simpl in Hfr, Hks1, Hok.
  specialize (IH ks1 Hks1). destruct (denote_all None (bench_cmd <$> js) ks1) as [rs ks2]. simpl in *.
  destruct IH as (Hl & Hfs & Hoks). split_and!; [by f_equal|by constructor..].
Qed.

(** A worker on a server without Raft: the server answers the bytes that the
    worker sends, and with these answers the worker records every
    command, under its own operation, as a success. *)
Lemma worker_on_server turns n : write_fault env = no_fault →
  (∀ i, i < turns → ctx_done env i = false) → ctx_done env turns = true →
  raft n = None → node_wf n → values_fit (node_view n) →
  ∃ replies p n' s,
    worker_loop env workload depth (S turns) 0 (new_worker (concat replies)) = (Ok tt, s) ∧
    handleConnection (sent (client s)) n = (Ok tt, mkConn p replies n') ∧
    op <$> local s = bench_op env workload <$> seq 0 (turns * depth) ∧ Forall (λ r, success r = true) (local s).
Proof.
  intros Hfault Hctx Hend Hr Hwf Hv. set (js := seq 0 (turns * depth)).
  destruct (bench_replies js (node_view n) Hv) as (Hl & Hf & Hok).
  destruct (serve_standalone (bench_request env workload <$> js) (bench_cmd <$> js) n Hr Hwf (bench_cmds js)) as (n' & E & _).
  { apply Forall_fmap, Forall_true. intros j. apply bench_cmd_fits. }
  set (replies := fst (denote_all None (bench_cmd <$> js) (node_view n))) in *.
  destruct (handle_serve _ n _ n' (bench_sendable js) E) as [p Hp].
  destruct (loop_spec env workload depth Hfault turns (S turns) 0 replies [] (new_worker (concat replies)) [] 0) as [Ho _];
    [lia|done..|by rewrite app_nil_r|done|].
  destruct Ho as (s & Es & Hsent & Hloc); [rewrite Hl; apply length_seq|done|].
  exists replies, p, n', s. split; [done|]. split; [by rewrite Hsent|]. rewrite Hloc. simpl.
  assert (Hlen : length replies = turns * depth) by (rewrite Hl; apply length_seq). unfold js.
  unfold expected_records. split.
  - apply list_eq. intros i. rewrite list_lookup_fmap, list_lookup_imap, list_lookup_fmap.
    destruct (decide (i < turns * depth)) as [Hi|Hi].
    + destruct (lookup_lt_is_Some_2 replies i) as [reply ->]; [lia|]. by rewrite lookup_seq_lt.
    + rewrite (lookup_ge_None_2 replies), lookup_seq_ge by lia. done.
  - apply Forall_lookup. intros i r. rewrite list_lookup_imap. intros (reply & Hi & ->)%fmap_Some.
    by apply (Forall_lookup_1 _ _ i reply Hok).
Qed.
End on_server.

(** ** The records of any worker

    Whatever fails, a record is of a GET or a SET and has a reading of the clock. *)
Section records.
Context (env : WorkerEnv) (workload : WorkloadSpec) (depth : nat) (Hclock : ∀ k, (0 ≤ now env k)%Z).
Implicit Types s : Worker.

Definition good_record (r : recordedOp) : Prop := op r ∈ [§"GET"; §"SET"] ∧ (0 ≤ finished r)%Z.

Definition keeps_good {A} (m : WM A) : Prop := ∀ s, Forall good_record (local s) → Forall good_record (local (snd (m s))).

Lemma keeps_good_bind {A B} (m : WM A) (f : A → WM B) : keeps_good m → (∀ s a, fst (m s) = Ok a → keeps_good (f a)) →
  keeps_good (m ≫= f).
Proof.
  intros Hm Hf s Hs. specialize (Hm s Hs). specialize (Hf s). unfold mbind, GM_bind.
  destruct (m s) as [[a|e| |] s1]; simpl in *; [|done..]. by apply Hf.
Qed.

Lemma keeps_good_client {A} (m : RM A) : keeps_good (on_client m).
Proof. intros s Hs. unfold on_client. by destruct (m (client s)). Qed.

Lemma keeps_good_quiet : keeps_good (time_Now env) ∧ (∀ n, keeps_good (rng_Intn env n)) ∧
  (∀ A (a : A), keeps_good (mret a)) ∧ (∀ A e, keeps_good (throw e : WM A)).
Proof. split_and!; intros; intros s Hs; exact Hs. Qed.

Lemma write_one_good : keeps_good (write_one env workload).
Proof.
  destruct keeps_good_quiet as (Hn & Hd & Hr & _). unfold write_one.
  repeat first [apply keeps_good_bind; [by eauto using keeps_good_client|intros _ ? _] | case_match | by apply Hr].
Qed.

Lemma write_one_op s p : fst (write_one env workload s) = Ok p → fst p ∈ [§"GET"; §"SET"].
Proof.
  unfold write_one, on_client, rng_Intn, time_Now, mbind, GM_bind, mret, GM_ret. simpl.
  repeat case_match; intros E; simplify_eq/=; set_solver.
Qed.

Lemma write_batch_good i : keeps_good (write_batch env workload i).
Proof.
  destruct keeps_good_quiet as (_ & _ & Hr & _). induction i as [|i IH]; [apply Hr|].
  cbn [write_batch]. apply keeps_good_bind; [apply write_one_good|]. intros _ p _.
  apply keeps_good_bind; [done|]. intros _ ps _. apply Hr.
Qed.

Lemma write_batch_ops i s ps : fst (write_batch env workload i s) = Ok ps → Forall (λ p, fst p ∈ [§"GET"; §"SET"]) ps.
Proof.
  revert s ps. induction i as [|i IH]; intros s ps; cbn [write_batch]; [by intros [= <-]|].
  unfold mbind, GM_bind, mret, GM_ret. destruct (write_one env workload s) as [[p|e| |] s1] eqn:E1; try done.
  pose proof (IH s1) as IH1. destruct (write_batch env workload i s1) as [[ps'|e| |] s2]; try done.
  intros [= <-]. constructor; [|by apply IH1]. apply (write_one_op s). by rewrite E1.
Qed.

Lemma read_batch_good batch : Forall (λ p, fst p ∈ [§"GET"; §"SET"]) batch → keeps_good (read_batch env batch).
Proof.
  destruct keeps_good_quiet as (Hn & _ & Hr & Ht). induction 1 as [|[o started] batch Ho _ IH]; [apply Hr|].
  cbn [read_batch]. apply keeps_good_bind.
  { intros s Hs. unfold catch. pose proof (keeps_good_client readResponse s Hs). by destruct (on_client readResponse s) as [[]]. }
  intros _ response _. apply keeps_good_bind; [done|]. intros s0 stopped E. injection E as <-.
  assert (Hadd : ∀ l b, keeps_good (append_local (mkOp o l (now env (readings s0)) b))).
  { intros l b s Hs. simpl. apply Forall_app. split; [done|]. apply Forall_singleton; split; [exact Ho|apply Hclock]. }
  case_match; (apply keeps_good_bind; [apply Hadd|intros _ _ _]); [apply Ht|done].
Qed.

Lemma worker_loop_good fuel k : keeps_good (worker_loop env workload depth fuel k).
Proof.
  destruct keeps_good_quiet as (Hn & _ & Hr & _). revert k. induction fuel as [|fuel IH]; intros k; [done|].
  cbn [worker_loop]. case_match; [apply Hr|]. apply keeps_good_bind; [|intros _ _ _; apply IH].
  unfold worker_turn. apply keeps_good_bind; [done|]. intros _ _ _.
  apply keeps_good_bind; [apply write_batch_good|]. intros s batch E%write_batch_ops.
  apply keeps_good_bind; [apply keeps_good_client|]. intros _ _ _. by apply read_batch_good.
Qed.
End records.

(** ** Phases and results *)

Inductive PhaseError :=
| PDial
| PClient (e : ClientError)
| PRefused (response : gostring)
| PContext.

(** [preloadKeys], connected: the keys from [i] on. *)
Fixpoint preload_from (fault : nat → option nat) (value : gostring) (i count : nat) : GM respClient PhaseError unit :=
  match count with
  | 0 => mret tt
  | S count => λ c,
      match command fault [§"SET"; bench_key (Z.of_nat i); value] c with
      | (Ok response, c') =>
          if responseOK response then preload_from fault value (S i) count c' else (Err (PRefused (TrimSpace response)), c')
      | (Err e, c') => (Err (PClient e), c')
      | (Panic, c') => (Panic, c')
      | (OutOfFuel, c') => (OutOfFuel, c')
      end
  end.

Definition preloadKeys (fault : nat → option nat) (value : gostring) : GM respClient PhaseError unit :=
  preload_from fault value 0 256.

(** What a worker puts in [errorsCh] and in [results]. *)
Record WorkerResult := mkWorkerResult {
  wr_error : option PhaseError;
  wr_records : option (list recordedOp);
}.

(** The goroutine of a worker: [stream] is what its connection delivers, none if
    the dial fails.  A worker that panics ends the process. *)
Definition run_worker (env : WorkerEnv) (workload : WorkloadSpec) (depth fuel : nat) (stream : option gostring) : option WorkerResult :=
  match stream with
  | None => Some (mkWorkerResult (Some PDial) None)
  | Some stream =>
      match worker_loop env workload depth fuel 0 (new_worker stream) with
      | (Ok _, s) => Some (mkWorkerResult None (Some (local s)))
      | (Err e, s) => Some (mkWorkerResult (Some (PClient e)) (Some (local s)))
      | _ => None
      end
  end.

(** The end of [runWorkloadPhase], with the workers in the order in which they
    finished; [ended]: the context is over. *)
Definition collect (results : list WorkerResult) (ended : bool) : list recordedOp * option PhaseError :=
  (concat (omap wr_records results), if ended then None else head (omap wr_error results)).

Record hookTiming := mkTiming { ht_start : Z; ht_end : Z; ht_err : option gostring }.

Record WorkloadResult := mkResult {
  wr_Deployment : Deployment;
  wr_Workload : WorkloadSpec;
  DurationMS : float64;
  WarmupMS : float64;
  wr_Concurrency : Z;
  wr_Pipeline : Z;
  wr_Seed : Z;
  wr_Throughput : float64;
  SuccessCount : N;
  ErrorCount : N;
  wr_Operations : option (gmap gostring OpMetrics);   (** none: the nil map *)
  Buckets : list IntervalMetrics;
}.

Section result.
Context `{FloatToInt}.

(** [result] as the literal sets it. *)
Definition blank_result (deployment : Deployment) (workload : WorkloadSpec) (opts : Options) : WorkloadResult :=
  mkResult deployment workload fzero (millis (Warmup opts)) (Concurrency opts) (PipelineDepth opts) (Seed opts)
    fzero 0 0 None [].

Definition count_success (counts : N * N) (record : recordedOp) : N * N :=
  if success record then (counts.1 + 1, counts.2)%N else (counts.1, counts.2 + 1)%N.

(** The measured part of [executeWorkload]: [elapsed] is the time between [start]
    and the end of the phase and the hook. *)
Definition measured_result (deployment : Deployment) (workload : WorkloadSpec) (opts : Options) (records : list recordedOp)
    (elapsed : Z) : WorkloadResult :=
  let counts := foldl count_success (0, 0)%N records in
  mkResult deployment workload (millis elapsed) (millis (Warmup opts)) (Concurrency opts) (PipelineDepth opts) (Seed opts)
    (if (0 <? elapsed)%Z then fdiv (of_int (Z.of_N counts.1)) (Seconds elapsed) else fzero)
    counts.1 counts.2 (Some (summarizeOperations records)) (summarizeIntervals records interval_width elapsed).

(** [executeWorkload]: the error of the preload, the workers of the measured
    phase, the hook's times, the elapsed time and the error of the caller's
    context are what the run meets.  The warm-up's records are dropped. *)
Definition executeWorkload (deployment : Deployment) (workload : WorkloadSpec) (opts : Options)
    (preload : option PhaseError) (workers : list WorkerResult) (ended : bool) (timing : hookTiming) (elapsed : Z)
    (ctx_err : option PhaseError) : WorkloadResult * hookTiming * option PhaseError :=
  match preload with
  | Some e => (blank_result deployment workload opts, mkTiming 0 0 None, Some e)
  | None =>
      let '(records, phaseErr) := collect workers ended in
      (measured_result deployment workload opts records elapsed, timing,
       match ctx_err with Some e => Some e | None => phaseErr end)
  end.

(** ** The tallies of a result *)
Lemma count_success_spec records a b : foldl count_success (a, b) records =
  (a + N.of_nat (length (successes records)), b + N.of_nat (length records - length (successes records)))%N.
Proof.
  revert a b. induction records as [|record records IH]; intros a b; [simpl; f_equal; lia|].
  unfold successes in *. simpl foldl. unfold count_success at 2. rewrite filter_cons.
  pose proof (length_filter (λ r, success r = true) records).
  destruct (success record) eqn:Hs; case_decide; try congruence; rewrite IH; simpl; f_equal; lia.
Qed.

(** The latencies of the successful operations [o]. *)
Definition latencies_of (o : gostring) (records : list recordedOp) : list float64 :=
  latencyUS <$> filter (λ r, success r = true ∧ op r = o) records.

Lemma add_latency_lookup m records o vs : m !! o = Some vs →
  foldl add_latency m records !! o = Some (vs ++ latencies_of o records).
Proof.
  unfold latencies_of. revert m vs. induction records as [|record records IH]; intros m vs Hm; simpl.
  { by rewrite app_nil_r. }
  rewrite filter_cons. unfold add_latency at 2. destruct (success record) eqn:Hs.
  - destruct (decide (op record = o)) as [<-|Ho].
    + rewrite (IH _ (vs ++ [latencyUS record])) by (rewrite lookup_insert_eq, Hm; done). case_decide; [|tauto].
      by rewrite <- app_assoc.
    + rewrite (IH _ vs) by (by rewrite lookup_insert_ne). case_decide; [tauto|done].
  - rewrite (IH _ vs Hm). case_decide; [naive_solver congruence|done].
Qed.

Lemma op_metrics_count values : om_Count (op_metrics values) = N.of_nat (length values).
Proof. simpl. by rewrite (Permutation_length (proj2 (Float64s_spec values))). Qed.

(** The operations of a workload. *)
Definition workload_ops (records : list recordedOp) : Prop := Forall (λ r, op r ∈ [§"GET"; §"SET"]) records.

Lemma add_latency_dom (m : gmap gostring (list float64)) records :
  workload_ops records → dom m = {[ §"GET"; §"SET" ]} → dom (foldl add_latency m records) = {[ §"GET"; §"SET" ]}.
Proof.
  intros Ho. revert m. induction Ho as [|record records Hr _ IH]; intros m Hd; [done|]. simpl. apply IH.
  unfold add_latency. case_match; [|done]. rewrite dom_insert_L, Hd.
  rewrite !elem_of_cons, elem_of_nil in Hr. destruct Hr as [->|[->|[]]]; set_solver.
Qed.

Lemma summarizeOperations_spec records : workload_ops records →
  summarizeOperations records =
    <[§"GET" := op_metrics (latencies_of §"GET" records)]> {[ §"SET" := op_metrics (latencies_of §"SET" records) ]}.
Proof.
  intros Ho. unfold summarizeOperations. set (m0 := <[_ := _]> _ : gmap gostring (list float64)).
  pose proof (add_latency_lookup m0 records §"GET" [] eq_refl) as Hg.
  pose proof (add_latency_lookup m0 records §"SET" [] eq_refl) as Hs.
  pose proof (add_latency_dom m0 records Ho ltac:(unfold m0; set_solver)) as Hd.
  apply map_eq. intros o. rewrite lookup_fmap.
  destruct (decide (o = §"GET")) as [->|Hg']; [by rewrite Hg, lookup_insert_eq|].
  rewrite lookup_insert_ne by done.
  destruct (decide (o = §"SET")) as [->|Hs']; [by rewrite Hs, lookup_singleton_eq|].
  rewrite lookup_singleton_ne by done. rewrite (proj1 (not_elem_of_dom _ o)); [done|]. rewrite Hd. set_solver.
Qed.

Lemma ops_partition records : workload_ops records →
  length (latencies_of §"GET" records) + length (latencies_of §"SET" records) = length (successes records).
Proof.
  unfold latencies_of, successes. rewrite !length_fmap. induction 1 as [|record records Hr _ IH]; [done|].
  rewrite !elem_of_cons, elem_of_nil in Hr. rewrite !filter_cons. 
  destruct (success record) eqn:Hs; destruct Hr as [Hr|[Hr|[]]]; rewrite Hr; repeat case_decide; naive_solver lia.
Qed.

(** A worker of the phase: any connection, clock, draws and failing writes. *)
Definition phase_worker (workload : WorkloadSpec) (result : WorkerResult) : Prop := ∃ env depth fuel stream,
  (∀ k, (0 ≤ now env k)%Z) ∧ run_worker env workload depth fuel stream = Some result.

Lemma phase_records workload workers : Forall (phase_worker workload) workers →
  Forall good_record (concat (omap wr_records workers)).
Proof.
  induction 1 as [|result workers (env & depth & fuel & stream & Hclock & Hrun) _ IH]; [done|]. simpl.
  destruct (wr_records result) as [rs|] eqn:Ers; [|done]. simpl. apply Forall_app. split; [|done].
  unfold run_worker in Hrun. destruct stream as [stream|]; [|by injection Hrun as <-].
  pose proof (worker_loop_good env workload depth Hclock fuel 0 (new_worker stream)) as Hg.
  destruct (worker_loop env workload depth fuel 0 (new_worker stream)) as [[a|e| |] s]; simplify_eq/=; by apply Hg.
Qed.

(** The tallies of a workload's result agree.  Whatever the connections of the
    workers did, with a measured time of up to 104 days: every record is
    counted as a success or an error; the operations are GET and SET, each with
    the percentiles of its own latencies, and their counts add up to the
    successes; and so do the counts of the intervals. *)
Lemma workload_accounts deployment workload opts workers ended timing elapsed ctx_err :
  Forall (phase_worker workload) workers → (0 < elapsed < 2 ^ 53)%Z →
  let result := fst (fst (executeWorkload deployment workload opts None workers ended timing elapsed ctx_err)) in
  let records := concat (omap wr_records workers) in
  (SuccessCount result + ErrorCount result = N.of_nat (length records))%N ∧
  (∃ get set, wr_Operations result = Some (<[§"GET" := get]> {[ §"SET" := set ]}) ∧
     get = op_metrics (latencies_of §"GET" records) ∧ set = op_metrics (latencies_of §"SET" records) ∧
     (om_Count get + om_Count set = SuccessCount result)%N) ∧
  foldr (λ b k, (Operations b + k)%N) 0%N (Buckets result) = SuccessCount result.
Proof.
  intros Hw He result records.
  pose proof (phase_records workload workers Hw) as Hg. fold records in Hg.
  assert (Hops : workload_ops records) by (eapply Forall_impl; [exact Hg|]; by intros r []).
  assert (Hfin : Forall (λ r, (0 ≤ finished r)%Z) records) by (eapply Forall_impl; [exact Hg|]; by intros r []).
  pose proof (length_filter (λ r, success r = true) records) as Hle. fold (successes records) in Hle.
  unfold result, executeWorkload, collect. fold records. unfold measured_result. simpl. rewrite count_success_spec. simpl.
  split_and!; [lia| |by apply intervals_sum].
  do 2 eexists. split; [f_equal; by apply summarizeOperations_spec|]. split_and!; [done..|].
  rewrite !op_metrics_count. pose proof (ops_partition records Hops). lia.
Qed.
End result.

(** ** Witnesses *)
#[local] Instance zero_conversion : FloatToInt := λ _, 0%Z.

(** Two turns; the clock advances by a millisecond per reading, the draws give a
    GET and a SET in turn. *)
Definition sample_env : WorkerEnv := mkWorkerEnv (λ k, Z.of_nat k * 1000000)%Z
  (λ k _, if bool_decide (k mod 4 = 2) then 99%Z else 1%Z) (λ k, bool_decide (2 ≤ k)) no_fault.
Definition half : WorkloadSpec := mkWorkload §"get50-set50" 50 50 64.
Definition sample_replies : list gostring := [BuildBulkString (Some §"v"); RespOk; BuildBulkString None; RespOk].

Lemma sample_replies_framed : Forall framed sample_replies.
Proof.
  unfold sample_replies. rewrite !Forall_cons, Forall_nil.
  split_and!; [apply framed_bulk; by vm_compute|by apply framed_const|apply framed_nil|by apply framed_const|done].
Qed.

Lemma sample_ctx i : i < 2 → ctx_done sample_env i = false.
Proof. intros Hi. apply bool_decide_false. lia. Qed.

Lemma worker_measures_witness : ∃ s,
  worker_loop sample_env half 2 3 0 (new_worker (concat sample_replies ++ [])) = (Ok tt, s) ∧
  sent (client s) = encode_requests (bench_request sample_env half <$> seq 0 (2 * 2)) ∧
  local s = expected_records sample_env half 2 0 sample_replies ∧
  op <$> expected_records sample_env half 2 0 sample_replies = [§"GET"; §"SET"; §"GET"; §"SET"].
Proof.
  destruct (proj1 (worker_measures sample_env half 2 eq_refl 2 sample_replies [] sample_ctx eq_refl sample_replies_framed) eq_refl)
    as (s & E & Hs & Hl).
  exists s. split; [exact E|]. split; [exact Hs|]. split; [exact Hl|]. vm_compute. reflexivity.
Defined.

(** One worker that ends well and one that cannot connect. *)
Definition sample_result : WorkerResult :=
  mkWorkerResult None (Some (local (snd (worker_loop sample_env half 2 3 0 (new_worker (concat sample_replies)))))).
Definition sample_workers : list WorkerResult := [sample_result; mkWorkerResult (Some PDial) None].

Lemma sample_workers_phase : Forall (phase_worker half) sample_workers.
Proof.
  unfold sample_workers. rewrite !Forall_cons, Forall_nil. split_and!; [| |done].
  - exists sample_env, 2, 3, (Some (concat sample_replies)). split; [intros k; simpl; lia|]. vm_compute. reflexivity.
  - exists sample_env, 2, 3, None. split; [intros k; simpl; lia|reflexivity].
Qed.

Definition sample_options : Options := setDefaults (mkOptions [] [] [] [] 0 0 0 0 0 false).

Example workload_accounts_sample :
  let result := fst (fst (executeWorkload DurableThree half sample_options None sample_workers true (mkTiming 0 0 None)
                            250000000 None)) in
  (SuccessCount result + ErrorCount result = 4)%N ∧
  foldr (λ b k, (Operations b + k)%N) 0%N (Buckets result) = SuccessCount result.
Proof.
  destruct (workload_accounts DurableThree half sample_options sample_workers true (mkTiming 0 0 None) 250000000 None
              sample_workers_phase ltac:(lia)) as (Hc & _ & Hb).
  split; [exact Hc|exact Hb].
Defined.
