(* ===== verification/Results.v ===== *)
(** * Result bundles and their files (benchmarks/harness/types.go)

    The records of a benchmark run with the JSON tags of their fields, as codecs; the
    laws of the codecs give the round trip of metadata.json and metrics.json
    ([metadata_laws], [metrics_laws]). *)

From S2P Require Import Prelude GoLib Utf8 Json Float64 FloatText JsonCodec Rfc3339 Workload Harness Measure.
From Stdlib Require Import SpecFloat.

(** ** Data *)
Definition SchemaVersion : Z := 1.
Definition HarnessVersion : gostring := §"1.0.0".

Record NodeConfiguration := mkNodeConfiguration {
  nc_NodeID : gostring;
  nc_RESPAddress : gostring;
  nc_AdminAddress : gostring;
  nc_RaftEnabled : bool;
  nc_RaftAddress : gostring;
  nc_RaftAdvertiseAddr : gostring;
  nc_DataDirectory : gostring;
  nc_Bootstrap : bool;
  nc_JoinAddress : gostring;
  nc_RequestLogging : bool;
}.

Record DeploymentConfig := mkDeploymentConfig {
  dc_Deployment : Deployment;
  dc_Purpose : gostring;
  dc_Nodes : list NodeConfiguration;
}.

(** The start time is in nanoseconds since 1970. *)
Record Metadata := mkMetadata {
  md_SchemaVersion : Z;
  md_HarnessVersion : gostring;
  StartTime : Z;
  GitCommit : gostring;
  GitDirty : bool;
  md_BuildCommand : gostring;
  GoVersion : gostring;
  OS : gostring;
  Architecture : gostring;
  CPUCount : Z;
  AvailableMemory : N;
  StoragePath : gostring;
  Filesystem : gostring;
  RandomSeed : Z;
  md_Profile : gostring;
  HotRequestLogging : bool;
  Parameters : option (gmap gostring any);
  Configurations : list DeploymentConfig;
  md_Missing : list gostring;
}.

Record SnapshotResult := mkSnapshotResult {
  sr_DurationMS : float64;
  SizeBytes : N;
  BaselineThroughput : float64;
  SnapshotThroughput : float64;
  ForegroundThroughputChange : float64;
  MaximumP99US : float64;
  sr_Success : bool;
  sr_Error : gostring;
}.

Record RecoveryResult := mkRecovery { rr_DurationMS : float64; rr_Success : bool; rr_Error : gostring }.

Record ScenarioResults := mkScenarios {
  SnapshotUnderLoad : option SnapshotResult;
  FollowerCatchup : option RecoveryResult;
  LeaderFailover : option RecoveryResult;
  SnapshotLogReplay : option RecoveryResult;
  FullClusterRestart : option RecoveryResult;
}.

Record Metrics := mkRunMetrics {
  m_SchemaVersion : Z;
  m_HarnessVersion : gostring;
  Completed : bool;
  m_Error : gostring;
  m_Workloads : list WorkloadResult;
  m_Scenarios : ScenarioResults;
  Processes : list ProcessMetrics;
  MissingMetrics : list gostring;
}.

Record Bundle := mkBundle { b_Dir : gostring; b_Metadata : Metadata; b_Metrics : Metrics }.

Record MetricComparison := mkChange {
  mc_Name : gostring;
  BaselineValue : float64;
  CandidateValue : float64;
  AbsoluteChange : float64;
  PercentChange : option float64;
  mc_Unit : gostring;
}.

Record Comparison := mkComparison {
  c_SchemaVersion : Z;
  Baseline : gostring;
  Candidate : gostring;
  Comparable : bool;
  Warnings : list gostring;
  Changes : list MetricComparison;
}.

(** ** Times *)
Lemma pad_ascii k n : (0 ≤ n < 10 ^ Z.of_nat k)%Z → is_ascii (pad k n) = true.
Proof. intros Hn. destruct (pad_spec k n Hn) as (_ & Hd & _). by apply digits_ascii. Qed.

Lemma time_text_ascii t text : time_text t = Some text → is_ascii text = true.
Proof.
  unfold time_text. pose proof (civil_spec (t / day_ns)) as Hc. destruct (civil (t / day_ns)) as [[y m] d].
  destruct Hc as (Hm & Hd & _). destruct (_ && _) eqn:Ey; [|done]. apply andb_true_iff in Ey as [Hy0%Z.leb_le Hy%Z.leb_le].
  set (s := (t / 1000000000 mod 86400)%Z). intros <-%(inj Some).
  assert (days_in m y ≤ 31)%Z by (unfold days_in; repeat case_match; lia).
  pose proof (Z.mod_pos_bound (t / 1000000000) 86400 ltac:(lia)) as Hs. fold s in Hs.
  assert (0 ≤ s / 3600 < 24)%Z by (split; [apply Z.div_pos; lia|apply Z.div_lt_upper_bound; lia]).
  pose proof (Z.mod_pos_bound (s / 60) 60 ltac:(lia)). pose proof (Z.mod_pos_bound s 60 ltac:(lia)).
  pose proof (Z.mod_pos_bound t 1000000000 ltac:(lia)) as Hns.
  assert (Hf : is_ascii (fraction_text (t mod 1000000000)) = true).
  { unfold fraction_text. destruct (pad_spec 9 (t mod 1000000000)) as (_ & Hf & _); [simpl; lia|].
    apply trim_trailing_digits, digits_ascii in Hf. by destruct (trim_trailing _). }
  unfold is_ascii in *. rewrite !forallb_app, Hf.
  pose proof (λ k n, pad_ascii k n) as Hp. unfold is_ascii in Hp.
  rewrite !Hp by (simpl; lia). done.
Qed.

(** A [time.Time] in UTC.  The zero time is the start of the year 1. *)
Definition time_codec `{TimeParse} : Codec Z :=
  mkCodec (-62135596800000000000)%Z (λ _, false) (λ t, JStr <$> time_text t)
    (λ cur j, match j with JStr s => parse_time s | JNull => Some cur | _ => None end)
    (λ t, bool_decide (is_Some (time_text t))) id (λ _, false) 0.

#[export] Instance time_laws `{TimeParse} : CodecLaws time_codec.
Proof.
  split; [|done]. intros t [text Ht]%bool_decide_eq_true. exists (JStr text). split_and!; [cbn [time_codec c_encode]; by rewrite Ht|done|done|].
  cbn [time_codec c_decode c_reread repair]. rewrite (valid_ascii _ (time_text_ascii _ _ Ht)). by apply parse_time_text.
Qed.

(** ** The JSON forms *)

(** Proves the laws of a struct from those of its fields. *)
Ltac struct_laws_tac fs :=
  apply struct_laws;
  [unfold fs; apply _
  |vm_compute; reflexivity
  |intros t; repeat match goal with t : prod _ _ |- _ => destruct t | t : unit |- _ => destruct t end; reflexivity].

Definition workload_fields := fcons §"name" false str_codec $ fcons §"get_percent" false int_codec $
  fcons §"set_percent" false int_codec $ fcons §"value_size_bytes" false int_codec fnil.
Definition workload_codec : Codec WorkloadSpec := struct_codec workload_fields
  (λ w, (wl_Name w, (GetPercent w, (SetPercent w, (ValueSize w, tt)))))
  (λ '(a, (b, (c, (d, _)))), mkWorkload a b c d).
#[export] Instance workload_laws : CodecLaws workload_codec.
Proof. struct_laws_tac workload_fields. Qed.

Definition node_fields := fcons §"node_id" false str_codec $ fcons §"resp_address" false str_codec $
  fcons §"admin_address" false str_codec $ fcons §"raft_enabled" false bool_codec $ fcons §"raft_address" true str_codec $
  fcons §"raft_advertise_address" true str_codec $ fcons §"data_directory" false str_codec $ fcons §"bootstrap" false bool_codec $
  fcons §"join_address" true str_codec $ fcons §"request_logging" false bool_codec fnil.
Definition node_codec : Codec NodeConfiguration := struct_codec node_fields
  (λ n, (nc_NodeID n, (nc_RESPAddress n, (nc_AdminAddress n, (nc_RaftEnabled n, (nc_RaftAddress n, (nc_RaftAdvertiseAddr n,
    (nc_DataDirectory n, (nc_Bootstrap n, (nc_JoinAddress n, (nc_RequestLogging n, tt)))))))))))
  (λ '(a, (b, (c, (d, (e, (f, (g, (h, (i, (j, _)))))))))), mkNodeConfiguration a b c d e f g h i j).
#[export] Instance node_laws : CodecLaws node_codec.
Proof. struct_laws_tac node_fields. Qed.

Definition deployment_fields := fcons §"deployment" false str_codec $ fcons §"purpose" false str_codec $
  fcons §"nodes" false (slice_codec node_codec) fnil.
Definition deployment_codec : Codec DeploymentConfig := struct_codec deployment_fields
  (λ d, (dc_Deployment d, (dc_Purpose d, (dc_Nodes d, tt)))) (λ '(a, (b, (c, _))), mkDeploymentConfig a b c).
#[export] Instance deployment_laws : CodecLaws deployment_codec.
Proof. struct_laws_tac deployment_fields. Qed.

Definition metadata_fields `{TimeParse} := fcons §"schema_version" false int_codec $ fcons §"harness_version" false str_codec $
  fcons §"start_time" false time_codec $ fcons §"git_commit" false str_codec $ fcons §"git_dirty" false bool_codec $
  fcons §"build_command" false str_codec $ fcons §"go_version" false str_codec $ fcons §"os" false str_codec $
  fcons §"architecture" false str_codec $ fcons §"cpu_count" false int_codec $
  fcons §"available_memory_bytes" true uint64_codec $ fcons §"storage_path" false str_codec $
  fcons §"filesystem" true str_codec $ fcons §"random_seed" false int_codec $ fcons §"profile" false str_codec $
  fcons §"hot_path_request_logging" false bool_codec $ fcons §"parameters" false (map_codec any_codec) $
  fcons §"skiffdb_configurations" false (slice_codec deployment_codec) $
  fcons §"missing_metadata" true (slice_codec str_codec) fnil.
Definition metadata_codec `{TimeParse} : Codec Metadata := struct_codec metadata_fields
  (λ m, (md_SchemaVersion m, (md_HarnessVersion m, (StartTime m, (GitCommit m, (GitDirty m, (md_BuildCommand m, (GoVersion m,
    (OS m, (Architecture m, (CPUCount m, (AvailableMemory m, (StoragePath m, (Filesystem m, (RandomSeed m, (md_Profile m,
    (HotRequestLogging m, (Parameters m, (Configurations m, (md_Missing m, tt))))))))))))))))))))
  (λ '(a, (b, (c, (d, (e, (f, (g, (h, (i, (j, (k, (l, (m, (n, (o, (p, (q, (r, (s, _))))))))))))))))))),
    mkMetadata a b c d e f g h i j k l m n o p q r s).
#[export] Instance metadata_laws `{TimeParse} : CodecLaws metadata_codec.
Proof. struct_laws_tac (@metadata_fields). Qed.

Definition op_fields := fcons §"count" false uint64_codec $ fcons §"p50_us" false float64_codec $
  fcons §"p95_us" false float64_codec $ fcons §"p99_us" false float64_codec $ fcons §"p999_us" false float64_codec fnil.
Definition op_codec : Codec OpMetrics := struct_codec op_fields
  (λ o, (om_Count o, (P50US o, (P95US o, (P99US o, (P999US o, tt)))))) (λ '(a, (b, (c, (d, (e, _))))), mkOpMetrics a b c d e).
#[export] Instance op_laws : CodecLaws op_codec.
Proof. struct_laws_tac op_fields. Qed.

Definition interval_fields := fcons §"start_ms" false float64_codec $ fcons §"end_ms" false float64_codec $
  fcons §"operations" false uint64_codec $ fcons §"throughput_ops_per_second" false float64_codec $
  fcons §"p99_us" false float64_codec fnil.
Definition interval_codec : Codec IntervalMetrics := struct_codec interval_fields
  (λ i, (StartMS i, (EndMS i, (Operations i, (Throughput i, (im_P99US i, tt))))))
  (λ '(a, (b, (c, (d, (e, _))))), mkInterval a b c d e).
#[export] Instance interval_laws : CodecLaws interval_codec.
Proof. struct_laws_tac interval_fields. Qed.

Definition result_fields := fcons §"deployment" false str_codec $ fcons §"workload" false workload_codec $
  fcons §"duration_ms" false float64_codec $ fcons §"warmup_ms" false float64_codec $ fcons §"concurrency" false int_codec $
  fcons §"pipeline_depth" false int_codec $ fcons §"seed" false int_codec $
  fcons §"throughput_ops_per_second" false float64_codec $ fcons §"successful_operations" false uint64_codec $
  fcons §"error_operations" false uint64_codec $ fcons §"operations" false (map_codec op_codec) $
  fcons §"intervals" true (slice_codec interval_codec) fnil.
Definition result_codec : Codec WorkloadResult := struct_codec result_fields
  (λ r, (wr_Deployment r, (wr_Workload r, (DurationMS r, (WarmupMS r, (wr_Concurrency r, (wr_Pipeline r, (wr_Seed r,
    (wr_Throughput r, (SuccessCount r, (ErrorCount r, (wr_Operations r, (Buckets r, tt)))))))))))))
  (λ '(a, (b, (c, (d, (e, (f, (g, (h, (i, (j, (k, (l, _)))))))))))), mkResult a b c d e f g h i j k l).
#[export] Instance result_laws : CodecLaws result_codec.
Proof. struct_laws_tac result_fields. Qed.

Definition process_fields := fcons §"deployment" false str_codec $ fcons §"node_id" false str_codec $
  fcons §"pid" false int_codec $ fcons §"cpu_time_ms" true float64_codec $ fcons §"peak_rss_bytes" true uint64_codec $
  fcons §"disk_read_bytes" true uint64_codec $ fcons §"disk_write_bytes" true uint64_codec $
  fcons §"missing" true (slice_codec str_codec) fnil.
Definition process_codec : Codec ProcessMetrics := struct_codec process_fields
  (λ p, (pm_Deployment p, (pm_NodeID p, (pm_PID p, (pm_CPUTimeMS p, (pm_PeakRSSBytes p, (pm_DiskReadBytes p,
    (pm_DiskWriteBytes p, (pm_Missing p, tt)))))))))
  (λ '(a, (b, (c, (d, (e, (f, (g, (h, _)))))))), mkMetrics a b c d e f g h).
#[export] Instance process_laws : CodecLaws process_codec.
Proof. struct_laws_tac process_fields. Qed.

Definition snapshot_fields := fcons §"duration_ms" false float64_codec $ fcons §"size_bytes" false uint64_codec $
  fcons §"baseline_throughput_ops_per_second" false float64_codec $
  fcons §"snapshot_throughput_ops_per_second" false float64_codec $
  fcons §"foreground_throughput_change_percent" false float64_codec $ fcons §"maximum_p99_us" false float64_codec $
  fcons §"success" false bool_codec $ fcons §"error" true str_codec fnil.
Definition snapshot_codec : Codec SnapshotResult := struct_codec snapshot_fields
  (λ r, (sr_DurationMS r, (SizeBytes r, (BaselineThroughput r, (SnapshotThroughput r, (ForegroundThroughputChange r,
    (MaximumP99US r, (sr_Success r, (sr_Error r, tt)))))))))
  (λ '(a, (b, (c, (d, (e, (f, (g, (h, _)))))))), mkSnapshotResult a b c d e f g h).
#[export] Instance snapshot_laws : CodecLaws snapshot_codec.
Proof. struct_laws_tac snapshot_fields. Qed.

Definition recovery_fields := fcons §"duration_ms" false float64_codec $ fcons §"success" false bool_codec $
  fcons §"error" true str_codec fnil.
Definition recovery_codec : Codec RecoveryResult := struct_codec recovery_fields
  (λ r, (rr_DurationMS r, (rr_Success r, (rr_Error r, tt)))) (λ '(a, (b, (c, _))), mkRecovery a b c).
#[export] Instance recovery_laws : CodecLaws recovery_codec.
Proof. struct_laws_tac recovery_fields. Qed.

Definition scenario_fields := fcons §"snapshot_under_load" true (pointer_codec snapshot_codec) $
  fcons §"follower_catchup" true (pointer_codec recovery_codec) $ fcons §"leader_failover" true (pointer_codec recovery_codec) $
  fcons §"snapshot_plus_log_replay" true (pointer_codec recovery_codec) $
  fcons §"full_cluster_restart" true (pointer_codec recovery_codec) fnil.
Definition scenario_codec : Codec ScenarioResults := struct_codec scenario_fields
  (λ r, (SnapshotUnderLoad r, (FollowerCatchup r, (LeaderFailover r, (SnapshotLogReplay r, (FullClusterRestart r, tt))))))
  (λ '(a, (b, (c, (d, (e, _))))), mkScenarios a b c d e).
#[export] Instance scenario_laws : CodecLaws scenario_codec.
Proof. struct_laws_tac scenario_fields. Qed.

Definition metrics_fields := fcons §"schema_version" false int_codec $ fcons §"harness_version" false str_codec $
  fcons §"completed" false bool_codec $ fcons §"error" true str_codec $
  fcons §"workloads" false (slice_codec result_codec) $ fcons §"scenarios" false scenario_codec $
  fcons §"processes" false (slice_codec process_codec) $ fcons §"missing_metrics" true (slice_codec str_codec) fnil.
Definition metrics_codec : Codec Metrics := struct_codec metrics_fields
  (λ m, (m_SchemaVersion m, (m_HarnessVersion m, (Completed m, (m_Error m, (m_Workloads m, (m_Scenarios m, (Processes m,
    (MissingMetrics m, tt)))))))))
  (λ '(a, (b, (c, (d, (e, (f, (g, (h, _)))))))), mkRunMetrics a b c d e f g h).
#[export] Instance metrics_laws : CodecLaws metrics_codec.
Proof. struct_laws_tac metrics_fields. Qed.

Definition change_fields := fcons §"name" false str_codec $ fcons §"baseline_value" false float64_codec $
  fcons §"candidate_value" false float64_codec $ fcons §"absolute_change" false float64_codec $
  fcons §"percent_change" true (pointer_codec float64_codec) $ fcons §"unit" false str_codec fnil.
Definition change_codec : Codec MetricComparison := struct_codec change_fields
  (λ c, (mc_Name c, (BaselineValue c, (CandidateValue c, (AbsoluteChange c, (PercentChange c, (mc_Unit c, tt)))))))
  (λ '(a, (b, (c, (d, (e, (f, _)))))), mkChange a b c d e f).

Definition comparison_fields := fcons §"schema_version" false int_codec $ fcons §"baseline" false str_codec $
  fcons §"candidate" false str_codec $ fcons §"comparable" false bool_codec $
  fcons §"warnings" true (slice_codec str_codec) $ fcons §"changes" false (slice_codec change_codec) fnil.
Definition comparison_codec : Codec Comparison := struct_codec comparison_fields
  (λ c, (c_SchemaVersion c, (Baseline c, (Candidate c, (Comparable c, (Warnings c, (Changes c, tt)))))))
  (λ '(a, (b, (c, (d, (e, (f, _)))))), mkComparison a b c d e f).
