(* ===== verification/Host.v ===== *)
(** * The host of a benchmark run (benchmarks/harness/run.go)

    What a run records about the machine and the source it measures
    ([collectMetadata]), and the name of its result directory.  The outputs of the
    commands and files that are read are those of a [Host].  [existingPath]
    is shown to end ([existingPath_total]). *)

From S2P Require Import Prelude GoLib Utf8 Json Config Float64 FloatText JsonCodec Rfc3339 Workload Harness Measure Results.

Record Host := mkHost {
  now : Z;                                   (** nanoseconds since 1970 *)
  git_rev_parse : option gostring;
  git_status : option gostring;
  go_version : gostring;
  goos : gostring;
  goarch : gostring;
  num_cpu : Z;
  stat_ok : gostring → bool;
  df : gostring → option gostring;
  meminfo : option gostring;
  vm_stat : option gostring;
}.

(** ** Paths that exist *)
Section paths.
Context (exists_at : gostring → bool).

(** The loop of [existingPath]; [None]: out of fuel. *)
Fixpoint climb (fuel : nat) (current : gostring) : option gostring :=
  match fuel with
  | O => None
  | S fuel =>
      if exists_at current then Some current
      else let parent := Path.Dir current in
           if bool_decide (parent = current) then Some §"." else climb fuel parent
  end.

Definition existingPath (path : gostring) : option gostring :=
  if bool_decide (TrimSpace path = []) then Some §"."
  else let current := Path.Clean path in climb (S (S (length current))) current.

(** The elements of a cleaned path: plain names, and ".." at the front of a
    relative one. *)
Definition clean_elems (rooted : bool) (l : list gostring) : Prop :=
  ∃ k l', l = replicate k §".." ++ l' ∧ Forall Path.plain l' ∧ (rooted = true → k = 0).

Lemma dots_nosep : Path.sep ∉ §"..".
Proof. by apply (bool_decide_unpack _). Qed.

Lemma clean_elems_nosep rooted l : clean_elems rooted l → Forall (λ x, x ≠ [] ∧ Path.sep ∉ x) l.
Proof.
  intros (k & l' & -> & Hl & _). apply Forall_app. split.
  - apply Forall_forall. intros x Hx%elem_of_replicate. destruct Hx as [-> _]. split; [done|apply dots_nosep].
  - eapply Forall_impl; [exact Hl|]. by intros x (? & _ & _ & ?).
Qed.

Lemma clean_step_elems rooted stack x : Path.sep ∉ x → clean_elems rooted (rev stack) →
  clean_elems rooted (rev (Path.clean_step rooted stack x)).
Proof.
  intros Hx (k & l & Hs & Hl & Hk). unfold Path.clean_step.
  destruct (bool_decide (x = [])) eqn:E1; [by exists k, l|]. destruct (bool_decide (x = §".")) eqn:E2; cbn [orb]; [by exists k, l|].
  apply bool_decide_eq_false in E1, E2. case_bool_decide as E3.
  - subst x. destruct stack as [|y stack].
    + destruct rooted; [by exists k, l|]. exists 1, []. by split_and!.
    + simpl in Hs. destruct l as [|z l _] using rev_ind.
      * rewrite app_nil_r in Hs. destruct k as [|k]; [by destruct (rev stack)|].
        rewrite replicate_S_end in Hs. apply app_inj_tail in Hs as [Hs ->]. rewrite bool_decide_true by done.
        exists (S (S k)), []. simpl rev. rewrite Hs, app_nil_r, <- !replicate_S_end. split_and!; [done|done|by intros Hr%Hk].
      * rewrite app_assoc in Hs. apply app_inj_tail in Hs as [Hs ->]. apply Forall_app in Hl as [Hl [(_ & _ & Hz & _) _]%Forall_cons].
        rewrite bool_decide_false by done. by exists k, l.
  - exists k, (l ++ [x]). simpl rev. rewrite Hs, app_assoc. split_and!; [done| |done]. apply Forall_app. split; [done|].
    apply Forall_singleton. by split_and!.
Qed.

Lemma clean_fold_elems rooted l stack : Forall (λ x, Path.sep ∉ x) l → clean_elems rooted (rev stack) →
  clean_elems rooted (rev (fold_left (Path.clean_step rooted) l stack)).
Proof.
  revert stack. induction l as [|x l IH]; intros stack; [done|]. intros [Hx Hl]%Forall_cons Hs. simpl.
  apply IH; [done|]. by apply clean_step_elems.
Qed.

Definition path_of (rooted : bool) (l : list gostring) : gostring := Path.finish rooted (rev l).

Lemma Clean_elems s : ∃ l, clean_elems (Path.is_rooted s) l ∧ Path.Clean s = path_of (Path.is_rooted s) l.
Proof.
  exists (rev (fold_left (Path.clean_step (Path.is_rooted s)) (Path.split s) [])). split.
  - apply clean_fold_elems; [apply Path.split_nosep|]. exists 0, []. by split_and!.
  - unfold path_of, Path.Clean. by rewrite rev_involutive.
Qed.

Lemma rev_replicate {A} k (x : A) : rev (replicate k x) = replicate k x.
Proof. induction k as [|k IH]; [done|]. cbn [replicate rev]. by rewrite IH, <- replicate_S_end. Qed.

(** Cleaning keeps clean elements. *)
Lemma clean_fold_id rooted l : clean_elems rooted l → fold_left (Path.clean_step rooted) l [] = rev l.
Proof.
  intros (k & l' & -> & Hl & Hk). rewrite fold_left_app.
  assert (Hd : fold_left (Path.clean_step rooted) (replicate k §"..") [] = replicate k §"..").
  { destruct rooted; [by rewrite (Hk eq_refl)|]. clear. induction k as [|k IH]; [done|].
    rewrite replicate_S_end at 1. rewrite fold_left_app, IH. destruct k as [|k]; [done|]. done. }
  rewrite Hd, Path.clean_steps_plain by done. by rewrite rev_app_distr, rev_replicate.
Qed.

Lemma from_sep_nosep x : Path.sep ∉ x → Path.from_sep x = [].
Proof.
  induction x as [|c x IH]; intros Hx; [done|]. simpl. rewrite bool_decide_false by set_solver. apply IH. set_solver.
Qed.

Lemma rev_nosep x : Path.sep ∉ x → Path.sep ∉ rev x.
Proof. intros Hx. by rewrite list_elem_of_In, <- in_rev, <- list_elem_of_In. Qed.

(** The directory of a path with elements is the path without the last one. *)
Lemma Dir_snoc rooted l x : clean_elems rooted (l ++ [x]) → clean_elems rooted l ∧ Path.Dir (path_of rooted (l ++ [x])) = path_of rooted l.
Proof.
  intros Hc. pose proof (clean_elems_nosep _ _ Hc) as Hn. apply Forall_app in Hn as [Hn [[Hx0 Hx] _]%Forall_cons].
  assert (Hl : clean_elems rooted l).
  { destruct Hc as (k & l' & He & Hl & Hk). destruct l' as [|y l' _] using rev_ind.
    - rewrite app_nil_r in He. destruct k as [|k]; [by destruct l|]. rewrite replicate_S_end in He.
      apply app_inj_tail in He as [-> _]. exists k, []. rewrite app_nil_r. split_and!; [done|done|by intros Hr%Hk].
    - rewrite app_assoc in He. apply app_inj_tail in He as [-> _]. apply Forall_app in Hl as [Hl _]. by exists k, l'. }
  split; [done|]. assert (Hns : Forall (λ y, Path.sep ∉ y) l) by (eapply Forall_impl; [exact Hn|]; by intros y [_ ?]).
  unfold path_of, Path.finish. rewrite !rev_involutive. unfold Path.Dir.
  assert (Hbody : Path.render (l ++ [x]) ≠ []) by by apply Path.render_nonempty.
  destruct (decide (l = [])) as [->|Hl0].
  - simpl app. cbn [Path.render]. destruct rooted.
    + simpl rev. rewrite Path.from_sep_app by (by apply rev_nosep). done.
    + rewrite bool_decide_false by done. by rewrite from_sep_nosep by (by apply rev_nosep).
  - rewrite Path.render_snoc by done.
    assert (Hsp : Path.split (Path.render l ++ [Path.sep]) = l ++ [[]]).
    { change [Path.sep] with (Path.sep :: []). rewrite Path.split_app, Path.split_render by done. done. }
    assert (Hr0 : Path.render l ≠ []).
    { destruct l as [|y l _] using rev_ind; [done|]. apply Path.render_nonempty. apply Forall_app in Hn as [_ Hn].
      by apply Forall_cons in Hn as [[? _] _]. }
    assert (Hrev : ∀ p, rev (Path.from_sep (rev (p ++ Path.sep :: x))) = p ++ [Path.sep]).
    { intros p. rewrite rev_app_distr. cbn [rev]. rewrite <- app_assoc. cbn [app]. rewrite Path.from_sep_app by (by apply rev_nosep).
      cbn [rev app]. by rewrite rev_involutive. }
    destruct rooted.
    + change (Path.sep :: Path.render l ++ Path.sep :: x) with ((Path.sep :: Path.render l) ++ Path.sep :: x).
      rewrite Hrev. cbn [app].
      unfold Path.Clean. cbn [Path.is_rooted Path.split]. rewrite bool_decide_true by done. cbn [fold_left].
      change (Path.clean_step true [] []) with (@nil gostring). rewrite Hsp, fold_left_app, clean_fold_id by done.
      change (fold_left (Path.clean_step true) [[]] (rev l)) with (rev l). unfold Path.finish. by rewrite rev_involutive.
    + rewrite bool_decide_false by (by destruct (Path.render l)). rewrite Hrev. unfold Path.Clean.
      assert (Path.is_rooted (Path.render l ++ [Path.sep]) = false) as ->.
      { destruct l as [|y l]; [done|]. apply Forall_cons in Hn as [[Hy0 Hy] _].
        destruct y as [|c y]; [done|]. destruct l; cbn; apply bool_decide_eq_false; set_solver. }
      rewrite Hsp, fold_left_app, clean_fold_id by done.
      change (fold_left (Path.clean_step false) [[]] (rev l)) with (rev l). unfold Path.finish. by rewrite rev_involutive.
Qed.

Lemma climb_ends rooted l fuel : clean_elems rooted l → S (length l) < fuel → is_Some (climb fuel (path_of rooted l)).
Proof.
  revert fuel. induction l as [|x l IH] using rev_ind; intros fuel Hc Hf.
  - destruct fuel as [|[|fuel]]; [simpl in Hf; lia..|]. cbn [climb].
    destruct (exists_at (path_of rooted [])); [done|]. rewrite bool_decide_true; [done|]. by destruct rooted.
  - destruct fuel as [|fuel]; [lia|]. cbn [climb]. destruct (exists_at (path_of rooted (l ++ [x]))); [done|].
    destruct (Dir_snoc rooted l x Hc) as [Hl ->]. case_bool_decide; [done|]. apply IH; [done|].
    rewrite length_app in Hf. simpl in Hf. lia.
Qed.

Lemma render_length l : Forall (λ x, x ≠ [] ∧ Path.sep ∉ x) l → length l ≤ length (Path.render l).
Proof.
  induction 1 as [|x l [Hx _] Hl IH]; [done|]. destruct l as [|y l]; [destruct x; simpl; [done|lia]|].
  change (Path.render (x :: y :: l)) with (x ++ Path.sep :: Path.render (y :: l)). rewrite length_app. simpl in *. lia.
Qed.

(** [existingPath] ends, whatever exists. *)
Lemma existingPath_total path : is_Some (existingPath path).
Proof.
  unfold existingPath. case_bool_decide; [done|]. destruct (Clean_elems path) as (l & Hc & ->). apply climb_ends; [done|].
  pose proof (render_length l (clean_elems_nosep _ _ Hc)) as Hl. unfold path_of, Path.finish. rewrite rev_involutive.
  destruct (Path.is_rooted path); simpl; [lia|]. case_bool_decide as He; simpl; [rewrite He in Hl; simpl in Hl; lia|lia].
Qed.
End paths.

(** The entries of a directory have a common prefix. *)
Lemma Join_prefix d : ∃ p, ∀ x, Path.plain x → Path.Join [d; x] = p ++ x.
Proof.
  assert (Hp : ∀ rooted l, ∃ p, ∀ x, x ≠ [] → path_of rooted (l ++ [x]) = p ++ x).
  { intros rooted l. destruct (decide (l = [])) as [->|Hl].
    - exists (if rooted then [Path.sep] else []). intros x Hx. destruct rooted; [done|]. unfold path_of, Path.finish. simpl.
      by rewrite bool_decide_false.
    - exists ((if rooted then [Path.sep] else []) ++ Path.render l ++ [Path.sep]). intros x Hx. unfold path_of, Path.finish.
      rewrite rev_involutive, Path.render_snoc by done. destruct rooted; [simpl; by rewrite <- app_assoc|].
      rewrite bool_decide_false by (by destruct (Path.render l)). simpl. by rewrite <- app_assoc. }
  assert (Hx : ∀ x, Path.plain x → x ≠ []) by (by intros x [? _]).
  destruct (decide (d = [])) as [->|Hd].
  - destruct (Hp false []) as [p Hp']. exists p. intros x Hpl. rewrite <- Hp' by auto. unfold Path.Join.
    rewrite filter_cons_False by auto. rewrite filter_cons_True by auto. cbn [filter list_filter Path.render app].
    unfold Path.Clean. destruct Hpl as (? & ? & ? & Hs). rewrite Path.split_plain by done. cbn [fold_left].
    rewrite Path.clean_step_plain by done. assert (Path.is_rooted x = false) as ->; [|done].
    destruct x as [|c x]; [done|]. apply bool_decide_eq_false. set_solver.
  - set (stack := fold_left (Path.clean_step (Path.is_rooted d)) (Path.split d) []).
    destruct (Hp (Path.is_rooted d) (rev stack)) as [p Hp']. exists p. intros x Hpl. rewrite <- Hp' by auto. unfold Path.Join.
    rewrite filter_cons_True by auto. rewrite filter_cons_True by auto. cbn [filter list_filter Path.render].
    unfold Path.Clean. assert (Path.is_rooted (d ++ Path.sep :: x) = Path.is_rooted d) as -> by (by destruct d).
    rewrite Path.split_app, fold_left_app, Path.split_plain by apply Hpl. cbn [fold_left].
    rewrite Path.clean_step_plain by done. unfold path_of. fold stack. by rewrite rev_app_distr, rev_involutive.
Qed.

(** ** Memory *)

(** [value, _ := strconv.ParseUint(s, 10, 64)]: zero for what is no number, the
    largest number for what is too large. *)
Definition parse_or_limit (s : gostring) : N :=
  match parse_udec s with
  | Some n => if (n <? 2 ^ 64)%Z then Z.to_N n else (2 ^ 64 - 1)%N
  | None => 0%N
  end.

(** The first line of /proc/meminfo that has the number. *)
Fixpoint mem_available (lines : list gostring) : option N :=
  match lines with
  | [] => None
  | line :: lines =>
      match Fields line with
      | name :: value :: _ =>
          if bool_decide (name = §"MemAvailable:") then Some (wrap_u64 (parse_or_limit value * 1024)) else mem_available lines
      | _ => mem_available lines
      end
  end.

(** The number after a field "of". *)
Fixpoint page_size (size : N) (fields : list gostring) : N :=
  match fields with
  | f :: ((value :: _) as rest) => page_size (if bool_decide (f = §"of") then parse_or_limit value else size) rest
  | _ => size
  end.

(** One line of the output of vm_stat: the size of a page and the number of pages. *)
Definition vm_stat_line (acc : N * N) (line : gostring) : N * N :=
  let '(size, pages) := acc in
  let size := if Contains line §"page size of" then page_size size (Fields line) else size in
  if HasPrefix line §"Pages free:" || HasPrefix line §"Pages inactive:" || HasPrefix line §"Pages speculative:" then
    match last (Fields line) with
    | Some value => (size, wrap_u64 (pages + parse_or_limit (TrimSuffix value §".")))
    | None => (size, pages)
    end
  else (size, pages).

Definition availableMemory (h : Host) : N :=
  match meminfo h ≫= (λ data, mem_available (split_lines data)) with
  | Some n => n
  | None =>
      match vm_stat h with
      | Some output =>
          let '(size, pages) := foldl vm_stat_line (4096%N, 0%N) (split_lines output) in
          if (0 <? pages)%N then wrap_u64 (pages * size) else 0%N
      | None => 0%N
      end
  end.

Definition lf : gostring := ["010"%char].

Example memory_test :
  availableMemory (mkHost 0 None None [] [] [] 1 (λ _, true) (λ _, None)
    (Some (§"MemTotal:  200 kB" ++ lf ++ §"MemAvailable:    100 kB" ++ lf)) None) = 102400%N ∧
  availableMemory (mkHost 0 None None [] [] [] 1 (λ _, true) (λ _, None) None
    (Some (§"Mach Virtual Memory Statistics: (page size of 16384 bytes)" ++ lf ++ §"Pages free:     10." ++ lf ++
           §"Pages active:   99." ++ lf ++ §"Pages inactive:  5." ++ lf))) = (15 * 16384)%N.
Proof. vm_compute. done. Qed.

(** ** Metadata *)

(** [git commit] and [git status] are the two errors. *)
Definition parameters_of (options : Options) : gmap gostring any :=
  list_to_map
    [(§"duration_ms", ANumber (millis (Duration options))); (§"warmup_ms", ANumber (millis (Warmup options)));
     (§"concurrency", AInt (Concurrency options)); (§"pipeline_depth", AInt (PipelineDepth options));
     (§"key_distribution", AText §"uniform"); (§"key_count", AInt 256)].

Definition collectMetadata (h : Host) (options : Options) : option Metadata :=
  shaOutput ← git_rev_parse h;
  statusOutput ← git_status h;
  let memory := availableMemory h in
  let filesystem := existingPath (stat_ok h) (ResultsRoot options) ≫= df h in
  Some (mkMetadata SchemaVersion HarnessVersion (now h) (TrimSpace shaOutput) (bool_decide (0 < length statusOutput))
    (BuildCommand options) (go_version h) (goos h) (goarch h) (num_cpu h) memory (ResultsRoot options)
    (from_option TrimSpace [] filesystem) (Seed options) (o_Profile options) false (Some (parameters_of options)) []
    ((if (memory =? 0)%N then [§"available memory"] else []) ++
     (match filesystem with Some _ => [] | None => [§"filesystem information"] end))).

(** ** The result directory *)
Definition shortSHA (sha : gostring) : gostring :=
  if bool_decide (12 < length sha) then take 12 sha
  else if bool_decide (sha = []) then §"unknown" else sha.

(** [Format("20060102T150405.000000000Z")] in UTC, for years of four digits. *)
Definition stamp (t : Z) : gostring :=
  let '(y, m, d) := civil (t / day_ns) in
  let s := (t / 1000000000 mod 86400)%Z in
  pad 4 y ++ pad 2 m ++ pad 2 d ++ §"T" ++ pad 2 (s / 3600) ++ pad 2 (s / 60 mod 60) ++ pad 2 (s mod 60) ++ §"." ++
  pad 9 (t mod 1000000000) ++ §"Z".

Definition result_dir (options : Options) (m : Metadata) : gostring :=
  Path.Join [ResultsRoot options; stamp (StartTime m) ++ §"-" ++ shortSHA (GitCommit m)].

Example stamp_test : stamp 1753800000123000000 = §"20250729T144000.123000000Z".
Proof. vm_compute. done. Qed.
