(* ===== verification/Compare.v ===== *)
(** * Comparing two benchmark runs (benchmarks/harness/compare.go)

    [Compare] loads two result bundles, warns about every condition under which
    their numbers do not describe the same experiment, and lists the change of
    each metric that both have.  The lemma [comparison_sound] says when the
    verdict is "comparable" and what the list of changes contains; [loadResult_written]
    says that what a run wrote is what is loaded. *)

From S2P Require Import Prelude GoLib Utf8 Json Config Float64 FloatText JsonCodec Rfc3339 Workload Harness Measure Results.
From Stdlib Require Import SpecFloat.

(** ** Strings *)

(** The byte order of [sort.Strings]. *)
Definition string_le (a b : gostring) : Prop := bytes_leb a b = true.
#[export] Instance string_le_dec : RelDecision string_le.
Proof. intros a b. unfold string_le. apply _. Defined.

#[export] Instance string_le_trans : Transitive string_le.
Proof.
  unfold string_le. intros a. induction a as [|x a IH]; intros [|y b] [|z c]; try done. simpl.
  destruct (N.ltb_spec (byte x) (byte y)), (N.ltb_spec (byte y) (byte z)), (N.ltb_spec (byte x) (byte z)),
    (N.ltb_spec (byte y) (byte x)), (N.ltb_spec (byte z) (byte y)), (N.ltb_spec (byte z) (byte x));
    try done; try lia; eauto.
Qed.

#[export] Instance string_le_total : Total string_le.
Proof.
  unfold string_le. intros a. induction a as [|x a IH]; intros [|y b]; simpl; try (by auto).
  destruct (N.ltb_spec (byte x) (byte y)), (N.ltb_spec (byte y) (byte x)); by auto.
Qed.

#[export] Instance string_le_antisymm : AntiSymm (=) string_le.
Proof.
  unfold string_le. intros a. induction a as [|x a IH]; intros [|y b]; simpl; try done.
  destruct (N.ltb_spec (byte x) (byte y)), (N.ltb_spec (byte y) (byte x)); try done; try lia.
  intros H1 H2. f_equal; [|by apply IH].
  rewrite <- (ascii_N_embedding x), <- (ascii_N_embedding y). f_equal. lia.
Qed.

Definition Strings (keys : list gostring) : list gostring := merge_sort string_le keys.

(** ** Bundles *)

(** A map that the file does not have is nil, which differs from an empty map. *)
Definition params_equal (a b : option (gmap gostring any)) : bool :=
  match a, b with
  | None, None => true
  | Some a, Some b =>
      bool_decide (dom a = dom b) &&
      forallb (λ '(k, v), match b !! k with Some v' => any_equal v v' | None => false end) (map_to_list a)
  | _, _ => false
  end.

(** ** Metrics by name *)
Record comparableValue := mkValue { cv_value : float64; cv_unit : gostring }.
Abbreviation Values := (gmap gostring comparableValue).

Definition value_prefix (result : WorkloadResult) : gostring :=
  wr_Deployment result ++ §"/" ++ wl_Name (wr_Workload result) ++ §"/" ++ Itoa (ValueSize (wr_Workload result)) ++ §"B".

(** [result.Operations[op].P99US], the zero value if there is no such key. *)
Definition op_p99 (result : WorkloadResult) (o : gostring) : float64 :=
  from_option P99US fzero (default ∅ (wr_Operations result) !! o).

Definition add_workload (values : Values) (result : WorkloadResult) : Values :=
  <[value_prefix result ++ §"/SET-p99" := mkValue (op_p99 result §"SET") §"us"]>
  (<[value_prefix result ++ §"/GET-p99" := mkValue (op_p99 result §"GET") §"us"]>
  (<[value_prefix result ++ §"/throughput" := mkValue (wr_Throughput result) §"ops/s"]> values)).

Definition add_snapshot (s : option SnapshotResult) (values : Values) : Values :=
  match s with
  | None => values
  | Some v =>
      <[§"scenario/snapshot/max-p99" := mkValue (MaximumP99US v) §"us"]>
      (<[§"scenario/snapshot/throughput-impact" := mkValue (ForegroundThroughputChange v) §"percent"]>
      (<[§"scenario/snapshot/duration" := mkValue (sr_DurationMS v) §"ms"]> values))
  end.

Definition add_recovery (values : Values) (item : gostring * option RecoveryResult) : Values :=
  match snd item with
  | None => values
  | Some v => <[§"scenario/" ++ fst item := mkValue (rr_DurationMS v) §"ms"]> values
  end.

Definition comparisonValues (metrics : Metrics) : Values :=
  let values := foldl add_workload ∅ (m_Workloads metrics) in
  let s := m_Scenarios metrics in
  foldl add_recovery (add_snapshot (SnapshotUnderLoad s) values)
    [(§"follower-catchup", FollowerCatchup s); (§"leader-failover", LeaderFailover s);
     (§"snapshot-log-replay", SnapshotLogReplay s); (§"full-cluster-restart", FullClusterRestart s)].

Definition sameMetricKeys (left right : Values) : bool :=
  if negb (bool_decide (size left = size right)) then false
  else forallb (λ key, bool_decide (is_Some (right !! key))) (map_to_list left).*1.

Definition filesystemIdentity (value : gostring) : gostring :=
  let lines := split_lines (TrimSpace value) in
  if bool_decide (length lines < 2) then TrimSpace value
  else
    let fields := Fields (default [] (last lines)) in
    if bool_decide (length fields < 2) then TrimSpace value
    else default [] (head fields) ++ §" " ++ default [] (last fields).

(** ** The comparison *)
(** A warning, which makes the runs incomparable unless [benign]. *)
Definition warn (bad benign : bool) (text : gostring) (c : Comparison) : Comparison :=
  if bad then mkComparison (c_SchemaVersion c) (Baseline c) (Candidate c) (Comparable c && benign) (Warnings c ++ [text]) (Changes c) else c.

Definition change (key : gostring) (base candidate : comparableValue) : MetricComparison :=
  let absolute := fsub (cv_value candidate) (cv_value base) in
  mkChange key (cv_value base) (cv_value candidate) absolute
    (if SFeqb (cv_value base) fzero then None
     else Some (fmul (fdiv absolute (cv_value base)) (of_int 100))) (cv_unit base).

(** [for _, key := range keys], over keys of both maps. *)
Definition changes_of (baselineValues candidateValues : Values) : list MetricComparison :=
  let keys := Strings (filter (λ key, is_Some (candidateValues !! key)) (map_to_list baselineValues).*1) in
  omap (λ key, base ← baselineValues !! key; candidate ← candidateValues !! key; Some (change key base candidate)) keys.

Definition host_differs (b c : Metadata) : bool :=
  bool_decide (OS b ≠ OS c) || bool_decide (Architecture b ≠ Architecture c) || bool_decide (CPUCount b ≠ CPUCount c).

Definition comparison (baselineDir candidateDir : gostring) (bm : Metadata) (bx : Metrics) (cm : Metadata) (cx : Metrics)
    : Comparison :=
  let c := mkComparison SchemaVersion baselineDir candidateDir true [] [] in
  let c := warn (host_differs bm cm) false §"host OS, architecture, or CPU count differs" c in
  let c := warn (bool_decide (GoVersion bm ≠ GoVersion cm)) false §"Go versions differ" c in
  let c := warn (bool_decide (RandomSeed bm ≠ RandomSeed cm)) false §"random seeds differ" c in
  let c := warn (bool_decide (HotRequestLogging bm ≠ HotRequestLogging cm)) false
             §"hot-path request logging settings differ" c in
  let c := warn (bool_decide (filesystemIdentity (Filesystem bm) ≠ filesystemIdentity (Filesystem cm))) false
             §"storage devices or mount points differ" c in
  let c := warn (negb (params_equal (Parameters bm) (Parameters cm))) false
             §"benchmark duration, warm-up, concurrency, or pipeline parameters differ" c in
  let c := warn (bool_decide (md_Profile bm ≠ md_Profile cm)) false §"benchmark profiles differ" c in
  let c := warn (GitDirty bm || GitDirty cm) true §"at least one run used a dirty worktree" c in
  let c := warn (negb (Completed bx) || negb (Completed cx)) false §"at least one run is incomplete" c in
  let baselineValues := comparisonValues bx in
  let candidateValues := comparisonValues cx in
  let c := warn (negb (sameMetricKeys baselineValues candidateValues)) false §"result metric sets differ" c in
  mkComparison (c_SchemaVersion c) (Baseline c) (Candidate c) (Comparable c) (Warnings c) (Changes c ++ changes_of baselineValues candidateValues).

(** ** The text of comparison.md *)
Definition format_bool (b : bool) : gostring := if b then §"true" else §"false".

Definition render_change (ch : MetricComparison) : gostring :=
  let percent := match PercentChange ch with Some p => format_fixed true 2 p ++ §"%" | None => §"n/a" end in
  §"| " ++ mc_Name ch ++ §" | " ++ format_fixed false 3 (BaselineValue ch) ++ §" " ++ mc_Unit ch ++ §" | " ++
  format_fixed false 3 (CandidateValue ch) ++ §" " ++ mc_Unit ch ++ §" | " ++
  format_fixed true 3 (AbsoluteChange ch) ++ §" " ++ mc_Unit ch ++ §" | " ++ percent ++ §" |" ++ ["010"%char].

Definition renderComparison (c : Comparison) : gostring :=
  let nl := ["010"%char] in
  §"# SkiffDB benchmark comparison" ++ nl ++ nl ++ §"Baseline: `" ++ Baseline c ++ §"`  " ++ nl ++
  §"Candidate: `" ++ Candidate c ++ §"`  " ++ nl ++ §"Comparable: `" ++ format_bool (Comparable c) ++ §"`" ++ nl ++ nl ++
  concat (map (λ w, §"> Warning: " ++ w ++ nl ++ nl) (Warnings c)) ++
  §"| Metric | Baseline | Candidate | Absolute change | Change |" ++ nl ++ §"|---|---:|---:|---:|---:|" ++ nl ++
  concat (map render_change (Changes c)).

(** ** Files *)
Section files.
(** The contents of files, and which of the calls that change the file system
    succeed. *)
Context `{TimeParse} (read : gostring → option gostring) (system_ok : nat → bool).

Inductive LoadError := LRead | LDecode | LSchema (metadata metrics : Z).
Inductive CompareError := CEBaseline (e : LoadError) | CECandidate (e : LoadError) | CEEncode | CEFile.

(** [os.ReadFile] and [json.Unmarshal] *)
Definition load_file {A} (c : Codec A) (path : gostring) : LoadError + A :=
  match read path with
  | None => inl LRead
  | Some data => match Unmarshal c data with Some x => inr x | None => inl LDecode end
  end.

Definition loadResult (dir : gostring) : LoadError + Metadata * Metrics :=
  match load_file metadata_codec (Path.Join [dir; §"metadata.json"]) with
  | inl e => inl e
  | inr metadata =>
      match load_file metrics_codec (Path.Join [dir; §"metrics.json"]) with
      | inl e => inl e
      | inr metrics =>
          if bool_decide (md_SchemaVersion metadata ≠ SchemaVersion) || bool_decide (m_SchemaVersion metrics ≠ SchemaVersion)
          then inl (LSchema (md_SchemaVersion metadata) (m_SchemaVersion metrics))
          else inr (metadata, metrics)
      end
  end.

(** What has been done to the file system, in order. *)
Inductive FileAction :=
| AMkdirAll (dir : gostring)
| AWriteFile (path text : gostring)
| ARename (from to : gostring).

Record Files := mkFiles { f_calls : nat; f_done : list FileAction }.
Abbreviation CM := (GM Files CompareError).

Definition file_call (a : FileAction) : CM unit := λ s,
  if system_ok (f_calls s) then (Ok tt, mkFiles (S (f_calls s)) (f_done s ++ [a]))
  else (Err CEFile, mkFiles (S (f_calls s)) (f_done s)).

Definition writeJSON {A} (c : Codec A) (path : gostring) (value : A) : CM unit :=
  match MarshalIndent c value with
  | Some data =>
      file_call (AWriteFile (path ++ §".tmp") (data ++ ["010"%char]));;
      file_call (ARename (path ++ §".tmp") path)
  | None => throw CEEncode
  end.

Definition output_dir (candidateDir outputDir : gostring) : gostring :=
  if bool_decide (outputDir = []) then Path.Join [candidateDir; §"comparison"] else outputDir.

Definition write_comparison (candidateDir outputDir : gostring) (c : Comparison) : CM unit :=
  let outputDir := output_dir candidateDir outputDir in
  file_call (AMkdirAll outputDir);;
  writeJSON comparison_codec (Path.Join [outputDir; §"comparison.json"]) c;;
  file_call (AWriteFile (Path.Join [outputDir; §"comparison.md"]) (renderComparison c)).

Definition no_comparison : Comparison := mkComparison 0 [] [] false [] [].

(** The comparison and the error are returned together. *)
Definition Compare (baselineDir candidateDir outputDir : gostring) : CM (Comparison * option CompareError) :=
  match loadResult baselineDir with
  | inl e => mret (no_comparison, Some (CEBaseline e))
  | inr (bm, bx) =>
      match loadResult candidateDir with
      | inl e => mret (no_comparison, Some (CECandidate e))
      | inr (cm, cx) =>
          let c := comparison baselineDir candidateDir bm bx cm cx in
          written ← catch (write_comparison candidateDir outputDir c);
          mret (c, match written with inl e => Some e | inr _ => None end)
      end
  end.
End files.

(** ** What a comparison says *)
Lemma sameMetricKeys_spec left right : sameMetricKeys left right = true ↔ dom left = dom right.
Proof.
  unfold sameMetricKeys. split.
  - case_bool_decide as Hs; [|done]. simpl. rewrite <- Is_true_true, forallb_True. intros Hall.
    apply set_subseteq_size_eq; [|rewrite !size_dom; lia].
    intros key [v Hk]%elem_of_dom. apply elem_of_dom. rewrite Forall_forall in Hall.
    apply (bool_decide_unpack _), Hall, list_elem_of_fmap. exists (key, v).
    split; [done|]. by apply elem_of_map_to_list.
  - intros Hd. rewrite bool_decide_true by (by rewrite <- !size_dom, Hd). simpl. apply Is_true_true, forallb_True, Forall_forall.
    intros key ([k v] & -> & Hk)%list_elem_of_fmap. apply (bool_decide_pack _). simpl. apply elem_of_dom. rewrite <- Hd.
    apply elem_of_dom. exists v. by apply elem_of_map_to_list.
Qed.

Lemma sorted_strict (R : relation gostring) l : StronglySorted R l → NoDup l → StronglySorted (λ a b, R a b ∧ a ≠ b) l.
Proof.
  induction 1 as [|x l Hs IH Hx]; intros Hn; [constructor|]. apply NoDup_cons in Hn as [Hn Hnd].
  constructor; [by apply IH|]. rewrite Forall_forall in *. intros y Hy. split; [by apply Hx|]. by intros ->.
Qed.

Section changes.
Context (left right : Values).

(** The metrics of both runs, sorted. *)
Definition common_keys : list gostring :=
  Strings (filter (λ key, is_Some (right !! key)) (map_to_list left).*1).

Lemma common_keys_sorted : StronglySorted (λ a b, string_le a b ∧ a ≠ b) common_keys.
Proof.
  apply sorted_strict; [apply (StronglySorted_merge_sort _)|]. unfold common_keys, Strings.
  rewrite merge_sort_Permutation. apply NoDup_filter, NoDup_fst_map_to_list.
Qed.

Lemma common_keys_elem key : key ∈ common_keys ↔ is_Some (left !! key) ∧ is_Some (right !! key).
Proof.
  unfold common_keys, Strings. rewrite merge_sort_Permutation, list_elem_of_filter, list_elem_of_fmap. split.
  - intros (Hr & [k v] & -> & Hk%elem_of_map_to_list). by split; [exists v|].
  - intros [[v Hl] Hr]. split; [done|]. exists (key, v). split; [done|]. by apply elem_of_map_to_list.
Qed.

Lemma changes_of_names : mc_Name <$> changes_of left right = common_keys.
Proof.
  unfold changes_of. fold common_keys.
  assert (Hall : ∀ key, key ∈ common_keys → is_Some (left !! key) ∧ is_Some (right !! key)) by (intros; by apply common_keys_elem).
  induction common_keys as [|key keys IH]; [done|]. simpl.
  destruct (Hall key) as [[base ->] [candidate ->]]; [set_solver|]. simpl. f_equal. apply IH. set_solver.
Qed.

Lemma changes_of_elem ch : ch ∈ changes_of left right ↔
  ∃ key base candidate, left !! key = Some base ∧ right !! key = Some candidate ∧ ch = change key base candidate.
Proof.
  unfold changes_of. fold common_keys. rewrite list_elem_of_omap. split.
  - intros (key & _ & Hch). destruct (left !! key) as [base|] eqn:El; [|done].
    destruct (right !! key) as [candidate|] eqn:Er; [|done]. injection Hch as <-. by exists key, base, candidate.
  - intros (key & base & candidate & El & Er & ->). exists key. rewrite common_keys_elem, El, Er. eauto.
Qed.
End changes.

Lemma warn_comparable bad benign text c : Comparable (warn bad benign text c) = Comparable c && (negb bad || benign).
Proof. unfold warn. destruct bad, (Comparable c), benign; done. Qed.

Lemma warn_changes bad benign text c : Changes (warn bad benign text c) = Changes c.
Proof. by destruct bad. Qed.

(** A verdict of "not comparable" has a reason. *)
Definition reasoned (c : Comparison) : Prop := Comparable c = false → Warnings c ≠ [].
Lemma warn_reasoned bad benign text c : reasoned c → reasoned (warn bad benign text c).
Proof. unfold reasoned, warn. intros Hc. destruct bad; [|done]. simpl. intros _. by destruct (Warnings c). Qed.

Lemma equal_check {A} `{EqDecision A} (x y : A) : negb (bool_decide (x ≠ y)) = true ↔ x = y.
Proof. rewrite negb_true_iff, bool_decide_eq_false. destruct (decide (x = y)); naive_solver. Qed.

(** The verdict of [Compare].  Two runs are comparable exactly if they ran
    on the same kind of host, with the same Go version, seed, logging, storage,
    parameters and profile, both are complete and have the same metrics; a
    negative verdict comes with a warning.  Whatever the verdict, the changes
    are, in strictly increasing order of their names, those of all metrics that
    both runs have, each from the two runs' values of that metric. *)
Lemma comparison_sound baselineDir candidateDir bm bx cm cx :
  let c := comparison baselineDir candidateDir bm bx cm cx in
  let left := comparisonValues bx in
  let right := comparisonValues cx in
  (Comparable c = true ↔
     (OS bm = OS cm ∧ Architecture bm = Architecture cm ∧ CPUCount bm = CPUCount cm) ∧
     GoVersion bm = GoVersion cm ∧ RandomSeed bm = RandomSeed cm ∧ HotRequestLogging bm = HotRequestLogging cm ∧
     filesystemIdentity (Filesystem bm) = filesystemIdentity (Filesystem cm) ∧
     params_equal (Parameters bm) (Parameters cm) = true ∧ md_Profile bm = md_Profile cm ∧
     (Completed bx = true ∧ Completed cx = true) ∧ dom left = dom right) ∧
  (Comparable c = false → Warnings c ≠ []) ∧
  StronglySorted (λ a b, string_le a b ∧ a ≠ b) (mc_Name <$> Changes c) ∧
  ∀ ch, ch ∈ Changes c ↔
    ∃ key base candidate, left !! key = Some base ∧ right !! key = Some candidate ∧ ch = change key base candidate.
Proof.
  intros c left right.
  assert (Hch : Changes c = changes_of left right) by (unfold c, comparison; simpl; by rewrite !warn_changes).
  split_and!; [| |by rewrite Hch, changes_of_names; apply common_keys_sorted|by intros ch; rewrite Hch; apply changes_of_elem].
  - unfold c, comparison. cbn [Comparable]. rewrite !warn_comparable. cbn [Comparable andb].
    rewrite !orb_false_r, orb_true_r, andb_true_r, !andb_true_iff. unfold host_differs.
    rewrite !negb_orb, !andb_true_iff, !equal_check, !negb_involutive, sameMetricKeys_spec. fold left right. tauto.
  - assert (Hr : reasoned (mkComparison SchemaVersion baselineDir candidateDir true [] [])) by done.
    unfold c, comparison. simpl. by repeat apply warn_reasoned.
Qed.

(** A bundle that was written to its two files is loaded as it is reread. *)
Lemma loadResult_written `{TimeParse} read dir metadata metrics tm tx :
  c_ok metadata_codec metadata = true → c_ok metrics_codec metrics = true →
  md_SchemaVersion metadata = SchemaVersion → m_SchemaVersion metrics = SchemaVersion →
  MarshalIndent metadata_codec metadata = Some tm → MarshalIndent metrics_codec metrics = Some tx →
  read (Path.Join [dir; §"metadata.json"]) = Some (tm ++ ["010"%char]) →
  read (Path.Join [dir; §"metrics.json"]) = Some (tx ++ ["010"%char]) →
  loadResult read dir = inr (c_reread metadata_codec metadata, c_reread metrics_codec metrics).
Proof.
  intros Hm Hx Vm Vx Em Ex Rm Rx.
  destruct (document_roundtrip metadata_codec metadata Hm) as (tm' & Em' & Um); [by vm_compute|].
  destruct (document_roundtrip metrics_codec metrics Hx) as (tx' & Ex' & Ux); [by vm_compute|].
  assert (tm' = tm) as -> by congruence. assert (tx' = tx) as -> by congruence.
  unfold loadResult, load_file. rewrite Rm, Um, Rx, Ux.
  change (md_SchemaVersion (c_reread metadata_codec metadata)) with (md_SchemaVersion metadata).
  change (m_SchemaVersion (c_reread metrics_codec metrics)) with (m_SchemaVersion metrics).
  by rewrite Vm, Vx.
Qed.

(** Writing ends with or without an error. *)
Definition returns {A} (m : GM Files CompareError A) : Prop := ∀ s, match m s with (Ok _, _) | (Err _, _) => True | _ => False end.

Lemma returns_bind {A B} (m : GM Files CompareError A) (f : A → GM Files CompareError B) : returns m → (∀ a, returns (f a)) → returns (m ≫= f).
Proof. intros Hm Hf s. specialize (Hm s). unfold mbind, GM_bind. destruct (m s) as [[a|e| |] s']; [apply Hf|done..]. Qed.

Lemma write_comparison_returns system_ok candidateDir outputDir c : returns (write_comparison system_ok candidateDir outputDir c).
Proof.
  assert (Hf : ∀ a, returns (file_call system_ok a)) by (intros a s; unfold file_call; by destruct (system_ok _)).
  unfold write_comparison, writeJSON. apply returns_bind; [apply Hf|]. intros _. apply returns_bind; [|intros _; apply Hf].
  destruct (MarshalIndent comparison_codec c); [|by intros s]. apply returns_bind; [apply Hf|]. intros _. apply Hf.
Qed.

(** Nothing is written unless both results were read, and a comparison returned
    without an error is in its two files. *)
Lemma compare_files `{TimeParse} read system_ok baselineDir candidateDir outputDir :
  let out := output_dir candidateDir outputDir in
  let '(o, s) := Compare read system_ok baselineDir candidateDir outputDir (mkFiles 0 []) in
  ∃ c e, o = Ok (c, e) ∧
    match e with
    | Some (CEBaseline _ | CECandidate _) => f_done s = []
    | Some _ => True
    | None => ∃ text, MarshalIndent comparison_codec c = Some text ∧
        f_done s = [AMkdirAll out; AWriteFile (Path.Join [out; §"comparison.json"] ++ §".tmp") (text ++ ["010"%char]);
                    ARename (Path.Join [out; §"comparison.json"] ++ §".tmp") (Path.Join [out; §"comparison.json"]);
                    AWriteFile (Path.Join [out; §"comparison.md"]) (renderComparison c)]
    end.
Proof.
  intros out. unfold Compare. destruct (loadResult read baselineDir) as [e|[bm bx]]; [by eexists _, _|].
  destruct (loadResult read candidateDir) as [e|[cm cx]]; [by eexists _, _|].
  set (c := comparison baselineDir candidateDir bm bx cm cx).
  unfold write_comparison. fold out. unfold writeJSON, file_call, throw, mbind, GM_bind, catch, mret, GM_ret.
  destruct (MarshalIndent comparison_codec c) as [text|] eqn:Et; cbn [f_calls f_done].
  2:{ destruct (system_ok 0); by eexists _, _. }
  destruct (system_ok 0); cbn [f_calls f_done app]; [|by eexists _, _].
  destruct (system_ok 1); cbn [f_calls f_done app]; [|by eexists _, _].
  destruct (system_ok 2); cbn [f_calls f_done app]; [|by eexists _, _].
  destruct (system_ok 3); cbn [f_calls f_done app]; [|by eexists _, _]. eexists _, None. split; [done|]. by exists text.
Qed.

(** ** The source's own tests *)
Definition test_metadata (seed : Z) : Metadata :=
  mkMetadata 1 [] 0 [] false [] [] §"linux" §"amd64" 4 0 [] [] seed §"smoke" false
    (Some {[ §"concurrency" := ANumber (of_int 1) ]}) [] [].
Definition test_metrics (throughput p99 : Z) : Metrics :=
  mkRunMetrics 1 [] true []
    [mkResult InMemorySingle (mkWorkload §"get100" 0 0 64) fzero fzero 0 0 0 (of_int throughput) 0 0
       (Some {[ §"GET" := mkOpMetrics 0 fzero fzero (of_int p99) fzero ]}) []]
    (mkScenarios None None None None None) [] [].

Example compare_test :
  let c := comparison §"baseline" §"candidate" (test_metadata 1) (test_metrics 100 10) (test_metadata 1) (test_metrics 110 9) in
  Comparable c = true ∧
  mc_Name <$> Changes c = [§"in-memory-single/get100/64B/GET-p99"; §"in-memory-single/get100/64B/SET-p99";
                           §"in-memory-single/get100/64B/throughput"] ∧
  PercentChange <$> Changes c = [Some (of_int (-10)); None; Some (of_int 10)].
Proof. vm_compute. done. Qed.

Example compare_seeds_test :
  let c := comparison §"baseline" §"candidate" (test_metadata 1) (test_metrics 100 10) (test_metadata 2) (test_metrics 110 9) in
  Comparable c = false ∧ Warnings c = [§"random seeds differ"].
Proof. vm_compute. done. Qed.

Example filesystem_test :
  filesystemIdentity (§"Filesystem Blocks Used" ++ ["010"%char] ++ §"/dev/sda1  1000 5 99% /data" ++ ["010"%char]) = §"/dev/sda1 /data".
Proof. vm_compute. done. Qed.
