(* ===== verification/Run.v ===== *)
(** * A benchmark run (benchmarks/harness/run.go)

    [Run] starts a cluster per deployment, runs the workloads of the profile on
    it, stops it, and at last takes a cluster through the snapshot and recovery
    scenarios; after each step it writes the bundle.  The theorems say that a
    run leaves no process and no data behind whatever fails
    ([run_cleans_up]), and that a bundle is marked as completed
    only when every workload of the profile has been measured on every
    deployment ([run_completed]). *)

From S2P Require Import Prelude GoLib Resp MemDB CmdExecutor Utf8 Json Fsm RespServer Client Config CommandLine Identity Startup Float64 FloatText JsonCodec Rfc3339 Workload Harness Measure Results Host Compare.
From Stdlib Require Import SpecFloat.

(** ** Bundles *)
Definition describe_node (deployment : Deployment) (n : bench_node) : NodeConfiguration :=
  let raft := raft_deployment deployment in
  mkNodeConfiguration (node_id n) (respAddr n) (adminAddr n) raft
    (if raft then raftAddr n else []) (if raft then raftAddr n else []) (node_dir n) (bootstrap n) (joinAddr n) false.

Definition describeCluster (deployment : Deployment) (c : cluster) (purpose : gostring) : DeploymentConfig :=
  mkDeploymentConfig deployment purpose (describe_node deployment <$> nodes c).

(** The errors, one constructor per place. *)
Inductive RunError :=
| RProfile (name : gostring) | RMetadata | RMkdir | RPersist | RBuild | RBinary
| RCluster (e : HarnessError)
| RWorkload (deployment : Deployment) (name : gostring) (e : PhaseError)
| RSnapshotWorkload (e : PhaseError) | RSnapshot (text : gostring)
| RMarker | RCatchup (e : HarnessError) | RFailover (e : HarnessError) | RFormerLeader (e : HarnessError)
| RSnapshotState | RRecoverySnapshot | RLogTail | RRestart (index : nat) (e : HarnessError) | RRecovery (e : HarnessError).

Definition no_scenarios : ScenarioResults := mkScenarios None None None None None.
Definition new_metrics : Metrics :=
  mkRunMetrics SchemaVersion HarnessVersion false [] [] no_scenarios []
    [§"Raft commit/apply latency: server instrumentation is not available";
     §"Raft follower lag: server instrumentation is not available"].

(** Assignments to fields of the bundle. *)
Definition add_configuration (d : DeploymentConfig) (b : Bundle) : Bundle :=
  let m := b_Metadata b in
  mkBundle (b_Dir b)
    (mkMetadata (md_SchemaVersion m) (md_HarnessVersion m) (StartTime m) (GitCommit m) (GitDirty m) (md_BuildCommand m)
       (GoVersion m) (OS m) (Architecture m) (CPUCount m) (AvailableMemory m) (StoragePath m) (Filesystem m) (RandomSeed m)
       (md_Profile m) (HotRequestLogging m) (Parameters m) (Configurations m ++ [d]) (md_Missing m))
    (b_Metrics b).
Definition on_metrics (f : Metrics → Metrics) (b : Bundle) : Bundle := mkBundle (b_Dir b) (b_Metadata b) (f (b_Metrics b)).
Definition set_outcome (completed : bool) (e : gostring) : Bundle → Bundle := on_metrics (λ m,
  mkRunMetrics (m_SchemaVersion m) (m_HarnessVersion m) completed e (m_Workloads m) (m_Scenarios m) (Processes m) (MissingMetrics m)).
Definition add_result (w : WorkloadResult) : Bundle → Bundle := on_metrics (λ m,
  mkRunMetrics (m_SchemaVersion m) (m_HarnessVersion m) (Completed m) (m_Error m) (m_Workloads m ++ [w]) (m_Scenarios m)
    (Processes m) (MissingMetrics m)).
Definition set_scenarios (f : ScenarioResults → ScenarioResults) : Bundle → Bundle := on_metrics (λ m,
  mkRunMetrics (m_SchemaVersion m) (m_HarnessVersion m) (Completed m) (m_Error m) (m_Workloads m) (f (m_Scenarios m))
    (Processes m) (MissingMetrics m)).
Definition add_processes (ms : list ProcessMetrics) : Bundle → Bundle := on_metrics (λ m,
  mkRunMetrics (m_SchemaVersion m) (m_HarnessVersion m) (Completed m) (m_Error m) (m_Workloads m) (m_Scenarios m)
    (Processes m ++ ms) (MissingMetrics m)).

Abbreviation b_Completed b := (Completed (b_Metrics b)).
Abbreviation b_Error b := (m_Error (b_Metrics b)).
Abbreviation b_Workloads b := (m_Workloads (b_Metrics b)).
Abbreviation b_Scenarios b := (m_Scenarios (b_Metrics b)).

(** ** The text of summary.md *)
Definition render_result (r : WorkloadResult) : gostring :=
  §"| " ++ wr_Deployment r ++ §" | " ++ wl_Name (wr_Workload r) ++ §" | " ++ Itoa (ValueSize (wr_Workload r)) ++ §" B | " ++
  format_fixed false 2 (wr_Throughput r) ++ §" | " ++ format_fixed false 2 (op_p99 r §"GET") ++ §" | " ++
  format_fixed false 2 (op_p99 r §"SET") ++ §" | " ++ Itoa (Z.of_N (ErrorCount r)) ++ §" |" ++ lf.

Definition render_recovery (item : gostring * option RecoveryResult) : gostring :=
  match snd item with
  | Some value => §"- " ++ fst item ++ §": " ++ format_fixed false 2 (rr_DurationMS value) ++ §" ms (success: " ++
                  format_bool (rr_Success value) ++ §")" ++ lf
  | None => []
  end.

Definition renderSummary (b : Bundle) : gostring :=
  let m := b_Metadata b in
  let x := b_Metrics b in
  let sc := m_Scenarios x in
  §"# SkiffDB benchmark summary" ++ lf ++ lf ++ §"Commit: `" ++ GitCommit m ++ §"` (dirty: `" ++ format_bool (GitDirty m) ++ §"`)  " ++ lf ++
  §"Profile: `" ++ md_Profile m ++ §"`  " ++ lf ++ §"Completed: `" ++ format_bool (Completed x) ++ §"`" ++ lf ++ lf ++
  (if bool_decide (m_Error x ≠ []) then §"> Run error: " ++ m_Error x ++ lf ++ lf else []) ++
  §"| Deployment | Workload | Value | Throughput ops/s | GET p99 µs | SET p99 µs | Errors |" ++ lf ++
  §"|---|---|---:|---:|---:|---:|---:|" ++ lf ++
  concat (map render_result (m_Workloads x)) ++
  lf ++ §"## Recovery and snapshot scenarios" ++ lf ++ lf ++
  (match SnapshotUnderLoad sc with
   | Some value => §"- Snapshot under load: " ++ format_fixed false 2 (sr_DurationMS value) ++ §" ms, " ++
       Itoa (Z.of_N (SizeBytes value)) ++ §" bytes, throughput change " ++ format_fixed false 2 (ForegroundThroughputChange value) ++
       §"%, max p99 " ++ format_fixed false 2 (MaximumP99US value) ++ §" µs (success: " ++ format_bool (sr_Success value) ++ §")" ++ lf
   | None => []
   end) ++
  concat (map render_recovery [(§"Follower catch-up", FollowerCatchup sc); (§"Leader failover", LeaderFailover sc);
    (§"Snapshot + log replay", SnapshotLogReplay sc); (§"Full-cluster restart", FullClusterRestart sc)]) ++
  lf ++ §"## Missing internal metrics" ++ lf ++ lf ++
  concat (map (λ missing, §"- " ++ missing ++ lf) (MissingMetrics x)) ++
  lf ++ §"Do not compare deployment modes as equivalent: in-memory acknowledgements and durable Raft acknowledgements provide different durability guarantees. Compare historical runs only when workload parameters and host metadata match." ++ lf.

(** ** The snapshot under load *)
Section snapshot.
Context `{FloatToInt}.

Record SnapshotTally := mkTally {
  baselineOps : N;
  snapshotOps : N;
  baselineSeconds : float64;
  snapshotSeconds : float64;
  maximumP99 : float64;
}.

(** One round of the loop of [analyzeSnapshot]. *)
Definition tally_bucket (timing : hookTiming) (t : SnapshotTally) (bucket : IntervalMetrics) : SnapshotTally :=
  let bucketStart := to_int (fmul (StartMS bucket) (of_int Millisecond)) in
  let bucketEnd := to_int (fmul (EndMS bucket) (of_int Millisecond)) in
  let seconds := fdiv (fsub (EndMS bucket) (StartMS bucket)) (of_int 1000) in
  let t :=
    if (bucketEnd <=? ht_start timing)%Z then
      mkTally (wrap_u64 (baselineOps t + Operations bucket)) (snapshotOps t) (fadd (baselineSeconds t) seconds)
        (snapshotSeconds t) (maximumP99 t)
    else t in
  if (ht_start timing <? bucketEnd)%Z && (bucketStart <? ht_end timing)%Z then
    mkTally (baselineOps t) (wrap_u64 (snapshotOps t + Operations bucket)) (baselineSeconds t)
      (fadd (snapshotSeconds t) seconds) (if flt (maximumP99 t) (im_P99US bucket) then im_P99US bucket else maximumP99 t)
  else t.

Definition analyzeSnapshot (buckets : list IntervalMetrics) (timing : hookTiming) (sizeBefore sizeAfter : N) : SnapshotResult :=
  let t := foldl (tally_bucket timing) (mkTally 0 0 fzero fzero fzero) buckets in
  let throughput ops seconds := if flt fzero seconds then fdiv (of_int (Z.of_N ops)) seconds else fzero in
  let baseline := throughput (baselineOps t) (baselineSeconds t) in
  let snapshot := throughput (snapshotOps t) (snapshotSeconds t) in
  mkSnapshotResult (millis (wrap64 (ht_end timing - ht_start timing)))
    (if (sizeBefore <? sizeAfter)%N then (sizeAfter - sizeBefore)%N else 0%N) baseline snapshot
    (if flt fzero baseline then fmul (fsub (fdiv snapshot baseline) (of_int 1)) (of_int 100) else fzero)
    (maximumP99 t) (bool_decide (ht_err timing = None)) (default [] (ht_err timing)).
End snapshot.

(** ** The run *)

(** What a run meets: the outside of each cluster it starts; the host; whether
    the result directory could be made, the build and the binary; which calls that write a
    file fail, with what they leave in the file if they change it; what a workload
    meets; what the snapshot directories hold; measured times; texts of errors. *)
Record Measured := mkMeasured {
  me_preload : option PhaseError;
  me_workers : list WorkerResult;
  me_ended : bool;
  me_timing : hookTiming;
  me_elapsed : Z;
  me_ctx : option PhaseError;
}.

Record RunEnv := mkRunEnv {
  cluster_env : nat → HEnv;
  host : Host;
  mkdir_ok : bool;
  build_ok : bool;
  binary_ok : bool;
  file_fault : nat → option (option gostring);
  measured : nat → Measured;
  walk : gostring → nat → list WalkEntry;
  time_since : nat → Z;
  phase_text : PhaseError → gostring;
  harness_text : HarnessError → gostring;
  run_text : RunError → gostring;
}.

(** The clusters of the run, the newest first, and the files it has written. *)
Record RunState := mkRun {
  rs_bundle : option Bundle;
  rs_clusters : list (Deployment * cluster);
  rs_ext : nat;
  rs_files : gmap gostring gostring;
}.

Abbreviation XM := (GM RunState RunError).

Section run.
Context `{FloatToInt} `{TimeParse} (env : RunEnv) (options : Options) (logsDir : gostring).

Definition ext {A} (f : nat → A) : XM A := λ s, (Ok (f (rs_ext s)), mkRun (rs_bundle s) (rs_clusters s) (S (rs_ext s)) (rs_files s)).

Definition on_bundle (f : Bundle → Bundle) : XM unit :=
  modifyS (λ s, mkRun (f <$> rs_bundle s) (rs_clusters s) (rs_ext s) (rs_files s)).

Definition on_files (f : gmap gostring gostring → gmap gostring gostring) : XM unit :=
  modifyS (λ s, mkRun (rs_bundle s) (rs_clusters s) (rs_ext s) (f (rs_files s))).

(** [os.WriteFile] and [os.Rename] *)
Definition write_file (path data : gostring) : XM unit :=
  fault ← ext (file_fault env);
  match fault with
  | None => on_files (insert path data)
  | Some torn =>
      (match torn with Some partial => on_files (insert path partial) | None => mret tt end);; throw RPersist
  end.

Definition rename_file (from to : gostring) : XM unit :=
  fault ← ext (file_fault env);
  match fault with
  | None => on_files (λ files, match files !! from with Some data => <[to := data]> (delete from files) | None => files end)
  | Some _ => throw RPersist
  end.

Definition write_json {A} (c : Codec A) (path : gostring) (value : A) : XM unit :=
  match MarshalIndent c value with
  | None => throw RPersist
  | Some data => write_file (path ++ §".tmp") (data ++ lf);; rename_file (path ++ §".tmp") path
  end.

(** It is called after the bundle was made. *)
Definition persistBundle : XM unit :=
  s ← getS;
  match rs_bundle s with
  | None => mret tt
  | Some b =>
      write_json metadata_codec (Path.Join [b_Dir b; §"metadata.json"]) (b_Metadata b);;
      write_json metrics_codec (Path.Join [b_Dir b; §"metrics.json"]) (b_Metrics b);;
      write_file (Path.Join [b_Dir b; §"summary.md"]) (renderSummary b)
  end.

Definition failBundle {A} (e : RunError) : XM A :=
  on_bundle (λ b, set_outcome (b_Completed b) (run_text env e) b);;
  catch persistBundle;;
  throw e.

(** A call on the current cluster. *)
Definition on_cluster {A} (m : HEnv → Deployment → HM A) : XM A := λ s,
  match rs_clusters s with
  | [] => (Panic, s)
  | (d, c) :: rest =>
      let '(o, c') := m (cluster_env env (length rest)) d c in
      (match o with Ok a => Ok a | Err e => Err (RCluster e) | Panic => Panic | OutOfFuel => OutOfFuel end,
       mkRun (rs_bundle s) ((d, c') :: rest) (rs_ext s) (rs_files s))
  end.

(** The same with its own error. *)
Definition on_cluster_as {A} (wrap : HarnessError → RunError) (m : HEnv → Deployment → HM A) : XM A :=
  r ← catch (on_cluster m);
  match r with
  | inl (RCluster e) => throw (wrap e)
  | inl e => throw e
  | inr a => mret a
  end.

Definition start_cluster (deployment : Deployment) : XM unit := λ s,
  let '(o, c) := startCluster (cluster_env env (length (rs_clusters s))) deployment logsDir (KeepData options) no_cluster in
  (match o with Ok _ => Ok tt | Err e => Err (RCluster e) | Panic => Panic | OutOfFuel => OutOfFuel end,
   mkRun (rs_bundle s) ((deployment, c) :: rs_clusters s) (rs_ext s) (rs_files s)).

Definition stop_all : XM unit := on_cluster (λ e d, stopAll e d).
Definition cleanup_data : XM unit := on_cluster (λ e _, cleanupData e (KeepData options)).
Definition stop_and_clean : XM unit := stop_all;; cleanup_data.

(** [if err != nil { _ = c.stopAll(); c.cleanupData(); return ... }] *)
Definition or_stop {A} (m : XM A) (handler : RunError → XM A) : XM A :=
  r ← catch m;
  match r with inl e => stop_and_clean;; handler e | inr a => mret a end.

Definition find_leader : XM nat := on_cluster (λ e _, findLeader e).

Definition run_workload (deployment : Deployment) (workload : WorkloadSpec) (opts : Options) :
    XM (WorkloadResult * hookTiming * option PhaseError) :=
  m ← ext (measured env);
  mret (executeWorkload deployment workload opts (me_preload m) (me_workers m) (me_ended m) (me_timing m) (me_elapsed m) (me_ctx m)).

(** One workload on the cluster that runs. *)
Definition deployment_workload (deployment : Deployment) (leader : nat) (workload : WorkloadSpec) : XM unit :=
  on_cluster (λ _ _, node_at leader);;
  r ← run_workload deployment workload options;
  let '(result, _, runErr) := r in
  on_bundle (add_result result);;
  or_stop persistBundle throw;;
  match runErr with
  | Some e => stop_and_clean;; failBundle (RWorkload deployment (wl_Name workload) e)
  | None => mret tt
  end.

Fixpoint for_each {A} (f : A → XM unit) (l : list A) : XM unit :=
  match l with
  | [] => mret tt
  | x :: l => f x;; for_each f l
  end.

Definition add_configuration_of (purpose : gostring) : XM unit :=
  d ← on_cluster (λ _ d, c ← getS; mret (describeCluster d c purpose));
  on_bundle (add_configuration d).

Definition add_cluster_metrics : XM unit :=
  ms ← on_cluster (λ _ _, c ← getS; mret (metrics c));
  on_bundle (add_processes ms).

Definition run_deployment (workloads : list WorkloadSpec) (deployment : Deployment) : XM unit :=
  started ← catch (start_cluster deployment);
  match started with
  | inl e => failBundle e
  | inr _ =>
      add_configuration_of §"baseline-matrix";;
      or_stop persistBundle throw;;
      found ← catch find_leader;
      leader ← (if bool_decide (deployment = InMemorySingle) then mret 0
                else match found with inl e => stop_and_clean;; failBundle e | inr i => mret i end);
      for_each (deployment_workload deployment leader) workloads;;
      stop_all;;
      add_cluster_metrics;;
      cleanup_data;;
      persistBundle
  end.

(** *** The scenarios *)

(** [_, err := commandAt(...)] with the prefix +OK required. *)
Definition require_ok (leader : nat) (args : list gostring) (e : RunError) : XM unit :=
  on_cluster (λ _ _, node_at leader);;
  r ← on_cluster (λ e _, request e args);
  if answers_with §"+OK" r then mret tt else throw e.

Definition waitForValue (addr key want : gostring) (rounds : nat) (e : HEnv) : HM unit :=
  poll e rounds
    (r ← request e [§"GET"; key];
     mret (match r with Some response => Contains response (CRLF ++ want ++ CRLF) | None => false end))
    (HValue key addr).

Definition wait_value (i : nat) (key want : gostring) (rounds : nat) : XM unit :=
  on_cluster (λ e _, n ← node_at i; waitForValue (respAddr n) key want rounds e).

Definition wait_writable (rounds : nat) : XM unit :=
  on_cluster (λ e _, c ← getS; waitForWritable e (nodes c) rounds).

Definition stop_node (i : nat) : XM unit := on_cluster (λ e d, stopNode e d (Z.of_nat i)).
Definition restart_node (i : nat) : HEnv → Deployment → HM unit := λ e d, restartNode e d (Z.of_nat i).

(** The error of a wait, as a value. *)
Definition wait_error (m : XM unit) : XM (option HarnessError) :=
  r ← catch m;
  match r with
  | inl (RCluster e) => mret (Some e)
  | inl e => throw e
  | inr _ => mret None
  end.

Definition recovery_of (elapsed : Z) (err : option HarnessError) : RecoveryResult :=
  mkRecovery (millis elapsed) (bool_decide (err = None)) (from_option (harness_text env) [] err).

Definition recoveryResult (err : option HarnessError) : XM RecoveryResult :=
  elapsed ← ext (time_since env); mret (recovery_of elapsed err).

Definition or_throw (err : option HarnessError) (wrap : HarnessError → RunError) : XM unit :=
  match err with Some e => throw (wrap e) | None => mret tt end.

Definition scenario_options : Options :=
  if (Duration options <? 1200 * Millisecond)%Z then
    mkOptions (o_Profile options) (ResultsRoot options) (ServerBinary options) (BuildCommand options)
      (1200 * Millisecond) (Warmup options) (Concurrency options) (PipelineDepth options) (Seed options) (KeepData options)
  else options.

Definition scenario_workload : WorkloadSpec := mkWorkload §"snapshot-under-load-get95-set5" 95 5 1024.

Definition set_snapshot_error (runErr : option PhaseError) (r : SnapshotResult) : SnapshotResult :=
  match runErr with
  | Some e =>
      if bool_decide (sr_Error r = []) then
        mkSnapshotResult (sr_DurationMS r) (SizeBytes r) (BaselineThroughput r) (SnapshotThroughput r)
          (ForegroundThroughputChange r) (MaximumP99US r) false (phase_text env e)
      else r
  | None => r
  end.

Definition snapshot_scenario : XM unit :=
  leader ← find_leader;
  n ← on_cluster (λ _ _, node_at leader);
  sizeBefore ← ext (snapshotSize (walk env) n);
  r ← run_workload DurableThree scenario_workload scenario_options;
  let '(result, timing, runErr) := r in
  on_bundle (add_result result);;
  sizeAfter ← ext (snapshotSize (walk env) n);
  let snapshot := set_snapshot_error runErr (analyzeSnapshot (Buckets result) timing sizeBefore sizeAfter) in
  on_bundle (set_scenarios (λ r, mkScenarios (Some snapshot) (FollowerCatchup r) (LeaderFailover r) (SnapshotLogReplay r)
    (FullClusterRestart r)));;
  persistBundle;;
  match runErr, ht_err timing with
  | Some e, _ => throw (RSnapshotWorkload e)
  | None, Some text => throw (RSnapshot text)
  | None, None => mret tt
  end.

Definition catchup_scenario : XM unit :=
  leader ← find_leader;
  let follower := if bool_decide (leader = 0) then 1 else 0 in
  stop_node follower;;
  marker ← on_cluster (λ _ _, k ← tick; mret (Itoa (Z.of_nat k)));
  require_ok leader [§"SET"; §"bench:catchup"; marker] RMarker;;
  on_cluster (restart_node follower);;
  err ← wait_error (wait_value follower §"bench:catchup" marker 750);
  result ← recoveryResult err;
  on_bundle (set_scenarios (λ r, mkScenarios (SnapshotUnderLoad r) (Some result) (LeaderFailover r) (SnapshotLogReplay r)
    (FullClusterRestart r)));;
  persistBundle;;
  or_throw err RCatchup.

Definition failover_scenario : XM unit :=
  leader ← find_leader;
  stop_node leader;;
  err ← wait_error (wait_writable 600);
  result ← recoveryResult err;
  on_bundle (set_scenarios (λ r, mkScenarios (SnapshotUnderLoad r) (FollowerCatchup r) (Some result) (SnapshotLogReplay r)
    (FullClusterRestart r)));;
  persistBundle;;
  or_throw err RFailover;;
  on_cluster_as RFormerLeader (restart_node leader);;
  wait_writable 600.

(** [for index := range c.nodes] *)
Definition node_count : XM nat := on_cluster (λ _ _, c ← getS; mret (length (nodes c))).

Definition check_values (i : nat) : XM unit :=
  wait_value i §"bench:snapshot-state" §"captured" 500;;
  wait_value i §"bench:log-tail" §"replayed" 500.

Definition recovery_scenario : XM unit :=
  leader ← find_leader;
  require_ok leader [§"SET"; §"bench:snapshot-state"; §"captured"] RSnapshotState;;
  require_ok leader [§"SAVE"] RRecoverySnapshot;;
  require_ok leader [§"SET"; §"bench:log-tail"; §"replayed"] RLogTail;;
  stop_all;;
  count ← node_count;
  for_each (λ i, on_cluster_as (RRestart i) (restart_node i)) (seq 0 count);;
  err ← wait_error (wait_writable 800;; for_each check_values (seq 0 count));
  result ← recoveryResult err;
  on_bundle (set_scenarios (λ r, mkScenarios (SnapshotUnderLoad r) (FollowerCatchup r) (LeaderFailover r) (Some result)
    (Some result)));;
  stop_all;;
  add_cluster_metrics;;
  cleanup_data;;
  persistBundle;;
  or_throw err RRecovery.

(** [defer func() { _ = c.stopAll(); c.cleanupData() }()] *)
Definition with_cleanup (body : XM unit) : XM unit := λ s,
  let '(o, s1) := body s in
  match stop_and_clean s1 with
  | (Ok _, s2) => (o, s2)
  | r => r
  end.

Definition runScenarios : XM unit :=
  start_cluster DurableThree;;
  with_cleanup (
    add_configuration_of §"snapshot-and-recovery-scenarios";;
    persistBundle;;
    snapshot_scenario;;
    catchup_scenario;;
    failover_scenario;;
    recovery_scenario).

(** *** The whole *)
Definition measure_profile (profile : Profile) : XM unit :=
  for_each (run_deployment (Workloads profile)) (Deployments profile);;
  if Scenarios profile then
    r ← catch runScenarios;
    match r with inl e => failBundle e | inr _ => mret tt end
  else mret tt.

Definition run_profile (profile : Profile) : XM unit :=
  measure_profile profile;;
  on_bundle (set_outcome true []);;
  persistBundle.
End run.

(** A step that fails the bundle by hand. *)
Definition fail_unless `{TimeParse} (env : RunEnv) (ok : bool) (e : RunError) : XM unit :=
  if ok then mret tt else failBundle env e.

Definition Run `{FloatToInt} `{TimeParse} (env : RunEnv) (options : Options) : XM unit :=
  let options := setDefaults options in
  match ResolveProfile (o_Profile options) with
  | None => throw (RProfile (o_Profile options))
  | Some profile =>
      match collectMetadata (host env) options with
      | None => throw RMetadata
      | Some metadata =>
          let resultDir := result_dir options metadata in
          let logsDir := Path.Join [resultDir; §"logs"] in
          if negb (mkdir_ok env) then throw RMkdir
          else
            modifyS (λ s, mkRun (Some (mkBundle resultDir metadata new_metrics)) (rs_clusters s) (rs_ext s) (rs_files s));;
            persistBundle env;;
            fail_unless env (build_ok env) RBuild;;
            fail_unless env (binary_ok env) RBinary;;
            run_profile env options logsDir profile
      end
  end.

Definition before_run : RunState := mkRun None [] 0 ∅.

(** ** What the operations of a cluster keep *)
Section shape.
Context (e : HEnv) (d : Deployment).
Implicit Types c : cluster.

(** The directory and the number of nodes. *)
Definition same_shape c c' : Prop := dataRoot c' = dataRoot c ∧ length (nodes c') = length (nodes c).
Definition keeps_shape {A} (m : HM A) : Prop := ∀ c, same_shape c (snd (m c)).

#[local] Instance same_shape_trans : Transitive same_shape.
Proof. intros c1 c2 c3 [] []. split; congruence. Qed.

Lemma shape_bind {A B} (m : HM A) (f : A → HM B) : keeps_shape m → (∀ a, keeps_shape (f a)) → keeps_shape (m ≫= f).
Proof.
  intros Hm Hf c. specialize (Hm c). unfold mbind, GM_bind. destruct (m c) as [[a|err| |] c1]; simpl in *; try done.
  etrans; [exact Hm|apply Hf].
Qed.

Lemma shape_quiet {A} (m : HM A) : quiet m → keeps_shape m.
Proof. intros Hq c. destruct (Hq c) as (o & k & -> & _). done. Qed.

Lemma shape_getS {A} (f : cluster → HM A) : (∀ c, keeps_shape (f c)) → keeps_shape (getS ≫= f).
Proof. intros Hf c. apply Hf. Qed.

Lemma shape_node_at i {A} (f : bench_node → HM A) : (∀ n, keeps_shape (f n)) → keeps_shape (node_at i ≫= f).
Proof.
  intros Hf. apply shape_bind; [|exact Hf]. intros c. unfold node_at, mbind, GM_bind, getS. by destruct (nodes c !! i).
Qed.

Lemma shape_ret {A} (a : A) : keeps_shape (mret a).
Proof. done. Qed.
Lemma shape_throw {A} err : keeps_shape (throw err : HM A).
Proof. done. Qed.

Lemma shape_set_node i n : keeps_shape (set_bench_node i n).
Proof. intros c. split; [done|]. simpl. apply length_insert. Qed.

Lemma shape_start i : keeps_shape (node_start e d i).
Proof.
  apply shape_node_at. intros n. case_match; [apply shape_throw|].
  apply shape_bind; [apply shape_quiet, quiet_spawn|]. intros k. apply shape_bind; [done|]. intros _. apply shape_set_node.
Qed.

Lemma shape_stop i : keeps_shape (node_stop e d i).
Proof.
  apply shape_node_at. intros n. case_match; [|apply shape_ret].
  apply shape_bind; [apply shape_quiet, quiet_tick|]. intros k. apply shape_bind; [apply shape_set_node|]. intros _. apply shape_ret.
Qed.

Lemma shape_stop_from i count : keeps_shape (stop_from e d i count).
Proof.
  revert i. induction count as [|count IH]; intros i; [apply shape_ret|]. apply shape_node_at. intros n.
  apply shape_bind; [|intros _; apply IH]. case_match; [|apply shape_ret].
  apply shape_bind; [apply shape_stop|]. done.
Qed.

(** [startCluster] makes its directory with [os.MkdirTemp]. *)
Definition root_ok c : Prop := dataRoot c = None ∨ ∃ number, dataRoot c = Some (temp_path e number).

Definition keeps_root {A} (m : HM A) : Prop := ∀ c, dataRoot (snd (m c)) = dataRoot c.

Lemma root_bind {A B} (m : HM A) (f : A → HM B) : keeps_root m → (∀ a, keeps_root (f a)) → keeps_root (m ≫= f).
Proof.
  intros Hm Hf c. specialize (Hm c). unfold mbind, GM_bind. destruct (m c) as [[a|err| |] c1]; simpl in *; try done.
  rewrite <- Hm. apply Hf.
Qed.

Lemma root_shape {A} (m : HM A) : keeps_shape m → keeps_root m.
Proof. intros Hm c. apply Hm. Qed.

Lemma root_catch {A} (m : HM A) : keeps_root m → keeps_root (catch m).
Proof. intros Hm c. specialize (Hm c). unfold catch. by destruct (m c) as [[]]. Qed.
End shape.

(** Steps through a computation that keeps the directory. *)
Ltac solve_root :=
  repeat lazymatch goal with
  | |- keeps_root (mret _) => done
  | |- keeps_root (throw _) => done
  | |- keeps_root gopanic => done
  | |- keeps_root nofuel => done
  | |- keeps_root getS => done
  | |- keeps_root (modifyS _) => done
  | |- keeps_root tick => apply root_shape, shape_quiet, quiet_tick
  | |- keeps_root (waitForRESP _ _ _) => apply root_shape, shape_quiet, quiet_waitForRESP
  | |- keeps_root (waitForWritable _ _ _) => apply root_shape, shape_quiet, quiet_waitForWritable
  | |- keeps_root (node_start _ _ _) => apply root_shape, shape_start
  | |- keeps_root (stop_from _ _ _ _) => apply root_shape, shape_stop_from
  | |- keeps_root (catch _) => apply root_catch
  | |- keeps_root (_ ≫= _) => apply root_bind; [|intros ?]
  | |- keeps_root (match _ with _ => _ end) => case_match
  | |- _ => eauto
  end.

Section roots.
Context (e : HEnv) (d : Deployment) (logs : gostring) (keep : bool).

Lemma root_node_at i : keeps_root (node_at i).
Proof. intros c. unfold node_at, mbind, GM_bind, getS. by destruct (nodes c !! i). Qed.

Lemma root_reserve fuel count ports : keeps_root (reserve e fuel count ports).
Proof. revert ports. induction fuel as [|fuel IH]; intros ports; simpl; solve_root. Qed.

Lemma root_start_one root ports i : keeps_root (start_one e d logs root ports i).
Proof.
  pose proof root_node_at. unfold start_one, port_at. solve_root.
Qed.

Lemma root_start_from root ports i count : keeps_root (start_from e d logs root ports i count).
Proof. pose proof root_start_one. revert i. induction count as [|count IH]; intros i; simpl; solve_root. Qed.

Lemma root_cleanup : keeps_root (cleanupData e keep).
Proof. unfold cleanupData. case_match; [done|]. apply root_bind; [done|]. intros c. case_match; [|done]. by case_match. Qed.

Lemma startCluster_root : root_ok e (snd (startCluster e d logs keep no_cluster)).
Proof.
  unfold startCluster. rewrite (gm_bind_ok _ _ _ _ _ (eq_refl : tick no_cluster = (Ok 0, set_calls 1 no_cluster))).
  destruct (mkdir_temp e 0) as [number|]; [|by left]. right. exists number. rewrite gm_bind_modifyS.
  set (c0 := set_root _ _). change (Some (temp_path e number)) with (dataRoot c0).
  pose proof root_cleanup. pose proof (λ fuel count ports, root_reserve fuel count ports).
  pose proof (λ root ports i count, root_start_from root ports i count).
  match goal with |- dataRoot (snd (?m c0)) = _ => enough (Hm : keeps_root m) by apply Hm end.
  unfold cleanup_on_error, stopAll, reservePorts. solve_root.
Qed.
End roots.

(** Any value. *)
Abbreviation any := (λ _, True).

(** ** Specifications of steps by the clusters they leave *)
Section specs.
Context `{FloatToInt} `{TimeParse} (env : RunEnv) (options : Options) (logsDir : gostring).
Abbreviation Clusters := (list (Deployment * cluster)).
Implicit Types (cl : Clusters) (P R : Clusters → Prop).

(** From clusters in [P], [m] ends with a value and clusters in [Q], or with an
    error and clusters in [R]; it does not panic. *)
Definition spec {A} P (m : XM A) (Q : A → Clusters → Prop) R : Prop := ∀ s, P (rs_clusters s) →
  match m s with
  | (Ok a, s') => Q a (rs_clusters s')
  | (Err _, s') => R (rs_clusters s')
  | _ => False
  end.

Lemma spec_bind {A B} P (m : XM A) (f : A → XM B) Q Q' R :
  spec P m Q R → (∀ a, spec (Q a) (f a) Q' R) → spec P (m ≫= f) Q' R.
Proof.
  intros Hm Hf s Hs. specialize (Hm s Hs). unfold mbind, GM_bind. destruct (m s) as [[a|e| |] s1]; try done. by apply Hf.
Qed.

Lemma spec_conseq {A} P P' (m : XM A) Q Q' R R' : spec P' m Q' R' → (∀ cl, P cl → P' cl) →
  (∀ a cl, Q' a cl → Q a cl) → (∀ cl, R' cl → R cl) → spec P m Q R.
Proof.
  intros Hm HP HQ HR s Hs. specialize (Hm s (HP _ Hs)). destruct (m s) as [[a|e| |] s1]; eauto.
Qed.

Lemma spec_ret {A} P (a : A) R : spec P (mret a) (λ _, P) R.
Proof. by intros s. Qed.

Lemma spec_ret_with {A} P (a : A) R : spec P (mret a) (λ b cl, b = a ∧ P cl) R.
Proof. by intros s. Qed.

Lemma spec_throw {A} P e (Q : A → Clusters → Prop) : spec P (throw e) Q P.
Proof. by intros s. Qed.

Lemma spec_catch {A} P (m : XM A) Q R R' : spec P m Q R →
  spec P (catch m) (λ r cl, match r with inl _ => R cl | inr a => Q a cl end) R'.
Proof. intros Hm s Hs. specialize (Hm s Hs). unfold catch. by destruct (m s) as [[a|e| |] s1]. Qed.

(** Steps that touch no cluster. *)
Lemma spec_bundle P f R : spec P (on_bundle f) (λ _, P) R.
Proof. by intros s. Qed.

Lemma spec_ext {A} P (f : nat → A) R : spec P (ext f) (λ _, P) R.
Proof. by intros s. Qed.

Lemma spec_write_file P path data : spec P (write_file env path data) (λ _, P) P.
Proof.
  apply (spec_bind _ _ _ (λ _, P)); [apply spec_ext|]. intros [torn|]; [|by intros s].
  apply (spec_bind _ _ _ (λ _, P)); [by destruct torn; intros s|]. intros _. apply spec_throw.
Qed.

Lemma spec_write_json {A} P (c : Codec A) path value : spec P (write_json env c path value) (λ _, P) P.
Proof.
  unfold write_json. destruct (MarshalIndent c value); [|apply spec_throw].
  apply (spec_bind _ _ _ (λ _, P)); [apply spec_write_file|]. intros _.
  apply (spec_bind _ _ _ (λ _, P)); [apply spec_ext|]. intros [torn|]; [apply spec_throw|by intros s].
Qed.

Lemma spec_persist P : spec P (persistBundle env) (λ _, P) P.
Proof.
  apply (spec_bind _ _ _ (λ _, P)); [by intros s|]. intros s. destruct (rs_bundle s) as [b|]; [|apply spec_ret].
  apply (spec_bind _ _ _ (λ _, P)); [apply spec_write_json|]. intros _.
  apply (spec_bind _ _ _ (λ _, P)); [apply spec_write_json|]. intros _. apply spec_write_file.
Qed.

Lemma spec_fail {A} P e (Q : A → Clusters → Prop) : spec P (failBundle env e) Q P.
Proof.
  apply (spec_bind _ _ _ (λ _, P)); [apply spec_bundle|]. intros _.
  apply (spec_bind _ _ _ (λ _, P)).
  - eapply spec_conseq; [apply (spec_catch P _ (λ _, P) P (λ _, False)), spec_persist|done| |done]. by intros [].
  - intros _. apply spec_throw.
Qed.

Lemma spec_each {A} P R (f : A → XM unit) l : (∀ x, x ∈ l → spec P (f x) (λ _, P) R) → spec P (for_each f l) (λ _, P) R.
Proof.
  induction l as [|x l IH]; intros Hf; [apply spec_ret|]. apply (spec_bind _ _ _ (λ _, P)); [apply Hf; set_solver|].
  intros _. apply IH. set_solver.
Qed.

(** *** The clusters of a run *)
Context (Hlisten : ∀ k, listeners_distinct (cluster_env env k)) (Htemp : ∀ k, temp_dir_ok (cluster_env env k)).

(** Nothing is left of a cluster. *)
Definition gone (x : Deployment * cluster) : Prop :=
  Forall (λ n, cmd n = None) (nodes (snd x)) ∧
  (KeepData options = false → ∀ root, dataRoot (snd x) = Some root →
    ∃ k, (Path.Clean root, remove_all (cluster_env env k) (Path.Clean root)) ∈ removed (snd x)).

Definition Idle cl : Prop := Forall gone cl.

(** The newest cluster has [n] nodes and may run; of the others nothing is left. *)
Definition Busy (n : nat) cl : Prop := ∃ d c rest, cl = (d, c) :: rest ∧ Idle rest ∧
  root_ok (cluster_env env (length rest)) c ∧ length (nodes c) = n.

(** As [Busy], and no process runs. *)
Definition Halted (n : nat) cl : Prop := ∃ d c rest, cl = (d, c) :: rest ∧ Idle rest ∧
  root_ok (cluster_env env (length rest)) c ∧ length (nodes c) = n ∧ Forall (λ n, cmd n = None) (nodes c).

Lemma Halted_Busy n cl : Halted n cl → Busy n cl.
Proof. intros (d & c & rest & ? & ? & ? & ? & _). by exists d, c, rest. Qed.

(** [m] returns, keeps the shape of a cluster of [n] nodes, and its value is
    in [V]. *)
Definition gentle {A} (n : nat) (m : HEnv → Deployment → HM A) (V : A → Prop) : Prop := ∀ e d c, length (nodes c) = n →
  match m e d c with
  | (Ok a, c') => V a ∧ same_shape c c'
  | (Err _, c') => same_shape c c'
  | _ => False
  end.

Lemma spec_cluster {A} n (m : HEnv → Deployment → HM A) V : gentle n m V →
  spec (Busy n) (on_cluster env m) (λ a cl, V a ∧ Busy n cl) (Busy n).
Proof.
  intros Hm s (d & c & rest & Hs & Hi & Hr & Hn). unfold on_cluster. rewrite Hs.
  specialize (Hm (cluster_env env (length rest)) d c Hn). unfold root_ok in Hr.
  destruct (m (cluster_env env (length rest)) d c) as [[a|e| |] c']; [destruct Hm as [? [Hd Hl]]|destruct Hm as [Hd Hl]|done..].
  - split; [done|]. exists d, c', rest. unfold root_ok. by rewrite Hd, Hl.
  - exists d, c', rest. unfold root_ok. by rewrite Hd, Hl.
Qed.

Lemma gentle_quiet {A} n (m : HEnv → Deployment → HM A) : (∀ e d, quiet (m e d)) → gentle n m (λ _, True).
Proof. intros Hq e d c _. destruct (Hq e d c) as (o & k & -> & Ho). by destruct o. Qed.

(** *** Stopping *)
Lemma stopAll_spec e d c : ∃ c', stopAll e d c = (Ok tt, c') ∧ same_shape c c' ∧ Forall (λ n, cmd n = None) (nodes c').
Proof.
  destruct (stop_from_spec e d (length (nodes c)) 0 c) as (c' & E & _ & _ & Hf); [lia|lia|].
  exists c'. split; [exact E|]. split; [|done]. pose proof (shape_stop_from e d 0 (length (nodes c)) c) as Hs. by rewrite E in Hs.
Qed.

Lemma spec_stop n R : spec (Busy n) (stop_all env) (λ _, Halted n) R.
Proof.
  intros s (d & c & rest & Hs & Hi & Hr & Hn). unfold stop_all, on_cluster. rewrite Hs.
  destruct (stopAll_spec (cluster_env env (length rest)) d c) as (c' & -> & [Hd Hl] & Hf).
  exists d, c', rest. unfold root_ok in *. by rewrite Hd, Hl.
Qed.

(** What cleaning adds, for a directory of the harness. *)
Lemma cleanup_gone e c : temp_dir_ok e → root_ok e c → ∃ c', cleanupData e (KeepData options) c = (Ok tt, c') ∧
  nodes c' = nodes c ∧ dataRoot c' = dataRoot c ∧
  (KeepData options = false → ∀ root, dataRoot c' = Some root → (Path.Clean root, remove_all e (Path.Clean root)) ∈ removed c').
Proof.
  intros Ht Hr. unfold cleanupData. destruct (KeepData options); [by exists c|]. rewrite gm_bind_getS.
  destruct Hr as [Hr|[number Hr]]; rewrite Hr.
  - exists c. rewrite Hr. by split_and!.
  - destruct (temp_path_removable e number Ht) as [Hd Hb]. cbv zeta. rewrite bool_decide_true, Hb by done. simpl.
    eexists. split; [reflexivity|]. simpl. split_and!; [done..|]. intros _ root. rewrite Hr. intros [= <-]. set_solver.
Qed.

Lemma spec_clean_halted n R : spec (Halted n) (cleanup_data env options) (λ _, Idle) R.
Proof.
  intros s (d & c & rest & Hs & Hi & Hr & Hn & Hf). unfold cleanup_data, on_cluster. rewrite Hs.
  destruct (cleanup_gone _ c (Htemp (length rest)) Hr) as (c' & -> & Hnodes & Hd & Hg).
  apply Forall_cons. split; [|done]. split; simpl; [by rewrite Hnodes|]. intros Hk root Hroot. eexists. by apply Hg.
Qed.

Lemma spec_clean_busy n R : spec (Busy n) (cleanup_data env options) (λ _, Busy n) R.
Proof.
  intros s (d & c & rest & Hs & Hi & Hr & Hn). unfold cleanup_data, on_cluster. rewrite Hs.
  destruct (cleanup_gone _ c (Htemp (length rest)) Hr) as (c' & -> & Hnodes & Hd & _).
  exists d, c', rest. unfold root_ok in *. by rewrite Hd, Hnodes.
Qed.

Lemma spec_stop_and_clean n R : spec (Busy n) (stop_and_clean env options) (λ _, Idle) R.
Proof. apply (spec_bind _ _ _ (λ _, Halted n)); [apply spec_stop|]. intros _. apply spec_clean_halted. Qed.

(** *** Starting *)
Lemma spec_start d : spec Idle (start_cluster env options logsDir d) (λ _, Busy (nodeCount d)) Idle.
Proof.
  intros s Hi. unfold start_cluster. set (k := length (rs_clusters s)).
  destruct (startCluster_spec (cluster_env env k) d logsDir (KeepData options) (Hlisten k) (Htemp k)) as (o & c & E & _ & Hr).
  pose proof (startCluster_root (cluster_env env k) d logsDir (KeepData options)) as Hroot. rewrite E in *. simpl in Hroot.
  destruct o as [[]|e| |]; simpl in *; try done.
  - exists d, c, (rs_clusters s). split_and!; [done|done|done|apply Hr].
  - apply Forall_cons. split; [|done]. destruct Hr as [Hf Hrem]. split; simpl; [done|].
    intros Hk root Hd. rewrite (Hrem Hk), Hd. simpl. set_solver.
Qed.

(** Calls that do not fail. *)
Definition sure {A} (n : nat) (m : HEnv → Deployment → HM A) (V : A → Prop) : Prop := ∀ e d c, length (nodes c) = n →
  ∃ a c', m e d c = (Ok a, c') ∧ V a ∧ same_shape c c' ∧
    (Forall (λ n, cmd n = None) (nodes c) → Forall (λ n, cmd n = None) (nodes c')).

Lemma sure_gentle {A} n (m : HEnv → Deployment → HM A) V : sure n m V → gentle n m V.
Proof. intros Hm e d c Hn. by destruct (Hm e d c Hn) as (a & c' & -> & ? & ? & _). Qed.

Lemma spec_sure {A} n (m : HEnv → Deployment → HM A) V R : sure n m V →
  spec (Busy n) (on_cluster env m) (λ a cl, V a ∧ Busy n cl) R ∧ spec (Halted n) (on_cluster env m) (λ a cl, V a ∧ Halted n cl) R.
Proof.
  intros Hm. split.
  - intros s (d & c & rest & Hs & Hi & Hr & Hn). unfold on_cluster. rewrite Hs. unfold root_ok in *.
    destruct (Hm (cluster_env env (length rest)) d c Hn) as (a & c' & -> & Ha & [Hd Hl] & _). split; [done|].
    exists d, c', rest. unfold root_ok. by rewrite Hd, Hl.
  - intros s (d & c & rest & Hs & Hi & Hr & Hn & Hf). unfold on_cluster. rewrite Hs. unfold root_ok in *.
    destruct (Hm (cluster_env env (length rest)) d c Hn) as (a & c' & -> & Ha & [Hd Hl] & Hst). split; [done|].
    exists d, c', rest. unfold root_ok. rewrite Hd, Hl. split_and!; auto.
Qed.

Lemma sure_node_at n i : i < n → sure n (λ _ _, node_at i) (λ _, True).
Proof.
  intros Hi e d c Hn. destruct (lookup_lt_is_Some_2 (nodes c) i) as [x Hx]; [lia|].
  exists x, c. by rewrite (node_at_eq i c x Hx).
Qed.

Lemma sure_read {A} n (f : Deployment → cluster → A) V : (∀ d c, length (nodes c) = n → V (f d c)) →
  sure n (λ _ d, c ← getS; mret (f d c)) V.
Proof. intros Hf e d c Hn. exists (f d c), c. by split_and!; [|apply Hf|..]. Qed.

Lemma probe_range e i ns c k c' : probe e i ns c = (Ok (Some k), c') → k < i + length ns.
Proof.
  revert i c. induction ns as [|n ns IH]; intros i c; simpl; [done|]. destruct (cmd n).
  - unfold tick, request, mbind, GM_bind, mret, GM_ret, tick. simpl. case_match; [intros [= <- _]; lia|].
    intros Hp%IH. lia.
  - intros Hp%IH. lia.
Qed.

Lemma gentle_leader n : gentle n (λ e _, findLeader e) (λ i, i < n).
Proof.
  intros e d c Hn. unfold findLeader. rewrite gm_bind_getS. destruct (quiet_probe e 0 (nodes c) c) as (o & k & E & Ho).
  destruct o as [[i|]|err| |]; try done; gm_step E; try done.
  split; [|done]. apply probe_range in E. lia.
Qed.

(** *** A deployment *)
Lemma spec_or_stop {A} n (m : XM A) handler Q : spec (Busy n) m (λ a cl, Q a ∧ Busy n cl) (Busy n) →
  (∀ e, spec Idle (handler e) (λ a cl, Q a ∧ Busy n cl) Idle) →
  spec (Busy n) (or_stop env options m handler) (λ a cl, Q a ∧ Busy n cl) Idle.
Proof.
  intros Hm Hh. eapply spec_bind; [by apply spec_catch|]. intros [e|a].
  - apply (spec_bind _ _ _ (λ _, Idle)); [apply spec_stop_and_clean|]. intros _. apply Hh.
  - by intros s Hs.
Qed.

Lemma spec_persist_or_stop n : spec (Busy n) (or_stop env options (persistBundle env) throw) (λ _, Busy n) Idle.
Proof.
  eapply spec_conseq; [apply (spec_or_stop n _ _ (λ _, True))|done|by intros ? ? []|done].
  - eapply spec_conseq; [apply spec_persist|done|done|done].
  - intros e. apply spec_throw.
Qed.

Lemma spec_workload n d leader workload : leader < n →
  spec (Busy n) (deployment_workload env options d leader workload) (λ _, Busy n) Idle.
Proof.
  intros Hl. eapply spec_bind; [apply (spec_sure n _ (λ _, True)), sure_node_at, Hl|]. intros ?.
  apply (spec_bind _ _ _ (λ _, Busy n)).
  { apply (spec_bind _ _ _ (λ _, Busy n)); [by intros s [_ Hs]|]. intros m. apply spec_ret. }
  intros [[result timing] runErr]. apply (spec_bind _ _ _ (λ _, Busy n)); [apply spec_bundle|]. intros _.
  apply (spec_bind _ _ _ (λ _, Busy n)); [apply spec_persist_or_stop|]. intros _. destruct runErr as [e|]; [|apply spec_ret].
  apply (spec_bind _ _ _ (λ _, Idle)); [apply spec_stop_and_clean|]. intros _. apply spec_fail.
Qed.

Lemma spec_configuration n purpose R : spec (Busy n) (add_configuration_of env purpose) (λ _, Busy n) R.
Proof.
  eapply spec_bind; [apply (spec_sure n _ (λ _, True)), sure_read; done|]. intros d. by intros s [_ Hs].
Qed.

Lemma spec_metrics n R : spec (Halted n) (add_cluster_metrics env) (λ _, Halted n) R.
Proof.
  eapply spec_bind; [apply (spec_sure n _ (λ _, True)), sure_read; done|]. intros ms. by intros s [_ Hs].
Qed.

Lemma nodeCount_pos d : 0 < nodeCount d.
Proof. unfold nodeCount. case_bool_decide; lia. Qed.

Lemma spec_deployment workloads d : spec Idle (run_deployment env options logsDir workloads d) (λ _, Idle) Idle.
Proof.
  eapply spec_bind; [apply spec_catch, spec_start|]. intros [e|_]; [apply spec_fail|]. set (n := nodeCount d).
  apply (spec_bind _ _ _ (λ _, Busy n)); [apply spec_configuration|]. intros _.
  apply (spec_bind _ _ _ (λ _, Busy n)); [apply spec_persist_or_stop|]. intros _.
  eapply spec_bind; [apply spec_catch, (spec_cluster n _ _ (gentle_leader n))|]. intros found.
  apply (spec_bind _ _ _ (λ leader cl, leader < n ∧ Busy n cl)).
  { case_bool_decide as Hd.
    - intros s Hs. split; [apply nodeCount_pos|]. by destruct found; [|destruct Hs].
    - destruct found as [e|i]; [|by intros s Hs].
      apply (spec_bind _ _ _ (λ _, Idle)); [apply spec_stop_and_clean|]. intros _. apply spec_fail. }
  intros leader. apply (spec_bind _ _ _ (λ _, Busy n)).
  { intros s [Hl Hs]. by apply (spec_each (Busy n) Idle _ workloads (λ w _, spec_workload n d leader w Hl)). }
  intros _. apply (spec_bind _ _ _ (λ _, Halted n)); [apply spec_stop|]. intros _.
  apply (spec_bind _ _ _ (λ _, Halted n)); [apply spec_metrics|]. intros _.
  apply (spec_bind _ _ _ (λ _, Idle)); [apply spec_clean_halted|]. intros _. apply spec_persist.
Qed.

(** *** The scenarios, on three nodes *)
Definition calm {A} (V : A → Prop) (m : XM A) : Prop := spec (Busy 3) m (λ a cl, V a ∧ Busy 3 cl) (Busy 3).

Lemma calm_bind {A B} V W (m : XM A) (f : A → XM B) : calm V m → (∀ a, V a → calm W (f a)) → calm W (m ≫= f).
Proof. intros Hm Hf. eapply spec_bind; [exact Hm|]. intros a s [Hv Hs]. by apply (Hf a Hv). Qed.

Lemma calm_ret {A} (V : A → Prop) a : V a → calm V (mret a).
Proof. by intros Hv s Hs. Qed.
Lemma calm_throw {A} (V : A → Prop) e : calm V (throw e).
Proof. by intros s Hs. Qed.
Lemma calm_ext {A} (f : nat → A) : calm any (ext f).
Proof. by intros s Hs. Qed.
Lemma calm_bundle f : calm any (on_bundle f).
Proof. by intros s Hs. Qed.
Lemma calm_persist : calm any (persistBundle env).
Proof. eapply spec_conseq; [apply spec_persist|done|done|done]. Qed.
Lemma calm_catch {A} V (m : XM A) : calm V m → calm (λ r, match r with inl _ => True | inr a => V a end) (catch m).
Proof. intros Hm. eapply spec_conseq; [apply (spec_catch _ _ _ _ _ Hm)|done| |done]. by intros [e|a]. Qed.
Lemma calm_cluster {A} (m : HEnv → Deployment → HM A) V : gentle 3 m V → calm V (on_cluster env m).
Proof. apply spec_cluster. Qed.
Lemma calm_stop_all : calm any (stop_all env).
Proof. eapply spec_conseq; [apply (spec_stop 3)|done| |done]. intros ? cl Hh. split; [done|by apply Halted_Busy]. Qed.
Lemma calm_cleanup : calm any (cleanup_data env options).
Proof. eapply spec_conseq; [apply (spec_clean_busy 3)|done|done|done]. Qed.
Lemma calm_each {A} (f : A → XM unit) l : (∀ x, x ∈ l → calm any (f x)) → calm any (for_each f l).
Proof.
  intros Hf. eapply spec_conseq; [apply (spec_each (Busy 3) (Busy 3))|done|done|done].
  intros x Hx. eapply spec_conseq; [by apply Hf|done|by intros ? ? []|done].
Qed.
Lemma calm_weaken {A} (V W : A → Prop) (m : XM A) : (∀ a, V a → W a) → calm V m → calm W m.
Proof. intros HV Hm. eapply spec_conseq; [exact Hm|done| |done]. intros a cl []. split; auto. Qed.

Lemma gentle_stop n i : gentle n (λ e d, stopNode e d i) any.
Proof.
  intros e d c Hn. unfold stopNode. rewrite gm_bind_getS. destruct (in_range i c) eqn:Hr; simpl; [|done].
  unfold in_range in Hr. destruct (lookup_lt_is_Some_2 (nodes c) (Z.to_nat i)) as [x Hx]; [lia|].
  destruct (node_stop_spec e d (Z.to_nat i) c x Hx) as (m & k & x' & _ & _ & E & _). gm_step E. simpl.
  split; [done|]. split; [done|]. simpl. apply length_insert.
Qed.

Lemma gentle_restart n i : gentle n (restart_node i) any.
Proof.
  intros e d c Hn. unfold restart_node, restartNode. rewrite gm_bind_getS.
  destruct (in_range (Z.of_nat i) c) eqn:Hr; simpl; [|done]. unfold in_range in Hr.
  destruct (lookup_lt_is_Some_2 (nodes c) (Z.to_nat (Z.of_nat i))) as [x Hx]; [lia|].
  gm_step (node_at_eq _ c x Hx).
  destruct (node_start_spec e d (Z.to_nat (Z.of_nat i)) c x Hx) as [(err & k & E)|(_ & k & x' & _ & _ & E)].
  - by gm_step E.
  - gm_step E. match goal with |- context [waitForRESP _ _ _ ?c1] =>
      destruct (quiet_waitForRESP e (respAddr x) 600 c1) as (o & k' & -> & Ho) end.
    destruct o; simpl; try done; [split; [done|]|]; (split; [done|]); simpl; apply length_insert.
Qed.

Lemma gentle_wait n i key want rounds : i < n →
  gentle n (λ e _, x ← node_at i; waitForValue (respAddr x) key want rounds e) any.
Proof.
  intros Hi e d c Hn. destruct (lookup_lt_is_Some_2 (nodes c) i) as [x Hx]; [lia|]. gm_step (node_at_eq i c x Hx).
  destruct (quiet_poll e rounds (r ← request e [§"GET"; key];
     mret (match r with Some response => Contains response (CRLF ++ want ++ CRLF) | None => false end)) (HValue key (respAddr x)))
    with c as (o & k & E & Ho).
  { apply quiet_bind; [apply quiet_request|intros r; apply quiet_ret]. }
  unfold waitForValue. rewrite E. by destruct o.
Qed.

Lemma gentle_writable n rounds : gentle n (λ e _, c ← getS; waitForWritable e (nodes c) rounds) any.
Proof.
  intros e d c Hn. rewrite gm_bind_getS. destruct (quiet_waitForWritable e (nodes c) rounds c) as (o & k & -> & Ho).
  by destruct o.
Qed.

Lemma calm_leader : calm (λ i, i < 3) (find_leader env).
Proof. apply calm_cluster, gentle_leader. Qed.

Lemma calm_node_at i : i < 3 → calm any (on_cluster env (λ _ _, node_at i)).
Proof. intros Hi. by apply calm_cluster, sure_gentle, sure_node_at. Qed.

Lemma calm_run_workload d w o : calm any (run_workload env d w o).
Proof. eapply calm_bind; [apply calm_ext|]. intros m _. by apply calm_ret. Qed.

Lemma calm_require leader args e : leader < 3 → calm any (require_ok env leader args e).
Proof.
  intros Hl. eapply calm_bind; [by apply calm_node_at|]. intros n _.
  eapply calm_bind; [apply calm_cluster, (gentle_quiet 3 (λ e _, request e args)); intros; apply quiet_request|].
  intros r _. case_match; [by apply calm_ret|apply calm_throw].
Qed.

Lemma calm_wait_error m : calm any m → calm any (wait_error m).
Proof.
  intros Hm. eapply calm_bind; [by apply calm_catch|]. intros [[]|] _; (by apply calm_ret) || apply calm_throw.
Qed.

Lemma calm_recovery err : calm any (recoveryResult env err).
Proof. eapply calm_bind; [apply calm_ext|]. intros ? _. by apply calm_ret. Qed.

Lemma calm_or_throw err wrap : calm any (or_throw err wrap).
Proof. destruct err; [apply calm_throw|by apply calm_ret]. Qed.

Lemma calm_restart_as wrap i : calm any (on_cluster_as env wrap (restart_node i)).
Proof.
  eapply calm_bind; [apply calm_catch, calm_cluster, (gentle_restart 3)|].
  intros [[]|a] _; (by apply calm_ret) || apply calm_throw.
Qed.

Lemma calm_wait i key want rounds : i < 3 → calm any (wait_value env i key want rounds).
Proof. intros Hi. by apply calm_cluster, gentle_wait. Qed.

Lemma calm_writable rounds : calm any (wait_writable env rounds).
Proof. apply calm_cluster, gentle_writable. Qed.

Lemma calm_count : calm (λ k, k = 3) (node_count env).
Proof. apply calm_cluster, sure_gentle, sure_read. done. Qed.

Lemma calm_metrics : calm any (add_cluster_metrics env).
Proof.
  eapply calm_bind; [apply calm_cluster, sure_gentle, (sure_read 3 (λ _ c, metrics c) any); done|].
  intros ms _. apply calm_bundle.
Qed.

Lemma calm_configuration purpose : calm any (add_configuration_of env purpose).
Proof. eapply spec_conseq; [apply spec_configuration|done|done|done]. Qed.

Ltac calm_step :=
  lazymatch goal with
  | |- calm _ (_ ≫= _) => eapply calm_bind; [calm_step|intros ? ?]
  | |- calm _ (find_leader _) => apply calm_leader
  | |- calm _ (on_cluster _ (λ _ _, node_at _)) => apply calm_node_at
  | |- calm _ (ext _) => apply calm_ext
  | |- calm _ (on_bundle _) => apply calm_bundle
  | |- calm _ (persistBundle _) => apply calm_persist
  | |- calm _ (run_workload _ _ _ _) => apply calm_run_workload
  | |- calm _ (stop_node _ _) => apply calm_cluster, gentle_stop
  | |- calm _ (on_cluster _ (restart_node _)) => apply calm_cluster, gentle_restart
  | |- calm _ (on_cluster_as _ _ _) => apply calm_restart_as
  | |- calm _ (require_ok _ _ _ _) => apply calm_require
  | |- calm _ (wait_error _) => apply calm_wait_error
  | |- calm _ (wait_value _ _ _ _ _) => apply calm_wait
  | |- calm _ (wait_writable _ _) => apply calm_writable
  | |- calm _ (recoveryResult _ _) => apply calm_recovery
  | |- calm _ (or_throw _ _) => apply calm_or_throw
  | |- calm _ (stop_all _) => apply calm_stop_all
  | |- calm _ (cleanup_data _ _) => apply calm_cleanup
  | |- calm _ (add_cluster_metrics _) => apply calm_metrics
  | |- calm _ (node_count _) => apply calm_count
  | |- calm _ (throw _) => apply calm_throw
  | |- calm _ (mret _) => by apply calm_ret
  | |- calm _ (match _ with _ => _ end) => case_match
  end.

Lemma calm_snapshot : calm any (snapshot_scenario env options).
Proof. unfold snapshot_scenario. repeat calm_step; done. Qed.

Lemma calm_catchup : calm any (catchup_scenario env).
Proof.
  unfold catchup_scenario. eapply calm_bind; [apply calm_leader|]. intros leader Hl.
  eapply calm_bind; [calm_step|intros _ _].
  eapply (calm_bind any); [apply calm_cluster, (gentle_quiet 3 (λ _ _, k ← tick; mret (Itoa (Z.of_nat k))))|].
  { intros e d. apply quiet_bind; [apply quiet_tick|]. intros k. apply quiet_ret. }
  intros marker _. repeat calm_step; try done. case_bool_decide; lia.
Qed.

Lemma calm_failover : calm any (failover_scenario env).
Proof. unfold failover_scenario. repeat calm_step; done. Qed.

Lemma calm_recovery_scenario : calm any (recovery_scenario env options).
Proof.
  unfold recovery_scenario. eapply calm_bind; [apply calm_leader|]. intros leader Hl.
  do 3 (eapply calm_bind; [by apply calm_require|intros _ _]). eapply calm_bind; [apply calm_stop_all|intros _ _].
  eapply calm_bind; [apply calm_count|]. intros ? ->.
  eapply calm_bind; [apply calm_each; intros i _; apply calm_restart_as|]. intros _ _.
  eapply calm_bind; [apply calm_wait_error; eapply calm_bind; [apply calm_writable|intros _ _]|].
  { apply calm_each. intros i [_ Hi]%elem_of_seq. unfold check_values. repeat calm_step; lia. }
  intros err _. repeat calm_step.
Qed.

Lemma spec_with_cleanup body : calm any body → spec (Busy 3) (with_cleanup env options body) (λ _, Idle) Idle.
Proof.
  intros Hb s Hs. specialize (Hb s Hs). unfold with_cleanup. destruct (body s) as [o s1].
  assert (Hb1 : Busy 3 (rs_clusters s1)) by (destruct o; [by destruct Hb|done..]).
  pose proof (spec_stop_and_clean 3 (λ _, False) s1 Hb1) as Hc.
  destruct (stop_and_clean env options s1) as [[[]|e| |] s2]; try done. by destruct o.
Qed.

Lemma spec_scenarios : spec Idle (runScenarios env options logsDir) (λ _, Idle) Idle.
Proof.
  eapply spec_bind; [apply spec_start|]. intros ?. apply spec_with_cleanup.
  eapply calm_bind; [apply calm_configuration|intros _ _]. eapply calm_bind; [apply calm_persist|intros _ _].
  eapply calm_bind; [apply calm_snapshot|intros _ _]. eapply calm_bind; [apply calm_catchup|intros _ _].
  eapply calm_bind; [apply calm_failover|intros _ _]. apply calm_recovery_scenario.
Qed.

Lemma spec_profile profile : spec Idle (run_profile env options logsDir profile) (λ _, Idle) Idle.
Proof.
  apply (spec_bind _ _ _ (λ _, Idle)).
  - apply (spec_bind _ _ _ (λ _, Idle)); [apply spec_each; intros d _; apply spec_deployment|]. intros _.
    case_match; [|apply spec_ret]. eapply spec_bind; [apply spec_catch, spec_scenarios|].
    intros [e|_]; [apply spec_fail|apply spec_ret].
  - intros _. apply (spec_bind _ _ _ (λ _, Idle)); [apply spec_bundle|]. intros _. apply spec_persist.
Qed.
End specs.

(** ** Specifications of steps by the bundle they leave *)
Section bundles.
Context `{FloatToInt} `{TimeParse} (env : RunEnv) (options : Options) (logsDir : gostring).
Implicit Types (ob : option Bundle) (P : option Bundle → Prop).

(** A bundle that is not marked as completed. *)
Definition Open ob : Prop := ∀ b, ob = Some b → b_Completed b = false.

(** From a bundle in [P], [m] ends with a bundle in [Q], or with an error and an
    open bundle. *)
Definition bspec {A} P (m : XM A) (Q : A → option Bundle → Prop) : Prop := ∀ s, P (rs_bundle s) →
  match m s with
  | (Ok a, s') => Q a (rs_bundle s')
  | (Err _, s') => Open (rs_bundle s')
  | _ => True
  end.

Lemma bspec_bind {A B} P (m : XM A) (f : A → XM B) Q Q' :
  bspec P m Q → (∀ a, bspec (Q a) (f a) Q') → bspec P (m ≫= f) Q'.
Proof.
  intros Hm Hf s Hs. specialize (Hm s Hs). unfold mbind, GM_bind. destruct (m s) as [[a|e| |] s1]; try done. by apply Hf.
Qed.

Lemma bspec_catch {A} P (m : XM A) Q : bspec P m Q →
  bspec P (catch m) (λ r ob, match r with inl _ => Open ob | inr a => Q a ob end).
Proof. intros Hm s Hs. specialize (Hm s Hs). unfold catch. by destruct (m s) as [[a|e| |] s1]. Qed.

Lemma bspec_bundle P Q f : (∀ ob, P ob → Q (f <$> ob)) → bspec P (on_bundle f) (λ _, Q).
Proof. intros Hf s Hs. by apply Hf. Qed.

(** Steps that leave the bundle alone. *)
Definition inert {A} (m : XM A) : Prop := ∀ s, rs_bundle (snd (m s)) = rs_bundle s.

Lemma bspec_inert {A} P (m : XM A) : (∀ ob, P ob → Open ob) → inert m → bspec P m (λ _, P).
Proof.
  intros HP Hm s Hs. specialize (Hm s). destruct (m s) as [[a|e| |] s1]; simpl in Hm; rewrite ?Hm; auto.
Qed.

Lemma inert_bind {A B} (m : XM A) (f : A → XM B) : inert m → (∀ a, inert (f a)) → inert (m ≫= f).
Proof.
  intros Hm Hf s. specialize (Hm s). unfold mbind, GM_bind. destruct (m s) as [[a|e| |] s1]; simpl in *; try done.
  rewrite <- Hm. apply Hf.
Qed.
Lemma inert_catch {A} (m : XM A) : inert m → inert (catch m).
Proof. intros Hm s. specialize (Hm s). unfold catch. by destruct (m s) as [[]]. Qed.
Lemma inert_ret {A} (a : A) : inert (mret a).
Proof. done. Qed.
Lemma inert_throw {A} e : inert (throw e : XM A).
Proof. done. Qed.
Lemma inert_ext {A} (f : nat → A) : inert (ext f).
Proof. done. Qed.
Lemma inert_cluster {A} (m : HEnv → Deployment → HM A) : inert (on_cluster env m).
Proof. intros s. unfold on_cluster. destruct (rs_clusters s) as [|[d c] rest]; [done|]. by destruct (m _ _ _). Qed.
Lemma inert_start d : inert (start_cluster env options logsDir d).
Proof. intros s. unfold start_cluster. by destruct (startCluster _ _ _ _ _). Qed.
Definition fails_as {A} (e : RunError) (m : XM A) : Prop := ∀ s, match m s with (Err e', _) => e' = e | _ => True end.

Lemma fails_as_bind {A B} e (m : XM A) (f : A → XM B) : fails_as e m → (∀ a, fails_as e (f a)) → fails_as e (m ≫= f).
Proof.
  intros Hm Hf s. specialize (Hm s). unfold mbind, GM_bind. destruct (m s) as [[a|e'| |] s']; [apply Hf|done..].
Qed.

Lemma inert_write_file path data : inert (write_file env path data).
Proof.
  apply inert_bind; [apply inert_ext|]. intros [torn|]; [|done]. apply inert_bind; [by destruct torn|]. by intros _.
Qed.
Lemma inert_write_json {A} (c : Codec A) path value : inert (write_json env c path value).
Proof.
  unfold write_json. destruct (MarshalIndent c value); [|done]. apply inert_bind; [apply inert_write_file|]. intros _.
  apply inert_bind; [apply inert_ext|]. by intros [].
Qed.
Lemma inert_persist : inert (persistBundle env).
Proof.
  apply inert_bind; [done|]. intros s. destruct (rs_bundle s); [|done]. apply inert_bind; [apply inert_write_json|]. intros _.
  apply inert_bind; [apply inert_write_json|]. intros _. apply inert_write_file.
Qed.
(** Every error of a write is that of the bundle. *)
Lemma persist_fails_as : fails_as RPersist (persistBundle env).
Proof.
  assert (Hf : ∀ path data, fails_as RPersist (write_file env path data)).
  { intros path data. apply fails_as_bind; [done|]. intros [torn|]; [|done]. apply fails_as_bind; [by destruct torn|].
    by intros _ s. }
  assert (Hj : ∀ A (c : Codec A) path value, fails_as RPersist (write_json env c path value)).
  { intros A c path value. unfold write_json. destruct (MarshalIndent c value); [|by intros s].
    apply fails_as_bind; [apply Hf|]. intros _. apply fails_as_bind; [done|]. intros [torn|]; by intros s. }
  apply fails_as_bind; [done|]. intros s. destruct (rs_bundle s); [|done]. apply fails_as_bind; [apply Hj|]. intros _.
  apply fails_as_bind; [apply Hj|]. intros _. apply Hf.
Qed.
Lemma inert_stop_and_clean : inert (stop_and_clean env options).
Proof. apply inert_bind; [apply inert_cluster|]. intros _. apply inert_cluster. Qed.
Lemma inert_cluster_as {A} wrap (m : HEnv → Deployment → HM A) : inert (on_cluster_as env wrap m).
Proof. apply inert_bind; [apply inert_catch, inert_cluster|]. by intros [[]|]. Qed.
Lemma inert_each {A} (f : A → XM unit) l : (∀ x, inert (f x)) → inert (for_each f l).
Proof. intros Hf. induction l as [|x l IH]; [done|]. apply inert_bind; [apply Hf|]. by intros _. Qed.
Lemma inert_require leader args e : inert (require_ok env leader args e).
Proof.
  apply inert_bind; [apply inert_cluster|]. intros _. apply inert_bind; [apply inert_cluster|]. intros r. by case_match.
Qed.
Lemma inert_wait_error m : inert m → inert (wait_error m).
Proof. intros Hm. apply inert_bind; [by apply inert_catch|]. by intros [[]|]. Qed.

(** Failing leaves an open bundle open. *)
Lemma bspec_fail {A} P e (Q : A → option Bundle → Prop) : (∀ ob, P ob → Open ob) → bspec P (failBundle env e) Q.
Proof.
  intros HP. apply (bspec_bind _ _ _ (λ _, Open)).
  { apply bspec_bundle. intros ob Hob b Hb. apply fmap_Some in Hb as (b' & -> & ->). simpl. by apply (HP _ Hob). }
  intros _. apply (bspec_bind _ _ _ (λ _, Open)); [apply bspec_inert; [done|apply inert_catch, inert_persist]|].
  by intros _ s Hs.
Qed.

(** ** The workloads of a bundle *)
Definition tag (r : WorkloadResult) : Deployment * WorkloadSpec := (wr_Deployment r, wr_Workload r).

(** What a run does not change of its bundle: the directory, and the metadata but
    for the configurations. *)
Definition without_configurations (m : Metadata) : Metadata :=
  mkMetadata (md_SchemaVersion m) (md_HarnessVersion m) (StartTime m) (GitCommit m) (GitDirty m) (md_BuildCommand m)
    (GoVersion m) (OS m) (Architecture m) (CPUCount m) (AvailableMemory m) (StoragePath m) (Filesystem m) (RandomSeed m)
    (md_Profile m) (HotRequestLogging m) (Parameters m) [] (md_Missing m).
Definition origin (b : Bundle) : gostring * Metadata * Z := (b_Dir b, without_configurations (b_Metadata b), m_SchemaVersion (b_Metrics b)).
Context (org : gostring * Metadata * Z).
Definition unfinished (b : Bundle) : Prop := b_Completed b = false ∧ origin b = org.

(** An open bundle with these workloads and such scenario results. *)
Definition Work (w : list (Deployment * WorkloadSpec)) (sc : ScenarioResults → Prop) ob : Prop :=
  ∃ b, ob = Some b ∧ unfinished b ∧ b_Error b = [] ∧ tag <$> b_Workloads b = w ∧ sc (b_Scenarios b).

Lemma Work_Open w sc ob : Work w sc ob → Open ob.
Proof. intros (b & -> & [Hc _] & _) b' [= <-]. done. Qed.

(** A step of the bundle that keeps its workloads and its scenario results. *)
Lemma bspec_keep w sc f : (∀ b, origin (f b) = origin b ∧ b_Completed (f b) = b_Completed b ∧ b_Error (f b) = b_Error b ∧
    b_Workloads (f b) = b_Workloads b ∧ b_Scenarios (f b) = b_Scenarios b) →
  bspec (Work w sc) (on_bundle f) (λ _, Work w sc).
Proof.
  intros Hf. apply bspec_bundle. intros ob (b & -> & Hc & He & Hw & Hs). exists (f b).
  destruct Hc as [Hc Ho]. destruct (Hf b) as (Eo & Ec & Ee & Ew & Es). split_and!; [done|split; congruence|congruence..|by rewrite Es].
Qed.

Lemma bspec_result w sc r : bspec (Work w sc) (on_bundle (add_result r)) (λ _, Work (w ++ [tag r]) sc).
Proof.
  apply bspec_bundle. intros ob (b & -> & Hc & He & Hw & Hs). eexists. split; [reflexivity|]. simpl.
  by rewrite fmap_app, Hw.
Qed.

Lemma bspec_scenarios w (sc sc' : ScenarioResults → Prop) f : (∀ r, sc r → sc' (f r)) →
  bspec (Work w sc) (on_bundle (set_scenarios f)) (λ _, Work w sc').
Proof.
  intros Hf. apply bspec_bundle. intros ob (b & -> & Hc & He & Hw & Hs). eexists. split; [reflexivity|]. simpl.
  split_and!; auto.
Qed.

Lemma bspec_work_inert {A} w sc (m : XM A) : inert m → bspec (Work w sc) m (λ _, Work w sc).
Proof. apply bspec_inert, Work_Open. Qed.

(** A workload's result names its deployment and workload. *)
Lemma bspec_run w sc d wl o : bspec (Work w sc) (run_workload env d wl o) (λ r ob, tag (r.1.1) = (d, wl) ∧ Work w sc ob).
Proof.
  intros s Hs. unfold run_workload, ext, mbind, GM_bind. simpl. split; [|done].
  unfold executeWorkload. by destruct (me_preload _).
Qed.

Lemma bspec_skip {A B} w sc (m : XM A) (f : A → XM B) Q : inert m → (∀ a, bspec (Work w sc) (f a) Q) →
  bspec (Work w sc) (m ≫= f) Q.
Proof. intros Hm Hf. apply (bspec_bind _ _ _ (λ _, Work w sc)); [by apply bspec_work_inert|done]. Qed.

(** Discharge a step that leaves the bundle alone. *)
Ltac inert_step :=
  apply bspec_skip;
  [apply inert_cluster || apply inert_persist || apply inert_ext || apply inert_require
    || apply inert_cluster_as || apply inert_stop_and_clean|intros ?].

Lemma bspec_or_stop w sc (m : XM unit) : inert m → bspec (Work w sc) (or_stop env options m throw) (λ _, Work w sc).
Proof.
  intros Hm. apply bspec_work_inert. apply inert_bind; [by apply inert_catch|]. intros [e|a]; [|done].
  apply inert_bind; [apply inert_stop_and_clean|]. done.
Qed.

Lemma bspec_workload w sc d leader wl :
  bspec (Work w sc) (deployment_workload env options d leader wl) (λ _, Work (w ++ [(d, wl)]) sc).
Proof.
  unfold deployment_workload. inert_step. eapply bspec_bind; [apply bspec_run|].
  intros [[result timing] runErr]. simpl.
  apply (bspec_bind _ _ _ (λ _, Work (w ++ [(d, wl)]) sc)).
  { intros s [Ht Hs]. pose proof (bspec_result w sc result s Hs) as Hr. rewrite Ht in Hr. exact Hr. }
  intros _. apply (bspec_bind _ _ _ (λ _, Work (w ++ [(d, wl)]) sc)); [apply bspec_or_stop, inert_persist|]. intros _.
  destruct runErr as [e|]; [|by intros s Hs]. inert_step. apply bspec_fail, Work_Open.
Qed.

Lemma bspec_workloads w sc d leader wls :
  bspec (Work w sc) (for_each (deployment_workload env options d leader) wls) (λ _, Work (w ++ ((d,.) <$> wls)) sc).
Proof.
  revert w. induction wls as [|wl wls IH]; intros w; [intros s Hs; by rewrite app_nil_r|].
  eapply bspec_bind; [apply bspec_workload|]. intros ?. cbv beta. specialize (IH (w ++ [(d, wl)])).
  by rewrite <- app_assoc in IH.
Qed.

Lemma bspec_configuration w sc purpose : bspec (Work w sc) (add_configuration_of env purpose) (λ _, Work w sc).
Proof. unfold add_configuration_of. inert_step. by apply bspec_keep. Qed.

Lemma bspec_metrics w sc : bspec (Work w sc) (add_cluster_metrics env) (λ _, Work w sc).
Proof. unfold add_cluster_metrics. inert_step. by apply bspec_keep. Qed.

Lemma bspec_deployment w sc wls d :
  bspec (Work w sc) (run_deployment env options logsDir wls d) (λ _, Work (w ++ ((d,.) <$> wls)) sc).
Proof.
  unfold run_deployment. apply (bspec_bind _ _ _ (λ _, Work w sc)); [apply bspec_work_inert, inert_catch, inert_start|].
  intros [e|_]; [apply bspec_fail, Work_Open|].
  apply (bspec_bind _ _ _ (λ _, Work w sc)); [apply bspec_configuration|]. intros _.
  apply (bspec_bind _ _ _ (λ _, Work w sc)); [apply bspec_or_stop, inert_persist|]. intros _.
  apply (bspec_bind _ _ _ (λ _, Work w sc)); [apply bspec_work_inert, inert_catch, inert_cluster|]. intros found.
  apply (bspec_bind _ _ _ (λ _, Work w sc)).
  { case_bool_decide; [by intros s Hs|]. destruct found as [e|i]; [|by intros s Hs]. inert_step. apply bspec_fail, Work_Open. }
  intros leader. eapply bspec_bind; [apply bspec_workloads|]. intros ?. cbv beta. inert_step.
  eapply bspec_bind; [apply bspec_metrics|]. intros ?. cbv beta. inert_step. apply bspec_work_inert, inert_persist.
Qed.

Definition plan (ds : list Deployment) (wls : list WorkloadSpec) : list (Deployment * WorkloadSpec) :=
  d ← ds; (d,.) <$> wls.

Lemma bspec_deployments w sc wls ds :
  bspec (Work w sc) (for_each (run_deployment env options logsDir wls) ds) (λ _, Work (w ++ plan ds wls) sc).
Proof.
  revert w. induction ds as [|d ds IH]; intros w; [intros s Hs; by rewrite app_nil_r|].
  eapply bspec_bind; [apply bspec_deployment|]. intros ?. cbv beta. specialize (IH (w ++ ((d,.) <$> wls))).
  by rewrite <- app_assoc in IH.
Qed.

(** *** The scenarios *)
Definition recovered (o : option RecoveryResult) : Prop := ∃ x, o = Some x ∧ rr_Success x = true.
Definition snapshot_taken (r : ScenarioResults) : Prop := ∃ x, SnapshotUnderLoad r = Some x ∧ sr_Success x = true.

Lemma bspec_snapshot w sc : bspec (Work w sc) (snapshot_scenario env options)
  (λ _, Work (w ++ [(DurableThree, scenario_workload)]) snapshot_taken).
Proof.
  unfold snapshot_scenario. inert_step. inert_step. inert_step. eapply bspec_bind; [apply bspec_run|].
  intros [[result timing] runErr]. simpl.
  apply (bspec_bind _ _ _ (λ _, Work (w ++ [(DurableThree, scenario_workload)]) sc)).
  { intros s [Ht Hs]. pose proof (bspec_result w sc result s Hs) as Hr. rewrite Ht in Hr. exact Hr. }
  intros _. inert_step.
  set (snapshot := set_snapshot_error env runErr _).
  apply (bspec_bind _ _ _ (λ _, Work (w ++ [(DurableThree, scenario_workload)])
    (λ r, ∃ x, SnapshotUnderLoad r = Some x ∧ (runErr = None → ht_err timing = None → sr_Success x = true)))).
  { apply bspec_scenarios. intros r _. exists snapshot. split; [done|]. intros -> Ht. unfold snapshot. simpl.
    by rewrite Ht. }
  intros _. inert_step. destruct runErr as [e|]; [intros s Hs; by eapply Work_Open|].
  destruct (ht_err timing) as [text|] eqn:Ht; [intros s Hs; by eapply Work_Open|].
  intros s (b & Hb & Hc & He & Hw & (x & Hx & Hok)). exists b. split_and!; [done..|]. exists x. auto.
Qed.

(** A recovery scenario's end: its result is stored, and an error ends the run. *)
Lemma bspec_store w (sc sc' : ScenarioResults → Prop) (store : RecoveryResult → ScenarioResults → ScenarioResults) err
    (k : RecoveryResult → XM unit) Q :
  (∀ x r, rr_Success x = bool_decide (err = None) → sc r → sc' (store x r)) →
  (∀ x, bspec (Work w sc') (k x) Q) →
  bspec (Work w sc) (result ← recoveryResult env err; on_bundle (set_scenarios (store result));; k result) Q.
Proof.
  intros Hst Hk. apply (bspec_bind _ _ _ (λ x ob, rr_Success x = bool_decide (err = None) ∧ Work w sc ob)).
  { intros s Hs. split; [done|exact Hs]. }
  intros x. apply (bspec_bind _ _ _ (λ _, Work w sc')); [|intros _; apply Hk].
  intros s [Hx Hs]. apply (bspec_scenarios w sc sc' (store x)); [|done]. intros r. by apply Hst.
Qed.

Lemma bspec_or_throw w (sc sc' : ScenarioResults → Prop) err wrap : (err = None → ∀ r, sc r → sc' r) →
  bspec (Work w sc) (or_throw err wrap) (λ _, Work w sc').
Proof.
  intros Hs. destruct err as [e|]; [intros s Hw; by eapply Work_Open|].
  intros s (b & Hb & Hc & He & Hw & Hsc). exists b. split_and!; auto.
Qed.

Lemma bspec_catchup w : bspec (Work w snapshot_taken) (catchup_scenario env)
  (λ _, Work w (λ r, snapshot_taken r ∧ recovered (FollowerCatchup r))).
Proof.
  unfold catchup_scenario. do 5 inert_step. apply bspec_skip; [apply inert_wait_error, inert_cluster|]. intros err.
  apply (bspec_store w _ (λ r, snapshot_taken r ∧ (err = None → recovered (FollowerCatchup r)))
    (λ x r, mkScenarios (SnapshotUnderLoad r) (Some x) (LeaderFailover r) (SnapshotLogReplay r) (FullClusterRestart r)) err).
  { intros x r Hx Hs. split; [exact Hs|]. intros ->. by exists x. }
  intros x. inert_step. apply bspec_or_throw. intros He r [Hs Hr]. auto.
Qed.

Lemma bspec_failover w : bspec (Work w (λ r, snapshot_taken r ∧ recovered (FollowerCatchup r))) (failover_scenario env)
  (λ _, Work w (λ r, snapshot_taken r ∧ recovered (FollowerCatchup r) ∧ recovered (LeaderFailover r))).
Proof.
  unfold failover_scenario. do 2 inert_step. apply bspec_skip; [apply inert_wait_error, inert_cluster|]. intros err.
  apply (bspec_store w _ (λ r, (snapshot_taken r ∧ recovered (FollowerCatchup r)) ∧ (err = None → recovered (LeaderFailover r)))
    (λ x r, mkScenarios (SnapshotUnderLoad r) (FollowerCatchup r) (Some x) (SnapshotLogReplay r) (FullClusterRestart r)) err).
  { intros x r Hx Hs. split; [exact Hs|]. intros ->. by exists x. }
  intros x. inert_step. apply (bspec_bind _ _ _
    (λ _, Work w (λ r, snapshot_taken r ∧ recovered (FollowerCatchup r) ∧ recovered (LeaderFailover r)))).
  - apply bspec_or_throw. intros He r [[Hs Hc] Hf]. auto.
  - intros _. inert_step. apply bspec_work_inert, inert_cluster.
Qed.

(** All scenarios have been run and have succeeded. *)
Definition all_recovered (r : ScenarioResults) : Prop :=
  snapshot_taken r ∧ recovered (FollowerCatchup r) ∧ recovered (LeaderFailover r) ∧ recovered (SnapshotLogReplay r) ∧
  recovered (FullClusterRestart r).

Lemma bspec_restart w :
  bspec (Work w (λ r, snapshot_taken r ∧ recovered (FollowerCatchup r) ∧ recovered (LeaderFailover r)))
    (recovery_scenario env options) (λ _, Work w all_recovered).
Proof.
  unfold recovery_scenario. do 6 inert_step.
  apply bspec_skip; [apply inert_each; intros i; apply inert_cluster_as|]. intros _.
  apply bspec_skip.
  { apply inert_wait_error, inert_bind; [apply inert_cluster|]. intros _. apply inert_each. intros i.
    apply inert_bind; [apply inert_cluster|]. intros _. apply inert_cluster. }
  intros err. apply (bspec_store w _ (λ r, (snapshot_taken r ∧ recovered (FollowerCatchup r) ∧ recovered (LeaderFailover r)) ∧
      (err = None → recovered (SnapshotLogReplay r) ∧ recovered (FullClusterRestart r)))
    (λ x r, mkScenarios (SnapshotUnderLoad r) (FollowerCatchup r) (LeaderFailover r) (Some x) (Some x)) err).
  { intros x r Hx Hs. split; [exact Hs|]. intros ->. split; by exists x. }
  intros x. inert_step. eapply bspec_bind; [apply bspec_metrics|]. intros ?. cbv beta. inert_step. inert_step.
  apply bspec_or_throw. intros He r [(Hs & Hc & Hf) Hr]. destruct (Hr He). by split_and!.
Qed.

Lemma stop_and_clean_no_error s e : fst (stop_and_clean env options s) ≠ Err e.
Proof.
  unfold stop_and_clean, stop_all, cleanup_data, on_cluster, mbind, GM_bind. destruct (rs_clusters s) as [|[d c] rest]; [done|].
  destruct (stopAll_spec (cluster_env env (length rest)) d c) as (c' & -> & _). simpl.
  unfold cleanupData, mbind, GM_bind, getS, modifyS. by repeat (case_match; simplify_eq/=).
Qed.

Lemma bspec_with_cleanup P m Q : bspec P m (λ _, Q) → bspec P (with_cleanup env options m) (λ _, Q).
Proof.
  intros Hm s Hs. specialize (Hm s Hs). unfold with_cleanup. destruct (m s) as [o s1].
  pose proof (inert_stop_and_clean s1) as Hi. pose proof (stop_and_clean_no_error s1) as Hn.
  destruct (stop_and_clean env options s1) as [[[]|e| |] s2]; simpl in Hi, Hn; try done; [by destruct o; rewrite ?Hi|].
  by destruct (Hn e).
Qed.

Lemma bspec_runScenarios w sc : bspec (Work w sc) (runScenarios env options logsDir)
  (λ _, Work (w ++ [(DurableThree, scenario_workload)]) all_recovered).
Proof.
  unfold runScenarios. apply bspec_skip; [apply inert_start|]. intros _. apply bspec_with_cleanup.
  eapply bspec_bind; [apply bspec_configuration|]. intros ?. cbv beta. inert_step.
  eapply bspec_bind; [apply bspec_snapshot|]. intros ?. cbv beta. eapply bspec_bind; [apply bspec_catchup|]. intros ?. cbv beta.
  eapply bspec_bind; [apply bspec_failover|]. intros ?. cbv beta. apply bspec_restart.
Qed.

(** What the profile asks for. *)
Definition profile_plan (profile : Profile) : list (Deployment * WorkloadSpec) :=
  plan (Deployments profile) (Workloads profile) ++
  (if Scenarios profile then [(DurableThree, scenario_workload)] else []).

Definition profile_done (profile : Profile) (b : Bundle) : Prop :=
  tag <$> b_Workloads b = profile_plan profile ∧ (Scenarios profile = true → all_recovered (b_Scenarios b)).

Lemma bspec_profile profile : bspec (Work [] any) (measure_profile env options logsDir profile)
  (λ _, Work (profile_plan profile) (λ r, Scenarios profile = true → all_recovered r)).
Proof.
  unfold measure_profile, profile_plan. eapply bspec_bind; [apply bspec_deployments|]. intros ?. cbv beta.
  destruct (Scenarios profile).
  - eapply bspec_bind; [apply bspec_catch, bspec_runScenarios|]. intros [e|x]; cbv beta; [by apply bspec_fail|].
    intros s (b & Hb & Hc & He & Hw & Hs). exists b. by split_and!.
  - intros s (b & Hb & Hc & He & Hw & _). exists b. rewrite app_nil_r. by split_and!.
Qed.

(** The files of a bundle. *)
Definition saved (b : Bundle) (files : gmap gostring gostring) : Prop :=
  ∃ tm tx, MarshalIndent metadata_codec (b_Metadata b) = Some tm ∧ MarshalIndent metrics_codec (b_Metrics b) = Some tx ∧
    files !! Path.Join [b_Dir b; §"metadata.json"] = Some (tm ++ lf) ∧
    files !! Path.Join [b_Dir b; §"metrics.json"] = Some (tx ++ lf) ∧
    files !! Path.Join [b_Dir b; §"summary.md"] = Some (renderSummary b).

Lemma write_file_ok path data s s' : write_file env path data s = (Ok tt, s') → rs_files s' = <[path := data]> (rs_files s).
Proof.
  unfold write_file, ext, mbind, GM_bind. cbn [fst snd]. destruct (file_fault env (rs_ext s)) as [[partial|]|]; [done..|].
  by intros [= <-].
Qed.

Lemma write_json_ok {A} (c : Codec A) path x s s' : write_json env c path x s = (Ok tt, s') →
  ∃ text, MarshalIndent c x = Some text ∧ ∀ p, p ≠ path ++ §".tmp" →
    rs_files s' !! p = if bool_decide (p = path) then Some (text ++ lf) else rs_files s !! p.
Proof.
  unfold write_json. destruct (MarshalIndent c x) as [text|]; [|done]. intros E. exists text. split; [done|]. intros p Hp.
  apply gm_bind_inv in E as ([] & s1 & E1 & E2). apply write_file_ok in E1. unfold rename_file in E2.
  unfold ext, mbind, GM_bind in E2. cbn [fst snd] in E2. destruct (file_fault env (rs_ext s1)); [done|].
  injection E2 as <-. cbn [rs_files]. rewrite E1, lookup_insert_eq. case_bool_decide as Hpp.
  - subst p. by rewrite lookup_insert_eq.
  - by rewrite lookup_insert_ne, lookup_delete_ne, lookup_insert_ne by done.
Qed.

Lemma persist_saves b s s' : rs_bundle s = Some b → persistBundle env s = (Ok tt, s') → saved b (rs_files s').
Proof.
  intros Hb E. unfold persistBundle in E. rewrite gm_bind_getS, Hb in E.
  apply gm_bind_inv in E as ([] & s1 & E1 & E). apply gm_bind_inv in E as ([] & s2 & E2 & E3).
  destruct (write_json_ok _ _ _ _ _ E1) as (tm & Em & L1). destruct (write_json_ok _ _ _ _ _ E2) as (tx & Ex & L2).
  apply write_file_ok in E3. destruct (Join_prefix (b_Dir b)) as [p Hp]. exists tm, tx. split; [done|]. split; [done|].
  rewrite E3. rewrite !Hp in * by (by split_and!; [..|apply (bool_decide_unpack _)]). rewrite <- !app_assoc in L1, L2.
  assert (Hne : ∀ x y, x ≠ y → p ++ x ≠ p ++ y) by (intros x y Hxy ?%app_inv_head; done).
  rewrite lookup_insert_eq, !lookup_insert_ne by by apply Hne. split_and!; [| |done].
  - rewrite L2 by by apply Hne. rewrite bool_decide_false by by apply Hne. rewrite L1 by by apply Hne. by rewrite bool_decide_true.
  - rewrite L2 by by apply Hne. by rewrite bool_decide_true.
Qed.

(** A whole run ends so. *)
Definition run_ends (profile : Profile) (r : outcome RunError unit * RunState) : Prop :=
  match r with
  | (Ok _, s) => ∃ b, rs_bundle s = Some b ∧ origin b = org ∧ saved b (rs_files s) ∧ b_Completed b = true ∧ b_Error b = [] ∧ profile_done profile b
  | (Err e, s) => ∀ b, rs_bundle s = Some b → b_Completed b = true →
      e = RPersist ∧ b_Error b = [] ∧ profile_done profile b
  | _ => True
  end.

Lemma run_ends_bind {A} profile P (m : XM A) (f : A → XM unit) Q : bspec P m Q →
  (∀ a s, Q a (rs_bundle s) → run_ends profile (f a s)) → ∀ s, P (rs_bundle s) → run_ends profile ((m ≫= f) s).
Proof.
  intros Hm Hf s Hs. specialize (Hm s Hs). unfold mbind, GM_bind. destruct (m s) as [[a|e| |] s1]; try done; [by apply Hf|].
  intros b Hb Hc. by rewrite (Hm b Hb) in Hc.
Qed.

Lemma run_profile_ends profile s : Work [] any (rs_bundle s) → run_ends profile (run_profile env options logsDir profile s).
Proof.
  unfold run_profile. revert s. apply (run_ends_bind _ _ _ _ _ (bspec_profile profile)).
  intros _ s (b & Hb & [Hc Ho] & He & Hw & Hs). unfold on_bundle. rewrite gm_bind_modifyS, Hb.
  set (s1 := mkRun _ _ _ _). pose proof (inert_persist s1) as Hi. pose proof (persist_fails_as s1) as Hp.
  destruct (persistBundle env s1) as [[[]|e| |] s2] eqn:Ep; simpl in Hi; [| |done..].
  - eexists. split; [exact Hi|]. split; [exact Ho|]. split; [exact (persist_saves _ s1 s2 eq_refl Ep)|]. by split_and!.
  - intros b'. rewrite Hi. intros [= <-] _. by split_and!.
Qed.

Lemma bspec_fail_unless w sc ok e : bspec (Work w sc) (fail_unless env ok e) (λ _, Work w sc).
Proof. destruct ok; [by intros s Hs|]. apply bspec_fail, Work_Open. Qed.
End bundles.

(** ** Theorems *)
Section theorems.
Context `{FloatToInt} `{TimeParse} (env : RunEnv) (options : Options).

(** Whatever fails, [Run] returns and its clusters are stopped. *)
Lemma run_idle : (∀ k, listeners_distinct (cluster_env env k)) → (∀ k, temp_dir_ok (cluster_env env k)) →
  spec (Idle env (setDefaults options)) (Run env options) (λ _, Idle env (setDefaults options)) (Idle env (setDefaults options)).
Proof.
  intros Hl Ht. unfold Run. destruct (ResolveProfile _) as [profile|]; [|apply spec_throw].
  destruct (collectMetadata _ _); [|apply spec_throw]. destruct (mkdir_ok env); [|apply spec_throw]. cbn [negb].
  apply (spec_bind _ _ _ (λ _, Idle env (setDefaults options))); [by intros s|]. intros _.
  apply (spec_bind _ _ _ (λ _, Idle env (setDefaults options))); [apply spec_persist|]. intros _.
  do 2 (apply (spec_bind _ _ _ (λ _, Idle env (setDefaults options)));
    [unfold fail_unless; case_match; [apply spec_ret|apply spec_fail]|intros _]).
  by apply spec_profile.
Qed.

(** C29. A run leaves nothing behind.  Whatever fails, on whatever machine,
    [Run] returns, with or without an error; then no server process it started
    is running, and the directory of every cluster it started has been removed
    unless the data is to be kept, or [os.RemoveAll] itself fails on it, whose error
    the code drops. *)
Theorem run_cleans_up :
  (∀ k, listeners_distinct (cluster_env env k)) → (∀ k, temp_dir_ok (cluster_env env k)) →
  let '(o, s) := Run env options before_run in
  (o = Ok tt ∨ ∃ e, o = Err e) ∧
  Forall (λ x, Forall (λ n, cmd n = None) (nodes (snd x)) ∧
    (KeepData options = false → ∀ root, dataRoot (snd x) = Some root →
      ∃ k, (Path.Clean root, remove_all (cluster_env env k) (Path.Clean root)) ∈ removed (snd x))) (rs_clusters s).
Proof.
  intros Hl Ht. pose proof (run_idle Hl Ht before_run (Forall_nil_2 _)) as Hs.
  destruct (Run env options before_run) as [[[]|e| |] s]; try done.
  - split; [by left|exact Hs].
  - split; [right; by eexists|exact Hs].
Qed.

(** How a run ends that has a profile, metadata and a directory. *)
Lemma run_ends_so profile metadata :
  let o := setDefaults options in
  ResolveProfile (o_Profile o) = Some profile → collectMetadata (host env) o = Some metadata → mkdir_ok env = true →
  run_ends (result_dir o metadata, without_configurations metadata, SchemaVersion) profile (Run env options before_run).
Proof.
  intros o Hp Hm Hd. unfold Run. fold o. rewrite Hp, Hm, Hd. cbn [negb]. set (org := (_, _, SchemaVersion)).
  assert (Hnew : Work org [] any (Some (mkBundle (result_dir o metadata) metadata new_metrics))) by (by eexists).
  rewrite gm_bind_modifyS. set (s0 := mkRun _ _ _ _). assert (Hs : Work org [] any (rs_bundle s0)) by apply Hnew.
  clearbody s0. revert s0 Hs.
  apply (run_ends_bind _ _ _ _ _ _ (bspec_work_inert org [] any _ (inert_persist env))). intros _.
  apply (run_ends_bind _ _ _ _ _ _ (bspec_fail_unless env org [] any _ _)). intros _.
  apply (run_ends_bind _ _ _ _ _ _ (bspec_fail_unless env org [] any _ _)). intros _.
  intros s Hs. by apply run_profile_ends.
Qed.

(** C30. When a bundle is marked as completed.  If [Run] succeeds, its bundle is
    completed and has no error; a completed bundle, which otherwise exists only
    when its very last write failed, has one result for each workload of the
    profile on each deployment, in the order of the profile, then the one under
    which the snapshot was taken; and all scenarios were run and
    succeeded.  A profile that does not exist ends the run before it begins. *)
Theorem run_completed :
  match ResolveProfile (o_Profile (setDefaults options)) with
  | None => Run env options before_run = (Err (RProfile (o_Profile (setDefaults options))), before_run)
  | Some profile =>
      match Run env options before_run with
      | (Ok _, s) => ∃ b, rs_bundle s = Some b ∧ b_Completed b = true ∧ b_Error b = [] ∧ profile_done profile b
      | (Err e, s) => ∀ b, rs_bundle s = Some b → b_Completed b = true →
          e = RPersist ∧ b_Error b = [] ∧ profile_done profile b
      | _ => True
      end
  end.
Proof.
  destruct (ResolveProfile _) as [profile|] eqn:Hp; [|unfold Run; by rewrite Hp].
  destruct (collectMetadata (host env) (setDefaults options)) as [metadata|] eqn:Hm; [|unfold Run; by rewrite Hp, Hm].
  destruct (mkdir_ok env) eqn:Hd; [|unfold Run; by rewrite Hp, Hm, Hd].
  pose proof (run_ends_so profile metadata Hp Hm Hd) as Hr. unfold run_ends in Hr.
  destruct (Run env options before_run) as [[[]|e| |] s]; [|done..]. destruct Hr as (b & Hb & _ & _ & Hr). by exists b.
Qed.
End theorems.

(** ** Witnesses *)
#[local] Instance zero_in_run : FloatToInt := λ _, 0%Z.

(** A machine on which everything works; a read returns every value the
    scenarios look for. *)
Definition ideal_response (args : list gostring) : gostring :=
  match args with
  | [_; _] => concat ((λ n, CRLF ++ Itoa (Z.of_nat n)) <$> seq 0 200) ++ CRLF ++ §"captured" ++ CRLF ++ §"replayed" ++ CRLF
  | _ => if bool_decide (args = [§"PING"]) then §"+PONG" ++ CRLF else §"+OK" ++ CRLF
  end.

Definition ideal : HEnv := {|
  TempDir := §"/tmp";
  mkdir_temp _ := Some 7%N;
  listen k := Some (N.of_nat k + 100)%N;
  system_call _ := true;
  pid_of k := N.of_nat k;
  proc_io _ := None;
  on_linux := true;
  before_deadline _ := true;
  response_to args _ := Some (ideal_response args);
  sampled _ := mkSampled [] None;
  remove_all _ := true;
|}.

#[local] Instance strict_in_run : TimeParse := λ _, None.

Definition ideal_host : Host := mkHost 1753800000123000000 (Some (§"0123456789abcdef" ++ lf)) (Some []) §"go1.22" §"linux" §"amd64" 4
  (λ _, true) (λ _, Some (§"Filesystem" ++ lf ++ §"/dev/sda1 1 2 /data")) (Some §"MemAvailable: 100 kB") None.

Definition ideal_run (fault : nat → option (option gostring)) : RunEnv := mkRunEnv (λ _, ideal) ideal_host true true true fault
  (λ _, mkMeasured None [] true (mkTiming 0 1000 None) 250000000 None)
  (λ root _, [WDir; WFile (Some 300%N)]) (λ _, 1000%Z) (λ _, []) (λ _, []) (λ _, []).

Definition smoke_options : Options := mkOptions [] [] [] [] 0 0 0 0 0 false.

Lemma ideal_distinct : listeners_distinct ideal.
Proof. intros j k p Hj [= <-] [=]. lia. Qed.

Lemma ideal_temp : temp_dir_ok ideal.
Proof. by split. Qed.

(** A write of the bundle fails while the second cluster runs. *)
Definition failing_run : RunEnv := ideal_run (λ k, if bool_decide (k = 33) then Some None else None).

Lemma failing_run_outcome :
  let '(o, s) := Run failing_run smoke_options before_run in o = Err RPersist ∧ length (rs_clusters s) = 2.
Proof. vm_compute. done. Qed.

Lemma run_cleans_up_witness :
  let '(o, s) := Run failing_run smoke_options before_run in
  (o = Err RPersist ∧ length (rs_clusters s) = 2) ∧
  (o = Ok tt ∨ ∃ e, o = Err e) ∧
  Forall (λ x, Forall (λ n, cmd n = None) (nodes (snd x)) ∧
    (KeepData smoke_options = false → ∀ root, dataRoot (snd x) = Some root →
      ∃ k, (Path.Clean root, remove_all (cluster_env failing_run k) (Path.Clean root)) ∈ removed (snd x))) (rs_clusters s).
Proof.
  generalize (run_cleans_up failing_run smoke_options (λ _, ideal_distinct) (λ _, ideal_temp)).
  generalize failing_run_outcome. destruct (Run failing_run smoke_options before_run) as [o s].
  intros Ho Hr. exact (conj Ho Hr).
Defined.

(** The smoke profile on that machine: three deployments and the scenarios. *)
Example ideal_run_completes :
  match Run (ideal_run (λ _, None)) smoke_options before_run with
  | (Ok _, s) => from_option (λ b, length (b_Workloads b)) 0 (rs_bundle s) = 4 ∧ length (rs_clusters s) = 4
  | _ => False
  end.
Proof. vm_compute. done. Qed.

(** The source's own test of [analyzeSnapshot]. *)
Example analyze_test :
  let bucket a b ops p99 := mkInterval (of_int a) (of_int b) ops fzero (of_int p99) in
  let r := analyzeSnapshot [bucket 0 100 100%N 10; bucket 100 200 50%N 30; bucket 200 300 100%N 12]%Z
             (mkTiming (120 * Millisecond) (180 * Millisecond) None) 100 180 in
  SizeBytes r = 80%N ∧ BaselineThroughput r = of_int 1000 ∧ SnapshotThroughput r = of_int 500 ∧
  ForegroundThroughputChange r = of_int (-50) ∧ MaximumP99US r = of_int 30.
Proof. vm_compute. done. Qed.
