(* ===== verification/Report.v ===== *)
(** * From a run to a comparison

    [Run] writes its bundle to files and [Compare] reads the files of two runs; here
    the two are put together.  A bundle that was written is loaded again
    ([result_reloads]), and two runs of the same experiment on machines of the
    same kind are found comparable, with each metric of the one beside the same metric of
    the other ([runs_comparable]). *)

From S2P Require Import Prelude GoLib Resp MemDB CmdExecutor Utf8 Json Fsm RespServer Client Config CommandLine Identity Startup Float64 FloatText JsonCodec Rfc3339 Workload Harness Measure Results Host Compare Run.
From Stdlib Require Import SpecFloat.

(** ** What comes back from the files *)

(** The values of a bundle are values of their Go types, the floats are finite and
    the time has a year of four digits. *)
Definition representable `{TimeParse} (b : Bundle) : bool :=
  c_ok metadata_codec (b_Metadata b) && c_ok metrics_codec (b_Metrics b).

Definition reloaded `{TimeParse} (b : Bundle) : Metadata * Metrics :=
  (c_reread metadata_codec (b_Metadata b), c_reread metrics_codec (b_Metrics b)).

(** ** Keys of metrics *)
Definition metrics_of (r : WorkloadResult) : list (gostring * comparableValue) :=
  [(§"throughput", mkValue (wr_Throughput r) §"ops/s"); (§"GET-p99", mkValue (op_p99 r §"GET") §"us");
   (§"SET-p99", mkValue (op_p99 r §"SET") §"us")].
Definition metric_key (r : WorkloadResult) (kind : gostring) : gostring := value_prefix r ++ §"/" ++ kind.

Lemma add_workload_metrics values r : add_workload values r =
  foldl (λ values m, <[metric_key r (fst m) := snd m]> values) values (metrics_of r).
Proof. done. Qed.

(** The parts of a key: deployment, workload, size and kind. *)
Definition key_parts (t : Deployment * WorkloadSpec) (kind : gostring) : list gostring :=
  [fst t; wl_Name (snd t); Itoa (ValueSize (snd t)) ++ §"B"; kind].

Definition sep_free (t : Deployment * WorkloadSpec) : bool :=
  bool_decide (Path.sep ∉ fst t) && bool_decide (Path.sep ∉ wl_Name (snd t)).

Lemma Itoa_nosep z : Path.sep ∉ Itoa z.
Proof.
  unfold Itoa. destruct (Z.ltb_spec z 0) as [Hz|Hz].
  - destruct (udec_spec (- z)) as (_ & Hd & _); [lia|]. pose proof (forallb_is_digit_nosep _ Path.sep Hd eq_refl). set_solver.
  - destruct (udec_spec z Hz) as (_ & Hd & _). by apply (forallb_is_digit_nosep _ Path.sep Hd).
Qed.

Lemma Itoa_inj z z' : Itoa z = Itoa z' → z = z'.
Proof.
  assert (Hm : ∀ n, (0 ≤ n)%Z → "-"%char ∉ udec n).
  { intros n Hn. destruct (udec_spec n Hn) as (_ & Hd & _). by apply (forallb_is_digit_nosep _ _ Hd). }
  unfold Itoa. destruct (Z.ltb_spec z 0) as [Hz|Hz], (Z.ltb_spec z' 0) as [Hz'|Hz']; intros E.
  - injection E as E%udec_inj; lia.
  - exfalso. apply (Hm z' Hz'). rewrite <- E. left.
  - exfalso. apply (Hm z Hz). rewrite E. left.
  - by apply udec_inj.
Qed.

Lemma split_key r kind : sep_free (tag r) = true → Path.sep ∉ kind →
  Path.split (metric_key r kind) = key_parts (tag r) kind.
Proof.
  unfold sep_free. intros [Hd%bool_decide_eq_true Hn%bool_decide_eq_true]%andb_true_iff Hk. simpl in Hd, Hn.
  unfold metric_key, value_prefix, key_parts. simpl fst. simpl snd. rewrite <- !app_assoc.
  assert (slash : ∀ s : gostring, §"/" ++ s = Path.sep :: s) by done. rewrite !slash. rewrite Path.split_app, (Path.split_plain (wr_Deployment r)) by done.
  rewrite Path.split_app, (Path.split_plain (wl_Name _)) by done. rewrite (app_assoc (Itoa _)), Path.split_app, (Path.split_plain kind) by done.
  rewrite Path.split_plain; [done|]. pose proof (Itoa_nosep (ValueSize (wr_Workload r))) as Hi.
  assert (Path.sep ∉ §"B") by (by apply (bool_decide_unpack _)). set_solver.
Qed.

Definition kinds : list gostring := [§"throughput"; §"GET-p99"; §"SET-p99"].

Lemma kinds_nosep kind : kind ∈ kinds → Path.sep ∉ kind.
Proof. revert kind. apply Forall_forall, (bool_decide_unpack _). vm_compute. exact I. Qed.

(** The key of a plan's entry. *)
Definition plan_key (t : Deployment * WorkloadSpec) : gostring * gostring * Z := (fst t, wl_Name (snd t), ValueSize (snd t)).

Lemma metric_key_inj r r' kind kind' : sep_free (tag r) = true → sep_free (tag r') = true → kind ∈ kinds → kind' ∈ kinds →
  metric_key r kind = metric_key r' kind' → plan_key (tag r) = plan_key (tag r') ∧ kind = kind'.
Proof.
  intros Hr Hr' Hk Hk' E. apply (f_equal Path.split) in E. rewrite !split_key in E by (auto using kinds_nosep).
  unfold key_parts in E. injection E as Ed En Es Ek. split; [|done]. apply app_inv_tail, Itoa_inj in Es.
  unfold plan_key, tag. simpl in *. by rewrite Ed, En, Es.
Qed.

(** ** Values of metrics *)

(** A metric of the scenarios has another key. *)
Lemma scenario_key r kind suffix : sep_free (tag r) = true → wr_Deployment r ≠ §"scenario" → kind ∈ kinds →
  metric_key r kind ≠ §"scenario/" ++ suffix.
Proof.
  intros Hs Hd Hk E. apply (f_equal Path.split) in E. rewrite split_key in E by auto using kinds_nosep.
  change (§"scenario/" ++ suffix) with (§"scenario" ++ Path.sep :: suffix) in E. rewrite Path.split_app in E.
  change (Path.split §"scenario") with [§"scenario"] in E. by injection E.
Qed.

Section values.
Context (ws : list WorkloadResult).

(** The results have different keys, which are no keys of scenarios. *)
Definition well_named (ts : list (Deployment * WorkloadSpec)) : bool :=
  bool_decide (NoDup (plan_key <$> ts)) && forallb sep_free ts && forallb (λ t, bool_decide (fst t ≠ §"scenario")) ts.

Lemma workload_value r kind x : well_named (tag <$> ws) = true → r ∈ ws → (kind, x) ∈ metrics_of r →
  foldl add_workload ∅ ws !! metric_key r kind = Some x.
Proof.
  unfold well_named. rewrite !andb_true_iff. intros [[Hnd%bool_decide_eq_true Hs] _] Hr Hm.
  assert (Hk : kind ∈ kinds) by (apply (list_elem_of_fmap_2 fst) in Hm; exact Hm).
  apply Is_true_true, forallb_True in Hs. rewrite <- list_fmap_compose in Hnd. rewrite Forall_fmap in Hs.
  induction ws as [|r' l IH] using rev_ind; [by apply elem_of_nil in Hr|].
  rewrite foldl_snoc, add_workload_metrics. rewrite fmap_app in Hnd. apply NoDup_app in Hnd as (Hnd & Hfresh & _).
  apply Forall_app in Hs as [Hs [Hs' _]%Forall_cons]. apply Is_true_true in Hs'. apply elem_of_app in Hr as [Hr|Hr].
  - assert (Hne : ∀ k, k ∈ kinds → metric_key r' k ≠ metric_key r kind).
    { intros k Hk' E. apply metric_key_inj in E as [E _]; [|done| |done|done].
      - apply (Hfresh (plan_key (tag r))); [by apply (list_elem_of_fmap_2 (λ r, plan_key (tag r)))|]. rewrite <- E. left.
      - rewrite Forall_forall in Hs. by apply Is_true_true, Hs. }
    unfold metrics_of. cbn [foldl fst snd]. rewrite !lookup_insert_ne by (apply Hne; unfold kinds; set_solver). by apply IH.
  - apply list_elem_of_singleton in Hr as ->. clear IH.
    assert (Hne : ∀ k k', k ∈ kinds → k' ∈ kinds → k ≠ k' → metric_key r' k ≠ metric_key r' k').
    { intros k k' Hk1 Hk2 Hkk E. by apply metric_key_inj in E as [_ ?]. }
    unfold metrics_of in *. cbn [foldl fst snd]. rewrite !elem_of_cons, elem_of_nil in Hm.
    destruct Hm as [[= -> ->]|[[= -> ->]|[[= -> ->]|[]]]].
    + rewrite !lookup_insert_ne by (apply Hne; [unfold kinds; set_solver..|done]). by rewrite lookup_insert_eq.
    + rewrite lookup_insert_ne by (apply Hne; [unfold kinds; set_solver..|done]). by rewrite lookup_insert_eq.
    + by rewrite lookup_insert_eq.
Qed.
End values.

(** The values of a result survive those of the scenarios. *)
Lemma comparison_value x r kind v : well_named (tag <$> m_Workloads x) = true → r ∈ m_Workloads x → (kind, v) ∈ metrics_of r →
  comparisonValues x !! metric_key r kind = Some v.
Proof.
  intros Hw Hr Hm. pose proof (workload_value (m_Workloads x) r kind v Hw Hr Hm) as Hv.
  unfold well_named in Hw. rewrite !andb_true_iff in Hw. destruct Hw as [[_ Hs] Hd].
  apply Is_true_true, forallb_True in Hs, Hd. rewrite Forall_fmap, Forall_forall in Hs, Hd.
  specialize (Hs r Hr). apply Is_true_true in Hs. specialize (Hd r Hr). apply bool_decide_unpack in Hd.
  assert (Hk : kind ∈ kinds) by (apply (list_elem_of_fmap_2 fst) in Hm; exact Hm).
  assert (Hne : ∀ suffix, §"scenario/" ++ suffix ≠ metric_key r kind) by (intros suffix E; by eapply scenario_key).
  unfold comparisonValues. set (values := foldl add_workload ∅ (m_Workloads x)) in *. clearbody values.
  assert (Hsn : add_snapshot (SnapshotUnderLoad (m_Scenarios x)) values !! metric_key r kind = Some v).
  { unfold add_snapshot. destruct (SnapshotUnderLoad (m_Scenarios x)); [|done].
    by rewrite !lookup_insert_ne by apply (Hne §"snapshot/max-p99") || apply (Hne §"snapshot/throughput-impact") ||
      apply (Hne §"snapshot/duration"). }
  set (items := [_; _; _; _]). clearbody items. revert Hsn. generalize (add_snapshot (SnapshotUnderLoad (m_Scenarios x)) values).
  induction items as [|[name o] items IH]; intros vs Hvs; [done|]. simpl. apply IH. unfold add_recovery. simpl.
  destruct o; [|done]. by rewrite lookup_insert_ne by apply Hne.
Qed.

(** ** Sets of metrics *)
Lemma dom_workloads ws1 ws2 v1 v2 : tag <$> ws1 = tag <$> ws2 → dom v1 = dom v2 →
  dom (foldl add_workload v1 ws1) = dom (foldl add_workload v2 ws2).
Proof.
  revert ws2 v1 v2. induction ws1 as [|r1 ws1 IH]; intros [|r2 ws2] v1 v2 Ht Hv; try done. simpl in *. injection Ht as Hd Hw Ht.
  apply IH; [done|]. unfold add_workload, value_prefix. rewrite !dom_insert_L, Hd, Hw, Hv. done.
Qed.

Definition shape (s : ScenarioResults) : bool * (bool * bool * bool * bool) :=
  (nil_pointer (SnapshotUnderLoad s), (nil_pointer (FollowerCatchup s), nil_pointer (LeaderFailover s),
   nil_pointer (SnapshotLogReplay s), nil_pointer (FullClusterRestart s))).

Lemma dom_values x1 x2 : tag <$> m_Workloads x1 = tag <$> m_Workloads x2 → shape (m_Scenarios x1) = shape (m_Scenarios x2) →
  dom (comparisonValues x1) = dom (comparisonValues x2).
Proof.
  intros Ht Hs. pose proof (dom_workloads _ _ ∅ ∅ Ht eq_refl) as Hd. unfold comparisonValues.
  set (v1 := foldl add_workload ∅ (m_Workloads x1)) in *. set (v2 := foldl add_workload ∅ (m_Workloads x2)) in *.
  clearbody v1 v2. destruct (m_Scenarios x1) as [a1 b1 c1 d1 e1], (m_Scenarios x2) as [a2 b2 c2 d2 e2].
  unfold shape in Hs. cbn [SnapshotUnderLoad FollowerCatchup LeaderFailover SnapshotLogReplay FullClusterRestart] in *.
  injection Hs as Ha Hb Hc Hdd He.
  assert (Hr : ∀ name o1 o2 w1 w2, nil_pointer o1 = nil_pointer o2 → dom w1 = dom w2 →
    dom (add_recovery w1 (name, o1)) = dom (add_recovery w2 (name, o2))).
  { intros name [] [] w1 w2 Ho Hw; try done. unfold add_recovery. simpl. by rewrite !dom_insert_L, Hw. }
  cbn [foldl]. repeat apply Hr; try done. unfold add_snapshot. destruct a1, a2; try done. by rewrite !dom_insert_L, Hd.
Qed.

(** ** What the files keep *)
Definition valid_tag (t : Deployment * WorkloadSpec) : bool :=
  bool_decide (valid_utf8 (fst t)) && bool_decide (valid_utf8 (wl_Name (snd t))).

Lemma reread_tag r : valid_tag (tag r) = true → tag (c_reread result_codec r) = tag r.
Proof.
  unfold valid_tag. intros [Hd%bool_decide_eq_true Hn%bool_decide_eq_true]%andb_true_iff. simpl in Hd, Hn.
  destruct r as [d [n g p z] c e f h i j k l m o]. simpl in Hd, Hn.
  change (tag (c_reread result_codec _)) with (to_valid d, mkWorkload (to_valid n) g p z). by rewrite Hd, Hn.
Qed.

Lemma reread_metrics r : metrics_of (c_reread result_codec r) = metrics_of r.
Proof.
  assert (Ho : ∀ o, op_p99 (c_reread result_codec r) o = op_p99 r o).
  { intros o. unfold op_p99. change (wr_Operations (c_reread result_codec r)) with (option_map (reread_map op_codec) (wr_Operations r)).
    destruct (wr_Operations r) as [m|]; [|done].
    change (from_option P99US fzero ((c_reread op_codec <$> m) !! o) = from_option P99US fzero (m !! o)). rewrite lookup_fmap.
    by destruct (m !! o). }
  unfold metrics_of. by rewrite !Ho.
Qed.

Lemma reread_key r kind : valid_tag (tag r) = true → metric_key (c_reread result_codec r) kind = metric_key r kind.
Proof.
  intros Ht. apply reread_tag in Ht. unfold tag in Ht. set (r' := c_reread result_codec r) in *. clearbody r'.
  injection Ht as Hd Hw. unfold metric_key, value_prefix. by rewrite Hd, Hw.
Qed.

Lemma reread_shape s : shape (c_reread scenario_codec s) = shape s.
Proof. destruct s as [[] [] [] [] []]; reflexivity. Qed.

Lemma reread_tags ws : Forall (λ r, valid_tag (tag r) = true) ws → tag <$> map (c_reread result_codec) ws = tag <$> ws.
Proof. induction 1 as [|r ws Hr _ IH]; [done|]. simpl. f_equal; [by apply reread_tag|exact IH]. Qed.

(** The parameters of a run, read from its file, are equal to those of another run
    with the same options. *)
Lemma finite_equal x : is_finite x = true → SFeqb x x = true.
Proof.
  destruct x as [[]| | |[] m e]; try done; intros _; unfold SFeqb, SFcompare; by rewrite Z.compare_refl, Pos.compare_cont_refl.
Qed.

Lemma ParseFloat_finite s x : ParseFloat s = Some x → is_finite x = true.
Proof.
  assert (Hd : ∀ neg v t, (if is_finite (decimal_value neg v t) then Some (decimal_value neg v t) else None) = Some x → is_finite x = true).
  { intros neg v t. destruct (is_finite _) eqn:Ef; [|done]. by intros [= <-]. }
  unfold ParseFloat. destruct (after "-" s) as [r|]; destruct (take_digits _) as [i s2];
    destruct (after "." s2) as [r2|]; try destruct (take_digits r2) as [f s3];
    intros (e & _ & E)%bind_Some; exact (Hd _ _ _ E).
Qed.

Lemma any_reread_equal a : c_ok any_codec a = true → any_equal (c_reread any_codec a) (c_reread any_codec a) = true.
Proof.
  destruct a as [|[]|x|z|s|l|l]; try done; cbn [any_codec c_ok c_reread]; intros Hx.
  - apply finite_equal. by apply andb_true_iff in Hx as [? _].
  - destruct (ParseFloat (Itoa z)) as [x|] eqn:E; [|done]. apply finite_equal. by eapply ParseFloat_finite.
  - by apply bool_decide_true.
Qed.

Lemma params_reread_equal m : c_ok (map_codec any_codec) m = true →
  params_equal (c_reread (map_codec any_codec) m) (c_reread (map_codec any_codec) m) = true.
Proof.
  destruct m as [m|]; [|done]. intros Hm. cbn [map_codec c_ok c_reread option_map params_equal] in *.
  rewrite bool_decide_true by done. apply Is_true_true, forallb_True, Forall_forall. intros [k v] Hkv%elem_of_map_to_list.
  rewrite Hkv. unfold reread_map in Hkv. apply lookup_fmap_Some in Hkv as (a & <- & Ha). apply Is_true_true, any_reread_equal.
  apply Is_true_true, forallb_True in Hm. rewrite Forall_forall in Hm.
  specialize (Hm (k, a) (proj2 (elem_of_map_to_list _ _ _) Ha)). apply Is_true_true in Hm. unfold entry_ok in Hm.
  by apply andb_true_iff in Hm as [_ ?].
Qed.

(** ** Theorems *)

(** The names of the workloads of a profile. *)
Lemma plan_names name profile : ResolveProfile name = Some profile →
  well_named (profile_plan profile) = true ∧ Forall (λ t, valid_tag t = true) (profile_plan profile) ∧ Scenarios profile = true.
Proof.
  assert (H : ∀ p, well_named (profile_plan p) && forallb valid_tag (profile_plan p) && Scenarios p = true →
    well_named (profile_plan p) = true ∧ Forall (λ t, valid_tag t = true) (profile_plan p) ∧ Scenarios p = true).
  { intros p. rewrite !andb_true_iff. intros [[H1 H2%Is_true_true%forallb_True] H3]. split_and!; [done| |done].
    eapply Forall_impl; [exact H2|]. intros t. apply Is_true_true. }
  unfold ResolveProfile. repeat case_bool_decide; intros [= <-]; apply H; vm_compute; reflexivity.
Qed.

(** What is known after a run that succeeded. *)
Lemma run_success `{FloatToInt} `{TimeParse} env options s : Run env options before_run = (Ok tt, s) →
  let o := setDefaults options in
  ∃ profile metadata b, ResolveProfile (o_Profile o) = Some profile ∧ collectMetadata (host env) o = Some metadata ∧
    rs_bundle s = Some b ∧ origin b = (result_dir o metadata, without_configurations metadata, SchemaVersion) ∧
    saved b (rs_files s) ∧ Completed (b_Metrics b) = true ∧ profile_done profile b.
Proof.
  intros E o. assert (E' := E). unfold Run in E'. fold o in E'.
  destruct (ResolveProfile (o_Profile o)) as [profile|] eqn:Hp; [|done].
  destruct (collectMetadata (host env) o) as [metadata|] eqn:Hm; [|done].
  destruct (mkdir_ok env) eqn:Hd; [|done]. clear E'.
  pose proof (run_ends_so env options profile metadata Hp Hm Hd) as Hr. rewrite E in Hr.
  destruct Hr as (b & Hb & Ho & Hs & Hc & _ & Hdone). by exists profile, metadata, b.
Qed.

Lemma loads `{FloatToInt} `{TimeParse} env options s b read :
  Run env options before_run = (Ok tt, s) → rs_bundle s = Some b → representable b = true →
  (∀ path data, rs_files s !! path = Some data → read path = Some data) →
  loadResult read (b_Dir b) = inr (reloaded b).
Proof.
  intros E Hb [Hm Hx]%andb_true_iff Hread.
  destruct (run_success env options s E) as (profile & metadata & b' & _ & Hmd & Hb' & Ho & Hs & _ & _).
  assert (b' = b) as -> by congruence. destruct Hs as (tm & tx & Etm & Etx & Lm & Lx & _).
  injection Ho as _ Hv _ _ _ _ _ _ _ _ _ _ _ _ _ _ _ _ _ Hv'.
  apply (loadResult_written read (b_Dir b) _ _ tm tx); auto.
  unfold collectMetadata in Hmd. rewrite Hv. by repeat (apply bind_Some in Hmd as (? & _ & Hmd)); injection Hmd as <-.
Qed.

(** C31. A run's result is read back.  When [Run] succeeds, and the values of its
    bundle can be represented in JSON, [loadResult] reads from the directory of the
    bundle, as long as its files are there, exactly the metadata and metrics of the bundle, up
    to the repair of strings and the integers of the parameters, which come back as
    floats. *)
Theorem result_reloads `{FloatToInt} `{TimeParse} env options s b read :
  Run env options before_run = (Ok tt, s) → rs_bundle s = Some b → representable b = true →
  (∀ path data, rs_files s !! path = Some data → read path = Some data) →
  loadResult read (b_Dir b) = inr (reloaded b).
Proof. apply loads. Qed.

(** The options that make an experiment, and what makes a kind of machine. *)
Record same_experiment (o1 o2 : Options) : Prop := {
  se_profile : o_Profile o1 = o_Profile o2;
  se_seed : Seed o1 = Seed o2;
  se_duration : Duration o1 = Duration o2;
  se_warmup : Warmup o1 = Warmup o2;
  se_concurrency : Concurrency o1 = Concurrency o2;
  se_pipeline : PipelineDepth o1 = PipelineDepth o2;
}.

Record same_machine (h1 h2 : Host) : Prop := {
  sm_go : go_version h1 = go_version h2;
  sm_os : goos h1 = goos h2;
  sm_arch : goarch h1 = goarch h2;
  sm_cpus : num_cpu h1 = num_cpu h2;
}.

(** The metadata of a run's bundle, as [Compare] uses them. *)
Lemma run_metadata (h : Host) o metadata m :
  collectMetadata h o = Some metadata → without_configurations m = without_configurations metadata →
  OS m = goos h ∧ Architecture m = goarch h ∧ CPUCount m = num_cpu h ∧ GoVersion m = go_version h ∧
  RandomSeed m = Seed o ∧ HotRequestLogging m = false ∧ Parameters m = Some (parameters_of o) ∧ md_Profile m = o_Profile o.
Proof.
  unfold collectMetadata. intros (sha & _ & (status & _ & E)%bind_Some)%bind_Some Hm. injection E as <-.
  injection Hm. intros. by split_and!.
Qed.

Lemma metadata_parameters_ok `{TimeParse} m : c_ok metadata_codec m = true → c_ok (map_codec any_codec) (Parameters m) = true.
Proof.
  unfold metadata_codec, struct_codec, metadata_fields. cbn [c_ok fields_ok fst snd]. rewrite !andb_true_iff. intros Hm. tauto.
Qed.

Section two_runs.
Context `{FloatToInt} `{TimeParse} (env1 env2 : RunEnv) (options1 options2 : Options) (s1 s2 : RunState) (b1 b2 : Bundle).
Let o1 := setDefaults options1.
Let o2 := setDefaults options2.
Context (E1 : Run env1 options1 before_run = (Ok tt, s1)) (E2 : Run env2 options2 before_run = (Ok tt, s2)).
Context (Hb1 : rs_bundle s1 = Some b1) (Hb2 : rs_bundle s2 = Some b2).
Context (Hr1 : representable b1 = true) (Hr2 : representable b2 = true).
Context (Hexp : same_experiment o1 o2) (Hmach : same_machine (host env1) (host env2)).
Context (Hfs : filesystemIdentity (to_valid (Filesystem (b_Metadata b1))) = filesystemIdentity (to_valid (Filesystem (b_Metadata b2)))).

Let x1 := snd (reloaded b1).
Let x2 := snd (reloaded b2).

(** Both runs did the work of one profile. *)
Lemma same_profile : ∃ profile, ResolveProfile (o_Profile o1) = Some profile ∧
  (Completed x1 = true ∧ Completed x2 = true) ∧
  (tag <$> m_Workloads (b_Metrics b1) = profile_plan profile ∧ tag <$> m_Workloads (b_Metrics b2) = profile_plan profile) ∧
  shape (m_Scenarios x1) = shape (m_Scenarios x2).
Proof.
  destruct (run_success env1 options1 s1 E1) as (p1 & m1 & b1' & Hp1 & _ & Hb1' & _ & _ & Hc1 & Hd1 & Hs1).
  destruct (run_success env2 options2 s2 E2) as (p2 & m2 & b2' & Hp2 & _ & Hb2' & _ & _ & Hc2 & Hd2 & Hs2).
  assert (b1' = b1) as -> by congruence. assert (b2' = b2) as -> by congruence.
  fold o1 in Hp1. fold o2 in Hp2. rewrite <- (se_profile _ _ Hexp), Hp1 in Hp2. injection Hp2 as <-.
  destruct (plan_names _ _ Hp1) as (_ & _ & Hsc). exists p1. split_and!; [done..|].
  change (m_Scenarios x1) with (c_reread scenario_codec (m_Scenarios (b_Metrics b1))).
  change (m_Scenarios x2) with (c_reread scenario_codec (m_Scenarios (b_Metrics b2))). rewrite !reread_shape.
  assert (Hshape : ∀ r, all_recovered r → shape r = (false, (false, false, false, false))).
  { intros r ((? & Ha & _) & (? & Hb & _) & (? & Hc & _) & (? & Hd & _) & (? & He & _)).
    unfold shape. by rewrite Ha, Hb, Hc, Hd, He. }
  by rewrite (Hshape _ (Hs1 Hsc)), (Hshape _ (Hs2 Hsc)).
Qed.

Lemma comparison_verdict d1 d2 :
  let c := comparison d1 d2 (fst (reloaded b1)) x1 (fst (reloaded b2)) x2 in
  Comparable c = true ∧ ∀ i r1 r2 kind v1 v2,
    m_Workloads (b_Metrics b1) !! i = Some r1 → m_Workloads (b_Metrics b2) !! i = Some r2 →
    (kind, v1) ∈ metrics_of r1 → (kind, v2) ∈ metrics_of r2 → change (metric_key r1 kind) v1 v2 ∈ Changes c.
Proof.
  intros c. destruct same_profile as (profile & Hp & Hc & [Ht1 Ht2] & Hsh). destruct (plan_names _ _ Hp) as (Hwn & Hvt & _).
  assert (Hv : ∀ ws, tag <$> ws = profile_plan profile → Forall (λ r, valid_tag (tag r) = true) ws).
  { intros ws Hws. rewrite <- Hws, Forall_fmap in Hvt. exact Hvt. }
  assert (Hre : ∀ b, tag <$> m_Workloads (b_Metrics b) = profile_plan profile →
    tag <$> m_Workloads (snd (reloaded b)) = profile_plan profile).
  { intros b Hb. rewrite <- Hb. apply reread_tags. by apply Hv. }
  pose proof (comparison_sound d1 d2 (fst (reloaded b1)) x1 (fst (reloaded b2)) x2) as (Hiff & _ & _ & Hch). fold c in Hiff, Hch.
  split.
  - apply Hiff. clear Hiff Hch.
    destruct (run_success env1 options1 s1 E1) as (? & m1 & b1' & _ & Hm1 & Hb1' & Ho1 & _).
    destruct (run_success env2 options2 s2 E2) as (? & m2 & b2' & _ & Hm2 & Hb2' & Ho2 & _).
    assert (b1' = b1) as -> by congruence. assert (b2' = b2) as -> by congruence.
    apply (f_equal (λ x, snd (fst x))) in Ho1, Ho2. simpl in Ho1, Ho2.
    destruct (run_metadata _ _ _ _ Hm1 Ho1) as (HO1 & HA1 & HC1 & HG1 & HS1 & HL1 & HP1 & HF1).
    destruct (run_metadata _ _ _ _ Hm2 Ho2) as (HO2 & HA2 & HC2 & HG2 & HS2 & HL2 & HP2 & HF2). fold o1 in HS1, HP1, HF1. fold o2 in HS2, HP2, HF2.
    destruct Hexp as [Ep Es Ed Ew Ec Ei]. destruct Hmach as [Mg Mo Ma Mc].
    change (fst (reloaded ?b)) with (c_reread metadata_codec (b_Metadata b)).
    split_and!.
    + change (to_valid (OS (b_Metadata b1)) = to_valid (OS (b_Metadata b2))). by rewrite HO1, HO2, Mo.
    + change (to_valid (Architecture (b_Metadata b1)) = to_valid (Architecture (b_Metadata b2))). by rewrite HA1, HA2, Ma.
    + change (CPUCount (b_Metadata b1) = CPUCount (b_Metadata b2)). by rewrite HC1, HC2, Mc.
    + change (to_valid (GoVersion (b_Metadata b1)) = to_valid (GoVersion (b_Metadata b2))). by rewrite HG1, HG2, Mg.
    + change (RandomSeed (b_Metadata b1) = RandomSeed (b_Metadata b2)). by rewrite HS1, HS2.
    + change (HotRequestLogging (b_Metadata b1) = HotRequestLogging (b_Metadata b2)). by rewrite HL1, HL2.
    + exact Hfs.
    + change (params_equal (c_reread (map_codec any_codec) (Parameters (b_Metadata b1)))
                (c_reread (map_codec any_codec) (Parameters (b_Metadata b2))) = true).
      assert (Parameters (b_Metadata b2) = Parameters (b_Metadata b1)) as ->.
      { rewrite HP1, HP2. unfold parameters_of. by rewrite Ed, Ew, Ec, Ei. }
      apply params_reread_equal. apply andb_true_iff in Hr1 as [Hmd _]. by apply metadata_parameters_ok.
    + change (to_valid (md_Profile (b_Metadata b1)) = to_valid (md_Profile (b_Metadata b2))). by rewrite HF1, HF2, Ep.
    + apply Hc.
    + apply Hc.
    + apply dom_values; [|done]. unfold x1, x2. by rewrite !Hre.
  - intros i r1 r2 kind v1 v2 Hi1 Hi2 Hk1 Hk2. apply Hch.
    exists (metric_key r1 kind), v1, v2.
    assert (Hlook : ∀ b r v, tag <$> m_Workloads (b_Metrics b) = profile_plan profile → m_Workloads (b_Metrics b) !! i = Some r →
      (kind, v) ∈ metrics_of r → comparisonValues (snd (reloaded b)) !! metric_key r kind = Some v).
    { intros b r v Hb Hr Hkv. assert (Hval : valid_tag (tag r) = true).
      { pose proof (Hv _ Hb) as Hf. rewrite Forall_lookup in Hf. by eapply Hf. }
      rewrite <- (reread_key r kind Hval). apply comparison_value.
      - by rewrite (Hre b Hb).
      - change (m_Workloads (snd (reloaded b))) with (map (c_reread result_codec) (m_Workloads (b_Metrics b))).
        apply (list_elem_of_fmap_2 (c_reread result_codec)). by eapply list_elem_of_lookup_2.
      - by rewrite reread_metrics. }
    split_and!; [by apply Hlook| |done].
    assert (metric_key r1 kind = metric_key r2 kind) as ->; [|by apply Hlook].
    assert (Htag : tag r1 = tag r2).
    { assert (L1 : (tag <$> m_Workloads (b_Metrics b1)) !! i = Some (tag r1)) by (by rewrite list_lookup_fmap, Hi1).
      assert (L2 : (tag <$> m_Workloads (b_Metrics b2)) !! i = Some (tag r2)) by (by rewrite list_lookup_fmap, Hi2).
      rewrite Ht1 in L1. rewrite Ht2 in L2. congruence. }
    unfold tag in Htag. injection Htag as Hd Hw. unfold metric_key, value_prefix. by rewrite Hd, Hw.
Qed.
End two_runs.

(** C32. Two runs of one experiment are comparable.  If two runs succeed with the
    same profile, seed, durations, concurrency and pipeline depth, on machines of the same
    kind with the same storage, and their files are there, then [Compare] reads both and finds
    them comparable; and for every workload, in the order of the profile, the throughput and the
    two percentiles that the one run measured stand in one change beside those that the other
    measured for the same workload. *)
Theorem runs_comparable `{FloatToInt} `{TimeParse} env1 env2 options1 options2 s1 s2 b1 b2 read system_ok outputDir :
  Run env1 options1 before_run = (Ok tt, s1) → Run env2 options2 before_run = (Ok tt, s2) →
  rs_bundle s1 = Some b1 → rs_bundle s2 = Some b2 → representable b1 = true → representable b2 = true →
  same_experiment (setDefaults options1) (setDefaults options2) → same_machine (host env1) (host env2) →
  filesystemIdentity (to_valid (Filesystem (b_Metadata b1))) = filesystemIdentity (to_valid (Filesystem (b_Metadata b2))) →
  (∀ path data, rs_files s1 !! path = Some data → read path = Some data) →
  (∀ path data, rs_files s2 !! path = Some data → read path = Some data) →
  ∃ c e s, Compare read system_ok (b_Dir b1) (b_Dir b2) outputDir (mkFiles 0 []) = (Ok (c, e), s) ∧
    Comparable c = true ∧
    ∀ i r1 r2 kind v1 v2, m_Workloads (b_Metrics b1) !! i = Some r1 → m_Workloads (b_Metrics b2) !! i = Some r2 →
      (kind, v1) ∈ metrics_of r1 → (kind, v2) ∈ metrics_of r2 → change (metric_key r1 kind) v1 v2 ∈ Changes c.
Proof.
  intros E1 E2 Hb1 Hb2 Hr1 Hr2 Hexp Hmach Hfs Hread1 Hread2.
  pose proof (loads env1 options1 s1 b1 read E1 Hb1 Hr1 Hread1) as L1.
  pose proof (loads env2 options2 s2 b2 read E2 Hb2 Hr2 Hread2) as L2.
  destruct (comparison_verdict env1 env2 options1 options2 s1 s2 b1 b2 E1 E2 Hb1 Hb2 Hr1 Hexp Hmach Hfs (b_Dir b1) (b_Dir b2))
    as [Hc Hch].
  unfold Compare. rewrite L1, L2. unfold reloaded at 1 2. set (c := comparison _ _ _ _ _ _).
  unfold mbind at 1, GM_bind at 1, catch. pose proof (write_comparison_returns system_ok (b_Dir b2) outputDir c (mkFiles 0 [])) as Hw.
  destruct (write_comparison system_ok (b_Dir b2) outputDir c (mkFiles 0 [])) as [[u|e| |] s]; try done;
    by exists c; eexists _, _.
Qed.

(** ** Two runs *)
Module Example.
#[local] Existing Instances zero_in_run strict_in_run.

(** The same machine a second later, and slower. *)
Definition record (k : nat) : recordedOp := mkOp (if Nat.even k then §"GET" else §"SET") (of_int (100 + 7 * Z.of_nat k)) (Z.of_nat k * 1000000) true.
Definition machine (now : Z) (elapsed : Z) : RunEnv :=
  let h := ideal_host in
  mkRunEnv (λ _, ideal) (mkHost now (git_rev_parse h) (git_status h) (go_version h) (goos h) (goarch h) (num_cpu h) (stat_ok h)
      (df h) (meminfo h) (vm_stat h)) true true true (λ _, None)
    (λ _, mkMeasured None [mkWorkerResult None (Some (record <$> seq 0 6))] true (mkTiming 0 1000 None) elapsed None)
    (λ _ _, []) (λ _, 1000%Z) (λ _, []) (λ _, []) (λ _, []).
Definition first_run : RunEnv := machine 1753800000123000000 250000000.
Definition second_run : RunEnv := machine 1753800001123000000 300000000.

Definition first_end : RunState := snd (Run first_run smoke_options before_run).
Definition second_end : RunState := snd (Run second_run smoke_options before_run).
Definition no_bundle : Bundle := mkBundle [] (c_zero metadata_codec) new_metrics.
Definition first_bundle : Bundle := default no_bundle (rs_bundle first_end).
Definition second_bundle : Bundle := default no_bundle (rs_bundle second_end).
Definition both (path : gostring) : option gostring :=
  match rs_files first_end !! path with Some data => Some data | None => rs_files second_end !! path end.

Lemma fst_pair {A B} (p : A * B) a : fst p = a → p = (a, snd p).
Proof. by destruct p; intros <-. Qed.

Lemma first_run_ok : fst (Run first_run smoke_options before_run) = Ok tt.
Proof. vm_compute. reflexivity. Qed.
Lemma first_run_ends : Run first_run smoke_options before_run = (Ok tt, first_end).
Proof. exact (fst_pair (Run first_run smoke_options before_run) (Ok tt) first_run_ok). Qed.
Lemma second_run_ok : fst (Run second_run smoke_options before_run) = Ok tt.
Proof. vm_compute. reflexivity. Qed.
Lemma second_run_ends : Run second_run smoke_options before_run = (Ok tt, second_end).
Proof. exact (fst_pair (Run second_run smoke_options before_run) (Ok tt) second_run_ok). Qed.
Lemma first_has_bundle : rs_bundle first_end = Some first_bundle.
Proof.
  destruct (run_success first_run smoke_options first_end first_run_ends) as (? & ? & b & _ & _ & Hb & _).
  unfold first_bundle. by rewrite Hb.
Qed.
Lemma second_has_bundle : rs_bundle second_end = Some second_bundle.
Proof.
  destruct (run_success second_run smoke_options second_end second_run_ends) as (? & ? & b & _ & _ & Hb & _).
  unfold second_bundle. by rewrite Hb.
Qed.

Lemma first_files path data : rs_files first_end !! path = Some data → both path = Some data.
Proof. unfold both. by intros ->. Qed.
Lemma disjoint_files {A} (m1 m2 : gmap gostring A) path data : dom m1 ∩ dom m2 = ∅ → m2 !! path = Some data → m1 !! path = None.
Proof.
  intros Hd H2. destruct (m1 !! path) eqn:H1; [|done]. apply elem_of_dom_2 in H1, H2.
  assert (H : path ∈ dom m1 ∩ dom m2) by (by apply elem_of_intersection). by rewrite Hd in H.
Qed.
Lemma files_disjoint : dom (rs_files first_end) ∩ dom (rs_files second_end) = ∅.
Proof. vm_compute. reflexivity. Qed.
Lemma second_files path data : rs_files second_end !! path = Some data → both path = Some data.
Proof. intros H. unfold both. rewrite (disjoint_files _ _ _ _ files_disjoint H). exact H. Qed.

Lemma first_representable : representable first_bundle = true.
Proof. vm_compute. reflexivity. Qed.
Lemma second_representable : representable second_bundle = true.
Proof. vm_compute. reflexivity. Qed.

Lemma result_reloads_witness : loadResult (λ path, rs_files first_end !! path) (b_Dir first_bundle) = inr (reloaded first_bundle).
Proof.
  apply (result_reloads first_run smoke_options first_end first_bundle).
  - exact first_run_ends.
  - exact first_has_bundle.
  - exact first_representable.
  - intros path data H. exact H.
Defined.

Lemma runs_comparable_witness : ∃ c e s,
  Compare both (λ _, true) (b_Dir first_bundle) (b_Dir second_bundle) [] (mkFiles 0 []) = (Ok (c, e), s) ∧ Comparable c = true ∧
  ∀ i r1 r2 kind v1 v2, m_Workloads (b_Metrics first_bundle) !! i = Some r1 → m_Workloads (b_Metrics second_bundle) !! i = Some r2 →
    (kind, v1) ∈ metrics_of r1 → (kind, v2) ∈ metrics_of r2 → change (metric_key r1 kind) v1 v2 ∈ Changes c.
Proof.
  apply (runs_comparable first_run second_run smoke_options smoke_options first_end second_end first_bundle second_bundle).
  - exact first_run_ends.
  - exact second_run_ends.
  - exact first_has_bundle.
  - exact second_has_bundle.
  - exact first_representable.
  - exact second_representable.
  - split; reflexivity.
  - split; reflexivity.
  - vm_compute. reflexivity.
  - exact first_files.
  - exact second_files.
Defined.
End Example.
