(* ===== verification/Command.v ===== *)
(** * The benchmark command (benchmarks/cmd/skiffdb-bench/main.go)

    The two subcommands with their flags, and the exit status.  The flags of [run]
    are [Options]; [command_options] is the round trip: all options can be given
    on the command line and are read back.  [bench_exit] says when the command
    succeeds. *)

From S2P Require Import Prelude GoLib Resp MemDB CmdExecutor Utf8 Json Fsm RespServer Client Config CommandLine Identity Startup Float64 FloatText JsonCodec Rfc3339 Workload Harness Measure Results Host Compare Run.

(** ** Integers with a base prefix: [strconv.ParseInt(s, 0, 64)] *)
Definition lower_byte (c : ascii) : ascii := ascii_of_N (N.lor (byte c) 32).

Definition digit_of (c : ascii) : option Z :=
  if is_digit c then Some (digit_val c)
  else let l := byte (lower_byte c) in
       if (97 <=? l)%N && (l <=? 122)%N then Some (Z.of_N l - 97 + 10)%Z else None.

(** The digits in a base; underscores are skipped here. *)
Fixpoint base_digits (base acc : Z) (s : gostring) : option Z :=
  match s with
  | [] => Some acc
  | c :: s =>
      if bool_decide (c = "_"%char) then base_digits base acc s
      else match digit_of c with
           | Some d => if (d <? base)%Z then base_digits base (acc * base + d) s else None
           | None => None
           end
  end.

(** The base and the digits of a number. *)
Definition base_prefix (s : gostring) : Z * gostring :=
  match s with
  | c :: s1 =>
      if bool_decide (c = "0"%char) then
        match s1 with
        | p :: ((_ :: _) as s2) =>
            let l := lower_byte p in
            if bool_decide (l = "b"%char) then (2, s2)
            else if bool_decide (l = "o"%char) then (8, s2)
            else if bool_decide (l = "x"%char) then (16, s2) else (8, s1)
        | _ => (8, s1)
        end%Z
      else (10%Z, s)
  | [] => (10%Z, [])
  end.

(** [underscoreOK]: an underscore stands between digits; a base prefix counts as a
    digit.  [after_digit] and [after_mark] say what was seen last. *)
Fixpoint underscores (hex after_digit after_mark : bool) (s : gostring) : bool :=
  match s with
  | [] => negb after_mark
  | c :: s =>
      let l := byte (lower_byte c) in
      if is_digit c || (hex && (97 <=? l)%N && (l <=? 102)%N) then underscores hex true false s
      else if bool_decide (c = "_"%char) then after_digit && underscores hex false true s
      else if after_mark then false else underscores hex false false s
  end.

Definition underscoreOK (s : gostring) : bool :=
  match s with
  | c :: p :: rest =>
      let l := lower_byte p in
      if bool_decide (c = "0"%char) && bool_decide (l ∈ ["b"; "o"; "x"]%char)
      then underscores (bool_decide (l = "x"%char)) true false rest else underscores false false false s
  | _ => underscores false false false s
  end.

Definition parse_uint0 (s : gostring) : option Z :=
  match s with
  | [] => None
  | _ =>
      let '(base, digits) := base_prefix s in
      n ← base_digits base 0 digits;
      if bool_decide ("_"%char ∈ digits) && negb (underscoreOK s) then None else Some n
  end.

Definition parse_int0 (s : gostring) : option Z :=
  let check n := if bool_decide (in_int64 n) then Some n else None in
  match s with
  | c :: s' =>
      if bool_decide (c = "-"%char) then n ← parse_uint0 s'; check (- n)%Z
      else if bool_decide (c = "+"%char) then n ← parse_uint0 s'; check n
      else n ← parse_uint0 s; check n
  | [] => None
  end.

Example parse_int0_test :
  parse_int0 §"0x_1F" = Some 31%Z ∧ parse_int0 §"-1_000" = Some (-1000)%Z ∧ parse_int0 §"017" = Some 15%Z ∧
  parse_int0 §"0" = Some 0%Z ∧ parse_int0 §"1__0" = None ∧ parse_int0 §"08" = None ∧ parse_int0 §"9223372036854775808" = None.
Proof. vm_compute. done. Qed.

(** ** Durations: [time.ParseDuration] *)
Definition unit_of (u : gostring) : option Z :=
  let named n := bool_decide (u = n) in
  if named §"ns" then Some 1%Z
  else if named §"us" || named §"µs" || named §"μs" then Some 1000%Z
  else if named §"ms" then Some Millisecond
  else if named §"s" then Some Second
  else if named §"m" then Some (60 * Second)%Z
  else if named §"h" then Some (3600 * Second)%Z
  else None.

(** [leadingFraction]: digits that do not fit are dropped. *)
Fixpoint leading_fraction (x : Z) (scale : float64) (full : bool) (s : gostring) : Z * float64 * gostring :=
  match s with
  | c :: s' =>
      if is_digit c then
        let y := (x * 10 + digit_val c)%Z in
        if full || ((2 ^ 63 - 1) / 10 <? x)%Z || (2 ^ 63 <? y)%Z then leading_fraction x scale true s'
        else leading_fraction y (fmul scale (of_int 10)) false s'
      else (x, scale, s)
  | [] => (x, scale, [])
  end.

Fixpoint take_unit (s : gostring) : gostring * gostring :=
  match s with
  | c :: s' =>
      if bool_decide (c = "."%char) || is_digit c then ([], s)
      else let '(u, r) := take_unit s' in (c :: u, r)
  | [] => ([], [])
  end.

Section duration.
Context `{FloatToInt}.

(** One number with its unit. *)
Definition duration_part (s : gostring) : option (Z * gostring) :=
  let '(i, s1) := take_digits s in
  let v := digits_val i in
  let '(f, scale, post, s2) :=
    match after "." s1 with
    | Some r => let '(f, scale, s2) := leading_fraction 0 (of_int 1) false r in (f, scale, starts_digit r, s2)
    | None => (0%Z, of_int 1, false, s1)
    end in
  let '(u, s3) := take_unit s2 in
  if (2 ^ 63 <? v)%Z || (bool_decide (i = []) && negb post) || bool_decide (u = []) then None
  else
    unit ← unit_of u;
    if (2 ^ 63 / unit <? v)%Z then None
    else
      let v := (v * unit + if (0 <? f)%Z then to_int (fmul (of_int f) (fdiv (of_int unit) scale)) else 0)%Z in
      if (2 ^ 63 <? v)%Z then None else Some (v, s3).

Fixpoint duration_parts (fuel : nat) (d : Z) (s : gostring) : option Z :=
  match fuel, s with
  | _, [] => Some d
  | O, _ => None
  | S fuel, _ =>
      '(v, s') ← duration_part s;
      if (2 ^ 63 <? d + v)%Z then None else duration_parts fuel (d + v) s'
  end.

Definition ParseDuration (s : gostring) : option Z :=
  let '(neg, s1) :=
    match s with
    | c :: s' => if bool_decide (c = "-"%char) then (true, s') else if bool_decide (c = "+"%char) then (false, s') else (false, s)
    | [] => (false, [])
    end in
  if bool_decide (s1 = §"0") then Some 0%Z
  else if bool_decide (s1 = []) then None
  else
    d ← duration_parts (length s1) 0 s1;
    if neg then Some (- d)%Z else if (2 ^ 63 - 1 <? d)%Z then None else Some d.
End duration.

Example duration_test :
  let _ : FloatToInt := λ _, 0%Z in
  ParseDuration §"1.5s" = Some 1500000000%Z ∧ ParseDuration §"-1h2m" = Some (-3720000000000)%Z ∧
  ParseDuration §"500ms" = Some 500000000%Z ∧ ParseDuration §"5" = None ∧ ParseDuration §".s" = None ∧
  ParseDuration §"9223372036854775808ns" = None.
Proof. vm_compute. done. Qed.

(** ** Flag sets *)

(** A flag's name, whether it is boolean, and its [Set]. *)
Definition FlagSet (T : Type) : Type := list (gostring * (bool * (gostring → T → option T))).

Definition find_flag {T} (name : gostring) (fs : FlagSet T) : option (bool * (gostring → T → option T)) :=
  snd <$> List.find (λ f, bool_decide (fst f = name)) fs.

(** What [Parse] does with [flag.ExitOnError]: the values and the other
    arguments, or the end of the process, with status 0 for the help. *)
Inductive Parsed (T : Type) := ParsedTo (x : T) (rest : list gostring) | ParseHelp | ParseBad.
Arguments ParsedTo {T}.
Arguments ParseHelp {T}.
Arguments ParseBad {T}.

Fixpoint parse_flags {T} (fs : FlagSet T) (args : list gostring) (x : T) : Parsed T :=
  match args with
  | [] => ParsedTo x []
  | s :: args' =>
      match read_argument s with
      | AEnd => ParsedTo x (if bool_decide (s = §"--") then args' else args)
      | ABad => ParseBad
      | AFlag name value =>
          match find_flag name fs with
          | None => if bool_decide (name ∈ [§"h"; §"help"]) then ParseHelp else ParseBad
          | Some (true, set) =>
              match set (default §"true" value) x with Some x' => parse_flags fs args' x' | None => ParseBad end
          | Some (false, set) =>
              match value, args' with
              | Some v, _ => match set v x with Some x' => parse_flags fs args' x' | None => ParseBad end
              | None, v :: args'' => match set v x with Some x' => parse_flags fs args'' x' | None => ParseBad end
              | None, [] => ParseBad
              end
          end
      end
  end.

(** ** The command *)
Section command.
Context `{FloatToInt}.

Definition run_flags : FlagSet Options :=
  let str (set : gostring → Options → Options) := (false, λ v o, Some (set v o)) in
  let num (set : Z → Options → Options) := (false, λ v o, n ← parse_int0 v; Some (set n o)) in
  let dur (set : Z → Options → Options) := (false, λ v o, d ← ParseDuration v; Some (set d o)) in
  [ (§"profile", str (λ v '(mkOptions a b c d e f g h i j), mkOptions v b c d e f g h i j));
    (§"results", str (λ v '(mkOptions a b c d e f g h i j), mkOptions a v c d e f g h i j));
    (§"server", str (λ v '(mkOptions a b c d e f g h i j), mkOptions a b v d e f g h i j));
    (§"build-command", str (λ v '(mkOptions a b c d e f g h i j), mkOptions a b c v e f g h i j));
    (§"duration", dur (λ v '(mkOptions a b c d e f g h i j), mkOptions a b c d v f g h i j));
    (§"warmup", dur (λ v '(mkOptions a b c d e f g h i j), mkOptions a b c d e v g h i j));
    (§"concurrency", num (λ v '(mkOptions a b c d e f g h i j), mkOptions a b c d e f v h i j));
    (§"pipeline", num (λ v '(mkOptions a b c d e f g h i j), mkOptions a b c d e f g v i j));
    (§"seed", num (λ v '(mkOptions a b c d e f g h i j), mkOptions a b c d e f g h v j));
    (§"keep-data", (true, λ v o, k ← ParseBool v;
       let '(mkOptions a b c d e f g h i j) := o in Some (mkOptions a b c d e f g h i k))) ].

Definition run_defaults : Options :=
  mkOptions §"smoke" §"benchmarks/results" §"./skiffdb-server" §"go build -o ./skiffdb-server ." (2 * Second) (500 * Millisecond)
    4 1 1 false.

Definition compare_flags : FlagSet gostring := [(§"output", (false, λ v _, Some v))].

(** What the arguments of the process ask for. *)
Inductive Invocation :=
| Usage | BadFlags | Help | InvokeRun (options : Options) | CompareUsage | InvokeCompare (baseline candidate output : gostring).

Definition read_command (args : list gostring) : Invocation :=
  match args with
  | [] => Usage
  | sub :: args =>
      if bool_decide (sub = §"run") then
        match parse_flags run_flags args run_defaults with
        | ParsedTo options _ => InvokeRun options
        | ParseHelp => Help
        | ParseBad => BadFlags
        end
      else if bool_decide (sub = §"compare") then
        match parse_flags compare_flags args [] with
        | ParsedTo output [baseline; candidate] => InvokeCompare baseline candidate output
        | ParsedTo _ _ => CompareUsage
        | ParseHelp => Help
        | ParseBad => BadFlags
        end
      else Usage
  end.

(** The exit status of the process; a panic is 2 as well. *)
Definition bench_main `{TimeParse} (env : RunEnv) (read : gostring → option gostring) (system_ok : nat → bool)
    (args : list gostring) : Z :=
  match read_command args with
  | Usage | BadFlags | CompareUsage => 2
  | Help => 0
  | InvokeRun options =>
      match Run env options before_run with (Ok _, _) => 0 | (Err _, _) => 1 | _ => 2 end
  | InvokeCompare baseline candidate output =>
      match Compare read system_ok baseline candidate output (mkFiles 0 []) with
      | (Ok (_, None), _) => 0
      | (Ok (_, Some _), _) => 1
      | _ => 2
      end
  end%Z.
End command.

(** ** Options are read back *)
Lemma base_digits_decimal acc s : forallb is_digit s = true →
  base_digits 10 acc s = Some (fold_left (λ acc c, acc * 10 + digit_val c)%Z s acc).
Proof.
  revert acc. induction s as [|c s IH]; intros acc Hs; [done|]. apply andb_true_iff in Hs as [Hc Hs]. simpl.
  rewrite bool_decide_false by (by intros ->). unfold digit_of. rewrite Hc.
  assert (digit_val c <? 10 = true)%Z as ->; [|by apply IH].
  unfold is_digit in Hc. apply andb_true_iff in Hc as [H1%N.leb_le H2%N.leb_le]. apply Z.ltb_lt. unfold digit_val. lia.
Qed.

Lemma parse_uint0_udec n : (0 ≤ n)%Z → parse_uint0 (udec n) = Some n.
Proof.
  intros Hn. destruct (udec_spec n Hn) as (Hne & Hd & Hv). pose proof (udec_int_ok n Hn) as [H0|Hi].
  - rewrite H0 in Hv |- *. rewrite <- Hv. reflexivity.
  - destruct (udec n) as [|c d] eqn:E; [done|]. destruct Hi as (c' & d' & [= <- <-] & Hc & _). unfold parse_uint0, base_prefix.
    rewrite bool_decide_false by done. rewrite base_digits_decimal by done. cbn [mbind option_bind].
    rewrite (bool_decide_false ("_"%char ∈ _)) by (by apply forallb_is_digit_nosep). cbn [andb]. f_equal. exact Hv.
Qed.

Lemma parse_int0_Itoa z : in_int64 z → parse_int0 (Itoa z) = Some z.
Proof.
  intros Hz. unfold Itoa. destruct (Z.ltb_spec z 0) as [Hneg|Hpos].
  - unfold parse_int0. rewrite bool_decide_true by done. rewrite parse_uint0_udec by lia. cbn [mbind option_bind].
    rewrite Z.opp_involutive. by rewrite bool_decide_true.
  - pose proof (parse_uint0_udec z Hpos) as Hp. destruct (udec_spec z Hpos) as (Hne & Hd & _).
    destruct (udec z) as [|c d]; [done|]. apply andb_true_iff in Hd as [[Hm Hs]%digit_not_sign _].
    unfold parse_int0. rewrite !bool_decide_false by done. rewrite Hp. cbn [mbind option_bind]. by rewrite bool_decide_true.
Qed.

(** A duration as a number of duration_text. *)
Definition duration_text (d : Z) : gostring := Itoa d ++ §"ns".

Section readback.
Context `{FloatToInt}.

Lemma duration_part_ns v : (0 ≤ v ≤ 2 ^ 63)%Z → duration_part (udec v ++ §"ns") = Some (v, []).
Proof.
  intros Hv. destruct (udec_spec v) as (Hne & Hd & Hval); [lia|]. unfold duration_part.
  rewrite take_digits_app by done. rewrite Hval. change (after "." §"ns") with (@None gostring). cbv iota beta zeta.
  change (take_unit §"ns") with (§"ns", @nil ascii). rewrite (bool_decide_false (udec v = [])) by done.
  rewrite (bool_decide_false (§"ns" = [])) by done. change (unit_of §"ns") with (Some 1%Z). cbn [mbind option_bind andb orb].
  rewrite Z.div_1_r, Z.mul_1_r, Z.add_0_r. rewrite (proj2 (Z.ltb_ge _ _)) by lia. done.
Qed.

Lemma duration_ns v : (0 ≤ v ≤ 2 ^ 63)%Z → duration_parts (length (udec v ++ §"ns")) 0 (udec v ++ §"ns") = Some v.
Proof.
  intros Hv. pose proof (duration_part_ns v Hv) as Hp. destruct (udec v ++ §"ns") as [|c s] eqn:E; [by apply app_nil in E as [_ E]|].
  cbn [length duration_parts]. rewrite Hp. cbn [mbind option_bind]. rewrite Z.add_0_l, (proj2 (Z.ltb_ge _ _)) by lia.
  by destruct (length s).
Qed.

Lemma ParseDuration_ns d : in_int64 d → ParseDuration (duration_text d) = Some d.
Proof.
  assert (Hz : ∀ v, udec v ++ §"ns" ≠ §"0" ∧ udec v ++ §"ns" ≠ []).
  { intros v. split; intros E; apply (f_equal length) in E; rewrite length_app in E; simpl in E; lia. }
  unfold in_int64. intros Hd. unfold duration_text, Itoa. destruct (Z.ltb_spec d 0) as [Hneg|Hpos].
  - unfold ParseDuration. cbn [app]. rewrite bool_decide_true by done. rewrite !bool_decide_false by apply Hz.
    rewrite duration_ns by lia. cbn [mbind option_bind]. by rewrite Z.opp_involutive.
  - pose proof (duration_ns d ltac:(lia)) as Hp. destruct (udec_spec d Hpos) as (Hne & Hdig & _). destruct (Hz d) as [H0 Hnil].
    destruct (udec d) as [|c s]; [done|]. apply andb_true_iff in Hdig as [[Hm Hs]%digit_not_sign _]. cbn [app] in *.
    unfold ParseDuration. rewrite (bool_decide_false (c = "-"%char)), (bool_decide_false (c = "+"%char)) by done.
    rewrite !bool_decide_false by done. rewrite Hp. cbn [mbind option_bind]. by rewrite (proj2 (Z.ltb_ge _ _)) by lia.
Qed.

(** A flag with its value in one argument; all options as arguments of [run]. *)
Definition argument (name value : gostring) : gostring := §"-" ++ name ++ §"=" ++ value.

Definition run_arguments (o : Options) : list gostring :=
  [ argument §"profile" (o_Profile o); argument §"results" (ResultsRoot o); argument §"server" (ServerBinary o);
    argument §"build-command" (BuildCommand o); argument §"duration" (duration_text (Duration o));
    argument §"warmup" (duration_text (Warmup o)); argument §"concurrency" (Itoa (Concurrency o));
    argument §"pipeline" (Itoa (PipelineDepth o)); argument §"seed" (Itoa (Seed o));
    argument §"keep-data" (show_bool (KeepData o)) ].

Lemma parse_flag {T} (fs : FlagSet T) name value args isbool (set : gostring → T → option T) x x' :
  read_argument (argument name value) = AFlag name (Some value) → find_flag name fs = Some (isbool, set) →
  set value x = Some x' → parse_flags fs (argument name value :: args) x = parse_flags fs args x'.
Proof. intros Hr Hf Hs. cbn [parse_flags]. rewrite Hr, Hf. simpl. destruct isbool; by rewrite Hs. Qed.

(** The numbers of the options have the widths of their types. *)
Definition options_wf (o : Options) : Prop :=
  in_int64 (Duration o) ∧ in_int64 (Warmup o) ∧ in_int64 (Concurrency o) ∧ in_int64 (PipelineDepth o) ∧ in_int64 (Seed o).

(** All options can be given on the command line and are read back, whatever
    bytes the texts hold. *)
Lemma command_options o : options_wf o → read_command (§"run" :: run_arguments o) = InvokeRun o.
Proof.
  intros (Hd & Hw & Hc & Hp & Hs). destruct o as [profile results server build duration warmup concurrency pipeline seed keep].
  simpl in Hd, Hw, Hc, Hp, Hs. unfold read_command. rewrite bool_decide_true by done.
  assert (parse_flags run_flags (run_arguments (mkOptions profile results server build duration warmup concurrency pipeline
    seed keep)) run_defaults = ParsedTo (mkOptions profile results server build duration warmup concurrency pipeline seed keep) [])
    as ->; [|done].
  unfold run_arguments. simpl o_Profile.
  erewrite (parse_flag run_flags §"profile") by reflexivity. erewrite (parse_flag run_flags §"results") by reflexivity.
  erewrite (parse_flag run_flags §"server") by reflexivity. erewrite (parse_flag run_flags §"build-command") by reflexivity.
  erewrite (parse_flag run_flags §"duration"); [|reflexivity..|cbv beta; rewrite ParseDuration_ns by done; reflexivity].
  erewrite (parse_flag run_flags §"warmup"); [|reflexivity..|cbv beta; rewrite ParseDuration_ns by done; reflexivity].
  erewrite (parse_flag run_flags §"concurrency"); [|reflexivity..|cbv beta; rewrite parse_int0_Itoa by done; reflexivity].
  erewrite (parse_flag run_flags §"pipeline"); [|reflexivity..|cbv beta; rewrite parse_int0_Itoa by done; reflexivity].
  erewrite (parse_flag run_flags §"seed"); [|reflexivity..|cbv beta; rewrite parse_int0_Itoa by done; reflexivity].
  destruct keep; reflexivity.
Qed.

(** The defaults of the command are the ones [setDefaults] gives. *)
Lemma run_defaults_kept : setDefaults run_defaults = run_defaults ∧
  setDefaults (mkOptions [] [] [] [] 0 (500 * Millisecond) 0 0 0 false) = run_defaults.
Proof. done. Qed.

(** The status is 0 only after a run that completed and was written, after a
    comparison that was written, or when help was asked for; 2 is bad usage. *)
Lemma bench_exit `{TimeParse} env read system_ok args :
  (∀ k, listeners_distinct (cluster_env env k)) → (∀ k, temp_dir_ok (cluster_env env k)) →
  let status := bench_main env read system_ok args in
  match read_command args with
  | InvokeRun options =>
      let '(o, _) := Run env options before_run in (status = 0%Z ∧ o = Ok tt) ∨ (status = 1%Z ∧ ∃ e, o = Err e)
  | InvokeCompare baseline candidate output => ∃ c e s,
      Compare read system_ok baseline candidate output (mkFiles 0 []) = (Ok (c, e), s) ∧
      ((status = 0%Z ∧ e = None) ∨ (status = 1%Z ∧ e ≠ None))
  | Help => status = 0%Z
  | _ => status = 2%Z
  end.
Proof.
  intros Hl Ht. cbv zeta. unfold bench_main. destruct (read_command args) as [| | |options| |baseline candidate output]; try done.
  - pose proof (run_idle env options Hl Ht before_run (Forall_nil_2 _)) as Hr.
    destruct (Run env options before_run) as [[[]|e| |] s]; try done; eauto.
  - pose proof (compare_files read system_ok baseline candidate output) as Hc.
    destruct (Compare read system_ok baseline candidate output (mkFiles 0 [])) as [o s]. destruct Hc as (c & e & -> & _).
    exists c, e, s. split; [done|]. destruct e; [right|left]; done.
Qed.
End readback.
